(* ===== verification/_CoqProject ===== *)
-Q . S2P
Prelude.v
DLL.v
Algorithm.v
LRU.v
CAWOLFU.v
ARC.v
Item.v
Clock.v
Heap.v
LFU.v
Eviction.v
CMap.v
Backend.v
HyperCache.v
Construct.v
Ring.v
Membership.v
Hints.v
DistNode.v
Merkle.v
Cluster.v
Pool.v
RepairQueue.v
Rebalance.v
Auth.v
EventBus.v
Transport.v
Client.v
Server.v
Stats.v
Management.v
Topology.v
Jobs.v
Chaos.v
Schedule.v
DistBuild.v
PeerHTTP.v
Redis.v
Middleware.v
DistBackend.v
ClientOptions.v
Factory.v
Float.v
ServerRun.v
PeerLink.v
StatsView.v
