(* ===== verification/Prelude.v ===== *)
(** * HyperCache: a verification development

    HyperCache is a cache in Go: a core with pluggable eviction algorithms over an
    in-memory or Redis backend, and a distributed in-memory backend that shards
    keys over a cluster with a consistent-hash ring, gossip membership, quorum
    reads and writes, hinted handoff, read repair, Merkle anti-entropy and
    rebalancing.  This library models that code as functions and step relations and
    proves what makes it correct.

    ** The parts and how they interact

    - The cache core ([HyperCache.Set], [Get], [Remove] and the eviction and
      expiration jobs) stores items in a backend and reports every write and read to
      an eviction algorithm, which names the victims.  The backend is a concurrent
      map of items, or a Redis database that keeps them serialized with a set of their
      keys.  Background jobs run on a worker pool.  Middlewares and a typed wrapper stand
      in front of the core; a factory builds it from a configuration.
    - A node of the distributed backend keeps its items and tombstones in shards,
      asks the ring for the owners of a key, and reaches other nodes through a
      transport.  Membership changes rebuild the ring.  Writes that cannot be
      delivered become hints; reads repair stale owners; anti-entropy and the
      rebalancer move items between nodes.  Membership changes are broadcast on the
      event bus.
    - The server binary puts a REST API in front of a node, guarded by an
      authentication policy; its environment configures the node, and its shutdown drains
      it.  The client library talks to it.  Nodes talk to each other through an HTTP
      transport and server with their own shared token.  A management port shows and controls the cache and
      streams topology events.

    ** The files

    - [Prelude]: Go values, errors, machine integers, strings, association lists,
      maps split over shards, sums over maps, the [hyper] hint database.
    - [DLL]: intrusive doubly linked lists on a heap of nodes, shared by the LRU,
      CAWOLFU and ARC algorithms.  [Heap]: container/heap.
    - [Algorithm], [LRU], [CAWOLFU], [ARC], [Clock], [LFU], [Eviction]
      (src/pkg/eviction): the interface [IAlgorithm] as a class with laws, the five
      algorithms on their real data structures, the registry and the sharded
      wrapper, which is proved sound from the class laws alone.
    - [Item] (src/pkg/cache/v2/item.go, hash.go), [CMap] (cmap.go), [Backend]
      (src/pkg/backend/inmemory.go, filters.go), with the backend interface as a
      class with laws.
    - [HyperCache], [Construct] (src/hypercache.go, hypercache_io.go,
      hypercache_eviction.go, hypercache_expiration.go, hypercache_construct.go,
      config.go): the core, proved against the two classes and then instantiated.
    - [Pool] (src/pool.go): the worker pool as interleaved steps.
    - [Ring], [Membership] (src/internal/cluster, and the gossip and heartbeat code of
      src/pkg/backend/dist_memory.go).
    - [Hints], [DistNode], [Merkle], [Cluster], [RepairQueue], [Rebalance]
      (src/pkg/backend/dist_memory.go, dist_transport.go, dist_read_repair.go): the
      distributed backend over the in-process transport.
    - [Auth] (src/pkg/httpauth): credentials, scopes and the policy loader.
    - [EventBus] (src/internal/eventbus/bus.go): the broadcaster as interleaved steps.
    - [Transport] (src/pkg/backend/dist_http_transport.go, dist_http_server.go,
      dist_keys.go): items on the wire, paged and cluster-wide key listings.
    - [Client] (src/pkg/client): fail-over, topology refresh, batches.
    - [Server] (src/cmd/hypercache-server): the API's handlers over the class
      [CacheService], its routes and scopes, JWT claims and the start-up policy.
    - [Stats] (src/pkg/stats/histogramcollector.go, src/pkg/backend/dist_latency.go): the
      lock-free histogram as interleaved atomic steps.
    - [Schedule] (src/pkg/backend/dist_memory.go): the heartbeat, gossip and anti-entropy
      ticks with their random choices and the adaptive back-off.
    - [Management], [Topology] (src/management_http.go, src/hypercache_dist.go,
      src/pkg/backend/dist_memory_events.go): the management server over a class of
      caches, and the Server-Sent Events of the membership.
    - [Jobs] (src/hypercache_expiration.go, hypercache_eviction.go): the background
      routines and the callers of their triggers as interleaved steps.
    - [Chaos] (src/pkg/backend/dist_transport.go, dist_chaos.go): the transport interface
      as a record of operations, fault injection for every transport, gossip on the wire.
    - [DistBuild] (src/pkg/backend/dist_memory.go): options, construction, peer
      authentication, the loops that are started, Stop and Drain.
    - [PeerHTTP] (src/pkg/backend/dist_http_server.go, dist_http_transport.go): the routes
      between nodes with their authentication, and the transport that calls them, over a
      class of clusters.
    - [Redis] (src/pkg/backend/redis.go, redis_cluster.go, redis_common.go, options.go,
      src/internal/libs/serializer): the Redis backends over a class of servers that
      perform commands, and the registry of serializers.
    - [Middleware] (src/pkg/middleware, src/service.go, src/hypercache_typed.go): the
      service interface as a record, the four middlewares and the typed wrapper.
    - [DistBackend] (src/pkg/backend/dist_memory.go): the rest of the backend interface of
      a node, and the keys that a sync over HTTP looks for.
    - [ClientOptions] (src/pkg/client/client.go, options.go, oidc_logging.go): options,
      credentials, Identity, Close and the log of token rotations.
    - [Factory] (src/factory.go, hypercache_construct.go, hypercache.go, config.go,
      src/pkg/stats/collector.go): the registry of backends, New with its errors, Stop.
    - [Float]: Go's float64 on the binary floats of the Standard Library.
    - [ServerRun] (src/cmd/hypercache-server/main.go): the environment and its parsers,
      TLS, the start and the shutdown of the process.
    - [PeerLink] (src/pkg/backend/dist_http_server.go, dist_http_transport.go,
      dist_memory.go): limits, bodies, addresses and the life of the inter-node server.
    - [StatsView] (src/pkg/stats/histogramcollector.go): the collector over the statistics
      of [Stats], with means, medians, percentiles and variances in floating point.

    ** How the code is modelled

    A method becomes a function from the receiver's state; a nil dereference, an
    index out of range or a division by zero is [None], and the theorems prove that
    it does not happen.  Fallible functions return [result] or an optional [error].
    Pointers are locations in a heap where the code relies on aliasing (the linked
    lists, the LFU heap).  Integers are [Z] with their wrap-around ([u8], [u32],
    [u64], [i64]).  The clock, the order in which Go iterates over a map, and the
    order in which goroutines finish are arguments or labels, so the theorems hold
    for all of them.  Where goroutines share state ([Pool], [EventBus], [RepairQueue],
    [Stats], [Jobs], the membership observers), the model is a step function on labels with runs as
    reachability, at the grain of the locks, channels and atomics of the code;
    elsewhere a lock makes each operation atomic and the model is sequential.
    Third-party code (xxhash, CBOR, bcrypt, YAML, the JSON size of a value) is a
    parameter of the definitions.

    ** What the theorems show

    - Refinement: each eviction algorithm answers every sequence of calls as a short
      abstract machine does (a recency list, a frequency table, a ring of slots), the
      sharded concurrent map answers as one flat map, CAWOLFU answers as LRU, and a Redis
      backend answers as a table of items with deadlines.  Middlewares change no answer but
      the statistics, and those by exactly what they record.
    - Safety and bounds of the core: no run panics, cancelled contexts included; stored
      bytes stay within the limit as long as no removal names a key twice; a successful
      write is visible unless the eviction algorithm names that very key; only stored keys
      are tracked until a Clear is cancelled; the jobs remove exactly what they should and
      terminate.
    - The pool and the event bus: no interleaving panics (one documented exception),
      accepted jobs run exactly once, events are delivered or counted.
    - The cluster: ring lookups and their stability, gossip convergence, the exact
      outcome of reads, writes and removals with what every node stores after a read
      repair, read-your-writes for quorum writes that the primary or a promoted replica
      runs, what became of every hint and of the newest repair of a key, anti-entropy, and
      that a rebalance tick on a shared ring loses no item and settles.
    - Authentication: no request passes without a granted credential and scope,
      loaded policies are well formed, Basic headers round trip, no request without
      the write scope changes the cache.
    - The wire: calls over HTTP do what the in-process calls do up to what JSON changes and
      a list of exceptions, a value written through the API comes back unchanged from every node,
      listings are complete, and a client request returns after trying each endpoint at
      most once.
    - The management port: no request without the admin scope changes the cache; a client
      of the event stream that keeps up sees the current membership.
    - Statistics: concurrent recorders lose nothing and finish, and the snapshot of a
      collector has exactly what was recorded.
    - The server process: it drains before it stops serving, and exits when the shutdown of
      its worker pool returns but waits for ever when it does not; it guards its inter-node port by one variable; which variable is not used at all.
    - Life cycle: a backend built with any options can be stopped, and every goroutine it
      started ends.
    - A few theorems state behaviour that contradicts the documentation or loses
      data; they are the evidence of the findings recorded with the development.

    ** Bounds and fuel

    Recursion is structural on the data wherever the code loops over it.  Fuel appears
    where a Go loop has no bound of its own: sifting in [Heap] (a path is shorter than
    the heap), the free-slot search of [Clock] (one turn of the hand), the binary
    search of [Ring] (the length of the array), the eviction job of [HyperCache] (its
    quota), [Rebalance.batches] (a batch takes at least one item) and the parser of
    durations in [ServerRun] (each number takes at least one byte).
    Each has a lemma that the fuel the code's definitions pass is enough, and no
    theorem assumes that the fuel did not run out.

    ** Not modelled

    The Redis server and client with its connection options, the JSON, YAML and CBOR
    codecs, bcrypt and the OIDC library are parameters or left out: their code is not part
    of the repository.  The web framework, sockets, TLS handshakes, the URL parser, logging
    and telemetry instruments are left out because they do not decide what the cache holds
    or answers; so are the timers that call the modelled ticks, the examples and the
    tests. *)

From stdpp Require Import base gmap strings list list_numbers.
From Stdlib Require Import ZArith Lia.

#[global] Set Default Goal Selector "!".

(** ** Go values, errors and machine integers *)

(** A pointer to an allocated cell. *)
Abbreviation loc := positive.

(** Go's [any], split the way the sources inspect it: [Item.SetSize] has fast
    paths for [[]byte], [string], [encoding.BinaryMarshaler] (the result of
    [MarshalBinary] is carried, [None] for an error) and [Sizer]; every other
    dynamic type is opaque. *)
Inductive any :=
  | ANil
  | ABytes (b : list Z)
  | AString (s : string)
  | AMarshaler (bin : option (list Z))
  | ASizer (n : Z)
  | AOpaque (tag : Z).

#[export] Instance any_eq_dec : EqDecision any.
Proof. solve_decision. Defined.

(** The sentinel errors of internal/sentinel/sentinel.go; [ErrOther] is an error
    made on the spot ([ewrap.Newf]) or by a package outside the repository. *)
Inductive error :=
  | ErrInvalidBackendType
  | ErrInvalidKey
  | ErrKeyNotFound
  | ErrNilValue
  | ErrNilClient
  | ErrKeyExpired
  | ErrInvalidExpiration
  | ErrInvalidCapacity
  | ErrAlgorithmNotFound
  | ErrStatsCollectorNotFound
  | ErrParamCannotBeEmpty
  | ErrSerializerNotFound
  | ErrInvalidSize
  | ErrInvalidMaxCacheSize
  | ErrCacheFull
  | ErrBackendNotFound
  | ErrTimeoutOrCanceled
  | ErrUnauthorized
  | ErrInsecureAuthConfig
  | ErrDraining
  | ErrTypeMismatch
  | ErrNotOwner
  | ErrQuorumFailed
  | ErrOther (msg : string).

#[export] Instance error_eq_dec : EqDecision error.
Proof. solve_decision. Defined.

(** Fallible Go functions return [(T, error)]. *)
Inductive result (A : Type) :=
  | Ok (a : A)
  | Err (e : error).
Arguments Ok {A} a.
Arguments Err {A} e.

(** Unsigned and signed machine integers as [Z] with their wrap-around. *)
Definition u8 (z : Z) : Z := z mod 2 ^ 8.
Definition u32 (z : Z) : Z := z mod 2 ^ 32.
Definition u64 (z : Z) : Z := z mod 2 ^ 64.
Definition i64 (z : Z) : Z := (z + 2 ^ 63) mod 2 ^ 64 - 2 ^ 63.

Lemma u8_bound z : (0 ≤ u8 z < 256)%Z.
Proof. apply Z.mod_pos_bound. lia. Qed.
Lemma u32_bound z : (0 ≤ u32 z < 2 ^ 32)%Z.
Proof. apply Z.mod_pos_bound. lia. Qed.
Lemma u64_bound z : (0 ≤ u64 z < 2 ^ 64)%Z.
Proof. apply Z.mod_pos_bound. lia. Qed.
Lemma u32_small z : (0 ≤ z < 2 ^ 32)%Z → u32 z = z.
Proof. apply Z.mod_small. Qed.
Lemma u64_small z : (0 ≤ z < 2 ^ 64)%Z → u64 z = z.
Proof. apply Z.mod_small. Qed.
Lemma i64_small z : (- 2 ^ 63 ≤ z < 2 ^ 63)%Z → i64 z = z.
Proof. intros H. unfold i64. rewrite Z.mod_small; lia. Qed.

Lemma i64_add_l a b : i64 (i64 a + b) = i64 (a + b).
Proof.
  unfold i64. f_equal.
  replace ((a + 2 ^ 63) mod 2 ^ 64 - 2 ^ 63 + b + 2 ^ 63)%Z with ((a + 2 ^ 63) mod 2 ^ 64 + b)%Z by lia.
  rewrite Zplus_mod_idemp_l. f_equal. lia.
Qed.

Lemma i64_add_r a b : i64 (a + i64 b) = i64 (a + b).
Proof. by rewrite Z.add_comm, i64_add_l, Z.add_comm. Qed.

Lemma i64_sub_l a b : i64 (i64 a - b) = i64 (a - b).
Proof. unfold Z.sub. apply i64_add_l. Qed.

Lemma i64_bound z : (- 2 ^ 63 ≤ i64 z < 2 ^ 63)%Z.
Proof. unfold i64. pose proof (Z.mod_pos_bound (z + 2 ^ 63) (2 ^ 64)). lia. Qed.

(** ** Strings

    Go compares strings bytewise; [String.compare] is that order. *)
Definition str_ltb (a b : string) : bool :=
  match String.compare a b with Lt => true | _ => false end.

Lemma str_ltb_irrefl a : str_ltb a a = false.
Proof.
  unfold str_ltb. destruct (String.compare a a) eqn:E; try done.
  pose proof (String.compare_antisym a a) as H. rewrite E in H. done.
Qed.

Lemma str_compare_eq a b : String.compare a b = Eq → a = b.
Proof. apply String.compare_eq_iff. Qed.

Lemma str_ltb_antisym a b : str_ltb a b = true → str_ltb b a = false.
Proof.
  unfold str_ltb. rewrite (String.compare_antisym a b).
  destruct (String.compare b a); done.
Qed.

Lemma str_ltb_total a b : str_ltb a b = false → str_ltb b a = false → a = b.
Proof.
  unfold str_ltb. rewrite (String.compare_antisym a b).
  destruct (String.compare b a) eqn:E; simpl; try done.
  intros _ _. symmetry. by apply str_compare_eq.
Qed.

Lemma str_compare_trans a b c :
  String.compare a b = Lt → String.compare b c = Lt → String.compare a c = Lt.
Proof.
  revert b c. induction a as [|x a IH]; intros [|y b] [|z c]; cbn; try done.
  unfold Ascii.compare.
  destruct (N.compare_spec (Ascii.N_of_ascii x) (Ascii.N_of_ascii y)) as [E1|E1|E1]; [..|done];
    destruct (N.compare_spec (Ascii.N_of_ascii y) (Ascii.N_of_ascii z)) as [E2|E2|E2];
    intros H1 H2; try done;
    destruct (N.compare_spec (Ascii.N_of_ascii x) (Ascii.N_of_ascii z)); try lia; try done.
  by eapply IH.
Qed.

Lemma str_ltb_trans a b c : str_ltb a b = true → str_ltb b c = true → str_ltb a c = true.
Proof.
  unfold str_ltb. destruct (String.compare a b) eqn:E1; try done.
  destruct (String.compare b c) eqn:E2; try done. by rewrite (str_compare_trans _ _ _ E1 E2).
Qed.

Lemma str_leb_trans a b c : str_ltb b a = false → str_ltb c b = false → str_ltb c a = false.
Proof.
  intros Hab Hbc. destruct (str_ltb c a) eqn:E; [|done]. exfalso.
  destruct (str_ltb a b) eqn:E1.
  - rewrite (str_ltb_trans _ _ _ E E1) in Hbc. done.
  - pose proof (str_ltb_total a b E1 Hab) as ->. congruence.
Qed.

(** A function whose Go body can panic (a nil dereference, an index out of
    range) returns an [option]: [None] is the panic, and stdpp's [option] bind
    sequences its statements. *)

Lemma pair_proj {A B} (a : A) (b : B) p : (a, b) = p → a = p.1 ∧ b = p.2.
Proof. by intros <-. Qed.

(** ** Lists *)

Lemma filter_all {A} (P : A → Prop) `{∀ x, Decision (P x)} (l : list A) : Forall P l → filter P l = l.
Proof. induction 1 as [|x l Hx _ IH]; [done|]. by rewrite filter_cons_True, IH. Qed.

Lemma NoDup_fst_unique {A B} (xs : list (A * B)) a b b' :
  NoDup xs.*1 → (a, b) ∈ xs → (a, b') ∈ xs → b = b'.
Proof.
  induction xs as [|[c d] xs IH]; cbn; [by intros _ ?%elem_of_nil|].
  intros [Hn Hd]%NoDup_cons [E|H]%elem_of_cons [E'|H']%elem_of_cons; simplify_eq; auto.
  - destruct Hn. apply (list_elem_of_fmap_2 fst) in H'. done.
  - destruct Hn. apply (list_elem_of_fmap_2 fst) in H. done.
Qed.

(** [time.Since] is a saturating int64 subtraction. *)
Definition sat64 (z : Z) : Z := Z.max (- 2 ^ 63) (Z.min z (2 ^ 63 - 1)).

(** The elements of an association list but those with a given key. *)
Definition drop_key {B} (k : string) (xs : list (string * B)) : list (string * B) :=
  filter (λ p, p.1 ≠ k) xs.

Fixpoint assoc {B} (k : string) (xs : list (string * B)) : option B :=
  match xs with
  | [] => None
  | (k', b) :: r => if decide (k' = k) then Some b else assoc k r
  end.

Lemma drop_key_app {B} k (xs ys : list (string * B)) :
  drop_key k (xs ++ ys) = drop_key k xs ++ drop_key k ys.
Proof. apply filter_app. Qed.

Lemma drop_key_notin {B} k (xs : list (string * B)) :
  k ∉ xs.*1 → drop_key k xs = xs.
Proof.
  induction xs as [|[k' b] xs IH]; [done|].
  rewrite fmap_cons, not_elem_of_cons. intros [Hne Hn]. unfold drop_key in *.
  rewrite filter_cons_True by (cbn in *; congruence). by rewrite IH.
Qed.

Lemma drop_key_cons_eq {B} k (b : B) xs : drop_key k ((k, b) :: xs) = drop_key k xs.
Proof. unfold drop_key. by rewrite filter_cons_False by (cbn; tauto). Qed.

(** Removing the only occurrence of a key splits the list around it. *)
Lemma drop_key_middle {B} k (b : B) xs ys :
  NoDup (xs ++ (k, b) :: ys).*1 → drop_key k (xs ++ (k, b) :: ys) = xs ++ ys.
Proof.
  rewrite fmap_app. cbn. intros [_ [Hd [Hn _]%NoDup_cons]]%NoDup_app.
  rewrite drop_key_app, drop_key_cons_eq, (drop_key_notin _ ys) by done.
  rewrite drop_key_notin; [done|].
  intros H. apply (Hd _ H). by left.
Qed.

Lemma assoc_middle {B} k (b : B) xs ys :
  NoDup (xs ++ (k, b) :: ys).*1 → assoc k (xs ++ (k, b) :: ys) = Some b.
Proof.
  rewrite fmap_app. cbn. intros [_ [Hd _]]%NoDup_app.
  induction xs as [|[k' b'] xs IH]; cbn.
  - by rewrite decide_True.
  - rewrite decide_False.
    + apply IH. intros x Hx. apply Hd. by right.
    + intros ->. apply (Hd k); by left.
Qed.

Lemma assoc_notin {B} k (xs : list (string * B)) : k ∉ xs.*1 → assoc k xs = None.
Proof.
  induction xs as [|[k' b'] xs IH]; cbn; [done|].
  rewrite not_elem_of_cons. intros [Hne Hn]. rewrite decide_False by congruence. auto.
Qed.

Lemma assoc_Some_in {B} k (b : B) xs : assoc k xs = Some b → (k, b) ∈ xs.
Proof.
  induction xs as [|[k' b'] xs IH]; cbn; [done|].
  case_decide; intros; simplify_eq; [by left|right; auto].
Qed.

Lemma in_assoc {B} k (b : B) xs : NoDup xs.*1 → (k, b) ∈ xs → assoc k xs = Some b.
Proof.
  intros Hn (ys & zs & ->)%list_elem_of_split. by apply assoc_middle.
Qed.

Lemma elem_of_drop_key {B} k (p : string * B) xs :
  p ∈ drop_key k xs ↔ p ∈ xs ∧ p.1 ≠ k.
Proof. unfold drop_key. rewrite list_elem_of_filter. tauto. Qed.

Lemma NoDup_drop_key {B} k (xs : list (string * B)) :
  NoDup xs.*1 → NoDup (drop_key k xs).*1.
Proof.
  intros H. induction xs as [|[k' b] xs IH]; [done|].
  rewrite fmap_cons in H. apply NoDup_cons in H as [Hn Hd]. unfold drop_key. rewrite filter_cons.
  case_decide; [|by apply IH]. rewrite fmap_cons.
  apply NoDup_cons; split; [|by apply IH].
  intros ([k'' b''] & ? & Hin%elem_of_drop_key)%list_elem_of_fmap. simplify_eq/=.
  apply Hn. apply list_elem_of_fmap. exists (k'', b''). tauto.
Qed.

Lemma drop_key_fst_notin {B} k (xs : list (string * B)) : k ∉ (drop_key k xs).*1.
Proof.
  intros (p & -> & Hin%elem_of_drop_key)%list_elem_of_fmap. tauto.
Qed.

Lemma drop_key_length_le {B} k (xs : list (string * B)) :
  length (drop_key k xs) ≤ length xs.
Proof. apply length_filter. Qed.

(** ** Indexes

    Every eviction algorithm keeps a map from keys to the cells of a list.  The
    map [m] indexes the key/cell pairs [kls] when it holds exactly them. *)
Definition indexes {B} (m : gmap string B) (kls : list (string * B)) : Prop :=
  NoDup kls.*1 ∧ ∀ k l, m !! k = Some l ↔ (k, l) ∈ kls.

Section indexes.
Context {B : Type}.
Implicit Types (m : gmap string B) (kls : list (string * B)).

Lemma indexes_empty : indexes (B:=B) ∅ [].
Proof. split; [constructor|]. intros k l. rewrite lookup_empty. set_solver. Qed.

Lemma indexes_to_map m kls : indexes m kls → m = list_to_map kls.
Proof.
  intros [Hn Hm]. apply map_eq. intros k. apply option_eq. intros l.
  rewrite Hm. by rewrite elem_of_list_to_map.
Qed.

Lemma indexes_size m kls : indexes m kls → size m = length kls.
Proof.
  intros H. rewrite (indexes_to_map _ _ H).
  rewrite map_size_list_to_map; [done|apply H].
Qed.

Lemma indexes_split m kls k l :
  indexes m kls → m !! k = Some l → ∃ a b, kls = a ++ (k, l) :: b.
Proof. intros [_ Hm] Hk%Hm. by apply list_elem_of_split. Qed.

Lemma indexes_None m kls k : indexes m kls → m !! k = None → k ∉ kls.*1.
Proof.
  intros [_ Hm] Hk ([k' l] & -> & Hin)%list_elem_of_fmap.
  apply Hm in Hin. simpl in *. congruence.
Qed.

Lemma indexes_perm m kls kls' : kls ≡ₚ kls' → indexes m kls → indexes m kls'.
Proof.
  intros Hp [Hn Hm]. split; [by rewrite <- Hp|]. intros k l. by rewrite Hm, Hp.
Qed.

Lemma indexes_insert m kls k l :
  k ∉ kls.*1 → indexes m kls → indexes (<[k := l]> m) ((k, l) :: kls).
Proof.
  intros Hk [Hn Hm]. split; [by apply NoDup_cons|].
  intros k' l'. rewrite lookup_insert, elem_of_cons. case_decide as E.
  - subst. split; [intros; left; congruence|]. intros [?|Hin]; [congruence|].
    destruct Hk. by apply (list_elem_of_fmap_2 fst) in Hin.
  - rewrite Hm. split; [by right|]. intros [?|?]; [congruence|done].
Qed.

Lemma indexes_delete m a b k l :
  indexes m (a ++ (k, l) :: b) → indexes (delete k m) (a ++ b).
Proof.
  intros H%(indexes_perm _ _ ((k, l) :: a ++ b)); [|by rewrite Permutation_middle].
  destruct H as [[Hk Hn]%NoDup_cons Hm]. split; [done|].
  intros k' l'. rewrite lookup_delete. case_decide as E.
  - subst. split; [done|]. intros Hin. destruct Hk.
    by apply (list_elem_of_fmap_2 fst) in Hin.
  - rewrite Hm, elem_of_cons. split; [|by right]. intros [?|?]; [congruence|done].
Qed.
End indexes.

(** ** Partitioned maps

    The union of the maps of a list in which every key can only be at its own
    position: sharded maps are such lists. *)
Lemma union_list_lookup {A} (ms : list (gmap string A)) j m k :
  ms !! j = Some m → (∀ i m', ms !! i = Some m' → i ≠ j → m' !! k = None) →
  (⋃ ms) !! k = m !! k.
Proof.
  revert j. induction ms as [|m0 ms IH]; intros j Hj Hn; [done|]. cbn. destruct j as [|j].
  - cbn in Hj. simplify_eq. rewrite lookup_union_l; [done|].
    clear IH. assert (∀ m', m' ∈ ms → m' !! k = None) as Hn'.
    { intros m' (i & Hi)%list_elem_of_lookup. by apply (Hn (S i) m' Hi). }
    clear Hn. induction ms as [|m1 ms IH]; [done|]. cbn. apply lookup_union_None. split.
    + apply Hn'. by left.
    + apply IH. intros m' Hm'. apply Hn'. by right.
  - rewrite lookup_union_r by (by apply (Hn 0 m0)). apply (IH j Hj).
    intros i m' Hi Hne. apply (Hn (S i) m' Hi). lia.
Qed.

Lemma map_size_union_le {A} (m1 m2 : gmap string A) : size (m1 ∪ m2) ≤ size m1 + size m2.
Proof.
  rewrite <- (size_dom (m1 ∪ m2)), <- (size_dom m1), <- (size_dom m2), dom_union_L, size_union_alt.
  assert (size (dom m2 ∖ dom m1) ≤ size (dom m2)) by (apply subseteq_size; set_solver). lia.
Qed.

Lemma union_replicate_empty {A} n : ⋃ replicate n ∅ = (∅ : gmap string A).
Proof.
  induction n as [|n IH]; [done|]. cbn [replicate].
  change (∅ ∪ ⋃ replicate n ∅ = (∅ : gmap string A)). by rewrite IH.
Qed.

Definition partitioned {A} (idx : string → option nat) (ms : list (gmap string A)) : Prop :=
  ∀ i m k, ms !! i = Some m → is_Some (m !! k) → idx k = Some i.

Lemma partitioned_lookup {A} idx (ms : list (gmap string A)) k i m :
  partitioned idx ms → idx k = Some i → ms !! i = Some m → (⋃ ms) !! k = m !! k.
Proof.
  intros H Hi Hm. apply (union_list_lookup ms i m k Hm). intros j m' Hj Hne.
  destruct (m' !! k) eqn:E; [|done]. assert (idx k = Some j); [|congruence].
  eapply H; [done|]. by rewrite E.
Qed.

Lemma partitioned_insert {A} idx (ms : list (gmap string A)) i m' :
  partitioned idx ms → (∀ k, is_Some (m' !! k) → idx k = Some i) → partitioned idx (<[i := m']> ms).
Proof.
  intros H Hm' j m k Hj Hk. destruct (decide (i = j)) as [->|Hne].
  - apply lookup_lt_Some in Hj as Hlt. rewrite length_insert in Hlt.
    rewrite list_lookup_insert_eq in Hj by done. simplify_eq. by apply Hm'.
  - rewrite list_lookup_insert_ne in Hj by done. by eapply H.
Qed.

(** Replacing the map of a key's position by one that differs at that key only. *)
Lemma partitioned_update {A} idx (ms : list (gmap string A)) k i m m' :
  partitioned idx ms → (∀ k', ∃ j, idx k' = Some j ∧ j < length ms) →
  idx k = Some i → ms !! i = Some m → (∀ k', k' ≠ k → m' !! k' = m !! k') →
  partitioned idx (<[i := m']> ms) ∧ ⋃ (<[i := m']> ms) = partial_alter (λ _, m' !! k) k (⋃ ms).
Proof.
  intros Hp Hidx Hi Hm He.
  assert (i < length ms) as Hlt by (by eapply lookup_lt_Some).
  assert (partitioned idx (<[i := m']> ms)) as Hp'.
  { apply partitioned_insert; [done|]. intros k' Hk'. destruct (decide (k' = k)) as [->|Hne]; [done|].
    rewrite He in Hk' by done. by eapply (Hp i m). }
  split; [done|]. apply map_eq. intros k'. destruct (decide (k = k')) as [<-|Hne].
  - rewrite lookup_partial_alter_eq.
    by eapply partitioned_lookup; [exact Hp'|exact Hi|by apply list_lookup_insert_eq].
  - rewrite lookup_partial_alter_ne by done. destruct (Hidx k') as (j & Ej & Hj).
    destruct (lookup_lt_is_Some_2 ms j Hj) as [mj Hmj].
    rewrite (partitioned_lookup _ _ _ _ _ Hp Ej Hmj). destruct (decide (i = j)) as [->|Hij].
    + rewrite (partitioned_lookup _ _ _ _ m' Hp' Ej) by (by apply list_lookup_insert_eq).
      rewrite He by done. congruence.
    + by rewrite (partitioned_lookup _ _ _ _ mj Hp' Ej) by (by rewrite list_lookup_insert_ne).
Qed.

Lemma partitioned_cons {A} idx (m : gmap string A) ms : partitioned idx (m :: ms) → m ##ₘ ⋃ ms.
Proof.
  intros H. apply map_disjoint_spec. intros k v v' Hv Hv'.
  assert (idx k = Some 0) by (eapply (H 0 m); [done|by eexists]).
  assert (∃ i m', ms !! i = Some m' ∧ is_Some (m' !! k)) as (i & m' & Hi & Hm').
  { clear -Hv'. induction ms as [|m1 ms IH]; [done|]. cbn in Hv'.
    apply lookup_union_Some_raw in Hv' as [?|[_ Hv']].
    - exists 0, m1. split; [done|]. by eexists.
    - destruct (IH Hv') as (i & m' & ? & ?). by exists (S i), m'. }
  assert (idx k = Some (S i)) by (by eapply (H (S i) m')). congruence.
Qed.

(** Induction on the list of maps: positions shift by one. *)
Lemma partitioned_ind {A} (P : list (gmap string A) → Prop) :
  P [] → (∀ m ms, m ##ₘ ⋃ ms → P ms → P (m :: ms)) → ∀ idx ms, partitioned idx ms → P ms.
Proof.
  intros H0 HS idx ms.
  enough (∀ n, partitioned (λ k, i ← idx k; if decide (n ≤ i) then Some (i - n) else None) ms →
    P ms) as Hgen.
  { intros H. apply (Hgen 0). intros i m k Hm Hk. rewrite (H i m k Hm Hk). cbn. f_equal. lia. }
  induction ms as [|m ms IH]; intros n H; [done|].
  apply HS; [by eapply partitioned_cons|]. apply (IH (S n)). intros i m' k Hi Hk.
  pose proof (H (S i) m' k Hi Hk) as E. apply bind_Some in E as (j & -> & E). cbn.
  case_decide; [|done]. injection E as E. rewrite decide_True by lia. f_equal. lia.
Qed.

Lemma partitioned_size {A} idx (ms : list (gmap string A)) :
  partitioned idx ms → size (⋃ ms) = sum_list (size <$> ms).
Proof.
  revert idx ms. apply partitioned_ind; [apply map_size_empty|].
  intros m ms Hd IH. cbn. rewrite <- IH. by apply map_size_disj_union.
Qed.

Lemma map_to_list_disj_union {A} (m1 m2 : gmap string A) :
  m1 ##ₘ m2 → map_to_list (m1 ∪ m2) ≡ₚ map_to_list m1 ++ map_to_list m2.
Proof.
  intros Hd. rewrite <- (list_to_map_to_list m1) at 1. rewrite <- (list_to_map_to_list m2) at 1.
  rewrite <- list_to_map_app. apply map_to_list_to_map. rewrite fmap_app. apply NoDup_app.
  split_and!; [apply NoDup_fst_map_to_list| |apply NoDup_fst_map_to_list].
  intros k ([k1 v1] & -> & H1%elem_of_map_to_list)%list_elem_of_fmap
    ([k2 v2] & E & H2%elem_of_map_to_list)%list_elem_of_fmap. cbn in E. subst.
  by eapply (map_disjoint_spec m1 m2).
Qed.

Lemma partitioned_to_list {A} idx (ms : list (gmap string A)) :
  partitioned idx ms → map_to_list (⋃ ms) ≡ₚ mjoin (map_to_list <$> ms).
Proof.
  revert idx ms. apply partitioned_ind; [done|].
  intros m ms Hd IH. cbn. rewrite <- IH. by apply map_to_list_disj_union.
Qed.

(** ** Sums over maps *)

Section MapSum.
Context {K : Type} `{Countable K} {A : Type} (f : A → Z).

(** The sum of a measure over the values of a map. *)
Definition msum (m : gmap K A) : Z := map_fold (λ _ a n, f a + n)%Z 0%Z m.

Lemma msum_empty : msum ∅ = 0%Z.
Proof. apply map_fold_empty. Qed.

Lemma msum_fresh m k a : m !! k = None → msum (<[k := a]> m) = (f a + msum m)%Z.
Proof. intros Hk. unfold msum. rewrite map_fold_insert_L; [done|intros; lia|done]. Qed.

Lemma msum_delete m k a : m !! k = Some a → msum (delete k m) = (msum m - f a)%Z.
Proof. intros Hk. unfold msum. rewrite (map_fold_delete_L _ _ k a m); [lia|intros; lia|done]. Qed.

Lemma msum_replace m k a b : m !! k = Some a → msum (<[k := b]> m) = (msum m - f a + f b)%Z.
Proof.
  intros Hk. rewrite <- insert_delete_eq, msum_fresh by apply lookup_delete_eq.
  rewrite (msum_delete m k a) by done. lia.
Qed.

Lemma msum_nonneg m : (∀ k a, m !! k = Some a → 0 ≤ f a)%Z → (0 ≤ msum m)%Z.
Proof.
  induction m as [|k a m Hk IH] using map_ind; intros Hf; [by rewrite msum_empty|].
  rewrite msum_fresh by done. assert (0 ≤ f a)%Z by (apply (Hf k); apply lookup_insert_eq).
  assert (0 ≤ msum m)%Z; [|lia]. apply IH. intros k' a' Hk'. apply (Hf k').
  rewrite lookup_insert_ne; [done|]. by intros ->; rewrite Hk in Hk'.
Qed.

End MapSum.

(** ** Automation *)

Create HintDb hyper.
#[export] Hint Resolve u8_bound u32_bound u64_bound str_ltb_irrefl str_ltb_antisym
  NoDup_drop_key drop_key_fst_notin drop_key_length_le : hyper.

(** Splits conjunctive hypotheses and goals, substitutes, and closes what the
    [hyper] database or linear arithmetic can. *)
Ltac split_all := repeat match goal with
  | H : _ ∧ _ |- _ => destruct H
  | H : ∃ _, _ |- _ => destruct H
  | |- _ ∧ _ => split
  end.
Ltac hyper := split_all; simplify_eq/=; eauto with hyper; try lia.
