(* ===== verification/DLL.v ===== *)
(** * Doubly linked lists in a heap

    The LRU, CAWOLFU and ARC algorithms thread their entries through
    hand-written doubly linked lists ([prev]/[next] pointer fields).  This file
    has the heap those lists live in, the pointer accesses of the sources (a
    nil or dangling access is a panic, [None]), and the list-segment predicate
    with the lemmas on unlinking, pushing and updating a payload that the three
    algorithms share. *)

From stdpp Require Import base gmap strings list.
From S2P Require Import Prelude.

(** A cell: the non-pointer fields of the Go struct, and its two links. *)
Record node (P : Type) := Node {
  payload : P;
  prev : option loc;
  next : option loc }.
Arguments Node {P} payload prev next.
Arguments payload {P} n.
Arguments prev {P} n.
Arguments next {P} n.

Section dll.
Context {P : Type}.
Implicit Types (h : gmap loc (node P)) (l : loc) (p : option loc).
Implicit Types (xs ys : list (loc * P)) (a : P).

Definition set_prev (v : option loc) (n : node P) : node P := Node (payload n) v (next n).
Definition set_next (v : option loc) (n : node P) : node P := Node (payload n) (prev n) v.
Definition set_payload (a : P) (n : node P) : node P := Node a (prev n) (next n).

(** Pointer reads and field assignments: [x.f] and [x.f = v] panic when [x]
    is nil. *)
Definition load p h : option (node P) := p ≫= (h !!.).
Definition store (f : node P → node P) p h : option (gmap loc (node P)) :=
  l ← p; n ← h !! l; Some (<[l := f n]> h).

(** The same update when the pointer may be nil, as a total function. *)
Definition upd (f : node P → node P) p h : gmap loc (node P) :=
  match p with Some l => alter f l h | None => h end.

Lemma store_Some f l h : is_Some (h !! l) → store f (Some l) h = Some (upd f (Some l) h).
Proof.
  intros [n Hn]. cbn. rewrite Hn. cbn. f_equal.
  apply map_eq. intros i. rewrite lookup_insert, lookup_alter. case_decide; [|done].
  subst. by rewrite Hn.
Qed.

Lemma store_lookup f l h n :
  h !! l = Some n → store f (Some l) h = Some (<[l := f n]> h).
Proof. intros Hn. cbn. by rewrite Hn. Qed.

Lemma dom_upd f p h : dom (upd f p h) = dom h.
Proof. destruct p; [apply dom_alter_L|done]. Qed.

Lemma load_Some l h n : h !! l = Some n → load (Some l) h = Some n.
Proof. done. Qed.

Lemma upd_lookup_ne f p h l : p ≠ Some l → upd f p h !! l = h !! l.
Proof. destruct p as [l'|]; [|done]. cbn. intros H. apply lookup_alter_ne. congruence. Qed.

Lemma upd_lookup_eq f l h n : h !! l = Some n → upd f (Some l) h !! l = Some (f n).
Proof. intros H. cbn. by rewrite lookup_alter_eq, H. Qed.

Lemma upd_is_Some f p h l : is_Some (h !! l) → is_Some (upd f p h !! l).
Proof.
  intros [n H]. destruct p as [l'|]; [|by eexists].
  destruct (decide (l' = l)) as [->|Hne].
  - rewrite (upd_lookup_eq _ _ _ n); eauto.
  - rewrite upd_lookup_ne by congruence. eauto.
Qed.

Lemma upd_is_None f p h l : h !! l = None → upd f p h !! l = None.
Proof.
  intros H. destruct p as [l'|]; [|done]. cbn. rewrite lookup_alter.
  case_decide; [by subst; rewrite H|done].
Qed.

(** ** Segments *)

(** First location of a segment followed by [nx]; last one preceded by [pp]. *)
Definition hd_loc xs (nx : option loc) : option loc :=
  match xs with [] => nx | (l, _) :: _ => Some l end.
Fixpoint lst_loc xs (pp : option loc) : option loc :=
  match xs with [] => pp | (l, _) :: r => lst_loc r (Some l) end.

(** [dlseg h pp xs nx]: the cells of [xs] are linked in this order, the first
    one's [prev] is [pp] and the last one's [next] is [nx]. *)
Fixpoint dlseg h (pp : option loc) xs (nx : option loc) : Prop :=
  match xs with
  | [] => True
  | (l, a) :: r => h !! l = Some (Node a pp (hd_loc r nx)) ∧ dlseg h (Some l) r nx
  end.

Lemma hd_loc_app xs ys nx : hd_loc (xs ++ ys) nx = hd_loc xs (hd_loc ys nx).
Proof. by destruct xs as [|[]]. Qed.

Lemma lst_loc_app xs ys pp : lst_loc (xs ++ ys) pp = lst_loc ys (lst_loc xs pp).
Proof. revert pp. induction xs as [|[] xs IH]; intros; cbn; auto. Qed.

Lemma lst_loc_snoc xs l a pp : lst_loc (xs ++ [(l, a)]) pp = Some l.
Proof. by rewrite lst_loc_app. Qed.

Lemma dlseg_app h pp xs ys nx :
  dlseg h pp (xs ++ ys) nx ↔ dlseg h pp xs (hd_loc ys nx) ∧ dlseg h (lst_loc xs pp) ys nx.
Proof.
  revert pp. induction xs as [|[l a] xs IH]; intros pp; cbn; [tauto|].
  rewrite IH, hd_loc_app. tauto.
Qed.

Lemma dlseg_ext h h' pp xs nx :
  (∀ l, l ∈ xs.*1 → h' !! l = h !! l) → dlseg h pp xs nx → dlseg h' pp xs nx.
Proof.
  revert pp. induction xs as [|[l a] xs IH]; intros pp Hext; [done|].
  cbn in *. intros [Hl Hs]. split.
  - rewrite Hext; [done|by left].
  - apply IH; [|done]. intros l' ?. apply Hext. by right.
Qed.

Lemma dlseg_upd_notin h f p pp xs nx :
  (∀ l, p = Some l → l ∉ xs.*1) → dlseg h pp xs nx → dlseg (upd f p h) pp xs nx.
Proof.
  intros Hn. apply dlseg_ext. intros l Hl. apply upd_lookup_ne.
  intros ->. by apply (Hn l).
Qed.

Lemma dlseg_insert_notin h l n pp xs nx :
  l ∉ xs.*1 → dlseg h pp xs nx → dlseg (<[l := n]> h) pp xs nx.
Proof.
  intros Hn. apply dlseg_ext. intros l' Hl. rewrite lookup_insert_ne; [done|congruence].
Qed.

Lemma dlseg_lookup h pp xs nx l a :
  dlseg h pp xs nx → (l, a) ∈ xs → ∃ p n, h !! l = Some (Node a p n).
Proof.
  revert pp. induction xs as [|[l' a'] xs IH]; intros pp; cbn; [by intros _ ?%elem_of_nil|].
  intros [Hl Hs] [E|Hin]%elem_of_cons; simplify_eq; eauto.
Qed.

Lemma dlseg_is_Some h pp xs nx l : dlseg h pp xs nx → l ∈ xs.*1 → is_Some (h !! l).
Proof.
  intros Hs ([l' a] & -> & Hin)%list_elem_of_fmap.
  destruct (dlseg_lookup _ _ _ _ _ _ Hs Hin) as (? & ? & E). cbn. rewrite E. eauto.
Qed.

Lemma hd_loc_in xs l : hd_loc xs None = Some l → l ∈ xs.*1.
Proof. destruct xs as [|[]]; cbn; [done|]. intros [= ->]. by left. Qed.

Lemma lst_loc_cases xs pp :
  (xs = [] ∧ lst_loc xs pp = pp) ∨ (∃ ys l a, xs = ys ++ [(l, a)] ∧ lst_loc xs pp = Some l).
Proof.
  destruct xs as [|x xs _] using rev_ind; [by left|]. right.
  destruct x as [l a]. exists xs, l, a. by rewrite lst_loc_snoc.
Qed.

Lemma lst_loc_in xs l : lst_loc xs None = Some l → l ∈ xs.*1.
Proof.
  destruct (lst_loc_cases xs None) as [[-> ->]|(ys & l' & a & -> & ->)]; [done|].
  intros [= ->]. rewrite fmap_app. set_solver.
Qed.

(** Redirecting the outer links of a segment. *)
Lemma dlseg_set_prev_hd h pp pp' xs nx :
  NoDup xs.*1 → dlseg h pp xs nx → dlseg (upd (set_prev pp') (hd_loc xs None) h) pp' xs nx.
Proof.
  destruct xs as [|[l a] xs]; [done|]. cbn -[upd]. intros [Hn _]%NoDup_cons [Hl Hs]. split.
  - by rewrite (upd_lookup_eq _ _ _ _ Hl).
  - apply dlseg_upd_notin; [|done]. by intros l' [= <-].
Qed.

Lemma dlseg_set_next_lst h pp xs nx nx' :
  NoDup xs.*1 → dlseg h pp xs nx → dlseg (upd (set_next nx') (lst_loc xs None) h) pp xs nx'.
Proof.
  intros Hnd. destruct (lst_loc_cases xs None) as [[-> _]|(ys & l & a & -> & ->)]; [done|].
  rewrite fmap_app in Hnd. apply NoDup_app in Hnd as (_ & Hd & _).
  rewrite !dlseg_app. cbn -[upd]. intros [Hs [Hl _]].
  split; [|by rewrite (upd_lookup_eq _ _ _ _ Hl)].
  apply dlseg_upd_notin; [|done]. intros l' [= <-] Hin. apply (Hd _ Hin). by left.
Qed.

Lemma dlseg_set_payload h pp xs ys nx l a a' :
  NoDup (xs ++ (l, a) :: ys).*1 →
  dlseg h pp (xs ++ (l, a) :: ys) nx →
  dlseg (upd (set_payload a') (Some l) h) pp (xs ++ (l, a') :: ys) nx.
Proof.
  rewrite fmap_app. cbn -[upd]. intros (_ & Hd & [Hn _]%NoDup_cons)%NoDup_app.
  rewrite !dlseg_app. cbn -[upd]. intros (Hx & Hl & Hy). split_and!.
  - apply dlseg_upd_notin; [|done]. intros l' [= <-] Hin. apply (Hd _ Hin). by left.
  - by rewrite (upd_lookup_eq _ _ _ _ Hl).
  - apply dlseg_upd_notin; [|done]. by intros l' [= <-].
Qed.

(** ** Unlinking and pushing *)

(** The heap after a cell between [xs] and [ys] has been bypassed. *)
Definition unlinked xs ys h : gmap loc (node P) :=
  upd (set_prev (lst_loc xs None)) (hd_loc ys None)
    (upd (set_next (hd_loc ys None)) (lst_loc xs None) h).

Lemma dlseg_unlink h xs ys l a :
  NoDup (xs ++ (l, a) :: ys).*1 →
  dlseg h None (xs ++ (l, a) :: ys) None →
  dlseg (unlinked xs ys h) None (xs ++ ys) None.
Proof.
  rewrite fmap_app. cbn. intros (Hnx & Hd & [Hn Hny]%NoDup_cons)%NoDup_app.
  rewrite !dlseg_app. cbn. intros (Hx & Hl & Hy). unfold unlinked. split.
  - apply dlseg_upd_notin.
    + intros l' Hl' Hin. apply (Hd _ Hin). right. by apply hd_loc_in.
    + by eapply dlseg_set_next_lst.
  - eapply dlseg_set_prev_hd; [done|]. apply dlseg_upd_notin; [|done].
    intros l' Hl' Hin. apply lst_loc_in in Hl'. apply (Hd _ Hl'). by right.
Qed.

Lemma unlinked_lookup_ne h xs ys l :
  l ∉ xs.*1 → l ∉ ys.*1 → unlinked xs ys h !! l = h !! l.
Proof.
  intros Hx Hy. unfold unlinked. rewrite !upd_lookup_ne; [done|..].
  - intros E%lst_loc_in. done.
  - intros E%hd_loc_in. done.
Qed.

Lemma dom_unlinked h xs ys : dom (unlinked xs ys h) = dom h.
Proof. unfold unlinked. by rewrite !dom_upd. Qed.

Lemma unlinked_is_Some h xs ys l : is_Some (h !! l) → is_Some (unlinked xs ys h !! l).
Proof. intros H. by do 2 apply upd_is_Some. Qed.

Lemma unlinked_is_None h xs ys l : h !! l = None → unlinked xs ys h !! l = None.
Proof. intros H. by do 2 apply upd_is_None. Qed.

(** A cell in front of [ys]: any heap that has the new cell and agrees with
    the redirected old one on [ys]. *)
Lemma dlseg_push h h' ys l a :
  NoDup ys.*1 → dlseg h None ys None →
  h' !! l = Some (Node a None (hd_loc ys None)) →
  (∀ l', l' ∈ ys.*1 → h' !! l' = upd (set_prev (Some l)) (hd_loc ys None) h !! l') →
  dlseg h' None ((l, a) :: ys) None.
Proof.
  intros Hnd Hs Hl Hext. cbn. split; [done|].
  eapply dlseg_ext; [exact Hext|]. by eapply dlseg_set_prev_hd.
Qed.

(** The key/location pairs of a list, which the algorithms' maps index. *)
Definition entries (key : P → string) xs : list (string * loc) :=
  (λ x, (key x.2, x.1)) <$> xs.

Lemma entries_app key xs ys : entries key (xs ++ ys) = entries key xs ++ entries key ys.
Proof. apply fmap_app. Qed.

Lemma entries_cons key l a xs : entries key ((l, a) :: xs) = (key a, l) :: entries key xs.
Proof. done. Qed.

Lemma entries_split key xs k l ka kb :
  entries key xs = ka ++ (k, l) :: kb →
  ∃ xa c xb, xs = xa ++ (l, c) :: xb ∧ key c = k ∧
    entries key xa = ka ∧ entries key xb = kb.
Proof.
  intros H. apply fmap_app_inv in H as (xa & xc & Ha & Hc & ->).
  symmetry in Hc. apply fmap_cons_inv in Hc as ([l' c] & xb & Hc & Hb & ->). simpl in *.
  simplify_eq. eauto 10.
Qed.

(** ** Whole lists *)

(** [dlist hd tl h xs]: the list whose [head] and [tail] fields are [hd] and
    [tl] has the cells [xs]. *)
Record dlist (hd tl : option loc) h xs : Prop := {
  dl_head : hd = hd_loc xs None;
  dl_tail : tl = lst_loc xs None;
  dl_nodup : NoDup xs.*1;
  dl_seg : dlseg h None xs None }.

Lemma dlist_nil h : dlist None None h [].
Proof. split; cbn; auto. constructor. Qed.

Lemma dlist_split hd tl h xs l a ys :
  dlist hd tl h (xs ++ (l, a) :: ys) →
  l ∉ xs.*1 ∧ l ∉ ys.*1 ∧ NoDup (xs ++ ys).*1 ∧
  h !! l = Some (Node a (lst_loc xs None) (hd_loc ys None)).
Proof.
  intros [_ _ Hn Hs]. rewrite fmap_app in Hn |- *. cbn in Hn.
  apply NoDup_app in Hn as (Hx & Hd & [Hl Hy]%NoDup_cons).
  apply dlseg_app in Hs as [_ [Hs _]]. split_and!; try done.
  - intros H. apply (Hd _ H). by left.
  - apply NoDup_app. split_and!; try done. intros x Hin Hin'. apply (Hd _ Hin). by right.
Qed.

Lemma dlist_notin hd tl h xs l a ys :
  dlist hd tl h (xs ++ (l, a) :: ys) → l ∉ (xs ++ ys).*1.
Proof. intros (Hx & Hy & _)%dlist_split. rewrite fmap_app. set_solver. Qed.

Lemma dlist_is_head hd tl h xs l a ys :
  dlist hd tl h (xs ++ (l, a) :: ys) → (Some l = hd ↔ xs = []).
Proof.
  intros Hl. destruct (dlist_split _ _ _ _ _ _ _ Hl) as (Hx & _).
  rewrite (dl_head _ _ _ _ Hl). destruct xs as [|[l' a'] xs]; cbn; [done|].
  split; [|done]. intros [= ->]. destruct Hx. by left.
Qed.

Lemma dlist_is_tail hd tl h xs l a ys :
  dlist hd tl h (xs ++ (l, a) :: ys) → (Some l = tl ↔ ys = []).
Proof.
  intros Hl. destruct (dlist_split _ _ _ _ _ _ _ Hl) as (_ & Hy & _).
  rewrite (dl_tail _ _ _ _ Hl), lst_loc_app. cbn.
  destruct (lst_loc_cases ys (Some l)) as [[-> ->]|(zs & l' & a' & -> & ->)]; [done|].
  split; [|by destruct zs]. intros [= ->]. destruct Hy. rewrite fmap_app. set_solver.
Qed.

(** A nil [tail] is an empty list; otherwise it is the last cell. *)
Lemma dlist_tail_None hd h xs : dlist hd None h xs → xs = [].
Proof.
  intros [_ Ht _ _].
  destruct (lst_loc_cases xs None) as [[-> _]|(ys & l' & a & -> & Hl)]; [done|congruence].
Qed.

Lemma dlist_tail_Some hd l h xs : dlist hd (Some l) h xs → ∃ ys a, xs = ys ++ [(l, a)].
Proof.
  intros [_ Ht _ _].
  destruct (lst_loc_cases xs None) as [[-> Hl]|(ys & l' & a & -> & Hl)]; [congruence|].
  rewrite Hl in Ht. simplify_eq. eauto.
Qed.

(** Bypassing a cell, whatever is then written into it. *)
Lemma dlist_unlink hd tl h xs l a ys n :
  dlist hd tl h (xs ++ (l, a) :: ys) →
  dlist (hd_loc (xs ++ ys) None) (lst_loc (xs ++ ys) None)
    (<[l := n]> (unlinked xs ys h)) (xs ++ ys).
Proof.
  intros H. pose proof (dlist_notin _ _ _ _ _ _ _ H) as Hn.
  destruct (dlist_split _ _ _ _ _ _ _ H) as (_ & _ & ? & _). split; try done.
  apply dlseg_insert_notin; [done|]. eapply dlseg_unlink; apply H.
Qed.

Lemma dom_unlink hd tl h xs l a ys n :
  dlist hd tl h (xs ++ (l, a) :: ys) → dom (<[l := n]> (unlinked xs ys h)) = dom h.
Proof.
  intros (_ & _ & _ & Hc)%dlist_split. rewrite dom_insert_lookup_L, dom_unlinked; [done|].
  apply unlinked_is_Some. eauto.
Qed.

Lemma dlist_push hd tl h h' ys l a :
  dlist hd tl h ys → l ∉ ys.*1 →
  h' !! l = Some (Node a None (hd_loc ys None)) →
  (∀ l', l' ∈ ys.*1 → h' !! l' = upd (set_prev (Some l)) (hd_loc ys None) h !! l') →
  dlist (Some l) (lst_loc ys (Some l)) h' ((l, a) :: ys).
Proof.
  intros [Hh Ht Hn Hs] Hl Hc Hext. split; [done|done|by apply NoDup_cons|].
  by eapply dlseg_push.
Qed.

(** The heap of a push: the new cell points at the old head and back. *)
Definition pushed l a ys h : gmap loc (node P) :=
  <[l := Node a None (hd_loc ys None)]> (upd (set_prev (Some l)) (hd_loc ys None) h).

Lemma dlist_pushed hd tl h ys l a :
  dlist hd tl h ys → l ∉ ys.*1 →
  dlist (Some l) (lst_loc ys (Some l)) (pushed l a ys h) ((l, a) :: ys).
Proof.
  intros H Hl. eapply dlist_push; [done..| |].
  - apply lookup_insert_eq.
  - intros l' Hin. unfold pushed. rewrite lookup_insert_ne; [done|]. intros ->. done.
Qed.

Lemma dom_pushed l a ys h : l ∈ dom h → dom (pushed l a ys h) = dom h.
Proof.
  intros Hl. unfold pushed. rewrite dom_insert_L, dom_upd. set_solver.
Qed.

Lemma dlist_set_payload hd tl h xs l a a' ys :
  dlist hd tl h (xs ++ (l, a) :: ys) →
  dlist hd tl (upd (set_payload a') (Some l) h) (xs ++ (l, a') :: ys).
Proof.
  intros [Hh Ht Hn Hs].
  split; [by rewrite hd_loc_app in *|by rewrite lst_loc_app in *|by rewrite fmap_app in *|].
  by eapply dlseg_set_payload.
Qed.

(** ** Pools

    Cells given back to a [sync.Pool] stay allocated and are in no list; the
    allocator never returns a cell twice. *)
Record pool_ok (pool : list loc) (brk : loc) h xs : Prop := {
  pl_nodup : NoDup pool;
  pl_in : ∀ l, l ∈ pool → l ∉ xs.*1 ∧ l ∈ dom h;
  pl_brk : ∀ l, l ∈ dom h → (l < brk)%positive }.

Lemma pool_ok_nil : pool_ok [] 1 ∅ [].
Proof.
  split; [constructor|by intros l ?%elem_of_nil|].
  intros l. rewrite dom_empty_L. by intros ?%elem_of_empty.
Qed.

Lemma pool_ok_reorder pool brk h h' xs xs' :
  pool_ok pool brk h xs → dom h' = dom h → xs'.*1 ≡ₚ xs.*1 → pool_ok pool brk h' xs'.
Proof.
  intros [Hn Hp Hb] Hd Hperm. split; [done|..]; intros l; rewrite Hd; [|apply Hb].
  rewrite Hperm. apply Hp.
Qed.

Lemma pool_ok_put pool brk h h' xs l a ys :
  pool_ok pool brk h (xs ++ (l, a) :: ys) → l ∉ (xs ++ ys).*1 → l ∈ dom h → dom h' = dom h →
  pool_ok (l :: pool) brk h' (xs ++ ys).
Proof.
  intros [Hn Hp Hb] Hl Hin Hd. rewrite fmap_app in *. cbn in Hp.
  split; [|intros l'; rewrite Hd|intros l'; rewrite Hd; apply Hb].
  - apply NoDup_cons. split; [|done]. intros [? _]%Hp. set_solver.
  - rewrite fmap_app. intros [->|[? ?]%Hp]%elem_of_cons; set_solver.
Qed.

Lemma pool_ok_link pool brk h h' xs l a :
  pool_ok pool brk h xs → l ∉ pool → dom h' = dom h → pool_ok pool brk h' ((l, a) :: xs).
Proof.
  intros [Hn Hp Hb] Hl Hd. split; [done|..]; intros l'; rewrite Hd; [|apply Hb].
  intros Hin. destruct (Hp _ Hin). cbn. rewrite not_elem_of_cons. split; [|done].
  split; [|done]. intros ->. done.
Qed.

(** [sync.Pool.Get]: any pooled cell ([pick] in range) or a newly allocated
    one, initialised with [zero]. *)
Definition pool_get (pick : nat) (zero : P) (pool : list loc) (brk : loc) h
    : loc * (list loc * loc * gmap loc (node P)) :=
  match pool !! pick with
  | Some l => (l, (delete pick pool, brk, h))
  | None => (brk, (pool, Pos.succ brk, <[brk := Node zero None None]> h))
  end.

Lemma pool_get_ok pick zero pool brk h xs l pool' brk' h' :
  pool_ok pool brk h xs → dlseg h None xs None →
  pool_get pick zero pool brk h = (l, (pool', brk', h')) →
  pool_ok pool' brk' h' xs ∧ l ∉ xs.*1 ∧ l ∉ pool' ∧ l ∈ dom h' ∧
  (∀ l', l' ∈ dom h → h' !! l' = h !! l').
Proof.
  unfold pool_get. intros [Hn Hp Hb] Hs E.
  destruct (pool !! pick) as [l'|] eqn:El; simplify_eq.
  - pose proof (delete_Permutation _ _ _ El) as Hperm. rewrite Hperm in Hn.
    apply NoDup_cons in Hn as [Hnl Hnd].
    destruct (Hp l) as [Hp1 Hp2]; [rewrite Hperm; by left|].
    split_and!; try done. split; try done. intros l' Hin. apply Hp. rewrite Hperm. by right.
  - assert (l ∉ dom h) as Hf by (intros ?%Hb; lia).
    assert (l ∉ xs.*1) as Hx.
    { intros Hin. apply Hf. apply elem_of_dom. by eapply dlseg_is_Some. }
    split_and!; try done.
    + split; [done|..]; intros l'; rewrite dom_insert_L.
      * intros [? ?]%Hp. set_solver.
      * rewrite elem_of_union, elem_of_singleton. intros [->|?%Hb]; lia.
    + intros [_ Hin]%Hp. done.
    + rewrite dom_insert_L. set_solver.
    + intros l' Hin. rewrite lookup_insert_ne; [done|]. intros ->. done.
Qed.

Lemma pushed_lookup_ne l a ys h l' :
  l' ≠ l → l' ∉ ys.*1 → pushed l a ys h !! l' = h !! l'.
Proof.
  intros Hne Hn. unfold pushed. rewrite lookup_insert_ne by done.
  apply upd_lookup_ne. intros E%hd_loc_in. done.
Qed.

(** ** The list code of CAWOLFU and ARC

    [CAWOLFULinkedList.remove], [arcList.remove] and [arcGhostList.remove] are
    the same statements, and so are [CAWOLFU.addToFront], [arcList.pushFront]
    and [arcGhostList.pushFront] (the ARC lists count their cells besides). *)
Definition list_remove (l : loc) (hd tl : option loc) h
    : option (option loc * option loc * gmap loc (node P)) :=
  n ← load (Some l) h;
  '(hd, tl, h) ←
    (if decide (hd = tl) then Some (None, None, h)
     else if decide (Some l = hd) then
       h ← store (set_prev None) (next n) h; Some (next n, tl, h)
     else if decide (Some l = tl) then
       h ← store (set_next None) (prev n) h; Some (hd, prev n, h)
     else
       h ← store (set_next (next n)) (prev n) h;
       n ← load (Some l) h;
       h ← store (set_prev (prev n)) (next n) h; Some (hd, tl, h));
  h ← store (set_prev None) (Some l) h;
  h ← store (set_next None) (Some l) h;
  Some (hd, tl, h).

Definition list_pushFront (l : loc) (hd tl : option loc) h
    : option (option loc * option loc * gmap loc (node P)) :=
  h ← store (set_prev None) (Some l) h;
  h ← store (set_next hd) (Some l) h;
  h ← (match hd with Some _ => store (set_prev (Some l)) hd h | None => Some h end);
  Some (Some l, match tl with None => Some l | Some _ => tl end, h).

(** The links of the neighbours, in each case of the [switch]. *)
Lemma remove_switch_ok hd tl h xs l a ys :
  dlist hd tl h (xs ++ (l, a) :: ys) →
  (if decide (hd = tl) then Some (None, None, h)
   else if decide (Some l = hd) then
     h ← store (set_prev None) (hd_loc ys None) h; Some (hd_loc ys None, tl, h)
   else if decide (Some l = tl) then
     h ← store (set_next None) (lst_loc xs None) h; Some (hd, lst_loc xs None, h)
   else
     h ← store (set_next (hd_loc ys None)) (lst_loc xs None) h;
     n ← load (Some l) h;
     h ← store (set_prev (prev n)) (next n) h; Some (hd, tl, h)) =
  Some (hd_loc (xs ++ ys) None, lst_loc (xs ++ ys) None, unlinked xs ys h).
Proof.
  intros Hl. pose proof (dlist_is_head _ _ _ _ _ _ _ Hl) as Hh.
  pose proof (dlist_is_tail _ _ _ _ _ _ _ Hl) as Ht.
  destruct (dlist_split _ _ _ _ _ _ _ Hl) as (Hx & Hy & Hn & Hc).
  destruct Hl as [Eh Et _ [Hsx [_ Hsy]]%dlseg_app]. cbn in Hsy.
  destruct xs as [|[lx ax] xs0] using rev_ind; [clear Hsx|clear IHxs0];
    destruct ys as [|[ly ay] ys0].
  - rewrite decide_True; [done|]. by rewrite <- (proj2 Hh eq_refl), <- (proj2 Ht eq_refl).
  - rewrite decide_False.
    2:{ intros E. rewrite <- (proj2 Hh eq_refl) in E. by apply Ht in E. }
    rewrite decide_True by (symmetry; by rewrite <- (proj2 Hh eq_refl)).
    cbn [hd_loc]. rewrite store_Some by (eapply dlseg_is_Some; [exact Hsy|by left]).
    cbn. by rewrite Et.
  - rewrite app_nil_r. assert (Some l ≠ hd) as Hne by (rewrite Hh; by destruct xs0).
    rewrite decide_False; [|by rewrite <- (proj2 Ht eq_refl)].
    rewrite decide_False by done. rewrite decide_True by (by apply Ht).
    rewrite lst_loc_snoc. rewrite store_Some.
    2:{ eapply dlseg_is_Some; [exact Hsx|]. rewrite fmap_app. set_solver. }
    cbn. rewrite Eh, hd_loc_app. unfold unlinked. rewrite lst_loc_snoc. cbn.
    by destruct xs0 as [|[]].
  - assert (Some l ≠ hd) as Hne by (rewrite Hh; by destruct xs0).
    assert (Some l ≠ tl) as Hne' by (by rewrite Ht).
    assert (lx ≠ l) as Hlx by (intros ->; rewrite fmap_app in Hx; set_solver).
    rewrite decide_False.
    2:{ rewrite Eh, Et, hd_loc_app, lst_loc_app. intros E. symmetry in E.
        cbn [lst_loc] in E.
        destruct (lst_loc_cases ys0 (Some ly)) as [[-> El]|(zs & l' & a' & -> & El)];
          rewrite El in E; destruct xs0 as [|[l0 a0] xs0]; cbn in E; simplify_eq;
          rewrite fmap_app in Hn; apply NoDup_app in Hn as (_ & Hd & _);
          (eapply Hd; [by left|]); rewrite ?fmap_cons, ?fmap_app; set_solver. }
    rewrite !decide_False by done. rewrite lst_loc_snoc. cbn [hd_loc].
    rewrite store_Some; cbn [mbind option_bind].
    2:{ eapply dlseg_is_Some; [exact Hsx|]. rewrite fmap_app. set_solver. }
    rewrite (load_Some l _ (Node a (Some lx) (Some ly))).
    2:{ rewrite upd_lookup_ne by congruence. by rewrite Hc, lst_loc_snoc. }
    cbn [mbind option_bind prev next]. rewrite store_Some; cbn [mbind option_bind].
    2:{ apply upd_is_Some. eapply dlseg_is_Some; [exact Hsy|by left]. }
    unfold unlinked. rewrite lst_loc_snoc. cbn [hd_loc].
    rewrite Eh, Et, !hd_loc_app, !lst_loc_app. by destruct xs0 as [|[]].
Qed.

Lemma list_remove_ok hd tl h xs l a ys :
  dlist hd tl h (xs ++ (l, a) :: ys) →
  list_remove l hd tl h =
    Some (hd_loc (xs ++ ys) None, lst_loc (xs ++ ys) None,
          <[l := Node a None None]> (unlinked xs ys h)).
Proof.
  intros Hl. destruct (dlist_split _ _ _ _ _ _ _ Hl) as (Hx & Hy & Hn & Hc).
  unfold list_remove. rewrite (load_Some _ _ _ Hc). cbn [mbind option_bind prev next].
  rewrite (remove_switch_ok _ _ _ _ _ _ _ Hl). cbn [mbind option_bind].
  rewrite (store_lookup _ _ _ _ (eq_trans (unlinked_lookup_ne h xs ys l Hx Hy) Hc)).
  cbn [mbind option_bind]. rewrite (store_lookup _ _ _ _ (lookup_insert_eq _ _ _)).
  cbn [mbind option_bind]. by rewrite insert_insert_eq.
Qed.

Lemma list_pushFront_ok hd tl h l n ys :
  dlist hd tl h ys → l ∉ ys.*1 → h !! l = Some n →
  list_pushFront l hd tl h =
    Some (Some l, lst_loc ys (Some l), pushed l (payload n) ys h).
Proof.
  intros [Hh Ht Hnd Hs] Hl Hn. unfold list_pushFront.
  rewrite (store_lookup _ _ _ _ Hn). cbn [mbind option_bind].
  rewrite (store_lookup _ _ _ _ (lookup_insert_eq _ _ _)). cbn [mbind option_bind].
  rewrite insert_insert_eq. subst hd tl. unfold pushed.
  destruct ys as [|[l' a'] ys]; cbn [hd_loc]; [done|].
  assert (l' ≠ l) as Hne by (intros ->; apply Hl; by left).
  rewrite store_Some; cbn [mbind option_bind].
  - destruct (lst_loc ((l', a') :: ys) None) eqn:El.
    + do 2 f_equal; [by rewrite <- El|]. cbn. by rewrite alter_insert_ne.
    + cbn in El. by destruct (lst_loc_cases ys (Some l')) as [[-> E]|(? & ? & ? & -> & E)];
        rewrite E in El.
  - rewrite lookup_insert_ne by done. eapply dlseg_is_Some; [exact Hs|by left].
Qed.
End dll.

#[export] Hint Resolve hd_loc_in lst_loc_in dlseg_is_Some unlinked_is_Some upd_is_Some : hyper.

(** Rewrites a field assignment through a pointer known to be allocated. *)
Ltac go_store := rewrite store_Some; cbn [mbind option_bind]; [|solve [eauto with hyper]].
