(* ===== verification/Algorithm.v ===== *)
(** * The eviction-algorithm interface (IAlgorithm of pkg/eviction/eviction.go)

    The interface as a class of operations, the laws its users rely on as a
    second class, and runs of operations over any implementation.  Every
    algorithm file gives an instance of the first; the instances of the laws are
    in Eviction.v, and HyperCache.v is proved against them.

    An operation returns [None] where the Go code would panic.  [Set] takes one
    more argument, the choice [sync.Pool.Get] makes among the pooled cells. *)

From stdpp Require Import base gmap strings list fin_maps.
From S2P Require Import Prelude.

Class IAlgorithm (A : Type) := {
  alg_Evict : A → option (A * (string * bool));
  alg_Set : nat → string → any → A → option A;
  alg_Get : string → A → option (A * (any * bool));
  alg_Delete : string → A → option A }.

(** What the algorithm of capacity [cap] in state [a] tracks is [m].  [Set] may
    drop keys (the new one included) but an update of a tracked key drops
    nothing; [Evict] removes exactly the key it returns. *)
Class AlgorithmLaws (A : Type) `{IAlgorithm A} := {
  tracks : nat → A → gmap string any → Prop;
  tracks_size : ∀ cap a m, tracks cap a m → size m ≤ cap;
  Get_law : ∀ cap a m k, tracks cap a m →
    ∃ a', alg_Get k a = Some (a', (default ANil (m !! k), bool_decide (is_Some (m !! k)))) ∧
      tracks cap a' m;
  Set_law : ∀ cap a m pick k v, tracks cap a m →
    ∃ a' m', alg_Set pick k v a = Some a' ∧ tracks cap a' m' ∧ m' ⊆ <[k := v]> m ∧
      (is_Some (m !! k) → m' = <[k := v]> m);
  Evict_law : ∀ cap a m, tracks cap a m →
    ∃ a' m' r, alg_Evict a = Some (a', r) ∧ tracks cap a' m' ∧
      (r = (""%string, false) ∧ m' = m ∨
       ∃ k, r = (k, true) ∧ is_Some (m !! k) ∧ m' = delete k m);
  Delete_law : ∀ cap a m k, tracks cap a m →
    ∃ a', alg_Delete k a = Some a' ∧ tracks cap a' (delete k m) }.

(** ** Runs *)

Inductive op :=
  | OGet (k : string)
  | OSet (pick : nat) (k : string) (v : any)
  | OEvict
  | ODelete (k : string).

Inductive output :=
  | RGet (r : any * bool)
  | REvict (r : string * bool)
  | RUnit.

Section Runs.
Context {A : Type} `{IAlgorithm A}.

Definition step (o : op) (a : A) : option (A * output) :=
  match o with
  | OGet k => r ← alg_Get k a; Some (r.1, RGet r.2)
  | OSet pick k v => a' ← alg_Set pick k v a; Some (a', RUnit)
  | OEvict => r ← alg_Evict a; Some (r.1, REvict r.2)
  | ODelete k => a' ← alg_Delete k a; Some (a', RUnit)
  end.

Fixpoint run (os : list op) (a : A) : option (A * list output) :=
  match os with
  | [] => Some (a, [])
  | o :: os => r ← step o a; r' ← run os r.1; Some (r'.1, r.2 :: r'.2)
  end.

End Runs.

(** What the callers know a cache may hold: the values set, less the keys
    deleted or reported as evicted. *)
Definition history_step (o : op) (r : output) (m : gmap string any) : gmap string any :=
  match o, r with
  | OSet _ k v, _ => <[k := v]> m
  | ODelete k, _ => delete k m
  | OEvict, REvict (k, true) => delete k m
  | _, _ => m
  end.

(** An answer that agrees with that knowledge: a hit is the last value set. *)
Definition answer_ok (o : op) (r : output) (m : gmap string any) : Prop :=
  match o, r with
  | OGet k, RGet (v, true) => m !! k = Some v
  | OGet k, RGet (v, false) => v = ANil
  | OEvict, REvict (k, true) => is_Some (m !! k)
  | OEvict, REvict (k, false) => k = ""%string
  | OSet _ _ _, RUnit | ODelete _, RUnit => True
  | _, _ => False
  end.

Fixpoint answers_ok (os : list op) (rs : list output) (m : gmap string any) : Prop :=
  match os, rs with
  | [], [] => True
  | o :: os, r :: rs => answer_ok o r m ∧ answers_ok os rs (history_step o r m)
  | _, _ => False
  end.

Section Facts.
Context {A : Type} `{AlgorithmLaws A}.

Lemma step_law cap (a : A) m h o :
  tracks cap a m → m ⊆ h →
  ∃ a' m' r, step o a = Some (a', r) ∧ tracks cap a' m' ∧ answer_ok o r h ∧
    m' ⊆ history_step o r h.
Proof.
  intros Ht Hs. destruct o as [k|pick k v| |k]; cbn.
  - destruct (Get_law cap a m k Ht) as (a' & -> & Ht'). cbn.
    eexists _, m, _. split_and!; [done|done| |done]. cbn.
    destruct (m !! k) eqn:E; cbn; [|done]. by eapply lookup_weaken.
  - destruct (Set_law cap a m pick k v Ht) as (a' & m' & -> & Ht' & Hs' & _). cbn.
    eexists _, m', _. split_and!; [done..|]. cbn. etrans; [exact Hs'|]. by apply insert_mono.
  - destruct (Evict_law cap a m Ht) as (a' & m' & r & -> & Ht' & Hr). cbn.
    eexists _, m', _. split_and!; [done..| |].
    + destruct Hr as [[-> _]|(k & -> & [v Hk] & _)]; cbn; [done|].
      exists v. by eapply lookup_weaken.
    + destruct Hr as [[-> ->]|(k & -> & _ & ->)]; cbn; [done|]. by apply delete_mono.
  - destruct (Delete_law cap a m k Ht) as (a' & -> & Ht'). cbn.
    eexists _, _, _. split_and!; [done..|]. cbn. by apply delete_mono.
Qed.

Lemma run_law cap os (a : A) m h :
  tracks cap a m → m ⊆ h →
  ∃ a' m' rs, run os a = Some (a', rs) ∧ tracks cap a' m' ∧ answers_ok os rs h.
Proof.
  revert a m h. induction os as [|o os IH]; intros a m h Ht Hs; cbn; [eauto 10|].
  destruct (step_law cap a m h o Ht Hs) as (a1 & m1 & r & -> & Ht1 & Hr & Hs1). cbn.
  destruct (IH _ _ _ Ht1 Hs1) as (a2 & m2 & rs & -> & Ht2 & Hrs). cbn. eauto 10.
Qed.

End Facts.
