(* ===== verification/LRU.v ===== *)
(** * The LRU eviction algorithm (pkg/eviction/lru.go)

    Part 1 models the code over a heap of [lruCacheItem] cells: the key map, the
    doubly linked list and the item pool.  Part 2 has the specification, a list
    of key/value pairs with the most recently used first, and the invariant that
    relates the two.  Part 3 proves that every operation of the code returns
    (no nil dereference) and implements its counterpart on the list. *)

From stdpp Require Import base gmap strings list.
From S2P Require Import Prelude DLL Algorithm.

Module LRU.

(** ** Part 1: the code *)

(** The data fields of an item; its links are the [prev]/[next] of the cell. *)
Record lruCacheItem := Item { Key : string; Value : any }.

(** [itemPool] holds the cells given back with [Put].  [heap] and [brk] are the
    memory the pointers refer to and the next address an allocation returns. *)
Record LRU := MkLRU {
  capacity : Z;
  items : gmap string loc;
  head : option loc;
  tail : option loc;
  itemPool : list loc;
  heap : gmap loc (node lruCacheItem);
  brk : loc }.

Definition with_items (m : gmap string loc) (s : LRU) : LRU :=
  MkLRU (capacity s) m (head s) (tail s) (itemPool s) (heap s) (brk s).
Definition with_head (p : option loc) (s : LRU) : LRU :=
  MkLRU (capacity s) (items s) p (tail s) (itemPool s) (heap s) (brk s).
Definition with_tail (p : option loc) (s : LRU) : LRU :=
  MkLRU (capacity s) (items s) (head s) p (itemPool s) (heap s) (brk s).
Definition with_pool (l : list loc) (s : LRU) : LRU :=
  MkLRU (capacity s) (items s) (head s) (tail s) l (heap s) (brk s).
Definition with_heap (h : gmap loc (node lruCacheItem)) (s : LRU) : LRU :=
  MkLRU (capacity s) (items s) (head s) (tail s) (itemPool s) h (brk s).
Definition with_brk (l : loc) (s : LRU) : LRU :=
  MkLRU (capacity s) (items s) (head s) (tail s) (itemPool s) (heap s) l.

(** An assignment to a field of the cell at [p]. *)
Definition assign (f : node lruCacheItem → node lruCacheItem) (p : option loc) (s : LRU)
    : option LRU :=
  h ← store f p (heap s); Some (with_heap h s).

Definition NewLRUAlgorithm (capacity : Z) : result LRU :=
  if (capacity <? 0)%Z then Err ErrInvalidCapacity
  else Ok (MkLRU capacity ∅ None None [] ∅ 1%positive).

Definition removeFromList (item : loc) (lru : LRU) : option LRU :=
  it ← load (Some item) (heap lru);
  lru ← (if decide (Some item = head lru) then Some (with_head (next it) lru)
         else match prev it with
              | Some _ => assign (set_next (next it)) (prev it) lru
              | None => Some lru
              end);
  it ← load (Some item) (heap lru);
  lru ← (if decide (Some item = tail lru) then Some (with_tail (prev it) lru)
         else match next it with
              | Some _ => assign (set_prev (prev it)) (next it) lru
              | None => Some lru
              end);
  lru ← assign (set_prev None) (Some item) lru;
  assign (set_next None) (Some item) lru.

Definition addToFront (item : loc) (lru : LRU) : option LRU :=
  match head lru with
  | None => Some (with_tail (Some item) (with_head (Some item) lru))
  | Some _ =>
      lru ← assign (set_next (head lru)) (Some item) lru;
      lru ← assign (set_prev (Some item)) (head lru) lru;
      Some (with_head (Some item) lru)
  end.

Definition moveToFront (item : loc) (lru : LRU) : option LRU :=
  if decide (Some item = head lru) then Some lru
  else lru ← removeFromList item lru; addToFront item lru.

Definition resetLRUItem (item : loc) (lru : LRU) : option LRU :=
  assign (λ _, Node (Item "" ANil) None None) (Some item) lru.

Definition poolPut (item : loc) (lru : LRU) : LRU := with_pool (item :: itemPool lru) lru.

(** [pick] is the choice [sync.Pool.Get] makes. *)
Definition poolGet (pick : nat) (lru : LRU) : loc * LRU :=
  let '(l, (pool, brk', h)) :=
    pool_get pick (Item "" ANil) (itemPool lru) (brk lru) (heap lru) in
  (l, MkLRU (capacity lru) (items lru) (head lru) (tail lru) pool h brk').

Definition Get (key : string) (lru : LRU) : option (LRU * (any * bool)) :=
  match items lru !! key with
  | None => Some (lru, (ANil, false))
  | Some item =>
      lru ← moveToFront item lru;
      it ← load (Some item) (heap lru);
      Some (lru, (Value (payload it), true))
  end.

(** The eviction step of [Set] when the cache is full. *)
Definition evictTail (lru : LRU) : option LRU :=
  match tail lru with
  | None => Some lru
  | Some tailItem =>
      it ← load (Some tailItem) (heap lru);
      lru ← removeFromList tailItem (with_items (delete (Key (payload it)) (items lru)) lru);
      lru ← resetLRUItem tailItem lru;
      Some (poolPut tailItem lru)
  end.

Definition Set_ (pick : nat) (key : string) (value : any) (lru : LRU) : option LRU :=
  if (capacity lru =? 0)%Z then Some lru
  else match items lru !! key with
  | Some item =>
      it ← load (Some item) (heap lru);
      lru ← assign (set_payload (Item (Key (payload it)) value)) (Some item) lru;
      moveToFront item lru
  | None =>
      lru ← (if (Z.of_nat (size (items lru)) =? capacity lru)%Z then evictTail lru else Some lru);
      let '(item, lru) := poolGet pick lru in
      lru ← assign (λ _, Node (Item key value) None None) (Some item) lru;
      addToFront item (with_items (<[key := item]> (items lru)) lru)
  end.

Definition Evict (lru : LRU) : option (LRU * (string * bool)) :=
  if (capacity lru =? 0)%Z then Some (lru, (""%string, false))
  else match tail lru with
  | None => Some (lru, (""%string, false))
  | Some tailItem =>
      it ← load (Some tailItem) (heap lru);
      let key := Key (payload it) in
      lru ← removeFromList tailItem lru;
      lru ← resetLRUItem tailItem (with_items (delete key (items lru)) lru);
      Some (poolPut tailItem lru, (key, true))
  end.

Definition Delete (key : string) (lru : LRU) : option LRU :=
  match items lru !! key with
  | None => Some lru
  | Some item =>
      lru ← removeFromList item lru;
      lru ← resetLRUItem item (with_items (delete key (items lru)) lru);
      Some (poolPut item lru)
  end.

Definition Len (lru : LRU) : Z := Z.of_nat (size (items lru)).

(** ** Part 2: specification and invariant *)

(** The abstract cache: key/value pairs, most recently used first. *)
Module Spec.
Definition get (k : string) (a : list (string * any)) : list (string * any) * (any * bool) :=
  match assoc k a with
  | Some v => ((k, v) :: drop_key k a, (v, true))
  | None => (a, (ANil, false))
  end.
Definition set (cap : Z) (k : string) (v : any) (a : list (string * any))
    : list (string * any) :=
  if (cap =? 0)%Z then a
  else match assoc k a with
  | Some _ => (k, v) :: drop_key k a
  | None => (k, v) :: (if (Z.of_nat (length a) =? cap)%Z then List.removelast a else a)
  end.
Definition evict (a : list (string * any)) : list (string * any) * (string * bool) :=
  match last a with
  | Some (k, _) => (List.removelast a, (k, true))
  | None => (a, (""%string, false))
  end.
Definition delete (k : string) (a : list (string * any)) : list (string * any) := drop_key k a.
End Spec.

(** The list structure proper: [xs] is what [head], [tail] and the cells spell. *)
Definition links (s : LRU) (xs : list (loc * lruCacheItem)) : Prop :=
  dlist (head s) (tail s) (heap s) xs.

(** Everything an operation on the list leaves alone. *)
Record same_rest (s s' : LRU) : Prop := {
  sr_cap : capacity s' = capacity s;
  sr_items : items s' = items s;
  sr_pool : itemPool s' = itemPool s;
  sr_brk : brk s' = brk s;
  sr_dom : dom (heap s') = dom (heap s) }.

Record wf (s : LRU) (xs : list (loc * lruCacheItem)) : Prop := {
  wf_links : links s xs;
  wf_index : indexes (items s) (entries Key xs);
  wf_pool : pool_ok (itemPool s) (brk s) (heap s) xs;
  wf_cap : (0 ≤ Z.of_nat (length xs) ≤ capacity s)%Z }.

(** The pairs a list of cells stands for. *)
Definition abs (xs : list (loc * lruCacheItem)) : list (string * any) :=
  (λ x, (Key x.2, Value x.2)) <$> xs.

Definition refines (s : LRU) (a : list (string * any)) : Prop := ∃ xs, wf s xs ∧ a = abs xs.

(** ** Part 3: the list operations *)

#[local] Arguments load : simpl never.
#[local] Arguments store : simpl never.

(** The predecessor side of [removeFromList]. *)
Lemma remove_prev_ok s xs l a ys :
  links s (xs ++ (l, a) :: ys) →
  (if decide (Some l = head s) then Some (with_head (hd_loc ys None) s)
   else match lst_loc xs None with
        | Some _ => assign (set_next (hd_loc ys None)) (lst_loc xs None) s
        | None => Some s end) =
  Some (MkLRU (capacity s) (items s) (hd_loc (xs ++ ys) None) (tail s) (itemPool s)
    (upd (set_next (hd_loc ys None)) (lst_loc xs None) (heap s)) (brk s)).
Proof.
  intros Hl. pose proof (dlist_is_head _ _ _ _ _ _ _ Hl) as Hhd. case_decide as E.
  - apply Hhd in E as ->. done.
  - assert (xs ≠ []) as Hne by tauto. destruct Hl as [Eh _ _ [Hsx _]%dlseg_app].
    destruct (lst_loc_cases xs None) as [[-> _]|(zs & l' & a' & -> & ->)]; [done|].
    unfold assign. rewrite store_Some; cbn [mbind option_bind].
    + unfold with_heap. rewrite Eh. by destruct zs as [|[]].
    + eapply dlseg_is_Some; [exact Hsx|]. rewrite fmap_app. set_solver.
Qed.

(** The successor side, after the predecessor side. *)
Lemma remove_next_ok s xs l a ys s1 :
  links s (xs ++ (l, a) :: ys) →
  s1 = MkLRU (capacity s) (items s) (hd_loc (xs ++ ys) None) (tail s) (itemPool s)
    (upd (set_next (hd_loc ys None)) (lst_loc xs None) (heap s)) (brk s) →
  (if decide (Some l = tail s1) then Some (with_tail (lst_loc xs None) s1)
   else match hd_loc ys None with
        | Some _ => assign (set_prev (lst_loc xs None)) (hd_loc ys None) s1
        | None => Some s1 end) =
  Some (MkLRU (capacity s) (items s) (hd_loc (xs ++ ys) None) (lst_loc (xs ++ ys) None)
    (itemPool s) (unlinked xs ys (heap s)) (brk s)).
Proof.
  intros Hl ->. pose proof (dlist_is_tail _ _ _ _ _ _ _ Hl) as Htl. cbn [tail].
  case_decide as E.
  - apply Htl in E as ->. by rewrite app_nil_r.
  - assert (ys ≠ []) as Hne by tauto.
    destruct Hl as [_ Et _ [_ [_ Hsy]]%dlseg_app]. cbn in Hsy.
    destruct ys as [|[l' a'] ys]; [done|]. cbn [hd_loc].
    unfold assign. rewrite store_Some; cbn [mbind option_bind heap].
    + unfold with_heap. cbn. by rewrite Et, !lst_loc_app.
    + apply upd_is_Some. eapply dlseg_is_Some; [exact Hsy|]. by left.
Qed.

(** Removing a cell bypasses it and clears its links. *)
Lemma removeFromList_ok s xs l a ys :
  links s (xs ++ (l, a) :: ys) →
  removeFromList l s = Some (MkLRU (capacity s) (items s) (hd_loc (xs ++ ys) None)
    (lst_loc (xs ++ ys) None) (itemPool s)
    (<[l := Node a None None]> (unlinked xs ys (heap s))) (brk s)).
Proof.
  intros Hl. destruct (dlist_split _ _ _ _ _ _ _ Hl) as (Hx & Hy & Hn & Hc).
  pose proof (unlinked_lookup_ne (heap s) xs ys l Hx Hy) as Hu. rewrite Hc in Hu.
  unfold removeFromList. rewrite (load_Some _ _ _ Hc). cbn [mbind option_bind prev next].
  rewrite (remove_prev_ok _ _ _ _ _ Hl). cbn [mbind option_bind heap].
  rewrite (load_Some l _ (Node a (lst_loc xs None) (hd_loc ys None))).
  2:{ rewrite upd_lookup_ne; [done|]. intros E%lst_loc_in. done. }
  cbn [mbind option_bind prev next]. rewrite (remove_next_ok _ _ _ _ _ _ Hl eq_refl).
  unfold assign, with_heap. cbn [mbind option_bind heap]. rewrite (store_lookup _ _ _ _ Hu).
  cbn. erewrite store_lookup by apply lookup_insert_eq. cbn. do 2 f_equal.
  by rewrite insert_insert_eq.
Qed.

(** Adding a detached cell puts it first. *)
Lemma addToFront_ok s l a ys :
  links s ys → l ∉ ys.*1 → heap s !! l = Some (Node a None None) →
  ∃ s', addToFront l s = Some s' ∧ links s' ((l, a) :: ys) ∧ same_rest s s'.
Proof.
  intros Hlk Hl Hc. pose proof (dl_head _ _ _ _ Hlk) as Eh. unfold addToFront. rewrite Eh.
  destruct ys as [|[l' a'] ys]; cbn [hd_loc].
  - eexists. split; [done|]. split; [|done]. split; cbn; auto. by apply NoDup_singleton.
  - unfold assign. rewrite (store_lookup _ _ _ _ Hc).
    cbn [mbind option_bind with_heap head heap]. rewrite Eh. cbn [hd_loc].
    assert (l' ≠ l) as Hne by (intros ->; apply Hl; by left).
    rewrite store_Some.
    2:{ rewrite lookup_insert_ne by done. eapply dlseg_is_Some; [apply Hlk|by left]. }
    cbn [mbind option_bind]. eexists. split; [done|]. split.
    + unfold links. cbn [head tail heap with_head with_heap]. rewrite (dl_tail _ _ _ _ Hlk).
      eapply (dlist_push _ _ _ _ ((l', a') :: ys)); [exact Hlk|done|..].
      * cbn. rewrite lookup_alter_ne by done. by rewrite lookup_insert_eq.
      * intros l'' Hin. cbn. rewrite !lookup_alter. case_decide as E.
        -- subst l''. by rewrite lookup_insert_ne.
        -- rewrite lookup_insert_ne; [done|]. intros ->. done.
    + split; cbn; try done. rewrite dom_alter_L, dom_insert_lookup_L; eauto.
Qed.

Lemma lru_moveToFront_ok s xs l a ys :
  links s (xs ++ (l, a) :: ys) →
  ∃ s', moveToFront l s = Some s' ∧ links s' ((l, a) :: xs ++ ys) ∧ same_rest s s'.
Proof.
  intros Hl. unfold moveToFront. case_decide as E.
  - apply (dlist_is_head _ _ _ _ _ _ _ Hl) in E as ->. exists s.
    split_and!; [done|exact Hl|by split].
  - rewrite (removeFromList_ok _ _ _ _ _ Hl). cbn [mbind option_bind].
    edestruct (addToFront_ok (MkLRU (capacity s) (items s) (hd_loc (xs ++ ys) None)
      (lst_loc (xs ++ ys) None) (itemPool s)
      (<[l:=Node a None None]> (unlinked xs ys (heap s))) (brk s)) l a (xs ++ ys))
      as (s' & -> & Hl' & [? ? ? ? Hd]).
    + by eapply dlist_unlink.
    + by eapply dlist_notin.
    + apply lookup_insert_eq.
    + exists s'. split_and!; [done..|]. split; try done. rewrite Hd. by eapply dom_unlink.
Qed.

(** ** The operations *)

Lemma lru_abs_app xs ys : abs (xs ++ ys) = abs xs ++ abs ys.
Proof. apply fmap_app. Qed.

Lemma lru_abs_keys xs : (abs xs).*1 = (entries Key xs).*1.
Proof. unfold abs, entries. by rewrite <- !list_fmap_compose. Qed.

Lemma length_abs xs : length (abs xs) = length xs.
Proof. apply length_fmap. Qed.

Lemma wf_abs_nodup s xs : wf s xs → NoDup (abs xs).*1.
Proof. intros H. rewrite lru_abs_keys. apply H. Qed.

Lemma wf_size s xs : wf s xs → size (items s) = length xs.
Proof.
  intros H. rewrite (indexes_size _ _ (wf_index _ _ H)). apply length_fmap.
Qed.

Lemma lru_wf_lookup s xs k l :
  wf s xs → items s !! k = Some l → ∃ xa a xb, xs = xa ++ (l, a) :: xb ∧ Key a = k.
Proof.
  intros H Hk. destruct (indexes_split _ _ _ _ (wf_index _ _ H) Hk) as (ka & kb & E).
  destruct (entries_split _ _ _ _ _ _ E) as (xa & a & xb & -> & ? & _). eauto.
Qed.

Lemma lru_wf_lookup_None s xs k :
  wf s xs → items s !! k = None → k ∉ (abs xs).*1.
Proof. intros H Hk. rewrite lru_abs_keys. by eapply indexes_None; [apply H|]. Qed.

(** Moving cells around within the list keeps the rest of the invariant. *)
Lemma wf_reorder s s' xs xs' :
  wf s xs → links s' xs' → same_rest s s' → xs' ≡ₚ xs → wf s' xs'.
Proof.
  intros [Hl Hi Hp Hc] Hl' [Ec Ei Ep Eb Ed] Hperm. split; [done|..].
  - rewrite Ei. eapply indexes_perm; [|exact Hi]. unfold entries. by rewrite Hperm.
  - rewrite Ep, Eb. eapply pool_ok_reorder; [done..|]. by rewrite Hperm.
  - by rewrite Ec, Hperm.
Qed.

Lemma lru_move_wf s xs l a ys :
  wf s (xs ++ (l, a) :: ys) →
  ∃ s', moveToFront l s = Some s' ∧ wf s' ((l, a) :: xs ++ ys) ∧ capacity s' = capacity s ∧
    load (Some l) (heap s') = Some (Node a None (hd_loc (xs ++ ys) None)).
Proof.
  intros H. destruct (lru_moveToFront_ok _ _ _ _ _ (wf_links _ _ H)) as (s' & -> & Hl & Hr).
  exists s'. split_and!; [done| |apply Hr|apply (dl_seg _ _ _ _ Hl)].
  eapply wf_reorder; [done..|]. by rewrite Permutation_middle.
Qed.

(** A removed cell goes back to the pool. *)
Lemma lru_release_wf s xs l a ys s1 :
  wf s (xs ++ (l, a) :: ys) →
  s1 = MkLRU (capacity s) (delete (Key a) (items s)) (hd_loc (xs ++ ys) None)
    (lst_loc (xs ++ ys) None) (itemPool s)
    (<[l := Node a None None]> (unlinked xs ys (heap s))) (brk s) →
  ∃ s2, resetLRUItem l s1 = Some s2 ∧ wf (poolPut l s2) (xs ++ ys) ∧ capacity s2 = capacity s.
Proof.
  intros [Hlk Hi Hp Hcap] ->. unfold resetLRUItem, assign. cbn [heap].
  rewrite (store_lookup _ _ _ _ (lookup_insert_eq _ _ _)). cbn [mbind option_bind].
  eexists. split_and!; [done| |done]. rewrite insert_insert_eq. split; cbn.
  - by eapply dlist_unlink.
  - rewrite entries_app in Hi |- *. rewrite entries_cons in Hi. by eapply indexes_delete.
  - eapply pool_ok_put; [done|by eapply dlist_notin| |by eapply dom_unlink].
    apply elem_of_dom. destruct (dlist_split _ _ _ _ _ _ _ Hlk) as (_ & _ & _ & ->). eauto.
  - rewrite length_app in *. cbn in *. lia.
Qed.

Lemma lru_poolGet_wf pick s xs l s1 :
  wf s xs → poolGet pick s = (l, s1) →
  wf s1 xs ∧ l ∉ xs.*1 ∧ l ∉ itemPool s1 ∧ l ∈ dom (heap s1) ∧
  items s1 = items s ∧ capacity s1 = capacity s.
Proof.
  unfold poolGet. intros [Hlk Hi Hp Hcap] E.
  destruct (pool_get _ _ _ _ _) as [l' [[pool brk'] h]] eqn:Eg. simplify_eq.
  destruct (pool_get_ok _ _ _ _ _ _ _ _ _ _ Hp (dl_seg _ _ _ _ Hlk) Eg)
    as (Hp' & Hx & Hl & Hd & Hext).
  split_and!; try done. split; try done. destruct Hlk as [? ? ? Hs]. split; try done.
  eapply dlseg_ext; [|exact Hs]. intros l' Hin. apply Hext, elem_of_dom.
  by eapply dlseg_is_Some.
Qed.

(** Linking a fresh cell in front. *)
Lemma lru_insert_wf s xs k v l :
  wf s xs → l ∉ xs.*1 → l ∉ itemPool s → l ∈ dom (heap s) → items s !! k = None →
  (Z.of_nat (length xs) < capacity s)%Z →
  ∃ s1 s', assign (λ _, Node (Item k v) None None) (Some l) s = Some s1 ∧
    addToFront l (with_items (<[k := l]> (items s1)) s1) = Some s' ∧
    wf s' ((l, Item k v) :: xs) ∧ capacity s' = capacity s.
Proof.
  intros H Hl Hlp [n Hd]%elem_of_dom Hk Hlen.
  pose proof (lru_wf_lookup_None _ _ _ H Hk) as Hkn. rewrite lru_abs_keys in Hkn.
  unfold assign. rewrite (store_lookup _ _ _ _ Hd). cbn [mbind option_bind].
  destruct H as [[Hh Ht Hn Hs] Hi Hp Hcap].
  edestruct (addToFront_ok (with_items (<[k:=l]> (items s))
    (with_heap (<[l:=Node (Item k v) None None]> (heap s)) s)) l (Item k v) xs)
    as (s' & Hs' & Hlk' & [Ec Ei Ep Eb Ed]).
  { split; try done. by apply dlseg_insert_notin. }
  { done. } { apply lookup_insert_eq. }
  eexists _, s'. split; [done|]. split; [exact Hs'|]. cbn in *.
  rewrite dom_insert_lookup_L in Ed by eauto. split; [|done]. split; [done|..].
  - rewrite Ei. cbn. by apply indexes_insert.
  - rewrite Ep, Eb. by eapply pool_ok_link.
  - rewrite Ec. cbn. lia.
Qed.

Lemma lru_abs_cons l a xs : abs ((l, a) :: xs) = (Key a, Value a) :: abs xs.
Proof. done. Qed.

Lemma lru_abs_snoc xs x : abs (xs ++ [x]) = abs xs ++ [(Key x.2, Value x.2)].
Proof. apply lru_abs_app. Qed.

Lemma lru_wf_abs_middle s xs l a ys :
  wf s (xs ++ (l, a) :: ys) →
  assoc (Key a) (abs (xs ++ (l, a) :: ys)) = Some (Value a) ∧
  drop_key (Key a) (abs (xs ++ (l, a) :: ys)) = abs (xs ++ ys).
Proof.
  intros H%wf_abs_nodup. rewrite !lru_abs_app, lru_abs_cons in *.
  split; [by apply assoc_middle|by apply drop_key_middle].
Qed.

Lemma lru_Get_refines k s a :
  refines s a →
  ∃ s', Get k s = Some (s', (Spec.get k a).2) ∧ refines s' (Spec.get k a).1 ∧
    capacity s' = capacity s.
Proof.
  intros (xs & H & ->). unfold Get, Spec.get. destruct (items s !! k) as [l|] eqn:E.
  - destruct (lru_wf_lookup _ _ _ _ H E) as (xa & a & xb & -> & <-).
    destruct (lru_wf_abs_middle _ _ _ _ _ H) as [-> ->].
    destruct (lru_move_wf _ _ _ _ _ H) as (s' & -> & H' & Hc & Hld). cbn [mbind option_bind].
    rewrite Hld. cbn. eexists. split_and!; [done|eexists; split; [exact H'|done]|done].
  - rewrite (assoc_notin _ _ (lru_wf_lookup_None _ _ _ H E)). exists s. unfold refines. eauto.
Qed.

(** [removeFromList] and [resetLRUItem] as [Evict], [Delete] and [Set] compose
    them. *)
Lemma release_ok s xs l a ys :
  wf s (xs ++ (l, a) :: ys) →
  ∃ s1 s2, removeFromList l s = Some s1 ∧
    removeFromList l (with_items (delete (Key a) (items s)) s) =
      Some (with_items (delete (Key a) (items s1)) s1) ∧
    resetLRUItem l (with_items (delete (Key a) (items s1)) s1) = Some s2 ∧
    wf (poolPut l s2) (xs ++ ys) ∧ capacity s2 = capacity s.
Proof.
  intros H. rewrite (removeFromList_ok _ _ _ _ _ (wf_links _ _ H)).
  edestruct (lru_release_wf _ _ _ _ _ _ H eq_refl) as (s2 & Hr & Hw & Hc).
  eexists _, s2. split_and!; [done| |exact Hr|done|done].
  rewrite (removeFromList_ok (with_items _ s) xs l a ys); [done|].
  split; apply (wf_links _ _ H).
Qed.

Lemma tail_load s xs l :
  wf s xs → tail s = Some l →
  ∃ ys a, xs = ys ++ [(l, a)] ∧ load (Some l) (heap s) = Some (Node a (lst_loc ys None) None).
Proof.
  intros [Hl _ _ _] Ht. unfold links in Hl. rewrite Ht in Hl.
  destruct (dlist_tail_Some _ _ _ _ Hl) as (ys & a & ->). exists ys, a. split; [done|].
  by destruct (dlist_split _ _ _ _ _ _ _ Hl) as (_ & _ & _ & ?).
Qed.

Lemma lru_tail_None s xs : wf s xs → tail s = None → xs = [].
Proof.
  intros [Hl _ _ _] Ht. unfold links in Hl. rewrite Ht in Hl. by eapply dlist_tail_None.
Qed.

Lemma lru_Evict_refines s a :
  capacity s ≠ 0%Z → refines s a →
  ∃ s', Evict s = Some (s', (Spec.evict a).2) ∧ refines s' (Spec.evict a).1 ∧
    capacity s' = capacity s.
Proof.
  intros Hcap (xs & H & ->). unfold Evict, Spec.evict.
  destruct (Z.eqb_spec (capacity s) 0) as [|_]; [done|].
  destruct (tail s) as [l|] eqn:E.
  - destruct (tail_load _ _ _ H E) as (ys & a & -> & Hld). rewrite Hld. cbn [mbind option_bind].
    destruct (release_ok _ _ _ _ _ H) as (s1 & s2 & -> & _ & Hr & Hw & Hc).
    cbn [mbind option_bind payload]. rewrite Hr. cbn [mbind option_bind].
    rewrite lru_abs_snoc, last_snoc, List.removelast_last. eexists. split_and!; [done| |exact Hc].
    exists (ys ++ []). split; [exact Hw|by rewrite app_nil_r].
  - pose proof (lru_tail_None _ _ H E) as ->. cbn. exists s. split_and!; [done| |done]. by exists [].
Qed.

Lemma Evict_zero s : capacity s = 0%Z → Evict s = Some (s, (""%string, false)).
Proof. intros E. unfold Evict. by rewrite E. Qed.

Lemma lru_Delete_refines k s a :
  refines s a →
  ∃ s', Delete k s = Some s' ∧ refines s' (Spec.delete k a) ∧ capacity s' = capacity s.
Proof.
  intros (xs & H & ->). unfold Delete, Spec.delete. destruct (items s !! k) as [l|] eqn:E.
  - destruct (lru_wf_lookup _ _ _ _ H E) as (xa & a & xb & -> & <-).
    destruct (lru_wf_abs_middle _ _ _ _ _ H) as [_ ->].
    destruct (release_ok _ _ _ _ _ H) as (s1 & s2 & -> & _ & Hr & Hw & Hc).
    cbn [mbind option_bind]. rewrite Hr. cbn. eexists. split_and!; [done|by eexists|done].
  - rewrite (drop_key_notin _ _ (lru_wf_lookup_None _ _ _ H E)). exists s. unfold refines. eauto.
Qed.

Lemma evictTail_wf s xs :
  wf s xs → (0 < capacity s)%Z → Z.of_nat (length xs) = capacity s →
  ∃ s' ys, evictTail s = Some s' ∧ wf s' ys ∧ abs ys = List.removelast (abs xs) ∧
    length xs = S (length ys) ∧ capacity s' = capacity s.
Proof.
  intros H Hpos Hlen. unfold evictTail.
  destruct (tail s) as [l|] eqn:E.
  - destruct (tail_load _ _ _ H E) as (ys & a & -> & Hld). rewrite Hld. cbn [mbind option_bind payload].
    destruct (release_ok _ _ _ _ _ H) as (s1 & s2 & _ & -> & Hr & Hw & Hc).
    cbn [mbind option_bind payload]. rewrite Hr. cbn [mbind option_bind].
    exists (poolPut l s2), ys. rewrite app_nil_r in Hw. split_and!; try done.
    + by rewrite lru_abs_snoc, List.removelast_last.
    + rewrite length_app. cbn. lia.
  - rewrite (lru_tail_None _ _ H E) in Hlen. cbn in Hlen. lia.
Qed.

Lemma set_value_wf s xs l a ys v :
  wf s (xs ++ (l, a) :: ys) →
  wf (with_heap (upd (set_payload (Item (Key a) v)) (Some l) (heap s)) s)
    (xs ++ (l, Item (Key a) v) :: ys).
Proof.
  intros [Hl Hi Hp Hc]. split.
  - by eapply dlist_set_payload.
  - by rewrite entries_app in *.
  - eapply pool_ok_reorder; [exact Hp|apply dom_upd|]. by rewrite !fmap_app.
  - rewrite length_app in *. done.
Qed.

(** The full-cache test of [Set]: afterwards there is room for one more entry
    and the key being added is still absent. *)
Lemma make_room_wf s xs k :
  wf s xs → (0 < capacity s)%Z → items s !! k = None →
  ∃ s1 ys, (if (Z.of_nat (length xs) =? capacity s)%Z then evictTail s else Some s) = Some s1 ∧
    wf s1 ys ∧ items s1 !! k = None ∧
    abs ys = (if (Z.of_nat (length xs) =? capacity s)%Z
              then List.removelast (abs xs) else abs xs) ∧
    (Z.of_nat (length ys) < capacity s)%Z ∧ capacity s1 = capacity s.
Proof.
  intros H Hpos E. pose proof (wf_cap _ _ H) as Hcap.
  destruct (Z.eqb_spec (Z.of_nat (length xs)) (capacity s)).
  - destruct (evictTail_wf _ _ H) as (s1 & ys & -> & H1 & Habs & Hl & Hc1); [lia|done|].
    exists s1, ys. split_and!; try done; [|lia].
    apply not_elem_of_dom. intros [l Hl']%elem_of_dom.
    apply (lru_wf_lookup_None _ _ _ H E).
    destruct (lru_wf_lookup _ _ _ _ H1 Hl') as (xa & a & xb & -> & <-).
    destruct xs as [|x xs _] using rev_ind; [done|].
    rewrite lru_abs_snoc, List.removelast_last in Habs. rewrite lru_abs_snoc, fmap_app.
    rewrite <- Habs, lru_abs_app, lru_abs_cons, fmap_app. set_solver.
  - exists s, xs. split_and!; try done. lia.
Qed.

Lemma lru_Set_refines pick k v s a :
  refines s a →
  ∃ s', Set_ pick k v s = Some s' ∧ refines s' (Spec.set (capacity s) k v a) ∧
    capacity s' = capacity s.
Proof.
  intros (xs & H & ->). unfold Set_, Spec.set.
  destruct (Z.eqb_spec (capacity s) 0) as [E0|E0]; [exists s; unfold refines; eauto|].
  pose proof (wf_cap _ _ H) as Hcap. destruct (items s !! k) as [l|] eqn:E.
  - destruct (lru_wf_lookup _ _ _ _ H E) as (xa & a & xb & -> & <-).
    destruct (lru_wf_abs_middle _ _ _ _ _ H) as [-> ->].
    destruct (dlist_split _ _ _ _ _ _ _ (wf_links _ _ H)) as (_ & _ & _ & Hc).
    rewrite (load_Some _ _ _ Hc). unfold assign. cbn [mbind option_bind payload].
    rewrite store_Some by eauto. cbn [mbind option_bind].
    destruct (lru_move_wf _ _ _ _ _ (set_value_wf _ _ _ _ _ v H)) as (s' & -> & H' & Hcap' & _).
    exists s'. split_and!; [done| |done]. eexists. split; [exact H'|done].
  - rewrite (assoc_notin _ _ (lru_wf_lookup_None _ _ _ H E)), length_abs, (wf_size _ _ H).
    destruct (make_room_wf _ _ k H) as (s1 & ys & -> & H1 & Hk & Habs & Hlen & Hc1); [lia|done|].
    cbn [mbind option_bind]. destruct (poolGet pick s1) as [l s2] eqn:Ep.
    destruct (lru_poolGet_wf _ _ _ _ _ H1 Ep) as (H2 & Hl & Hlp & Hd & Ei & Ec).
    destruct (lru_insert_wf s2 ys k v l) as (s3 & s4 & -> & Hadd & H4 & Hc4); try done.
    { by rewrite Ei. } { lia. }
    cbn [mbind option_bind]. exists s4. split_and!; [done| |congruence].
    eexists. split; [exact H4|]. by rewrite lru_abs_cons, Habs.
Qed.

(** ** Runs *)

#[global] Instance LRU_IAlgorithm : IAlgorithm LRU := {
  alg_Evict := Evict; alg_Set := Set_; alg_Get := Get; alg_Delete := Delete }.

Definition spec_step (cap : Z) (o : op) (a : list (string * any))
    : list (string * any) * output :=
  match o with
  | OGet k => ((Spec.get k a).1, RGet (Spec.get k a).2)
  | OSet _ k v => (Spec.set cap k v a, RUnit)
  | OEvict => ((Spec.evict a).1, REvict (Spec.evict a).2)
  | ODelete k => (Spec.delete k a, RUnit)
  end.

Fixpoint spec_run (cap : Z) (os : list op) (a : list (string * any))
    : list (string * any) * list output :=
  match os with
  | [] => (a, [])
  | o :: os => let r := spec_step cap o a in
      let r' := spec_run cap os r.1 in (r'.1, r.2 :: r'.2)
  end.

Lemma refines_length s a : refines s a → (0 ≤ Z.of_nat (length a) ≤ capacity s)%Z.
Proof. intros (xs & H & ->). rewrite length_abs. apply H. Qed.

Lemma lru_step_refines o s a :
  refines s a →
  ∃ s', step o s = Some (s', (spec_step (capacity s) o a).2) ∧
    refines s' (spec_step (capacity s) o a).1 ∧ capacity s' = capacity s.
Proof.
  intros H. destruct o as [k|pick k v| |k]; cbn.
  - destruct (lru_Get_refines k _ _ H) as (s' & -> & ? & ?). eauto.
  - destruct (lru_Set_refines pick k v _ _ H) as (s' & -> & ? & ?). eauto.
  - destruct (decide (capacity s = 0%Z)) as [E|E].
    + rewrite (Evict_zero _ E). pose proof (refines_length _ _ H).
      destruct a; [|cbn in *; lia]. eauto.
    + destruct (lru_Evict_refines _ _ E H) as (s' & -> & ? & ?). eauto.
  - destruct (lru_Delete_refines k _ _ H) as (s' & -> & ? & ?). eauto.
Qed.

Lemma lru_run_refines os s a :
  refines s a →
  ∃ s', run os s = Some (s', (spec_run (capacity s) os a).2) ∧
    refines s' (spec_run (capacity s) os a).1 ∧ capacity s' = capacity s.
Proof.
  revert s a. induction os as [|o os IH]; intros s a H; cbn; [eauto|].
  destruct (lru_step_refines o _ _ H) as (s1 & -> & H1 & Ec). cbn [mbind option_bind fst snd].
  destruct (IH _ _ H1) as (s2 & -> & H2 & Ec2). rewrite Ec in *. eauto.
Qed.

Lemma lru_New_refines cap s : NewLRUAlgorithm cap = Ok s → refines s [] ∧ capacity s = cap.
Proof.
  unfold NewLRUAlgorithm. destruct (Z.ltb_spec cap 0); intros; simplify_eq.
  split; [|done]. exists []. split; [|done].
  split; [apply dlist_nil|apply indexes_empty|apply pool_ok_nil|cbn; lia].
Qed.

(** ** The claims *)

(** C1: For every non-negative capacity, every sequence of [Get]/[Set]/[Evict]/
    [Delete] calls and every choice of the item pool, the pointer code of the LRU
    cache runs without a nil dereference, and all its answers are those of the
    abstract LRU list (most recent first, inserting into a full cache drops the
    last, [Evict] returns the last). *)
Theorem lru_simulation (cap : Z) (os : list op) :
  (0 ≤ cap)%Z →
  ∃ s0 s', NewLRUAlgorithm cap = Ok s0 ∧ run os s0 = Some (s', (spec_run cap os []).2) ∧
    refines s' (spec_run cap os []).1.
Proof.
  intros Hcap. destruct (NewLRUAlgorithm cap) as [s0|] eqn:E.
  - destruct (lru_New_refines _ _ E) as [H0 Hc]. destruct (lru_run_refines os _ _ H0) as (s' & ? & ? & _).
    rewrite Hc in *. eauto.
  - unfold NewLRUAlgorithm in E. destruct (Z.ltb_spec cap 0); [lia|done].
Qed.

Lemma lru_simulation_witness :
  (∃ s0 s', NewLRUAlgorithm 2 = Ok s0 ∧
    run [OSet 0 "a" (AString "1"); OSet 0 "b" (AString "2"); OGet "a";
         OSet 0 "c" (AString "3"); OGet "b"; OEvict] s0 = Some (s', (spec_run 2
        [OSet 0 "a" (AString "1"); OSet 0 "b" (AString "2"); OGet "a";
         OSet 0 "c" (AString "3"); OGet "b"; OEvict] []).2) ∧
    refines s' (spec_run 2 [OSet 0 "a" (AString "1"); OSet 0 "b" (AString "2"); OGet "a";
         OSet 0 "c" (AString "3"); OGet "b"; OEvict] []).1) ∧
  (spec_run 2 [OSet 0 "a" (AString "1"); OSet 0 "b" (AString "2"); OGet "a";
         OSet 0 "c" (AString "3"); OGet "b"; OEvict] []).2 =
    [RUnit; RUnit; RGet (AString "1", true); RUnit; RGet (ANil, false); REvict ("a"%string, true)].
Proof. split; [apply (lru_simulation 2); lia|vm_compute; reflexivity]. Defined.

(** In every state the LRU code reaches, the number of entries it reports is
    the number of cells in its list and never exceeds the capacity, and the key
    map holds exactly the keys of the list. *)
Theorem lru_capacity (cap : Z) (s0 s : LRU) (os : list op) (outs : list output) :
  NewLRUAlgorithm cap = Ok s0 → run os s0 = Some (s, outs) →
  (Len s ≤ cap)%Z ∧
  ∃ xs, links s xs ∧ Len s = Z.of_nat (length xs) ∧ indexes (items s) (entries Key xs).
Proof.
  intros E Hr. destruct (lru_New_refines _ _ E) as [H0 Hc].
  destruct (lru_run_refines os _ _ H0) as (s' & Hr' & (xs & H & _) & Hc').
  rewrite Hr in Hr'. simplify_eq. unfold Len. rewrite (wf_size _ _ H).
  pose proof (wf_cap _ _ H). split; [lia|]. exists xs. split_and!; [apply H|done|apply H].
Qed.

Lemma lru_capacity_witness :
  ∃ s0 s outs, NewLRUAlgorithm 2 = Ok s0 ∧
    run [OSet 0 "a" ANil; OSet 7 "b" ANil; OSet 0 "c" ANil] s0 = Some (s, outs) ∧
    (Len s ≤ 2)%Z ∧ Len s = 2%Z.
Proof.
  do 3 eexists. split; [reflexivity|]. split; [vm_compute; reflexivity|].
  split; [|vm_compute; reflexivity].
  eapply (lru_capacity 2 _ _ [OSet 0 "a" ANil; OSet 7 "b" ANil; OSet 0 "c" ANil]);
    [reflexivity|vm_compute; reflexivity].
Defined.

End LRU.
