(* ===== verification/CAWOLFU.v ===== *)
(** * The CAWOLFU eviction algorithm (pkg/eviction/cawolfu.go)

    The same layers as for the LRU cache: the pointer code, its invariant, and
    the refinement.  The code counts accesses but never compares the counts, so
    the abstract machine it implements is that of LRU: the theorems are stated
    against [LRU.Spec]. *)

From stdpp Require Import base gmap strings list.
From S2P Require Import Prelude DLL Algorithm LRU.

Module CAWOLFU.

(** ** The code *)

Record CAWOLFUNode := CNode { key : string; value : any; count : Z }.

Record CAWOLFULinkedList := LList { head : option loc; tail : option loc }.

Record CAWOLFU := MkCAWOLFU {
  items : gmap string loc;
  llist : CAWOLFULinkedList;
  len : Z;                               (* the field [length] *)
  cap : Z;
  nodePool : list loc;
  heap : gmap loc (node CAWOLFUNode);
  brk : loc }.

Definition with_items (m : gmap string loc) (c : CAWOLFU) : CAWOLFU :=
  MkCAWOLFU m (llist c) (len c) (cap c) (nodePool c) (heap c) (brk c).
Definition with_len (n : Z) (c : CAWOLFU) : CAWOLFU :=
  MkCAWOLFU (items c) (llist c) n (cap c) (nodePool c) (heap c) (brk c).
Definition with_list (l : CAWOLFULinkedList) (h : gmap loc (node CAWOLFUNode)) (c : CAWOLFU)
    : CAWOLFU :=
  MkCAWOLFU (items c) l (len c) (cap c) (nodePool c) h (brk c).
Definition with_pool (l : list loc) (c : CAWOLFU) : CAWOLFU :=
  MkCAWOLFU (items c) (llist c) (len c) (cap c) l (heap c) (brk c).

Definition assign (f : node CAWOLFUNode → node CAWOLFUNode) (p : option loc) (c : CAWOLFU)
    : option CAWOLFU :=
  h ← store f p (heap c); Some (with_list (llist c) h c).

Definition NewCAWOLFU (capacity : Z) : result CAWOLFU :=
  if (capacity <? 0)%Z then Err ErrInvalidCapacity
  else Ok (MkCAWOLFU ∅ (LList None None) 0 capacity [] ∅ 1%positive).

Definition remove (nd : loc) (c : CAWOLFU) : option CAWOLFU :=
  '(hd, tl, h) ← list_remove nd (head (llist c)) (tail (llist c)) (heap c);
  Some (with_list (LList hd tl) h c).

Definition addToFront (nd : loc) (c : CAWOLFU) : option CAWOLFU :=
  '(hd, tl, h) ← list_pushFront nd (head (llist c)) (tail (llist c)) (heap c);
  Some (with_list (LList hd tl) h c).

Definition moveToFront (nd : loc) (c : CAWOLFU) : option CAWOLFU :=
  let hd := head (llist c) in
  if decide (Some nd = hd) then Some c
  else
    n ← load (Some nd) (heap c);
    let tl := if decide (Some nd = tail (llist c)) then prev n else tail (llist c) in
    h ← (match prev n with Some _ => store (set_next (next n)) (prev n) (heap c)
         | None => Some (heap c) end);
    n ← load (Some nd) h;
    h ← (match next n with Some _ => store (set_prev (prev n)) (next n) h
         | None => Some h end);
    '(hd, tl, h) ← list_pushFront nd hd tl h;
    Some (with_list (LList hd tl) h c).

Definition resetCAWOLFUNode (nd : loc) (c : CAWOLFU) : option CAWOLFU :=
  assign (λ _, Node (CNode "" ANil 0) None None) (Some nd) c.

Definition poolPut (nd : loc) (c : CAWOLFU) : CAWOLFU := with_pool (nd :: nodePool c) c.

Definition poolGet (pick : nat) (c : CAWOLFU) : loc * CAWOLFU :=
  let '(l, (pool, brk', h)) :=
    pool_get pick (CNode "" ANil 0) (nodePool c) (brk c) (heap c) in
  (l, MkCAWOLFU (items c) (llist c) (len c) (cap c) pool h brk').

Definition Evict (c : CAWOLFU) : option (CAWOLFU * (string * bool)) :=
  if ((cap c =? 0) || (len c =? 0))%Z then Some (c, (""%string, false))
  else match tail (llist c) with
  | None => Some (c, (""%string, false))
  | Some nd =>
      c ← remove nd c;
      n ← load (Some nd) (heap c);
      let evictedKey := key (payload n) in
      c ← resetCAWOLFUNode nd (with_len (len c - 1) (with_items (delete evictedKey (items c)) c));
      Some (poolPut nd c, (evictedKey, true))
  end.

(** The eviction path of [Set]: [inl] when [Set] goes on, [inr] when it returns. *)
Definition evictForSet (k : string) (c : CAWOLFU) : option (CAWOLFU + CAWOLFU) :=
  if (len c =? cap c)%Z then
    match tail (llist c) with
    | None => Some (inr c)
    | Some evicted =>
        c ← remove evicted c;
        n ← load (Some evicted) (heap c);
        let evictedKey := key (payload n) in
        c ← resetCAWOLFUNode evicted
              (with_len (len c - 1) (with_items (delete evictedKey (items c)) c));
        let c := poolPut evicted c in
        if decide (evictedKey = k) then Some (inr c) else Some (inl c)
    end
  else Some (inl c).

Definition Set_ (pick : nat) (k : string) (v : any) (c : CAWOLFU) : option CAWOLFU :=
  if (cap c =? 0)%Z then Some c
  else match items c !! k with
  | Some nd =>
      n ← load (Some nd) (heap c);
      c ← assign (set_payload (CNode (key (payload n)) v (i64 (count (payload n) + 1))))
            (Some nd) c;
      moveToFront nd c
  | None =>
      r ← evictForSet k c;
      match r with
      | inr c => Some c
      | inl c =>
          let '(nd, c) := poolGet pick c in
          c ← assign (set_payload (CNode k v 1)) (Some nd) c;
          c ← addToFront nd (with_items (<[k := nd]> (items c)) c);
          Some (with_len (len c + 1) c)
      end
  end.

Definition Get (k : string) (c : CAWOLFU) : option (CAWOLFU * (any * bool)) :=
  match items c !! k with
  | None => Some (c, (ANil, false))
  | Some nd =>
      n ← load (Some nd) (heap c);
      c ← assign (set_payload (CNode (key (payload n)) (value (payload n))
            (i64 (count (payload n) + 1)))) (Some nd) c;
      c ← moveToFront nd c;
      n ← load (Some nd) (heap c);
      Some (c, (value (payload n), true))
  end.

Definition Delete (k : string) (c : CAWOLFU) : option CAWOLFU :=
  match items c !! k with
  | None => Some c
  | Some nd =>
      c ← remove nd c;
      c ← resetCAWOLFUNode nd (with_len (len c - 1) (with_items (delete k (items c)) c));
      Some (poolPut nd c)
  end.

(** ** Invariant *)

Definition links (c : CAWOLFU) (xs : list (loc * CAWOLFUNode)) : Prop :=
  dlist (head (llist c)) (tail (llist c)) (heap c) xs.

Record wf (c : CAWOLFU) (xs : list (loc * CAWOLFUNode)) : Prop := {
  wf_links : links c xs;
  wf_index : indexes (items c) (entries key xs);
  wf_pool : pool_ok (nodePool c) (brk c) (heap c) xs;
  wf_len : len c = Z.of_nat (length xs);
  wf_cap : (len c ≤ cap c)%Z }.

Definition abs (xs : list (loc * CAWOLFUNode)) : list (string * any) :=
  (λ x, (key x.2, value x.2)) <$> xs.

Definition refines (c : CAWOLFU) (a : list (string * any)) : Prop := ∃ xs, wf c xs ∧ a = abs xs.

#[local] Arguments load : simpl never.
#[local] Arguments store : simpl never.

Lemma caw_abs_app xs ys : abs (xs ++ ys) = abs xs ++ abs ys.
Proof. apply fmap_app. Qed.
Lemma caw_abs_cons l a xs : abs ((l, a) :: xs) = (key a, value a) :: abs xs.
Proof. done. Qed.
Lemma caw_abs_snoc xs x : abs (xs ++ [x]) = abs xs ++ [(key x.2, value x.2)].
Proof. apply caw_abs_app. Qed.
Lemma caw_abs_keys xs : (abs xs).*1 = (entries key xs).*1.
Proof. unfold abs, entries. by rewrite <- !list_fmap_compose. Qed.

Lemma caw_wf_lookup c xs k l :
  wf c xs → items c !! k = Some l → ∃ xa a xb, xs = xa ++ (l, a) :: xb ∧ key a = k.
Proof.
  intros H Hk. destruct (indexes_split _ _ _ _ (wf_index _ _ H) Hk) as (ka & kb & E).
  destruct (entries_split _ _ _ _ _ _ E) as (xa & a & xb & -> & ? & _). eauto.
Qed.

Lemma caw_wf_lookup_None c xs k : wf c xs → items c !! k = None → k ∉ (abs xs).*1.
Proof. intros H Hk. rewrite caw_abs_keys. by eapply indexes_None; [apply H|]. Qed.

Lemma caw_wf_abs_middle c xs l a ys :
  wf c (xs ++ (l, a) :: ys) →
  assoc (key a) (abs (xs ++ (l, a) :: ys)) = Some (value a) ∧
  drop_key (key a) (abs (xs ++ (l, a) :: ys)) = abs (xs ++ ys).
Proof.
  intros H. assert (NoDup (abs (xs ++ (l, a) :: ys)).*1) as Hn by (rewrite caw_abs_keys; apply H).
  rewrite !caw_abs_app, caw_abs_cons in *.
  split; [by apply assoc_middle|by apply drop_key_middle].
Qed.

(** [moveToFront] bypasses the cell and pushes it. *)
Lemma caw_moveToFront_ok c xs l a ys :
  links c (xs ++ (l, a) :: ys) →
  ∃ h, moveToFront l c = Some (with_list (LList (Some l) (lst_loc (xs ++ ys) (Some l))) h c) ∧
    dlist (Some l) (lst_loc (xs ++ ys) (Some l)) h ((l, a) :: xs ++ ys) ∧
    dom h = dom (heap c).
Proof.
  intros Hl. pose proof (dlist_is_head _ _ _ _ _ _ _ Hl) as Hh.
  pose proof (dlist_is_tail _ _ _ _ _ _ _ Hl) as Ht.
  pose proof (dlist_notin _ _ _ _ _ _ _ Hl) as Hnin.
  destruct (dlist_split _ _ _ _ _ _ _ Hl) as (Hx & Hy & Hn & Hc). unfold moveToFront.
  case_decide as E.
  { exists (heap c). apply Hh in E as ->. destruct c as [m [hd tl] n k p h b].
    unfold links in Hl. cbn in *. destruct Hl as [Eh Et ? ?]. cbn in Eh, Et. subst.
    split_and!; [done|by split|done]. }
  rewrite (load_Some _ _ _ Hc). cbn [mbind option_bind prev next].
  destruct Hl as [Eh Et Hnd Hs]. pose proof (dlseg_unlink _ _ _ _ _ Hnd Hs) as Hs'.
  apply dlseg_app in Hs as [Hsx [_ Hsy]]. cbn in Hsy.
  destruct (lst_loc_cases xs None) as [[-> _]|(zs & lx & ax & Exs & El)]; [tauto|].
  rewrite El. rewrite store_Some; cbn [mbind option_bind].
  2:{ eapply dlseg_is_Some; [exact Hsx|]. rewrite Exs, fmap_app. set_solver. }
  rewrite (load_Some l _ (Node a (Some lx) (hd_loc ys None))).
  2:{ rewrite upd_lookup_ne; [by rewrite Hc, El|]. intros [= ->]. rewrite Exs, fmap_app in Hx.
      set_solver. }
  cbn [mbind option_bind prev next].
  replace (match hd_loc ys None with
    | Some _ => store (set_prev (Some lx)) (hd_loc ys None) _
    | None => Some _ end) with (Some (unlinked xs ys (heap c))).
  2:{ unfold unlinked. rewrite El. destruct ys as [|[ly ay] ys]; cbn [hd_loc]; [done|].
      rewrite store_Some; [done|]. apply upd_is_Some.
      eapply dlseg_is_Some; [exact Hsy|by left]. }
  cbn [mbind option_bind].
  assert (dlist (head (llist c)) (if decide (Some l = tail (llist c)) then Some lx
    else tail (llist c)) (unlinked xs ys (heap c)) (xs ++ ys)) as Hd.
  { split; [|..|done|done].
    - rewrite Eh, !hd_loc_app. by destruct xs as [|[]].
    - case_decide as E'; [apply Ht in E' as ->; by rewrite app_nil_r|].
      rewrite Et, !lst_loc_app. assert (ys ≠ []) by tauto. by destruct ys as [|[]]. }
  assert (unlinked xs ys (heap c) !! l = Some (Node a (lst_loc xs None) (hd_loc ys None))) as Hc'
    by (by rewrite unlinked_lookup_ne).
  rewrite (list_pushFront_ok _ _ _ _ _ _ Hd Hnin Hc'). cbn [mbind option_bind payload].
  eexists. split_and!; [done|by eapply dlist_pushed|].
  rewrite dom_pushed, dom_unlinked; [done|]. rewrite dom_unlinked. apply elem_of_dom. eauto.
Qed.

Lemma caw_move_wf c xs l a ys :
  wf c (xs ++ (l, a) :: ys) →
  ∃ c', moveToFront l c = Some c' ∧ wf c' ((l, a) :: xs ++ ys) ∧ cap c' = cap c ∧
    load (Some l) (heap c') = Some (Node a None (hd_loc (xs ++ ys) None)).
Proof.
  intros [Hl Hi Hp Hlen Hcap]. destruct (caw_moveToFront_ok _ _ _ _ _ Hl) as (h & -> & Hd & Hdom).
  eexists. split_and!; [done| |done|apply (dl_seg _ _ _ _ Hd)].
  assert ((l, a) :: xs ++ ys ≡ₚ xs ++ (l, a) :: ys) as Hperm by (by rewrite Permutation_middle).
  split; [done|..].
  - eapply indexes_perm; [|exact Hi]. unfold entries. by rewrite Hperm.
  - eapply pool_ok_reorder; [done..|]. by rewrite Hperm.
  - cbn [len with_list]. by rewrite Hlen, Hperm.
  - done.
Qed.

Lemma set_payload_wf c xs l a ys v n :
  wf c (xs ++ (l, a) :: ys) →
  wf (with_list (llist c) (upd (set_payload (CNode (key a) v n)) (Some l) (heap c)) c)
    (xs ++ (l, CNode (key a) v n) :: ys).
Proof.
  intros [Hl Hi Hp Hlen Hc]. split.
  - by eapply dlist_set_payload.
  - by rewrite entries_app in *.
  - eapply pool_ok_reorder; [exact Hp|apply dom_upd|]. by rewrite !fmap_app.
  - cbn. by rewrite Hlen, !length_app.
  - done.
Qed.

(** The removal sequence shared by [Evict], [Set] and [Delete]. *)
Lemma caw_release_wf c xs l a ys :
  wf c (xs ++ (l, a) :: ys) →
  ∃ c1 c2, remove l c = Some c1 ∧ load (Some l) (heap c1) = Some (Node a None None) ∧
    resetCAWOLFUNode l (with_len (len c1 - 1) (with_items (delete (key a) (items c1)) c1)) = Some c2 ∧
    wf (poolPut l c2) (xs ++ ys) ∧ cap c2 = cap c.
Proof.
  intros [Hl Hi Hp Hlen Hcap]. unfold remove. rewrite (list_remove_ok _ _ _ _ _ _ _ Hl).
  cbn [mbind option_bind]. eexists _, _. split; [done|]. cbn [heap with_list].
  split; [apply lookup_insert_eq|]. unfold resetCAWOLFUNode, assign. cbn.
  rewrite (store_lookup _ _ _ _ (lookup_insert_eq _ _ _)). cbn [mbind option_bind].
  split_and!; [done| |done]. rewrite insert_insert_eq. split; cbn.
  - by eapply dlist_unlink.
  - rewrite entries_app in Hi |- *. rewrite entries_cons in Hi. by eapply indexes_delete.
  - eapply pool_ok_put; [done|by eapply dlist_notin| |by eapply dom_unlink].
    apply elem_of_dom. destruct (dlist_split _ _ _ _ _ _ _ Hl) as (_ & _ & _ & ->). eauto.
  - rewrite Hlen, !length_app. cbn. lia.
  - lia.
Qed.

Lemma caw_poolGet_wf pick c xs l c1 :
  wf c xs → poolGet pick c = (l, c1) →
  wf c1 xs ∧ l ∉ xs.*1 ∧ l ∉ nodePool c1 ∧ l ∈ dom (heap c1) ∧
  items c1 = items c ∧ cap c1 = cap c ∧ len c1 = len c.
Proof.
  unfold poolGet. intros [Hlk Hi Hp Hlen Hcap] E.
  destruct (pool_get _ _ _ _ _) as [l' [[pool brk'] h]] eqn:Eg. simplify_eq.
  destruct (pool_get_ok _ _ _ _ _ _ _ _ _ _ Hp (dl_seg _ _ _ _ Hlk) Eg)
    as (Hp' & Hx & Hl & Hd & Hext).
  split_and!; try done. split; try done. destruct Hlk as [? ? ? Hs]. split; try done.
  eapply dlseg_ext; [|exact Hs]. intros l' Hin. apply Hext, elem_of_dom.
  by eapply dlseg_is_Some.
Qed.

Lemma caw_insert_wf c xs k v l :
  wf c xs → l ∉ xs.*1 → l ∉ nodePool c → l ∈ dom (heap c) → items c !! k = None →
  (len c < cap c)%Z →
  ∃ c1 c', assign (set_payload (CNode k v 1)) (Some l) c = Some c1 ∧
    addToFront l (with_items (<[k := l]> (items c1)) c1) = Some c' ∧
    wf (with_len (len c' + 1) c') ((l, CNode k v 1) :: xs) ∧ cap c' = cap c.
Proof.
  intros H Hl Hlp [n Hd]%elem_of_dom Hk Hlt.
  pose proof (caw_wf_lookup_None _ _ _ H Hk) as Hkn. rewrite caw_abs_keys in Hkn.
  unfold assign. rewrite (store_lookup _ _ _ _ Hd). cbn [mbind option_bind].
  destruct H as [Hlk Hi Hp Hlen Hcap]. eexists _, _. split; [done|].
  unfold addToFront. cbn [llist with_items with_list heap].
  assert (dlist (head (llist c)) (tail (llist c))
    (<[l:=set_payload (CNode k v 1) n]> (heap c)) xs) as Hlk'.
  { destruct Hlk. split; try done. by apply dlseg_insert_notin. }
  rewrite (list_pushFront_ok _ _ _ _ _ _ Hlk' Hl (lookup_insert_eq _ _ _)).
  cbn [mbind option_bind]. split_and!; [done| |done]. split; cbn.
  - by eapply dlist_pushed.
  - by apply indexes_insert.
  - eapply pool_ok_link; [done..|]. rewrite dom_pushed, dom_insert_lookup_L; eauto.
    rewrite dom_insert_L. set_solver.
  - lia.
  - lia.
Qed.

Lemma tail_split c xs l :
  wf c xs → tail (llist c) = Some l → ∃ ys a, xs = ys ++ [(l, a)].
Proof.
  intros [Hl _ _ _ _] Ht. unfold links in Hl. rewrite Ht in Hl. by eapply dlist_tail_Some.
Qed.

Lemma caw_tail_None c xs : wf c xs → tail (llist c) = None → xs = [].
Proof.
  intros [Hl _ _ _ _] Ht. unfold links in Hl. rewrite Ht in Hl. by eapply dlist_tail_None.
Qed.

(** ** Refinement *)

Lemma caw_Get_refines k c a :
  refines c a →
  ∃ c', Get k c = Some (c', (LRU.Spec.get k a).2) ∧ refines c' (LRU.Spec.get k a).1 ∧
    cap c' = cap c.
Proof.
  intros (xs & H & ->). unfold Get, LRU.Spec.get. destruct (items c !! k) as [l|] eqn:E.
  - destruct (caw_wf_lookup _ _ _ _ H E) as (xa & a & xb & -> & <-).
    destruct (caw_wf_abs_middle _ _ _ _ _ H) as [-> ->].
    destruct (dlist_split _ _ _ _ _ _ _ (wf_links _ _ H)) as (_ & _ & _ & Hc).
    rewrite (load_Some _ _ _ Hc). unfold assign. cbn [mbind option_bind payload].
    rewrite store_Some by eauto. cbn [mbind option_bind].
    destruct (caw_move_wf _ _ _ _ _ (set_payload_wf _ _ _ _ _ (value a) (i64 (count a + 1)) H))
      as (c' & -> & H' & Hcap' & Hld). cbn [mbind option_bind]. rewrite Hld.
    eexists. split_and!; [done|eexists; split; [exact H'|done]|done].
  - rewrite (assoc_notin _ _ (caw_wf_lookup_None _ _ _ H E)). exists c. unfold refines. eauto.
Qed.

Lemma caw_Evict_refines c a :
  refines c a →
  ∃ c', Evict c = Some (c', (LRU.Spec.evict a).2) ∧ refines c' (LRU.Spec.evict a).1 ∧
    cap c' = cap c.
Proof.
  intros (xs & H & ->). unfold Evict, LRU.Spec.evict.
  pose proof (wf_len _ _ H) as Hlen. pose proof (wf_cap _ _ H) as Hcap.
  destruct ((cap c =? 0) || (len c =? 0))%Z eqn:E0.
  { assert (xs = []) as -> by (destruct xs; [done|cbn in *; lia]).
    exists c. split_and!; [done| |done]. by exists []. }
  destruct (tail (llist c)) as [l|] eqn:E.
  - destruct (tail_split _ _ _ H E) as (ys & a & ->).
    destruct (caw_release_wf _ _ _ _ _ H) as (c1 & c2 & -> & Hld & Hr & Hw & Hc).
    cbn [mbind option_bind]. rewrite Hld. cbn [mbind option_bind payload]. rewrite Hr.
    cbn [mbind option_bind]. rewrite caw_abs_snoc, last_snoc, List.removelast_last.
    eexists. split_and!; [done| |exact Hc].
    exists (ys ++ []). split; [exact Hw|by rewrite app_nil_r].
  - pose proof (caw_tail_None _ _ H E) as ->. exists c. split_and!; [done| |done]. by exists [].
Qed.

Lemma caw_Delete_refines k c a :
  refines c a →
  ∃ c', Delete k c = Some c' ∧ refines c' (LRU.Spec.delete k a) ∧ cap c' = cap c.
Proof.
  intros (xs & H & ->). unfold Delete, LRU.Spec.delete. destruct (items c !! k) as [l|] eqn:E.
  - destruct (caw_wf_lookup _ _ _ _ H E) as (xa & a & xb & -> & <-).
    destruct (caw_wf_abs_middle _ _ _ _ _ H) as [_ ->].
    destruct (caw_release_wf _ _ _ _ _ H) as (c1 & c2 & -> & _ & Hr & Hw & Hc).
    cbn [mbind option_bind]. rewrite Hr. cbn. eexists. split_and!; [done|by eexists|done].
  - rewrite (drop_key_notin _ _ (caw_wf_lookup_None _ _ _ H E)). exists c. unfold refines. eauto.
Qed.

(** The eviction path always lets [Set] go on: the list is not empty when the
    cache is full, and the evicted key differs from the one being added. *)
Lemma evictForSet_ok c xs k :
  wf c xs → (0 < cap c)%Z → items c !! k = None →
  ∃ c1 ys, evictForSet k c = Some (inl c1) ∧ wf c1 ys ∧ items c1 !! k = None ∧
    abs ys = (if (Z.of_nat (length (abs xs)) =? cap c)%Z
              then List.removelast (abs xs) else abs xs) ∧
    (len c1 < cap c)%Z ∧ cap c1 = cap c.
Proof.
  intros H Hpos Hk. pose proof (wf_len _ _ H) as Hlen. pose proof (wf_cap _ _ H) as Hcap.
  pose proof (caw_wf_lookup_None _ _ _ H Hk) as Hkn.
  unfold evictForSet. unfold abs at 2. rewrite length_fmap, <- Hlen.
  destruct (Z.eqb_spec (len c) (cap c)) as [Efull|Efull].
  2:{ exists c, xs. split_and!; try done. lia. }
  destruct (tail (llist c)) as [l|] eqn:E.
  2:{ pose proof (caw_tail_None _ _ H E) as ->. cbn in *. lia. }
  destruct (tail_split _ _ _ H E) as (ys & a & ->).
  destruct (caw_release_wf _ _ _ _ _ H) as (c1 & c2 & -> & Hld & Hr & Hw & Hc).
  cbn [mbind option_bind]. rewrite Hld. cbn [mbind option_bind payload]. rewrite Hr.
  cbn [mbind option_bind]. rewrite app_nil_r in Hw.
  rewrite caw_abs_snoc, fmap_app in Hkn. cbn in Hkn. rewrite decide_False by set_solver.
  exists (poolPut l c2), ys. split_and!; [done|done|..|done].
  - apply not_elem_of_dom. intros [l' Hl']%elem_of_dom.
    destruct (caw_wf_lookup _ _ _ _ Hw Hl') as (xa & b & xb & -> & <-).
    apply Hkn. rewrite caw_abs_app, caw_abs_cons, fmap_app. set_solver.
  - by rewrite caw_abs_snoc, List.removelast_last.
  - rewrite (wf_len _ _ Hw). rewrite length_app in Hlen. cbn in Hlen. lia.
Qed.

Lemma caw_Set_refines pick k v c a :
  refines c a →
  ∃ c', Set_ pick k v c = Some c' ∧ refines c' (LRU.Spec.set (cap c) k v a) ∧ cap c' = cap c.
Proof.
  intros (xs & H & ->). unfold Set_, LRU.Spec.set.
  destruct (Z.eqb_spec (cap c) 0) as [E0|E0]; [exists c; unfold refines; eauto|].
  pose proof (wf_len _ _ H) as Hlen. pose proof (wf_cap _ _ H) as Hcap.
  destruct (items c !! k) as [l|] eqn:E.
  - destruct (caw_wf_lookup _ _ _ _ H E) as (xa & a & xb & -> & <-).
    destruct (caw_wf_abs_middle _ _ _ _ _ H) as [-> ->].
    destruct (dlist_split _ _ _ _ _ _ _ (wf_links _ _ H)) as (_ & _ & _ & Hc).
    rewrite (load_Some _ _ _ Hc). unfold assign. cbn [mbind option_bind payload].
    rewrite store_Some by eauto. cbn [mbind option_bind].
    destruct (caw_move_wf _ _ _ _ _ (set_payload_wf _ _ _ _ _ v (i64 (count a + 1)) H))
      as (c' & -> & H' & Hcap' & _).
    exists c'. split_and!; [done| |done]. eexists. split; [exact H'|done].
  - rewrite (assoc_notin _ _ (caw_wf_lookup_None _ _ _ H E)).
    destruct (evictForSet_ok _ _ k H) as (c1 & ys & -> & H1 & Hk & Habs & Hlt & Hc1); [lia|done|].
    cbn [mbind option_bind]. destruct (poolGet pick c1) as [l c2] eqn:Ep.
    destruct (caw_poolGet_wf _ _ _ _ _ H1 Ep) as (H2 & Hl & Hlp & Hd & Ei & Ec & El).
    destruct (caw_insert_wf c2 ys k v l) as (c3 & c4 & -> & Hadd & H4 & Hc4); try done.
    { by rewrite Ei. } { lia. }
    cbn [mbind option_bind]. rewrite Hadd. cbn [mbind option_bind].
    eexists. split_and!; [done| |cbn; congruence].
    eexists. split; [exact H4|]. by rewrite caw_abs_cons, Habs.
Qed.

(** ** Runs *)

#[global] Instance CAWOLFU_IAlgorithm : IAlgorithm CAWOLFU := {
  alg_Evict := Evict; alg_Set := Set_; alg_Get := Get; alg_Delete := Delete }.

Lemma caw_step_refines o c a :
  refines c a →
  ∃ c', step o c = Some (c', (LRU.spec_step (cap c) o a).2) ∧
    refines c' (LRU.spec_step (cap c) o a).1 ∧ cap c' = cap c.
Proof.
  intros H. destruct o as [k|pick k v| |k]; cbn.
  - destruct (caw_Get_refines k _ _ H) as (c' & -> & ? & ?). eauto.
  - destruct (caw_Set_refines pick k v _ _ H) as (c' & -> & ? & ?). eauto.
  - destruct (caw_Evict_refines _ _ H) as (c' & -> & ? & ?). eauto.
  - destruct (caw_Delete_refines k _ _ H) as (c' & -> & ? & ?). eauto.
Qed.

Lemma caw_run_refines os c a :
  refines c a →
  ∃ c', run os c = Some (c', (LRU.spec_run (cap c) os a).2) ∧
    refines c' (LRU.spec_run (cap c) os a).1 ∧ cap c' = cap c.
Proof.
  revert c a. induction os as [|o os IH]; intros c a H; cbn; [eauto|].
  destruct (caw_step_refines o _ _ H) as (c1 & -> & H1 & Ec). cbn [mbind option_bind fst snd].
  destruct (IH _ _ H1) as (c2 & -> & H2 & Ec2). rewrite Ec in *. eauto.
Qed.

Lemma caw_New_refines capacity c : NewCAWOLFU capacity = Ok c → refines c [] ∧ cap c = capacity.
Proof.
  unfold NewCAWOLFU. destruct (Z.ltb_spec capacity 0); intros; simplify_eq.
  split; [|done]. exists []. split; [|done].
  split; [apply dlist_nil|apply indexes_empty|apply pool_ok_nil|done|cbn; lia].
Qed.

(** C32: CAWOLFU never panics, and on every sequence of operations it answers
    exactly as the LRU cache of the same capacity does (both started empty): the
    access counts it maintains never influence an eviction. *)
Theorem cawolfu_equals_lru (capacity : Z) (os : list op) :
  (0 ≤ capacity)%Z →
  ∃ c0 c s0 s outs, NewCAWOLFU capacity = Ok c0 ∧ run os c0 = Some (c, outs) ∧
    LRU.NewLRUAlgorithm capacity = Ok s0 ∧ run os s0 = Some (s, outs).
Proof.
  intros Hc.
  assert (∃ c0, NewCAWOLFU capacity = Ok c0) as [c0 E1].
  { unfold NewCAWOLFU. destruct (Z.ltb_spec capacity 0); [lia|eauto]. }
  assert (∃ s0, LRU.NewLRUAlgorithm capacity = Ok s0) as [s0 E2].
  { unfold LRU.NewLRUAlgorithm. destruct (Z.ltb_spec capacity 0); [lia|eauto]. }
  destruct (caw_New_refines _ _ E1) as [H1 Ec1]. destruct (LRU.lru_New_refines _ _ E2) as [H2 Ec2].
  destruct (caw_run_refines os _ _ H1) as (c & Hr1 & _).
  destruct (LRU.lru_run_refines os _ _ H2) as (s & Hr2 & _).
  rewrite Ec1 in Hr1. rewrite Ec2 in Hr2. by exists c0, c, s0, s, (LRU.spec_run capacity os []).2.
Qed.

(** A frequently used key is evicted before a fresh one. *)
Lemma cawolfu_equals_lru_witness :
  (∃ c0 c s0 s outs, NewCAWOLFU 2 = Ok c0 ∧
    run [OSet 0 "hot" ANil; OGet "hot"; OGet "hot"; OSet 0 "cold" ANil;
         OEvict] c0 = Some (c, outs) ∧
    LRU.NewLRUAlgorithm 2 = Ok s0 ∧
    run [OSet 0 "hot" ANil; OGet "hot"; OGet "hot"; OSet 0 "cold" ANil;
         OEvict] s0 = Some (s, outs)) ∧
  (r ← run [OSet 0 "hot" ANil; OGet "hot"; OGet "hot"; OSet 0 "cold" ANil;
         OEvict] (MkCAWOLFU ∅ (LList None None) 0 2 [] ∅ 1%positive); last r.2)
    = Some (REvict ("hot"%string, true)).
Proof. split; [apply (cawolfu_equals_lru 2); lia|vm_compute; reflexivity]. Defined.

End CAWOLFU.
