(* ===== verification/ARC.v ===== *)
(** * The ARC eviction algorithm (pkg/eviction/arc.go)

    The pointer code of the adaptive replacement cache: two resident lists T1 and
    T2 over one heap of [arcNode] cells, two ghost lists B1 and B2 over a heap of
    [arcGhostNode] cells, four key indexes, the target size [p] and the counter
    [length].  [Spec] is the machine on plain lists it implements.  Then what the
    machine guarantees, and what it does not: its residents are unbounded.

    Cell counters are lengths of lists in memory, so they are unbounded integers
    here; [2*a.capacity] wraps. *)

From stdpp Require Import base gmap strings list.
From Stdlib Require Import ZArith Lia.
From S2P Require Import Prelude DLL Algorithm.

Module ARC.

(** ** The lists

    [arcList] and [arcGhostList] have the same methods over different cells: [P]
    is the cell's payload. *)

Record arcList := AList { head : option loc; tail : option loc; len : Z }.

Section lists.
Context {P : Type}.

Definition pushFront (nd : loc) (l : arcList) (h : gmap loc (node P))
    : option (arcList * gmap loc (node P)) :=
  '(hd, tl, h) ← list_pushFront nd (head l) (tail l) h;
  Some (AList hd tl (len l + 1), h).

Definition remove (nd : loc) (l : arcList) (h : gmap loc (node P))
    : option (arcList * gmap loc (node P)) :=
  '(hd, tl, h) ← list_remove nd (head l) (tail l) h;
  Some (AList hd tl (len l - 1), h).

Definition removeTail (l : arcList) (h : gmap loc (node P))
    : option (arcList * gmap loc (node P) * option loc) :=
  match tail l with
  | None => Some (l, h, None)
  | Some t => '(l, h) ← remove t l h; Some (l, h, Some t)
  end.

End lists.

(** ** The state *)

Record arcNode := ANode { key : string; value : any }.

(** A ghost cell only has a key. *)
Abbreviation arcGhostNode := string.

Record ARC := MkARC {
  capacity : Z;
  p : Z;
  t1 : arcList; t2 : arcList;
  b1 : arcList; b2 : arcList;
  t1Idx : gmap string loc; t2Idx : gmap string loc;
  b1Idx : gmap string loc; b2Idx : gmap string loc;
  len_ : Z;                              (* the field [length] *)
  heap : gmap loc (node arcNode); brk : loc;
  gheap : gmap loc (node arcGhostNode); gbrk : loc }.

Definition with_p (n : Z) (a : ARC) : ARC :=
  MkARC (capacity a) n (t1 a) (t2 a) (b1 a) (b2 a) (t1Idx a) (t2Idx a) (b1Idx a) (b2Idx a)
    (len_ a) (heap a) (brk a) (gheap a) (gbrk a).
Definition with_length (n : Z) (a : ARC) : ARC :=
  MkARC (capacity a) (p a) (t1 a) (t2 a) (b1 a) (b2 a) (t1Idx a) (t2Idx a) (b1Idx a) (b2Idx a)
    n (heap a) (brk a) (gheap a) (gbrk a).
Definition with_t1 (l : arcList) (h : gmap loc (node arcNode)) (m : gmap string loc) (a : ARC) : ARC :=
  MkARC (capacity a) (p a) l (t2 a) (b1 a) (b2 a) m (t2Idx a) (b1Idx a) (b2Idx a)
    (len_ a) h (brk a) (gheap a) (gbrk a).
Definition with_t2 (l : arcList) (h : gmap loc (node arcNode)) (m : gmap string loc) (a : ARC) : ARC :=
  MkARC (capacity a) (p a) (t1 a) l (b1 a) (b2 a) (t1Idx a) m (b1Idx a) (b2Idx a)
    (len_ a) h (brk a) (gheap a) (gbrk a).
Definition with_b1 (l : arcList) (h : gmap loc (node arcGhostNode)) (m : gmap string loc) (a : ARC) : ARC :=
  MkARC (capacity a) (p a) (t1 a) (t2 a) l (b2 a) (t1Idx a) (t2Idx a) m (b2Idx a)
    (len_ a) (heap a) (brk a) h (gbrk a).
Definition with_b2 (l : arcList) (h : gmap loc (node arcGhostNode)) (m : gmap string loc) (a : ARC) : ARC :=
  MkARC (capacity a) (p a) (t1 a) (t2 a) (b1 a) l (t1Idx a) (t2Idx a) (b1Idx a) m
    (len_ a) (heap a) (brk a) h (gbrk a).

(** [&arcNode{key, value}] and [&arcGhostNode{key}]. *)
Definition newNode (k : string) (v : any) (a : ARC) : loc * ARC :=
  (brk a, MkARC (capacity a) (p a) (t1 a) (t2 a) (b1 a) (b2 a) (t1Idx a) (t2Idx a) (b1Idx a) (b2Idx a)
    (len_ a) (<[brk a := Node (ANode k v) None None]> (heap a)) (Pos.succ (brk a)) (gheap a) (gbrk a)).
Definition newGhost (k : string) (a : ARC) : loc * ARC :=
  (gbrk a, MkARC (capacity a) (p a) (t1 a) (t2 a) (b1 a) (b2 a) (t1Idx a) (t2Idx a) (b1Idx a) (b2Idx a)
    (len_ a) (heap a) (brk a) (<[gbrk a := Node k None None]> (gheap a)) (Pos.succ (gbrk a))).

Definition NewARCAlgorithm (capacity : Z) : result ARC :=
  if (capacity <? 0)%Z then Err ErrInvalidCapacity
  else Ok (MkARC capacity 0 (AList None None 0) (AList None None 0) (AList None None 0)
    (AList None None 0) ∅ ∅ ∅ ∅ 0 ∅ 1 ∅ 1).

(** ** The operations *)

(** A node of T1 goes to the front of T2. *)
Definition promote (nd : loc) (k : string) (a : ARC) : option ARC :=
  '(l, h) ← remove nd (t1 a) (heap a);
  let a := with_t1 l h (delete k (t1Idx a)) a in
  '(l, h) ← pushFront nd (t2 a) (heap a);
  Some (with_t2 l h (<[k := nd]> (t2Idx a)) a).

(** A node of T2 goes to its front. *)
Definition refresh (nd : loc) (a : ARC) : option ARC :=
  '(l, h) ← remove nd (t2 a) (heap a);
  '(l, h) ← pushFront nd l h;
  Some (with_t2 l h (t2Idx a) a).

Definition Get (k : string) (a : ARC) : option (ARC * (any * bool)) :=
  match t1Idx a !! k with
  | Some nd =>
      a ← promote nd k a;
      n ← load (Some nd) (heap a); Some (a, (value (payload n), true))
  | None =>
      match t2Idx a !! k with
      | Some nd =>
          a ← refresh nd a;
          n ← load (Some nd) (heap a); Some (a, (value (payload n), true))
      | None => Some (a, (ANil, false))
      end
  end.

(** [node.value = value] *)
Definition setValue (nd : loc) (v : any) (a : ARC) : option ARC :=
  n ← load (Some nd) (heap a);
  h ← store (set_payload (ANode (key (payload n)) v)) (Some nd) (heap a);
  Some (with_t1 (t1 a) h (t1Idx a) a).

Definition updateIfResident (k : string) (v : any) (a : ARC) : option (ARC * bool) :=
  match t1Idx a !! k with
  | Some nd => a ← setValue nd v a; a ← promote nd k a; Some (a, true)
  | None =>
      match t2Idx a !! k with
      | Some nd => a ← setValue nd v a; a ← refresh nd a; Some (a, true)
      | None => Some (a, false)
      end
  end.

(** The tail of T1 (of T2) becomes the front of B1 (of B2); the key moved, if any. *)
Definition demote1 (a : ARC) : option (ARC * option string) :=
  '(l, h, t) ← removeTail (t1 a) (heap a);
  match t with
  | None => Some (with_t1 l h (t1Idx a) a, None)
  | Some t =>
      n ← load (Some t) h;
      let k := key (payload n) in
      let a := with_t1 l h (delete k (t1Idx a)) a in
      let '(g, a) := newGhost k a in
      '(l, h) ← pushFront g (b1 a) (gheap a);
      hd ← head l;
      let a := with_b1 l h (<[k := hd]> (b1Idx a)) a in
      Some (with_length (len_ a - 1) a, Some k)
  end.

Definition demote2 (a : ARC) : option (ARC * option string) :=
  '(l, h, t) ← removeTail (t2 a) (heap a);
  match t with
  | None => Some (with_t2 l h (t2Idx a) a, None)
  | Some t =>
      n ← load (Some t) h;
      let k := key (payload n) in
      let a := with_t2 l h (delete k (t2Idx a)) a in
      let '(g, a) := newGhost k a in
      '(l, h) ← pushFront g (b2 a) (gheap a);
      hd ← head l;
      let a := with_b2 l h (<[k := hd]> (b2Idx a)) a in
      Some (with_length (len_ a - 1) a, Some k)
  end.

Definition replace (x : string) (a : ARC) : option (ARC * string) :=
  let fromT1 :=
    ((0 <? len (t1 a)) &&
     ((bool_decide (x ≠ ""%string) && bool_decide (is_Some (b2Idx a !! x)) && (len (t1 a) =? p a))
      || (p a <? len (t1 a))))%Z in
  '(a, r) ← (if fromT1 then demote1 a else demote2 a);
  Some (a, default ""%string r).

Definition arcIntMax (a b : Z) : Z := if (b <? a)%Z then a else b.

(** The ghost's key becomes resident in T2. *)
Definition readmit (k : string) (v : any) (a : ARC) : option ARC :=
  let '(nd, a) := newNode k v a in
  '(l, h) ← pushFront nd (t2 a) (heap a);
  let a := with_t2 l h (<[k := nd]> (t2Idx a)) a in
  Some (with_length (len_ a + 1) a).

Definition handleGhostHit (k : string) (v : any) (a : ARC) : option (ARC * bool) :=
  match b1Idx a !! k with
  | Some ghost =>
      let increment := Z.max (Z.quot (len (b2 a)) (arcIntMax 1 (len (b1 a)))) 1 in
      let p' := (p a + increment)%Z in
      let a := with_p (if (capacity a <? p')%Z then capacity a else p') a in
      '(a, _) ← replace k a;
      '(l, h) ← remove ghost (b1 a) (gheap a);
      a ← readmit k v (with_b1 l h (delete k (b1Idx a)) a);
      Some (a, true)
  | None =>
      match b2Idx a !! k with
      | Some ghost =>
          let decrement := Z.max (Z.quot (len (b1 a)) (arcIntMax 1 (len (b2 a)))) 1 in
          let p' := (p a - decrement)%Z in
          let a := with_p (if (p' <? 0)%Z then 0%Z else p') a in
          '(a, _) ← replace k a;
          '(l, h) ← remove ghost (b2 a) (gheap a);
          a ← readmit k v (with_b2 l h (delete k (b2Idx a)) a);
          Some (a, true)
      | None => Some (a, false)
      end
  end.

(** A ghost list loses its tail. *)
Definition trimForHistoryLimit (a : ARC) : option ARC :=
  if (len (t1 a) <? capacity a)%Z then
    '(l, h, t) ← removeTail (b1 a) (gheap a);
    match t with
    | None => Some (with_b1 l h (b1Idx a) a)
    | Some t => n ← load (Some t) h; Some (with_b1 l h (delete (payload n) (b1Idx a)) a)
    end
  else '(a, _) ← demote1 a; Some a.

Definition trimForTotalLimit (a : ARC) : option ARC :=
  let total := (len (t1 a) + len (t2 a) + len (b1 a) + len (b2 a))%Z in
  a ← (if (i64 (2 * capacity a) <=? total)%Z then
         '(l, h, t) ← removeTail (b2 a) (gheap a);
         match t with
         | None => Some (with_b2 l h (b2Idx a) a)
         | Some t => n ← load (Some t) h; Some (with_b2 l h (delete (payload n) (b2Idx a)) a)
         end
       else Some a);
  '(a, _) ← replace "" a; Some a.

Definition ensureCapacityForNew (a : ARC) : option ARC :=
  if (capacity a <=? len (t1 a) + len (b1 a))%Z then trimForHistoryLimit a else trimForTotalLimit a.

Definition insertNew (k : string) (v : any) (a : ARC) : option ARC :=
  a ← (if (capacity a <=? len_ a)%Z then ensureCapacityForNew a else Some a);
  let '(nd, a) := newNode k v a in
  '(l, h) ← pushFront nd (t1 a) (heap a);
  let a := with_t1 l h (<[k := nd]> (t1Idx a)) a in
  Some (with_length (len_ a + 1) a).

Definition Set_ (k : string) (v : any) (a : ARC) : option ARC :=
  if (capacity a =? 0)%Z then Some a
  else
    '(a, done) ← updateIfResident k v a;
    if done : bool then Some a
    else
      '(a, done) ← handleGhostHit k v a;
      if done : bool then Some a else insertNew k v a.

Definition Delete (k : string) (a : ARC) : option ARC :=
  match t1Idx a !! k with
  | Some nd =>
      '(l, h) ← remove nd (t1 a) (heap a);
      let a := with_t1 l h (delete k (t1Idx a)) a in Some (with_length (len_ a - 1) a)
  | None =>
  match t2Idx a !! k with
  | Some nd =>
      '(l, h) ← remove nd (t2 a) (heap a);
      let a := with_t2 l h (delete k (t2Idx a)) a in Some (with_length (len_ a - 1) a)
  | None =>
  match b1Idx a !! k with
  | Some g => '(l, h) ← remove g (b1 a) (gheap a); Some (with_b1 l h (delete k (b1Idx a)) a)
  | None =>
  match b2Idx a !! k with
  | Some g => '(l, h) ← remove g (b2 a) (gheap a); Some (with_b2 l h (delete k (b2Idx a)) a)
  | None => Some a
  end end end end.

Definition Evict (a : ARC) : option (ARC * (string * bool)) :=
  if ((capacity a =? 0) || (len_ a =? 0))%Z then Some (a, (""%string, false))
  else
    '(a, k) ← replace "" a;
    if decide (k = ""%string) then Some (a, (""%string, false)) else Some (a, (k, true)).

#[global] Instance ARC_IAlgorithm : IAlgorithm ARC := {
  alg_Evict := Evict;
  alg_Set := λ _, Set_;
  alg_Get := Get;
  alg_Delete := Delete }.

(** ** The abstract machine *)

Module Spec.

(** The four lists, most recent key first. *)
Record state := St {
  p : Z;
  T1 : list (string * any); T2 : list (string * any);
  B1 : list (string * unit); B2 : list (string * unit) }.

Definition init : state := St 0 [] [] [] [].

Definition pop_tail {A} (l : list A) : option (list A * A) :=
  match reverse l with [] => None | x :: r => Some (reverse r, x) end.

Definition size {A} (l : list A) : Z := Z.of_nat (length l).

Definition demote1 (s : state) : state * option string :=
  match pop_tail (T1 s) with
  | None => (s, None)
  | Some (T, (k, _)) => (St (p s) T (T2 s) ((k, ()) :: B1 s) (B2 s), Some k)
  end.
Definition demote2 (s : state) : state * option string :=
  match pop_tail (T2 s) with
  | None => (s, None)
  | Some (T, (k, _)) => (St (p s) (T1 s) T (B1 s) ((k, ()) :: B2 s), Some k)
  end.

Definition replace (x : string) (s : state) : state * option string :=
  if ((0 <? size (T1 s)) &&
      ((bool_decide (x ≠ ""%string) && bool_decide (is_Some (assoc x (B2 s))) && (size (T1 s) =? p s))
       || (p s <? size (T1 s))))%Z
  then demote1 s else demote2 s.

Definition get (k : string) (s : state) : state * (any * bool) :=
  match assoc k (T1 s) with
  | Some v => (St (p s) (drop_key k (T1 s)) ((k, v) :: T2 s) (B1 s) (B2 s), (v, true))
  | None =>
      match assoc k (T2 s) with
      | Some v => (St (p s) (T1 s) ((k, v) :: drop_key k (T2 s)) (B1 s) (B2 s), (v, true))
      | None => (s, (ANil, false))
      end
  end.

Definition update (k : string) (v : any) (s : state) : option state :=
  match assoc k (T1 s) with
  | Some _ => Some (St (p s) (drop_key k (T1 s)) ((k, v) :: T2 s) (B1 s) (B2 s))
  | None =>
      match assoc k (T2 s) with
      | Some _ => Some (St (p s) (T1 s) ((k, v) :: drop_key k (T2 s)) (B1 s) (B2 s))
      | None => None
      end
  end.

Definition delta {A B} (l : list A) (l' : list B) : Z :=
  Z.max (Z.quot (size l) (Z.max 1 (size l'))) 1.

Definition ghost_hit (cap : Z) (k : string) (v : any) (s : state) : option state :=
  match assoc k (B1 s) with
  | Some _ =>
      let s := (replace k (St (Z.min cap (p s + delta (B2 s) (B1 s))) (T1 s) (T2 s) (B1 s) (B2 s))).1 in
      Some (St (p s) (T1 s) ((k, v) :: T2 s) (drop_key k (B1 s)) (B2 s))
  | None =>
      match assoc k (B2 s) with
      | Some _ =>
          let s := (replace k (St (Z.max 0 (p s - delta (B1 s) (B2 s))) (T1 s) (T2 s) (B1 s) (B2 s))).1 in
          Some (St (p s) (T1 s) ((k, v) :: T2 s) (B1 s) (drop_key k (B2 s)))
      | None => None
      end
  end.

Definition drop_tail {A} (l : list A) : list A :=
  match pop_tail l with None => l | Some (l', _) => l' end.

Definition make_room (cap : Z) (s : state) : state :=
  if (cap <=? size (T1 s) + size (B1 s))%Z then
    if (size (T1 s) <? cap)%Z then St (p s) (T1 s) (T2 s) (drop_tail (B1 s)) (B2 s)
    else (demote1 s).1
  else
    let total := (size (T1 s) + size (T2 s) + size (B1 s) + size (B2 s))%Z in
    let s := if (i64 (2 * cap) <=? total)%Z
             then St (p s) (T1 s) (T2 s) (B1 s) (drop_tail (B2 s)) else s in
    (replace "" s).1.

Definition insert (cap : Z) (k : string) (v : any) (s : state) : state :=
  let s := if (cap <=? size (T1 s) + size (T2 s))%Z then make_room cap s else s in
  St (p s) ((k, v) :: T1 s) (T2 s) (B1 s) (B2 s).

Definition set (cap : Z) (k : string) (v : any) (s : state) : state :=
  if (cap =? 0)%Z then s
  else match update k v s with
  | Some s => s
  | None => match ghost_hit cap k v s with Some s => s | None => insert cap k v s end
  end.

Definition delete (k : string) (s : state) : state :=
  match assoc k (T1 s) with
  | Some _ => St (p s) (drop_key k (T1 s)) (T2 s) (B1 s) (B2 s)
  | None =>
  match assoc k (T2 s) with
  | Some _ => St (p s) (T1 s) (drop_key k (T2 s)) (B1 s) (B2 s)
  | None =>
  match assoc k (B1 s) with
  | Some _ => St (p s) (T1 s) (T2 s) (drop_key k (B1 s)) (B2 s)
  | None =>
  match assoc k (B2 s) with
  | Some _ => St (p s) (T1 s) (T2 s) (B1 s) (drop_key k (B2 s))
  | None => s
  end end end end.

Definition evict (cap : Z) (s : state) : state * (string * bool) :=
  if ((cap =? 0) || (size (T1 s) + size (T2 s) =? 0))%Z then (s, (""%string, false))
  else
    let '(s, r) := replace "" s in
    match r with
    | Some k => if decide (k = ""%string) then (s, (""%string, false)) else (s, (k, true))
    | None => (s, (""%string, false))
    end.

Definition step (cap : Z) (o : op) (s : state) : state * output :=
  match o with
  | OGet k => let '(s, r) := get k s in (s, RGet r)
  | OSet _ k v => (set cap k v s, RUnit)
  | OEvict => let '(s, r) := evict cap s in (s, REvict r)
  | ODelete k => (delete k s, RUnit)
  end.

Fixpoint run (cap : Z) (os : list op) (s : state) : state * list output :=
  match os with
  | [] => (s, [])
  | o :: os => let '(s, r) := step cap o s in let '(s, rs) := run cap os s in (s, r :: rs)
  end.

(** The keys of the four lists. *)
Definition keys (s : state) : list string := (T1 s).*1 ++ (T2 s).*1 ++ (B1 s).*1 ++ (B2 s).*1.

(** No key is in two places, and the target stays in its range. *)
Definition ok (cap : Z) (s : state) : Prop := NoDup (keys s) ∧ (0 ≤ p s ≤ cap)%Z.

Lemma pop_tail_snoc {A} (l : list A) x : pop_tail (l ++ [x]) = Some (l, x).
Proof. unfold pop_tail. rewrite reverse_snoc. by rewrite reverse_involutive. Qed.

Lemma pop_tail_cases {A} (l : list A) :
  l = [] ∧ pop_tail l = None ∨ ∃ l' x, l = l' ++ [x] ∧ pop_tail l = Some (l', x).
Proof.
  destruct l as [|x l' _] using rev_ind; [by left|]. right. exists l', x. by rewrite pop_tail_snoc.
Qed.

Lemma drop_tail_sub {B} (l : list (string * B)) : (drop_tail l).*1 ⊆+ l.*1.
Proof.
  unfold drop_tail. destruct (pop_tail_cases l) as [[-> ->]|(l' & x & -> & ->)]; [done|].
  rewrite fmap_app. by apply submseteq_inserts_r.
Qed.

(** The keys after each kind of change are a rearrangement of those before, less
    some. *)
Lemma keys_demote1 s : keys (demote1 s).1 ≡ₚ keys s.
Proof.
  unfold demote1. destruct (pop_tail_cases (T1 s)) as [[_ ->]|(l' & [k v] & E & ->)]; [done|].
  unfold keys. cbn. rewrite E, fmap_app. cbn. solve_Permutation.
Qed.

Lemma keys_demote2 s : keys (demote2 s).1 ≡ₚ keys s.
Proof.
  unfold demote2. destruct (pop_tail_cases (T2 s)) as [[_ ->]|(l' & [k v] & E & ->)]; [done|].
  unfold keys. cbn. rewrite E, fmap_app. cbn. solve_Permutation.
Qed.

Lemma keys_replace x s : keys (replace x s).1 ≡ₚ keys s.
Proof. unfold replace. destruct (_ && _); [apply keys_demote1|apply keys_demote2]. Qed.

Lemma p_replace x s : p (replace x s).1 = p s.
Proof.
  unfold replace. destruct (_ && _); unfold demote1, demote2;
    by destruct (pop_tail _) as [[? []]|].
Qed.

(** A listed key taken out of its list. *)
Lemma take_perm {B} k (v : B) l :
  NoDup l.*1 → assoc k l = Some v → l ≡ₚ (k, v) :: drop_key k l.
Proof.
  intros Hn (xa & xb & ->)%assoc_Some_in%list_elem_of_split. rewrite drop_key_middle by done.
  by rewrite Permutation_middle.
Qed.

Lemma take_keys {B} k (v : B) l : NoDup l.*1 → assoc k l = Some v → l.*1 ≡ₚ k :: (drop_key k l).*1.
Proof. intros Hn Hk. rewrite (take_perm _ _ _ Hn Hk) at 1. done. Qed.

Lemma ok_parts cap s : ok cap s → NoDup (T1 s).*1 ∧ NoDup (T2 s).*1 ∧ NoDup (B1 s).*1 ∧ NoDup (B2 s).*1.
Proof.
  intros [H _]. unfold keys in H.
  apply NoDup_app in H as (? & _ & (? & _ & (? & _ & ?)%NoDup_app)%NoDup_app). done.
Qed.

Lemma assoc_None_notin {B} k (l : list (string * B)) : assoc k l = None → k ∉ l.*1.
Proof.
  induction l as [|[k' b] l IH]; cbn; [set_solver|]. case_decide; [done|].
  intros ?%IH. set_solver.
Qed.

(** The keys after an update of a resident, a ghost hit and a deletion. *)
Lemma ok_perm cap s s' : ok cap s → keys s' ≡ₚ keys s → p s' = p s → ok cap s'.
Proof. intros [Hn Hp] Hk E. split; [by rewrite Hk|by rewrite E]. Qed.

Lemma ok_less cap s s' k : ok cap s → k :: keys s' ≡ₚ keys s → p s' = p s → ok cap s'.
Proof. intros [Hn Hp] Hk E. rewrite <- Hk in Hn. split; [by apply NoDup_cons in Hn as [_ Hn]|by rewrite E]. Qed.

Lemma ok_update cap k v s s' : ok cap s → update k v s = Some s' → ok cap s'.
Proof.
  intros Hok. destruct (ok_parts _ _ Hok) as (H1 & H2 & _). unfold update.
  destruct (assoc k (T1 s)) as [w|] eqn:E1; [|destruct (assoc k (T2 s)) as [w|] eqn:E2; [|done]];
    intros [= <-]; (eapply ok_perm; [exact Hok| |done]); unfold keys; cbn.
  - rewrite (take_keys _ _ _ H1 E1). solve_Permutation.
  - rewrite (take_keys _ _ _ H2 E2). solve_Permutation.
Qed.

Lemma delta_pos {A B} (l : list A) (l' : list B) : (0 ≤ delta l l')%Z.
Proof. unfold delta. lia. Qed.

Lemma ok_retarget cap s n : ok cap s → (0 ≤ n ≤ cap)%Z → ok cap (St n (T1 s) (T2 s) (B1 s) (B2 s)).
Proof. intros [H _] Hn. by split. Qed.

Lemma ok_replace cap x s : ok cap s → ok cap (replace x s).1.
Proof. intros Hok. eapply ok_perm; [done|apply keys_replace|apply p_replace]. Qed.

(** What [replace] leaves of a ghost list. *)
Lemma replace_ghosts x s :
  ∃ l1 l2, B1 (replace x s).1 = l1 ++ B1 s ∧ B2 (replace x s).1 = l2 ++ B2 s.
Proof.
  unfold replace. destruct (_ && _); unfold demote1, demote2;
    destruct (pop_tail _) as [[? []]|]; cbn;
    ((by exists [], []) || (by eexists [_], []) || (by eexists [], [_])).
Qed.

Lemma NoDup_assoc_app {B} k (v : B) l l' :
  NoDup (l ++ l').*1 → assoc k l' = Some v → assoc k (l ++ l') = Some v.
Proof. intros Hn Hk%assoc_Some_in. apply in_assoc; [done|]. set_solver. Qed.

Lemma ok_ghost_hit cap k v s s' : ok cap s → ghost_hit cap k v s = Some s' → ok cap s'.
Proof.
  intros Hok. assert (0 ≤ p s ≤ cap)%Z as Hp by apply Hok. unfold ghost_hit.
  destruct (assoc k (B1 s)) as [w|] eqn:E1; [|destruct (assoc k (B2 s)) as [w|] eqn:E2; [|done]];
    intros [= <-].
  - pose proof (delta_pos (B2 s) (B1 s)). set (s0 := St (Z.min _ _) _ _ _ _).
    assert (ok cap (replace k s0).1) as Hok' by (apply ok_replace, ok_retarget; [done|lia]).
    destruct (ok_parts _ _ Hok') as (_ & _ & H1 & _). destruct (replace_ghosts k s0) as (l1 & _ & El & _).
    eapply ok_perm; [exact Hok'| |done]. unfold keys. cbn. rewrite El in H1 |- *.
    rewrite (take_keys k w (l1 ++ B1 s0)); [|done|by apply NoDup_assoc_app]. solve_Permutation.
  - pose proof (delta_pos (B1 s) (B2 s)). set (s0 := St (Z.max _ _) _ _ _ _).
    assert (ok cap (replace k s0).1) as Hok' by (apply ok_replace, ok_retarget; [done|lia]).
    destruct (ok_parts _ _ Hok') as (_ & _ & _ & H2). destruct (replace_ghosts k s0) as (_ & l2 & _ & El).
    eapply ok_perm; [exact Hok'| |done]. unfold keys. cbn. rewrite El in H2 |- *.
    rewrite (take_keys k w (l2 ++ B2 s0)); [|done|by apply NoDup_assoc_app]. solve_Permutation.
Qed.

Lemma submseteq_NoDup {A} (l l' : list A) : l ⊆+ l' → NoDup l' → NoDup l.
Proof. intros [k ->]%submseteq_Permutation Hn. by apply NoDup_app in Hn as [? _]. Qed.

Lemma make_room_keys cap s : keys (make_room cap s) ⊆+ keys s ∧ p (make_room cap s) = p s.
Proof.
  assert (∀ s', keys s' ⊆+ keys s → keys (replace "" s').1 ⊆+ keys s) as Hr.
  { intros s' H. by rewrite keys_replace. }
  unfold make_room. destruct (cap <=? _)%Z; [destruct (_ <? cap)%Z|destruct (i64 _ <=? _)%Z].
  - split; [|done]. unfold keys. cbn. repeat apply submseteq_app; try done. apply drop_tail_sub.
  - rewrite keys_demote1. split; [done|]. unfold demote1. by destruct (pop_tail _) as [[? []]|].
  - split; [|by rewrite p_replace]. apply Hr. unfold keys. cbn.
    repeat apply submseteq_app; try done. apply drop_tail_sub.
  - split; [|by rewrite p_replace]. by apply Hr.
Qed.

Lemma ok_trim2 cap s : ok cap s → ok cap (St (p s) (T1 s) (T2 s) (B1 s) (drop_tail (B2 s))).
Proof.
  intros [Hn Hp]. split; [|done]. eapply submseteq_NoDup; [|exact Hn]. unfold keys. cbn.
  repeat apply submseteq_app; try done. apply drop_tail_sub.
Qed.

Lemma ok_insert cap k v s : ok cap s → k ∉ keys s → ok cap (insert cap k v s).
Proof.
  intros [Hn Hp] Hk. unfold insert. set (s0 := if (cap <=? _)%Z then _ else _).
  assert (keys s0 ⊆+ keys s ∧ p s0 = p s) as [Hs Ep].
  { unfold s0. destruct (cap <=? _)%Z; [apply make_room_keys|done]. }
  split; [|cbn; lia]. unfold keys. cbn. apply NoDup_cons. split.
  - intros Hin. apply Hk. by eapply elem_of_submseteq.
  - by eapply submseteq_NoDup.
Qed.

Lemma not_in_keys k s :
  assoc k (T1 s) = None → assoc k (T2 s) = None → assoc k (B1 s) = None → assoc k (B2 s) = None →
  k ∉ keys s.
Proof. intros ?%assoc_None_notin ?%assoc_None_notin ?%assoc_None_notin ?%assoc_None_notin. set_solver. Qed.

Lemma ok_set cap k v s : ok cap s → ok cap (set cap k v s).
Proof.
  intros Hok. unfold set. destruct (cap =? 0)%Z; [done|].
  destruct (update k v s) eqn:Eu; [by eapply ok_update|].
  destruct (ghost_hit cap k v s) eqn:Eg; [by eapply ok_ghost_hit|].
  apply ok_insert; [done|]. unfold update, ghost_hit in *.
  apply not_in_keys; by repeat destruct (assoc _ _).
Qed.

Lemma ok_get cap k s : ok cap s → ok cap (get k s).1.
Proof.
  intros Hok. pose proof (ok_update cap k) as Hu. unfold get, update in *.
  destruct (assoc k (T1 s)) as [w|] eqn:E1; [|destruct (assoc k (T2 s)) as [w|] eqn:E2; [|done]]; cbn.
  - eapply (Hu w s); [done|]. by rewrite E1.
  - eapply (Hu w s); [done|]. by rewrite E1, E2.
Qed.

Lemma ok_delete cap k s : ok cap s → ok cap (delete k s).
Proof.
  intros Hok. destruct (ok_parts _ _ Hok) as (H1 & H2 & H3 & H4). unfold delete.
  destruct (assoc k (T1 s)) eqn:E1; [|destruct (assoc k (T2 s)) eqn:E2;
    [|destruct (assoc k (B1 s)) eqn:E3; [|destruct (assoc k (B2 s)) eqn:E4; [|done]]]];
    (eapply (ok_less _ s _ k); [done| |done]); unfold keys; cbn.
  - rewrite (take_keys _ _ _ H1 E1). done.
  - rewrite (take_keys _ _ _ H2 E2). solve_Permutation.
  - rewrite (take_keys _ _ _ H3 E3). solve_Permutation.
  - rewrite (take_keys _ _ _ H4 E4). solve_Permutation.
Qed.

Lemma ok_evict cap s : ok cap s → ok cap (evict cap s).1.
Proof.
  intros Hok. unfold evict. destruct (_ || _); [done|]. pose proof (ok_replace cap "" s Hok) as H.
  destruct (replace "" s) as [s' [k|]]; [|done]. by case_decide.
Qed.

Lemma ok_step cap o s : ok cap s → ok cap (step cap o s).1.
Proof.
  intros Hok. destruct o as [k|pick k v| |k]; cbn.
  - pose proof (ok_get cap k s Hok). by destruct (get k s).
  - by apply ok_set.
  - pose proof (ok_evict cap s Hok). by destruct (evict cap s).
  - by apply ok_delete.
Qed.

End Spec.

(** ** Two lists over one heap *)

Section pairs.
Context {P : Type} (key : P → string).
Implicit Types (h : gmap loc (node P)) (xs : list (loc * P)) (m : gmap string loc) (l : arcList).

Definition chain l h xs : Prop := dlist (head l) (tail l) h xs ∧ len l = Z.of_nat (length xs).

(** Two disjoint lists with their indexes; cells at or above [brk] are free. *)
Record pair h (brk : loc) l1 m1 xs1 l2 m2 xs2 : Prop := {
  pr_chain1 : chain l1 h xs1;
  pr_chain2 : chain l2 h xs2;
  pr_index1 : indexes m1 (entries key xs1);
  pr_index2 : indexes m2 (entries key xs2);
  pr_disj : ∀ x, x ∈ xs1.*1 → x ∈ xs2.*1 → False;
  pr_brk : ∀ x, x ∈ dom h → (x < brk)%positive }.

Lemma pair_empty : pair ∅ 1 (AList None None 0) ∅ [] (AList None None 0) ∅ [].
Proof.
  split; try (split; [apply dlist_nil|done]); try apply indexes_empty; [by intros x ?%elem_of_nil|].
  intros x. rewrite dom_empty_L. set_solver.
Qed.

Lemma pair_sym h brk l1 m1 xs1 l2 m2 xs2 :
  pair h brk l1 m1 xs1 l2 m2 xs2 → pair h brk l2 m2 xs2 l1 m1 xs1.
Proof. intros []. split; eauto. Qed.

Lemma chain_frame l h h' xs :
  (∀ x, x ∈ xs.*1 → h' !! x = h !! x) → chain l h xs → chain l h' xs.
Proof. intros Hf [[? ? ? ?] ?]. split; [|done]. split; try done. by eapply dlseg_ext. Qed.

Lemma pair_split h brk l1 m1 xs1 l2 m2 xs2 k nd :
  pair h brk l1 m1 xs1 l2 m2 xs2 → m1 !! k = Some nd →
  ∃ xa c xb, xs1 = xa ++ (nd, c) :: xb ∧ key c = k.
Proof.
  intros Hp Hk. destruct (indexes_split _ _ _ _ (pr_index1 _ _ _ _ _ _ _ _ Hp) Hk) as (ka & kb & E).
  destruct (entries_split _ _ _ _ _ _ E) as (xa & c & xb & -> & ? & _). eauto.
Qed.

Lemma pair_remove h brk l1 m1 xa nd c xb l2 m2 xs2 :
  pair h brk l1 m1 (xa ++ (nd, c) :: xb) l2 m2 xs2 →
  ∃ l h', remove nd l1 h = Some (l, h') ∧
    pair h' brk l (delete (key c) m1) (xa ++ xb) l2 m2 xs2 ∧
    h' !! nd = Some (Node c None None) ∧ nd ∉ (xa ++ xb).*1 ∧ nd ∉ xs2.*1.
Proof.
  intros [[Hd Hl] Hc2 Hi1 Hi2 Hdj Hb]. unfold remove. rewrite (list_remove_ok _ _ _ _ _ _ _ Hd).
  cbn [mbind option_bind]. pose proof (dlist_notin _ _ _ _ _ _ _ Hd) as Hnin.
  assert (nd ∉ xs2.*1) as Hnd. { intros H. apply (Hdj nd); [|done]. rewrite fmap_app. apply elem_of_app. right. by left. }
  eexists _, _. split; [done|]. split_and!; [|apply lookup_insert_eq|done|done].
  assert (∀ x, x ∉ (xa ++ (nd, c) :: xb).*1 →
    <[nd := Node c None None]> (unlinked xa xb h) !! x = h !! x) as Hout.
  { intros x Hx. rewrite fmap_app in Hx. cbn in Hx. rewrite lookup_insert_ne by set_solver.
    apply unlinked_lookup_ne; set_solver. }
  split.
  - split; [by eapply dlist_unlink|]. cbn. rewrite Hl, !length_app. cbn. lia.
  - eapply chain_frame; [|done]. intros x Hx. apply Hout. intros H. by apply (Hdj x).
  - rewrite entries_app, entries_cons in Hi1. rewrite entries_app. by eapply indexes_delete.
  - done.
  - intros x Hx. apply Hdj. rewrite fmap_app in *. apply elem_of_app in Hx as [?|?]; apply elem_of_app;
      [by left|right]. by right.
  - intros x. rewrite (dom_unlink _ _ _ _ _ _ _ _ Hd). apply Hb.
Qed.

Lemma pair_push h brk l1 m1 xs1 l2 m2 xs2 nd c pv nx :
  pair h brk l1 m1 xs1 l2 m2 xs2 → h !! nd = Some (Node c pv nx) →
  nd ∉ xs1.*1 → nd ∉ xs2.*1 → m1 !! key c = None →
  ∃ l h', pushFront nd l1 h = Some (l, h') ∧ head l = Some nd ∧
    pair h' brk l (<[key c := nd]> m1) ((nd, c) :: xs1) l2 m2 xs2 ∧
    h' !! nd = Some (Node c None (hd_loc xs1 None)).
Proof.
  intros [[Hd Hl] Hc2 Hi1 Hi2 Hdj Hb] Hn H1 H2 Hk. unfold pushFront.
  rewrite (list_pushFront_ok _ _ _ _ _ _ Hd H1 Hn). cbn [mbind option_bind].
  eexists _, _. split; [done|]. split; [done|]. cbn [payload]. split; [|apply lookup_insert_eq].
  split.
  - split; [by apply (dlist_pushed _ _ _ _ _ _ Hd)|]. cbn. rewrite Hl. lia.
  - eapply chain_frame; [|done]. intros x Hx. apply pushed_lookup_ne; [intros ->; done|].
    intros H. by apply (Hdj x).
  - rewrite entries_cons. apply indexes_insert; [|done]. by eapply indexes_None.
  - done.
  - intros x [->|Hx]%elem_of_cons; [done|]. by apply Hdj.
  - intros x. rewrite dom_pushed; [apply Hb|]. apply elem_of_dom. eauto.
Qed.

Lemma pair_alloc h brk l1 m1 xs1 l2 m2 xs2 c :
  pair h brk l1 m1 xs1 l2 m2 xs2 →
  pair (<[brk := Node c None None]> h) (Pos.succ brk) l1 m1 xs1 l2 m2 xs2 ∧
  brk ∉ xs1.*1 ∧ brk ∉ xs2.*1.
Proof.
  intros [Hc1 Hc2 Hi1 Hi2 Hdj Hb].
  assert (∀ l xs, chain l h xs → brk ∉ xs.*1) as Hf.
  { intros l xs [[_ _ _ Hs] _] Hin. destruct (dlseg_is_Some _ _ _ _ _ Hs Hin) as [n Hn].
    assert (brk < brk)%positive; [|lia]. apply Hb, elem_of_dom. eauto. }
  split_and!; [|eauto..].
  split; try done.
  - eapply chain_frame; [|done]. intros x Hx. rewrite lookup_insert_ne; [done|]. intros <-. exact (Hf _ _ Hc1 Hx).
  - eapply chain_frame; [|done]. intros x Hx. rewrite lookup_insert_ne; [done|]. intros <-. exact (Hf _ _ Hc2 Hx).
  - intros x. rewrite dom_insert_L, elem_of_union, elem_of_singleton. intros [->|?%Hb]; lia.
Qed.

Lemma pair_set h brk l1 m1 xa nd c c' xb l2 m2 xs2 :
  pair h brk l1 m1 (xa ++ (nd, c) :: xb) l2 m2 xs2 → key c' = key c →
  pair (upd (set_payload c') (Some nd) h) brk l1 m1 (xa ++ (nd, c') :: xb) l2 m2 xs2.
Proof.
  intros [[Hd Hl] Hc2 Hi1 Hi2 Hdj Hb] Hk. rewrite fmap_app in Hdj. split.
  - split; [by eapply dlist_set_payload|]. rewrite Hl, !length_app. done.
  - eapply chain_frame; [|done]. intros x Hx. apply upd_lookup_ne. intros [= ->]. apply (Hdj x); [|done].
    apply elem_of_app. right. by left.
  - rewrite entries_app, entries_cons in *. by rewrite Hk.
  - done.
  - intros x. rewrite fmap_app. apply Hdj.
  - intros x. rewrite dom_upd. apply Hb.
Qed.

Lemma pair_removeTail h brk l1 m1 xs1 l2 m2 xs2 :
  pair h brk l1 m1 xs1 l2 m2 xs2 →
  (xs1 = [] ∧ removeTail l1 h = Some (l1, h, None)) ∨
  ∃ xa nd c l h', xs1 = xa ++ [(nd, c)] ∧ removeTail l1 h = Some (l, h', Some nd) ∧
    pair h' brk l (delete (key c) m1) xa l2 m2 xs2 ∧ h' !! nd = Some (Node c None None).
Proof.
  intros Hp. pose proof Hp as [[Hd _] _ _ _ _ _]. unfold removeTail. destruct (tail l1) as [nd|] eqn:E.
  - right. destruct (dlist_tail_Some _ _ _ _ Hd) as (xa & c & ->).
    destruct (pair_remove _ _ _ _ _ _ _ _ _ _ _ Hp) as (l & h' & -> & Hp' & Hn & _).
    rewrite app_nil_r in Hp'. exists xa, nd, c, l, h'. done.
  - left. by apply dlist_tail_None in Hd as ->.
Qed.

(** What the abstract machine sees of a list. *)
Context {B : Type} (proj : P → B).
Definition view xs : list (string * B) := (λ x, (key x.2, proj x.2)) <$> xs.

Lemma view_keys xs : (view xs).*1 = (entries key xs).*1.
Proof. unfold view, entries. by rewrite <- !list_fmap_compose. Qed.

Lemma view_app xs ys : view (xs ++ ys) = view xs ++ view ys.
Proof. apply fmap_app. Qed.

Lemma view_length xs : length (view xs) = length xs.
Proof. apply length_fmap. Qed.

Lemma view_Some h brk l1 m1 xs1 l2 m2 xs2 k nd :
  pair h brk l1 m1 xs1 l2 m2 xs2 → m1 !! k = Some nd →
  ∃ xa c xb, xs1 = xa ++ (nd, c) :: xb ∧ key c = k ∧ assoc k (view xs1) = Some (proj c) ∧
    drop_key k (view xs1) = view (xa ++ xb).
Proof.
  intros Hp Hk. destruct (pair_split _ _ _ _ _ _ _ _ _ _ Hp Hk) as (xa & c & xb & -> & <-).
  exists xa, c, xb. split_and!; [done|done|..];
    (assert (NoDup (view (xa ++ (nd, c) :: xb)).*1) as Hn by (rewrite view_keys; apply Hp));
    rewrite view_app in *; cbn in *; [by apply assoc_middle|]. rewrite view_app. by apply drop_key_middle.
Qed.

Lemma view_in h brk l1 m1 xs1 l2 m2 xs2 k :
  pair h brk l1 m1 xs1 l2 m2 xs2 → is_Some (m1 !! k) ↔ k ∈ (view xs1).*1.
Proof.
  intros Hp. pose proof (pr_index1 _ _ _ _ _ _ _ _ Hp) as [_ Hm]. rewrite view_keys. split.
  - intros [nd Hk%Hm]. by apply (list_elem_of_fmap_2 fst) in Hk.
  - intros ([k' nd] & -> & Hk%Hm)%list_elem_of_fmap. eauto.
Qed.

Lemma arc_view_None h brk l1 m1 xs1 l2 m2 xs2 k :
  pair h brk l1 m1 xs1 l2 m2 xs2 → m1 !! k = None → assoc k (view xs1) = None.
Proof.
  intros Hp Hk. apply assoc_notin. rewrite <- (view_in _ _ _ _ _ _ _ _ _ Hp), Hk. by intros [].
Qed.

Lemma view_absent h brk l1 m1 xs1 l2 m2 xs2 k :
  pair h brk l1 m1 xs1 l2 m2 xs2 → k ∉ (view xs1).*1 → m1 !! k = None.
Proof. intros Hp. rewrite <- (view_in _ _ _ _ _ _ _ _ _ Hp). apply eq_None_not_Some. Qed.

Lemma pair_lookup h brk l1 m1 xs1 l2 m2 xs2 nd c :
  pair h brk l1 m1 xs1 l2 m2 xs2 → (nd, c) ∈ xs1 → m1 !! key c = Some nd.
Proof.
  intros Hp Hin. apply (pr_index1 _ _ _ _ _ _ _ _ Hp). apply list_elem_of_fmap. by exists (nd, c).
Qed.

End pairs.

(** ** The refinement *)

Abbreviation abs := (view key value).
Abbreviation ghosts := (view (λ k : arcGhostNode, k) (λ _, ())).

Record rep (a : ARC) x1 x2 y1 y2 : Prop := {
  rp_res : pair key (heap a) (brk a) (t1 a) (t1Idx a) x1 (t2 a) (t2Idx a) x2;
  rp_ghosts : pair (λ k, k) (gheap a) (gbrk a) (b1 a) (b1Idx a) y1 (b2 a) (b2Idx a) y2;
  rp_len : len_ a = Z.of_nat (length x1 + length x2) }.

Definition state_of (a : ARC) x1 x2 y1 y2 : Spec.state :=
  Spec.St (p a) (abs x1) (abs x2) (ghosts y1) (ghosts y2).

Definition refines (a : ARC) (s : Spec.state) : Prop :=
  ∃ x1 x2 y1 y2, rep a x1 x2 y1 y2 ∧ s = state_of a x1 x2 y1 y2 ∧ Spec.ok (capacity a) s.

(** The fields no list operation writes. *)
Record same_params (a a' : ARC) : Prop := { sp_cap : capacity a' = capacity a; sp_p : p a' = p a }.

Lemma promote_ok a xa nd c xb x2 y1 y2 :
  rep a (xa ++ (nd, c) :: xb) x2 y1 y2 → t2Idx a !! key c = None →
  ∃ a' n, promote nd (key c) a = Some a' ∧ rep a' (xa ++ xb) ((nd, c) :: x2) y1 y2 ∧
    same_params a a' ∧ load (Some nd) (heap a') = Some n ∧ payload n = c.
Proof.
  intros [Hr Hg Hl] Hk. unfold promote.
  destruct (pair_remove _ _ _ _ _ _ _ _ _ _ _ _ Hr) as (l & h & -> & Hr1 & Hn & H1 & H2).
  cbn [mbind option_bind]. apply pair_sym in Hr1. cbn [t2 heap with_t1].
  destruct (pair_push _ _ _ _ _ _ _ _ _ _ _ _ _ Hr1 Hn H2 H1 Hk) as (l' & h' & -> & _ & Hr2 & Hn').
  cbn [mbind option_bind]. eexists _, _. split; [done|]. split_and!; [|done|exact Hn'|done].
  split; cbn; [by apply pair_sym|done|]. rewrite Hl, !length_app. cbn. lia.
Qed.

Lemma refresh_ok a x1 xa nd c xb y1 y2 :
  rep a x1 (xa ++ (nd, c) :: xb) y1 y2 →
  ∃ a' n, refresh nd a = Some a' ∧ rep a' x1 ((nd, c) :: xa ++ xb) y1 y2 ∧
    same_params a a' ∧ load (Some nd) (heap a') = Some n ∧ payload n = c.
Proof.
  intros [Hr Hg Hl]. unfold refresh. apply pair_sym in Hr.
  assert (t2Idx a !! key c = Some nd) as Hk by (eapply pair_lookup; [exact Hr|set_solver]).
  destruct (pair_remove _ _ _ _ _ _ _ _ _ _ _ _ Hr) as (l & h & -> & Hr1 & Hn & H1 & H2).
  cbn [mbind option_bind].
  destruct (pair_push _ _ _ _ _ _ _ _ _ _ _ _ _ Hr1 Hn H1 H2 (lookup_delete_eq _ _))
    as (l' & h' & -> & _ & Hr2 & Hn').
  cbn [mbind option_bind]. eexists _, _. split; [done|]. split_and!; [|done|exact Hn'|done].
  rewrite insert_delete_eq, insert_id in Hr2 by done.
  split; cbn; [by apply pair_sym|done|]. rewrite Hl. cbn. rewrite !length_app. cbn. lia.
Qed.

Lemma cell_of h brk l1 m1 xa nd (c : arcNode) xb l2 m2 xs2 :
  pair key h brk l1 m1 (xa ++ (nd, c) :: xb) l2 m2 xs2 → ∃ pv nx, h !! nd = Some (Node c pv nx).
Proof.
  intros Hp. destruct (pr_chain1 _ _ _ _ _ _ _ _ _ Hp) as [Hd _].
  destruct (dlist_split _ _ _ _ _ _ _ Hd) as (_ & _ & _ & Hc). eauto.
Qed.

Lemma setValue_ok a v nd c :
  (∃ pv nx, heap a !! nd = Some (Node c pv nx)) →
  setValue nd v a = Some (with_t1 (t1 a) (upd (set_payload (ANode (key c) v)) (Some nd) (heap a)) (t1Idx a) a).
Proof.
  intros (pv & nx & Hn). unfold setValue. rewrite (load_Some _ _ _ Hn). cbn [mbind option_bind payload].
  rewrite store_Some by eauto. done.
Qed.

Lemma with_t1_id a : with_t1 (t1 a) (heap a) (t1Idx a) a = a.
Proof. by destruct a. Qed.
Lemma with_t2_id a : with_t2 (t2 a) (heap a) (t2Idx a) a = a.
Proof. by destruct a. Qed.
Lemma with_b1_id a : with_b1 (b1 a) (gheap a) (b1Idx a) a = a.
Proof. by destruct a. Qed.
Lemma with_b2_id a : with_b2 (b2 a) (gheap a) (b2Idx a) a = a.
Proof. by destruct a. Qed.

(** What a demotion does: nothing on an empty list, else the tail becomes a ghost. *)
Lemma demote1_ok a x1 x2 y1 y2 :
  rep a x1 x2 y1 y2 → (∀ nd c, (nd, c) ∈ x1 → b1Idx a !! key c = None) →
  (x1 = [] ∧ demote1 a = Some (a, None)) ∨
  ∃ xa nd c g a', x1 = xa ++ [(nd, c)] ∧ demote1 a = Some (a', Some (key c)) ∧
    rep a' xa x2 ((g, key c) :: y1) y2 ∧ same_params a a'.
Proof.
  intros [Hr Hg Hl] Hk. unfold demote1.
  destruct (pair_removeTail _ _ _ _ _ _ _ _ _ Hr) as [[-> ->]|(xa & nd & c & l & h & -> & -> & Hr1 & Hn)];
    cbn [mbind option_bind].
  { left. by rewrite with_t1_id. }
  right. rewrite (load_Some _ _ _ Hn). cbn [mbind option_bind payload newGhost].
  destruct (pair_alloc _ _ _ _ _ _ _ _ _ (key c) Hg) as (Hg1 & F1 & F2).
  cbn [b1 gheap b1Idx gbrk with_t1].
  destruct (pair_push _ _ _ _ _ _ _ _ _ _ (key c) _ _ Hg1 (lookup_insert_eq _ _ _) F1 F2)
    as (l' & h' & -> & Eh & Hg2 & _).
  { apply (Hk nd). set_solver. }
  cbn [mbind option_bind]. rewrite Eh. cbn [mbind option_bind].
  eexists xa, nd, c, (gbrk a), _. split_and!; [done|done| |done].
  split; cbn; [done|done|]. rewrite Hl, length_app. cbn. lia.
Qed.

Lemma demote2_ok a x1 x2 y1 y2 :
  rep a x1 x2 y1 y2 → (∀ nd c, (nd, c) ∈ x2 → b2Idx a !! key c = None) →
  (x2 = [] ∧ demote2 a = Some (a, None)) ∨
  ∃ xa nd c g a', x2 = xa ++ [(nd, c)] ∧ demote2 a = Some (a', Some (key c)) ∧
    rep a' x1 xa y1 ((g, key c) :: y2) ∧ same_params a a'.
Proof.
  intros [Hr Hg Hl] Hk. unfold demote2. apply pair_sym in Hr, Hg.
  destruct (pair_removeTail _ _ _ _ _ _ _ _ _ Hr) as [[-> ->]|(xa & nd & c & l & h & -> & -> & Hr1 & Hn)];
    cbn [mbind option_bind].
  { left. by rewrite with_t2_id. }
  right. rewrite (load_Some _ _ _ Hn). cbn [mbind option_bind payload newGhost].
  destruct (pair_alloc _ _ _ _ _ _ _ _ _ (key c) Hg) as (Hg1 & F1 & F2).
  cbn [b2 gheap b2Idx gbrk with_t2].
  destruct (pair_push _ _ _ _ _ _ _ _ _ _ (key c) _ _ Hg1 (lookup_insert_eq _ _ _) F1 F2)
    as (l' & h' & -> & Eh & Hg2 & _).
  { apply (Hk nd). set_solver. }
  cbn [mbind option_bind]. rewrite Eh. cbn [mbind option_bind].
  eexists xa, nd, c, (gbrk a), _. split_and!; [done|done| |done].
  split; cbn; [by apply pair_sym|by apply pair_sym|]. rewrite Hl, length_app. cbn. lia.
Qed.

(** Residents are not ghosts, in the four combinations the code relies on. *)
Lemma ok_residents cap q x1 x2 y1 y2 nd c :
  Spec.ok cap (Spec.St q (abs x1) (abs x2) (ghosts y1) (ghosts y2)) →
  (nd, c) ∈ x1 ++ x2 → key c ∉ (ghosts y1).*1 ∧ key c ∉ (ghosts y2).*1.
Proof.
  intros [Hn _] Hin. unfold Spec.keys in Hn. cbn in Hn. rewrite app_assoc, <- fmap_app, <- view_app in Hn.
  apply NoDup_app in Hn as (_ & Hd & _).
  assert (key c ∈ (abs (x1 ++ x2)).*1) as Hk.
  { apply list_elem_of_fmap. exists (key c, value c). split; [done|]. apply list_elem_of_fmap.
    by exists (nd, c). }
  apply Hd in Hk. by apply not_elem_of_app in Hk.
Qed.

Lemma replace_ok x a x1 x2 y1 y2 :
  rep a x1 x2 y1 y2 → Spec.ok (capacity a) (state_of a x1 x2 y1 y2) →
  ∃ a' r x1' x2' l1 l2, replace x a = Some (a', default ""%string r) ∧
    Spec.replace x (state_of a x1 x2 y1 y2) = (state_of a' x1' x2' (l1 ++ y1) (l2 ++ y2), r) ∧
    rep a' x1' x2' (l1 ++ y1) (l2 ++ y2) ∧ same_params a a'.
Proof.
  intros Hr Hok. pose proof Hr as [Hres Hg Hl]. unfold replace, Spec.replace. cbn [Spec.T1 Spec.B2 state_of Spec.p].
  destruct (pr_chain1 _ _ _ _ _ _ _ _ _ Hres) as [_ Hl1]. unfold Spec.size. rewrite view_length, <- Hl1.
  replace (bool_decide (is_Some (assoc x (ghosts y2)))) with (bool_decide (is_Some (b2Idx a !! x))).
  2:{ apply bool_decide_ext. apply pair_sym in Hg. rewrite (view_in _ (λ _, ()) _ _ _ _ _ _ _ _ _ Hg). split.
      - intros Hin. destruct (assoc x (ghosts y2)) eqn:E; [eauto|]. by apply Spec.assoc_None_notin in E.
      - intros [u Hu%assoc_Some_in]. by apply (list_elem_of_fmap_2 fst) in Hu. }
  unfold state_of in Hok.
  destruct (_ && _).
  - unfold Spec.demote1. cbn [Spec.T1 Spec.T2 Spec.B1 Spec.B2 Spec.p].
    destruct (demote1_ok _ _ _ _ _ Hr) as [[-> ->]|(xa & nd & c & g & a' & -> & -> & Hr' & Hs)].
    { intros nd c Hin. destruct (ok_residents _ _ _ _ _ _ nd c Hok) as [H1 _]; [set_solver|].
      by eapply view_absent. }
    + cbn. by eexists a, None, [], x2, [], [].
    + cbn [mbind option_bind]. unfold state_of at 1 2 3 4 5 6. cbn [Spec.T1 Spec.T2 Spec.B1 Spec.B2 Spec.p].
      rewrite view_app. cbn [fmap list_fmap view]. rewrite Spec.pop_tail_snoc.
      eexists a', (Some (key c)), xa, x2, [(g, key c)], []. split_and!; [done| |done|done].
      unfold state_of. by rewrite (sp_p _ _ Hs).
  - unfold Spec.demote2. cbn [Spec.T1 Spec.T2 Spec.B1 Spec.B2 Spec.p].
    destruct (demote2_ok _ _ _ _ _ Hr) as [[-> ->]|(xa & nd & c & g & a' & -> & -> & Hr' & Hs)].
    { intros nd c Hin. destruct (ok_residents _ _ _ _ _ _ nd c Hok) as [_ H1]; [set_solver|].
      apply pair_sym in Hg. by eapply view_absent. }
    + cbn. by eexists a, None, x1, [], [], [].
    + cbn [mbind option_bind]. unfold state_of at 1 2 3 4 5 6. cbn [Spec.T1 Spec.T2 Spec.B1 Spec.B2 Spec.p].
      rewrite view_app. cbn [fmap list_fmap view]. rewrite Spec.pop_tail_snoc.
      eexists a', (Some (key c)), x1, xa, [], [(g, key c)]. split_and!; [done| |done|done].
      unfold state_of. by rewrite (sp_p _ _ Hs).
Qed.

Lemma readmit_ok a k v x1 x2 y1 y2 :
  rep a x1 x2 y1 y2 → t2Idx a !! k = None →
  ∃ a' nd, readmit k v a = Some a' ∧ rep a' x1 ((nd, ANode k v) :: x2) y1 y2 ∧ same_params a a'.
Proof.
  intros [Hr Hg Hl] Hk. unfold readmit. cbn [newNode]. apply pair_sym in Hr.
  destruct (pair_alloc _ _ _ _ _ _ _ _ _ (ANode k v) Hr) as (Hr1 & F1 & F2). cbn [t2 heap t2Idx].
  destruct (pair_push _ _ _ _ _ _ _ _ _ _ (ANode k v) _ _ Hr1 (lookup_insert_eq _ _ _) F1 F2 Hk)
    as (l & h & -> & _ & Hr2 & _). cbn [mbind option_bind].
  eexists _, (brk a). split; [done|]. split; [|done].
  split; cbn; [by apply pair_sym|done|]. rewrite Hl. lia.
Qed.

Lemma insert_ok a k v x1 x2 y1 y2 :
  rep a x1 x2 y1 y2 → t1Idx a !! k = None →
  ∃ a' nd, (let '(nd, a) := newNode k v a in
      '(l, h) ← pushFront nd (t1 a) (heap a);
      let a := with_t1 l h (<[k := nd]> (t1Idx a)) a in
      Some (with_length (len_ a + 1) a)) = Some a' ∧
    rep a' ((nd, ANode k v) :: x1) x2 y1 y2 ∧ same_params a a'.
Proof.
  intros [Hr Hg Hl] Hk. cbn [newNode].
  destruct (pair_alloc _ _ _ _ _ _ _ _ _ (ANode k v) Hr) as (Hr1 & F1 & F2). cbn [t1 heap t1Idx].
  destruct (pair_push _ _ _ _ _ _ _ _ _ _ (ANode k v) _ _ Hr1 (lookup_insert_eq _ _ _) F1 F2 Hk)
    as (l & h & -> & _ & Hr2 & _). cbn [mbind option_bind].
  eexists _, (brk a). split; [done|]. split; [|done].
  split; cbn; [done|done|]. rewrite Hl. lia.
Qed.

Lemma ok_T12 cap q x1 x2 y1 y2 k :
  Spec.ok cap (Spec.St q (abs x1) (abs x2) (ghosts y1) (ghosts y2)) → k ∈ (abs x1).*1 → k ∉ (abs x2).*1.
Proof.
  intros [Hn _] Hk. unfold Spec.keys in Hn. cbn in Hn. apply NoDup_app in Hn as (_ & Hd & _).
  apply Hd in Hk. by apply not_elem_of_app in Hk as [? _].
Qed.

Lemma in_abs x1 nd c : (nd, c) ∈ x1 → key c ∈ (abs x1).*1.
Proof.
  intros Hin. apply list_elem_of_fmap. exists (key c, value c). split; [done|].
  apply list_elem_of_fmap. by exists (nd, c).
Qed.

Lemma refines_intro a x1 x2 y1 y2 s cap :
  rep a x1 x2 y1 y2 → s = state_of a x1 x2 y1 y2 → Spec.ok cap s → capacity a = cap → refines a s.
Proof. intros ? -> ? <-. by exists x1, x2, y1, y2. Qed.

Lemma arc_Get_ok k a s :
  refines a s → ∃ a', Get k a = Some (a', (Spec.get k s).2) ∧ refines a' (Spec.get k s).1 ∧
    capacity a' = capacity a.
Proof.
  intros (x1 & x2 & y1 & y2 & Hr & -> & Hok). pose proof (Spec.ok_get _ k _ Hok) as Hok'.
  pose proof Hr as [Hres _ _]. revert Hok'. unfold Get, Spec.get. cbn [Spec.T1 Spec.T2 state_of].
  destruct (t1Idx a !! k) as [nd|] eqn:E1.
  - destruct (view_Some _ value _ _ _ _ _ _ _ _ _ _ Hres E1) as (xa & c & xb & -> & <- & -> & ->). cbn [fst snd].
    assert (t2Idx a !! key c = None) as Hk.
    { eapply view_absent; [by apply pair_sym|]. eapply ok_T12; [exact Hok|]. apply (in_abs _ nd c). set_solver. }
    destruct (promote_ok _ _ _ _ _ _ _ _ Hr Hk) as (a' & n & -> & Hr' & Hs & Hn & Ec).
    intros Hok'. cbn [mbind option_bind]. rewrite Hn. cbn [mbind option_bind]. rewrite Ec. exists a'. split; [done|].
    split; [|apply Hs]. eapply refines_intro; [done| |done|apply Hs]. unfold state_of. by rewrite (sp_p _ _ Hs).
  - rewrite (arc_view_None _ value _ _ _ _ _ _ _ _ _ Hres E1). apply pair_sym in Hres.
    destruct (t2Idx a !! k) as [nd|] eqn:E2.
    + destruct (view_Some _ value _ _ _ _ _ _ _ _ _ _ Hres E2) as (xa & c & xb & -> & <- & -> & ->). cbn [fst snd].
      destruct (refresh_ok _ _ _ _ _ _ _ _ Hr) as (a' & n & -> & Hr' & Hs & Hn & Ec).
      intros Hok'. cbn [mbind option_bind]. rewrite Hn. cbn [mbind option_bind]. rewrite Ec. exists a'. split; [done|].
      split; [|apply Hs]. eapply refines_intro; [done| |done|apply Hs]. unfold state_of. by rewrite (sp_p _ _ Hs).
    + rewrite (arc_view_None _ value _ _ _ _ _ _ _ _ _ Hres E2). cbn. intros _. exists a. split; [done|].
      split; [|done]. by exists x1, x2, y1, y2.
Qed.

Lemma updateIfResident_ok k v a x1 x2 y1 y2 :
  rep a x1 x2 y1 y2 → Spec.ok (capacity a) (state_of a x1 x2 y1 y2) →
  match Spec.update k v (state_of a x1 x2 y1 y2) with
  | Some s' => ∃ a', updateIfResident k v a = Some (a', true) ∧ refines a' s' ∧ capacity a' = capacity a
  | None => updateIfResident k v a = Some (a, false) ∧ t1Idx a !! k = None ∧ t2Idx a !! k = None
  end.
Proof.
  intros Hr Hok. pose proof (λ s', Spec.ok_update _ k v _ s' Hok) as Hok'. pose proof Hr as [Hres Hg Hl]. revert Hok'.
  unfold updateIfResident, Spec.update. cbn [Spec.T1 Spec.T2 state_of].
  destruct (t1Idx a !! k) as [nd|] eqn:E1.
  - destruct (view_Some _ value _ _ _ _ _ _ _ _ _ _ Hres E1) as (xa & c & xb & -> & <- & -> & ->).
    intros Hok'. specialize (Hok' _ eq_refl). rewrite (setValue_ok a v nd c (cell_of _ _ _ _ _ _ _ _ _ _ _ Hres)).
    cbn [mbind option_bind]. set (a0 := with_t1 _ _ _ a).
    assert (rep a0 (xa ++ (nd, ANode (key c) v) :: xb) x2 y1 y2) as Hr0.
    { split; cbn; [by eapply pair_set|done|]. rewrite Hl, !length_app. done. }
    assert (t2Idx a0 !! key (ANode (key c) v) = None) as Hk.
    { eapply view_absent; [by apply pair_sym|]. eapply ok_T12; [exact Hok|]. apply (in_abs _ nd c). set_solver. }
    destruct (promote_ok _ _ _ _ _ _ _ _ Hr0 Hk) as (a' & n & Hrun & Hr' & Hs & _). cbn [key] in Hrun. rewrite Hrun. cbn [mbind option_bind].
    exists a'. split; [done|]. split; [|apply Hs].
    eapply refines_intro; [done| |done|apply Hs]. unfold state_of. by rewrite (sp_p _ _ Hs).
  - rewrite (arc_view_None _ value _ _ _ _ _ _ _ _ _ Hres E1). apply pair_sym in Hres.
    destruct (t2Idx a !! k) as [nd|] eqn:E2.
    + destruct (view_Some _ value _ _ _ _ _ _ _ _ _ _ Hres E2) as (xa & c & xb & -> & <- & -> & ->).
      intros Hok'. specialize (Hok' _ eq_refl). rewrite (setValue_ok a v nd c (cell_of _ _ _ _ _ _ _ _ _ _ _ Hres)).
      cbn [mbind option_bind]. set (a0 := with_t1 _ _ _ a).
      assert (rep a0 x1 (xa ++ (nd, ANode (key c) v) :: xb) y1 y2) as Hr0.
      { split; cbn; [apply pair_sym; by eapply pair_set|done|]. rewrite Hl, !length_app. done. }
      destruct (refresh_ok _ _ _ _ _ _ _ _ Hr0) as (a' & n & -> & Hr' & Hs & _). cbn [mbind option_bind].
      exists a'. split; [done|]. split; [|apply Hs].
      eapply refines_intro; [done| |done|apply Hs]. unfold state_of. by rewrite (sp_p _ _ Hs).
    + by rewrite (arc_view_None _ value _ _ _ _ _ _ _ _ _ Hres E2).
Qed.

Lemma arcIntMax_max n m : arcIntMax n m = Z.max n m.
Proof. unfold arcIntMax. destruct (Z.ltb_spec m n); lia. Qed.

(** After the target has moved: a victim, and the ghost's key back in T2. *)
Lemma hit1_ok k v a g x1 x2 y1 y2 :
  rep a x1 x2 y1 y2 → Spec.ok (capacity a) (state_of a x1 x2 y1 y2) → b1Idx a !! k = Some g →
  ∃ a1 r l h a', replace k a = Some (a1, r) ∧ remove g (b1 a1) (gheap a1) = Some (l, h) ∧
    readmit k v (with_b1 l h (delete k (b1Idx a1)) a1) = Some a' ∧ capacity a' = capacity a ∧
    ∃ z1 z2 w1 w2, rep a' z1 z2 w1 w2 ∧
      let s := (Spec.replace k (state_of a x1 x2 y1 y2)).1 in
      state_of a' z1 z2 w1 w2 =
        Spec.St (Spec.p s) (Spec.T1 s) ((k, v) :: Spec.T2 s) (drop_key k (Spec.B1 s)) (Spec.B2 s).
Proof.
  intros Hr Hok Hk. pose proof (rp_ghosts _ _ _ _ _ Hr) as Hg.
  destruct (pair_split _ _ _ _ _ _ _ _ _ _ _ Hg Hk) as (ya & c & yb & Ey & Ec). cbn in Ec. subst c.
  destruct (replace_ok k _ _ _ _ _ Hr Hok) as (a1 & r & x1' & x2' & l1 & l2 & Hrep & Er & Hr1 & Hs1).
  pose proof (Spec.ok_replace _ k _ Hok) as Hok1. rewrite Er in Hok1 |- *. cbn [fst] in *.
  rewrite Ey, app_assoc in Hr1, Hok1 |- *. pose proof Hr1 as [Hres1 Hg1 Hlen1]. 
  destruct (pair_remove _ _ _ _ _ _ _ _ _ _ _ _ Hg1) as (l & h & Hrem & Hg2 & _). 
  set (a2 := with_b1 l h (delete k (b1Idx a1)) a1).
  assert (rep a2 x1' x2' ((l1 ++ ya) ++ yb) (l2 ++ y2)) as Hr2 by done.
  assert (t2Idx a2 !! k = None) as Hk2.
  { destruct (t2Idx a2 !! k) as [nd|] eqn:E; [|done]. apply pair_sym in Hres1.
    destruct (pair_split _ _ _ _ _ _ _ _ _ _ _ Hres1 E) as (xa & c & xb & -> & Ec).
    destruct (ok_residents _ _ _ _ _ _ nd c Hok1) as [Hn _]; [set_solver|]. destruct Hn.
    rewrite Ec, view_app, fmap_app. set_solver. }
  destruct (readmit_ok _ k v _ _ _ _ Hr2 Hk2) as (a' & nd & Ha & Hr3 & Hs3).
  exists a1, (default ""%string r), l, h, a'. split_and!; [exact Hrep|exact Hrem|exact Ha|..].
  { rewrite (sp_cap _ _ Hs3). apply (sp_cap _ _ Hs1). }
  eexists _, _, _, _. split; [exact Hr3|]. unfold state_of. cbn [Spec.T1 Spec.T2 Spec.B1 Spec.B2 Spec.p].
  rewrite (sp_p _ _ Hs3). f_equal. rewrite !view_app. cbn. symmetry. apply drop_key_middle.
  destruct (Spec.ok_parts _ _ Hok1) as (_ & _ & H1 & _). cbn in H1. by rewrite !view_app in H1.
Qed.

(** After the target has moved: a victim, and the ghost's key back in T2. *)
Lemma hit2_ok k v a g x1 x2 y1 y2 :
  rep a x1 x2 y1 y2 → Spec.ok (capacity a) (state_of a x1 x2 y1 y2) → b2Idx a !! k = Some g →
  ∃ a1 r l h a', replace k a = Some (a1, r) ∧ remove g (b2 a1) (gheap a1) = Some (l, h) ∧
    readmit k v (with_b2 l h (delete k (b2Idx a1)) a1) = Some a' ∧ capacity a' = capacity a ∧
    ∃ z1 z2 w1 w2, rep a' z1 z2 w1 w2 ∧
      let s := (Spec.replace k (state_of a x1 x2 y1 y2)).1 in
      state_of a' z1 z2 w1 w2 =
        Spec.St (Spec.p s) (Spec.T1 s) ((k, v) :: Spec.T2 s) (Spec.B1 s) (drop_key k (Spec.B2 s)).
Proof.
  intros Hr Hok Hk. pose proof (rp_ghosts _ _ _ _ _ Hr) as Hg. apply pair_sym in Hg.
  destruct (pair_split _ _ _ _ _ _ _ _ _ _ _ Hg Hk) as (ya & c & yb & Ey & Ec). cbn in Ec. subst c.
  destruct (replace_ok k _ _ _ _ _ Hr Hok) as (a1 & r & x1' & x2' & l1 & l2 & Hrep & Er & Hr1 & Hs1).
  pose proof (Spec.ok_replace _ k _ Hok) as Hok1. rewrite Er in Hok1 |- *. cbn [fst] in *.
  rewrite Ey, app_assoc in Hr1, Hok1 |- *. pose proof Hr1 as [Hres1 Hg1 Hlen1]. apply pair_sym in Hg1. 
  destruct (pair_remove _ _ _ _ _ _ _ _ _ _ _ _ Hg1) as (l & h & Hrem & Hg2 & _). apply pair_sym in Hg2.
  set (a2 := with_b2 l h (delete k (b2Idx a1)) a1).
  assert (rep a2 x1' x2' (l1 ++ y1) ((l2 ++ ya) ++ yb)) as Hr2 by done.
  assert (t2Idx a2 !! k = None) as Hk2.
  { destruct (t2Idx a2 !! k) as [nd|] eqn:E; [|done]. apply pair_sym in Hres1.
    destruct (pair_split _ _ _ _ _ _ _ _ _ _ _ Hres1 E) as (xa & c & xb & -> & Ec).
    destruct (ok_residents _ _ _ _ _ _ nd c Hok1) as [_ Hn]; [set_solver|]. destruct Hn.
    rewrite Ec, view_app, fmap_app. set_solver. }
  destruct (readmit_ok _ k v _ _ _ _ Hr2 Hk2) as (a' & nd & Ha & Hr3 & Hs3).
  exists a1, (default ""%string r), l, h, a'. split_and!; [exact Hrep|exact Hrem|exact Ha|..].
  { rewrite (sp_cap _ _ Hs3). apply (sp_cap _ _ Hs1). }
  eexists _, _, _, _. split; [exact Hr3|]. unfold state_of. cbn [Spec.T1 Spec.T2 Spec.B1 Spec.B2 Spec.p].
  rewrite (sp_p _ _ Hs3). f_equal. rewrite !view_app. cbn. symmetry. apply drop_key_middle.
  destruct (Spec.ok_parts _ _ Hok1) as (_ & _ & _ & H1). cbn in H1. by rewrite !view_app in H1.
Qed.

Lemma handleGhostHit_ok k v a x1 x2 y1 y2 :
  rep a x1 x2 y1 y2 → Spec.ok (capacity a) (state_of a x1 x2 y1 y2) →
  match Spec.ghost_hit (capacity a) k v (state_of a x1 x2 y1 y2) with
  | Some s' => ∃ a', handleGhostHit k v a = Some (a', true) ∧ refines a' s' ∧ capacity a' = capacity a
  | None => handleGhostHit k v a = Some (a, false) ∧ b1Idx a !! k = None ∧ b2Idx a !! k = None
  end.
Proof.
  intros Hr Hok. pose proof (λ s', Spec.ok_ghost_hit _ k v _ s' Hok) as Hok'. revert Hok'.
  pose proof Hr as [_ Hg _]. assert (0 ≤ p a ≤ capacity a)%Z as Hp by apply Hok.
  unfold handleGhostHit, Spec.ghost_hit. cbn [Spec.T1 Spec.T2 Spec.B1 Spec.B2 Spec.p state_of].
  destruct (pr_chain1 _ _ _ _ _ _ _ _ _ Hg) as [_ ->]. destruct (pr_chain2 _ _ _ _ _ _ _ _ _ Hg) as [_ ->].
  assert (∀ l l', Z.max (Z.quot (Z.of_nat (length l)) (arcIntMax 1 (Z.of_nat (length l')))) 1 =
    Spec.delta (ghosts l) (ghosts l')) as Hdelta.
  { intros l l'. unfold Spec.delta, Spec.size. by rewrite !view_length, arcIntMax_max. }
  destruct (b1Idx a !! k) as [g|] eqn:E1; [|destruct (b2Idx a !! k) as [g|] eqn:E2].
  - destruct (view_Some _ (λ _, ()) _ _ _ _ _ _ _ _ _ _ Hg E1) as (ya & c & yb & _ & _ & -> & _).
    rewrite Hdelta. pose proof (Spec.delta_pos (ghosts y2) (ghosts y1)). set (n := (p a + _)%Z) in *.
    replace (if (capacity a <? n)%Z then capacity a else n) with (Z.min (capacity a) n)
      by (destruct (Z.ltb_spec (capacity a) n); lia).
    set (a0 := with_p _ a). intros Hok'. specialize (Hok' _ eq_refl).
    destruct (hit1_ok k v a0 g x1 x2 y1 y2) as (a1 & r & l & h & a' & -> & Hrem & Hadm & Ecap & z1 & z2 & w1 & w2 & Hr' & Es);
      [destruct Hr; by split|apply (Spec.ok_retarget _ _ _ Hok); cbn; lia|done|].
    cbn [mbind option_bind]. rewrite Hrem. cbn [mbind option_bind]. rewrite Hadm. cbn [mbind option_bind].
    exists a'. split; [done|]. split; [|exact Ecap]. by eapply refines_intro.
  - rewrite (arc_view_None _ (λ _, ()) _ _ _ _ _ _ _ _ _ Hg E1). apply pair_sym in Hg.
    destruct (view_Some _ (λ _, ()) _ _ _ _ _ _ _ _ _ _ Hg E2) as (ya & c & yb & _ & _ & -> & _).
    rewrite Hdelta. pose proof (Spec.delta_pos (ghosts y1) (ghosts y2)). set (n := (p a - _)%Z) in *.
    replace (if (n <? 0)%Z then 0%Z else n) with (Z.max 0 n) by (destruct (Z.ltb_spec n 0); lia).
    set (a0 := with_p _ a). intros Hok'. specialize (Hok' _ eq_refl).
    destruct (hit2_ok k v a0 g x1 x2 y1 y2) as (a1 & r & l & h & a' & -> & Hrem & Hadm & Ecap & z1 & z2 & w1 & w2 & Hr' & Es);
      [destruct Hr; by split|apply (Spec.ok_retarget _ _ _ Hok); cbn; lia|done|].
    cbn [mbind option_bind]. rewrite Hrem. cbn [mbind option_bind]. rewrite Hadm. cbn [mbind option_bind].
    exists a'. split; [done|]. split; [|exact Ecap]. by eapply refines_intro.
  - rewrite (arc_view_None _ (λ _, ()) _ _ _ _ _ _ _ _ _ Hg E1). apply pair_sym in Hg.
    by rewrite (arc_view_None _ (λ _, ()) _ _ _ _ _ _ _ _ _ Hg E2).
Qed.

(** A ghost list loses its tail, if it has one. *)
Lemma trim_ghosts h brk l1 m1 (ys : list (loc * arcGhostNode)) l2 m2 ys2 :
  pair (λ k, k) h brk l1 m1 ys l2 m2 ys2 →
  ∃ l h' m' ys', ('(l, h, t) ← removeTail l1 h;
      match t with
      | None => Some (l, h, m1)
      | Some t => n ← load (Some t) h; Some (l, h, delete (payload n) m1)
      end) = Some (l, h', m') ∧
    pair (λ k, k) h' brk l m' ys' l2 m2 ys2 ∧ ghosts ys' = Spec.drop_tail (ghosts ys).
Proof.
  intros Hp. unfold Spec.drop_tail.
  destruct (pair_removeTail _ _ _ _ _ _ _ _ _ Hp) as [[-> ->]|(ya & nd & c & l & h' & -> & -> & Hp' & Hn)];
    cbn [mbind option_bind].
  - by eexists _, _, _, [].
  - rewrite (load_Some _ _ _ Hn). cbn [mbind option_bind payload].
    eexists _, _, _, ya. split_and!; [done|done|]. rewrite view_app. cbn. by rewrite Spec.pop_tail_snoc.
Qed.

Lemma trim1_ok a x1 x2 y1 y2 :
  rep a x1 x2 y1 y2 →
  ∃ a' y1', ('(l, h, t) ← removeTail (b1 a) (gheap a);
      match t with
      | None => Some (with_b1 l h (b1Idx a) a)
      | Some t => n ← load (Some t) h; Some (with_b1 l h (delete (payload n) (b1Idx a)) a)
      end) = Some a' ∧
    rep a' x1 x2 y1' y2 ∧ ghosts y1' = Spec.drop_tail (ghosts y1) ∧ same_params a a'.
Proof.
  intros [Hr Hg Hl]. destruct (trim_ghosts _ _ _ _ _ _ _ _ Hg) as (l & h & m & ys & E & Hg' & Ey).
  exists (with_b1 l h m a), ys. split_and!; [|by split|done|done].
  destruct (removeTail (b1 a) (gheap a)) as [[[l' h'] [t|]]|]; [|by cbn in *; simplify_eq|done].
  cbn [mbind option_bind] in *. destruct (load (Some t) h'); cbn [mbind option_bind] in *; [|done].
  by simplify_eq.
Qed.

Lemma trim2_ok a x1 x2 y1 y2 :
  rep a x1 x2 y1 y2 →
  ∃ a' y2', ('(l, h, t) ← removeTail (b2 a) (gheap a);
      match t with
      | None => Some (with_b2 l h (b2Idx a) a)
      | Some t => n ← load (Some t) h; Some (with_b2 l h (delete (payload n) (b2Idx a)) a)
      end) = Some a' ∧
    rep a' x1 x2 y1 y2' ∧ ghosts y2' = Spec.drop_tail (ghosts y2) ∧ same_params a a'.
Proof.
  intros [Hr Hg Hl]. apply pair_sym in Hg.
  destruct (trim_ghosts _ _ _ _ _ _ _ _ Hg) as (l & h & m & ys & E & Hg' & Ey). apply pair_sym in Hg'.
  exists (with_b2 l h m a), ys. split_and!; [|by split|done|done].
  destruct (removeTail (b2 a) (gheap a)) as [[[l' h'] [t|]]|]; [|by cbn in *; simplify_eq|done].
  cbn [mbind option_bind] in *. destruct (load (Some t) h'); cbn [mbind option_bind] in *; [|done].
  by simplify_eq.
Qed.

Lemma sizes a x1 x2 y1 y2 :
  rep a x1 x2 y1 y2 →
  len (t1 a) = Spec.size (abs x1) ∧ len (t2 a) = Spec.size (abs x2) ∧
  len (b1 a) = Spec.size (ghosts y1) ∧ len (b2 a) = Spec.size (ghosts y2) ∧
  len_ a = (Spec.size (abs x1) + Spec.size (abs x2))%Z.
Proof.
  intros [[[_ ?] [_ ?] _ _ _ _] [[_ ?] [_ ?] _ _ _ _] ?]. unfold Spec.size. rewrite !view_length.
  split_and!; lia.
Qed.

(** The retained state after [s0] lost the tail of B2, if it did. *)
Lemma ensureCapacityForNew_ok a x1 x2 y1 y2 :
  rep a x1 x2 y1 y2 → Spec.ok (capacity a) (state_of a x1 x2 y1 y2) →
  ∃ a', ensureCapacityForNew a = Some a' ∧
    ∃ z1 z2 w1 w2, rep a' z1 z2 w1 w2 ∧ same_params a a' ∧
      state_of a' z1 z2 w1 w2 = Spec.make_room (capacity a) (state_of a x1 x2 y1 y2).
Proof.
  intros Hr Hok. destruct (sizes _ _ _ _ _ Hr) as (E1 & E2 & E3 & E4 & _).
  unfold ensureCapacityForNew, Spec.make_room, trimForHistoryLimit, trimForTotalLimit.
  cbn [Spec.T1 Spec.T2 Spec.B1 Spec.B2 Spec.p state_of]. rewrite E1, E2, E3, E4.
  destruct (capacity a <=? _)%Z; [destruct (_ <? capacity a)%Z|].
  - destruct (trim1_ok _ _ _ _ _ Hr) as (a' & y1' & -> & Hr' & Ey & Hs). exists a'. split; [done|].
    eexists _, _, _, _. split_and!; [exact Hr'|done|]. unfold state_of. by rewrite (sp_p _ _ Hs), Ey.
  - destruct (demote1_ok _ _ _ _ _ Hr) as [[-> ->]|(xa & nd & c & g & a' & -> & -> & Hr' & Hs)].
    { intros nd c Hin. destruct (ok_residents _ _ _ _ _ _ nd c Hok) as [H1 _]; [set_solver|].
      eapply view_absent; [apply Hr|done]. }
    + exists a. split; [done|]. by eexists _, _, _, _.
    + exists a'. split; [done|]. eexists _, _, _, _. split_and!; [exact Hr'|done|].
      unfold Spec.demote1, state_of. cbn [Spec.T1 Spec.T2 Spec.B1 Spec.B2 Spec.p]. rewrite view_app.
      cbn [fmap list_fmap view]. rewrite Spec.pop_tail_snoc. by rewrite (sp_p _ _ Hs).
  - assert (∃ a0 y2', (if (i64 (2 * capacity a) <=? _)%Z then _ else Some a) = Some a0 ∧
      rep a0 x1 x2 y1 y2' ∧ same_params a a0 ∧ Spec.ok (capacity a) (state_of a0 x1 x2 y1 y2') ∧
      state_of a0 x1 x2 y1 y2' = if (i64 (2 * capacity a) <=? Spec.size (abs x1) + Spec.size (abs x2) +
        Spec.size (ghosts y1) + Spec.size (ghosts y2))%Z
        then Spec.St (p a) (abs x1) (abs x2) (ghosts y1) (Spec.drop_tail (ghosts y2))
        else state_of a x1 x2 y1 y2) as (a0 & y2' & -> & Hr0 & Hs0 & Hok0 & Es).
    { destruct (i64 _ <=? _)%Z; [|by exists a, y2].
      destruct (trim2_ok _ _ _ _ _ Hr) as (a' & y2' & -> & Hr' & Ey & Hs). exists a', y2'.
      assert (state_of a' x1 x2 y1 y2' = Spec.St (p a) (abs x1) (abs x2) (ghosts y1) (Spec.drop_tail (ghosts y2)))
        as Es by (unfold state_of; by rewrite (sp_p _ _ Hs), Ey).
      split_and!; [done|done|done| |done]. rewrite Es. exact (Spec.ok_trim2 _ _ Hok). }
    cbn [mbind option_bind]. rewrite <- Es.
    destruct (replace_ok "" _ _ _ _ _ Hr0) as (a1 & r & x1' & x2' & l1 & l2 & -> & -> & Hr1 & Hs1).
    { by rewrite (sp_cap _ _ Hs0). }
    cbn [mbind option_bind fst]. exists a1. split; [done|]. eexists _, _, _, _. split_and!; [exact Hr1| |done].
    split; [by rewrite (sp_cap _ _ Hs1), (sp_cap _ _ Hs0)|by rewrite (sp_p _ _ Hs1), (sp_p _ _ Hs0)].
Qed.

Lemma Set_ok k v a s :
  refines a s → ∃ a', Set_ k v a = Some a' ∧ refines a' (Spec.set (capacity a) k v s) ∧ capacity a' = capacity a.
Proof.
  intros (x1 & x2 & y1 & y2 & Hr & -> & Hok). pose proof (Spec.ok_set _ k v _ Hok) as Hok'. revert Hok'.
  unfold Set_, Spec.set. destruct (capacity a =? 0)%Z.
  { intros _. exists a. split; [done|]. split; [|done]. by exists x1, x2, y1, y2. }
  pose proof (updateIfResident_ok k v _ _ _ _ _ Hr Hok) as Hu.
  pose proof (handleGhostHit_ok k v _ _ _ _ _ Hr Hok) as Hg.
  destruct (Spec.update k v _).
  { intros _. destruct Hu as (a' & -> & Hr' & Ec). cbn. by exists a'. }
  destruct Hu as (-> & Hk1 & Hk2). cbn [mbind option_bind].
  destruct (Spec.ghost_hit _ k v _).
  { intros _. destruct Hg as (a' & -> & Hr' & Ec). cbn. by exists a'. }
  destruct Hg as (-> & Hk3 & Hk4). cbn [mbind option_bind]. intros Hok'. unfold insertNew.
  destruct (sizes _ _ _ _ _ Hr) as (_ & _ & _ & _ & ->).
  assert (∃ a0 z1 z2 w1 w2, (if (capacity a <=? Spec.size (abs x1) + Spec.size (abs x2))%Z
      then ensureCapacityForNew a else Some a) = Some a0 ∧ rep a0 z1 z2 w1 w2 ∧ same_params a a0 ∧
    state_of a0 z1 z2 w1 w2 = if (capacity a <=? Spec.size (abs x1) + Spec.size (abs x2))%Z
      then Spec.make_room (capacity a) (state_of a x1 x2 y1 y2) else state_of a x1 x2 y1 y2)
    as (a0 & z1 & z2 & w1 & w2 & -> & Hr0 & Hs0 & Es).
  { destruct (capacity a <=? _)%Z; [|by exists a, x1, x2, y1, y2].
    destruct (ensureCapacityForNew_ok _ _ _ _ _ Hr Hok) as (a0 & -> & z1 & z2 & w1 & w2 & ? & ? & ?).
    by exists a0, z1, z2, w1, w2. }
  cbn [mbind option_bind]. unfold Spec.insert in *. cbn [Spec.T1 Spec.T2 state_of] in *. rewrite <- Es in *.
  cbn [Spec.T1 Spec.T2 Spec.B1 Spec.B2 Spec.p state_of] in Hok' |- *.
  assert (t1Idx a0 !! k = None) as Hk.
  { eapply view_absent; [apply Hr0|]. destruct Hok' as [Hn _]. unfold Spec.keys in Hn. cbn in Hn.
    apply NoDup_cons in Hn as [Hn _]. intros Hin. apply Hn. apply elem_of_app. by left. }
  destruct (insert_ok a0 k v _ _ _ _ Hr0 Hk) as (a' & nd & Hrun & Hr' & Hs'). exists a'. split; [exact Hrun|].
  assert (capacity a' = capacity a) as Ec by (by rewrite (sp_cap _ _ Hs'), (sp_cap _ _ Hs0)).
  split; [|done]. eapply refines_intro; [exact Hr'| |exact Hok'|done].
  unfold state_of. by rewrite (sp_p _ _ Hs').
Qed.

Lemma Delete_ok k a s :
  refines a s → ∃ a', Delete k a = Some a' ∧ refines a' (Spec.delete k s) ∧ capacity a' = capacity a.
Proof.
  intros (x1 & x2 & y1 & y2 & Hr & -> & Hok). pose proof (Spec.ok_delete _ k _ Hok) as Hok'. revert Hok'.
  pose proof Hr as [Hres Hg Hl]. unfold Delete, Spec.delete. cbn [Spec.T1 Spec.T2 Spec.B1 Spec.B2 Spec.p state_of].
  destruct (t1Idx a !! k) as [nd|] eqn:E1.
  { destruct (view_Some _ value _ _ _ _ _ _ _ _ _ _ Hres E1) as (xa & c & xb & -> & <- & -> & ->).
    destruct (pair_remove _ _ _ _ _ _ _ _ _ _ _ _ Hres) as (l & h & -> & Hr' & _). cbn. intros Hok'.
    eexists. split; [done|]. split; [|done]. eapply refines_intro; [|done|exact Hok'|done].
    split; cbn; [done|done|]. rewrite Hl, !length_app. cbn. lia. }
  rewrite (arc_view_None _ value _ _ _ _ _ _ _ _ _ Hres E1). apply pair_sym in Hres.
  destruct (t2Idx a !! k) as [nd|] eqn:E2.
  { destruct (view_Some _ value _ _ _ _ _ _ _ _ _ _ Hres E2) as (xa & c & xb & -> & <- & -> & ->).
    destruct (pair_remove _ _ _ _ _ _ _ _ _ _ _ _ Hres) as (l & h & -> & Hr' & _). cbn. intros Hok'.
    eexists. split; [done|]. split; [|done]. eapply refines_intro; [|done|exact Hok'|done].
    split; cbn; [by apply pair_sym|done|]. rewrite Hl, !length_app. cbn. lia. }
  rewrite (arc_view_None _ value _ _ _ _ _ _ _ _ _ Hres E2). apply pair_sym in Hres.
  destruct (b1Idx a !! k) as [g|] eqn:E3.
  { destruct (view_Some _ (λ _, ()) _ _ _ _ _ _ _ _ _ _ Hg E3) as (ya & c & yb & -> & Ec & -> & ->). cbn in Ec. subst c.
    destruct (pair_remove _ _ _ _ _ _ _ _ _ _ _ _ Hg) as (l & h & -> & Hg' & _). cbn. intros Hok'.
    eexists. split; [done|]. split; [|done]. eapply refines_intro; [|done|exact Hok'|done]. by split. }
  rewrite (arc_view_None _ (λ _, ()) _ _ _ _ _ _ _ _ _ Hg E3). apply pair_sym in Hg.
  destruct (b2Idx a !! k) as [g|] eqn:E4.
  { destruct (view_Some _ (λ _, ()) _ _ _ _ _ _ _ _ _ _ Hg E4) as (ya & c & yb & -> & Ec & -> & ->). cbn in Ec. subst c.
    destruct (pair_remove _ _ _ _ _ _ _ _ _ _ _ _ Hg) as (l & h & -> & Hg' & _). cbn. intros Hok'.
    eexists. split; [done|]. split; [|done]. eapply refines_intro; [|done|exact Hok'|done].
    split; cbn; [done|by apply pair_sym|done]. }
  rewrite (arc_view_None _ (λ _, ()) _ _ _ _ _ _ _ _ _ Hg E4). intros Hok'.
  exists a. split; [done|]. split; [|done]. by exists x1, x2, y1, y2.
Qed.

Lemma Evict_ok a s :
  refines a s → ∃ a', Evict a = Some (a', (Spec.evict (capacity a) s).2) ∧
    refines a' (Spec.evict (capacity a) s).1 ∧ capacity a' = capacity a.
Proof.
  intros (x1 & x2 & y1 & y2 & Hr & -> & Hok). pose proof (Spec.ok_evict _ _ Hok) as Hok'. revert Hok'.
  unfold Evict, Spec.evict. cbn [Spec.T1 Spec.T2 state_of].
  destruct (sizes _ _ _ _ _ Hr) as (_ & _ & _ & _ & ->). destruct (_ || _).
  { intros _. exists a. split; [done|]. split; [|done]. by exists x1, x2, y1, y2. }
  destruct (replace_ok "" _ _ _ _ _ Hr Hok) as (a1 & r & x1' & x2' & l1 & l2 & -> & -> & Hr1 & Hs1).
  cbn [mbind option_bind]. intros Hok'. exists a1.
  assert (∀ x, Spec.ok (capacity a) (state_of a1 x1' x2' (l1 ++ y1) (l2 ++ y2), x : string * bool).1 →
    refines a1 (state_of a1 x1' x2' (l1 ++ y1) (l2 ++ y2)) ∧ capacity a1 = capacity a) as Hfin.
  { intros x Hx. split; [|apply Hs1]. by eapply refines_intro; [..|apply Hs1]. }
  destruct r as [k|]; cbn [from_option id] in *; case_decide; try done;
    (split; [done|exact (Hfin _ Hok')]).
Qed.

Lemma step_ok o a s :
  refines a s → ∃ a', step o a = Some (a', (Spec.step (capacity a) o s).2) ∧
    refines a' (Spec.step (capacity a) o s).1 ∧ capacity a' = capacity a.
Proof.
  intros Hr. destruct o as [k|pick k v| |k]; cbn.
  - destruct (arc_Get_ok k a s Hr) as (a' & -> & ? & ?). cbn. exists a'. by destruct (Spec.get k s).
  - destruct (Set_ok k v a s Hr) as (a' & -> & ? & ?). cbn. by exists a'.
  - destruct (Evict_ok a s Hr) as (a' & -> & ? & ?). cbn. exists a'. by destruct (Spec.evict _ s).
  - destruct (Delete_ok k a s Hr) as (a' & -> & ? & ?). cbn. by exists a'.
Qed.

Lemma run_ok os a s :
  refines a s → ∃ a', run os a = Some (a', (Spec.run (capacity a) os s).2) ∧
    refines a' (Spec.run (capacity a) os s).1 ∧ capacity a' = capacity a.
Proof.
  revert a s. induction os as [|o os IH]; intros a s Hr; cbn; [eauto|].
  destruct (step_ok o a s Hr) as (a1 & -> & Hr1 & Ec1). cbn [mbind option_bind fst snd].
  destruct (Spec.step _ o s) as [s1 r1]. cbn [fst snd] in *.
  destruct (IH a1 s1 Hr1) as (a2 & -> & Hr2 & Ec2). rewrite Ec1 in *. cbn [mbind option_bind fst snd].
  destruct (Spec.run _ os s1) as [s2 rs]. cbn [fst snd] in *. by exists a2.
Qed.

Lemma New_refines c a : NewARCAlgorithm c = Ok a → refines a Spec.init ∧ capacity a = c.
Proof.
  unfold NewARCAlgorithm. destruct (Z.ltb_spec c 0); [done|]. intros [= <-]. split; [|done].
  exists [], [], [], []. split_and!; [|done|].
  - split; cbn; [apply pair_empty|apply pair_empty|done].
  - split; [apply NoDup_nil_2|cbn; lia].
Qed.

(** ** What the answers mean *)

(** [h] is what the callers know; the residents agree with it (a cache of capacity
    zero has none). *)
Definition known (cap : Z) (h : gmap string any) (s : Spec.state) : Prop :=
  (cap = 0%Z → Spec.T1 s ++ Spec.T2 s = []) ∧
  ∀ k v, (k, v) ∈ Spec.T1 s ++ Spec.T2 s → h !! k = Some v.

Lemma demote_known s kv :
  kv ∈ Spec.T1 (Spec.demote1 s).1 ++ Spec.T2 (Spec.demote1 s).1 ∨
  kv ∈ Spec.T1 (Spec.demote2 s).1 ++ Spec.T2 (Spec.demote2 s).1 → kv ∈ Spec.T1 s ++ Spec.T2 s.
Proof.
  unfold Spec.demote1, Spec.demote2.
  destruct (Spec.pop_tail_cases (Spec.T1 s)) as [[_ ->]|(l & [k v] & E1 & ->)];
    destruct (Spec.pop_tail_cases (Spec.T2 s)) as [[_ ->]|(l' & [k' v'] & E2 & ->)];
    cbn; rewrite ?E1, ?E2; set_solver.
Qed.

Lemma replace_known x s kv :
  kv ∈ Spec.T1 (Spec.replace x s).1 ++ Spec.T2 (Spec.replace x s).1 → kv ∈ Spec.T1 s ++ Spec.T2 s.
Proof. unfold Spec.replace. intros H. apply demote_known. destruct (_ && _); eauto. Qed.

Lemma replace_victim x s s' k :
  Spec.replace x s = (s', Some k) → k ∈ (Spec.T1 s ++ Spec.T2 s).*1 ∧ k ∈ (Spec.B1 s').*1 ++ (Spec.B2 s').*1.
Proof.
  unfold Spec.replace, Spec.demote1, Spec.demote2. rewrite fmap_app.
  destruct (_ && _).
  - destruct (Spec.pop_tail_cases (Spec.T1 s)) as [[_ ->]|(l & [k' v] & E & ->)]; [done|].
    intros [= <- <-]. rewrite E, fmap_app. set_solver.
  - destruct (Spec.pop_tail_cases (Spec.T2 s)) as [[_ ->]|(l & [k' v] & E & ->)]; [done|].
    intros [= <- <-]. rewrite E, fmap_app. set_solver.
Qed.

Lemma drop_key_sub {B} k (kv : string * B) l : kv ∈ drop_key k l → kv ∈ l ∧ kv.1 ≠ k.
Proof. apply elem_of_drop_key. Qed.

Lemma make_room_known cap s kv :
  kv ∈ Spec.T1 (Spec.make_room cap s) ++ Spec.T2 (Spec.make_room cap s) → kv ∈ Spec.T1 s ++ Spec.T2 s.
Proof.
  unfold Spec.make_room. destruct (cap <=? _)%Z; [destruct (_ <? cap)%Z; [done|]|].
  - intros H. apply demote_known. by left.
  - intros H%replace_known. by destruct (i64 _ <=? _)%Z.
Qed.

(** New residents come from the old ones or are the pair just set. *)
Lemma known_set cap h s s' k v :
  known cap h s → cap ≠ 0%Z →
  (∀ kv, kv ∈ Spec.T1 s' ++ Spec.T2 s' → kv = (k, v) ∨ kv ∈ Spec.T1 s ++ Spec.T2 s ∧ kv.1 ≠ k) →
  known cap (<[k := v]> h) s'.
Proof.
  intros [_ Hh] Hc Hs. split; [done|]. intros k' v' [[= -> ->]|[Hin Hne]]%Hs; [apply lookup_insert_eq|].
  rewrite lookup_insert_ne by done. by apply Hh.
Qed.

Lemma ghost_not_resident cap s k kv :
  Spec.ok cap s → k ∈ (Spec.B1 s).*1 ++ (Spec.B2 s).*1 → kv ∈ Spec.T1 s ++ Spec.T2 s → kv.1 ≠ k.
Proof.
  intros [Hn _] Hk Hin <-. unfold Spec.keys in Hn. rewrite app_assoc, <- fmap_app in Hn.
  apply NoDup_app in Hn as (_ & Hd & _). apply (Hd kv.1); [|done]. by apply list_elem_of_fmap_2.
Qed.

Lemma in_keys {B} k (v : B) l : assoc k l = Some v → k ∈ l.*1.
Proof. intros Hk%assoc_Some_in. by apply (list_elem_of_fmap_2 fst) in Hk. Qed.

Lemma update_known cap k v s s' kv :
  Spec.ok cap s → Spec.update k v s = Some s' → kv ∈ Spec.T1 s' ++ Spec.T2 s' →
  kv = (k, v) ∨ kv ∈ Spec.T1 s ++ Spec.T2 s ∧ kv.1 ≠ k.
Proof.
  intros [Hn _]. unfold Spec.keys in Hn. apply NoDup_app in Hn as (_ & Hd & _). unfold Spec.update.
  destruct (assoc k (Spec.T1 s)) as [w|] eqn:E1.
  - intros [= <-]. cbn. rewrite !elem_of_app, elem_of_cons. intros [[Hin Hne]%drop_key_sub|[->|Hin]]; [auto..|].
    right. split; [auto|]. intros <-. apply (Hd kv.1); [by eapply in_keys|]. apply elem_of_app. left.
    by apply list_elem_of_fmap_2.
  - destruct (assoc k (Spec.T2 s)) as [w|] eqn:E2; [|done]. intros [= <-]. cbn.
    rewrite !elem_of_app, elem_of_cons. intros [Hin|[->|[Hin Hne]%drop_key_sub]]; [|auto..].
    right. split; [auto|]. intros <-. apply Spec.assoc_None_notin in E1. apply E1. by apply list_elem_of_fmap_2.
Qed.

Lemma ghost_hit_known cap k v s s' kv :
  Spec.ok cap s → Spec.ghost_hit cap k v s = Some s' → kv ∈ Spec.T1 s' ++ Spec.T2 s' →
  kv = (k, v) ∨ kv ∈ Spec.T1 s ++ Spec.T2 s ∧ kv.1 ≠ k.
Proof.
  intros Hok. unfold Spec.ghost_hit.
  assert (∀ q, k ∈ (Spec.B1 s).*1 ++ (Spec.B2 s).*1 →
    let s0 := (Spec.replace k (Spec.St q (Spec.T1 s) (Spec.T2 s) (Spec.B1 s) (Spec.B2 s))).1 in
    kv ∈ Spec.T1 s0 ++ (k, v) :: Spec.T2 s0 → kv = (k, v) ∨ kv ∈ Spec.T1 s ++ Spec.T2 s ∧ kv.1 ≠ k) as Hgen.
  { intros q Hk. cbn zeta. rewrite elem_of_app, elem_of_cons. intros Hin.
    destruct (decide (kv = (k, v))) as [|Hne]; [by left|]. right.
    assert (kv ∈ Spec.T1 s ++ Spec.T2 s) as Hin'.
    { eapply (replace_known k (Spec.St q _ _ _ _)), elem_of_app. destruct Hin as [?|[?|?]]; [by left|done|by right]. }
    split; [done|]. by eapply ghost_not_resident. }
  destruct (assoc k (Spec.B1 s)) as [w|] eqn:E1; [|destruct (assoc k (Spec.B2 s)) as [w|] eqn:E2; [|done]];
    intros [= <-]; apply Hgen; apply elem_of_app; [left|right]; by eapply in_keys.
Qed.

Lemma set_known cap k v s h :
  Spec.ok cap s → known cap h s → known cap (<[k := v]> h) (Spec.set cap k v s).
Proof.
  intros Hok Hh. unfold Spec.set. destruct (Z.eqb_spec cap 0) as [->|Hc].
  { destruct Hh as [He Hh]. split; [done|]. rewrite He by done. by intros ?? ?%elem_of_nil. }
  destruct (Spec.update k v s) as [s'|] eqn:Eu.
  { eapply known_set; [done|done|]. intros kv. by eapply update_known. }
  destruct (Spec.ghost_hit cap k v s) as [s'|] eqn:Eg.
  { eapply known_set; [done|done|]. intros kv. by eapply ghost_hit_known. }
  assert (k ∉ Spec.keys s) as Hk.
  { unfold Spec.update, Spec.ghost_hit in *. apply Spec.not_in_keys; by repeat destruct (assoc _ _). }
  eapply known_set; [done|done|]. unfold Spec.insert. cbn. intros kv [->|Hin]%elem_of_cons; [by left|].
  assert (kv ∈ Spec.T1 s ++ Spec.T2 s) as Hin'.
  { destruct (cap <=? _)%Z; [by eapply make_room_known|done]. }
  right. split; [done|]. intros <-. apply Hk. unfold Spec.keys. rewrite app_assoc, <- fmap_app.
  apply elem_of_app. left. by apply list_elem_of_fmap_2.
Qed.

Lemma known_sub cap h s s' :
  known cap h s → (∀ kv, kv ∈ Spec.T1 s' ++ Spec.T2 s' → kv ∈ Spec.T1 s ++ Spec.T2 s) → known cap h s'.
Proof.
  intros [He Hh] Hs. split; [|by intros k v ?%Hs; apply Hh].
  intros Hc%He. destruct (Spec.T1 s' ++ Spec.T2 s') as [|kv l]; [done|].
  assert (kv ∈ Spec.T1 s ++ Spec.T2 s) as Hin by (apply Hs; by left). rewrite Hc in Hin.
  by apply elem_of_nil in Hin.
Qed.

Lemma known_delete cap h s k :
  known cap h s → k ∉ (Spec.T1 s ++ Spec.T2 s).*1 → known cap (delete k h) s.
Proof.
  intros [He Hh] Hk. split; [done|]. intros k' v Hin. rewrite lookup_delete_ne; [by apply Hh|].
  intros ->. apply Hk. by apply (list_elem_of_fmap_2 fst) in Hin.
Qed.

Lemma get_answer cap k s h :
  Spec.ok cap s → known cap h s →
  answer_ok (OGet k) (RGet (Spec.get k s).2) h ∧ known cap h (Spec.get k s).1.
Proof.
  intros Hok Hh. unfold Spec.get. destruct (assoc k (Spec.T1 s)) as [v|] eqn:E1; cbn.
  - assert ((k, v) ∈ Spec.T1 s) as Hin by (by apply assoc_Some_in). split.
    { apply Hh. apply elem_of_app. by left. }
    eapply known_sub; [done|]. cbn. intros kv. rewrite !elem_of_app, elem_of_cons.
    intros [[? _]%drop_key_sub|[->|?]]; auto.
  - destruct (assoc k (Spec.T2 s)) as [v|] eqn:E2; cbn; [|done].
    assert ((k, v) ∈ Spec.T2 s) as Hin by (by apply assoc_Some_in). split.
    { apply Hh. apply elem_of_app. by right. }
    eapply known_sub; [done|]. cbn. intros kv. rewrite !elem_of_app, elem_of_cons.
    intros [?|[->|[? _]%drop_key_sub]]; auto.
Qed.

Lemma delete_gone cap k s : Spec.ok cap s → k ∉ (Spec.T1 (Spec.delete k s) ++ Spec.T2 (Spec.delete k s)).*1.
Proof.
  intros Hok. pose proof Hok as [Hn _]. unfold Spec.keys in Hn. apply NoDup_app in Hn as (_ & Hd & _).
  unfold Spec.delete. rewrite fmap_app, elem_of_app.
  destruct (assoc k (Spec.T1 s)) as [v|] eqn:E1; cbn.
  { intros [H|H]; [by eapply drop_key_fst_notin|]. apply (Hd k); [by eapply in_keys|]. apply elem_of_app. by left. }
  apply Spec.assoc_None_notin in E1. destruct (assoc k (Spec.T2 s)) as [v|] eqn:E2; cbn.
  { intros [H|H]; [done|]. by eapply drop_key_fst_notin. }
  apply Spec.assoc_None_notin in E2.
  destruct (assoc k (Spec.B1 s)); [|destruct (assoc k (Spec.B2 s))]; cbn; by intros [|].
Qed.

Lemma step_known cap o s h :
  Spec.ok cap s → known cap h s →
  answer_ok o (Spec.step cap o s).2 h ∧ known cap (history_step o (Spec.step cap o s).2 h) (Spec.step cap o s).1.
Proof.
  intros Hok Hh. destruct o as [k|pick k v| |k]; cbn [Spec.step].
  - pose proof (get_answer cap k s h Hok Hh). by destruct (Spec.get k s) as [? [? []]].
  - split; [done|]. by apply set_known.
  - unfold Spec.evict. destruct (_ || _); [done|].
    pose proof (Spec.ok_replace cap "" s Hok) as Hok'.
    pose proof (known_sub _ _ _ _ Hh (replace_known "" s)) as Hh'.
    destruct (Spec.replace "" s) as [s' [k|]] eqn:Er; cbn [fst snd] in *; [|done].
    case_decide; [done|]. cbn. destruct (replace_victim _ _ _ _ Er) as [Hv Hg]. split.
    + apply list_elem_of_fmap in Hv as ([k' v] & -> & Hin). apply Hh in Hin. by eexists.
    + apply known_delete; [done|]. intros ([k' v] & Ek & Hin)%list_elem_of_fmap.
      by apply (ghost_not_resident cap s' k (k', v)).
  - split; [done|]. cbn. apply known_delete; [|by eapply delete_gone].
    eapply known_sub; [done|]. unfold Spec.delete. intros kv. rewrite !elem_of_app.
    repeat (destruct (assoc _ _); [|]); cbn; intros [H|H]; try apply drop_key_sub in H as [? _]; auto.
Qed.

Lemma spec_run_known cap os s h :
  Spec.ok cap s → known cap h s →
  answers_ok os (Spec.run cap os s).2 h ∧ Spec.ok cap (Spec.run cap os s).1.
Proof.
  revert s h. induction os as [|o os IH]; intros s h Hok Hh; cbn [Spec.run]; [done|].
  destruct (step_known cap o s h Hok Hh) as [Ha Hh']. pose proof (Spec.ok_step cap o s Hok) as Hok'.
  destruct (Spec.step cap o s) as [s' r]. cbn [fst snd] in *.
  destruct (IH s' _ Hok' Hh') as [Has Hok2]. destruct (Spec.run cap os s') as [s2 rs]. by split; [split|].
Qed.

(** ** The residents are unbounded

    A scan fills B1 without bound, because a full T1 sends its tail there and
    nothing is trimmed; later inserts then pay with one of those ghosts instead of
    a resident. *)

Definition reach (cap : Z) (s s' : Spec.state) : Prop := ∃ os, (Spec.run cap os s).1 = s'.

Lemma reach_refl cap s : reach cap s s.
Proof. by exists []. Qed.

Lemma spec_run_app cap os os' s :
  (Spec.run cap (os ++ os') s).1 = (Spec.run cap os' (Spec.run cap os s).1).1.
Proof.
  revert s. induction os as [|o os IH]; intros s; cbn; [done|]. destruct (Spec.step cap o s) as [s1 r].
  specialize (IH s1). destruct (Spec.run cap (os ++ os') s1), (Spec.run cap os s1). done.
Qed.

Lemma reach_snoc cap o s s' : reach cap s s' → reach cap s (Spec.step cap o s').1.
Proof.
  intros [os <-]. exists (os ++ [o]). rewrite spec_run_app. cbn. by destruct (Spec.step cap o _).
Qed.

Lemma set_fresh cap k v s :
  cap ≠ 0%Z → k ∉ Spec.keys s → Spec.set cap k v s = Spec.insert cap k v s.
Proof.
  intros Hc Hk. unfold Spec.set. destruct (Z.eqb_spec cap 0); [done|].
  assert (∀ B (l : list (string * B)), k ∉ l.*1 → assoc k l = None) as Hn by (intros; by apply assoc_notin).
  unfold Spec.keys in Hk. rewrite !not_elem_of_app in Hk. destruct Hk as (H1 & H2 & H3 & H4).
  unfold Spec.update, Spec.ghost_hit. by rewrite !Hn.
Qed.

(** The lengths of the lists. *)
Definition shape (s : Spec.state) (n1 n2 m1 : nat) : Prop :=
  length (Spec.T1 s) = n1 ∧ length (Spec.T2 s) = n2 ∧ length (Spec.B1 s) = m1.

Section Unbounded.
Context (c : nat) (Hc : 0 < c).
#[local] Abbreviation cap := (Z.of_nat c).

(** States the machine gets to from the empty one. *)
Definition reached (s : Spec.state) : Prop := reach cap Spec.init s ∧ Spec.ok cap s.

Lemma reached_init : reached Spec.init.
Proof. split; [apply reach_refl|]. split; [apply NoDup_nil_2|cbn; lia]. Qed.

Lemma reached_step o s : reached s → reached (Spec.step cap o s).1.
Proof. intros [Hr Hok]. split; [by apply reach_snoc|by apply Spec.ok_step]. Qed.

(** One fresh key: the state after it. *)
Lemma reached_insert s : reached s → ∃ x, x ∉ Spec.keys s ∧ reached (Spec.insert cap x ANil s).
Proof.
  intros Hr. destruct (exist_fresh (list_to_set (Spec.keys s) : gset string)) as [x Hx].
  rewrite elem_of_list_to_set in Hx. exists x. split; [done|].
  pose proof (reached_step (OSet 0 x ANil) s Hr) as Hr'. cbn in Hr'.
  by rewrite set_fresh in Hr' by (done || lia).
Qed.

(** A scan: T1 fills up, then B1 grows. *)
Lemma scan_fill n : n ≤ c → ∃ s, reached s ∧ shape s n 0 0.
Proof.
  induction n as [|n IH]; intros Hle; [exists Spec.init; split; [apply reached_init|done]|].
  destruct IH as (s & Hr & H1 & H2 & H3); [lia|]. destruct (reached_insert s Hr) as (x & _ & Hr').
  eexists. split; [exact Hr'|]. unfold Spec.insert, Spec.size. rewrite H1, H2.
  destruct (Z.leb_spec cap (Z.of_nat n + Z.of_nat 0)); [lia|]. split_and!; cbn; lia.
Qed.

Lemma scan_grow m : ∃ s, reached s ∧ shape s c 0 m.
Proof.
  induction m as [|m (s & Hr & H1 & H2 & H3)]; [by apply scan_fill|].
  destruct (reached_insert s Hr) as (x & _ & Hr'). eexists. split; [exact Hr'|].
  unfold Spec.insert, Spec.make_room, Spec.size, Spec.demote1. rewrite H1, H2, H3.
  destruct (Z.leb_spec cap (Z.of_nat c + Z.of_nat 0)); [|lia].
  destruct (Z.leb_spec cap (Z.of_nat c + Z.of_nat m)); [|lia]. rewrite Z.ltb_irrefl.
  destruct (Spec.pop_tail_cases (Spec.T1 s)) as [[E _]|(l & [k v] & E & ->)]; rewrite E in H1.
  { cbn in H1. lia. }
  rewrite length_app in H1. cbn in *. split_and!; cbn; lia.
Qed.

(** Reading a key of T1 moves it to T2. *)
Lemma read_one s n1 n2 m1 :
  reached s → shape s (S n1) n2 m1 → ∃ s', reached s' ∧ shape s' n1 (S n2) m1.
Proof.
  intros Hr (H1 & H2 & H3). destruct (Spec.T1 s) as [|[k v] l] eqn:E; [done|].
  exists (Spec.step cap (OGet k) s).1. split; [by apply reached_step|].
  assert (assoc k (Spec.T1 s) = Some v) as Hk by (rewrite E; cbn; by rewrite decide_True).
  destruct (Spec.ok_parts _ _ (proj2 Hr)) as (Hn & _).
  pose proof (Permutation_length (Spec.take_perm _ _ _ Hn Hk)) as Hl. rewrite <- E in H1.
  cbn [length] in Hl. cbn [Spec.step]. unfold Spec.get. rewrite Hk.
  split_and!; cbn [fst Spec.T1 Spec.T2 Spec.B1 length]; lia.
Qed.

Lemma read_all n1 n2 m1 s :
  reached s → shape s n1 n2 m1 → ∃ s', reached s' ∧ shape s' 0 (n1 + n2) m1.
Proof.
  revert n2 s. induction n1 as [|n1 IH]; intros n2 s Hr Hs; [eauto|].
  destruct (read_one _ _ _ _ Hr Hs) as (s1 & Hr1 & Hs1). destruct (IH _ _ Hr1 Hs1) as (s2 & Hr2 & Hs2).
  exists s2. split; [done|]. by replace (S n1 + n2) with (n1 + S n2) by lia.
Qed.

(** With T1 empty and enough ghosts, an insert removes no resident. *)
Lemma insert_free s n2 m1 :
  reached s → shape s 0 n2 (S m1) → c ≤ n2 → c ≤ S m1 → ∃ s', reached s' ∧ shape s' 1 n2 m1.
Proof.
  intros Hr (H1 & H2 & H3) Hn Hm. destruct (reached_insert s Hr) as (x & _ & Hr'). eexists. split; [exact Hr'|].
  unfold Spec.insert, Spec.make_room, Spec.size. rewrite H1, H2, H3.
  destruct (Z.leb_spec cap (Z.of_nat 0 + Z.of_nat n2)); [|lia].
  destruct (Z.leb_spec cap (Z.of_nat 0 + Z.of_nat (S m1))); [|lia].
  destruct (Z.ltb_spec (Z.of_nat 0) cap); [|lia]. cbn. unfold Spec.drop_tail.
  destruct (Spec.pop_tail_cases (Spec.B1 s)) as [[E _]|(l & k & E & ->)]; rewrite E in H3; [done|].
  rewrite length_app in H3. cbn in *. split_and!; cbn; lia.
Qed.

Lemma grow n : ∃ s, reached s ∧ shape s 0 (c + n) c.
Proof.
  assert (∀ m, ∃ s, reached s ∧ shape s 0 (c + n) (c + m)) as Hgen; [|specialize (Hgen 0); by rewrite Nat.add_0_r in Hgen].
  induction n as [|n IH]; intros m.
  - destruct (scan_grow (c + m)) as (s & Hr & Hs). by apply (read_all c 0 _ s).
  - destruct (IH (S m)) as (s & Hr & Hs). rewrite Nat.add_succ_r in Hs.
    destruct (insert_free _ _ _ Hr Hs) as (s1 & Hr1 & Hs1); [lia..|].
    destruct (read_one _ _ _ _ Hr1 Hs1) as (s2 & ? & Hs2). exists s2. split; [done|]. by replace (c + S n) with (S (c + n)) by lia.
Qed.

End Unbounded.

(** ** The claims *)

(** C33: For every sequence of calls, the pointer code of ARC (four linked lists,
    four indexes, the adaptive target) runs without a nil dereference and answers
    exactly as the list machine [Spec], whose state it keeps representing. *)
Theorem arc_refinement (c : Z) (a : ARC) (os : list op) :
  NewARCAlgorithm c = Ok a →
  ∃ a', run os a = Some (a', (Spec.run c os Spec.init).2) ∧ refines a' (Spec.run c os Spec.init).1.
Proof.
  intros Hn. destruct (New_refines c a Hn) as [Hr <-].
  destruct (run_ok os a Spec.init Hr) as (a' & ? & ? & _). by exists a'.
Qed.

Definition sample_ops : list op :=
  [OSet 0 "a" (AString "x"); OSet 0 "b" (AString "y"); OGet "a"; OSet 0 "c" (AString "z"); OEvict;
   OSet 0 "b" (AString "w"); ODelete "a"; OGet "b"].

Lemma arc_refinement_witness :
  ∃ a a', NewARCAlgorithm 2 = Ok a ∧ run sample_ops a = Some (a', (Spec.run 2 sample_ops Spec.init).2).
Proof.
  destruct (NewARCAlgorithm 2) as [a|] eqn:E; [|done].
  destruct (arc_refinement 2 a sample_ops E) as (a' & Hrun & _). by exists a, a'.
Defined.

(** ARC's answers can be trusted for every history of calls: a hit returns the
    last value set for the key, an eviction names a key that may be held, a key
    deleted or reported as evicted is not served again; the target [p] stays
    within the capacity and no key is in two of the four lists. *)
Theorem arc_sound (c : Z) (a : ARC) (os : list op) :
  NewARCAlgorithm c = Ok a →
  ∃ a' rs x1 x2 y1 y2, run os a = Some (a', rs) ∧ answers_ok os rs ∅ ∧ rep a' x1 x2 y1 y2 ∧
    (0 ≤ p a' ≤ c)%Z ∧ NoDup (Spec.keys (state_of a' x1 x2 y1 y2)).
Proof.
  intros Hn. destruct (New_refines c a Hn) as [Hr <-].
  destruct (run_ok os a Spec.init Hr) as (a' & Hrun & (x1 & x2 & y1 & y2 & Hr' & Es & _) & _).
  destruct (spec_run_known (capacity a) os Spec.init ∅) as [Ha Hok].
  { by destruct Hr as (? & ? & ? & ? & _ & -> & ?). }
  { split; [done|]. by intros ?? ?%elem_of_nil. }
  rewrite Es in Hok. eexists a', _, x1, x2, y1, y2. split_and!; [exact Hrun|done|done|apply Hok..].
Qed.

Lemma arc_sound_witness :
  ∃ a a' rs, NewARCAlgorithm 2 = Ok a ∧ run sample_ops a = Some (a', rs) ∧ answers_ok sample_ops rs ∅.
Proof.
  destruct (NewARCAlgorithm 2) as [a|] eqn:E; [|done].
  destruct (arc_sound 2 a sample_ops E) as (a' & rs & _ & _ & _ & _ & Hrun & Ha & _). by exists a, a', rs.
Defined.

(** ARC does not bound what it tracks: for every positive capacity and every
    [n] there is a sequence of calls after which more than [n] keys are resident.
    (A scan leaves an unbounded ghost list B1, and each later insert then drops a
    ghost instead of a resident.) *)
Theorem arc_residents_unbounded (c : Z) (n : nat) :
  (0 < c)%Z → ∃ a a' os rs, NewARCAlgorithm c = Ok a ∧ run os a = Some (a', rs) ∧ (Z.of_nat n < len_ a')%Z.
Proof.
  intros Hc. destruct (grow (Z.to_nat c) ltac:(lia) n) as (s & [[os Hrun] _] & _ & H2 & _).
  rewrite Z2Nat.id in Hrun by lia.
  destruct (NewARCAlgorithm c) as [a|] eqn:En.
  2:{ unfold NewARCAlgorithm in En. destruct (Z.ltb_spec c 0); [lia|done]. }
  destruct (New_refines c a En) as [Hr <-].
  destruct (run_ok os a Spec.init Hr) as (a' & Hrun' & (x1 & x2 & y1 & y2 & Hr' & Es & _) & _).
  eexists a, a', os, _. split_and!; [done|exact Hrun'|].
  destruct (sizes _ _ _ _ _ Hr') as (_ & _ & _ & _ & ->). rewrite Hrun in Es.
  rewrite Es in H2. cbn [Spec.T2 state_of] in H2. unfold Spec.size. rewrite H2. lia.
Qed.

Lemma arc_residents_unbounded_witness :
  ∃ a a' os rs, NewARCAlgorithm 1 = Ok a ∧ run os a = Some (a', rs) ∧ (3 < len_ a')%Z.
Proof. apply (arc_residents_unbounded 1 3). reflexivity. Defined.

End ARC.
