(* ===== verification/Item.v ===== *)
(** * Cache items and key hashing (pkg/cache/v2/item.go, pkg/cache/v2/hash.go)

    Times are nanoseconds on one clock; [time.Now] is an argument of the
    operations that call it.  The CBOR encoder and xxhash are third-party
    packages and are parameters. *)

From stdpp Require Import base gmap strings list.
From S2P Require Import Prelude.

(** ** Items *)

Record Item := MkItem {
  Key : string;
  Value : any;
  LastAccess : Z;
  LastUpdated : Z;
  Size : Z;           (* int64 *)
  Expiration : Z;     (* time.Duration, int64 *)
  AccessCount : Z;    (* uint32 *)
  Version : Z;        (* uint64 *)
  Origin : string }.

#[export] Instance Item_eq_dec : EqDecision Item.
Proof. solve_decision. Defined.

(** The zero value [Item{}]. *)
Definition zeroItem : Item := MkItem "" ANil 0 0 0 0 0 0 "".

(** [ItemPoolManager.Put] zeroes the item before pooling it and a new pool
    entry is [&Item{}], so what [Get] returns is always a zero item. *)
Definition poolGet : Item := zeroItem.
Definition poolPut (it : Item) : Item := zeroItem.

Definition with_Expiration (d : Z) (it : Item) : Item :=
  MkItem (Key it) (Value it) (LastAccess it) (LastUpdated it) (Size it) d
    (AccessCount it) (Version it) (Origin it).
Definition with_Size (n : Z) (it : Item) : Item :=
  MkItem (Key it) (Value it) (LastAccess it) (LastUpdated it) n (Expiration it)
    (AccessCount it) (Version it) (Origin it).
Definition with_AccessCount (n : Z) (it : Item) : Item :=
  MkItem (Key it) (Value it) (LastAccess it) (LastUpdated it) (Size it) (Expiration it)
    n (Version it) (Origin it).
Definition with_Value (v : any) (it : Item) : Item :=
  MkItem (Key it) v (LastAccess it) (LastUpdated it) (Size it) (Expiration it)
    (AccessCount it) (Version it) (Origin it).

(** [Item.Touch]: a new access time, and the uint32 counter goes up by one. *)
Definition Touch (now : Z) (it : Item) : Item :=
  MkItem (Key it) (Value it) now (LastUpdated it) (Size it) (Expiration it)
    (u32 (AccessCount it + 1)) (Version it) (Origin it).

(** [strings.TrimSpace s == ""]: every rune of the UTF-8 string is a Unicode
    space (the table of [unicode.IsSpace]). *)
Fixpoint allSpace (bs : list nat) : bool :=
  match bs with
  | [] => true
  | 194 :: (133 | 160) :: r => allSpace r
  | 225 :: 154 :: 128 :: r => allSpace r
  | 226 :: 128 :: (128 | 129 | 130 | 131 | 132 | 133 | 134 | 135 | 136 | 137 | 138
                  | 168 | 169 | 175) :: r => allSpace r
  | 226 :: 129 :: 159 :: r => allSpace r
  | 227 :: 128 :: 128 :: r => allSpace r
  | (9 | 10 | 11 | 12 | 13 | 32) :: r => allSpace r
  | _ => false
  end.

Definition bytes_of (s : string) : list nat :=
  Ascii.nat_of_ascii <$> String.list_ascii_of_string s.

(** ** Strings as bytes *)

(** The Go string of a byte slice. *)
Definition string_of_bytes (bs : list Z) : string :=
  String.string_of_list_ascii ((λ b, Ascii.ascii_of_nat (Z.to_nat b)) <$> bs).

Lemma bytes_of_string_of_bytes bs :
  Forall (λ b, 0 ≤ b < 256)%Z bs → Z.of_nat <$> bytes_of (string_of_bytes bs) = bs.
Proof.
  intros H. unfold bytes_of, string_of_bytes. rewrite String.list_ascii_of_string_of_list_ascii.
  induction H as [|b bs Hb _ IH]; [done|]. rewrite !fmap_cons, IH. f_equal.
  rewrite Ascii.nat_ascii_embedding by lia. lia.
Qed.

Lemma bytes_of_append s s' : bytes_of (String.append s s') = bytes_of s ++ bytes_of s'.
Proof.
  induction s as [|c s IH]; [done|].
  change (Ascii.nat_of_ascii c :: bytes_of (String.append s s') =
    Ascii.nat_of_ascii c :: (bytes_of s ++ bytes_of s')). by rewrite IH.
Qed.

Lemma string_of_bytes_of s : string_of_bytes (Z.of_nat <$> bytes_of s) = s.
Proof.
  unfold string_of_bytes, bytes_of. rewrite <- !list_fmap_compose.
  rewrite <- (String.string_of_list_ascii_of_string s) at 2. f_equal.
  induction (String.list_ascii_of_string s) as [|c l IH]; [done|]. rewrite fmap_cons, IH. f_equal.
  unfold compose. rewrite Nat2Z.id. apply Ascii.ascii_nat_embedding.
Qed.

Lemma bytes_of_bound s : Forall (λ b, 0 ≤ b < 256)%Z (Z.of_nat <$> bytes_of s).
Proof.
  unfold bytes_of. rewrite <- list_fmap_compose. induction (String.list_ascii_of_string s) as [|c l IH];
    [constructor|]. rewrite fmap_cons. constructor; [|done]. unfold compose.
  pose proof (Ascii.nat_ascii_bounded c). lia.
Qed.

Lemma bytes_of_inj s s' : bytes_of s = bytes_of s' → s = s'.
Proof. intros E. by rewrite <- (string_of_bytes_of s), <- (string_of_bytes_of s'), E. Qed.

Definition blankKey (k : string) : bool := allSpace (bytes_of k).

(** [Item.Valid]: the item comes back because a negative expiration is reset. *)
Definition Valid (it : Item) : Item * option error :=
  if blankKey (Key it) then (it, Some ErrInvalidKey)
  else if decide (Value it = ANil) then (it, Some ErrNilValue)
  else if (Expiration it <? 0)%Z then (with_Expiration 0 it, Some ErrInvalidExpiration)
  else (it, None).


Definition Expired (now : Z) (it : Item) : bool :=
  (0 <? Expiration it)%Z && (Expiration it <? sat64 (now - LastAccess it))%Z.

(** [Item.SetSize], with the length of the CBOR encoding ([None]: an encoding
    error) of a value outside the fast paths as a parameter. *)
Definition SetSize (cborLen : any → option Z) (it : Item) : Item * option error :=
  match Value it with
  | ABytes b => (with_Size (Z.of_nat (length b)) it, None)
  | AString s => (with_Size (Z.of_nat (String.length s)) it, None)
  | AMarshaler None => (it, Some ErrInvalidSize)
  | AMarshaler (Some b) => (with_Size (Z.of_nat (length b)) it, None)
  | ASizer n => (with_Size n it, None)
  | v => match cborLen v with
         | Some n => (with_Size n it, None)
         | None => (it, Some ErrInvalidSize)
         end
  end.

(** ** Hashing *)

(** [converters.ToUint32] rejects a value that does not fit. *)
Definition ToUint32 (z : Z) : option Z :=
  if ((0 <=? z) && (z <=? 2 ^ 32 - 1))%Z then Some z else None.

(** [Hash]: the xxhash64 sum of the key folded to 32 bits; [None] is the panic
    of the conversion. *)
Definition Hash (sum64 : string → Z) (key : string) : option Z :=
  let h := sum64 key in
  let folded := Z.land (Z.lxor h (Z.shiftr h 32)) 4294967295 in
  ToUint32 folded.

(** ** Facts *)

Lemma land_ones_bound z n : (0 ≤ n)%Z → (0 ≤ Z.land z (Z.ones n) < 2 ^ n)%Z.
Proof. intros Hn. rewrite Z.land_ones by done. apply Z.mod_pos_bound. lia. Qed.

Lemma Hash_is_Some sum64 key :
  ∃ h, Hash sum64 key = Some h ∧ (0 ≤ h < 2 ^ 32)%Z ∧
    h = u32 (Z.lxor (sum64 key) (Z.shiftr (sum64 key) 32)).
Proof.
  unfold Hash. change 4294967295%Z with (Z.ones 32).
  pose proof (land_ones_bound (Z.lxor (sum64 key) (Z.shiftr (sum64 key) 32)) 32) as Hb.
  unfold ToUint32. rewrite Z.land_ones in * by lia.
  rewrite (proj2 (Z.leb_le _ _)), (proj2 (Z.leb_le _ _)) by lia.
  eexists. split_and!; [done|lia|lia|done].
Qed.

Lemma Valid_None it it' :
  Valid it = (it', None) →
  it' = it ∧ blankKey (Key it) = false ∧ Value it ≠ ANil ∧ (0 ≤ Expiration it)%Z.
Proof.
  unfold Valid. destruct (blankKey _); [done|]. case_decide; [done|].
  destruct (Z.ltb_spec (Expiration it) 0); [done|]. intros. simplify_eq. auto.
Qed.

#[export] Hint Resolve Valid_None : hyper.

(** An item that does not expire is never reported as expired, and one that
    does is reported exactly when its idle time exceeds its expiration. *)
Lemma Expired_spec now it :
  (0 ≤ now - LastAccess it < 2 ^ 63)%Z →
  Expired now it = true ↔ (0 < Expiration it ∧ Expiration it < now - LastAccess it)%Z.
Proof.
  intros H. unfold Expired, sat64. rewrite andb_true_iff, !Z.ltb_lt. lia.
Qed.
