(* ===== verification/Clock.v ===== *)
(** * The clock eviction algorithm (pkg/eviction/clock.go)

    An array of slots, the index of every key, and a hand.  The items of the
    array are not shared with anything but the pool, which zeroes them, so a slot
    holds its item by value.  An index out of range or a nil item is a panic. *)

From stdpp Require Import base gmap strings list.
From S2P Require Import Prelude Item Algorithm.

Module Clock.

(** ** The code *)

Record ClockAlgorithm := MkClock {
  items : list (option Item);
  keys : gmap string nat;
  capacity : nat;
  hand : nat }.

Definition with_items (l : list (option Item)) (c : ClockAlgorithm) : ClockAlgorithm :=
  MkClock l (keys c) (capacity c) (hand c).
Definition with_keys (m : gmap string nat) (c : ClockAlgorithm) : ClockAlgorithm :=
  MkClock (items c) m (capacity c) (hand c).
Definition with_hand (n : nat) (c : ClockAlgorithm) : ClockAlgorithm :=
  MkClock (items c) (keys c) (capacity c) n.

Definition NewClockAlgorithm (cap : Z) : result ClockAlgorithm :=
  if (cap <? 0)%Z then Err ErrInvalidCapacity
  else Ok (MkClock (replicate (Z.to_nat cap) None) ∅ (Z.to_nat cap) 0).

Definition advanceHand (c : ClockAlgorithm) : ClockAlgorithm :=
  with_hand ((hand c + 1) mod capacity c) c.

(** [items[i] = x]: out of range is a panic. *)
Definition setSlot (i : nat) (x : option Item) (c : ClockAlgorithm) : option ClockAlgorithm :=
  _ ← items c !! i; Some (with_items (<[i := x]> (items c)) c).

(** The loop [for range c.capacity] of [Evict] and [evictAndInsert]: an empty
    slot is skipped, a recently used one gets its second chance, and on the
    first other slot the loop's last part [hit] runs; [miss] is what follows a
    loop that ran out. *)
Fixpoint sweep {A} (hit : ClockAlgorithm → Item → option (ClockAlgorithm * A)) (miss : A)
    (n : nat) (c : ClockAlgorithm) : option (ClockAlgorithm * A) :=
  match n with
  | 0 => Some (c, miss)
  | S n =>
      slot ← items c !! hand c;
      match slot with
      | None => sweep hit miss n (advanceHand c)
      | Some item =>
          if (0 <? AccessCount item)%Z then
            c ← setSlot (hand c) (Some (with_AccessCount (u32 (AccessCount item - 1)) item)) c;
            sweep hit miss n (advanceHand c)
          else hit c item
      end
  end.

Definition Evict (c : ClockAlgorithm) : option (ClockAlgorithm * (string * bool)) :=
  if decide (capacity c = 0) then Some (c, (""%string, false))
  else sweep (λ c item,
      c ← setSlot (hand c) None (with_keys (delete (Key item) (keys c)) c);
      Some (c, (Key item, true))) (""%string, false) (capacity c) c.

Definition updateIfExists (key : string) (value : any) (c : ClockAlgorithm)
    : option (ClockAlgorithm * bool) :=
  match keys c !! key with
  | Some idx =>
      slot ← items c !! idx; item ← slot;
      c ← setSlot idx (Some (with_AccessCount (u32 (AccessCount item + 1))
            (with_Value value item))) c;
      Some (c, true)
  | None => Some (c, false)
  end.

(** The item a new key is stored with: a pooled (zero) item with three fields
    assigned. *)
Definition newItem (key : string) (value : any) : Item :=
  MkItem key value (LastAccess poolGet) (LastUpdated poolGet) (Size poolGet)
    (Expiration poolGet) 1 (Version poolGet) (Origin poolGet).

(** The [for] of [tryInsertInFreeSlot] has no bound of its own; [fuel] steps. *)
Fixpoint tryInsertLoop (fuel : nat) (start : nat) (key : string) (value : any)
    (c : ClockAlgorithm) : option (ClockAlgorithm * bool) :=
  match fuel with
  | 0 => None
  | S fuel =>
      slot ← items c !! hand c;
      match slot with
      | None =>
          c ← setSlot (hand c) (Some (newItem key value)) c;
          Some (with_keys (<[key := hand c]> (keys c)) c, true)
      | Some _ =>
          let c := advanceHand c in
          if decide (hand c = start) then Some (c, false)
          else tryInsertLoop fuel start key value c
      end
  end.

Definition tryInsertInFreeSlot (key : string) (value : any) (c : ClockAlgorithm)
    : option (ClockAlgorithm * bool) :=
  tryInsertLoop (capacity c) (hand c) key value c.

Definition evictAndInsert (key : string) (value : any) (c : ClockAlgorithm)
    : option ClockAlgorithm :=
  r ← sweep (λ c item,
      c ← setSlot (hand c) None (with_keys (delete (Key item) (keys c)) c);
      c ← setSlot (hand c) (Some (newItem key value)) c;
      Some (advanceHand (with_keys (<[key := hand c]> (keys c)) c), tt)) tt (capacity c) c;
  Some (fst r).

Definition Set_ (key : string) (value : any) (c : ClockAlgorithm) : option ClockAlgorithm :=
  if decide (capacity c = 0) then Some c
  else
    '(c, updated) ← updateIfExists key value c;
    if (updated : bool) then Some c
    else
      '(c, inserted) ← tryInsertInFreeSlot key value c;
      if (inserted : bool) then Some (advanceHand c)
      else evictAndInsert key value c.

Definition Get (key : string) (c : ClockAlgorithm) : option (ClockAlgorithm * (any * bool)) :=
  match keys c !! key with
  | None => Some (c, (ANil, false))
  | Some index =>
      slot ← items c !! index; item ← slot;
      let item := with_AccessCount (u32 (AccessCount item + 1)) item in
      c ← setSlot index (Some item) c;
      Some (c, (Value item, true))
  end.

Definition Delete (key : string) (c : ClockAlgorithm) : option ClockAlgorithm :=
  match keys c !! key with
  | None => Some c
  | Some index =>
      _ ← items c !! index;
      setSlot index None (with_keys (delete key (keys c)) c)
  end.

(** ** Invariant *)

Definition uint32_item (it : Item) : Prop := (0 ≤ AccessCount it < 2 ^ 32)%Z.

Record wf (c : ClockAlgorithm) : Prop := {
  wf_length : length (items c) = capacity c;
  wf_hand : capacity c ≠ 0 → hand c < capacity c;
  wf_keys : ∀ k i, keys c !! k = Some i ↔
    ∃ it, items c !! i = Some (Some it) ∧ Key it = k;
  wf_count : ∀ i it, items c !! i = Some (Some it) → uint32_item it }.

(** What the keys are bound to. *)
Definition slot_value (c : ClockAlgorithm) (i : nat) : option any :=
  slot ← items c !! i; it ← slot; Some (Value it).
Definition contents (c : ClockAlgorithm) : gmap string any := omap (slot_value c) (keys c).

Lemma clk_wf_lookup c k i :
  wf c → keys c !! k = Some i →
  ∃ it, items c !! i = Some (Some it) ∧ Key it = k ∧ i < capacity c.
Proof.
  intros H Hk. apply (wf_keys _ H) in Hk as (it & Hi & Hk). exists it. split_and!; try done.
  rewrite <- (wf_length _ H). by eapply lookup_lt_Some.
Qed.

Lemma wf_resident c i it : wf c → items c !! i = Some (Some it) → keys c !! Key it = Some i.
Proof. intros H Hi. apply (wf_keys _ H). eauto. Qed.

Lemma wf_slot c i : wf c → i < capacity c → is_Some (items c !! i).
Proof. intros H Hi. apply lookup_lt_is_Some. by rewrite (wf_length _ H). Qed.

Lemma setSlot_Some c i x :
  wf c → i < capacity c → setSlot i x c = Some (with_items (<[i := x]> (items c)) c).
Proof. intros H Hi. unfold setSlot. by destruct (wf_slot _ _ H Hi) as [y ->]. Qed.

Lemma advanceHand_wf c : wf c → wf (advanceHand c).
Proof.
  intros [Hl Hh Hk Hc]. split; cbn; try done. intros Hc0. by apply Nat.mod_upper_bound.
Qed.

(** Replacing the item of a slot by one with the same key. *)
Lemma update_wf c i it it' :
  wf c → items c !! i = Some (Some it) → Key it' = Key it → uint32_item it' →
  wf (with_items (<[i := Some it']> (items c)) c).
Proof.
  intros [Hl Hh Hk Hc] Hi Ek Hu.
  assert (i < length (items c)) as Hlt by (by eapply lookup_lt_Some).
  split; cbn; [by rewrite length_insert|done|..].
  - intros k j. rewrite Hk. destruct (decide (i = j)) as [->|Hne].
    + rewrite list_lookup_insert_eq by done. split.
      * intros (it0 & ? & ?). simplify_eq. eauto.
      * intros (it0 & ? & <-). simplify_eq. rewrite Ek. eauto.
    + by rewrite list_lookup_insert_ne.
  - intros j it0. destruct (decide (i = j)) as [->|Hne].
    + rewrite list_lookup_insert_eq by done. intros. by simplify_eq.
    + rewrite list_lookup_insert_ne by done. apply Hc.
Qed.

(** Emptying the slot of a key. *)
Lemma clear_wf c i it :
  wf c → items c !! i = Some (Some it) →
  wf (with_items (<[i := None]> (items c)) (with_keys (delete (Key it) (keys c)) c)).
Proof.
  intros H Hi. assert (i < length (items c)) as Hlt by (by eapply lookup_lt_Some).
  destruct H as [Hl Hh Hk Hc]. split; cbn; [by rewrite length_insert|done|..].
  - intros k j. rewrite lookup_delete. destruct (decide (i = j)) as [->|Hne].
    + rewrite list_lookup_insert_eq by done. split; [|by intros (? & ? & _)].
      case_decide; [done|]. intros (it0 & ? & ?)%Hk. simplify_eq.
    + rewrite list_lookup_insert_ne by done. rewrite <- Hk. case_decide as E; [|done].
      split; [done|]. intros Hj. rewrite <- E in Hj.
      assert (keys c !! Key it = Some i) by (apply Hk; eauto). congruence.
  - intros j it0. destruct (decide (i = j)) as [->|Hne].
    + rewrite list_lookup_insert_eq by done. by intros.
    + rewrite list_lookup_insert_ne by done. apply Hc.
Qed.

(** Filling an empty slot with a new key. *)
Lemma fill_wf c i k v :
  wf c → items c !! i = Some None → keys c !! k = None →
  wf (with_keys (<[k := i]> (keys c)) (with_items (<[i := Some (newItem k v)]> (items c)) c)).
Proof.
  intros [Hl Hh Hk Hc] Hi Hn. assert (i < length (items c)) as Hlt by (by eapply lookup_lt_Some).
  split; cbn; [by rewrite length_insert|done|..].
  - intros k' j. rewrite lookup_insert. destruct (decide (i = j)) as [->|Hne].
    + rewrite list_lookup_insert_eq by done. case_decide as E; split.
      * intros _. eexists. split; [done|]. by subst.
      * intros _. done.
      * intros (it & ? & _)%Hk. congruence.
      * intros (it & ? & <-). simplify_eq.
    + rewrite list_lookup_insert_ne by done. rewrite <- Hk. case_decide as E; [|done].
      subst. rewrite Hn. split; [|done]. congruence.
  - intros j it0. destruct (decide (i = j)) as [->|Hne].
    + rewrite list_lookup_insert_eq by done. intros. simplify_eq. done.
    + rewrite list_lookup_insert_ne by done. apply Hc.
Qed.

(** ** Sweeps *)

Definition second_chance (it : Item) : Item := with_AccessCount (u32 (AccessCount it - 1)) it.

Definition chanced (slot : option Item) : option Item := second_chance <$> slot.

(** One iteration that does not reach [hit]. *)
Definition sweep1 (c : ClockAlgorithm) : ClockAlgorithm :=
  match items c !! hand c with
  | Some (Some it) =>
      advanceHand (with_items (<[hand c := Some (second_chance it)]> (items c)) c)
  | _ => advanceHand c
  end.
Definition swept (n : nat) (c : ClockAlgorithm) : ClockAlgorithm := Nat.iter n sweep1 c.

Lemma swept_S n c : swept (S n) c = sweep1 (swept n c).
Proof. done. Qed.

(** How many steps of the hand away a slot is. *)
Definition offset (c : ClockAlgorithm) (i : nat) : nat :=
  if decide (hand c ≤ i) then i - hand c else i + capacity c - hand c.

Definition hand_after (c : ClockAlgorithm) (n : nat) : nat :=
  if decide (hand c + n < capacity c) then hand c + n else hand c + n - capacity c.

Lemma hand_after_offset c i : i < capacity c → hand c < capacity c → hand_after c (offset c i) = i.
Proof. intros. unfold hand_after, offset. repeat case_decide; lia. Qed.

Lemma offset_hand_after c n : n < capacity c → hand c < capacity c → offset c (hand_after c n) = n.
Proof. intros. unfold hand_after, offset. repeat case_decide; lia. Qed.

Lemma hand_after_S c n : n < capacity c → hand c < capacity c →
  (hand_after c n + 1) mod capacity c =
    if decide (S n < capacity c) then hand_after c (S n) else hand c.
Proof.
  intros Hn Hh. unfold hand_after. repeat case_decide; try lia.
  - rewrite Nat.mod_small; lia.
  - replace (hand c + n + 1) with (0 + 1 * capacity c) by lia. rewrite Nat.Div0.mod_add.
    rewrite Nat.mod_small; lia.
  - replace (hand c + n + 1) with (hand c + 1 * capacity c) by lia. rewrite Nat.Div0.mod_add.
    rewrite Nat.mod_small; lia.
  - rewrite Nat.mod_small; lia.
  - rewrite Nat.mod_small; lia.
Qed.

Lemma offset_lt c i : i < capacity c → hand c < capacity c → offset c i < capacity c.
Proof. intros. unfold offset. case_decide; lia. Qed.

Lemma second_chance_uint32 it : uint32_item (second_chance it).
Proof. unfold uint32_item. cbn. apply u32_bound. Qed.

Lemma sweep1_wf c : wf c → wf (sweep1 c).
Proof.
  intros H. unfold sweep1. destruct (items c !! hand c) as [[it|]|] eqn:E;
    apply advanceHand_wf; try done.
  eapply update_wf; [done..|apply second_chance_uint32].
Qed.

Lemma sweep1_fields c : capacity (sweep1 c) = capacity c ∧ keys (sweep1 c) = keys c ∧
  hand (sweep1 c) = (hand c + 1) mod capacity c.
Proof. unfold sweep1. by destruct (items c !! hand c) as [[it|]|]. Qed.

Lemma swept_fields n c : wf c → capacity c ≠ 0 → n ≤ capacity c →
  wf (swept n c) ∧ capacity (swept n c) = capacity c ∧ keys (swept n c) = keys c ∧
  (n < capacity c → hand (swept n c) = hand_after c n) ∧
  (n = capacity c → hand (swept n c) = hand c).
Proof.
  intros H Hc. pose proof (wf_hand _ H Hc) as Hh.
  induction n as [|n IH]; intros Hn.
  { change (swept 0 c) with c. split_and!; try done. intros _. unfold hand_after. case_decide; lia. }
  destruct IH as (Hw & Ec & Ek & Eh & _); [lia|].
  specialize (Eh ltac:(lia)). rewrite swept_S. set (s := swept n c) in *.
  destruct (sweep1_fields s) as (-> & -> & ->). rewrite Ec, Ek, Eh.
  rewrite hand_after_S by lia.
  split_and!; [by apply sweep1_wf|done|done|..]; intros; case_decide; lia || done.
Qed.

Lemma sweep1_items c i :
  items (sweep1 c) !! i =
    if decide (i = hand c) then chanced <$> items c !! i else items c !! i.
Proof.
  unfold sweep1. destruct (items c !! hand c) as [[it|]|] eqn:E; cbn; case_decide; subst;
    rewrite ?E; try done.
  - rewrite list_lookup_insert_eq; [done|]. by eapply lookup_lt_Some.
  - by rewrite list_lookup_insert_ne.
Qed.

(** Sweeping [n] steps takes one from the counts of the slots it passes. *)
Lemma swept_items n c i : wf c → capacity c ≠ 0 → n ≤ capacity c → i < capacity c →
  items (swept n c) !! i =
    if decide (offset c i < n) then chanced <$> items c !! i else items c !! i.
Proof.
  intros H Hc Hn Hi. pose proof (wf_hand _ H Hc) as Hh.
  induction n as [|n IH]; [by rewrite decide_False by lia|].
  rewrite swept_S, sweep1_items, IH by lia.
  destruct (swept_fields n c H Hc) as (_ & _ & _ & Eh & _); [lia|].
  rewrite (Eh ltac:(lia)). destruct (decide (i = hand_after c n)) as [->|Hne].
  - rewrite offset_hand_after by lia. rewrite decide_False, decide_True by lia. done.
  - assert (offset c i ≠ n) by (intros <-; rewrite hand_after_offset in Hne by lia; done).
    repeat case_decide; try done; lia.
Qed.

Definition passable (slot : option Item) : Prop :=
  match slot with None => True | Some it => (0 < AccessCount it)%Z end.

(** The loop either passes over all its slots or reaches [hit] at the first
    slot that is not passable. *)
Lemma sweep_cases {A} hit (miss : A) n c :
  wf c → capacity c ≠ 0 → n ≤ capacity c →
  ∃ j, j ≤ n ∧
    (∀ i slot, offset c i < j → items c !! i = Some slot → passable slot) ∧
    ((j = n ∧ sweep hit miss n c = Some (swept n c, miss)) ∨
     (∃ it, j < n ∧ items c !! hand_after c j = Some (Some it) ∧ AccessCount it = 0%Z ∧
        sweep hit miss n c = hit (swept j c) it)).
Proof.
  intros H Hc Hn. pose proof (wf_hand _ H Hc) as Hh.
  assert (∀ m, m ≤ n → (∀ i slot, offset c i < n - m → items c !! i = Some slot → passable slot) →
    ∃ j, j ≤ n ∧ (∀ i slot, offset c i < j → items c !! i = Some slot → passable slot) ∧
    ((j = n ∧ sweep hit miss m (swept (n - m) c) = Some (swept n c, miss)) ∨
     (∃ it, j < n ∧ items c !! hand_after c j = Some (Some it) ∧ AccessCount it = 0%Z ∧
        sweep hit miss m (swept (n - m) c) = hit (swept j c) it))) as Hgen.
  2:{ destruct (Hgen n (Nat.le_refl n)) as (j & Hj); [intros; lia|].
      rewrite Nat.sub_diag in Hj. by exists j. }
  induction m as [|m IH]; intros Hm Hpass.
  { exists n. rewrite Nat.sub_0_r in *. split; [done|]. split; [done|]. by left. }
  destruct (swept_fields (n - S m) c H Hc) as (Hw & Ec & _ & Eh & _); [lia|].
  specialize (Eh ltac:(lia)).
  assert (swept (n - m) c = sweep1 (swept (n - S m) c)) as Es.
  { replace (n - m) with (S (n - S m)) by lia. done. }
  assert (hand_after c (n - S m) < capacity c) as Hlt
    by (unfold hand_after; case_decide; lia).
  cbn [sweep]. pose proof (swept_items (n - S m) c _ H Hc ltac:(lia) Hlt) as Hit.
  rewrite offset_hand_after, decide_False in Hit by lia. rewrite Eh, Hit.
  assert (∀ i, i < capacity c → offset c i < n - m → offset c i < n - S m ∨ i = hand_after c (n - S m))
    as Hoff.
  { intros i Hi Ho. destruct (decide (offset c i = n - S m)) as [E|]; [right|left; lia].
    rewrite <- E. by rewrite hand_after_offset. }
  assert (∀ slot, items c !! hand_after c (n - S m) = Some slot → passable slot →
    ∀ i slot, offset c i < n - m → items c !! i = Some slot → passable slot) as Hext.
  { intros slot Hs Hp i slot' Ho Hi'.
    assert (i < capacity c) by (rewrite <- (wf_length _ H); by eapply lookup_lt_Some).
    destruct (Hoff i) as [Hlt'| ->]; [done|done|by eapply Hpass|congruence]. }
  destruct (items c !! hand_after c (n - S m)) as [[it|]|] eqn:Ei; cbn [mbind option_bind].
  - destruct (Z.ltb_spec 0 (AccessCount it)) as [Hpos|Hz].
    + rewrite setSlot_Some by (rewrite ?Ec; done). cbn [mbind option_bind].
      replace (advanceHand _) with (swept (n - m) c).
      2:{ rewrite Es. unfold sweep1. by rewrite Eh, Hit. }
      apply IH; [lia|]. by apply (Hext (Some it)).
    + exists (n - S m). split; [lia|]. split; [done|]. right. exists it.
      split_and!; [lia|done| |done]. pose proof (wf_count _ H _ _ Ei) as [? _]. lia.
  - replace (advanceHand _) with (swept (n - m) c).
    2:{ rewrite Es. unfold sweep1. by rewrite Eh, Hit. }
    apply IH; [lia|]. by apply (Hext None).
  - apply lookup_ge_None in Ei. rewrite (wf_length _ H) in Ei. lia.
Qed.

(** ** The operations *)

Lemma hand_after_lt c j : hand c < capacity c → j < capacity c → hand_after c j < capacity c.
Proof. intros. unfold hand_after. case_decide; lia. Qed.

(** A slot the sweep has not reached is as it was. *)
Lemma swept_at_hand c j it : wf c → capacity c ≠ 0 → j < capacity c →
  items c !! hand_after c j = Some (Some it) →
  hand (swept j c) = hand_after c j ∧ items (swept j c) !! hand_after c j = Some (Some it).
Proof.
  intros H Hc Hj Hi. pose proof (wf_hand _ H Hc) as Hh.
  destruct (swept_fields j c H Hc) as (_ & _ & _ & Eh & _); [lia|]. split; [auto|].
  pose proof (hand_after_lt c j Hh Hj). rewrite swept_items by (done || lia).
  rewrite offset_hand_after, decide_False by lia. done.
Qed.

(** [Evict] in full: the two ways the sweep can end. *)
Lemma Evict_cases c :
  wf c → capacity c ≠ 0 →
  ∃ c' r, Evict c = Some (c', r) ∧ wf c' ∧ capacity c' = capacity c ∧
    ((r = (""%string, false) ∧ keys c' = keys c ∧ hand c' = hand c ∧
      (∀ i slot, items c !! i = Some slot → passable slot) ∧
      (∀ i, items c' !! i = chanced <$> items c !! i)) ∨
     (∃ i it, r = (Key it, true) ∧ items c !! i = Some (Some it) ∧ AccessCount it = 0%Z ∧
      keys c' = delete (Key it) (keys c) ∧ hand c' = i ∧
      (∀ i' slot, offset c i' < offset c i → items c !! i' = Some slot → passable slot) ∧
      (∀ i', i' < capacity c → items c' !! i' =
        if decide (i' = i) then Some None
        else if decide (offset c i' < offset c i) then chanced <$> items c !! i'
        else items c !! i'))).
Proof.
  intros H Hc. pose proof (wf_hand _ H Hc) as Hh. unfold Evict. rewrite decide_False by done.
  edestruct (sweep_cases (A:=string * bool)) as (j & Hj & Hpass & [[-> ->]|(it & Hlt & Hi & Hz & ->)]);
    [exact H|done|done|..].
  - destruct (swept_fields (capacity c) c H Hc) as (Hw & Ec & Ek & _ & Eh); [done|].
    eexists _, _. split; [done|]. split_and!; [done..|]. left. split_and!; auto.
    + intros i slot Hi. apply (Hpass i slot); [|done]. apply offset_lt; [|done].
      rewrite <- (wf_length _ H). by eapply lookup_lt_Some.
    + intros i. destruct (decide (i < capacity c)).
      * rewrite swept_items by done. rewrite decide_True; [done|by apply offset_lt].
      * rewrite !lookup_ge_None_2; [done|..]; rewrite ?(wf_length _ H), ?(wf_length _ Hw); lia.
  - destruct (swept_fields j c H Hc) as (Hw & Ec & Ek & _); [done|].
    destruct (swept_at_hand c j it H Hc Hlt Hi) as [Eh His].
    pose proof (hand_after_lt c j Hh Hlt) as Hin.
    unfold setSlot. cbn. rewrite Eh, His. cbn. eexists _, _. split; [done|].
    split_and!; [by apply (clear_wf (swept j c))|done|].
    right. exists (hand_after c j), it. rewrite offset_hand_after by done.
    split_and!; try done; cbn; [by rewrite Ek|].
    intros i' Hi'. case_decide as E.
    + subst i'. rewrite list_lookup_insert_eq; [done|by eapply lookup_lt_Some].
    + rewrite list_lookup_insert_ne by congruence. by apply swept_items; [..|lia|].
Qed.

(** The hand of [c] moved to a slot. *)
Lemma with_hand_wf c n : n < capacity c → wf c → wf (with_hand n c).
Proof. intros Hn [Hl Hh Hk Hc]. by split. Qed.

(** [tryInsertInFreeSlot] stops: within one turn of the hand it either fills the
    first free slot or is back at the start with every slot taken. *)
Lemma tryInsertLoop_cases key value c n fuel :
  wf c → n < capacity c → n + fuel = capacity c →
  (∀ i, offset c i < n → i < capacity c → ∃ it, items c !! i = Some (Some it)) →
  (∃ i, items c !! i = Some None ∧
     tryInsertLoop fuel (hand c) key value (with_hand (hand_after c n) c) =
       Some (with_keys (<[key := i]> (keys c))
         (with_items (<[i := Some (newItem key value)]> (items c)) (with_hand i c)), true)) ∨
  ((∀ i, i < capacity c → ∃ it, items c !! i = Some (Some it)) ∧
     tryInsertLoop fuel (hand c) key value (with_hand (hand_after c n) c) = Some (c, false)).
Proof.
  intros H. revert n. induction fuel as [|fuel IH]; intros n Hn Hf Hocc; [lia|].
  pose proof (wf_hand _ H ltac:(lia)) as Hh. pose proof (hand_after_lt c n Hh Hn) as Hin.
  destruct (wf_slot _ _ H Hin) as [slot Hs].
  cbn. rewrite Hs. cbn. destruct slot as [it|].
  2:{ left. exists (hand_after c n). split; [done|]. unfold setSlot. cbn. by rewrite Hs. }
  assert (∀ i, offset c i < S n → i < capacity c → ∃ it, items c !! i = Some (Some it)) as Hocc'.
  { intros i Ho Hi. destruct (decide (offset c i = n)) as [<-|]; [|apply Hocc; lia].
    rewrite hand_after_offset in Hs by done. eauto. }
  unfold advanceHand. cbn. rewrite hand_after_S by done.
  destruct (decide (S n < capacity c)) as [E|E].
  - rewrite decide_False; [apply IH; [done|lia|done]|].
    unfold hand_after. case_decide; lia.
  - rewrite decide_True by done. right. split; [|by destruct c].
    intros i Hi. apply Hocc'; [|done]. pose proof (offset_lt c i Hi Hh). lia.
Qed.

Lemma tryInsertInFreeSlot_cases key value c :
  wf c → capacity c ≠ 0 →
  (∃ i, items c !! i = Some None ∧
     tryInsertInFreeSlot key value c =
       Some (with_keys (<[key := i]> (keys c))
         (with_items (<[i := Some (newItem key value)]> (items c)) (with_hand i c)), true)) ∨
  ((∀ i, i < capacity c → ∃ it, items c !! i = Some (Some it)) ∧
     tryInsertInFreeSlot key value c = Some (c, false)).
Proof.
  intros H Hc. pose proof (wf_hand _ H Hc) as Hh. unfold tryInsertInFreeSlot.
  assert (with_hand (hand_after c 0) c = c) as E.
  { unfold with_hand, hand_after. rewrite decide_True, Nat.add_0_r by lia. by destruct c. }
  pose proof (tryInsertLoop_cases key value c 0 (capacity c)) as Hl. rewrite E in Hl.
  apply Hl; [done|lia|lia|intros; lia].
Qed.

Definition first_unused (c : ClockAlgorithm) (i : nat) (it : Item) : Prop :=
  items c !! i = Some (Some it) ∧ AccessCount it = 0%Z ∧
  ∀ i' slot, offset c i' < offset c i → items c !! i' = Some slot → passable slot.

(** What a slot away from the filled one holds after a sweep that stops at [i]. *)
Definition swept_slot (c : ClockAlgorithm) (i i' : nat) : option (option Item) :=
  if decide (offset c i' < offset c i) then chanced <$> items c !! i' else items c !! i'.

(** [evictAndInsert]: the first resident without a second chance makes room. *)
Lemma evictAndInsert_cases key value c :
  wf c → capacity c ≠ 0 → keys c !! key = None →
  ∃ c', evictAndInsert key value c = Some c' ∧ wf c' ∧ capacity c' = capacity c ∧
    (((∀ i slot, items c !! i = Some slot → passable slot) ∧ keys c' = keys c ∧
      (∀ i, items c' !! i = chanced <$> items c !! i)) ∨
     (∃ i it, first_unused c i it ∧ keys c' = <[key := i]> (delete (Key it) (keys c)) ∧
      (∀ i', i' < capacity c → items c' !! i' =
        if decide (i' = i) then Some (Some (newItem key value)) else swept_slot c i i'))).
Proof.
  intros H Hc Hk. pose proof (wf_hand _ H Hc) as Hh. unfold evictAndInsert.
  edestruct (sweep_cases (A:=unit)) as (j & Hj & Hpass & [[-> ->]|(it & Hlt & Hi & Hz & ->)]);
    [exact H|done|done|..].
  - destruct (swept_fields (capacity c) c H Hc) as (Hw & Ec & Ek & _ & _); [done|].
    eexists. split; [done|]. split_and!; [done..|]. left. split_and!; auto.
    + intros i slot Hi. apply (Hpass i slot); [|done]. apply offset_lt; [|done].
      rewrite <- (wf_length _ H). by eapply lookup_lt_Some.
    + intros i. cbn. destruct (decide (i < capacity c)).
      * rewrite swept_items by done. rewrite decide_True; [done|by apply offset_lt].
      * rewrite !lookup_ge_None_2; [done|..]; rewrite ?(wf_length _ H), ?(wf_length _ Hw); lia.
  - destruct (swept_fields j c H Hc) as (Hw & Ec & Ek & _); [done|].
    destruct (swept_at_hand c j it H Hc Hlt Hi) as [Eh His].
    assert (hand_after c j < length (items (swept j c))) as Hin by (by eapply lookup_lt_Some).
    unfold setSlot. cbn. rewrite Eh, His. cbn.
    rewrite Eh, list_lookup_insert_eq by done. cbn. rewrite Eh.
    eexists. split; [done|]. split_and!.
    { apply advanceHand_wf, (fill_wf (with_items _ (with_keys _ (swept j c))) (hand_after c j)).
      - by apply clear_wf.
      - by apply list_lookup_insert_eq.
      - refine (proj2 (lookup_delete_None (keys (swept j c)) _ _) _). right. by rewrite Ek. }
    { done. }
    right. exists (hand_after c j), it. unfold first_unused, swept_slot.
    rewrite offset_hand_after by done.
    split_and!; try done; cbn; [by rewrite Ek|].
    intros i' Hi'. rewrite list_insert_insert_eq. case_decide as E.
    + subst i'. by rewrite list_lookup_insert_eq.
    + rewrite list_lookup_insert_ne by congruence. by apply swept_items; [..|lia|].
Qed.

(** ** What the operations do to the contents *)

Lemma contents_lookup c k : contents c !! k = i ← keys c !! k; slot_value c i.
Proof. apply lookup_omap. Qed.

Lemma contents_resident c i it :
  wf c → items c !! i = Some (Some it) → contents c !! Key it = Some (Value it).
Proof.
  intros H Hi. rewrite contents_lookup, (wf_resident _ _ _ H Hi). cbn.
  unfold slot_value. by rewrite Hi.
Qed.

Lemma contents_Some c k v :
  wf c → contents c !! k = Some v →
  ∃ i it, items c !! i = Some (Some it) ∧ Key it = k ∧ Value it = v ∧ keys c !! k = Some i.
Proof.
  intros H. rewrite contents_lookup. intros (i & Hk & Hv)%bind_Some.
  destruct (clk_wf_lookup _ _ _ H Hk) as (it & Hi & Ek & _).
  unfold slot_value in Hv. rewrite Hi in Hv. cbn in Hv. simplify_eq. eauto 10.
Qed.

Lemma contents_is_Some c k : wf c → is_Some (contents c !! k) ↔ is_Some (keys c !! k).
Proof.
  intros H. rewrite contents_lookup. split.
  - intros [v (i & -> & _)%bind_Some]. eauto.
  - intros [i Hk]. destruct (clk_wf_lookup _ _ _ H Hk) as (it & Hi & _ & _).
    rewrite Hk. cbn. unfold slot_value. rewrite Hi. cbn. eauto.
Qed.

(** States with the same keys and the same slot values have the same contents. *)
Lemma contents_same c c' :
  keys c' = keys c → (∀ i, is_Some (items c !! i) → slot_value c' i = slot_value c i) → wf c →
  contents c' = contents c.
Proof.
  intros Ek Hv H. apply map_eq. intros k. rewrite !contents_lookup, Ek.
  destruct (keys c !! k) as [i|] eqn:E; [|done]. cbn. apply Hv.
  destruct (clk_wf_lookup _ _ _ H E) as (it & -> & _). done.
Qed.

Lemma chanced_value c c' i :
  items c' !! i = chanced <$> items c !! i → slot_value c' i = slot_value c i.
Proof. unfold slot_value. intros ->. by destruct (items c !! i) as [[it|]|]. Qed.

Lemma swept_slot_value c c' i i' :
  items c' !! i' = swept_slot c i i' → slot_value c' i' = slot_value c i'.
Proof.
  unfold swept_slot. case_decide; [apply chanced_value|]. unfold slot_value. by intros ->.
Qed.

(** A new key takes over slot [i], which held [old]. *)
Lemma contents_replace c c' i old key value :
  wf c → i < capacity c → keys c !! key = None →
  (∀ it, old = Some it → items c !! i = Some (Some it)) →
  (old = None → items c !! i = Some None) →
  keys c' = <[key := i]> (match old with Some it => delete (Key it) (keys c) | None => keys c end) →
  (∀ i', i' < capacity c → i' ≠ i → slot_value c' i' = slot_value c i') →
  slot_value c' i = Some value →
  contents c' =
    <[key := value]> (match old with Some it => delete (Key it) (contents c)
                      | None => contents c end).
Proof.
  intros H Hlt Hn Hold Hnone Ek Hv Hi. apply map_eq. intros k.
  rewrite contents_lookup, Ek, !lookup_insert. case_decide as E; [done|].
  assert (∀ j, keys c !! k = Some j → (∀ it, old = Some it → k ≠ Key it) →
    slot_value c' j = slot_value c j) as Hj.
  { intros j Hj Ho. destruct (clk_wf_lookup _ _ _ H Hj) as (it & Hit & Hk & Hjc).
    apply Hv; [done|]. intros ->. destruct old as [it'|].
    - specialize (Hold it' eq_refl). specialize (Ho it' eq_refl). congruence.
    - specialize (Hnone eq_refl). congruence. }
  destruct old as [it|].
  - rewrite !lookup_delete. case_decide; [done|]. rewrite contents_lookup.
    destruct (keys c !! k) as [j|] eqn:Ekj; [|done]. cbn. apply Hj; [done|]. congruence.
  - rewrite contents_lookup. destruct (keys c !! k) as [j|] eqn:Ekj; [|done]. cbn. by apply Hj.
Qed.

Lemma touched_uint32 n it : uint32_item (with_AccessCount (u32 n) it).
Proof. unfold uint32_item. cbn. apply u32_bound. Qed.

(** Rewriting the item at [i] but for its key and its value. *)
Lemma contents_touch c i it it' :
  wf c → items c !! i = Some (Some it) → Key it' = Key it →
  contents (with_items (<[i := Some it']> (items c)) c) = <[Key it := Value it']> (contents c).
Proof.
  intros H Hi Ek. assert (i < length (items c)) as Hlt by (by eapply lookup_lt_Some).
  apply map_eq. intros k. rewrite lookup_insert, !contents_lookup. cbn.
  unfold slot_value. cbn. case_decide as E.
  - subst k. rewrite (wf_resident _ _ _ H Hi). cbn. by rewrite list_lookup_insert_eq.
  - destruct (keys c !! k) as [j|] eqn:Ej; [|done]. cbn.
    destruct (clk_wf_lookup _ _ _ H Ej) as (it0 & Hj & Hk & _).
    rewrite list_lookup_insert_ne; [done|]. intros <-. congruence.
Qed.

Lemma Get_contents k c :
  wf c →
  ∃ c', Get k c = Some (c', (default ANil (contents c !! k),
      bool_decide (is_Some (contents c !! k)))) ∧
    wf c' ∧ contents c' = contents c ∧ capacity c' = capacity c.
Proof.
  intros H. unfold Get. destruct (keys c !! k) as [i|] eqn:Ek.
  - destruct (clk_wf_lookup _ _ _ H Ek) as (it & Hi & Hk & Hlt). rewrite Hi. cbn.
    pose proof (contents_resident _ _ _ H Hi) as Hv. rewrite Hk in Hv. rewrite Hv.
    rewrite setSlot_Some by done. cbn. eexists. split; [done|]. split_and!; [|..|done].
    + by eapply update_wf; [..|apply touched_uint32].
    + rewrite (contents_touch _ _ it) by done. rewrite Hk. by apply insert_id.
  - assert (contents c !! k = None) as ->.
    { rewrite contents_lookup, Ek. done. }
    cbn. eauto.
Qed.

Lemma Delete_contents k c :
  wf c →
  ∃ c', Delete k c = Some c' ∧ wf c' ∧ contents c' = delete k (contents c) ∧
    capacity c' = capacity c.
Proof.
  intros H. unfold Delete. destruct (keys c !! k) as [i|] eqn:Ek.
  - destruct (clk_wf_lookup _ _ _ H Ek) as (it & Hi & Hk & Hlt). unfold setSlot. rewrite Hi. cbn.
    rewrite Hi. cbn. eexists. split; [done|]. split_and!; [|..|done].
    + subst k. by apply clear_wf.
    + apply map_eq. intros k'. rewrite lookup_delete, !contents_lookup. cbn.
      rewrite lookup_delete. case_decide as E; [done|].
      destruct (keys c !! k') as [j|] eqn:Ej; [|done]. cbn. unfold slot_value. cbn.
      destruct (clk_wf_lookup _ _ _ H Ej) as (it0 & Hj & Hk' & _).
      rewrite list_lookup_insert_ne; [done|]. intros <-. congruence.
  - eexists. split; [done|]. split_and!; try done. symmetry. apply delete_id.
    rewrite contents_lookup, Ek. done.
Qed.

Definition full (c : ClockAlgorithm) : Prop :=
  ∀ i, i < capacity c → ∃ it, items c !! i = Some (Some it).

(** The three ways a [Set] of a new key ends. *)
Lemma Set_contents key value c :
  wf c → capacity c ≠ 0 →
  ∃ c', Set_ key value c = Some c' ∧ wf c' ∧ capacity c' = capacity c ∧
    ((is_Some (contents c !! key) ∨ ¬ full c) ∧ contents c' = <[key := value]> (contents c) ∨
     contents c !! key = None ∧ full c ∧
       (contents c' = contents c ∧ (∀ i slot, items c !! i = Some slot → passable slot) ∧
        (∀ i, items c' !! i = chanced <$> items c !! i) ∨
        ∃ i it, first_unused c i it ∧
          contents c' = <[key := value]> (delete (Key it) (contents c)))).
Proof.
  intros H Hc. pose proof (wf_hand _ H Hc) as Hh. unfold Set_, updateIfExists.
  rewrite decide_False by done. destruct (keys c !! key) as [i|] eqn:Ek.
  { destruct (clk_wf_lookup _ _ _ H Ek) as (it & Hi & Hk & Hlt). rewrite Hi. cbn.
    rewrite setSlot_Some by done. cbn. eexists. split; [done|]. split_and!; [|done|].
    - by eapply update_wf; [..|apply touched_uint32].
    - left. split; [left; by apply contents_is_Some|]. subst key.
      by rewrite (contents_touch _ _ it). }
  assert (contents c !! key = None) as En by (rewrite contents_lookup, Ek; done). cbn.
  destruct (tryInsertInFreeSlot_cases key value c H Hc) as [(i & Hi & ->)|[Hfull ->]]; cbn.
  - assert (i < capacity c) as Hlt by (rewrite <- (wf_length _ H); by eapply lookup_lt_Some).
    eexists. split; [done|]. split_and!.
    + apply advanceHand_wf. apply (fill_wf (with_hand i c)); [by apply with_hand_wf|done|done].
    + done.
    + left. split.
      * right. intros Hf. destruct (Hf i Hlt). congruence.
      * apply (contents_replace c _ i None); try done.
        -- intros i' _ Hne. unfold slot_value. cbn. by rewrite list_lookup_insert_ne.
        -- unfold slot_value. cbn. rewrite list_lookup_insert_eq; [done|by eapply lookup_lt_Some].
  - destruct (evictAndInsert_cases key value c H Hc Ek)
      as (c' & -> & Hw' & Ec' & [(Hp & Ek' & Hi')|(i & it & Hf & Ek' & Hi')]);
      (eexists; split; [done|]; split_and!; [done..|]; right; split; [done|]; split; [done|]).
    + left. split; [|done]. apply contents_same; [done| |done].
      intros i _. by apply chanced_value.
    + right. exists i, it. split; [done|].
      assert (i < capacity c) as Hlt.
      { rewrite <- (wf_length _ H). eapply lookup_lt_Some. apply Hf. }
      apply (contents_replace c _ i (Some it)); try done.
      * intros ? [= <-]. apply Hf.
      * intros i' Hlt' Hne. apply (swept_slot_value c c' i). rewrite Hi' by done.
        by rewrite decide_False.
      * unfold slot_value. rewrite Hi', decide_True by done. done.
Qed.

Lemma Evict_contents c :
  wf c →
  ∃ c' r, Evict c = Some (c', r) ∧ wf c' ∧ capacity c' = capacity c ∧
    (r = (""%string, false) ∧ contents c' = contents c ∨
     ∃ k, r = (k, true) ∧ is_Some (contents c !! k) ∧ contents c' = delete k (contents c)).
Proof.
  intros H. destruct (decide (capacity c = 0)) as [E|Hc].
  { unfold Evict. rewrite decide_True by done. eauto 10. }
  destruct (Evict_cases c H Hc) as (c' & r & -> & Hw & Ec & [(-> & Ek & _ & _ & Hi)|
    (i & it & -> & Hi & _ & Ek & _ & _ & Hi')]); eexists _, _; (split; [done|]);
    split_and!; try done; [left|right].
  - split; [done|]. apply contents_same; [done| |done]. intros j _. by apply chanced_value.
  - exists (Key it). split; [done|]. split; [by rewrite (contents_resident _ _ _ H Hi)|].
    apply map_eq. intros k. rewrite lookup_delete, !contents_lookup, Ek, lookup_delete.
    case_decide as E; [done|]. destruct (keys c !! k) as [j|] eqn:Ej; [|done]. cbn.
    destruct (clk_wf_lookup _ _ _ H Ej) as (it0 & Hj & Hk' & Hlt).
    apply (swept_slot_value c c' i). rewrite Hi' by done. rewrite decide_False; [done|].
    intros ->. congruence.
Qed.

Lemma size_contents c : wf c → size (contents c) ≤ capacity c.
Proof.
  intros H. set (ks := elements (dom (contents c))).
  assert (length ks = size (contents c)) as <-.
  { unfold ks. rewrite <- size_dom. done. }
  set (ix := λ k, default 0 (keys c !! k)).
  assert (∀ k, k ∈ ks → ∃ i it, keys c !! k = Some i ∧ items c !! i = Some (Some it) ∧
    Key it = k ∧ i < capacity c) as Hks.
  { intros k [v Hk]%elem_of_elements%elem_of_dom.
    destruct (contents_Some _ _ _ H Hk) as (i & it & Hi & ? & _ & Hki).
    exists i, it. split_and!; try done. rewrite <- (wf_length _ H). by eapply lookup_lt_Some. }
  rewrite <- (length_fmap ix ks), <- (length_seq (capacity c) 0).
  apply NoDup_incl_length.
  - apply NoDup_ListNoDup. apply NoDup_fmap_2_strong; [|apply NoDup_elements].
    intros k1 k2 (i1 & it1 & E1 & ? & ? & _)%Hks (i2 & it2 & E2 & ? & ? & _)%Hks.
    unfold ix. rewrite E1, E2. cbn. congruence.
  - intros i Hi. apply list_elem_of_In in Hi. apply list_elem_of_fmap in Hi as (k & -> & Hk).
    destruct (Hks k Hk) as (i & it & E & _ & _ & Hlt). apply in_seq. unfold ix. rewrite E. cbn. lia.
Qed.

#[global] Instance Clock_IAlgorithm : IAlgorithm ClockAlgorithm := {
  alg_Evict := Evict; alg_Set := λ _, Set_; alg_Get := Get; alg_Delete := Delete }.

Lemma New_wf cap c : NewClockAlgorithm cap = Ok c →
  wf c ∧ contents c = ∅ ∧ capacity c = Z.to_nat cap.
Proof.
  unfold NewClockAlgorithm. destruct (Z.ltb_spec cap 0); intros; simplify_eq.
  split_and!; [split; cbn|..].
  - by rewrite length_replicate.
  - lia.
  - intros k i. rewrite lookup_empty. split; [done|]. intros (it & Hr & _).
    by apply lookup_replicate in Hr as [? _].
  - intros i it Hr. by apply lookup_replicate in Hr as [? _].
  - apply map_eq. intros k. by rewrite contents_lookup.
  - done.
Qed.

(** ** The claims *)

(** On a clock cache of positive capacity, [Evict] removes the first
    resident, counting slots from the hand, whose access count is zero; the
    residents it passes keep their values and lose one from their counts, and
    when every resident has a positive count one call only takes one from each of
    them and reports failure.  It never panics and keeps the key index exact. *)
Theorem clock_evict_second_chance (c : ClockAlgorithm) :
  wf c → capacity c ≠ 0 →
  ∃ c' r, Evict c = Some (c', r) ∧ wf c' ∧
    ((r = (""%string, false) ∧ contents c' = contents c ∧
      (∀ i slot, items c !! i = Some slot → passable slot) ∧
      (∀ i, items c' !! i = chanced <$> items c !! i)) ∨
     (∃ i it, r = (Key it, true) ∧ first_unused c i it ∧ hand c' = i ∧
      (∀ i', i' < capacity c → items c' !! i' =
        if decide (i' = i) then Some None else swept_slot c i i'))).
Proof.
  intros H Hc. destruct (Evict_cases c H Hc) as (c' & r & Ev & Hw & Ec & [(-> & Ek & _ & Hp & Hi)|
    (i & it & -> & Hi & Hz & Ek & Hh & Hp & Hi')]); exists c'; eexists;
    (split; [exact Ev|]; split; [done|]); [left|right].
  - split_and!; try done. apply contents_same; [done| |done]. intros j _. by apply chanced_value.
  - exists i, it. by split_and!.
Qed.

Definition sample (n : Z) : option ClockAlgorithm :=
  match NewClockAlgorithm n with
  | Ok c => c ← Set_ "a" (AString "1") c; c ← Set_ "b" (AString "2") c; Some c
  | Err _ => None
  end.

(** One more [Set] for every key at a time; the states [sample] builds are
    well formed. *)
Lemma clk_sample_wf n c : (0 < n)%Z → sample n = Some c → wf c ∧ capacity c = Z.to_nat n.
Proof.
  intros Hn. unfold sample. destruct (NewClockAlgorithm n) as [c0|] eqn:E; [|done].
  destruct (New_wf _ _ E) as (H0 & _ & Ec0).
  destruct (Set_contents "a" (AString "1") c0 H0) as (c1 & -> & H1 & Ec1 & _); [lia|]. cbn.
  destruct (Set_contents "b" (AString "2") c1 H1) as (c2 & -> & H2 & Ec2 & _); [lia|]. cbn.
  intros. simplify_eq. split; [done|lia].
Qed.

Lemma clock_evict_second_chance_witness :
  ∃ c c' r, sample 2 = Some c ∧ Evict c = Some (c', r) ∧ r = (""%string, false) ∧
    wf c' ∧ snd <$> Evict c' = Some ("a"%string, true).
Proof.
  destruct (sample 2) as [c|] eqn:E; [|by vm_compute in E].
  destruct (clk_sample_wf 2 c ltac:(lia) E) as [H Hc].
  destruct (clock_evict_second_chance c H) as (c' & r & Ev & Hw & _); [rewrite Hc; lia|].
  exists c, c', r. vm_compute in E. injection E as <-. vm_compute in Ev. injection Ev as <- <-.
  split_and!; try reflexivity. exact Hw.
Defined.

(** [Evict] called until it reports a key, at most [n] times. *)
Fixpoint evictUntil (n : nat) (c : ClockAlgorithm) : option (ClockAlgorithm * (string * bool)) :=
  match n with
  | 0 => Some (c, (""%string, false))
  | S n => r ← Evict c; if r.2.2 : bool then Some r else evictUntil n r.1
  end.

(** Progress of the clock: while a key is resident, evictions cannot keep
    failing; some call succeeds within one more than the access count of any
    resident item. *)
Theorem clock_evict_progress (c : ClockAlgorithm) (i : nat) (it : Item) :
  wf c → items c !! i = Some (Some it) →
  ∃ c' k, evictUntil (S (Z.to_nat (AccessCount it))) c = Some (c', (k, true)) ∧
    is_Some (contents c !! k) ∧ contents c' = delete k (contents c).
Proof.
  remember (Z.to_nat (AccessCount it)) as n eqn:En. revert c it En.
  induction n as [|n IH]; intros c it En H Hi; pose proof (wf_count _ H _ _ Hi) as Hu;
    assert (capacity c ≠ 0) as Hc by (rewrite <- (wf_length _ H);
      apply lookup_lt_Some in Hi; lia);
    destruct (Evict_cases c H Hc) as (c' & r & Ev & Hw & Ec & [(-> & Ek & _ & Hp & Hi')|
      (j & it' & -> & Hj & _)]);
    change (evictUntil (S ?m) c) with
      (r ← Evict c; if r.2.2 : bool then Some r else evictUntil m r.1);
    rewrite Ev; cbn [mbind option_bind fst snd].
  - specialize (Hp _ _ Hi). cbn in Hp. destruct Hu. lia.
  - destruct (Evict_contents c H) as (c2 & r2 & Ev2 & _ & _ & [[-> _]|(k & -> & Hk & Hd)]);
      rewrite Ev in Ev2; simplify_eq. eauto.
  - assert (contents c' = contents c) as Econt.
    { apply contents_same; [done| |done]. intros j _. by apply chanced_value. }
    rewrite <- Econt. apply (IH c' (second_chance it)); [|done|].
    + specialize (Hp _ _ Hi). cbn in *. destruct Hu. rewrite u32_small by lia. lia.
    + rewrite Hi', Hi. done.
  - destruct (Evict_contents c H) as (c2 & r2 & Ev2 & _ & _ & [[-> _]|(k & -> & Hk & Hd)]);
      rewrite Ev in Ev2; simplify_eq. eauto.
Qed.

Lemma clock_evict_progress_witness :
  ∃ c it, sample 2 = Some c ∧ items c !! 0 = Some (Some it) ∧ AccessCount it = 1%Z ∧
    ∃ c' k, evictUntil 2 c = Some (c', (k, true)) ∧ is_Some (contents c !! k) ∧
      contents c' = delete k (contents c).
Proof.
  destruct (sample 2) as [c|] eqn:E; [|by vm_compute in E].
  destruct (clk_sample_wf 2 c ltac:(lia) E) as [H _].
  destruct (items c !! 0) as [[it|]|] eqn:Ei.
  - exists c, it. pose proof (clock_evict_progress c 0 it H Ei) as Hp.
    vm_compute in E. injection E as <-. vm_compute in Ei. injection Ei as <-.
    split_and!; try reflexivity. exact Hp.
  - vm_compute in E. injection E as <-. by vm_compute in Ei.
  - vm_compute in E. injection E as <-. by vm_compute in Ei.
Defined.

(** A resident whose count is zero. *)
Definition unused (c : ClockAlgorithm) : Prop :=
  ∃ i it, items c !! i = Some (Some it) ∧ AccessCount it = 0%Z.

(** [Set] on a clock cache of positive capacity never panics, and a [Get]
    of the key right after it hits with the new value exactly when the key was
    already there, a slot was free, or some resident had a zero access count.
    Otherwise the new key is dropped and the contents are as they were.  At most
    one other key is lost, and only in exchange for the new one. *)
Theorem clock_set_outcome (key : string) (value : any) (c : ClockAlgorithm) :
  wf c → capacity c ≠ 0 →
  ∃ c' c'' r, Set_ key value c = Some c' ∧ wf c' ∧ Get key c' = Some (c'', r) ∧
    ((is_Some (contents c !! key) ∨ ¬ full c ∨ unused c) → r = (value, true)) ∧
    (contents c !! key = None → full c → ¬ unused c →
       r = (ANil, false) ∧ contents c' = contents c) ∧
    (∃ gone : option string, ∀ k, k ≠ key → Some k ≠ gone →
       contents c' !! k = contents c !! k) ∧
    (is_Some (contents c !! key) ∨ ¬ full c → contents c' = <[key := value]> (contents c)).
Proof.
  intros H Hc. destruct (Set_contents key value c H Hc) as (c' & -> & Hw & Ec & Hcase).
  destruct (Get_contents key c' Hw) as (c'' & Hg & _). eexists c', c'', _. do 2 (split; [done|]).
  split; [exact Hg|].
  destruct Hcase as [[Hin Hd]|(Hn & Hf & [(Hd & Hp & _)|(i & it & (Hi & Hz & Hp) & Hd)])];
    rewrite !Hd.
  - rewrite lookup_insert_eq. split_and!; [done| |exists None; intros; by rewrite lookup_insert_ne|done].
    intros Hn Hf _. rewrite Hn in Hin. destruct Hin as [[? ?]|?]; done.
  - assert (¬ unused c) as Hu.
    { intros (i & it & Hi & Hz). specialize (Hp _ _ Hi). cbn in Hp. lia. }
    rewrite Hn. split_and!; [| done|by exists None|].
    + intros [[? ?]|[?|?]]; done.
    + intros [[? ?]|?]; done.
  - rewrite lookup_insert_eq. split_and!; [done|..].
    + intros _ _ []. by exists i, it.
    + exists (Some (Key it)). intros k Hk Hg'. rewrite lookup_insert_ne by done.
      rewrite lookup_delete_ne; [done|congruence].
    + rewrite Hn. intros [[? ?]|?]; done.
Qed.

Lemma clock_set_outcome_witness :
  ∃ c c' c'' r, sample 2 = Some c ∧ Set_ "c" (AString "3") c = Some c' ∧
    Get "c" c' = Some (c'', r) ∧ r = (ANil, false) ∧
    (∃ gone : option string, ∀ k, k ≠ "c"%string → Some k ≠ gone →
       contents c' !! k = contents c !! k).
Proof.
  destruct (sample 2) as [c|] eqn:E; [|by vm_compute in E].
  destruct (clk_sample_wf 2 c ltac:(lia) E) as [H Hc].
  destruct (clock_set_outcome "c" (AString "3") c H) as (c' & c'' & r & Hs & _ & Hg & _ & _ & Hgone & _);
    [rewrite Hc; lia|].
  exists c, c', c'', r. split; [done|]. split; [done|]. split; [done|]. split; [|done].
  vm_compute in E. injection E as <-. vm_compute in Hs. injection Hs as <-.
  vm_compute in Hg. by injection Hg as <- <-.
Defined.

(** ** Filling a cache with new keys *)

Definition fresh_counts (c : ClockAlgorithm) : Prop :=
  ∀ i it, items c !! i = Some (Some it) → AccessCount it = 1%Z.

Fixpoint sets (ks : list string) : list op :=
  match ks with [] => [] | k :: ks => OSet 0 k (AString k) :: sets ks end.

(** A cache with more slots than keys has a free slot. *)
Lemma full_size c : wf c → full c → capacity c ≤ size (contents c).
Proof.
  intros H Hf. rewrite <- size_dom.
  set (f := λ i, match items c !! i with Some (Some it) => Key it | _ => ""%string end).
  rewrite <- (length_seq (capacity c) 0) at 1. rewrite <- (length_fmap f).
  unfold size, set_size. cbn. apply NoDup_incl_length.
  - apply NoDup_ListNoDup, NoDup_fmap_2_strong; [|apply NoDup_ListNoDup, seq_NoDup].
    intros i j [_ Hi]%elem_of_seq [_ Hj]%elem_of_seq. unfold f.
    destruct (Hf i Hi) as [it1 E1], (Hf j Hj) as [it2 E2]. rewrite E1, E2. intros E.
    apply (wf_resident _ _ _ H) in E1, E2. congruence.
  - intros k Hk. apply list_elem_of_In in Hk.
    apply list_elem_of_fmap in Hk as (i & -> & [_ Hi]%elem_of_seq).
    apply list_elem_of_In, elem_of_elements, elem_of_dom. unfold f.
    destruct (Hf i Hi) as [it E1]. rewrite E1. by rewrite (contents_resident _ _ _ H E1).
Qed.

Lemma Set_fresh key value c :
  wf c → contents c !! key = None → size (contents c) < capacity c → fresh_counts c →
  ∃ c', Set_ key value c = Some c' ∧ wf c' ∧ capacity c' = capacity c ∧ fresh_counts c' ∧
    contents c' = <[key := value]> (contents c).
Proof.
  intros H Hn Hlt Hf. assert (capacity c ≠ 0) as Hc by lia.
  assert (¬ full c) as Hfull by (intros Hfull%full_size; [lia|done]).
  destruct (Set_contents key value c H Hc) as (c' & Hs & Hw & Ec & [[_ Hd]|(_ & ? & _)]); [|done].
  exists c'. split_and!; try done.
  assert (keys c !! key = None) as Ek.
  { apply eq_None_not_Some. rewrite <- contents_is_Some by done. rewrite Hn. by intros [? ?]. }
  unfold Set_, updateIfExists in Hs. rewrite decide_False, Ek in Hs by done. cbn in Hs.
  destruct (tryInsertInFreeSlot_cases key value c H Hc) as [(i & Hi & E)|[? _]]; [|done].
  rewrite E in Hs. cbn in Hs. injection Hs as <-. intros j it. cbn.
  destruct (decide (i = j)) as [->|Hne].
  - rewrite list_lookup_insert_eq by (by eapply lookup_lt_Some). intros. by simplify_eq.
  - rewrite list_lookup_insert_ne by done. apply Hf.
Qed.

Lemma sets_fresh ks c :
  wf c → fresh_counts c → NoDup ks → (∀ k, k ∈ ks → contents c !! k = None) →
  size (contents c) + length ks ≤ capacity c →
  ∃ c' outs, run (sets ks) c = Some (c', outs) ∧ wf c' ∧ fresh_counts c' ∧
    capacity c' = capacity c ∧ size (contents c') = size (contents c) + length ks ∧
    ∀ k, is_Some (contents c' !! k) ↔ is_Some (contents c !! k) ∨ k ∈ ks.
Proof.
  revert c. induction ks as [|k ks IH]; intros c H Hf Hnd Hn Hsz; cbn in *.
  { eexists _, _. split; [done|]. split_and!; [done..|lia|set_solver]. }
  apply NoDup_cons in Hnd as [Hk Hnd].
  destruct (Set_fresh k (AString k) c H) as (c1 & -> & H1 & Ec1 & Hf1 & Hd1);
    [apply Hn; by left|lia|done|]. cbn.
  assert (size (contents c1) = S (size (contents c))) as Hs1.
  { rewrite Hd1. apply map_size_insert_None, Hn. by left. }
  destruct (IH c1) as (c2 & outs & -> & H2 & Hf2 & Ec2 & Hs2 & Hin); try done; [|lia|].
  { intros k' Hk'. rewrite Hd1. rewrite lookup_insert_ne by set_solver. apply Hn. by right. }
  cbn. eexists _, _. split; [done|]. split_and!; [done..|lia|lia|].
  intros k'. rewrite Hin, Hd1, lookup_insert, elem_of_cons. case_decide.
  - subst. naive_solver.
  - naive_solver.
Qed.

(** A clock cache that has just been filled with as many distinct new keys
    as it has slots drops the next new key: its [Set] returns normally, and a
    [Get] of that key misses (all access counts are one, so the sweep of that
    [Set] gives every resident its second chance and finds no victim). *)
Theorem clock_overflow_dropped (cap : Z) (ks : list string) (k : string) (v : any)
    (c0 : ClockAlgorithm) :
  NewClockAlgorithm cap = Ok c0 → ks ≠ [] → length ks = Z.to_nat cap → NoDup ks → k ∉ ks →
  ∃ c c' c'' outs, run (sets ks) c0 = Some (c, outs) ∧ Set_ k v c = Some c' ∧
    Get k c' = Some (c'', (ANil, false)) ∧
    ∀ k', k' ∈ ks → is_Some (contents c' !! k').
Proof.
  intros E Hne Hlen Hnd Hk. destruct (New_wf _ _ E) as (H0 & Hd0 & Hc0).
  assert (fresh_counts c0) as Hf0.
  { intros i it Hi. apply (contents_resident _ _ _ H0) in Hi. by rewrite Hd0 in Hi. }
  destruct (sets_fresh ks c0 H0 Hf0 Hnd) as (c & outs & Hr & Hw & Hf & Ec & Hs & Hin).
  { intros k' _. by rewrite Hd0. } { rewrite Hd0, map_size_empty. lia. }
  assert (capacity c ≠ 0) as Hcap by (destruct ks; cbn in *; [done|lia]).
  assert (contents c !! k = None) as Hkn.
  { apply eq_None_not_Some. rewrite Hin, Hd0. intros [[? ?]|?]; [|done]. done. }
  rewrite Hd0, map_size_empty in Hs.
  destruct (Set_contents k v c Hw Hcap)
    as (c' & Hset & Hw' & Ec' & [[_ Hd]|(_ & _ & [(Hd & _)|(i & it & (Hi & Hz & _) & _)])]).
  - pose proof (size_contents c' Hw') as Hsz. rewrite Hd, map_size_insert_None in Hsz by done. lia.
  - destruct (Get_contents k c' Hw') as (c'' & Hg & _). rewrite Hd, Hkn in Hg. cbn in Hg.
    exists c, c', c'', outs. split_and!; try done. intros k' Hk'. rewrite Hd, Hin. by right.
  - specialize (Hf _ _ Hi). lia.
Qed.

Lemma clock_overflow_dropped_witness :
  ∃ c0 c c' c'' outs, NewClockAlgorithm 2 = Ok c0 ∧ run (sets ["a"; "b"]%string) c0 = Some (c, outs) ∧
    Set_ "c" ANil c = Some c' ∧ Get "c" c' = Some (c'', (ANil, false)).
Proof.
  destruct (NewClockAlgorithm 2) as [c0|] eqn:E; [|by vm_compute in E].
  destruct (clock_overflow_dropped 2 ["a"; "b"]%string "c" ANil c0 E)
    as (c & c' & c'' & outs & ? & ? & ? & _); [done|done| |set_solver|eauto 10].
  apply NoDup_cons. split; [set_solver|]. apply NoDup_singleton.
Defined.

End Clock.
