(* ===== verification/Heap.v ===== *)
(** * Go's container/heap

    The four functions of the standard library's container/heap that lfu.go
    calls, over the operations of [heap.Interface] as a class.  A loop that has
    no bound in Go takes [fuel]; the wrappers pass one more than the number of
    iterations that can happen.  The laws of the class relate a state to the list
    of its elements; against them, every function keeps the heap order. *)

From stdpp Require Import base list sorting.
From Stdlib Require Import ZArith Lia.
From S2P Require Import Prelude.

(** ** The code *)

Class HeapInterface (H X : Type) := {
  hLen : H → nat;
  hLess : nat → nat → H → option bool;
  hSwap : nat → nat → H → option H;
  hPush : X → H → option H;
  hPop : H → option (H * X) }.

Section Code.
Context {H X : Type} `{HeapInterface H X}.

(** In Go [(j-1)/2] is 0 for [j = 0] as well. *)
Fixpoint up_loop (fuel j : nat) (h : H) : option H :=
  match fuel with
  | 0 => None
  | S fuel =>
      let i := (j - 1) / 2 in
      if decide (i = j) then Some h
      else
        less ← hLess j i h;
        if negb less then Some h
        else h ← hSwap i j h; up_loop fuel i h
  end.

Definition heap_up (h : H) (j : nat) : option H := up_loop (S j) j h.

Fixpoint down_loop (fuel i n : nat) (h : H) : option (H * nat) :=
  match fuel with
  | 0 => None
  | S fuel =>
      let j1 := 2 * i + 1 in
      if decide (n ≤ j1) then Some (h, i)
      else
        let j2 := j1 + 1 in
        j ← (if decide (j2 < n) then less ← hLess j2 j1 h; Some (if less : bool then j2 else j1)
             else Some j1);
        less ← hLess j i h;
        if negb less then Some (h, i)
        else h ← hSwap i j h; down_loop fuel j n h
  end.

Definition heap_down (h : H) (i0 n : nat) : option (H * bool) :=
  r ← down_loop (S n) i0 n h; Some (r.1, bool_decide (i0 < r.2)).

Definition heap_Push (x : X) (h : H) : option H :=
  h ← hPush x h; heap_up h (hLen h - 1).

(** Both start from [h.Len() - 1], so on an empty heap Go panics. *)
Definition heap_Pop (h : H) : option (H * X) :=
  if decide (hLen h = 0) then None
  else
    let n := hLen h - 1 in
    h ← hSwap 0 n h;
    r ← heap_down h 0 n;
    hPop r.1.

Definition heap_Remove (i : nat) (h : H) : option (H * X) :=
  if decide (hLen h = 0) then None
  else
    let n := hLen h - 1 in
    h ← (if decide (n = i) then Some h
         else
           h ← hSwap i n h;
           r ← heap_down h i n;
           if negb r.2 then heap_up r.1 i else Some r.1);
    hPop h.

Definition heap_Fix (i : nat) (h : H) : option H :=
  r ← heap_down h i (hLen h);
  if negb r.2 then heap_up r.1 i else Some r.1.

End Code.

(** ** Order *)

Definition par (k : nat) : nat := (k - 1) / 2.

Definition swap {A} (i j : nat) (xs : list A) : list A :=
  match xs !! i, xs !! j with
  | Some x, Some y => <[i := y]> (<[j := x]> xs)
  | _, _ => xs
  end.

Lemma length_swap {A} i j (xs : list A) : length (swap i j xs) = length xs.
Proof. unfold swap. repeat case_match; by rewrite ?length_insert. Qed.

Lemma swap_lookup {A} i j (xs : list A) k x y :
  xs !! i = Some x → xs !! j = Some y →
  swap i j xs !! k = if decide (k = i) then Some y else if decide (k = j) then Some x else xs !! k.
Proof.
  intros Hi Hj. unfold swap. rewrite Hi, Hj.
  apply lookup_lt_Some in Hi, Hj. case_decide.
  - subst. rewrite list_lookup_insert_eq; [done|by rewrite length_insert].
  - rewrite list_lookup_insert_ne by done. case_decide.
    + subst. by rewrite list_lookup_insert_eq.
    + by rewrite list_lookup_insert_ne.
Qed.

Lemma swap_perm {A} i j (xs : list A) : swap i j xs ≡ₚ xs.
Proof.
  unfold swap. destruct (xs !! i) as [x|] eqn:Hi; [|done]. destruct (xs !! j) as [y|] eqn:Hj; [|done].
  destruct (decide (i = j)) as [->|Hne].
  { simplify_eq. by rewrite list_insert_insert_eq, list_insert_id. }
  assert (∀ (zs : list A) a b u, zs !! a = Some u → b :: zs ≡ₚ u :: <[a := b]> zs) as Hins.
  { intros zs a b u Ha. rewrite (insert_take_drop zs a b) by (by eapply lookup_lt_Some).
    rewrite <- (take_drop_middle zs a u Ha) at 1. rewrite <- !Permutation_middle. apply Permutation_swap. }
  apply (Permutation_cons_inv (a := x)).
  assert (<[j := x]> xs !! i = Some x) as Hix by (by rewrite list_lookup_insert_ne).
  rewrite <- (Hins _ _ y _ Hix). by rewrite (Hins _ _ x _ Hj).
Qed.

(** The comparison a heap is ordered by: [le x y] is "not [lt y x]". *)
Class HeapOrder {A : Type} (lt : A → A → bool) := {
  lt_asym : ∀ x y, lt x y = true → lt y x = false;
  le_trans : ∀ x y z, lt y x = false → lt z y = false → lt z x = false }.

(** The interface's laws: [rep h xs] when the slice of [h] spells [xs]. *)
Class HeapLaws {A H X : Type} (lt : A → A → bool) `{HeapInterface H X} := {
  rep : H → list A → Prop;
  rep_elem : A → X;
  rep_Len : ∀ h xs, rep h xs → hLen h = length xs;
  rep_Less : ∀ h xs i j x y, rep h xs → xs !! i = Some x → xs !! j = Some y →
    hLess i j h = Some (lt x y);
  rep_Swap : ∀ h xs i j x y, rep h xs → xs !! i = Some x → xs !! j = Some y →
    ∃ h', hSwap i j h = Some h' ∧ rep h' (swap i j xs);
  rep_Pop : ∀ h xs x, rep h (xs ++ [x]) →
    ∃ h', hPop h = Some (h', rep_elem x) ∧ rep h' xs }.

Section Order.
Context {A : Type} (lt : A → A → bool) `{!HeapOrder lt}.
Implicit Types xs : list A.

(** Position [k] is not below its parent. *)
Definition ok xs (k : nat) : Prop :=
  ∀ x p, 0 < k → xs !! k = Some x → xs !! par k = Some p → lt x p = false.

(** A child of [i] is not below the parent of [i]. *)
Definition skip xs (i : nat) (k : nat) : Prop :=
  ∀ x p, 0 < i → 0 < k → par k = i → xs !! k = Some x → xs !! par i = Some p → lt x p = false.

(** The first [n] positions are in heap order. *)
Definition heap_upto (n : nat) xs : Prop := ∀ k, k < n → ok xs k.
Definition is_heap xs : Prop := heap_upto (length xs) xs.

(** Heap order but for position [j] against its parent. *)
Definition up_inv (n j : nat) xs : Prop :=
  (∀ k, k < n → k ≠ j → ok xs k) ∧ (∀ k, k < n → skip xs j k).

(** Heap order but for position [i] against its children, and against its parent
    too while it is still the starting position. *)
Definition down_inv (i0 n i : nat) xs : Prop :=
  (∀ k, k < n → k ≠ i → par k ≠ i → ok xs k) ∧ (i ≠ i0 → ok xs i) ∧
  (∀ k, k < n → skip xs i k).

Lemma par_lt k : 0 < k → par k < k.
Proof. intros. unfold par. apply Nat.Div0.div_lt_upper_bound. lia. Qed.

Lemma par_fix j : par j = j ↔ j = 0.
Proof.
  split; [|by intros ->]. intros E. destruct (decide (j = 0)); [done|].
  pose proof (par_lt j). lia.
Qed.

Lemma par_child i k : 0 < k → par k = i ↔ k = 2 * i + 1 ∨ k = 2 * i + 2.
Proof.
  intros Hk. unfold par. split; [|intros [->| ->]].
  - intros <-. pose proof (Nat.div_mod_eq (k - 1) 2).
    pose proof (Nat.mod_upper_bound (k - 1) 2). lia.
  - rewrite (Nat.mul_comm 2 i). replace (i * 2 + 1 - 1) with (i * 2) by lia. by rewrite Nat.div_mul.
  - replace (2 * i + 2 - 1) with (1 + i * 2) by lia. rewrite Nat.div_add by lia. done.
Qed.

Lemma up_inv_heap n xs : up_inv n 0 xs → heap_upto n xs.
Proof.
  intros [Hok _] k Hk. destruct (decide (k = 0)) as [->|]; [intros ? ? ?; lia|by apply Hok].
Qed.

Lemma up_inv_stop n j xs x p :
  up_inv n j xs → xs !! j = Some x → xs !! par j = Some p → lt x p = false → heap_upto n xs.
Proof.
  intros [Hok _] Hx Hp Hlt k Hk. destruct (decide (k = j)) as [->|]; [|by apply Hok].
  intros x' p' _ ? ?. by simplify_eq.
Qed.

(** The step of [up]: the swap moves the violation to the parent. *)
Lemma up_inv_step n j xs x p :
  up_inv n j xs → 0 < j → j < n → xs !! j = Some x → xs !! par j = Some p → lt x p = true →
  up_inv n (par j) (swap (par j) j xs).
Proof.
  intros [Hok Hskip] Hj Hjn Hx Hp Hlt. pose proof (par_lt j Hj) as Hpj.
  assert (∀ k z, k < n → k ≠ j → 0 < k → par k = par j → xs !! k = Some z → lt z p = false) as Hsib.
  { intros k z Hk Hne H0 E Hz. apply (Hok k Hk Hne z p H0 Hz). by rewrite E. }
  split.
  - intros k Hk Hne x' p' H0. rewrite !(swap_lookup _ _ _ _ p x) by done.
    rewrite (decide_False (P := k = par j)) by done.
    destruct (decide (k = j)) as [->|Hkj].
    + rewrite (decide_True (P := par j = par j)) by done. intros. simplify_eq. by apply lt_asym.
    + destruct (decide (par k = par j)) as [E|E].
      * intros Hz ?. simplify_eq. eapply le_trans; [by apply lt_asym|by eapply Hsib].
      * destruct (decide (par k = j)) as [E'|E'].
        -- intros Hz ?. simplify_eq. by apply (Hskip k Hk x' p').
        -- intros Hz Hp'. by apply (Hok k Hk Hkj x' p').
  - intros k Hk x' p' H0 H0k E. rewrite !(swap_lookup _ _ _ _ p x) by done.
    pose proof (par_lt (par j) H0). pose proof (par_lt k H0k).
    rewrite (decide_False (P := par (par j) = par j)) by lia.
    rewrite (decide_False (P := par (par j) = j)) by lia.
    rewrite (decide_False (P := k = par j)) by lia. intros Hk' Hp'.
    assert (lt p p' = false) as Hpp by (apply (Hok (par j) ltac:(lia) ltac:(lia) p p'); [done..]).
    destruct (decide (k = j)) as [->|Hkj]; [by simplify_eq|].
    eapply le_trans; [exact Hpp|]. by eapply Hsib.
Qed.

(** The step of [down]: [j] is the child of [i] that is not above its sibling. *)
Lemma down_inv_step i0 n i j xs x y :
  down_inv i0 n i xs → i0 ≤ i → j < n → 0 < j → par j = i →
  xs !! i = Some x → xs !! j = Some y → lt y x = true →
  (∀ k z, k < n → 0 < k → par k = i → xs !! k = Some z → lt z y = false) →
  down_inv i0 n j (swap i j xs).
Proof.
  intros (Hok & Hi & Hskip) Hge Hjn Hj0 Hpj Hx Hy Hlt Hmin.
  pose proof (par_lt j Hj0) as Hij. rewrite Hpj in Hij. split_and!.
  - intros k Hk Hkj Hpk x' p' H0. rewrite !(swap_lookup _ _ _ _ x y) by done.
    rewrite (decide_False (P := k = j)), (decide_False (P := par k = j)) by done.
    destruct (decide (k = i)) as [->|Hki].
    + pose proof (par_lt i H0). rewrite (decide_False (P := par i = i)) by lia.
      intros Hz Hp'. simplify_eq. by apply (Hskip j Hjn x' p').
    + destruct (decide (par k = i)) as [E|E].
      * intros Hz ?. simplify_eq. by apply (Hmin k).
      * intros Hz Hp'. by apply (Hok k Hk Hki E x' p').
  - intros _ x' p' _. rewrite !(swap_lookup _ _ _ _ x y) by done. rewrite Hpj.
    rewrite (decide_False (P := j = i)), decide_True, decide_True by (done || lia).
    intros. simplify_eq. by apply lt_asym.
  - intros k Hk x' p' _ H0 E. rewrite !(swap_lookup _ _ _ _ x y) by done. rewrite Hpj.
    pose proof (par_lt k H0). rewrite (decide_True (P := i = i)) by done.
    rewrite (decide_False (P := k = i)), (decide_False (P := k = j)) by lia.
    intros Hz Hp'. injection Hp' as <-. apply (Hok k Hk ltac:(lia) ltac:(lia) x' y); [done..|].
    by rewrite E.
Qed.

(** Where [down] stops, only its starting position can still be wrong. *)
Lemma down_inv_stop i0 n i xs x :
  down_inv i0 n i xs → xs !! i = Some x →
  (∀ k z, k < n → 0 < k → par k = i → xs !! k = Some z → lt z x = false) →
  (∀ k, k < n → k ≠ i → ok xs k) ∧ (i ≠ i0 → ok xs i) ∧ (∀ k, k < n → skip xs i k).
Proof.
  intros (Hok & Hi & Hskip) Hx Hmin. split_and!; [|done|done].
  intros k Hk Hki. destruct (decide (par k = i)) as [E|E]; [|by apply Hok].
  intros z p H0 Hz Hp. rewrite E, Hx in Hp. simplify_eq. by apply (Hmin k).
Qed.

(** The root of a heap is not above any of its elements. *)
Lemma heap_root xs x :
  is_heap xs → xs !! 0 = Some x → ∀ k z, xs !! k = Some z → k ≠ 0 → lt z x = false.
Proof.
  intros Hh Hx k. induction (lt_wf k) as [k _ IH]. intros z Hz Hk.
  pose proof (par_lt k ltac:(lia)) as Hp.
  assert (k < length xs) as Hlt by (by eapply lookup_lt_Some).
  destruct (xs !! par k) as [p|] eqn:Ep; [|apply lookup_ge_None in Ep; lia].
  pose proof (Hh k Hlt z p ltac:(lia) Hz Ep) as Hzp.
  destruct (decide (par k = 0)) as [E|E]; [rewrite E in Ep; by simplify_eq|].
  eapply le_trans; [by eapply (IH (par k))|done].
Qed.

End Order.

Section Loops.
Context {A H X : Type} (lt : A → A → bool) `{HI : !HeapInterface H X} `{!HeapOrder lt}
  `{HL : !HeapLaws (A := A) lt}.
Implicit Types (h : H) (xs : list A).

(** [xs'] rearranges [xs], without touching the positions from [n] on. *)
Definition rearranged (n : nat) xs xs' : Prop :=
  xs' ≡ₚ xs ∧ ∀ k, n ≤ k → xs' !! k = xs !! k.

Lemma rearranged_refl n xs : rearranged n xs xs.
Proof. done. Qed.

Lemma rearranged_trans n xs ys zs : rearranged n xs ys → rearranged n ys zs → rearranged n xs zs.
Proof.
  intros [P1 E1] [P2 E2]. split; [by etrans|]. intros k Hk. rewrite E2, E1; done.
Qed.

Lemma rearranged_swap n i j xs :
  i < n → j < n → i < length xs → j < length xs → rearranged n xs (swap i j xs).
Proof.
  intros Hi Hj [x Ex]%lookup_lt_is_Some [y Ey]%lookup_lt_is_Some. split; [apply swap_perm|].
  intros k Hk. rewrite (swap_lookup _ _ _ _ x y) by done. by rewrite !decide_False by lia.
Qed.

Lemma rearranged_length n xs xs' : rearranged n xs xs' → length xs' = length xs.
Proof. intros [P _]. by rewrite P. Qed.

Lemma up_loop_ok fuel j n h xs :
  rep h xs → j < n → n ≤ length xs → up_inv lt n j xs → j < fuel →
  ∃ h' xs', up_loop fuel j h = Some h' ∧ rep h' xs' ∧ rearranged n xs xs' ∧ heap_upto lt n xs'.
Proof.
  revert j h xs. induction fuel as [|fuel IH]; intros j h xs Hr Hj Hn Hinv Hf; [lia|].
  cbn -[Nat.div]. change ((j - 1) / 2) with (par j). case_decide as E.
  { apply par_fix in E as ->. exists h, xs. split_and!; try done.
    by apply up_inv_heap. }
  assert (0 < j) as H0 by (rewrite par_fix in E; lia). pose proof (par_lt j H0) as Hp.
  destruct (lookup_lt_is_Some_2 xs j) as [x Ex]; [lia|].
  destruct (lookup_lt_is_Some_2 xs (par j)) as [p Ep]; [lia|].
  rewrite (rep_Less _ _ _ _ x p Hr Ex Ep). cbn [mbind option_bind]. destruct (lt x p) eqn:El; cbn [negb].
  2:{ exists h, xs. split_and!; try done. by eapply up_inv_stop. }
  destruct (rep_Swap _ _ _ _ _ _ Hr Ep Ex) as (h1 & -> & Hr1). cbn [mbind option_bind].
  destruct (IH (par j) h1 (swap (par j) j xs)) as (h' & xs' & -> & Hr' & Hra & Hh).
  - done.
  - lia.
  - by rewrite length_swap.
  - by eapply up_inv_step.
  - lia.
  - exists h', xs'. split_and!; try done. eapply rearranged_trans; [|done].
    apply rearranged_swap; lia.
Qed.

Lemma child_min xs i n j1 y :
  j1 = 2 * i + 1 → xs !! j1 = Some y → (∀ y2, j1 + 1 < n → xs !! (j1 + 1) = Some y2 → lt y2 y = false) →
  lt y y = false →
  ∀ k z, k < n → 0 < k → par k = i → xs !! k = Some z → lt z y = false.
Proof.
  intros -> Hy H2 Hyy k z Hk H0 E Hz. apply par_child in E as [->| ->]; [by simplify_eq| |done].
  apply H2; [lia|]. by replace (2 * i + 1 + 1) with (2 * i + 2) by lia.
Qed.

Lemma lt_irrefl x : lt x x = false.
Proof. destruct (lt x x) eqn:E; [|done]. pose proof (lt_asym _ _ E). congruence. Qed.

Lemma down_loop_ok fuel i0 i n h xs :
  rep h xs → i0 ≤ i → i < length xs → n ≤ length xs → down_inv lt i0 n i xs → n - i < fuel →
  ∃ h' xs' i', down_loop fuel i n h = Some (h', i') ∧ rep h' xs' ∧ rearranged n xs xs' ∧
    i0 ≤ i' ∧ (i' = i ∨ i' < n) ∧
    (∀ k, k < n → k ≠ i' → ok lt xs' k) ∧ (i' ≠ i0 → ok lt xs' i') ∧ (∀ k, k < n → skip lt xs' i' k).
Proof.
  revert i h xs. induction fuel as [|fuel IH]; intros i h xs Hr Hge Hi Hn Hinv Hf; [lia|].
  destruct (lookup_lt_is_Some_2 xs i Hi) as [x Ex].
  cbn [down_loop]. destruct (decide (n ≤ 2 * i + 1)) as [Hend|Hend].
  { destruct (down_inv_stop lt i0 n i xs x) as (S1 & S2 & S3); [done|done|..].
    { intros k z Hk H0 [->| ->]%par_child; [lia|lia|done]. }
    exists h, xs, i. split_and!; auto using rearranged_refl. }
  destruct (lookup_lt_is_Some_2 xs (2 * i + 1)) as [y1 Ey1]; [lia|].
  assert (∃ j y, (if decide (2 * i + 1 + 1 < n)
      then less ← hLess (2 * i + 1 + 1) (2 * i + 1) h;
           Some (if less : bool then 2 * i + 1 + 1 else 2 * i + 1)
      else Some (2 * i + 1)) = Some j ∧ j < n ∧ i < j ∧ par j = i ∧ xs !! j = Some y ∧
      (∀ k z, k < n → 0 < k → par k = i → xs !! k = Some z → lt z y = false))
    as (j & y & Ej & Hjn & Hij & Hpj & Ey & Hmin).
  { case_decide as E2.
    - destruct (lookup_lt_is_Some_2 xs (2 * i + 1 + 1)) as [y2 Ey2]; [lia|].
      rewrite (rep_Less _ _ _ _ y2 y1 Hr Ey2 Ey1). cbn [mbind option_bind]. destruct (lt y2 y1) eqn:El.
      + exists (2 * i + 1 + 1), y2. split_and!; [done|lia|lia|apply par_child; lia|done|].
        intros k z Hk H0 [->| ->]%par_child Hz; [simplify_eq; by apply lt_asym| |done].
        replace (2 * i + 2) with (2 * i + 1 + 1) in Hz by lia. simplify_eq. apply lt_irrefl.
      + exists (2 * i + 1), y1. split_and!; [done|lia|lia|apply par_child; lia|done|].
        apply (child_min xs i n (2 * i + 1)); [done|done| |apply lt_irrefl].
        intros y2' _ ?. by simplify_eq.
    - exists (2 * i + 1), y1. split_and!; [done|lia|lia|apply par_child; lia|done|].
      apply (child_min xs i n (2 * i + 1)); [done|done| |apply lt_irrefl]. intros. lia. }
  rewrite Ej. cbn [mbind option_bind]. rewrite (rep_Less _ _ _ _ y x Hr Ey Ex).
  cbn [mbind option_bind]. destruct (lt y x) eqn:El; cbn [negb].
  2:{ destruct (down_inv_stop lt i0 n i xs x) as (S1 & S2 & S3); [done|done|..].
      { intros k z Hk H0 E Hz. eapply le_trans; [exact El|by eapply Hmin]. }
      exists h, xs, i. split_and!; auto using rearranged_refl. }
  destruct (rep_Swap _ _ _ _ _ _ Hr Ex Ey) as (h1 & -> & Hr1). cbn [mbind option_bind].
  destruct (IH j h1 (swap i j xs)) as (h' & xs' & i' & -> & Hr' & Hra & Hge' & Hlt' & Hres).
  - done.
  - lia.
  - rewrite length_swap. lia.
  - by rewrite length_swap.
  - by eapply (down_inv_step lt i0 n i j xs x y); try done; lia.
  - lia.
  - exists h', xs', i'. split_and!; try done; [|right; lia|apply Hres..].
    eapply rearranged_trans; [|done]. apply rearranged_swap; lia.
Qed.

(** [down], then [up] if nothing moved: a single wrong position is repaired. *)
Definition fix_inv (n i : nat) xs : Prop :=
  (∀ k, k < n → k ≠ i → par k ≠ i → ok lt xs k) ∧ (∀ k, k < n → skip lt xs i k).

Lemma settle_ok i n h xs :
  rep h xs → i < n → n ≤ length xs → fix_inv n i xs →
  ∃ h' xs', (r ← heap_down h i n; if negb r.2 then heap_up r.1 i else Some r.1) = Some h' ∧
    rep h' xs' ∧ rearranged n xs xs' ∧ heap_upto lt n xs'.
Proof.
  intros Hr Hi Hn [Hok Hskip]. unfold heap_down.
  destruct (down_loop_ok (S n) i i n h xs) as (h1 & xs1 & i1 & -> & Hr1 & Hra & Hge & Hlt & S1 & S2 & S3);
    [done|lia|lia|done|by split_and!|lia|]. cbn [mbind option_bind fst snd].
  pose proof (rearranged_length _ _ _ Hra) as Hlen.
  case_bool_decide as E; cbn [negb].
  - exists h1, xs1. split_and!; [done..|]. intros k Hk.
    destruct (decide (k = i1)) as [->|]; [apply S2; lia|by apply S1].
  - assert (i1 = i) as -> by lia. unfold heap_up.
    destruct (up_loop_ok (S i) i n h1 xs1) as (h2 & xs2 & -> & Hr2 & Hra2 & Hh);
      [done|lia|lia|by split|lia|].
    exists h2, xs2. split_and!; [done..| |done]. by eapply rearranged_trans.
Qed.

Lemma heap_prefix ys zs : heap_upto lt (length ys) (ys ++ zs) → is_heap lt ys.
Proof.
  intros Hh k Hk x p H0 Hx Hp. apply (Hh k Hk x p H0); by apply lookup_app_l_Some.
Qed.

Lemma heap_skip xs i k : is_heap lt xs → skip lt xs i k.
Proof.
  intros Hh x p Hi Hk E Hx Hp. pose proof (par_lt k Hk). pose proof (par_lt i Hi).
  assert (k < length xs) by (by eapply lookup_lt_Some).
  destruct (lookup_lt_is_Some_2 xs i) as [y Hy]; [lia|].
  eapply le_trans; [apply (Hh i ltac:(lia) y p Hi Hy Hp)|].
  apply (Hh k ltac:(lia) x y Hk Hx). by rewrite E.
Qed.

(** A heap with one element replaced, on the positions before [n]. *)
Lemma heap_replaced n i xs ys :
  is_heap lt ys → n ≤ length ys → (∀ k, k < n → k ≠ i → xs !! k = ys !! k) → i < n →
  fix_inv n i xs.
Proof.
  intros Hh Hn He Hi. split.
  - intros k Hk Hki Hpk x p H0 Hx Hp. pose proof (par_lt k H0).
    rewrite He in Hx, Hp by lia. apply (Hh k ltac:(lia) x p); done.
  - intros k Hk x p Hi0 H0 E Hx Hp. pose proof (par_lt k H0). pose proof (par_lt i Hi0).
    rewrite He in Hx, Hp by lia. by apply (heap_skip ys i k Hh x p).
Qed.

Lemma heap_Fix_ok i h xs ys :
  rep h xs → is_heap lt ys → length xs = length ys → i < length ys →
  (∀ k, k ≠ i → xs !! k = ys !! k) →
  ∃ h' xs', heap_Fix i h = Some h' ∧ rep h' xs' ∧ xs' ≡ₚ xs ∧ is_heap lt xs'.
Proof.
  intros Hr Hh Hl Hi He. unfold heap_Fix. rewrite (rep_Len _ _ Hr).
  destruct (settle_ok i (length xs) h xs) as (h' & xs' & -> & Hr' & [Hp Hk] & Hh');
    [done|lia|lia|eapply heap_replaced; [exact Hh|lia|auto|lia]|].
  exists h', xs'. split_and!; try done. unfold is_heap. by rewrite (Permutation_length Hp).
Qed.

Lemma heap_Push_ok x a h h1 xs :
  hPush x h = Some h1 → rep h1 (xs ++ [a]) → is_heap lt xs →
  ∃ h' xs', heap_Push x h = Some h' ∧ rep h' xs' ∧ xs' ≡ₚ xs ++ [a] ∧ is_heap lt xs'.
Proof.
  intros Hp Hr Hh. unfold heap_Push. rewrite Hp. cbn [mbind option_bind].
  rewrite (rep_Len _ _ Hr), length_app. cbn [length]. replace (length xs + 1 - 1) with (length xs) by lia.
  unfold heap_up.
  destruct (up_loop_ok (S (length xs)) (length xs) (length (xs ++ [a])) h1 (xs ++ [a]))
    as (h' & xs' & -> & Hr' & [Hpm _] & Hh').
  - done.
  - rewrite length_app. cbn. lia.
  - done.
  - assert (∀ k z, k < length xs → (xs ++ [a]) !! k = Some z → xs !! k = Some z) as Hlook.
    { intros k z Hk. by rewrite lookup_app_l. }
    rewrite length_app. cbn. split.
    + intros k Hk Hne y p H0 Hy Hpp. pose proof (par_lt k H0).
      apply (Hh k ltac:(lia) y p H0); apply Hlook; done || lia.
    + intros k Hk y p Hj H0 E Hy Hpp. pose proof (par_lt k H0). lia.
  - lia.
  - exists h', xs'. split_and!; try done. unfold is_heap. by rewrite (Permutation_length Hpm).
Qed.

(** Taking the last position off after the others have been put in order. *)
Lemma heap_pop_last n h xs x :
  rep h xs → length xs = S n → xs !! n = Some x → heap_upto lt n xs →
  ∃ h' ys, hPop h = Some (h', rep_elem x) ∧ rep h' ys ∧ ys ++ [x] = xs ∧ is_heap lt ys.
Proof.
  intros Hr Hl Hx Hh. pose proof (take_drop_middle xs n x Hx) as E.
  rewrite drop_ge in E by lia. rewrite <- E in Hr.
  destruct (rep_Pop _ _ _ Hr) as (h' & Hp & Hr'). exists h', (take n xs). split_and!; try done.
  apply (heap_prefix _ [x]). rewrite E, length_take, Nat.min_l by lia. done.
Qed.

Lemma heap_Remove_ok i h xs x :
  rep h xs → is_heap lt xs → xs !! i = Some x →
  ∃ h' ys, heap_Remove i h = Some (h', rep_elem x) ∧ rep h' ys ∧ x :: ys ≡ₚ xs ∧ is_heap lt ys.
Proof.
  intros Hr Hh Hx. unfold heap_Remove. rewrite (rep_Len _ _ Hr).
  assert (i < length xs) as Hi by (by eapply lookup_lt_Some). rewrite decide_False by lia.
  set (n := length xs - 1). case_decide as E.
  - cbn [mbind option_bind]. destruct (heap_pop_last n h xs x) as (h' & ys & -> & Hr' & E' & Hh');
      [done|lia|by rewrite E| |].
    + intros k Hk. apply Hh. lia.
    + exists h', ys. split_and!; try done. rewrite <- E'. by rewrite Permutation_cons_append.
  - destruct (lookup_lt_is_Some_2 xs n) as [z Hz]; [lia|].
    destruct (rep_Swap _ _ _ _ _ _ Hr Hx Hz) as (h1 & -> & Hr1). cbn [mbind option_bind].
    pose proof (length_swap i n xs) as Hls.
    destruct (settle_ok i n h1 (swap i n xs)) as (h2 & xs2 & Es & Hr2 & [Hp2 Hk2] & Hh2); [done|lia|lia|..].
    { eapply heap_replaced; [exact Hh|lia| |lia]. intros k Hk Hki.
      rewrite (swap_lookup _ _ _ _ x z) by done. by rewrite !decide_False by lia. }
    rewrite Es. cbn [mbind option_bind].
    assert (length xs2 = S n) as Hl2 by (rewrite (Permutation_length Hp2), Hls; lia).
    destruct (heap_pop_last n h2 xs2 x) as (h' & ys & Epop & Hr' & E' & Hh'); [done..| |done|].
    { rewrite Hk2 by lia. rewrite (swap_lookup _ _ _ _ x z) by done.
      rewrite decide_False, decide_True by lia. done. }
    exists h', ys. split_and!; try done.
    rewrite Permutation_cons_append, E', Hp2. apply swap_perm.
Qed.

Lemma heap_Pop_ok h x xs :
  rep h (x :: xs) → is_heap lt (x :: xs) →
  ∃ h' ys, heap_Pop h = Some (h', rep_elem x) ∧ rep h' ys ∧ ys ≡ₚ xs ∧ is_heap lt ys ∧
    ∀ z, z ∈ ys → lt z x = false.
Proof.
  intros Hr Hh. unfold heap_Pop. rewrite (rep_Len _ _ Hr). cbn [length].
  rewrite decide_False by lia. replace (S (length xs) - 1) with (length xs) by lia.
  set (n := length xs). destruct (lookup_lt_is_Some_2 (x :: xs) n) as [z Hz]; [cbn; lia|].
  assert ((x :: xs) !! 0 = Some x) as Hx by done.
  destruct (rep_Swap _ _ _ _ _ _ Hr Hx Hz) as (h1 & -> & Hr1). cbn [mbind option_bind].
  pose proof (length_swap 0 n (x :: xs)) as Hls. cbn [length] in Hls. unfold heap_down.
  destruct (down_loop_ok (S n) 0 0 n h1 (swap 0 n (x :: xs)))
    as (h2 & xs2 & i2 & -> & Hr2 & [Hp2 Hk2] & _ & _ & S1 & S2 & _); [done|lia|lia|lia| |lia|].
  { split_and!; [|done|intros k Hk ? ? ?; lia]. intros k Hk Hk0 Hpk y p H0.
    rewrite !(swap_lookup _ _ _ _ x z) by done. pose proof (par_lt k H0).
    rewrite !decide_False by lia. apply Hh; cbn; lia. }
  cbn [mbind option_bind fst].
  assert (length xs2 = S n) as Hl2 by (rewrite (Permutation_length Hp2), Hls; lia).
  destruct (heap_pop_last n h2 xs2 x) as (h' & ys & -> & Hr' & E' & Hh'); [done|done|..].
  { rewrite Hk2 by lia. rewrite (swap_lookup _ _ _ _ x z) by done.
    destruct (decide (n = 0)) as [E0|]; [|by rewrite decide_True]. rewrite E0 in Hz. by simplify_eq. }
  { intros k Hk. destruct (decide (k = i2)) as [->|]; [|by apply S1].
    destruct (decide (i2 = 0)) as [->|]; [intros ? ? ?; lia|by apply S2]. }
  assert (ys ≡ₚ xs) as Hp.
  { apply (Permutation_cons_inv (a := x)).
    rewrite Permutation_cons_append, E', Hp2. apply swap_perm. }
  exists h', ys. split_and!; try done. intros y Hy. rewrite Hp in Hy.
  apply list_elem_of_lookup in Hy as [k Hk].
  apply (heap_root lt (x :: xs) x Hh Hx (S k) y); done.
Qed.

End Loops.

(** What [Swap] and [Pop] preserve, [heap.Pop] preserves. *)
Section Preserve.
Context {H X : Type} `{HI : !HeapInterface H X} (R : H → H → Prop) `{!PreOrder R}
  (Rswap : ∀ i j h h', hSwap i j h = Some h' → R h h')
  (Rpop : ∀ h h' x, hPop h = Some (h', x) → R h h').

Lemma down_loop_pres fuel i n h h' i' : down_loop fuel i n h = Some (h', i') → R h h'.
Proof.
  revert i h. induction fuel as [|fuel IH]; intros i h; [done|]. cbn [down_loop].
  destruct (decide (n ≤ 2 * i + 1)); [intros; by simplify_eq|].
  intros (j & _ & (b & _ & E)%bind_Some)%bind_Some. destruct (negb b); [by simplify_eq|].
  apply bind_Some in E as (h1 & Hs & E). etrans; [by eapply Rswap|by eapply IH].
Qed.

Lemma heap_Pop_pres h h' x : heap_Pop h = Some (h', x) → R h h'.
Proof.
  unfold heap_Pop, heap_down. case_decide; [done|].
  intros (h1 & Hs & (r & ([h2 i2] & Hd & ?)%bind_Some & Hp)%bind_Some)%bind_Some. simplify_eq.
  etrans; [by eapply Rswap|]. etrans; [by eapply down_loop_pres|]. by eapply Rpop.
Qed.

End Preserve.
