(* ===== verification/LFU.v ===== *)
(** * The LFU eviction algorithm (pkg/eviction/lfu.go)

    Part 1 models the code: nodes in memory, the frequency heap as a slice of
    pointers whose nodes know their position, and the key map.  Part 2 has the
    specification: a map from keys to value, use count and time of last use, of
    which [Evict] removes a minimum.  Part 3 shows that the heap implements
    container/heap's interface, part 4 that every operation refines its
    counterpart. *)

From stdpp Require Import base gmap strings list.
From Stdlib Require Import ZArith Lia.
From S2P Require Import Prelude Algorithm Heap.

Module LFU.

(** ** Part 1: the code *)

Record Node := MkNode {
  key : string;
  value : any;
  count : Z;    (* int *)
  index : Z;    (* int, -1 once popped *)
  last : Z      (* uint64 *) }.

(** The slice of node pointers, with the memory they point into and the next
    address of an allocation. *)
Record FrequencyHeap := FH {
  slice : list loc;
  mem : gmap loc Node;
  brk : loc }.

Definition set_index (i : Z) (n : Node) : Node :=
  MkNode (key n) (value n) (count n) i (last n).

Definition Len (fh : FrequencyHeap) : nat := length (slice fh).

Definition Less (i j : nat) (fh : FrequencyHeap) : option bool :=
  li ← slice fh !! i; lj ← slice fh !! j;
  ni ← mem fh !! li; nj ← mem fh !! lj;
  Some (if decide (count ni = count nj) then (last ni <? last nj)%Z else (count ni <? count nj)%Z).

(** [p.index = i]: [None] is a nil dereference. *)
Definition store_index (p : loc) (i : Z) (m : gmap loc Node) : option (gmap loc Node) :=
  n ← m !! p; Some (<[p := set_index i n]> m).

Definition Swap (i j : nat) (fh : FrequencyHeap) : option FrequencyHeap :=
  li ← slice fh !! i; lj ← slice fh !! j;
  let sl := <[i := lj]> (<[j := li]> (slice fh)) in
  pi ← sl !! i; m ← store_index pi (Z.of_nat i) (mem fh);
  pj ← sl !! j; m ← store_index pj (Z.of_nat j) m;
  Some (FH sl m (brk fh)).

Definition Push (node : loc) (fh : FrequencyHeap) : option FrequencyHeap :=
  m ← store_index node (Z.of_nat (Len fh)) (mem fh);
  Some (FH (slice fh ++ [node]) m (brk fh)).

Definition Pop (fh : FrequencyHeap) : option (FrequencyHeap * loc) :=
  let n := Len fh in
  if decide (n = 0) then None
  else
    node ← slice fh !! (n - 1);
    m ← store_index node (-1) (mem fh);
    Some (FH (take (n - 1) (slice fh)) m (brk fh), node).

#[global] Instance FrequencyHeap_Interface : HeapInterface FrequencyHeap loc := {
  hLen := Len; hLess := Less; hSwap := Swap; hPush := Push; hPop := Pop }.

Record LFUAlgorithm := MkLFU {
  items : gmap string loc;
  freqs : FrequencyHeap;
  len : Z;
  cap : Z;
  seq : Z }.

Definition NewLFUAlgorithm (capacity : Z) : result LFUAlgorithm :=
  if (capacity <? 0)%Z then Err ErrInvalidCapacity
  else Ok (MkLFU ∅ (FH [] ∅ 1%positive) 0 capacity 0).

Definition with_freqs (fh : FrequencyHeap) (l : LFUAlgorithm) : LFUAlgorithm :=
  MkLFU (items l) fh (len l) (cap l) (seq l).
Definition with_mem (m : gmap loc Node) (l : LFUAlgorithm) : LFUAlgorithm :=
  with_freqs (FH (slice (freqs l)) m (brk (freqs l))) l.

Definition internalEvict (l : LFUAlgorithm) : option (LFUAlgorithm * (string * bool)) :=
  if decide (len l = 0%Z) then Some (l, (""%string, false))
  else
    r ← heap_Pop (freqs l);
    node ← mem r.1 !! r.2;
    Some (MkLFU (delete (key node) (items l)) r.1 (len l - 1) (cap l) (seq l), (key node, true)).

Definition Evict (l : LFUAlgorithm) : option (LFUAlgorithm * (string * bool)) :=
  if decide (cap l = 0%Z) then Some (l, (""%string, false)) else internalEvict l.

(** The bookkeeping [Get] and an updating [Set] share: one more use, now, and
    the node's place in the heap ([heap.Fix] at a negative index panics). *)
Definition touch (p : loc) (f : Node → any) (l : LFUAlgorithm) : option LFUAlgorithm :=
  node ← mem (freqs l) !! p;
  let seq' := u64 (seq l + 1) in
  let node := MkNode (key node) (f node) (i64 (count node + 1)) (index node) seq' in
  let l := with_mem (<[p := node]> (mem (freqs l))) l in
  if decide (index node < 0)%Z then None
  else
    fh ← heap_Fix (Z.to_nat (index node)) (freqs l);
    Some (MkLFU (items l) fh (len l) (cap l) seq').

Definition Set_ (k : string) (v : any) (l : LFUAlgorithm) : option LFUAlgorithm :=
  if decide (cap l = 0%Z) then Some l
  else match items l !! k with
  | Some p => touch p (λ _, v) l
  | None =>
      l ← (if decide (len l = cap l) then r ← internalEvict l; Some r.1 else Some l);
      let seq' := u64 (seq l + 1) in
      let p := brk (freqs l) in
      let fh := FH (slice (freqs l)) (<[p := MkNode k v 1 0 seq']> (mem (freqs l))) (Pos.succ p) in
      let items' := <[k := p]> (items l) in
      fh ← heap_Push p fh;
      Some (MkLFU items' fh (len l + 1) (cap l) seq')
  end.

Definition Get (k : string) (l : LFUAlgorithm) : option (LFUAlgorithm * (any * bool)) :=
  match items l !! k with
  | None => Some (l, (ANil, false))
  | Some p =>
      l ← touch p value l;
      node ← mem (freqs l) !! p;
      Some (l, (value node, true))
  end.

Definition Delete (k : string) (l : LFUAlgorithm) : option LFUAlgorithm :=
  match items l !! k with
  | None => Some l
  | Some p =>
      node ← mem (freqs l) !! p;
      if decide (index node < 0)%Z then None
      else
        r ← heap_Remove (Z.to_nat (index node)) (freqs l);
        Some (MkLFU (delete k (items l)) r.1 (len l - 1) (cap l) (seq l))
  end.

#[global] Instance LFU_IAlgorithm : IAlgorithm LFUAlgorithm := {
  alg_Evict := Evict; alg_Set := λ _, Set_; alg_Get := Get; alg_Delete := Delete }.

(** ** Part 2: the specification *)

Module Spec.

(** Value, number of uses, time of the last use. *)
Abbreviation entry := (any * Z * Z)%type.

Record state := MkState { held : gmap string entry; clock : Z }.

(** Fewer uses, or as many and the earlier last use. *)
Definition before (e1 e2 : entry) : bool :=
  bool_decide (e1.1.2 < e2.1.2 ∨ e1.1.2 = e2.1.2 ∧ e1.2 < e2.2)%Z.

(** A victim is a key no other key comes before. *)
Definition victim (k : string) (m : gmap string entry) : Prop :=
  ∃ e, m !! k = Some e ∧ ∀ k' e', m !! k' = Some e' → before e' e = false.

Inductive evict : gmap string entry → gmap string entry → string * bool → Prop :=
  | evict_none : evict ∅ ∅ (""%string, false)
  | evict_some m k : victim k m → evict m (delete k m) (k, true).

Definition used (t : Z) (v : any) (e : entry) : entry := (v, i64 (e.1.2 + 1), t).

Inductive step (cap : Z) : op → state → state → output → Prop :=
  | get_miss k s : held s !! k = None → step cap (OGet k) s s (RGet (ANil, false))
  | get_hit k s e :
      held s !! k = Some e →
      step cap (OGet k) s
        (MkState (<[k := used (u64 (clock s + 1)) e.1.1 e]> (held s)) (u64 (clock s + 1)))
        (RGet (e.1.1, true))
  | set_off pick k v s : cap = 0%Z → step cap (OSet pick k v) s s RUnit
  | set_update pick k v s e :
      cap ≠ 0%Z → held s !! k = Some e →
      step cap (OSet pick k v) s
        (MkState (<[k := used (u64 (clock s + 1)) v e]> (held s)) (u64 (clock s + 1))) RUnit
  | set_new pick k v s m r :
      cap ≠ 0%Z → held s !! k = None →
      (if decide (Z.of_nat (size (held s)) = cap) then evict (held s) m r else m = held s) →
      step cap (OSet pick k v) s
        (MkState (<[k := (v, 1, u64 (clock s + 1))%Z]> m) (u64 (clock s + 1))) RUnit
  | evict_step s m r : evict (held s) m r →
      step cap OEvict s (MkState m (clock s)) (REvict r)
  | delete_step k s :
      step cap (ODelete k) s (MkState (delete k (held s)) (clock s)) RUnit.

Inductive run (cap : Z) : list op → state → state → list output → Prop :=
  | run_nil s : run cap [] s s []
  | run_cons o os s1 s2 s3 r rs :
      step cap o s1 s2 r → run cap os s2 s3 rs → run cap (o :: os) s1 s3 (r :: rs).

End Spec.

(** ** Part 3: the heap implements the interface *)

(** A node but for its index, with its address. *)
Abbreviation ent := (loc * (string * Spec.entry))%type.
Definition e_key (e : ent) : string := e.2.1.
Definition e_entry (e : ent) : Spec.entry := e.2.2.
Definition ent_lt (e1 e2 : ent) : bool := Spec.before (e_entry e1) (e_entry e2).

Definition node_of (i : Z) (e : ent) : Node :=
  MkNode (e_key e) (e_entry e).1.1 (e_entry e).1.2 i (e_entry e).2.

(** The slice spells [xs], every node stored at its own position. *)
Record heap_rep (fh : FrequencyHeap) (xs : list ent) : Prop := {
  hr_slice : slice fh = xs.*1;
  hr_nodup : NoDup xs.*1;
  hr_node : ∀ i e, xs !! i = Some e → mem fh !! e.1 = Some (node_of (Z.of_nat i) e);
  hr_brk : ∀ l n, mem fh !! l = Some n → (l < brk fh)%positive }.

(** The comparison of the code is the order of the specification. *)
Lemma less_before (e1 e2 : Spec.entry) :
  (if decide (e1.1.2 = e2.1.2) then (e1.2 <? e2.2)%Z else (e1.1.2 <? e2.1.2)%Z) = Spec.before e1 e2.
Proof.
  unfold Spec.before. case_decide; [destruct (Z.ltb_spec e1.2 e2.2)|destruct (Z.ltb_spec e1.1.2 e2.1.2)];
    symmetry; rewrite ?bool_decide_eq_true, ?bool_decide_eq_false; lia.
Qed.

#[global] Instance ent_lt_order : HeapOrder ent_lt.
Proof.
  unfold ent_lt, Spec.before. split; intros *.
  - rewrite bool_decide_eq_true, bool_decide_eq_false. lia.
  - rewrite !bool_decide_eq_false. lia.
Qed.

Lemma heap_rep_lookup fh xs i e :
  heap_rep fh xs → xs !! i = Some e → slice fh !! i = Some e.1.
Proof. intros H Hi. by rewrite (hr_slice _ _ H), list_lookup_fmap, Hi. Qed.

Lemma heap_rep_inj fh xs i j e e' :
  heap_rep fh xs → xs !! i = Some e → xs !! j = Some e' → e.1 = e'.1 → i = j.
Proof.
  intros H Hi Hj E. apply (NoDup_lookup xs.*1 i j e.1); [apply H|..];
    rewrite list_lookup_fmap, ?Hi, ?Hj; cbn; congruence.
Qed.

Lemma Less_rep fh xs i j x y :
  heap_rep fh xs → xs !! i = Some x → xs !! j = Some y → Less i j fh = Some (ent_lt x y).
Proof.
  intros H Hi Hj. unfold Less.
  rewrite (heap_rep_lookup _ _ _ _ H Hi), (heap_rep_lookup _ _ _ _ H Hj). cbn.
  rewrite (hr_node _ _ H _ _ Hi), (hr_node _ _ H _ _ Hj). cbn. by rewrite less_before.
Qed.

Lemma swap_fmap {A B} (f : A → B) i j (xs : list A) : f <$> swap i j xs = swap i j (f <$> xs).
Proof.
  unfold swap. rewrite !list_lookup_fmap. destruct (xs !! i), (xs !! j); cbn; try done.
  by rewrite !list_fmap_insert.
Qed.

Lemma Swap_rep fh xs i j x y :
  heap_rep fh xs → xs !! i = Some x → xs !! j = Some y →
  ∃ fh', Swap i j fh = Some fh' ∧ heap_rep fh' (swap i j xs).
Proof.
  intros H Hi Hj. unfold Swap.
  pose proof (heap_rep_lookup _ _ _ _ H Hi) as Hsi. pose proof (heap_rep_lookup _ _ _ _ H Hj) as Hsj.
  rewrite Hsi, Hsj. cbn [mbind option_bind].
  assert (<[i := y.1]> (<[j := x.1]> (slice fh)) = (swap i j xs).*1) as Esw.
  { rewrite swap_fmap, <- (hr_slice _ _ H). unfold swap. by rewrite Hsi, Hsj. }
  assert (∀ k, (swap i j xs).*1 !! k = fst <$> (if decide (k = i) then Some y else
    if decide (k = j) then Some x else xs !! k)) as Hlook.
  { intros k. rewrite list_lookup_fmap. by rewrite (swap_lookup _ _ _ _ x y). }
  rewrite Esw, !Hlook, (decide_True (P := i = i)) by done. cbn [mbind option_bind fmap option_fmap option_map].
  unfold store_index. rewrite (hr_node _ _ H _ _ Hj). cbn [mbind option_bind].
  rewrite (decide_True (P := j = j)) by done.
  destruct (decide (j = i)) as [->|Hne]; cbn [mbind option_bind fmap option_fmap option_map].
  - assert (y = x) as -> by congruence. rewrite lookup_insert_eq. cbn [mbind option_bind]. eexists. split; [done|].
    assert (swap i i xs = xs) as ->.
    { unfold swap. rewrite Hj. by rewrite list_insert_insert_eq, list_insert_id. }
    split; cbn; [done|apply H|..].
    + intros k e Hk. rewrite insert_insert_eq, lookup_insert. case_decide as E; [|by apply H].
      pose proof (heap_rep_inj _ _ _ _ _ _ H Hj Hk E) as <-. by simplify_eq.
    + intros l n. rewrite insert_insert_eq, lookup_insert. case_decide; [|apply H].
      subst. intros _. eapply H. by eapply (hr_node _ _ H).
  - assert (x.1 ≠ y.1) as Hxy by (intros E; destruct Hne; by eapply heap_rep_inj).
    rewrite lookup_insert_ne by done. rewrite (hr_node _ _ H _ _ Hi). cbn [mbind option_bind].
    eexists. split; [done|]. split; cbn.
    + done.
    + rewrite swap_perm. apply H.
    + intros k e. rewrite (swap_lookup _ _ _ _ x y) by done. intros Hk.
      destruct (decide (k = i)) as [->|Hki]; [|destruct (decide (k = j)) as [->|Hkj]]; simplify_eq.
      * rewrite lookup_insert_ne, lookup_insert_eq by done. done.
      * by rewrite lookup_insert_eq.
      * rewrite !lookup_insert_ne; [by apply H|..]; intros E.
        -- destruct Hkj. symmetry. by eapply (heap_rep_inj fh xs j k).
        -- destruct Hki. symmetry. by eapply (heap_rep_inj fh xs i k).
    + intros l n. rewrite !lookup_insert. repeat case_decide; subst; [..|apply H];
        intros _; (eapply H; by eapply (hr_node _ _ H)).
Qed.

Lemma Pop_rep fh xs x :
  heap_rep fh (xs ++ [x]) → ∃ fh', Pop fh = Some (fh', x.1) ∧ heap_rep fh' xs.
Proof.
  intros H. pose proof (hr_slice _ _ H) as Es. rewrite fmap_app in Es. cbn in Es.
  unfold Pop, Len. rewrite Es, length_app. cbn [length]. rewrite decide_False by lia.
  assert ((xs ++ [x]) !! length xs = Some x) as Hx by (by rewrite list_lookup_middle).
  replace (length xs.*1 + 1 - 1) with (length xs.*1) by lia.
  rewrite list_lookup_middle, take_app_length by done. cbn [mbind option_bind].
  unfold store_index. rewrite (hr_node _ _ H _ _ Hx). cbn [mbind option_bind].
  eexists. split; [done|]. pose proof (hr_nodup _ _ H) as Hnd. rewrite fmap_app in Hnd.
  apply NoDup_app in Hnd as (Hnd & Hd & _). split; cbn; [done|done|..].
  - intros i e Hi. rewrite lookup_insert_ne.
    + apply H. by apply lookup_app_l_Some.
    + intros E. apply (Hd e.1); [|rewrite <- E; by left].
      apply list_elem_of_fmap_2. by eapply list_elem_of_lookup_2.
  - intros l n. rewrite lookup_insert. case_decide; [|apply H].
    subst. intros _. eapply H. by eapply (hr_node _ _ H).
Qed.

Lemma Len_rep fh xs : heap_rep fh xs → Len fh = length xs.
Proof. intros H. unfold Len. by rewrite (hr_slice _ _ H), length_fmap. Qed.

#[global] Instance FrequencyHeap_Laws : HeapLaws ent_lt := {
  rep := heap_rep; rep_elem := fst; rep_Len := Len_rep;
  rep_Less := Less_rep; rep_Swap := Swap_rep; rep_Pop := Pop_rep }.

(** ** Part 4: the operations *)

Definition key_loc (e : ent) : string * loc := (e_key e, e.1).
Definition abs (xs : list ent) : gmap string Spec.entry := list_to_map xs.*2.

Record wf (l : LFUAlgorithm) (xs : list ent) : Prop := {
  wf_heap : heap_rep (freqs l) xs;
  wf_order : is_heap ent_lt xs;
  wf_items : indexes (items l) (key_loc <$> xs);
  wf_len : len l = Z.of_nat (length xs);
  wf_cap : (len l ≤ cap l)%Z }.

Definition refines (l : LFUAlgorithm) (s : Spec.state) : Prop :=
  ∃ xs, wf l xs ∧ Spec.held s = abs xs ∧ Spec.clock s = seq l.

Lemma keys_of (xs : list ent) : (key_loc <$> xs).*1 = xs.*2.*1.
Proof. by rewrite <- !list_fmap_compose. Qed.

Lemma wf_keys l xs : wf l xs → NoDup xs.*2.*1.
Proof. intros H. rewrite <- keys_of. apply (wf_items _ _ H). Qed.

Lemma abs_lookup (xs : list ent) k e :
  NoDup xs.*2.*1 → abs xs !! k = Some e ↔ ∃ p, (p, (k, e)) ∈ xs.
Proof.
  intros Hn. unfold abs. rewrite <- elem_of_list_to_map by done. rewrite list_elem_of_fmap. split.
  - intros ([p [k' e']] & ? & ?). simplify_eq/=. eauto.
  - intros (p & Hp). by exists (p, (k, e)).
Qed.

Lemma abs_perm (xs ys : list ent) : NoDup xs.*2.*1 → ys ≡ₚ xs → abs ys = abs xs.
Proof.
  intros Hn Hp. unfold abs. apply list_to_map_proper; [by rewrite Hp|by rewrite Hp].
Qed.

Lemma abs_size (xs : list ent) : NoDup xs.*2.*1 → size (abs xs) = length xs.
Proof. intros Hn. unfold abs. rewrite map_size_list_to_map by done. by rewrite !length_fmap. Qed.

Lemma abs_cons p k e (xs : list ent) : abs ((p, (k, e)) :: xs) = <[k := e]> (abs xs).
Proof. done. Qed.

Lemma abs_remove p k e (xs ys : list ent) :
  NoDup xs.*2.*1 → (p, (k, e)) :: ys ≡ₚ xs → abs ys = delete k (abs xs).
Proof.
  intros Hn Hp. rewrite <- (abs_perm xs _ Hn Hp), abs_cons.
  rewrite delete_insert_eq, delete_id; [done|].
  rewrite <- Hp in Hn. cbn in Hn. apply NoDup_cons in Hn as [Hk _].
  unfold abs. by apply not_elem_of_list_to_map_1.
Qed.

Lemma abs_update i p k e e' (xs : list ent) :
  NoDup xs.*2.*1 → xs !! i = Some (p, (k, e)) → abs (<[i := (p, (k, e'))]> xs) = <[k := e']> (abs xs).
Proof.
  intros Hn Hi.
  assert (<[i := (p, (k, e'))]> xs ≡ₚ (p, (k, e')) :: take i xs ++ drop (S i) xs) as Hp1.
  { rewrite insert_take_drop by (by eapply lookup_lt_Some). by rewrite Permutation_middle. }
  assert (xs ≡ₚ (p, (k, e)) :: take i xs ++ drop (S i) xs) as Hp2.
  { rewrite Permutation_middle. by rewrite take_drop_middle. }
  assert (NoDup ((p, (k, e)) :: take i xs ++ drop (S i) xs).*2.*1) as Hn2 by (by rewrite <- Hp2).
  rewrite (abs_perm _ _ Hn2 Hp2), (abs_perm ((p, (k, e')) :: _) _ Hn2 Hp1).
  by rewrite !abs_cons, insert_insert_eq.
Qed.

Lemma wf_find l xs k p :
  wf l xs → items l !! k = Some p →
  ∃ i e, xs !! i = Some (p, (k, e)) ∧ abs xs !! k = Some e.
Proof.
  intros H Hk. apply (wf_items _ _ H) in Hk. apply list_elem_of_fmap in Hk as ([p' [k' e]] & E & Hin).
  unfold key_loc, e_key in E. cbn in E. simplify_eq.
  apply list_elem_of_lookup in Hin as Hi. destruct Hi as [i Hi]. exists i, e. split; [done|].
  apply abs_lookup; [by eapply wf_keys|eauto].
Qed.

Lemma wf_find_None l xs k : wf l xs → items l !! k = None → abs xs !! k = None.
Proof.
  intros H Hk. destruct (abs xs !! k) as [e|] eqn:E; [|done].
  apply abs_lookup in E as [p Hin]; [|by eapply wf_keys].
  assert (items l !! k = Some p); [|congruence]. apply (wf_items _ _ H).
  apply list_elem_of_fmap. by exists (p, (k, e)).
Qed.

#[local] Arguments heap_Pop : simpl never.
#[local] Arguments heap_Push : simpl never.
#[local] Arguments heap_Fix : simpl never.
#[local] Arguments heap_Remove : simpl never.

(** Removing the element [x] leaves a well-formed cache behind. *)
Lemma remove_wf l xs ys x fh :
  wf l xs → x :: ys ≡ₚ xs → heap_rep fh ys → is_heap ent_lt ys →
  wf (MkLFU (delete (e_key x) (items l)) fh (len l - 1) (cap l) (seq l)) ys.
Proof.
  intros H Hp Hr Hh. destruct H as [_ _ Hi Hl Hc]. split; cbn; try done.
  - pose proof (indexes_delete (items l) [] (key_loc <$> ys) (e_key x) x.1) as Hd. apply Hd.
    apply (indexes_perm _ (key_loc <$> xs)); [|done]. by rewrite <- Hp.
  - rewrite Hl, <- (Permutation_length Hp). cbn. lia.
  - lia.
Qed.

(** Heap operations do not change the keys of the nodes in memory. *)
Definition same_keys (fh fh' : FrequencyHeap) : Prop :=
  ∀ p, key <$> mem fh' !! p = key <$> mem fh !! p.

#[local] Instance same_keys_preorder : PreOrder same_keys.
Proof. split; [done|]. intros f g h Hf Hg p. by rewrite Hg, Hf. Qed.

Lemma store_index_keys p i m m' :
  store_index p i m = Some m' → ∀ q, key <$> m' !! q = key <$> m !! q.
Proof.
  unfold store_index. intros (n & Hn & ?)%bind_Some q. simplify_eq. rewrite lookup_insert.
  case_decide; [|done]. subst. by rewrite Hn.
Qed.

Lemma Swap_keys i j fh fh' : Swap i j fh = Some fh' → same_keys fh fh'.
Proof.
  unfold Swap. intros (li & _ & (lj & _ & E)%bind_Some)%bind_Some.
  apply bind_Some in E as (pi & _ & (m1 & H1 & (pj & _ & (m2 & H2 & ?)%bind_Some)%bind_Some)%bind_Some).
  simplify_eq. intros p. cbn. by rewrite (store_index_keys _ _ _ _ H2), (store_index_keys _ _ _ _ H1).
Qed.

Lemma Pop_keys fh fh' p : Pop fh = Some (fh', p) → same_keys fh fh'.
Proof.
  unfold Pop. case_decide; [done|]. intros (q & _ & (m & Hm & ?)%bind_Some)%bind_Some.
  simplify_eq. intros p'. by apply (store_index_keys _ _ _ _ Hm).
Qed.

Lemma heap_Pop_keys fh fh' p : heap_Pop fh = Some (fh', p) → same_keys fh fh'.
Proof. apply heap_Pop_pres; [apply _|apply Swap_keys|apply Pop_keys]. Qed.

Lemma internalEvict_refines l s :
  refines l s →
  ∃ l' m r, internalEvict l = Some (l', r) ∧ Spec.evict (Spec.held s) m r ∧
    refines l' (Spec.MkState m (Spec.clock s)) ∧ cap l' = cap l ∧
    (len l ≠ 0%Z → len l' = (len l - 1)%Z).
Proof.
  intros (xs & H & Em & Ec). unfold internalEvict. pose proof (wf_keys _ _ H) as Hn.
  case_decide as E0.
  - assert (xs = []) as -> by (rewrite (wf_len _ _ H) in E0; destruct xs; [done|cbn in *; lia]).
    eexists _, _, _. split_and!; [done|rewrite Em; constructor| |done|done].
    exists []. by split_and!.
  - destruct xs as [|[p [k e]] xs]; [by rewrite (wf_len _ _ H) in E0|].
    destruct (heap_Pop_ok ent_lt (freqs l) (p, (k, e)) xs) as (fh & ys & Hp & Hr & Hpm & Hh & Hmin);
      [apply H|apply H|].
    rewrite Hp. cbn [mbind option_bind fst snd rep_elem].
    pose proof (heap_Pop_keys _ _ _ Hp p) as Hk.
    pose proof (hr_node _ _ (wf_heap _ _ H) 0 _ eq_refl) as Hnd. cbn in Hnd.
    rewrite Hnd in Hk. cbn in Hk.
    destruct (mem fh !! p) as [nd|] eqn:En; [|done]. cbn in Hk. injection Hk as Hk.
    change (rep_elem (p, (k, e))) with p. rewrite En. cbn [mbind option_bind].
    eexists _, (delete (key nd) (Spec.held s)), _.
    assert ((p, (k, e)) :: ys ≡ₚ (p, (k, e)) :: xs) as Hpm' by (by rewrite Hpm).
    split_and!; [done|..|done|done].
    + constructor. exists e. rewrite Em, Hk, abs_cons, lookup_insert_eq. split; [done|].
      intros k' e'. rewrite lookup_insert. case_decide as Ek.
      * intros [= <-]. apply (lt_irrefl ent_lt (p, (k, e))).
      * intros [p' Hin]%abs_lookup; [|cbn in Hn; by apply NoDup_cons in Hn as [_ ?]].
        apply (Hmin (p', (k', e'))). by rewrite Hpm.
    + exists ys. split_and!; [|..|done].
      * rewrite Hk. by apply (remove_wf l ((p, (k, e)) :: xs) ys (p, (k, e))).
      * cbn. rewrite Em, Hk. symmetry. by apply (abs_remove p k e).
Qed.

Lemma touch_refines l s k p i e f xs :
  wf l xs → Spec.held s = abs xs → Spec.clock s = seq l → xs !! i = Some (p, (k, e)) →
  ∃ l' v, touch p f l = Some l' ∧ v = f (node_of (Z.of_nat i) (p, (k, e))) ∧ cap l' = cap l ∧
    value <$> mem (freqs l') !! p = Some v ∧
    refines l' (Spec.MkState (<[k := Spec.used (u64 (Spec.clock s + 1)) v e]> (Spec.held s))
      (u64 (Spec.clock s + 1))).
Proof.
  intros H Em Ec Hi. pose proof (wf_keys _ _ H) as Hn. pose proof (wf_heap _ _ H) as Hr.
  pose proof (hr_node _ _ Hr i _ Hi) as Hnd. cbn [fst] in Hnd.
  unfold touch. rewrite Hnd. cbn [mbind option_bind node_of index key count value last].
  rewrite decide_False by lia. rewrite Nat2Z.id.
  set (v := f _). set (t := u64 (seq l + 1)).
  set (x := (p, (k, Spec.used t v e)) : ent).
  assert (i < length xs) as Hlt by (by eapply lookup_lt_Some).
  set (l1 := with_mem _ l).
  assert (heap_rep (freqs l1) (<[i := x]> xs)) as Hr1.
  { split; cbn.
    - rewrite list_fmap_insert. cbn. rewrite list_insert_id; [apply Hr|]. by rewrite list_lookup_fmap, Hi.
    - rewrite list_fmap_insert. cbn. rewrite list_insert_id; [apply Hr|]. by rewrite list_lookup_fmap, Hi.
    - intros j e'. destruct (decide (i = j)) as [->|Hne].
      + rewrite list_lookup_insert_eq by done. intros ?. simplify_eq. by rewrite lookup_insert_eq.
      + rewrite list_lookup_insert_ne by done. intros Hj. rewrite lookup_insert_ne; [by apply Hr|].
        intros E. destruct Hne. by eapply (heap_rep_inj _ _ i j _ _ Hr Hi Hj).
    - intros q n. rewrite lookup_insert. case_decide; [|apply Hr]. subst. intros _.
      by eapply Hr. }
  destruct (heap_Fix_ok ent_lt i (freqs l1) (<[i := x]> xs) xs) as (fh & xs' & -> & Hr' & Hp & Hh);
    [done|apply H|by rewrite length_insert|done|intros; by rewrite list_lookup_insert_ne|].
  cbn [mbind option_bind]. eexists _, v. split_and!; [done|done|done|..].
  - cbn [freqs]. assert (x ∈ xs') as (j & Hj)%list_elem_of_lookup.
    { rewrite Hp. eapply list_elem_of_lookup_2. by apply list_lookup_insert_eq. }
    pose proof (hr_node _ _ Hr' j _ Hj) as Hnd'. cbn [fst x] in Hnd'. by rewrite Hnd'.
  - exists xs'. split_and!.
    + destruct H as [_ _ Hit Hl Hc]. split; try done; cbn [items len cap].
      * apply (indexes_perm _ (key_loc <$> xs)); [|done]. rewrite Hp, list_fmap_insert.
        by rewrite list_insert_id; [|by rewrite list_lookup_fmap, Hi].
      * rewrite (Permutation_length Hp), length_insert. done.
    + cbn. rewrite Em, Ec. rewrite (abs_perm (<[i := x]> xs) xs'); [| |done].
      * symmetry. by apply (abs_update i p k e).
      * rewrite !list_fmap_insert. cbn. rewrite list_insert_id; [done|].
        by rewrite !list_lookup_fmap, Hi.
    + cbn. by rewrite Ec.
Qed.

(** The tail of [Set] for a new key. *)
Lemma push_refines l s k v :
  refines l s → Spec.held s !! k = None → (len l < cap l)%Z →
  ∃ fh, heap_Push (brk (freqs l))
      (FH (slice (freqs l)) (<[brk (freqs l) := MkNode k v 1 0 (u64 (seq l + 1))]> (mem (freqs l)))
        (Pos.succ (brk (freqs l)))) = Some fh ∧
    refines (MkLFU (<[k := brk (freqs l)]> (items l)) fh (len l + 1) (cap l) (u64 (seq l + 1)))
      (Spec.MkState (<[k := (v, 1, u64 (Spec.clock s + 1))%Z]> (Spec.held s)) (u64 (Spec.clock s + 1))).
Proof.
  intros (xs & H & Em & Ec) Hk Hlt. pose proof (wf_heap _ _ H) as Hr.
  set (p := brk (freqs l)). set (t := u64 (seq l + 1)). set (x := (p, (k, (v, 1%Z, t))) : ent).
  assert (∀ q n, mem (freqs l) !! q = Some n → q ≠ p) as Hfresh.
  { intros q n Hq ->. apply (hr_brk _ _ Hr) in Hq. unfold p in Hq. lia. }
  assert (p ∉ xs.*1) as Hp.
  { intros (e & -> & (i & Hi)%list_elem_of_lookup)%list_elem_of_fmap.
    by apply (Hfresh _ _ (hr_node _ _ Hr _ _ Hi)). }
  set (h0 := FH (slice (freqs l)) _ _).
  assert (hPush p h0 = Some (FH (slice (freqs l) ++ [p])
    (<[p := MkNode k v 1 (Z.of_nat (length xs)) t]> (mem h0)) (Pos.succ p))) as Hpush.
  { change (hPush p h0) with (Push p h0). unfold Push, store_index, Len.
    change (mem h0 !! p) with (<[p := MkNode k v 1 0 t]> (mem (freqs l)) !! p).
    rewrite lookup_insert_eq. change (slice h0) with (slice (freqs l)).
    by rewrite (hr_slice _ _ Hr), length_fmap. }
  destruct (heap_Push_ok ent_lt p x _ _ xs Hpush) as (fh & xs' & Hpu & Hr' & Hpm & Hh); [|apply H|].
  - split; cbn [slice mem brk].
    + by rewrite fmap_app, (hr_slice _ _ Hr).
    + rewrite fmap_app. cbn. apply NoDup_app. split_and!; [apply Hr| |apply NoDup_singleton].
      intros q Hq ->%list_elem_of_singleton. done.
    + intros i e. destruct (decide (i < length xs)).
      * rewrite lookup_app_l by done. intros Hi.
        assert (e.1 ≠ p) by (by eapply (Hfresh _ _ (hr_node _ _ Hr _ _ Hi))).
        unfold h0. cbn [mem]. rewrite !lookup_insert_ne by done. by apply Hr.
      * rewrite lookup_app_r by lia. intros Hi. apply list_lookup_singleton_Some in Hi as [Hi <-].
        cbn [fst x]. rewrite lookup_insert_eq. unfold node_of. cbn. do 2 f_equal. lia.
    + intros q n. unfold h0. cbn [mem]. rewrite !lookup_insert. repeat case_decide; subst; [lia..|].
      intros Hq%(hr_brk _ _ Hr). unfold p. lia.
  - exists fh. split; [exact Hpu|]. exists xs'. destruct H as [_ _ Hi Hl Hc].
    assert (k ∉ xs.*2.*1) as Hkn.
    { intros Hin. rewrite Em in Hk. by apply not_elem_of_list_to_map_2 in Hk. }
    assert (xs' ≡ₚ x :: xs) as Hpm' by (by rewrite Hpm, <- Permutation_cons_append).
    split_and!.
    + split; try done; cbn [items len cap].
      * apply (indexes_perm _ (key_loc <$> x :: xs)); [by rewrite Hpm'|].
        apply indexes_insert; [by rewrite keys_of|done].
      * rewrite (Permutation_length Hpm'). cbn. lia.
      * lia.
    + cbn [Spec.held]. rewrite (abs_perm (x :: xs) xs'); [|..|done].
      * unfold x. rewrite abs_cons, Em, Ec. done.
      * cbn. apply NoDup_cons. split; [done|]. rewrite <- keys_of. apply Hi.
    + cbn. by rewrite Ec.
Qed.

Lemma lfu_Get_refines k l s :
  refines l s → ∃ l' s' r, Get k l = Some (l', r) ∧ cap l' = cap l ∧ refines l' s' ∧
    Spec.step (cap l) (OGet k) s s' (RGet r).
Proof.
  intros Hs. pose proof Hs as (xs & H & Em & Ec). unfold Get. destruct (items l !! k) as [p|] eqn:E.
  - destruct (wf_find _ _ _ _ H E) as (i & e & Hi & Hk).
    destruct (touch_refines l s k p i e value xs H Em Ec Hi) as (l' & v & -> & Ev & Hc & Hv & Hr).
    cbn [mbind option_bind]. destruct (mem (freqs l') !! p) as [n|]; [|done]. cbn in Hv.
    injection Hv as Hv. cbn [mbind option_bind]. rewrite Hv.
    eexists _, _, _. split_and!; [done|done|done|]. rewrite Ev. cbn. constructor. by rewrite Em.
  - eexists _, _, _. split_and!; [done|done|exact Hs|]. constructor.
    rewrite Em. by eapply wf_find_None.
Qed.

Lemma lfu_Delete_refines k l s :
  refines l s → ∃ l' s', Delete k l = Some l' ∧ cap l' = cap l ∧ refines l' s' ∧
    Spec.step (cap l) (ODelete k) s s' RUnit.
Proof.
  intros Hs. pose proof Hs as (xs & H & Em & Ec). unfold Delete.
  destruct (items l !! k) as [p|] eqn:E.
  - destruct (wf_find _ _ _ _ H E) as (i & e & Hi & Hk).
    pose proof (hr_node _ _ (wf_heap _ _ H) i _ Hi) as Hnd. cbn [fst] in Hnd. rewrite Hnd.
    cbn [mbind option_bind node_of index]. rewrite decide_False by lia. rewrite Nat2Z.id.
    destruct (heap_Remove_ok ent_lt i (freqs l) xs (p, (k, e))) as (fh & ys & -> & Hr & Hp & Hh);
      [apply H|apply H|done|]. cbn [mbind option_bind fst].
    eexists _, _. split_and!; [done|done| |constructor]. exists ys. split_and!.
    + by apply (remove_wf l xs ys (p, (k, e))).
    + cbn. rewrite Em. symmetry. eapply abs_remove; [by eapply wf_keys|done].
    + done.
  - eexists _, _. split_and!; [done|done| |constructor]. exists xs. split_and!; try done.
    cbn. rewrite Em. apply delete_id. by eapply wf_find_None.
Qed.

Lemma lfu_Set_refines pick k v l s :
  refines l s → ∃ l' s', Set_ k v l = Some l' ∧ cap l' = cap l ∧ refines l' s' ∧
    Spec.step (cap l) (OSet pick k v) s s' RUnit.
Proof.
  intros Hs. pose proof Hs as (xs & H & Em & Ec). unfold Set_. case_decide as E0.
  { eexists _, _. split_and!; [done|done|exact Hs|by constructor]. }
  destruct (items l !! k) as [p|] eqn:E.
  - destruct (wf_find _ _ _ _ H E) as (i & e & Hi & Hk).
    destruct (touch_refines l s k p i e (λ _, v) xs H Em Ec Hi) as (l' & v' & -> & Ev & Hc & _ & Hr).
    cbn in Ev. subst v'. eexists _, _. split_and!; [done|done|done|]. constructor; [done|].
    by rewrite Em.
  - assert (Spec.held s !! k = None) as Hkn by (rewrite Em; by eapply wf_find_None).
    assert (Z.of_nat (size (Spec.held s)) = len l) as Hsz.
    { rewrite Em, (abs_size _ (wf_keys _ _ H)). symmetry. apply H. }
    pose proof (wf_cap _ _ H) as Hcap.
    destruct (decide (len l = cap l)) as [Ef|Ef].
    + destruct (internalEvict_refines l s Hs) as (l1 & m & r & -> & Hev & Hr1 & Hc1 & Hl1).
      cbn [mbind option_bind fst].
      assert (m !! k = None) as Hmk.
      { destruct Hev; [done|]. apply lookup_delete_None. by right. }
      destruct (push_refines l1 (Spec.MkState m (Spec.clock s)) k v Hr1 Hmk) as (fh & -> & Hr2);
        [rewrite Hl1, Hc1; lia|].
      cbn [mbind option_bind]. eexists _, _. split_and!; [done|done|exact Hr2|].
      apply (Spec.set_new _ pick k v s m r); [done|done|]. rewrite decide_True by lia. done.
    + cbn [mbind option_bind]. destruct (push_refines l s k v Hs Hkn) as (fh & -> & Hr2); [lia|].
      cbn [mbind option_bind]. eexists _, _. split_and!; [done|done|exact Hr2|].
      apply (Spec.set_new _ pick k v s (Spec.held s) (""%string, false)); [done|done|].
      by rewrite decide_False by lia.
Qed.

Lemma lfu_step_refines o l s :
  refines l s → ∃ l' s' r, step o l = Some (l', r) ∧ cap l' = cap l ∧ refines l' s' ∧
    Spec.step (cap l) o s s' r.
Proof.
  intros Hs. destruct o as [k|pick k v| |k]; cbn [step alg_Get alg_Set alg_Evict alg_Delete LFU_IAlgorithm].
  - destruct (lfu_Get_refines k l s Hs) as (l' & s' & r & -> & ?). cbn. eauto.
  - destruct (lfu_Set_refines pick k v l s Hs) as (l' & s' & -> & ?). cbn. eauto.
  - unfold Evict. case_decide as E0.
    + cbn. eexists _, s, _. split_and!; [done|done|done|].
      destruct Hs as (xs & H & Em & Ec). pose proof (wf_cap _ _ H). rewrite (wf_len _ _ H), E0 in *.
      destruct xs; [|cbn in *; lia]. destruct s as [m c]. cbn in Em. subst m.
      apply (Spec.evict_step _ (Spec.MkState ∅ c)). constructor.
    + destruct (internalEvict_refines l s Hs) as (l' & m & r & -> & Hev & Hr & Hc & _). cbn.
      eexists _, _, _. split_and!; [done|done|exact Hr|by constructor].
  - destruct (lfu_Delete_refines k l s Hs) as (l' & s' & -> & ?). cbn. eauto.
Qed.

Lemma lfu_run_refines os l s :
  refines l s → ∃ l' s' rs, run os l = Some (l', rs) ∧ cap l' = cap l ∧ refines l' s' ∧
    Spec.run (cap l) os s s' rs.
Proof.
  revert l s. induction os as [|o os IH]; intros l s Hs; cbn [run].
  { eexists _, _, _. split_and!; [done|done|exact Hs|constructor]. }
  destruct (lfu_step_refines o l s Hs) as (l1 & s1 & r & -> & Hc1 & Hr1 & Hst). cbn [mbind option_bind fst snd].
  destruct (IH l1 s1 Hr1) as (l2 & s2 & rs & -> & Hc2 & Hr2 & Hrun). cbn [mbind option_bind fst snd].
  eexists _, _, _. split_and!; [done|congruence|exact Hr2|]. rewrite Hc1 in Hrun.
  by econstructor.
Qed.

Lemma lfu_New_refines capacity l :
  NewLFUAlgorithm capacity = Ok l → refines l (Spec.MkState ∅ 0) ∧ cap l = capacity.
Proof.
  unfold NewLFUAlgorithm. destruct (Z.ltb_spec capacity 0); intros; simplify_eq.
  split; [|done]. exists []. split_and!; try done. split; cbn; try done.
  - split; cbn; [done|constructor|done|done].
  - apply indexes_empty.
Qed.

(** ** Ties: the times of last use are distinct *)

Record times_ok (s : Spec.state) (n : Z) : Prop := {
  to_clock : (0 ≤ Spec.clock s ≤ n)%Z;
  to_bound : ∀ k e, Spec.held s !! k = Some e → (e.2 ≤ Spec.clock s)%Z;
  to_inj : ∀ k k' e e', Spec.held s !! k = Some e → Spec.held s !! k' = Some e' →
    e.2 = e'.2 → k = k' }.

(** Giving one key a time later than all the others. *)
Lemma times_ok_tick s n k v m :
  times_ok s n → (n < 2 ^ 64 - 1)%Z → m ⊆ Spec.held s →
  times_ok (Spec.MkState (<[k := (v, u64 (Spec.clock s + 1))]> m) (u64 (Spec.clock s + 1))) (n + 1).
Proof.
  intros [Hc Hb Hi] Hn Hm. rewrite u64_small by lia. split; cbn [Spec.held Spec.clock].
  - lia.
  - intros k' e. rewrite lookup_insert. case_decide; [intros; by simplify_eq/=|].
    intros He. pose proof (Hb _ _ (lookup_weaken _ _ _ _ He Hm)). lia.
  - intros k1 k2 e1 e2. rewrite !lookup_insert.
    repeat case_decide; subst; intros H1 H2 E; simplify_eq/=; try done.
    + pose proof (Hb _ _ (lookup_weaken _ _ _ _ H2 Hm)). lia.
    + pose proof (Hb _ _ (lookup_weaken _ _ _ _ H1 Hm)). lia.
    + eapply Hi; [by eapply lookup_weaken|by eapply lookup_weaken|done].
Qed.

Lemma times_ok_sub s n m :
  times_ok s n → m ⊆ Spec.held s → times_ok (Spec.MkState m (Spec.clock s)) (n + 1).
Proof.
  intros [Hc Hb Hi] Hm. split; cbn; [lia|..].
  - intros k e He. eapply Hb, lookup_weaken; done.
  - intros k k' e e' H1 H2. apply Hi; by eapply lookup_weaken.
Qed.

Lemma evict_sub m m' r : Spec.evict m m' r → m' ⊆ m.
Proof. intros []; [done|apply delete_subseteq]. Qed.

Lemma step_times cap o s s' r n :
  Spec.step cap o s s' r → times_ok s n → (n < 2 ^ 64 - 1)%Z → times_ok s' (n + 1).
Proof.
  intros Hst Ht Hn.
  destruct Hst as [k s Hk|k s e Hk|pick k v s H0|pick k v s e H0 Hk|pick k v s m r H0 Hk Hev|s m r Hev|k s].
  - destruct s. by apply (times_ok_sub _ _ _ Ht).
  - by apply times_ok_tick.
  - destruct s. by apply (times_ok_sub _ _ _ Ht).
  - by apply times_ok_tick.
  - apply (times_ok_tick _ _ k (v, 1%Z)); [done|done|].
    destruct (decide _); [by eapply evict_sub|by subst].
  - apply times_ok_sub; [done|]. by eapply evict_sub.
  - apply times_ok_sub; [done|]. apply delete_subseteq.
Qed.

Lemma run_times cap os s s' rs n :
  Spec.run cap os s s' rs → times_ok s n → (n + Z.of_nat (length os) < 2 ^ 64)%Z →
  times_ok s' (n + Z.of_nat (length os)).
Proof.
  intros Hr. revert n. induction Hr as [s|o os s1 s2 s3 r rs Hst Hr IH]; intros n Ht Hn.
  - cbn. by rewrite Z.add_0_r.
  - cbn [length] in *. replace (n + Z.of_nat (S (length os)))%Z with (n + 1 + Z.of_nat (length os))%Z by lia.
    apply IH; [|lia]. eapply step_times; [done..|lia].
Qed.

Lemma victim_unique s n k k' :
  times_ok s n → Spec.victim k (Spec.held s) → Spec.victim k' (Spec.held s) → k = k'.
Proof.
  intros Ht (e & He & Hmin) (e' & He' & Hmin').
  specialize (Hmin k' e' He'). specialize (Hmin' k e He). unfold Spec.before in *.
  apply bool_decide_eq_false in Hmin, Hmin'. apply (to_inj _ _ Ht _ _ e e'); [done|done|lia].
Qed.

(** ** The claims *)

(** C2: For every non-negative capacity, every sequence of operations runs on the
    LFU heap code without a panic (no index out of range, no nil node, every
    node's stored position is where it is), and its answers are those of the
    abstract LFU cache: a map from keys to value, use count and time of last
    use, in which inserting into a full cache and [Evict] remove an entry with
    the least count and, among those, the earliest last use. *)
Theorem lfu_refinement (capacity : Z) (os : list op) :
  (0 ≤ capacity)%Z →
  ∃ l0 l s rs, NewLFUAlgorithm capacity = Ok l0 ∧ run os l0 = Some (l, rs) ∧ refines l s ∧
    Spec.run capacity os (Spec.MkState ∅ 0) s rs.
Proof.
  intros Hc. destruct (NewLFUAlgorithm capacity) as [l0|] eqn:E.
  - destruct (lfu_New_refines _ _ E) as [H0 Hc0].
    destruct (lfu_run_refines os _ _ H0) as (l & s & rs & ? & _ & ? & ?). rewrite Hc0 in *. eauto 10.
  - unfold NewLFUAlgorithm in E. destruct (Z.ltb_spec capacity 0); [lia|done].
Qed.

Definition sample_ops : list op :=
  [OSet 0 "a" (AString "1"); OSet 0 "b" (AString "2"); OGet "a"; OSet 0 "c" (AString "3");
   OGet "b"; OEvict]%string.

Lemma lfu_refinement_witness :
  (∃ l0 l s rs, NewLFUAlgorithm 2 = Ok l0 ∧ run sample_ops l0 = Some (l, rs) ∧ refines l s ∧
    Spec.run 2 sample_ops (Spec.MkState ∅ 0) s rs) ∧
  snd <$> run sample_ops (MkLFU ∅ (FH [] ∅ 1%positive) 0 2 0) =
    Some [RUnit; RUnit; RGet (AString "1", true); RUnit; RGet (ANil, false);
          REvict ("c"%string, true)].
Proof. split; [apply (lfu_refinement 2); lia|vm_compute; reflexivity]. Defined.

(** Within the first 2^64-1 operations, the sequence number breaks every tie:
    the least entry (by count, then by last use) of a reachable non-empty LFU
    cache is unique and [Evict] removes exactly that key. *)
Theorem lfu_evict_least (capacity : Z) (l0 l : LFUAlgorithm) (os : list op) (rs : list output) :
  NewLFUAlgorithm capacity = Ok l0 → run os l0 = Some (l, rs) →
  (Z.of_nat (length os) < 2 ^ 64)%Z →
  ∃ s, refines l s ∧ ∀ k, Spec.victim k (Spec.held s) →
    ∃ l', Evict l = Some (l', (k, true)) ∧
      refines l' (Spec.MkState (delete k (Spec.held s)) (Spec.clock s)).
Proof.
  intros E Hrun Hn. destruct (lfu_New_refines _ _ E) as [H0 _].
  destruct (lfu_run_refines os _ _ H0) as (l1 & s & rs1 & Hrun1 & _ & Hr & Hs).
  rewrite Hrun in Hrun1. simplify_eq. exists s. split; [done|]. intros k Hv.
  assert (times_ok s (0 + Z.of_nat (length os))) as Ht.
  { eapply run_times; [exact Hs|split; cbn; [lia|done|done]|lia]. }
  destruct (internalEvict_refines l1 s Hr) as (l' & m & r & Hi & Hev & Hr' & _ & _).
  assert (cap l1 ≠ 0%Z) as Hc.
  { intros Hc. destruct Hr as (xs & H & Em & _). destruct Hv as (e & He & _).
    pose proof (wf_cap _ _ H). rewrite (wf_len _ _ H), Hc in *. destruct xs; [|cbn in *; lia].
    by rewrite Em in He. }
  exists l'. unfold Evict. rewrite decide_False by done. rewrite Hi.
  inversion Hev as [E1 E2 E3|m' k' Hv' E1 E2 E3]; subst.
  - rewrite <- E1 in Hv. by destruct Hv as (e & He & _).
  - rewrite (victim_unique _ _ k k' Ht Hv Hv'). done.
Qed.

Lemma lfu_evict_least_witness :
  ∃ l0 l rs s, NewLFUAlgorithm 2 = Ok l0 ∧ run (take 5 sample_ops) l0 = Some (l, rs) ∧
    refines l s ∧ ∀ k, Spec.victim k (Spec.held s) →
    ∃ l', Evict l = Some (l', (k, true)) ∧
      refines l' (Spec.MkState (delete k (Spec.held s)) (Spec.clock s)).
Proof.
  destruct (NewLFUAlgorithm 2) as [l0|] eqn:E; [|by vm_compute in E].
  destruct (run (take 5 sample_ops) l0) as [[l rs]|] eqn:Er.
  2:{ vm_compute in E. injection E as <-. by vm_compute in Er. }
  destruct (lfu_evict_least 2 l0 l _ rs E Er) as (s & ? & ?); [vm_compute; reflexivity|].
  by exists l0, l, rs, s.
Defined.

End LFU.
