(* ===== verification/Eviction.v ===== *)
(** * Eviction algorithms behind their interface, the registry, and sharding
    (pkg/eviction/eviction.go, pkg/eviction/sharded.go)

    The instances of [AlgorithmLaws] for the four registered algorithms, the sum
    type their registry returns, and the sharded wrapper, which is an algorithm
    again. *)

From stdpp Require Import base gmap strings list fin_maps.
From S2P Require Import Prelude Algorithm Item LRU CAWOLFU LFU Clock.

(** ** LRU and CAWOLFU: from recency lists to maps *)

Lemma assoc_map (a : list (string * any)) k : (list_to_map a : gmap string any) !! k = assoc k a.
Proof.
  induction a as [|[k' v] a IH]; cbn; [done|]. rewrite lookup_insert. by repeat case_decide.
Qed.

Lemma drop_key_map k (a : list (string * any)) :
  (list_to_map (drop_key k a) : gmap string any) = delete k (list_to_map a).
Proof.
  induction a as [|[k' v] a IH]; [symmetry; apply delete_empty|]. unfold drop_key in *.
  rewrite filter_cons. cbn. case_decide as E.
  - cbn. rewrite IH. by rewrite delete_insert_ne.
  - rewrite IH. assert (k' = k) as -> by (destruct (decide (k' = k)); [done|by destruct E]). by rewrite delete_insert_eq.
Qed.

Lemma snoc_map (a : list (string * any)) k v :
  NoDup (a ++ [(k, v)]).*1 →
  (list_to_map a : gmap string any) = delete k (list_to_map (a ++ [(k, v)])).
Proof.
  intros Hn. rewrite <- drop_key_map, drop_key_middle by done. by rewrite app_nil_r.
Qed.

Section RecencyList.
Context {A : Type} `{IAlgorithm A} (ref : nat → A → list (string * any) → Prop)
  (ref_nodup : ∀ cap a l, ref cap a l → NoDup l.*1)
  (ref_length : ∀ cap a l, ref cap a l → length l ≤ cap)
  (ref_step : ∀ cap o a l, ref cap a l →
    ∃ a', step o a = Some (a', (LRU.spec_step (Z.of_nat cap) o l).2) ∧
      ref cap a' (LRU.spec_step (Z.of_nat cap) o l).1).

Definition list_tracks (cap : nat) (a : A) (m : gmap string any) : Prop :=
  ∃ l, ref cap a l ∧ m = list_to_map l.

Lemma list_tracks_size cap a m : list_tracks cap a m → size m ≤ cap.
Proof.
  intros (l & Hr & ->). rewrite map_size_list_to_map by (by eapply ref_nodup). by eapply ref_length.
Qed.

Lemma list_Get_law cap a m k : list_tracks cap a m →
  ∃ a', alg_Get k a = Some (a', (default ANil (m !! k), bool_decide (is_Some (m !! k)))) ∧
    list_tracks cap a' m.
Proof.
  intros (l & Hr & ->). destruct (ref_step cap (OGet k) a l Hr) as (a' & Hs & Hr'). cbn in *.
  destruct (alg_Get k a) as [[a1 r]|]; [|done]. cbn in Hs. simplify_eq. exists a'.
  rewrite assoc_map. unfold LRU.Spec.get in *. pose proof (ref_nodup _ _ _ Hr) as Hn.
  destruct (assoc k l) as [v|] eqn:E; cbn in *; (split; [done|]); eexists; (split; [exact Hr'|]).
  - cbn. rewrite drop_key_map, insert_delete_eq, insert_id; [done|]. by rewrite assoc_map.
  - done.
Qed.

Lemma list_Set_law cap a m pick k v : list_tracks cap a m →
  ∃ a' m', alg_Set pick k v a = Some a' ∧ list_tracks cap a' m' ∧ m' ⊆ <[k := v]> m ∧
    (is_Some (m !! k) → m' = <[k := v]> m).
Proof.
  intros (l & Hr & ->). destruct (ref_step cap (OSet pick k v) a l Hr) as (a' & Hs & Hr'). cbn in *.
  destruct (alg_Set pick k v a) as [a1|]; [|done]. cbn in Hs. simplify_eq. exists a'.
  eexists. split; [done|]. split; [eexists; split; [exact Hr'|done]|].
  pose proof (ref_nodup _ _ _ Hr) as Hn. rewrite assoc_map. unfold LRU.Spec.set in *.
  pose proof (ref_length _ _ _ Hr). destruct (Z.eqb_spec (Z.of_nat cap) 0).
  { destruct l; [|cbn in *; lia]. split; [apply map_empty_subseteq|by intros []]. }
  destruct (assoc k l) as [v'|] eqn:E; cbn.
  - rewrite drop_key_map, insert_delete_eq. done.
  - split; [|by intros []]. apply insert_mono. destruct (_ =? _)%Z; [|done].
    destruct l as [|[k0 v0] l0 _] using rev_ind; [done|]. rewrite removelast_last.
    rewrite (snoc_map l0 k0 v0) by done. apply delete_subseteq.
Qed.

Lemma list_Evict_law cap a m : list_tracks cap a m →
  ∃ a' m' r, alg_Evict a = Some (a', r) ∧ list_tracks cap a' m' ∧
    (r = (""%string, false) ∧ m' = m ∨ ∃ k, r = (k, true) ∧ is_Some (m !! k) ∧ m' = delete k m).
Proof.
  intros (l & Hr & ->). destruct (ref_step cap OEvict a l Hr) as (a' & Hs & Hr'). cbn in *.
  destruct (alg_Evict a) as [[a1 r]|]; [|done]. cbn in Hs. simplify_eq. eexists a', _, _.
  split; [done|]. split; [eexists; split; [exact Hr'|done]|].
  pose proof (ref_nodup _ _ _ Hr) as Hn. unfold LRU.Spec.evict.
  destruct l as [|[k0 v0] l0 _] using rev_ind; cbn; [by left|].
  rewrite last_snoc, removelast_last. cbn. right. exists k0. split; [done|].
  rewrite <- (snoc_map l0 k0 v0) by done. split; [|done].
  rewrite assoc_map, assoc_middle by done. eauto.
Qed.

Lemma list_Delete_law cap a m k : list_tracks cap a m →
  ∃ a', alg_Delete k a = Some a' ∧ list_tracks cap a' (delete k m).
Proof.
  intros (l & Hr & ->). destruct (ref_step cap (ODelete k) a l Hr) as (a' & Hs & Hr'). cbn in *.
  destruct (alg_Delete k a) as [a1|]; [|done]. cbn in Hs. simplify_eq. exists a'. split; [done|].
  eexists. split; [exact Hr'|]. symmetry. apply drop_key_map.
Qed.

Definition RecencyList_Laws : AlgorithmLaws A := {|
  tracks := list_tracks; tracks_size := list_tracks_size; Get_law := list_Get_law;
  Set_law := list_Set_law; Evict_law := list_Evict_law; Delete_law := list_Delete_law |}.

End RecencyList.

Definition lru_ref (cap : nat) (s : LRU.LRU) (l : list (string * any)) : Prop :=
  LRU.refines s l ∧ LRU.capacity s = Z.of_nat cap.
Definition caw_ref (cap : nat) (c : CAWOLFU.CAWOLFU) (l : list (string * any)) : Prop :=
  CAWOLFU.refines c l ∧ CAWOLFU.cap c = Z.of_nat cap.

#[export] Instance LRU_Laws : AlgorithmLaws LRU.LRU.
Proof.
  apply (RecencyList_Laws lru_ref).
  - intros cap s l [(xs & H & ->) _]. by eapply LRU.wf_abs_nodup.
  - intros cap s l [H E]. apply LRU.refines_length in H. lia.
  - intros cap o s l [H E]. destruct (LRU.lru_step_refines o s l H) as (s' & ? & ? & ?).
    rewrite E in *. exists s'. by split.
Defined.

#[export] Instance CAWOLFU_Laws : AlgorithmLaws CAWOLFU.CAWOLFU.
Proof.
  apply (RecencyList_Laws caw_ref).
  - intros cap s l [(xs & H & ->) _]. rewrite CAWOLFU.caw_abs_keys. apply H.
  - intros cap s l [(xs & H & ->) E]. unfold CAWOLFU.abs. rewrite length_fmap.
    pose proof (CAWOLFU.wf_len _ _ H). pose proof (CAWOLFU.wf_cap _ _ H). lia.
  - intros cap o s l [H E]. destruct (CAWOLFU.caw_step_refines o s l H) as (s' & ? & ? & ?).
    rewrite E in *. exists s'. by split.
Defined.

(** ** Clock and LFU *)

Definition clock_tracks (cap : nat) (c : Clock.ClockAlgorithm) (m : gmap string any) : Prop :=
  Clock.wf c ∧ Clock.contents c = m ∧ Clock.capacity c = cap.

#[export] Program Instance Clock_Laws : AlgorithmLaws Clock.ClockAlgorithm := {|
  tracks := clock_tracks |}.
Next Obligation. intros cap c m (H & <- & <-). by apply Clock.size_contents. Qed.
Next Obligation.
  intros cap c m k (H & <- & <-). destruct (Clock.Get_contents k c H) as (c' & Hg & Hw & Hd & Ec).
  exists c'. by split.
Qed.
Next Obligation.
  intros cap c m pick k v (H & <- & <-). cbn. destruct (decide (Clock.capacity c = 0)) as [E|E].
  - pose proof (Clock.size_contents c H) as Hs. rewrite E in Hs.
    assert (Clock.contents c = ∅) as Em by (apply map_size_empty_inv; lia).
    exists c, ∅. unfold Clock.Set_. rewrite decide_True by done. rewrite Em.
    split_and!; [done|by split|apply map_empty_subseteq|by intros []].
  - destruct (Clock.Set_contents k v c H E) as (c' & Hs & Hw & Ec & Hcase).
    exists c', (Clock.contents c'). split; [done|]. split; [done|].
    destruct Hcase as [[_ Hd]|(Hn & _ & [(Hd & _)|(i & it & _ & Hd)])]; rewrite Hd.
    + done.
    + rewrite Hn. split; [by apply insert_subseteq|by intros []].
    + rewrite Hn. split; [|by intros []]. apply insert_mono, delete_subseteq.
Qed.
Next Obligation.
  intros cap c m (H & <- & <-). destruct (Clock.Evict_contents c H) as (c' & r & He & Hw & Ec & Hr).
  exists c', (Clock.contents c'), r. split; [done|]. split; [done|]. done.
Qed.
Next Obligation.
  intros cap c m k (H & <- & <-). destruct (Clock.Delete_contents k c H) as (c' & Hd & Hw & Em & Ec).
  exists c'. by split.
Qed.

Definition lfu_held (s : LFU.Spec.state) : gmap string any :=
  (λ e : LFU.Spec.entry, e.1.1) <$> LFU.Spec.held s.

Definition lfu_tracks (cap : nat) (l : LFU.LFUAlgorithm) (m : gmap string any) : Prop :=
  ∃ s, LFU.refines l s ∧ m = lfu_held s ∧ LFU.cap l = Z.of_nat cap.

Lemma lfu_tracks_size cap l m : lfu_tracks cap l m → size m ≤ cap.
Proof.
  intros (s & (xs & H & Em & _) & -> & Hc). unfold lfu_held. rewrite map_size_fmap, Em.
  rewrite LFU.abs_size by (by eapply LFU.wf_keys).
  pose proof (LFU.wf_len _ _ H). pose proof (LFU.wf_cap _ _ H). lia.
Qed.

(** What one step of the LFU specification does to the keys held. *)
Lemma lfu_step_tracks cap o l m :
  lfu_tracks cap l m →
  ∃ l' s s' r, step o l = Some (l', r) ∧ lfu_tracks cap l' (lfu_held s') ∧ m = lfu_held s ∧
    LFU.Spec.step (Z.of_nat cap) o s s' r.
Proof.
  intros (s & Hr & -> & Hc). destruct (LFU.lfu_step_refines o l s Hr) as (l' & s' & r & ? & Hc' & Hr' & Hs).
  rewrite Hc in *. exists l', s, s', r. split_and!; try done. by exists s'.
Qed.

Lemma lfu_held_lookup s k : lfu_held s !! k = (λ e : LFU.Spec.entry, e.1.1) <$> LFU.Spec.held s !! k.
Proof. apply lookup_fmap. Qed.

#[export] Program Instance LFU_Laws : AlgorithmLaws LFU.LFUAlgorithm := {|
  tracks := lfu_tracks; tracks_size := lfu_tracks_size |}.
Next Obligation.
  intros cap l m k Ht. destruct (lfu_step_tracks cap (OGet k) l m Ht) as (l' & s & s' & r & Hs & Ht' & -> & Hst).
  cbn in *. destruct (LFU.Get k l) as [[l1 r1]|]; [|done]. cbn in Hs. simplify_eq. exists l'.
  inversion Hst as [? ? Hk| ? ? e Hk| | | | | ]; subst; rewrite lfu_held_lookup, Hk; cbn; (split; [done|]).
  - done.
  - unfold lfu_held in *. cbn in Ht'. rewrite fmap_insert in Ht'. cbn in Ht'.
    rewrite insert_id in Ht'; [done|]. by rewrite lookup_fmap, Hk.
Qed.
Next Obligation.
  intros cap l m pick k v Ht.
  destruct (lfu_step_tracks cap (OSet pick k v) l m Ht) as (l' & s & s' & r & Hs & Ht' & -> & Hst).
  cbn in *. destruct (LFU.Set_ k v l) as [l1|]; [|done]. cbn in Hs. simplify_eq.
  exists l', (lfu_held s'). split; [done|]. split; [done|].
  inversion Hst as [| | ? ? ? ? H0| ? ? ? ? e H0 Hk| ? ? ? ? m r H0 Hk Hev| | ]; subst;
    rewrite lfu_held_lookup.
  - apply lfu_tracks_size in Ht. assert (cap = 0) as -> by lia.
    assert (lfu_held s' = ∅) as E by (apply map_size_empty_inv; lia).
    rewrite E. split; [apply map_empty_subseteq|].
    rewrite <- lfu_held_lookup, E, lookup_empty. by intros [].
  - unfold lfu_held. cbn. rewrite fmap_insert. done.
  - rewrite Hk. split; [|by intros []]. unfold lfu_held. cbn. rewrite fmap_insert.
    apply insert_mono, map_fmap_mono. destruct (decide _); [by eapply LFU.evict_sub|by subst].
Qed.
Next Obligation.
  intros cap l m Ht. destruct (lfu_step_tracks cap OEvict l m Ht) as (l' & s & s' & r & Hs & Ht' & -> & Hst).
  cbn in *. destruct (LFU.Evict l) as [[l1 r1]|]; [|done]. cbn in Hs. simplify_eq.
  exists l', (lfu_held s'), r1. split; [done|]. split; [done|].
  inversion Hst as [| | | | | ? m r Hev E1 E2 E3|]; subst. unfold lfu_held. cbn.
  inversion Hev as [F1 F2 F3|m' k (e & He & _) F1 F2 F3]; subst; [left|right].
  - split; [done|]. by f_equal.
  - exists k. split; [done|]. rewrite lookup_fmap, He. split; [by eexists|]. by rewrite fmap_delete.
Qed.
Next Obligation.
  intros cap l m k Ht. destruct (lfu_step_tracks cap (ODelete k) l m Ht) as (l' & s & s' & r & Hs & Ht' & -> & Hst).
  cbn in *. destruct (LFU.Delete k l) as [l1|]; [|done]. cbn in Hs. simplify_eq. exists l'. split; [done|].
  inversion Hst; subst. unfold lfu_held in *. cbn in Ht'. by rewrite fmap_delete in Ht'.
Qed.

(** ** The registry *)

(** The dynamic types the registered constructors return. *)
Inductive Algorithm :=
  | AnLRU (s : LRU.LRU)
  | AClock (c : Clock.ClockAlgorithm)
  | AnLFU (l : LFU.LFUAlgorithm)
  | ACAWOLFU (c : CAWOLFU.CAWOLFU).

(** Dynamic dispatch of an operation with a result, and of one without. *)
Definition dispatch_r {R} (f : ∀ A `{IAlgorithm A}, A → option (A * R)) (a : Algorithm)
    : option (Algorithm * R) :=
  match a with
  | AnLRU s => '(s, r) ← f _ s; Some (AnLRU s, r)
  | AClock c => '(c, r) ← f _ c; Some (AClock c, r)
  | AnLFU l => '(l, r) ← f _ l; Some (AnLFU l, r)
  | ACAWOLFU c => '(c, r) ← f _ c; Some (ACAWOLFU c, r)
  end.
Definition dispatch (f : ∀ A `{IAlgorithm A}, A → option A) (a : Algorithm) : option Algorithm :=
  match a with
  | AnLRU s => s ← f _ s; Some (AnLRU s)
  | AClock c => c ← f _ c; Some (AClock c)
  | AnLFU l => l ← f _ l; Some (AnLFU l)
  | ACAWOLFU c => c ← f _ c; Some (ACAWOLFU c)
  end.

#[export] Instance Algorithm_IAlgorithm : IAlgorithm Algorithm := {
  alg_Evict := dispatch_r (λ A _, alg_Evict);
  alg_Set := λ pick k v, dispatch (λ A _, alg_Set pick k v);
  alg_Get := λ k, dispatch_r (λ A _, alg_Get k);
  alg_Delete := λ k, dispatch (λ A _, alg_Delete k) }.

Definition createFunc : Type := Z → result Algorithm.

Definition result_map {A B} (f : A → B) (r : result A) : result B :=
  match r with Ok a => Ok (f a) | Err e => Err e end.

(** The field [algorithms] of [AlgorithmRegistry]. *)
Definition AlgorithmRegistry : Type := gmap string createFunc.

Definition getDefaultAlgorithms : gmap string createFunc :=
  list_to_map [
    ("lru", λ capacity, result_map AnLRU (LRU.NewLRUAlgorithm capacity));
    ("clock", λ capacity, result_map AClock (Clock.NewClockAlgorithm capacity));
    ("lfu", λ capacity, result_map AnLFU (LFU.NewLFUAlgorithm capacity));
    ("cawolfu", λ capacity, result_map ACAWOLFU (CAWOLFU.NewCAWOLFU capacity))]%string.

Definition NewEmptyAlgorithmRegistry : AlgorithmRegistry := ∅.

Definition Register (name : string) (f : createFunc) (r : AlgorithmRegistry) : AlgorithmRegistry :=
  <[name := f]> r.

(** [maps.Copy]: entries of the argument replace those of the registry. *)
Definition RegisterMultiple (algorithms : gmap string createFunc) (r : AlgorithmRegistry)
    : AlgorithmRegistry := algorithms ∪ r.

Definition NewAlgorithmRegistry : AlgorithmRegistry :=
  RegisterMultiple getDefaultAlgorithms NewEmptyAlgorithmRegistry.

Definition NewAlgorithm (r : AlgorithmRegistry) (algorithmName : string) (capacity : Z)
    : result Algorithm :=
  if decide (algorithmName = ""%string) then Err ErrParamCannotBeEmpty
  else if (capacity <? 0)%Z then Err ErrInvalidCapacity
  else match r !! algorithmName with
  | None => Err ErrAlgorithmNotFound
  | Some create => create capacity
  end.

Definition NewEvictionAlgorithm (algorithmName : string) (capacity : Z) : result Algorithm :=
  NewAlgorithm NewAlgorithmRegistry algorithmName capacity.

(** *** Laws of the sum *)

Definition sum_tracks (cap : nat) (a : Algorithm) (m : gmap string any) : Prop :=
  match a with
  | AnLRU s => tracks cap s m
  | AClock c => tracks cap c m
  | AnLFU l => tracks cap l m
  | ACAWOLFU c => tracks cap c m
  end.

#[export] Program Instance Algorithm_Laws : AlgorithmLaws Algorithm := {| tracks := sum_tracks |}.
Next Obligation. intros cap a m. destruct a; apply tracks_size. Qed.
Next Obligation.
  intros cap a m k H. destruct a as [x|x|x|x]; destruct (Get_law cap x m k H) as (a' & E & ?);
    cbn [alg_Get Algorithm_IAlgorithm dispatch_r]; rewrite E; eexists; (split; [done|]); done.
Qed.
Next Obligation.
  intros cap a m pick k v H.
  destruct a as [x|x|x|x]; destruct (Set_law cap x m pick k v H) as (a' & m' & E & ? & ? & ?);
    cbn [alg_Set Algorithm_IAlgorithm dispatch]; rewrite E; eexists _, m'; (split; [done|]); done.
Qed.
Next Obligation.
  intros cap a m H.
  destruct a as [x|x|x|x]; destruct (Evict_law cap x m H) as (a' & m' & r & E & ? & ?);
    cbn [alg_Evict Algorithm_IAlgorithm dispatch_r]; rewrite E; eexists _, m', r; (split; [done|]); done.
Qed.
Next Obligation.
  intros cap a m k H. destruct a as [x|x|x|x]; destruct (Delete_law cap x m k H) as (a' & E & ?);
    cbn [alg_Delete Algorithm_IAlgorithm dispatch]; rewrite E; eexists; (split; [done|]); done.
Qed.

Definition algorithmNames : list string := ["lru"; "clock"; "lfu"; "cawolfu"]%string.

Lemma NewAlgorithmRegistry_lookup name :
  NewAlgorithmRegistry !! name = getDefaultAlgorithms !! name.
Proof.
  unfold NewAlgorithmRegistry, RegisterMultiple, NewEmptyAlgorithmRegistry. by rewrite (right_id_L ∅ (∪)).
Qed.

(** Every registered constructor accepts the capacities that are not negative and
    returns an algorithm that tracks nothing. *)
Lemma defaults_ok name create capacity :
  getDefaultAlgorithms !! name = Some create → (0 ≤ capacity)%Z →
  name ∈ algorithmNames ∧ ∃ a, create capacity = Ok a ∧ tracks (Z.to_nat capacity) a ∅.
Proof.
  intros Hc%elem_of_list_to_map_2 Hcap. unfold algorithmNames.
  rewrite !elem_of_cons, elem_of_nil in Hc.
  destruct Hc as [E|[E|[E|[E|[]]]]]; injection E as -> ->; (split; [set_solver|]); cbn.
  - destruct (LRU.NewLRUAlgorithm capacity) as [s|] eqn:E.
    + eexists. split; [done|]. destruct (LRU.lru_New_refines _ _ E) as [? Ec].
      exists []. split; [|done]. split; [done|]. rewrite Ec. lia.
    + unfold LRU.NewLRUAlgorithm in E. destruct (Z.ltb_spec capacity 0); [lia|done].
  - destruct (Clock.NewClockAlgorithm capacity) as [s|] eqn:E.
    + eexists. split; [done|]. destruct (Clock.New_wf _ _ E) as (? & ? & Ec). done.
    + unfold Clock.NewClockAlgorithm in E. destruct (Z.ltb_spec capacity 0); [lia|done].
  - destruct (LFU.NewLFUAlgorithm capacity) as [s|] eqn:E.
    + eexists. split; [done|]. destruct (LFU.lfu_New_refines _ _ E) as [? Ec].
      eexists. split; [done|]. split; [symmetry; apply fmap_empty|]. rewrite Ec. lia.
    + unfold LFU.NewLFUAlgorithm in E. destruct (Z.ltb_spec capacity 0); [lia|done].
  - destruct (CAWOLFU.NewCAWOLFU capacity) as [s|] eqn:E.
    + eexists. split; [done|]. destruct (CAWOLFU.caw_New_refines _ _ E) as [? Ec].
      exists []. split; [|done]. split; [done|]. rewrite Ec. lia.
    + unfold CAWOLFU.NewCAWOLFU in E. destruct (Z.ltb_spec capacity 0); [lia|done].
Qed.

Lemma NewEvictionAlgorithm_ok name capacity a :
  NewEvictionAlgorithm name capacity = Ok a →
  name ∈ algorithmNames ∧ (0 ≤ capacity)%Z ∧ tracks (Z.to_nat capacity) a ∅.
Proof.
  unfold NewEvictionAlgorithm, NewAlgorithm. case_decide; [done|].
  destruct (Z.ltb_spec capacity 0); [done|]. rewrite NewAlgorithmRegistry_lookup.
  destruct (getDefaultAlgorithms !! name) as [create|] eqn:E; [|done]. intros Hok.
  destruct (defaults_ok _ _ _ E ltac:(done)) as (? & a' & Ha & Ht). rewrite Ha in Hok. by simplify_eq.
Qed.

(** ** Sharding *)

Record Sharded := MkSharded {
  shards : list Algorithm;
  mask : Z;          (* uint32 *)
  evictCursor : Z    (* atomic.Uint32 *) }.

Fixpoint newShards (algorithmName : string) (perShard : Z) (n : nat) : result (list Algorithm) :=
  match n with
  | 0 => Ok []
  | S n =>
      match NewEvictionAlgorithm algorithmName perShard with
      | Err e => Err e
      | Ok shard => result_map (cons shard) (newShards algorithmName perShard n)
      end
  end.

(** A failed [converters.ToUint32] is reported as an error of that package, which
    has no sentinel here; it cannot happen on the last line for a shard count
    that could be allocated. *)
Definition NewSharded (algorithmName : string) (totalCapacity shardCount : Z) : result Sharded :=
  if ((shardCount <=? 0) || negb (Z.land shardCount (shardCount - 1) =? 0))%Z
  then Err ErrInvalidCapacity
  else if (totalCapacity <? 0)%Z then Err ErrInvalidCapacity
  else
    let perShard := Z.quot (i64 (i64 (totalCapacity + shardCount) - 1)) shardCount in
    match newShards algorithmName perShard (Z.to_nat shardCount) with
    | Err e => Err e
    | Ok shards =>
        match ToUint32 (shardCount - 1) with
        | None => Err ErrInvalidCapacity
        | Some mask => Ok (MkSharded shards mask 0)
        end
    end.

Section Sharded.
Context (sum64 : string → Z).

(** The index of a key's shard; the conversion of [Hash] never panics. *)
Definition shardIdx (mask : Z) (key : string) : option nat :=
  h ← Hash sum64 key; Some (Z.to_nat (Z.land h mask)).

Definition with_shard (i : nat) (a : Algorithm) (s : Sharded) : Sharded :=
  MkSharded (<[i := a]> (shards s)) (mask s) (evictCursor s).

Definition shardFor (key : string) (s : Sharded) : option (nat * Algorithm) :=
  i ← shardIdx (mask s) key; a ← shards s !! i; Some (i, a).

Definition sharded_Set (pick : nat) (key : string) (value : any) (s : Sharded) : option Sharded :=
  '(i, a) ← shardFor key s; a ← alg_Set pick key value a; Some (with_shard i a s).

Definition sharded_Get (key : string) (s : Sharded) : option (Sharded * (any * bool)) :=
  '(i, a) ← shardFor key s; '(a, r) ← alg_Get key a; Some (with_shard i a s, r).

Definition sharded_Delete (key : string) (s : Sharded) : option Sharded :=
  '(i, a) ← shardFor key s; a ← alg_Delete key a; Some (with_shard i a s).

(** The loop [for i := range n] of [Evict], [i] counting up to [n]. *)
Fixpoint evictLoop (rest : nat) (i start : Z) (s : Sharded) : option (Sharded * (string * bool)) :=
  match rest with
  | 0 => Some (s, (""%string, false))
  | S rest =>
      let idx := Z.to_nat (Z.land (u32 (start + i)) (mask s)) in
      a ← shards s !! idx;
      '(a, (key, ok)) ← alg_Evict a;
      let s := with_shard idx a s in
      if ok : bool then Some (s, (key, true)) else evictLoop rest (i + 1) start s
  end.

Definition sharded_Evict (s : Sharded) : option (Sharded * (string * bool)) :=
  match ToUint32 (Z.of_nat (length (shards s))) with
  | None => Some (s, (""%string, false))
  | Some n =>
      let cur := u32 (evictCursor s + 1) in
      let start := u32 (cur - 1) in
      evictLoop (Z.to_nat n) 0 start (MkSharded (shards s) (mask s) cur)
  end.

#[export] Instance Sharded_IAlgorithm : IAlgorithm Sharded := {
  alg_Evict := sharded_Evict; alg_Set := sharded_Set;
  alg_Get := sharded_Get; alg_Delete := sharded_Delete }.

(** *** Invariant *)

(** Shard [i] tracks [ms !! i], and only keys that hash to [i]. *)
Record sharded_rep (per : nat) (s : Sharded) (ms : list (gmap string any)) : Prop := {
  sr_shards : Forall2 (λ a m, tracks per a m) (shards s) ms;
  sr_mask : ∃ p, (0 ≤ p ≤ 32)%Z ∧ Z.of_nat (length (shards s)) = (2 ^ p)%Z ∧ mask s = Z.ones p;
  sr_own : ∀ i m k, ms !! i = Some m → is_Some (m !! k) → shardIdx (mask s) k = Some i }.

Lemma shardIdx_Some per s ms k :
  sharded_rep per s ms →
  ∃ i a m, shardIdx (mask s) k = Some i ∧ shards s !! i = Some a ∧ ms !! i = Some m ∧
    tracks per a m ∧ shardFor k s = Some (i, a).
Proof.
  intros [Hs (p & Hp & Hl & Hm) _]. unfold shardFor, shardIdx.
  destruct (Hash_is_Some sum64 k) as (h & -> & Hh & _). cbn. rewrite Hm.
  pose proof (land_ones_bound h p ltac:(lia)) as Hb.
  destruct (lookup_lt_is_Some_2 (shards s) (Z.to_nat (Z.land h (Z.ones p)))) as [a Ha]; [lia|].
  destruct (Forall2_lookup_l _ _ _ _ _ Hs Ha) as (m & Hmi & Ht). rewrite Ha. cbn. eauto 10.
Qed.

Lemma sharded_lookup per s ms k i m :
  sharded_rep per s ms → shardIdx (mask s) k = Some i → ms !! i = Some m → (⋃ ms) !! k = m !! k.
Proof.
  intros H Hi Hm. apply (union_list_lookup ms i m k Hm). intros j m' Hj Hne.
  destruct (m' !! k) eqn:E; [|done]. assert (shardIdx (mask s) k = Some j); [|congruence].
  eapply (sr_own _ _ _ H); [done|]. by rewrite E.
Qed.

(** One shard moves on. *)
Lemma sharded_update per s ms i a m a' m' :
  sharded_rep per s ms → shards s !! i = Some a → ms !! i = Some m → tracks per a' m' →
  (∀ k, is_Some (m' !! k) → shardIdx (mask s) k = Some i) →
  sharded_rep per (with_shard i a' s) (<[i := m']> ms) ∧
  ∀ k, (⋃ (<[i := m']> ms)) !! k =
    if decide (shardIdx (mask s) k = Some i) then m' !! k else (⋃ ms) !! k.
Proof.
  intros H Ha Hm Ht Hown. pose proof H as [Hs Hmask Ho].
  assert (i < length ms) as Hlt by (by eapply lookup_lt_Some).
  assert (sharded_rep per (with_shard i a' s) (<[i := m']> ms)) as H'.
  { split; cbn.
    - apply Forall2_insert; done.
    - by rewrite length_insert.
    - intros j m0 k. destruct (decide (i = j)) as [->|Hne].
      + rewrite list_lookup_insert_eq by done. intros ?. simplify_eq. apply Hown.
      + rewrite list_lookup_insert_ne by done. by apply Ho. }
  split; [done|]. intros k.
  destruct (shardIdx_Some per s ms k H) as (j & b & mb & Hj & _ & Hmb & _).
  rewrite Hj. case_decide as E.
  - injection E as ->. apply (sharded_lookup _ _ _ _ i _ H' Hj). by apply list_lookup_insert_eq.
  - rewrite (sharded_lookup _ _ _ _ j mb H' Hj), (sharded_lookup _ _ _ _ j mb H Hj Hmb); [done|].
    rewrite list_lookup_insert_ne; [done|congruence].
Qed.

(** What [n] shards of capacity [per] track together. *)
Definition sharded_tracks (per n cap : nat) (s : Sharded) (m : gmap string any) : Prop :=
  ∃ ms, (cap = per * n ∧ length (shards s) = n) ∧ sharded_rep per s ms ∧ m = ⋃ ms.

Lemma sharded_tracks_size per n cap s m : sharded_tracks per n cap s m → size m ≤ cap.
Proof.
  intros (ms & [-> <-] & [Hs _ _] & ->). generalize dependent (shards s). intros ss Hs.
  induction Hs as [|a m ss ms Ht Hs IH].
  { cbn. rewrite map_size_empty. lia. }
  cbn [union_list foldr length]. pose proof (map_size_union_le m (⋃ ms)).
  pose proof (tracks_size _ _ _ Ht). unfold union_list in *. cbn in *. lia.
Qed.

Lemma sharded_own per s ms k i m :
  sharded_rep per s ms → ms !! i = Some m → is_Some (m !! k) → shardIdx (mask s) k = Some i.
Proof. intros H. apply (sr_own _ _ _ H). Qed.

Lemma evictLoop_ok per n i start s ms :
  sharded_rep per s ms →
  ∃ s' ms' r, evictLoop n i start s = Some (s', r) ∧ sharded_rep per s' ms' ∧
    length (shards s') = length (shards s) ∧
    (r = (""%string, false) ∧ ⋃ ms' = ⋃ ms ∨
     ∃ k, r = (k, true) ∧ is_Some ((⋃ ms) !! k) ∧ ⋃ ms' = delete k (⋃ ms)).
Proof.
  revert i s ms. induction n as [|n IH]; intros i s ms H; cbn [evictLoop].
  { eexists _, _, _. split; [done|]. split; [done|]. split; [done|]. by left. }
  pose proof H as [Hs (p & Hp & Hl & Hm) _].
  set (idx := Z.to_nat _). assert (idx < length (shards s)) as Hidx.
  { unfold idx. rewrite Hm. pose proof (land_ones_bound (u32 (start + i)) p ltac:(lia)). lia. }
  destruct (lookup_lt_is_Some_2 _ _ Hidx) as [a Ha].
  destruct (Forall2_lookup_l _ _ _ _ _ Hs Ha) as (m & Hmi & Ht). rewrite Ha. cbn [mbind option_bind].
  destruct (Evict_law _ _ _ Ht) as (a' & m' & r & -> & Ht' & Hr). cbn [mbind option_bind].
  assert (m' ⊆ m) as Hsub.
  { destruct Hr as [[_ ->]|(k & _ & _ & ->)]; [done|apply delete_subseteq]. }
  destruct (sharded_update per s ms idx a m a' m' H Ha Hmi Ht') as [H' Hlook].
  { intros k [v Hk]. eapply (sharded_own per s ms); [done|done|]. exists v. by eapply lookup_weaken. }
  destruct Hr as [[-> ->]|(k & -> & Hk & ->)].
  - rewrite list_insert_id in * by done.
    destruct (IH (i + 1)%Z _ _ H') as (s' & ms' & r & -> & Hrep & Hlen & Hr).
    eexists _, ms', _. split; [done|]. split; [done|]. split; [|done].
    rewrite Hlen. apply length_insert.
  - eexists _, _, _. split; [done|]. split; [done|]. split; [apply length_insert|]. right.
    exists k. split; [done|]. pose proof (sharded_own _ _ _ _ _ _ H Hmi Hk) as Hkidx.
    rewrite (sharded_lookup _ _ _ _ _ _ H Hkidx Hmi). split; [done|].
    apply map_eq. intros k'. rewrite Hlook, !lookup_delete.
    destruct (decide (shardIdx (mask s) k' = Some idx)) as [E|E].
    + by rewrite (sharded_lookup _ _ _ _ _ _ H E Hmi).
    + rewrite decide_False; [done|congruence].
Qed.

#[export] Program Instance Sharded_Laws (per n : nat) : AlgorithmLaws Sharded := {|
  tracks := sharded_tracks per n; tracks_size := sharded_tracks_size per n |}.
Next Obligation.
  intros per n cap s m k (ms & [-> <-] & H & ->). cbn. unfold sharded_Get.
  destruct (shardIdx_Some per s ms k H) as (i & a & m & Hi & Ha & Hm & Ht & ->). cbn [mbind option_bind].
  destruct (Get_law _ _ _ k Ht) as (a' & -> & Ht'). cbn [mbind option_bind].
  destruct (sharded_update per s ms i a m a' m H Ha Hm Ht') as [H' _].
  { intros k' Hk'. by eapply sharded_own. }
  rewrite list_insert_id in H' by done. rewrite (sharded_lookup _ _ _ _ _ _ H Hi Hm).
  eexists. split; [done|]. exists ms. split_and!; [done| |done|done].
  cbn. by rewrite length_insert.
Qed.
Next Obligation.
  intros per n cap s m pick k v (ms & [-> <-] & H & ->). cbn. unfold sharded_Set.
  destruct (shardIdx_Some per s ms k H) as (i & a & m & Hi & Ha & Hm & Ht & ->). cbn [mbind option_bind].
  destruct (Set_law _ _ _ pick k v Ht) as (a' & m' & -> & Ht' & Hsub & Hup). cbn [mbind option_bind].
  destruct (sharded_update per s ms i a m a' m' H Ha Hm Ht') as [H' Hlook].
  { intros k' [v' Hk']. apply (lookup_weaken _ _ _ _ Hk') in Hsub. rewrite lookup_insert in Hsub.
    case_decide; [by subst|]. eapply sharded_own; [done..|]. by eexists. }
  eexists _, _. split; [done|]. split.
  { exists (<[i := m']> ms). split_and!; [done| |done|done]. cbn. by rewrite length_insert. }
  split.
  - apply map_subseteq_spec. intros k' v'. rewrite Hlook. case_decide as E.
    + intros Hk'. apply (lookup_weaken _ _ _ _ Hk') in Hsub. rewrite lookup_insert in *.
      case_decide; [done|]. by rewrite (sharded_lookup _ _ _ _ _ _ H E Hm).
    + intros Hk'. rewrite lookup_insert_ne; [done|congruence].
  - rewrite (sharded_lookup _ _ _ _ _ _ H Hi Hm). intros ->%Hup. apply map_eq. intros k'.
    rewrite Hlook, !lookup_insert. destruct (decide (shardIdx (mask s) k' = Some i)) as [E|E].
    + case_decide; [done|]. by rewrite (sharded_lookup _ _ _ _ _ _ H E Hm).
    + rewrite decide_False; [done|congruence].
Qed.
Next Obligation.
  intros per n cap s m (ms & [-> <-] & H & ->). cbn. unfold sharded_Evict.
  destruct (ToUint32 _) as [z|].
  - destruct (evictLoop_ok per (Z.to_nat z) 0
      (u32 (u32 (evictCursor s + 1) - 1)) (MkSharded (shards s) (mask s) (u32 (evictCursor s + 1))) ms)
      as (s' & ms' & r & -> & Hrep & Hlen & Hr).
    { destruct H. by split. }
    eexists _, _, _. split; [done|]. split; [|exact Hr]. by exists ms'.
  - eexists _, _, _. split; [done|]. split; [by exists ms|]. by left.
Qed.
Next Obligation.
  intros per n cap s m k (ms & [-> <-] & H & ->). cbn. unfold sharded_Delete.
  destruct (shardIdx_Some per s ms k H) as (i & a & m & Hi & Ha & Hm & Ht & ->). cbn [mbind option_bind].
  destruct (Delete_law _ _ _ k Ht) as (a' & -> & Ht'). cbn [mbind option_bind].
  destruct (sharded_update per s ms i a m a' (delete k m) H Ha Hm Ht') as [H' Hlook].
  { intros k' [v' Hk']. rewrite lookup_delete in Hk'. case_decide; [done|].
    eapply sharded_own; [done..|]. by eexists. }
  eexists. split; [done|]. exists (<[i := delete k m]> ms).
  split_and!; [done|cbn; by rewrite length_insert|done|].
  apply map_eq. intros k'. rewrite Hlook, !lookup_delete.
  destruct (decide (shardIdx (mask s) k' = Some i)) as [E|E].
  - by rewrite (sharded_lookup _ _ _ _ _ _ H E Hm).
  - rewrite decide_False; [done|congruence].
Qed.

End Sharded.

(** *** Construction *)

Lemma land_pred_pow2 n : (0 < n)%Z → Z.land n (n - 1) = 0%Z → ∃ p, (0 ≤ p)%Z ∧ n = (2 ^ p)%Z.
Proof.
  intros Hn Hl. pose proof (Z.log2_spec n Hn) as [H1 H2]. pose proof (Z.log2_nonneg n) as H3.
  exists (Z.log2 n). split; [done|]. destruct (decide (n = 2 ^ Z.log2 n)%Z) as [|Hne]; [done|].
  assert (Z.log2 (n - 1) = Z.log2 n) as E by (apply Z.log2_unique; lia).
  assert (Z.testbit (Z.land n (n - 1)) (Z.log2 n) = true) as Hb.
  { rewrite Z.land_spec, Z.bit_log2 by lia. rewrite <- E. by rewrite Z.bit_log2 by lia. }
  rewrite Hl, Z.bits_0 in Hb. done.
Qed.

Lemma newShards_ok name per n ss :
  newShards name per n = Ok ss → (n = 0 ∨ (0 ≤ per)%Z) ∧ length ss = n ∧
    Forall2 (λ a m, tracks (Z.to_nat per) a m) ss (replicate n ∅).
Proof.
  revert ss. induction n as [|n IH]; intros ss Hn; cbn in *; [simplify_eq; auto|].
  destruct (NewEvictionAlgorithm name per) as [a|] eqn:E; [|done].
  destruct (newShards name per n) as [ss'|]; [|done]. cbn in Hn. simplify_eq.
  destruct (IH ss' eq_refl) as (_ & Hl & Hf).
  destruct (NewEvictionAlgorithm_ok _ _ _ E) as (_ & Hper & Ht). cbn.
  split_and!; [by right|by rewrite Hl|by constructor].
Qed.

Definition perShard (totalCapacity shardCount : Z) : Z := (totalCapacity + shardCount - 1) / shardCount.

Lemma NewSharded_rep sum64 name total n s :
  NewSharded name total n = Ok s → (total + n < 2 ^ 63)%Z →
  Z.of_nat (length (shards s)) = n ∧
  sharded_rep sum64 (Z.to_nat (perShard total n)) s (replicate (length (shards s)) ∅).
Proof.
  unfold NewSharded. destruct (Z.leb_spec n 0) as [|Hn]; [done|]. cbn [orb].
  destruct (Z.eqb_spec (Z.land n (n - 1)) 0) as [Hl|]; [|done]. cbn [negb].
  destruct (Z.ltb_spec total 0); [done|]. intros Hs Hb.
  rewrite (i64_small (total + n)), i64_small in Hs by lia.
  rewrite Z.quot_div_nonneg in Hs by lia. fold (perShard total n) in Hs.
  destruct (newShards _ _ _) as [ss|] eqn:E; [|done].
  destruct (newShards_ok _ _ _ _ E) as (_ & Hlen & Hf).
  unfold ToUint32 in Hs. destruct (_ && _) eqn:Eb; [|done]. injection Hs as <-. cbn.
  apply andb_true_iff in Eb as [_ Eb%Z.leb_le]. rewrite Hlen. split; [lia|].
  destruct (land_pred_pow2 n Hn Hl) as (p & Hp & Ep). split; cbn.
  - done.
  - exists p. rewrite Hlen. split_and!; [lia| |lia|rewrite Z.ones_equiv; lia].
    apply (Z.pow_le_mono_r_iff 2 p 32); lia.
  - intros i m k Hm. apply lookup_replicate in Hm as [-> _]. rewrite lookup_empty. by intros [].
Qed.

(** *** A failing [Evict] has asked every shard *)

Definition evict_idx (mask start i : Z) : nat := Z.to_nat (Z.land (u32 (start + i)) mask).

Lemma evictLoop_false n i start s s' k :
  evictLoop n i start s = Some (s', (k, false)) →
  ∀ t, t < n →
    (∀ t', t' < t → evict_idx (mask s) start (i + Z.of_nat t') ≠
      evict_idx (mask s) start (i + Z.of_nat t)) →
    ∀ a, shards s !! evict_idx (mask s) start (i + Z.of_nat t) = Some a →
    ∃ a' k', alg_Evict a = Some (a', (k', false)).
Proof.
  revert i s. induction n as [|n IH]; intros i s Hl t Ht Hne a Ha; [lia|]. cbn [evictLoop] in Hl.
  fold (evict_idx (mask s) start i) in Hl.
  apply bind_Some in Hl as (b & Hb & ([b' [k' ok]] & Hev & Hl)%bind_Some).
  destruct ok; [done|]. destruct t as [|t].
  - rewrite Z.add_0_r in Ha. simplify_eq. eauto.
  - eapply (IH _ _ Hl t); [lia|..]; cbn [mask shards with_shard].
    + intros t' Ht'. specialize (Hne (S t') ltac:(lia)).
      by replace (i + 1 + Z.of_nat t')%Z with (i + Z.of_nat (S t'))%Z by lia;
        replace (i + 1 + Z.of_nat t)%Z with (i + Z.of_nat (S t))%Z by lia.
    + replace (i + 1 + Z.of_nat t)%Z with (i + Z.of_nat (S t))%Z by lia.
      rewrite list_lookup_insert_ne; [done|]. specialize (Hne 0 ltac:(lia)). by rewrite Z.add_0_r in Hne.
Qed.

Lemma evict_idx_mod p start i :
  (0 ≤ p ≤ 32)%Z → evict_idx (Z.ones p) start i = Z.to_nat ((start + i) mod 2 ^ p).
Proof.
  intros Hp. unfold evict_idx, u32. f_equal. rewrite Z.land_ones by lia.
  apply Z.mod_mod_divide.
  exists (2 ^ (32 - p))%Z. rewrite <- Z.pow_add_r by lia. f_equal. lia.
Qed.

Lemma evict_idx_inj p start t t' :
  (0 ≤ p ≤ 32)%Z → (0 ≤ t < 2 ^ p)%Z → (0 ≤ t' < 2 ^ p)%Z →
  evict_idx (Z.ones p) start t = evict_idx (Z.ones p) start t' → t = t'.
Proof.
  intros Hp Ht Ht'. rewrite !evict_idx_mod by done. intros E.
  pose proof (Z.mod_pos_bound (start + t) (2 ^ p)). pose proof (Z.mod_pos_bound (start + t') (2 ^ p)).
  assert ((start + t) mod 2 ^ p = (start + t') mod 2 ^ p)%Z as E' by lia.
  pose proof (Z.div_mod (start + t) (2 ^ p)). pose proof (Z.div_mod (start + t') (2 ^ p)).
  assert ((start + t) / 2 ^ p = (start + t') / 2 ^ p)%Z; nia.
Qed.

(** Every shard has its turn. *)
Lemma evict_idx_surj p start j :
  (0 ≤ p ≤ 32)%Z → (Z.of_nat j < 2 ^ p)%Z →
  ∃ t, (0 ≤ t < 2 ^ p)%Z ∧ evict_idx (Z.ones p) start t = j.
Proof.
  intros Hp Hj. exists ((Z.of_nat j - start) mod 2 ^ p)%Z.
  split; [apply Z.mod_pos_bound; lia|]. rewrite evict_idx_mod by done.
  rewrite Zplus_mod_idemp_r. replace (start + (Z.of_nat j - start))%Z with (Z.of_nat j) by lia.
  rewrite Z.mod_small by lia. lia.
Qed.

(** ** The claims *)

(** [NewEvictionAlgorithm] on every input: an empty name, a negative capacity
    and an unknown name are reported in this order of precedence, and each of the
    four registered names yields an algorithm that tracks nothing yet. *)
Theorem new_eviction_algorithm (name : string) (capacity : Z) :
  (name = ""%string → NewEvictionAlgorithm name capacity = Err ErrParamCannotBeEmpty) ∧
  (name ≠ ""%string → (capacity < 0)%Z →
    NewEvictionAlgorithm name capacity = Err ErrInvalidCapacity) ∧
  (name ≠ ""%string → (0 ≤ capacity)%Z → name ∉ algorithmNames →
    NewEvictionAlgorithm name capacity = Err ErrAlgorithmNotFound) ∧
  ((0 ≤ capacity)%Z → name ∈ algorithmNames →
    ∃ a, NewEvictionAlgorithm name capacity = Ok a ∧ tracks (Z.to_nat capacity) a ∅).
Proof.
  unfold NewEvictionAlgorithm, NewAlgorithm. rewrite NewAlgorithmRegistry_lookup. split_and!.
  - intros ->. done.
  - intros Hn Hc. rewrite decide_False by done. by rewrite (proj2 (Z.ltb_lt _ _)).
  - intros Hn Hc Hnot. rewrite decide_False by done. rewrite (proj2 (Z.ltb_ge _ _)) by done.
    destruct (getDefaultAlgorithms !! name) eqn:E; [|done].
    by destruct (defaults_ok _ _ _ E Hc) as [? _].
  - intros Hc Hin. rewrite (proj2 (Z.ltb_ge _ _)) by done.
    assert (name ≠ ""%string ∧ is_Some (getDefaultAlgorithms !! name)) as [Hn [create E]].
    { unfold algorithmNames in Hin. rewrite !elem_of_cons, elem_of_nil in Hin.
      destruct Hin as [->|[->|[->|[->|[]]]]]; (split; [done|]); by eexists. }
    rewrite decide_False by done. rewrite E. by destruct (defaults_ok _ _ _ E Hc) as [_ ?].
Qed.

Lemma new_eviction_algorithm_witness :
  ∃ a, NewEvictionAlgorithm "clock" 3 = Ok a ∧ tracks 3 a ∅.
Proof.
  apply (proj2 (proj2 (proj2 (new_eviction_algorithm "clock" 3)))); [lia|].
  unfold algorithmNames. set_solver.
Defined.

(** Whatever algorithm is configured, and for every sequence of calls: no call
    panics, no more keys are tracked than the capacity, a [Get] that hits
    returns the value last set for that key (and not deleted or evicted since),
    and [Evict] only ever names a key that was set and not yet removed. *)
Theorem algorithms_sound (name : string) (capacity : Z) (a : Algorithm) (os : list op) :
  NewEvictionAlgorithm name capacity = Ok a →
  ∃ a' rs m, run os a = Some (a', rs) ∧ answers_ok os rs ∅ ∧
    tracks (Z.to_nat capacity) a' m ∧ (Z.of_nat (size m) ≤ capacity)%Z.
Proof.
  intros Ha. destruct (NewEvictionAlgorithm_ok _ _ _ Ha) as (_ & Hc & Ht).
  destruct (run_law _ os a ∅ ∅ Ht) as (a' & m' & rs & Hr & Ht' & Hok); [done|].
  exists a', rs, m'. split_and!; try done. apply tracks_size in Ht'. lia.
Qed.

Definition sample_calls : list op :=
  [OSet 0 "a" (AString "1"); OSet 0 "b" (AString "2"); OSet 0 "c" (AString "3");
   OGet "b"; OEvict; ODelete "b"; OGet "b"]%string.

Lemma algorithms_sound_witness :
  ∃ a a' rs m, NewEvictionAlgorithm "cawolfu" 2 = Ok a ∧ run sample_calls a = Some (a', rs) ∧
    answers_ok sample_calls rs ∅ ∧ tracks 2 a' m ∧ (Z.of_nat (size m) ≤ 2)%Z.
Proof.
  destruct (NewEvictionAlgorithm "cawolfu" 2) as [a|] eqn:E; [|by vm_compute in E].
  destruct (algorithms_sound "cawolfu" 2 a sample_calls E) as (a' & rs & m & ? & ? & ? & ?).
  by exists a, a', rs, m.
Defined.

(** C4: A sharded algorithm is as sound as an unsharded one: a key is only ever
    tracked by the shard its hash selects, no call panics, hits return the last
    value set, and no more keys are tracked than the shard count times the
    rounded-up capacity per shard. *)
Theorem sharded_sound (sum64 : string → Z) (name : string) (total n : Z) (s : Sharded)
    (os : list op) :
  NewSharded name total n = Ok s → (total + n < 2 ^ 63)%Z →
  ∃ s' rs ms, run (H := Sharded_IAlgorithm sum64) os s = Some (s', rs) ∧ answers_ok os rs ∅ ∧
    (∀ i m k, ms !! i = Some m → is_Some (m !! k) → shardIdx sum64 (mask s') k = Some i) ∧
    Forall2 (λ a m, tracks (Z.to_nat (perShard total n)) a m) (shards s') ms ∧
    (Z.of_nat (size (⋃ ms)) ≤ perShard total n * n)%Z.
Proof.
  intros Hs Hb. destruct (NewSharded_rep sum64 _ _ _ _ Hs Hb) as [Hl Hrep].
  assert (0 ≤ perShard total n)%Z as Hper.
  { unfold NewSharded in Hs. destruct (Z.leb_spec n 0); [done|]. cbn [orb] in Hs.
    destruct (negb _); [done|]. destruct (Z.ltb_spec total 0); [done|].
    apply Z.div_pos; lia. }
  set (per := Z.to_nat (perShard total n)) in *.
  assert (sharded_tracks sum64 per (Z.to_nat n) (per * Z.to_nat n) s ∅) as Ht.
  { eexists. split; [split; [done|lia]|]. split; [exact Hrep|].
    by rewrite union_replicate_empty. }
  destruct (@run_law _ _ (Sharded_Laws sum64 per (Z.to_nat n)) _ os s ∅ ∅ Ht)
    as (s' & m' & rs & Hr & Ht' & Hok); [done|].
  pose proof (sharded_tracks_size _ _ _ _ _ _ Ht') as Hsz.
  destruct Ht' as (ms & _ & Hrep' & ->). exists s', rs, ms. split_and!; [done|done|..].
  - apply Hrep'.
  - apply Hrep'.
  - unfold per in Hsz. lia.
Qed.

Lemma sharded_sound_witness :
  let h := λ k, Z.of_nat (String.length k) in
  ∃ s s' rs ms, NewSharded "lru" 3 2 = Ok s ∧
    run (H := Sharded_IAlgorithm h) sample_calls s = Some (s', rs) ∧ answers_ok sample_calls rs ∅ ∧
    Forall2 (λ a m, tracks (Z.to_nat (perShard 3 2)) a m) (shards s') ms ∧
    (Z.of_nat (size (⋃ ms)) ≤ perShard 3 2 * 2)%Z.
Proof.
  intros h. destruct (NewSharded "lru" 3 2) as [s|] eqn:E; [|by vm_compute in E].
  destruct (sharded_sound h "lru" 3 2 s sample_calls E) as (s' & rs & ms & ? & ? & _ & ? & ?); [lia|].
  by exists s, s', rs, ms.
Defined.

(** When [Sharded.Evict] reports failure, it has asked every shard, and each of
    them reported failure; the wrap-around of the uint32 cursor does not make it
    skip one. *)
Theorem sharded_evict_exhaustive (sum64 : string → Z) (per : nat) (s s' : Sharded)
    (ms : list (gmap string any)) (k : string) :
  sharded_rep sum64 per s ms → length (shards s) < Z.to_nat (2 ^ 32) →
  sharded_Evict s = Some (s', (k, false)) →
  ∀ j a, shards s !! j = Some a → ∃ a' k', alg_Evict a = Some (a', (k', false)).
Proof.
  intros H Hlen Hev j a Ha. pose proof (sr_mask _ _ _ _ H) as (p & Hp & Hl & Hm).
  unfold sharded_Evict, ToUint32 in Hev.
  rewrite (proj2 (Z.leb_le _ _)), (proj2 (Z.leb_le _ _)) in Hev by lia. cbn [andb] in Hev.
  rewrite Nat2Z.id in Hev. set (start := u32 _) in Hev.
  apply lookup_lt_Some in Ha as Hj.
  destruct (evict_idx_surj p start j Hp ltac:(lia)) as (t & Ht & Et).
  eapply (evictLoop_false _ _ _ _ _ _ Hev (Z.to_nat t)); [lia|..]; cbn [mask shards]; rewrite Hm.
  - intros t' Ht' E. apply (evict_idx_inj p) in E; [lia|done|lia|lia].
  - replace (0 + Z.of_nat (Z.to_nat t))%Z with t by lia. by rewrite Et.
Qed.

Lemma sharded_evict_exhaustive_witness :
  ∃ s s', NewSharded "lru" 4 4 = Ok s ∧ sharded_Evict s = Some (s', (""%string, false)) ∧
    ∀ j a, shards s !! j = Some a → ∃ a' k', alg_Evict a = Some (a', (k', false)).
Proof.
  destruct (NewSharded "lru" 4 4) as [s|] eqn:E; [|by vm_compute in E].
  destruct (NewSharded_rep (λ _, 0%Z) _ _ _ _ E) as [Hl Hrep]; [lia|].
  destruct (sharded_Evict s) as [[s' [k b]]|] eqn:Ev.
  2:{ vm_compute in E. injection E as <-. by vm_compute in Ev. }
  assert (k = ""%string ∧ b = false) as [-> ->].
  { vm_compute in E. injection E as <-. vm_compute in Ev. by injection Ev as <- <- <-. }
  exists s, s'. split; [done|]. split; [done|].
  apply (sharded_evict_exhaustive (λ _, 0%Z) _ s s' _ ""%string Hrep); [lia|done].
Defined.
