(* ===== verification/CMap.v ===== *)
(** * The sharded concurrent map (pkg/cache/v2/cmap.go)

    Thirty-two shards of a Go map and a counter.  Every operation works under the
    lock of one shard, so it is one atomic step; [Clear], [Count] and [All] go
    shard by shard.  The stored [*Item] is a value here: the map's own operations
    either replace it, copy it or (in [Touch]) change it in place.

    [sum64] stands for xxhash; [enum] for the order in which Go ranges over a
    map, any enumeration of its pairs. *)

From stdpp Require Import base gmap strings list fin_maps.
From Stdlib Require Import ZArith Lia.
From S2P Require Import Prelude Item.

Module CMap.

(** ** The code *)

Definition ShardCount : nat := 32.
Definition ShardCount32 : Z := 32.

Record ConcurrentMapShard := MkShard {
  items : gmap string Item;
  count : Z    (* atomic.Int64 *) }.

Abbreviation ConcurrentMap := (list ConcurrentMapShard).

Definition create : list ConcurrentMapShard := replicate ShardCount (MkShard ∅ 0).
Definition New : ConcurrentMap := create.

Section Code.
Context (sum64 : string → Z).

Definition getShardIndex (key : string) : option Z :=
  h ← Hash sum64 key; Some (Z.land h (ShardCount32 - 1)).

(** The position of the key's shard and the shard; [None] is an index out of
    range. *)
Definition GetShard (key : string) (cm : ConcurrentMap) : option (nat * ConcurrentMapShard) :=
  i ← getShardIndex key; s ← cm !! Z.to_nat i; Some (Z.to_nat i, s).

Definition Set_ (key : string) (value : Item) (cm : ConcurrentMap) : option ConcurrentMap :=
  '(i, shard) ← GetShard key cm;
  let n := match items shard !! key with None => i64 (count shard + 1) | Some _ => count shard end in
  Some (<[i := MkShard (<[key := value]> (items shard)) n]> cm).

Definition Get (key : string) (cm : ConcurrentMap) : option (option Item) :=
  '(_, shard) ← GetShard key cm; Some (items shard !! key).

(** The clone is the same value. *)
Definition GetCopy (key : string) (cm : ConcurrentMap) : option (option Item) :=
  '(_, shard) ← GetShard key cm;
  match items shard !! key with
  | None => Some None
  | Some item => let cloned := item in Some (Some cloned)
  end.

Definition Touch (now : Z) (key : string) (cm : ConcurrentMap) : option (ConcurrentMap * bool) :=
  '(i, shard) ← GetShard key cm;
  match items shard !! key with
  | None => Some (cm, false)
  | Some item =>
      Some (<[i := MkShard (<[key := Item.Touch now item]> (items shard)) (count shard)]> cm, true)
  end.

Definition Has (key : string) (cm : ConcurrentMap) : option bool :=
  '(_, shard) ← GetShard key cm;
  Some (match items shard !! key with Some _ => true | None => false end).

Definition Pop (key : string) (cm : ConcurrentMap) : option (ConcurrentMap * option Item) :=
  '(i, shard) ← GetShard key cm;
  match items shard !! key with
  | None => Some (cm, None)
  | Some item =>
      Some (<[i := MkShard (delete key (items shard)) (i64 (count shard - 1))]> cm, Some item)
  end.

Definition Remove (key : string) (cm : ConcurrentMap) : option ConcurrentMap :=
  '(i, shard) ← GetShard key cm;
  match items shard !! key with
  | None => Some cm
  | Some _ => Some (<[i := MkShard (delete key (items shard)) (i64 (count shard - 1))]> cm)
  end.

Definition Clear (cm : ConcurrentMap) : ConcurrentMap := (λ _, MkShard ∅ 0) <$> cm.

Definition Count (cm : ConcurrentMap) : Z := foldl (λ total shard, i64 (total + count shard)) 0%Z cm.

End Code.

Section Iteration.
Context (enum : gmap string Item → list (string * Item)).
Context {S : Type} (yield : S → string → Item → S * bool).

(** A consumer with state [S]: [yield] returns whether to go on. *)
Fixpoint yieldPairs (kvs : list (string * Item)) (s : S) : S * bool :=
  match kvs with
  | [] => (s, true)
  | (k, v) :: kvs => let '(s, more) := yield s k v in
      if more : bool then yieldPairs kvs s else (s, false)
  end.

Definition yieldShard (shard : ConcurrentMapShard) (s : S) : S * bool :=
  yieldPairs (enum (items shard)) s.

Fixpoint allShards (shards : list ConcurrentMapShard) (s : S) : S :=
  match shards with
  | [] => s
  | shard :: shards => let '(s, more) := yieldShard shard s in
      if more : bool then allShards shards s else s
  end.

(** The panic on a map that was not made by [New]. *)
Definition All (cm : ConcurrentMap) (s : S) : option S :=
  match cm with [] => None | _ => Some (allShards cm s) end.

End Iteration.

(** ** Refinement of one flat map *)

Section Facts.
Context (sum64 : string → Z).

Definition index (key : string) : option nat := Z.to_nat <$> getShardIndex sum64 key.

Record rep (cm : ConcurrentMap) (m : gmap string Item) : Prop := {
  rep_length : length cm = ShardCount;
  rep_part : partitioned index (items <$> cm);
  rep_map : m = ⋃ (items <$> cm);
  rep_count : ∀ s, s ∈ cm → count s = i64 (Z.of_nat (size (items s))) }.

Lemma getShardIndex_bound k : ∃ z, getShardIndex sum64 k = Some z ∧ (0 ≤ z < 32)%Z.
Proof.
  unfold getShardIndex. destruct (Hash_is_Some sum64 k) as (h & -> & _).
  eexists. split; [done|]. apply (land_ones_bound h 5). lia.
Qed.

Lemma GetShard_Some cm m k :
  rep cm m → ∃ i s, GetShard sum64 k cm = Some (i, s) ∧ index k = Some i ∧ cm !! i = Some s ∧
    m !! k = items s !! k ∧ count s = i64 (Z.of_nat (size (items s))).
Proof.
  intros [Hl Hp -> Hc]. destruct (getShardIndex_bound k) as (z & Ez & Hz).
  assert (index k = Some (Z.to_nat z)) as Ei by (unfold index; by rewrite Ez).
  destruct (lookup_lt_is_Some_2 cm (Z.to_nat z)) as [s Hs]; [rewrite Hl; unfold ShardCount; lia|].
  exists (Z.to_nat z), s. unfold GetShard. rewrite Ez. cbn [mbind option_bind]. rewrite Hs.
  split_and!; try done.
  - eapply partitioned_lookup; [exact Hp|exact Ei|by rewrite list_lookup_fmap, Hs].
  - apply Hc. by eapply list_elem_of_lookup_2.
Qed.

(** Replacing a shard's map by one that differs at [k] only. *)
Lemma rep_update cm m k i s s' :
  rep cm m → index k = Some i → cm !! i = Some s →
  (∀ k', k' ≠ k → items s' !! k' = items s !! k') → count s' = i64 (Z.of_nat (size (items s'))) →
  rep (<[i := s']> cm) (partial_alter (λ _, items s' !! k) k m).
Proof.
  intros [Hl Hp -> Hc] Hi Hs He Hn.
  assert (i < length cm) as Hlt by (by eapply lookup_lt_Some).
  destruct (partitioned_update index (items <$> cm) k i (items s) (items s')) as [Hp' E]; try done.
  { intros k'. destruct (getShardIndex_bound k') as (z & Ez & Hz). exists (Z.to_nat z).
    unfold index. rewrite Ez, length_fmap, Hl. unfold ShardCount. split; [done|lia]. }
  { by rewrite list_lookup_fmap, Hs. }
  split; [by rewrite length_insert|by rewrite list_fmap_insert|by rewrite list_fmap_insert, E|].
  - intros s0 (j & Hj)%list_elem_of_lookup. destruct (decide (i = j)) as [->|Hij].
    + rewrite list_lookup_insert_eq in Hj by done. by simplify_eq.
    + rewrite list_lookup_insert_ne in Hj by done. apply Hc. by eapply list_elem_of_lookup_2.
Qed.

Lemma rep_delete cm m k i s it :
  rep cm m → index k = Some i → cm !! i = Some s → items s !! k = Some it →
  rep (<[i := MkShard (delete k (items s)) (i64 (count s - 1))]> cm) (delete k m).
Proof.
  intros H Hi Hs Hk.
  replace (delete k m) with (partial_alter (λ _, delete k (items s) !! k) k m)
    by (by rewrite lookup_delete_eq).
  apply (rep_update cm m k i s (MkShard _ _)); try done; cbn [items count].
  - intros. by rewrite lookup_delete_ne.
  - rewrite map_size_delete_Some by (by eexists).
    assert (size (items s) ≠ 0). { apply map_size_non_empty_iff. intros E0. by rewrite E0 in Hk. }
    assert (count s = i64 (Z.of_nat (size (items s)))) as Hn.
    { apply (rep_count _ _ H). by eapply list_elem_of_lookup_2. }
    rewrite Hn, i64_sub_l. f_equal. lia.
Qed.

Lemma New_rep : rep New ∅.
Proof.
  split.
  - apply length_replicate.
  - intros i m k Hm. rewrite list_lookup_fmap in Hm.
    destruct (New !! i) as [s|] eqn:E; [|done]. apply lookup_replicate in E as [-> _].
    cbn in Hm. simplify_eq. rewrite lookup_empty. by intros [].
  - done.
  - intros s Hs. apply elem_of_replicate in Hs as [-> _]. cbn. by rewrite map_size_empty.
Qed.

(** ** Operations as steps *)

Inductive op :=
  | OSet (k : string) (v : Item) | OGet (k : string) | OGetCopy (k : string)
  | OTouch (now : Z) (k : string) | OHas (k : string) | OPop (k : string)
  | ORemove (k : string) | OClear | OCount.

Inductive output :=
  | RUnit | RItem (it : option Item) | RBool (b : bool) | RInt (n : Z).

Definition step (o : op) (cm : ConcurrentMap) : option (ConcurrentMap * output) :=
  match o with
  | OSet k v => cm ← Set_ sum64 k v cm; Some (cm, RUnit)
  | OGet k => r ← Get sum64 k cm; Some (cm, RItem r)
  | OGetCopy k => r ← GetCopy sum64 k cm; Some (cm, RItem r)
  | OTouch now k => '(cm, b) ← Touch sum64 now k cm; Some (cm, RBool b)
  | OHas k => b ← Has sum64 k cm; Some (cm, RBool b)
  | OPop k => '(cm, r) ← Pop sum64 k cm; Some (cm, RItem r)
  | ORemove k => cm ← Remove sum64 k cm; Some (cm, RUnit)
  | OClear => Some (Clear cm, RUnit)
  | OCount => Some (cm, RInt (Count cm))
  end.

(** The same operations on one map. *)
Definition spec_step (o : op) (m : gmap string Item) : gmap string Item * output :=
  match o with
  | OSet k v => (<[k := v]> m, RUnit)
  | OGet k | OGetCopy k => (m, RItem (m !! k))
  | OTouch now k => (alter (Item.Touch now) k m, RBool (bool_decide (is_Some (m !! k))))
  | OHas k => (m, RBool (bool_decide (is_Some (m !! k))))
  | OPop k => (delete k m, RItem (m !! k))
  | ORemove k => (delete k m, RUnit)
  | OClear => (∅, RUnit)
  | OCount => (m, RInt (i64 (Z.of_nat (size m))))
  end.

Fixpoint run (os : list op) (cm : ConcurrentMap) : option (ConcurrentMap * list output) :=
  match os with
  | [] => Some (cm, [])
  | o :: os => '(cm, r) ← step o cm; '(cm, rs) ← run os cm; Some (cm, r :: rs)
  end.

Fixpoint spec_run (os : list op) (m : gmap string Item) : gmap string Item * list output :=
  match os with
  | [] => (m, [])
  | o :: os => let '(m, r) := spec_step o m in let '(m, rs) := spec_run os m in (m, r :: rs)
  end.

Lemma Count_rep cm m : rep cm m → Count cm = i64 (Z.of_nat (size m)).
Proof.
  intros [_ Hp -> Hc]. unfold Count. rewrite (partitioned_size _ _ Hp). clear Hp.
  enough (∀ z, foldl (λ total shard, i64 (total + count shard)) (i64 z) cm =
      i64 (z + Z.of_nat (sum_list (size <$> (items <$> cm))))) as Hgen by apply (Hgen 0%Z).
  induction cm as [|s cm IH]; intros z; cbn; [f_equal; lia|].
  assert (count s = i64 (Z.of_nat (size (items s)))) as Es by (apply Hc; by left).
  rewrite Es, i64_add_l, i64_add_r, IH by (intros; apply Hc; by right). f_equal. lia.
Qed.

Lemma step_rep o cm m :
  rep cm m →
  ∃ cm', step o cm = Some (cm', (spec_step o m).2) ∧ rep cm' (spec_step o m).1.
Proof.
  intros H. destruct o as [k v|k|k|now k|k|k|k| |]; cbn;
    try (unfold Set_, Get, GetCopy, Touch, Has, Pop, Remove;
         destruct (GetShard_Some cm m k H) as (i & s & -> & Hi & Hs & Hk & Hn); cbn [mbind option_bind]).
  - eexists. split; [done|].
    replace (<[k := v]> m) with (partial_alter (λ _, <[k := v]> (items s) !! k) k m)
      by (by rewrite lookup_insert_eq).
    apply (rep_update cm m k i s (MkShard _ _)); try done; cbn [items count].
    + intros. by rewrite lookup_insert_ne.
    + destruct (items s !! k) eqn:E.
      * rewrite map_size_insert_Some by (by eexists). done.
      * rewrite map_size_insert_None by done. rewrite Hn, i64_add_l. f_equal. lia.
  - rewrite <- Hk. eauto.
  - rewrite <- Hk. destruct (m !! k); eauto.
  - rewrite <- Hk. destruct (m !! k) as [it|] eqn:E; cbn.
    + eexists. split; [done|].
      replace (alter (Item.Touch now) k m)
        with (partial_alter (λ _, <[k := Item.Touch now it]> (items s) !! k) k m).
      2:{ rewrite lookup_insert_eq. apply map_eq. intros k'. destruct (decide (k = k')) as [<-|].
          - by rewrite lookup_partial_alter_eq, lookup_alter_eq, E.
          - by rewrite lookup_partial_alter_ne, lookup_alter_ne. }
      apply (rep_update cm m k i s (MkShard _ _)); try done; cbn [items count].
      * intros. by rewrite lookup_insert_ne.
      * rewrite map_size_insert_Some by (rewrite <- Hk; by eexists). done.
    + eexists. split; [done|]. rewrite alter_id; [done|]. by rewrite E.
  - rewrite <- Hk. destruct (m !! k); eauto.
  - rewrite <- Hk. destruct (m !! k) as [it|] eqn:E; cbn.
    + eexists. split; [done|]. apply (rep_delete cm m k i s it); [done|done|done|congruence].
    + eexists. split; [done|]. by rewrite delete_id.
  - rewrite <- Hk. destruct (m !! k) as [it|] eqn:E; cbn.
    + eexists. split; [done|]. apply (rep_delete cm m k i s it); [done|done|done|congruence].
    + eexists. split; [done|]. by rewrite delete_id.
  - eexists. split; [done|]. unfold Clear.
    assert ((λ _ : ConcurrentMapShard, MkShard ∅ 0) <$> cm = New) as ->.
    { unfold New, create. rewrite <- (rep_length _ _ H). clear H. induction cm; cbn; [done|by f_equal]. }
    apply New_rep.
  - rewrite (Count_rep cm m H). eauto.
Qed.

Lemma run_rep os cm m :
  rep cm m → ∃ cm', run os cm = Some (cm', (spec_run os m).2) ∧ rep cm' (spec_run os m).1.
Proof.
  revert cm m. induction os as [|o os IH]; intros cm m H; cbn in *; [eauto|].
  destruct (step_rep o cm m H) as (cm1 & -> & H1). cbn [mbind option_bind].
  destruct (spec_step o m) as [m1 r]. cbn in *.
  destruct (IH cm1 m1 H1) as (cm2 & -> & H2). cbn [mbind option_bind].
  destruct (spec_run os m1) as [m2 rs]. cbn in *. eauto.
Qed.

(** ** The claims *)

(** C5: The sharded map behaves as one map: for every sequence of operations from
    an empty map, each answer ([Get], [GetCopy], [Touch], [Has], [Pop], and
    [Count], the sum of the per-shard counters) is that of a single map from keys
    to items, no operation panics, every key is only ever in the shard its hash
    selects, and every counter is the size of its shard (as an int64). *)
Theorem cmap_refines_flat_map (os : list op) :
  ∃ cm, run os New = Some (cm, (spec_run os ∅).2) ∧ rep cm (spec_run os ∅).1.
Proof. apply run_rep, New_rep. Qed.

(** Ranging over [All] with any consumer visits the bindings of the whole map,
    each exactly once and in some order, until the consumer asks to stop. *)
Theorem cmap_all_visits_once (enum : gmap string Item → list (string * Item))
    (cm : ConcurrentMap) (m : gmap string Item) :
  (∀ m', enum m' ≡ₚ map_to_list m') → rep cm m →
  ∃ kvs, kvs ≡ₚ map_to_list m ∧
    ∀ (S : Type) (yield : S → string → Item → S * bool) (s : S),
      All enum yield cm s = Some (yieldPairs yield kvs s).1.
Proof.
  intros He [Hl Hp -> _]. exists (mjoin (enum <$> (items <$> cm))). split.
  - rewrite (partitioned_to_list _ _ Hp). clear Hl Hp.
    induction cm as [|s cm IH]; [done|]. cbn. by rewrite He, IH.
  - intros S yield s. unfold All. destruct cm as [|s0 cm0]; [done|].
    f_equal. generalize (s0 :: cm0). clear. intros cm. revert s.
    induction cm as [|s0 cm IH]; intros s; [done|]. cbn. unfold yieldShard.
    assert (∀ a b s, yieldPairs yield (a ++ b) s =
      let '(s', more) := yieldPairs yield a s in
      if more : bool then yieldPairs yield b s' else (s', false)) as Happ.
    { clear. induction a as [|[k v] a IH]; intros b s; [done|]. cbn.
      destruct (yield s k v) as [s' []]; [apply IH|done]. }
    rewrite Happ. destruct (yieldPairs yield (enum (items s0)) s) as [s' []]; [apply IH|done].
Qed.

End Facts.

Example spec_run_sample :
  let os := [OSet "a" zeroItem; OSet "bb" zeroItem; OTouch 5 "a"; OCount; OPop "bb"; OHas "bb"]%string in
  snd <$> run (λ k, Z.of_nat (String.length k)) os New =
    Some [RUnit; RUnit; RBool true; RInt 2; RItem (Some zeroItem); RBool false].
Proof. vm_compute. reflexivity. Qed.

Lemma cmap_all_visits_once_witness :
  let h := λ k, Z.of_nat (String.length k) in
  let os := [OSet "a" zeroItem; OSet "bb" zeroItem]%string in
  ∃ cm rs kvs, run h os New = Some (cm, rs) ∧ kvs ≡ₚ map_to_list (spec_run os ∅).1 ∧
    ∀ (S : Type) (yield : S → string → Item → S * bool) (s : S),
      All map_to_list yield cm s = Some (yieldPairs yield kvs s).1.
Proof.
  intros h os. destruct (run_rep h os New ∅ (New_rep h)) as (cm & Hr & Hrep).
  destruct (cmap_all_visits_once h map_to_list cm (spec_run os ∅).1) as (kvs & ? & ?); [done|exact Hrep|].
  by exists cm, (spec_run os ∅).2, kvs.
Defined.

End CMap.
