(* ===== verification/Backend.v ===== *)
(** * Backends: the interface, list filters and the in-memory backend
    (pkg/backend/backend.go, pkg/backend/filters.go, pkg/backend/inmemory.go)

    [IBackend] is the interface as a class, [BackendLaws] what the cache relies on;
    the in-memory backend implements it over the sharded map. *)

From stdpp Require Import base gmap strings list sorting fin_maps.
From Stdlib Require Import ZArith Lia.
From S2P Require Import Prelude Item Heap CMap.

(** What the code takes from outside the repository and from the Go runtime:
    xxhash, the order of map iteration and [slices.SortFunc]. *)
Record env := MkEnv {
  sum64 : string → Z;
  enum : gmap string Item → list (string * Item);
  SortFunc : (Item → Item → Z) → list Item → list Item }.

(** ** Filters *)

Inductive IFilter :=
  | sortByFilter (field : string)
  | SortOrderFilter (ascending : bool)
  | filterFunc (fn : Item → bool).

Definition WithSortBy (field : string) : IFilter := sortByFilter field.
Definition WithSortOrderAsc (ascending : bool) : IFilter := SortOrderFilter ascending.
Definition WithFilterFunc (fn : Item → bool) : IFilter := filterFunc fn.

(** The comparison of each sortable field ([sort field] constants of
    internal/constants/enums.go). *)
Definition sortLess (field : string) : option (Item → Item → bool) :=
  if decide (field = "Key"%string) then Some (λ i j, str_ltb (Key i) (Key j))
  else if decide (field = "LastAccess"%string) then Some (λ i j, LastAccess i <? LastAccess j)%Z
  else if decide (field = "AccessCount"%string) then Some (λ i j, AccessCount i <? AccessCount j)%Z
  else if decide (field = "Expiration"%string) then Some (λ i j, Expiration i <? Expiration j)%Z
  else None.

Definition sortCmp (less : Item → Item → bool) (a b : Item) : Z :=
  if less a b then (-1)%Z else if less b a then 1%Z else 0%Z.

(** [for i, j := 0, len(items)-1; i < j; i, j = i+1, j-1 { swap }], from [i] with
    [n] swaps left to look at. *)
Fixpoint reverseLoop (n i : nat) (items : list Item) : list Item :=
  match n with
  | 0 => items
  | S n =>
      let j := length items - 1 - i in
      if decide (i < j) then reverseLoop n (i + 1) (swap i j items) else items
  end.

Fixpoint filterLoop (fn : Item → bool) (items : list Item) : list Item :=
  match items with
  | [] => []
  | item :: items => if fn item then item :: filterLoop fn items else filterLoop fn items
  end.

Definition ApplyFilter (e : env) (f : IFilter) (items : list Item) : result (list Item) :=
  match f with
  | sortByFilter field =>
      match sortLess field with
      | None => Err (ErrOther "invalid sort field")
      | Some less => Ok (SortFunc e (sortCmp less) items)
      end
  | SortOrderFilter ascending =>
      Ok (if ascending then items else reverseLoop (length items) 0 items)
  | filterFunc fn => Ok (filterLoop fn items)
  end.

Fixpoint applyFilters (e : env) (fs : list IFilter) (items : list Item) : result (list Item) :=
  match fs with
  | [] => Ok items
  | f :: fs => match ApplyFilter e f items with
               | Err er => Err er
               | Ok items => applyFilters e fs items
               end
  end.

(** ** The interface *)

(** [Set] returns the item as the caller sees it afterwards: a backend may put a
    rejected item back into the pool, which zeroes it.  The argument [late] of
    [Remove] and [Clear] says that the context was done first: the work still
    happens, but the caller is told [ErrTimeoutOrCanceled]. *)
Class IBackend (B : Type) := {
  bk_Get : string → B → option (B * option Item);
  bk_Set : Item → B → option (B * Item * option error);
  bk_Capacity : B → Z;
  bk_SetCapacity : Z → B → B;
  bk_Count : B → Z;
  bk_Touch : Z → string → B → option (B * bool);
  bk_Remove : bool → list string → B → option (B * option error);
  bk_List : list IFilter → B → option (result (list Item));
  bk_Clear : bool → B → option (B * option error) }.

Definition late_error (late : bool) : option error :=
  if late then Some ErrTimeoutOrCanceled else None.

Fixpoint delete_all {A} (ks : list string) (m : gmap string A) : gmap string A :=
  match ks with [] => m | k :: ks => delete_all ks (delete k m) end.

Class BackendLaws (B : Type) `{IBackend B} (e : env) := {
  stores : B → gmap string Item → Prop;
  stores_keys : ∀ b m k it, stores b m → m !! k = Some it → Key it = k;
  bk_Get_law : ∀ b m k, stores b m → ∃ b', bk_Get k b = Some (b', m !! k) ∧ stores b' m ∧
    bk_Capacity b' = bk_Capacity b;
  bk_Set_law : ∀ b m it, stores b m → ∃ b' it' err, bk_Set it b = Some (b', it', err) ∧
    bk_Capacity b' = bk_Capacity b ∧
    (err = (Valid it).2) ∧
    (err = None → it' = it ∧ stores b' (<[Key it := it]> m)) ∧
    (err ≠ None → it' = zeroItem ∧ stores b' m);
  bk_SetCapacity_law : ∀ b m n, stores b m → stores (bk_SetCapacity n b) m ∧
    bk_Capacity (bk_SetCapacity n b) = (if (n <? 0)%Z then bk_Capacity b else n);
  bk_Count_law : ∀ b m, stores b m → bk_Count b = i64 (Z.of_nat (size m));
  bk_Touch_law : ∀ b m now k, stores b m → ∃ b',
    bk_Touch now k b = Some (b', bool_decide (is_Some (m !! k))) ∧
    stores b' (alter (Item.Touch now) k m) ∧ bk_Capacity b' = bk_Capacity b;
  bk_Remove_law : ∀ b m late ks, stores b m → ∃ b',
    bk_Remove late ks b = Some (b', late_error late) ∧ stores b' (delete_all ks m) ∧
    bk_Capacity b' = bk_Capacity b;
  bk_List_law : ∀ b m fs, stores b m →
    ∃ l, l ≡ₚ (map_to_list m).*2 ∧ bk_List fs b = Some (applyFilters e fs l);
  bk_Clear_law : ∀ b m late, stores b m → ∃ b', bk_Clear late b = Some (b', late_error late) ∧
    stores b' ∅ ∧ bk_Capacity b' = bk_Capacity b }.

(** ** The in-memory backend *)

Record InMemory := MkInMemory { items : CMap.ConcurrentMap; capacity : Z }.

(** [NewInMemory] with the capacity the options leave in the field. *)
Definition NewInMemory (cap : Z) : result InMemory :=
  if (cap <? 0)%Z then Err ErrInvalidCapacity else Ok (MkInMemory CMap.New cap).

Section InMemory.
Context (e : env).

Definition im_SetCapacity (cap : Z) (b : InMemory) : InMemory :=
  if (cap <? 0)%Z then b else MkInMemory (items b) cap.

Definition im_Count (b : InMemory) : Z := CMap.Count (items b).

Definition im_Get (key : string) (b : InMemory) : option (InMemory * option Item) :=
  r ← CMap.GetCopy (sum64 e) key (items b); Some (b, r).

Definition im_Touch (now : Z) (key : string) (b : InMemory) : option (InMemory * bool) :=
  '(cm, r) ← CMap.Touch (sum64 e) now key (items b); Some (MkInMemory cm (capacity b), r).

Definition im_Set (item : Item) (b : InMemory) : option (InMemory * Item * option error) :=
  match Valid item with
  | (item, Some err) => Some (b, poolPut item, Some err)
  | (item, None) =>
      cm ← CMap.Set_ (sum64 e) (Key item) item (items b);
      Some (MkInMemory cm (capacity b), item, None)
  end.

Definition im_List (filters : list IFilter) (b : InMemory) : option (result (list Item)) :=
  its ← CMap.All (enum e) (λ acc _ item, (acc ++ [item], true)) (items b) [];
  Some (applyFilters e filters its).

Fixpoint im_removeLoop (keys : list string) (cm : CMap.ConcurrentMap) : option CMap.ConcurrentMap :=
  match keys with
  | [] => Some cm
  | key :: keys => cm ← CMap.Remove (sum64 e) key cm; im_removeLoop keys cm
  end.

Definition im_Remove (late : bool) (keys : list string) (b : InMemory)
    : option (InMemory * option error) :=
  cm ← im_removeLoop keys (items b); Some (MkInMemory cm (capacity b), late_error late).

Definition im_Clear (late : bool) (b : InMemory) : option (InMemory * option error) :=
  Some (MkInMemory (CMap.Clear (items b)) (capacity b), late_error late).

#[global] Instance InMemory_IBackend : IBackend InMemory := {
  bk_Get := im_Get; bk_Set := im_Set; bk_Capacity := capacity; bk_SetCapacity := im_SetCapacity;
  bk_Count := im_Count; bk_Touch := im_Touch; bk_Remove := im_Remove; bk_List := im_List;
  bk_Clear := im_Clear }.

End InMemory.

(** What Go documents of the parameters. *)
Record env_ok (e : env) : Prop := {
  enum_perm : ∀ m, enum e m ≡ₚ map_to_list m;
  sort_perm : ∀ cmp l, SortFunc e cmp l ≡ₚ l;
  sort_sorted : ∀ (less : Item → Item → bool) l,
    (∀ x y, less x y = true → less y x = false) →
    (∀ x y z, less y x = false → less z y = false → less z x = false) →
    StronglySorted (λ x y, less y x = false) (SortFunc e (sortCmp less) l) }.

Lemma delete_all_lookup {A} ks (m : gmap string A) k :
  delete_all ks m !! k = if decide (k ∈ ks) then None else m !! k.
Proof.
  revert m. induction ks as [|k' ks IH]; intros m; cbn; [done|]. rewrite IH, lookup_delete.
  repeat case_decide; set_solver.
Qed.

Lemma delete_all_sub {A} ks (m : gmap string A) : delete_all ks m ⊆ m.
Proof.
  apply map_subseteq_spec. intros k v. rewrite delete_all_lookup. by case_decide.
Qed.

Section InMemoryLaws.
Context (e : env) (He : env_ok e).

Definition im_stores (b : InMemory) (m : gmap string Item) : Prop :=
  CMap.rep (sum64 e) (items b) m ∧ map_Forall (λ k it, Key it = k) m.

Lemma im_removeLoop_ok ks cm m :
  CMap.rep (sum64 e) cm m →
  ∃ cm', im_removeLoop e ks cm = Some cm' ∧ CMap.rep (sum64 e) cm' (delete_all ks m).
Proof.
  revert cm m. induction ks as [|k ks IH]; intros cm m H; cbn; [eauto|].
  destruct (CMap.step_rep (sum64 e) (CMap.ORemove k) cm m H) as (cm1 & Hs & H1). cbn in *.
  destruct (CMap.Remove _ k cm) as [cm2|]; [|done]. cbn in Hs. simplify_eq. by apply IH.
Qed.

Lemma collect_all (kvs : list (string * Item)) acc :
  CMap.yieldPairs (λ acc (_ : string) item, (acc ++ [item], true)) kvs acc = (acc ++ kvs.*2, true).
Proof.
  revert acc. induction kvs as [|[k v] kvs IH]; intros acc; cbn; [by rewrite app_nil_r|].
  by rewrite IH, <- app_assoc.
Qed.

#[global] Program Instance InMemory_Laws : BackendLaws InMemory e (H := InMemory_IBackend e) := {|
  stores := im_stores |}.
Next Obligation. intros b m k it [_ Hk] Hm. by apply Hk. Qed.
Next Obligation.
  intros b m k [H Hk]. cbn. unfold im_Get.
  destruct (CMap.step_rep (sum64 e) (CMap.OGetCopy k) _ m H) as (cm1 & Hs & H1). cbn in *.
  destruct (CMap.GetCopy _ k _) as [r|]; [|done]. cbn in *. simplify_eq. by exists b.
Qed.
Next Obligation.
  intros b m it [H Hk]. cbn. unfold im_Set. destruct (Valid it) as [it' [err|]] eqn:Ev.
  - eexists _, _, _. split; [done|]. split_and!; done.
  - apply Valid_None in Ev as (-> & _).
    destruct (CMap.step_rep (sum64 e) (CMap.OSet (Key it) it) _ m H) as (cm1 & Hs & H1). cbn in *.
    destruct (CMap.Set_ _ _ _ _) as [cm2|]; [|done]. cbn in *. simplify_eq.
    eexists _, _, _. split; [done|]. split_and!; try done. intros _. split; [done|].
    split; [done|]. by apply map_Forall_insert_2.
Qed.
Next Obligation.
  intros b m n [H Hk]. cbn. unfold im_SetCapacity. by destruct (n <? 0)%Z.
Qed.
Next Obligation.
  intros b m [H Hk]. apply (CMap.Count_rep _ _ _ H).
Qed.
Next Obligation.
  intros b m now k [H Hk]. cbn. unfold im_Touch.
  destruct (CMap.step_rep (sum64 e) (CMap.OTouch now k) _ m H) as (cm1 & Hs & H1). cbn in *.
  destruct (CMap.Touch _ now k _) as [[cm2 r]|]; [|done]. cbn in *. simplify_eq.
  eexists. split; [done|]. split; [|done]. split; [done|].
  intros k' it. rewrite lookup_alter. case_decide; [|apply Hk].
  subst. destruct (m !! k') as [it'|] eqn:E; [|done]. cbn. intros ?. simplify_eq. exact (Hk k' it' E).
Qed.
Next Obligation.
  intros b m late ks [H Hk]. cbn. unfold im_Remove.
  destruct (im_removeLoop_ok ks _ m H) as (cm' & -> & H'). cbn.
  eexists. split; [done|]. split; [|done]. split; [done|].
  intros k it Hit. apply Hk. by eapply lookup_weaken, delete_all_sub.
Qed.
Next Obligation.
  intros b m fs [H Hk]. cbn. unfold im_List.
  destruct H as [Hl Hp -> _]. exists ((mjoin (enum e <$> (CMap.items <$> items b))).*2). split.
  - apply fmap_Permutation. rewrite (partitioned_to_list _ _ Hp). clear -He.
    induction (items b) as [|s cm IH]; [done|]. cbn. by rewrite (enum_perm _ He), IH.
  - destruct (items b) as [|s0 cm0] eqn:E; [done|]. rewrite <- E. unfold CMap.All. rewrite E.
    cbn [mbind option_bind]. do 2 f_equal. rewrite <- E. clear.
    enough (∀ acc, CMap.allShards (enum e) (λ acc (_ : string) item, (acc ++ [item], true)) (items b) acc =
      acc ++ (mjoin (enum e <$> (CMap.items <$> items b))).*2) as -> by done.
    induction (items b) as [|s cm IH]; intros acc; cbn; [by rewrite app_nil_r|].
    unfold CMap.yieldShard. rewrite collect_all, IH, fmap_app. by rewrite app_assoc.
Qed.
Next Obligation.
  intros b m late [H Hk]. cbn. unfold im_Clear. eexists. split; [done|]. split; [|done].
  destruct (CMap.step_rep (sum64 e) CMap.OClear _ m H) as (cm1 & Hs & H1). cbn in *.
  simplify_eq. split; [done|]. apply map_Forall_empty.
Qed.

Lemma NewInMemory_stores cap b : NewInMemory cap = Ok b → im_stores b ∅ ∧ capacity b = cap.
Proof.
  unfold NewInMemory. destruct (cap <? 0)%Z; intros; simplify_eq. split; [|done].
  split; [apply CMap.New_rep|apply map_Forall_empty].
Qed.

End InMemoryLaws.

(** ** The filters *)

Lemma filterLoop_filter fn l : filterLoop fn l = filter (λ it, fn it = true) l.
Proof.
  induction l as [|it l IH]; [done|]. rewrite filter_cons, <- IH. cbn.
  destruct (fn it) eqn:E; [by rewrite decide_True|by rewrite decide_False].
Qed.

(** After the swaps at [0 .. i-1] and their mirror images, the loop reverses what
    is left between them. *)
Lemma reverseLoop_lookup n i xs k :
  length xs ≤ n + i →
  reverseLoop n i xs !! k =
    if decide (i ≤ k ∧ k < length xs - i) then xs !! (length xs - 1 - k) else xs !! k.
Proof.
  revert i xs. induction n as [|n IH]; intros i xs Hn; cbn.
  { rewrite decide_False by lia. done. }
  case_decide as E.
  - destruct (lookup_lt_is_Some_2 xs i) as [x Hx]; [lia|].
    destruct (lookup_lt_is_Some_2 xs (length xs - 1 - i)) as [y Hy]; [lia|].
    rewrite IH by (rewrite length_swap; lia). rewrite !length_swap.
    rewrite !(swap_lookup _ _ _ _ x y) by done.
    repeat case_decide; subst; try lia; try done;
      by replace (length xs - 1 - (length xs - 1 - i)) with i by lia.
  - case_decide as Ek; [|done].
    assert (k = length xs - 1 - k) as Ek' by lia. by rewrite <- Ek'.
Qed.

Lemma reverseLoop_reverse xs : reverseLoop (length xs) 0 xs = reverse xs.
Proof.
  apply list_eq. intros k. rewrite reverseLoop_lookup by lia. case_decide as E.
  - rewrite reverse_lookup by lia. f_equal. lia.
  - rewrite !lookup_ge_None_2; [done|rewrite length_reverse; lia|lia].
Qed.

Lemma sortLess_order field less :
  sortLess field = Some less →
  (∀ x y, less x y = true → less y x = false) ∧
  (∀ x y z, less y x = false → less z y = false → less z x = false).
Proof.
  unfold sortLess. repeat (case_decide; [intros [= <-]|]); try done.
  - split; intros *; [apply str_ltb_antisym|apply str_leb_trans].
  - split; intros *; rewrite ?Z.ltb_lt, ?Z.ltb_ge; lia.
  - split; intros *; rewrite ?Z.ltb_lt, ?Z.ltb_ge; lia.
  - split; intros *; rewrite ?Z.ltb_lt, ?Z.ltb_ge; lia.
Qed.

Definition cmp_le (cmp : Item → Item → Z) (x y : Item) : Prop := (cmp x y ≤ 0)%Z.
#[export] Instance cmp_le_dec cmp : RelDecision (cmp_le cmp).
Proof. intros x y. unfold cmp_le. apply _. Defined.

(** A concrete environment: merge sort, and the map's own enumeration. *)
Definition sample_env : env := {|
  sum64 := λ k, Z.of_nat (String.length k);
  enum := map_to_list;
  SortFunc := λ cmp, merge_sort (cmp_le cmp) |}.

Lemma sample_env_ok : env_ok sample_env.
Proof.
  split; [done|intros; apply merge_sort_Permutation|].
  intros less l Has Htr. cbn.
  assert (∀ x y, (sortCmp less x y ≤ 0)%Z ↔ less y x = false) as Hc.
  { intros x y. unfold sortCmp. destruct (less x y) eqn:E1; [rewrite (Has _ _ E1); split; [done|lia]|].
    destruct (less y x); split; done || lia. }
  assert (StronglySorted (cmp_le (sortCmp less)) (merge_sort (cmp_le (sortCmp less)) l)) as Hs.
  { unfold cmp_le. apply StronglySorted_merge_sort.
    - intros x y z. rewrite !Hc. intros H1 H2. by eapply Htr.
    - intros x y. rewrite !Hc. destruct (less y x) eqn:E; [right; by apply Has|by left]. }
  clear -Hs Hc. induction Hs as [|x xs Hs IH Hf]; constructor; [done|].
  eapply Forall_impl; [exact Hf|]. intros y. unfold cmp_le. by rewrite Hc.
Qed.

(** ** The claims *)

(** Listing the in-memory backend by a sortable field, with a filter and an
    order, returns exactly the stored items that pass the filter, each once,
    sorted by that field in the order asked for. *)
Theorem inmemory_list_sorted (e : env) (b : InMemory) (m : gmap string Item) (field : string)
    (less : Item → Item → bool) (fn : Item → bool) (asc : bool) :
  env_ok e → im_stores e b m → sortLess field = Some less →
  ∃ l, im_List e [WithSortBy field; WithFilterFunc fn; WithSortOrderAsc asc] b = Some (Ok l) ∧
    l ≡ₚ filter (λ it, fn it = true) (map_to_list m).*2 ∧
    StronglySorted (λ x y, less y x = false) (if asc then l else reverse l).
Proof.
  intros He Hs Hf.
  destruct (bk_List_law (H := InMemory_IBackend e) (BackendLaws := InMemory_Laws e He) b m
    [WithSortBy field; WithFilterFunc fn; WithSortOrderAsc asc] Hs) as (l0 & Hp & Hl).
  cbn in Hl. rewrite Hl, Hf. destruct (sortLess_order _ _ Hf) as [Has Htr].
  pose proof (sort_sorted _ He less l0 Has Htr) as Hsort. pose proof (sort_perm _ He (sortCmp less) l0) as Hpm.
  rewrite filterLoop_filter. set (l1 := filter _ _).
  assert (StronglySorted (λ x y, less y x = false) l1) as Hs1.
  { unfold l1. clear -Hsort. induction Hsort as [|x xs Hs IH Hall]; [constructor|].
    rewrite filter_cons. case_decide; [|done]. constructor; [done|].
    apply Forall_forall. intros y [_ Hy]%list_elem_of_filter.
    by apply (proj1 (Forall_forall _ _) Hall). }
  assert (l1 ≡ₚ filter (λ it, fn it = true) (map_to_list m).*2) as Hp1.
  { unfold l1. by rewrite Hpm, Hp. }
  destruct asc; eexists; (split; [done|]).
  - done.
  - rewrite reverseLoop_reverse. rewrite reverse_involutive. split; [|done].
    by rewrite reverse_Permutation.
Qed.

Definition sample_item (k : string) : Item := MkItem k (AString "v") 7 0 1 0 0 0 "".

Lemma inmemory_list_sorted_witness :
  let it := sample_item "a" in
  ∃ b0 b l, NewInMemory 5 = Ok b0 ∧ im_Set sample_env it b0 = Some (b, it, None) ∧
    im_List sample_env [WithSortBy "Key"; WithFilterFunc (λ _, true); WithSortOrderAsc false] b =
      Some (Ok l) ∧
    l ≡ₚ filter (λ it, (λ _, true) it = true) (map_to_list (<["a"%string := it]> ∅ : gmap string Item)).*2.
Proof.
  intros it. destruct (NewInMemory 5) as [b0|] eqn:E; [|done].
  destruct (NewInMemory_stores sample_env 5 b0 E) as [Hs0 _].
  destruct (bk_Set_law (H := InMemory_IBackend sample_env)
    (BackendLaws := InMemory_Laws sample_env sample_env_ok) b0 ∅ it Hs0)
    as (b & it' & err & Hset & _ & Herr & Hok & _).
  vm_compute in Herr. subst err. destruct (Hok eq_refl) as [-> Hs].
  destruct (inmemory_list_sorted sample_env b (<[Key it := it]> ∅) "Key"
    (λ i j, str_ltb (Key i) (Key j)) (λ _, true) false) as (l & ? & ? & _);
    [apply sample_env_ok|done|done|]. by exists b0, b, l.
Defined.
