(* ===== verification/HyperCache.v ===== *)
(** * The cache (hypercache_io.go, hypercache_eviction.go, hypercache_expiration.go,
    hypercache_construct.go)

    The operations of [HyperCache] over any backend ([IBackend]) and any eviction
    algorithm ([IAlgorithm]), proved against the laws of the two interfaces.  One
    call reads the clock once ([now]); the statistics counters and the logger are
    left out.  The bodies of the background loops are the jobs they enqueue. *)

From stdpp Require Import base gmap strings list fin_maps.
From Stdlib Require Import ZArith Lia.
From S2P Require Import Prelude Item Algorithm Backend Eviction.

(** ** The expiration trigger *)

(** The fields behind [execTriggerExpiration]: [queued] is how many signals are in
    [expirationTriggerCh], a channel with a buffer of [bufSize]. *)
Record Trigger := MkTrigger {
  debounce : Z;               (* expirationDebounceInterval *)
  lastTrigger : Z;            (* lastExpirationTrigger, unix nanoseconds *)
  pending : bool;             (* expirationSignalPending *)
  queued : nat;
  bufSize : nat }.

Definition execTriggerExpiration (now : Z) (t : Trigger) : Trigger :=
  if ((0 <? debounce t) && (sat64 (now - lastTrigger t) <? debounce t))%Z then t
  else if pending t then t
  else if decide (queued t < bufSize t)
  then MkTrigger (debounce t) now true (queued t + 1) (bufSize t)
  else MkTrigger (debounce t) (lastTrigger t) true (queued t) (bufSize t).

(** [initExpirationTrigger]: the buffer of the channel. *)
Definition initExpirationTrigger (capacity expirationTriggerBufSize : Z) : Z :=
  let buf := Z.quot capacity 2 in
  let buf := if (0 <? expirationTriggerBufSize)%Z then expirationTriggerBufSize else buf in
  if (buf <? 1)%Z then 1%Z else buf.

(** ** The operations *)

Section HyperCache.
Context {B A : Type} `{IBackend B} `{IAlgorithm A} (cborLen : any → option Z).

Record HyperCache := MkHC {
  backend : B;
  evictionAlgorithm : A;
  memoryAllocation : Z;       (* atomic.Int64 *)
  maxCacheSize : Z;           (* int64, 0: no limit *)
  shouldEvict : bool;
  maxEvictionCount : Z;       (* uint *)
  evictionInterval : Z;
  trigger : Trigger }.

Definition with_backend (b : B) (hc : HyperCache) : HyperCache :=
  MkHC b (evictionAlgorithm hc) (memoryAllocation hc) (maxCacheSize hc) (shouldEvict hc)
    (maxEvictionCount hc) (evictionInterval hc) (trigger hc).
Definition with_alg (a : A) (hc : HyperCache) : HyperCache :=
  MkHC (backend hc) a (memoryAllocation hc) (maxCacheSize hc) (shouldEvict hc)
    (maxEvictionCount hc) (evictionInterval hc) (trigger hc).
Definition with_memory (n : Z) (hc : HyperCache) : HyperCache :=
  MkHC (backend hc) (evictionAlgorithm hc) n (maxCacheSize hc) (shouldEvict hc)
    (maxEvictionCount hc) (evictionInterval hc) (trigger hc).
Definition with_shouldEvict (b : bool) (hc : HyperCache) : HyperCache :=
  MkHC (backend hc) (evictionAlgorithm hc) (memoryAllocation hc) (maxCacheSize hc) b
    (maxEvictionCount hc) (evictionInterval hc) (trigger hc).
Definition with_trigger (t : Trigger) (hc : HyperCache) : HyperCache :=
  MkHC (backend hc) (evictionAlgorithm hc) (memoryAllocation hc) (maxCacheSize hc) (shouldEvict hc)
    (maxEvictionCount hc) (evictionInterval hc) t.

(** [memoryAllocation.Add(n)] *)
Definition addMemory (n : Z) (hc : HyperCache) : HyperCache :=
  with_memory (i64 (memoryAllocation hc + n)) hc.

(** [setItemSize] for a backend without a serializer. *)
Definition setItemSize (item : Item) : Item * option error := SetSize cborLen item.

Fixpoint removeLoop (keys : list string) (hc : HyperCache) : option HyperCache :=
  match keys with
  | [] => Some hc
  | key :: keys =>
      '(b, r) ← bk_Get key (backend hc);
      let hc := with_backend b hc in
      hc ← (match r with
            | None => Some hc
            | Some item =>
                let hc := addMemory (- Size item) hc in
                a ← alg_Delete key (evictionAlgorithm hc); Some (with_alg a hc)
            end);
      removeLoop keys hc
  end.

Definition Remove (late : bool) (keys : list string) (hc : HyperCache)
    : option (HyperCache * option error) :=
  hc ← removeLoop keys hc;
  '(b, err) ← bk_Remove late keys (backend hc);
  Some (with_backend b hc, err).

Definition evictItem (late : bool) (hc : HyperCache) : option (HyperCache * (string * bool)) :=
  '(a, (key, ok)) ← alg_Evict (evictionAlgorithm hc);
  let hc := with_alg a hc in
  if negb ok then Some (hc, (""%string, false))
  else
    '(hc, err) ← Remove late [key] hc;
    match err with
    | Some _ => Some (hc, (""%string, false))
    | None => Some (hc, (key, true))
    end.

(** The item a write makes: a pooled (zero) item with four fields set. *)
Definition newItem (now : Z) (key : string) (value : any) (expiration : Z) : Item :=
  MkItem key value now (LastUpdated poolGet) (Size poolGet) expiration (AccessCount poolGet)
    (Version poolGet) (Origin poolGet).

(** What [Set] and [GetOrSet] share: from the sizing of the new item on. *)
Definition insertItem (pick : nat) (late : bool) (item : Item) (hc : HyperCache)
    : option (HyperCache * option error) :=
  match setItemSize item with
  | (_, Some err) => Some (hc, Some err)
  | (item, None) =>
      let hc := addMemory (Size item) hc in
      if ((0 <? maxCacheSize hc) && (maxCacheSize hc <? memoryAllocation hc))%Z
      then Some (addMemory (- Size item) hc, Some ErrCacheFull)
      else
        '(b, item', err) ← bk_Set item (backend hc);
        let hc := with_backend b hc in
        match err with
        | Some err => Some (addMemory (- Size item') hc, Some err)
        | None =>
            a ← alg_Set pick (Key item) (Value item') (evictionAlgorithm hc);
            let hc := with_alg a hc in
            hc ← (if shouldEvict hc && (bk_Capacity (backend hc) <? bk_Count (backend hc))%Z
                  then r ← evictItem late hc; Some r.1 else Some hc);
            Some (hc, None)
        end
  end.

Definition Set_ (now : Z) (pick : nat) (late : bool) (key : string) (value : any) (expiration : Z)
    (hc : HyperCache) : option (HyperCache * option error) :=
  insertItem pick late (newItem now key value expiration) hc.

Definition touchItem (now : Z) (key : string) (item : Item) (hc : HyperCache)
    : option (HyperCache * Item) :=
  '(b, _) ← bk_Touch now key (backend hc);
  Some (with_backend b hc, Touch now item).

Definition GetWithInfo (now : Z) (key : string) (hc : HyperCache)
    : option (HyperCache * option Item) :=
  '(b, r) ← bk_Get key (backend hc);
  let hc := with_backend b hc in
  match r with
  | None => Some (hc, None)
  | Some item =>
      if Expired now item then Some (with_trigger (execTriggerExpiration now (trigger hc)) hc, None)
      else '(hc, item) ← touchItem now key item hc; Some (hc, Some item)
  end.

Definition Get (now : Z) (key : string) (hc : HyperCache) : option (HyperCache * (any * bool)) :=
  '(b, r) ← bk_Get key (backend hc);
  let hc := with_backend b hc in
  match r with
  | None => Some (hc, (ANil, false))
  | Some item =>
      if Expired now item
      then Some (with_trigger (execTriggerExpiration now (trigger hc)) hc, (ANil, false))
      else '(hc, item) ← touchItem now key item hc; Some (hc, (Value item, true))
  end.

Definition GetOrSet (now : Z) (pick : nat) (late : bool) (key : string) (value : any)
    (expiration : Z) (hc : HyperCache) : option (HyperCache * result any) :=
  '(b, r) ← bk_Get key (backend hc);
  let hc := with_backend b hc in
  match r with
  | Some item =>
      if Expired now item
      then Some (with_trigger (execTriggerExpiration now (trigger hc)) hc, Err ErrKeyExpired)
      else '(hc, item) ← touchItem now key item hc; Some (hc, Ok (Value item))
  | None =>
      '(hc, err) ← insertItem pick late (newItem now key value expiration) hc;
      match err with
      | Some err => Some (hc, Err err)
      | None => Some (hc, Ok value)
      end
  end.

Fixpoint getMultipleLoop (now : Z) (keys : list string) (res : gmap string any)
    (failed : gmap string error) (hc : HyperCache)
    : option (HyperCache * (gmap string any * gmap string error)) :=
  match keys with
  | [] => Some (hc, (res, failed))
  | key :: keys =>
      '(b, r) ← bk_Get key (backend hc);
      let hc := with_backend b hc in
      match r with
      | None => getMultipleLoop now keys res (<[key := ErrKeyNotFound]> failed) hc
      | Some item =>
          if Expired now item
          then getMultipleLoop now keys res (<[key := ErrKeyNotFound]> failed)
                 (with_trigger (execTriggerExpiration now (trigger hc)) hc)
          else
            '(hc, item) ← touchItem now key item hc;
            getMultipleLoop now keys (<[key := Value item]> res) failed hc
      end
  end.

Definition GetMultiple (now : Z) (keys : list string) (hc : HyperCache)
    : option (HyperCache * (gmap string any * gmap string error)) :=
  getMultipleLoop now keys ∅ ∅ hc.

Definition List_ (filters : list IFilter) (hc : HyperCache) : option (result (list Item)) :=
  bk_List filters (backend hc).

Fixpoint deleteTracked (its : list Item) (a : A) : option A :=
  match its with
  | [] => Some a
  | item :: its => a ← alg_Delete (Key item) a; deleteTracked its a
  end.

Definition Clear (late : bool) (hc : HyperCache) : option (HyperCache * option error) :=
  r ← bk_List [] (backend hc);
  match r with
  | Err err => Some (hc, Some err)
  | Ok its =>
      '(b, err) ← bk_Clear late (backend hc);
      let hc := with_backend b hc in
      match err with
      | Some err => Some (hc, Some err)
      | None =>
          a ← deleteTracked its (evictionAlgorithm hc);
          Some (with_memory 0 (with_alg a hc), None)
      end
  end.

(** The loop of the eviction job: [evicted] is [evictedCount]. *)
Fixpoint evictionJob (fuel : nat) (late : bool) (evicted : Z) (hc : HyperCache)
    : option (HyperCache * Z * option error) :=
  match fuel with
  | 0 => None
  | S fuel =>
      if negb (bk_Capacity (backend hc) <? bk_Count (backend hc))%Z then Some (hc, evicted, None)
      else if decide (maxEvictionCount hc = evicted) then Some (hc, evicted, None)
      else
        '(a, (key, ok)) ← alg_Evict (evictionAlgorithm hc);
        let hc := with_alg a hc in
        if negb ok then Some (hc, evicted, None)
        else
          '(hc, err) ← Remove late [key] hc;
          match err with
          | Some err => Some (hc, evicted, Some err)
          | None => evictionJob fuel late (evicted + 1) hc
          end
  end.

(** At most [maxEvictionCount] rounds, and one more to see that they are over. *)
Definition evictionLoop (late : bool) (hc : HyperCache) : option (HyperCache * Z * option error) :=
  evictionJob (S (Z.to_nat (maxEvictionCount hc))) late 0 hc.

Definition expiredFilter (now : Z) (item : Item) : bool :=
  ((0 <? Expiration item) && (Expiration item <? sat64 (now - LastAccess item)))%Z.

Fixpoint expireItems (late : bool) (its : list Item) (n : Z) (hc : HyperCache)
    : option (HyperCache * Z * option error) :=
  match its with
  | [] => Some (hc, n, None)
  | item :: its =>
      '(hc, err) ← Remove late [Key item] hc;
      match err with
      | Some err => Some (hc, (n + 1)%Z, Some err)
      | None => expireItems late its (n + 1) hc
      end
  end.

Definition expirationLoop (now : Z) (late : bool) (hc : HyperCache)
    : option (HyperCache * Z * option error) :=
  r ← List_ [WithSortBy "Expiration"; WithFilterFunc (expiredFilter now)] hc;
  match r with
  | Err err => Some (hc, 0%Z, Some err)
  | Ok its => expireItems late its 0 hc
  end.

(** The answer says whether an eviction job is enqueued; the job itself is
    [evictionLoop], run by a worker at some later point. *)
Definition SetCapacity (capacity : Z) (hc : HyperCache) : HyperCache * bool :=
  let hc := with_backend (bk_SetCapacity capacity (backend hc)) hc in
  let hc := with_shouldEvict
    ((evictionInterval hc =? 0) && (0 <? bk_Capacity (backend hc)))%Z hc in
  (hc, (bk_Capacity (backend hc) <? bk_Count (backend hc))%Z).

End HyperCache.
Arguments HyperCache : clear implicits.

(** ** Sizes *)

(** The bytes the stored items account for. *)
Definition total (m : gmap string Item) : Z := map_fold (λ _ it n, (Size it + n)%Z) 0%Z m.

Lemma total_empty : total ∅ = 0%Z.
Proof. apply map_fold_empty. Qed.

Lemma total_delete m k it : m !! k = Some it → total m = (Size it + total (delete k m))%Z.
Proof. intros Hk. unfold total. rewrite (map_fold_delete_L _ _ k it); [done|intros; lia|done]. Qed.

Lemma total_insert m k it : total (<[k := it]> m) = (Size it + total (delete k m))%Z.
Proof. rewrite (total_delete _ k it) by apply lookup_insert_eq. by rewrite delete_insert_eq. Qed.

Lemma total_nonneg m : map_Forall (λ _ it, 0 ≤ Size it)%Z m → (0 ≤ total m)%Z.
Proof.
  induction m as [|k it m Hk IH] using map_ind; intros Hf; [by rewrite total_empty|].
  rewrite total_insert, delete_id by done. apply map_Forall_insert in Hf as [? ?]; [|done].
  specialize (IH ltac:(done)). lia.
Qed.

Definition key_size (m : gmap string Item) (k : string) : Z :=
  match m !! k with Some it => Size it | None => 0%Z end.
Fixpoint keys_size (m : gmap string Item) (ks : list string) : Z :=
  match ks with [] => 0%Z | k :: ks => (key_size m k + keys_size m ks)%Z end.

Lemma total_delete_key m k : total (delete k m) = (total m - key_size m k)%Z.
Proof.
  unfold key_size. destruct (m !! k) eqn:E; [rewrite (total_delete _ _ _ E); lia|].
  rewrite delete_id by done. lia.
Qed.

Lemma total_delete_all m ks : NoDup ks → total (delete_all ks m) = (total m - keys_size m ks)%Z.
Proof.
  revert m. induction ks as [|k ks IH]; intros m; cbn [delete_all keys_size].
  { intros _. lia. }
  intros [Hk Hn]%NoDup_cons.
  rewrite IH, total_delete_key by done.
  enough (keys_size (delete k m) ks = keys_size m ks) as -> by lia. clear -Hk.
  induction ks as [|k' ks IH]; [done|]. cbn. rewrite IH by set_solver.
  unfold key_size. rewrite lookup_delete_ne by set_solver. done.
Qed.

(** The keys of the listed items are the keys of the map. *)
Lemma listed_keys (m : gmap string Item) (l : list Item) k :
  map_Forall (λ k it, Key it = k) m → l ≡ₚ (map_to_list m).*2 → k ∈ (Key <$> l) ↔ is_Some (m !! k).
Proof.
  intros Hs Hp. rewrite Hp. rewrite list_elem_of_fmap. split.
  - intros (it & -> & ([k' it'] & -> & Hin%elem_of_map_to_list)%list_elem_of_fmap). cbn.
    rewrite (Hs _ _ Hin). eauto.
  - intros [it Hk]. exists it. split; [by rewrite (Hs _ _ Hk)|].
    apply list_elem_of_fmap. exists (k, it). by rewrite elem_of_map_to_list.
Qed.

(** Filtering the listed items is listing the filtered map. *)
Lemma filter_values (P : Item → Prop) `{∀ it, Decision (P it)} (m : gmap string Item) :
  filter P (map_to_list m).*2 ≡ₚ (map_to_list (filter (λ kv : string * Item, P kv.2) m)).*2.
Proof.
  induction m as [|k it m Hk IH] using map_ind; [done|].
  assert ((filter (λ kv : string * Item, P kv.2) m) !! k = None) as Hk'.
  { rewrite map_lookup_filter_None. by left. }
  trans (filter P (it :: (map_to_list m).*2)).
  { apply filter_Permutation. by rewrite (map_to_list_insert m). }
  rewrite filter_cons, map_filter_insert. cbn. case_decide.
  - by rewrite (map_to_list_insert _ k it Hk'), IH.
  - by rewrite IH, map_filter_delete, delete_id.
Qed.

(** ** The invariant *)

Section Facts.
Context {B A : Type} `{IBackend B} `{IAlgorithm A} (e : env)
  `{!BackendLaws B e} `{!AlgorithmLaws A} (cborLen : any → option Z) (cap : nat).
Implicit Types (hc : HyperCache B A) (m : gmap string Item) (t : gmap string any).

(** The backend stores [m], the algorithm tracks [t], and the counter is an
    int64. *)
Record hc_rep hc m t : Prop := {
  rep_stores : stores (backend hc) m;
  rep_tracks : tracks cap (evictionAlgorithm hc) t;
  rep_int64 : i64 (memoryAllocation hc) = memoryAllocation hc }.

(** Only stored keys are tracked: what every operation but a [Clear] whose
    context is cancelled keeps. *)
Definition tracked_stored t m : Prop := dom t ⊆ dom m.

(** The configuration no read or write changes. *)
Record same_config hc hc' : Prop := {
  sc_max : maxCacheSize hc' = maxCacheSize hc;
  sc_should : shouldEvict hc' = shouldEvict hc;
  sc_count : maxEvictionCount hc' = maxEvictionCount hc;
  sc_interval : evictionInterval hc' = evictionInterval hc;
  sc_capacity : bk_Capacity (backend hc') = bk_Capacity (backend hc) }.

#[local] Instance same_config_preorder : PreOrder same_config.
Proof.
  split; [done|]. intros x y z [? ? ? ? ?] [? ? ? ? ?]. split; congruence.
Qed.

(** What no operation at all changes: [SetCapacity] sets the rest. *)
Record same_limits hc hc' : Prop := {
  sl_max : maxCacheSize hc' = maxCacheSize hc;
  sl_count : maxEvictionCount hc' = maxEvictionCount hc }.

#[local] Instance same_limits_preorder : PreOrder same_limits.
Proof. split; [done|]. intros x y z [? ?] [? ?]. split; congruence. Qed.

Lemma same_config_limits hc hc' : same_config hc hc' → same_limits hc hc'.
Proof. intros [? ? ? ? ?]. by split. Qed.

Lemma stores_map_keys b m : stores b m → map_Forall (λ k it, Key it = k) m.
Proof. intros Hs k it. by apply (stores_keys b). Qed.

Lemma dom_sub_delete_all {V} ks (t : gmap string V) m :
  dom t ⊆ dom m → dom (delete_all ks t) ⊆ dom (delete_all ks m).
Proof.
  intros Hs k. rewrite !elem_of_dom, !delete_all_lookup. case_decide; [by intros []|].
  rewrite <- !elem_of_dom. apply Hs.
Qed.

Lemma i64_idem z : i64 (i64 z) = i64 z.
Proof. apply i64_small, i64_bound. Qed.

Lemma tracked_stored_delete k t m : tracked_stored t m → tracked_stored (delete k t) m.
Proof. unfold tracked_stored. rewrite dom_delete_L. set_solver. Qed.

Lemma tracked_stored_absent k t m : tracked_stored t m → m !! k = None → t !! k = None.
Proof. intros Hd Hk. apply not_elem_of_dom. intros Hin%Hd. by apply elem_of_dom in Hin as [? ?]; congruence. Qed.

Lemma removeLoop_ok ks hc m t :
  hc_rep hc m t →
  ∃ hc' t', removeLoop ks hc = Some hc' ∧ hc_rep hc' m t' ∧ same_config hc hc' ∧
    memoryAllocation hc' = i64 (memoryAllocation hc - keys_size m ks) ∧
    t' ⊆ t ∧ (tracked_stored t m → t' = delete_all ks t).
Proof.
  revert hc t. induction ks as [|k ks IH]; intros hc t Hr; cbn.
  { exists hc, t. split_and!; [done..| |done|done]. rewrite Z.sub_0_r. by rewrite (rep_int64 _ _ _ Hr). }
  destruct Hr as [Hs Ht Hm]. destruct (bk_Get_law _ _ k Hs) as (b & -> & Hs' & Hc).
  cbn [mbind option_bind]. unfold key_size. destruct (m !! k) as [it|] eqn:Ek.
  - cbn [evictionAlgorithm addMemory with_memory with_backend].
    destruct (Delete_law _ _ _ k Ht) as (a & -> & Ht'). cbn [mbind option_bind].
    set (hc1 := with_alg a _).
    assert (hc_rep hc1 m (delete k t)) as Hr1 by (split; cbn; [done|done|apply i64_idem]).
    destruct (IH hc1 (delete k t) Hr1) as (hc' & t' & -> & Hr' & Hsc & Hmem & Hsub & Hex).
    exists hc', t'. split_and!; [done|done|..].
    + etrans; [|exact Hsc]. by split.
    + rewrite Hmem. cbn. rewrite i64_sub_l. f_equal. lia.
    + etrans; [exact Hsub|]. apply delete_subseteq.
    + intros Hd. by apply Hex, tracked_stored_delete.
  - cbn [mbind option_bind].
    assert (hc_rep (with_backend b hc) m t) as Hr1 by done.
    destruct (IH _ t Hr1) as (hc' & t' & -> & Hr' & Hsc & Hmem & Hsub & Hex).
    exists hc', t'. split_and!; [done|done|..|done|done|].
    + etrans; [|exact Hsc]. by split.
    + intros Hd. rewrite (Hex Hd). by rewrite delete_id by (by eapply tracked_stored_absent).
Qed.

Lemma hypercache_Remove_ok late ks hc m t :
  hc_rep hc m t →
  ∃ hc' t', Remove late ks hc = Some (hc', late_error late) ∧
    hc_rep hc' (delete_all ks m) t' ∧ same_config hc hc' ∧
    memoryAllocation hc' = i64 (memoryAllocation hc - keys_size m ks) ∧
    t' ⊆ t ∧ (tracked_stored t m → t' = delete_all ks t).
Proof.
  intros Hr. unfold Remove. destruct (removeLoop_ok ks hc m t Hr) as (hc1 & t' & -> & Hr1 & Hsc & Hmem & Hsub & Hex).
  cbn [mbind option_bind]. destruct (bk_Remove_law _ _ late ks (rep_stores _ _ _ Hr1)) as (b & -> & Hs & Hc).
  cbn [mbind option_bind]. exists (with_backend b hc1), t'. split; [done|]. split_and!; [|..|done|done|done].
  - split; cbn; [done|apply Hr1|apply Hr1].
  - etrans; [exact Hsc|]. by split.
Qed.

(** Removing what the algorithm has already given up. *)
Lemma hypercache_Remove_victim late k a hc m t :
  hc_rep hc m t → tracks cap a (delete k t) →
  ∃ hc' t', Remove late [k] (with_alg a hc) = Some (hc', late_error late) ∧
    hc_rep hc' (delete k m) t' ∧ same_config hc hc' ∧
    memoryAllocation hc' = i64 (memoryAllocation hc - key_size m k) ∧
    t' ⊆ delete k t ∧ (tracked_stored t m → tracked_stored t' (delete k m)).
Proof.
  intros [Hs Ht Hm] Ha.
  assert (hc_rep (with_alg a hc) m (delete k t)) as Hr1 by (by split).
  destruct (hypercache_Remove_ok late [k] _ _ _ Hr1) as (hc' & t' & -> & Hr' & Hsc & Hmem & Hsub & Hex).
  cbn [delete_all keys_size] in *. rewrite Z.add_0_r in Hmem. exists hc', t'.
  split_and!; [done|done|by etrans; [|exact Hsc]|done|done|].
  intros Hd. rewrite (Hex (tracked_stored_delete _ _ _ Hd)), delete_delete_eq.
  unfold tracked_stored in *. rewrite !dom_delete_L. set_solver.
Qed.

(** The key an insertion gives up: the algorithm's victim, when the cache evicts on
    writes and holds more items than its capacity. *)
Definition victim hc (count : nat) (a : A) : option string :=
  if shouldEvict hc && (bk_Capacity (backend hc) <? i64 (Z.of_nat count))%Z then
    match alg_Evict a with Some (_, (k, true)) => Some k | _ => None end
  else None.

Definition drop_key (g : option string) m : gmap string Item :=
  match g with Some k => delete k m | None => m end.
Definition gone_size (g : option string) m : Z :=
  match g with Some k => key_size m k | None => 0%Z end.

(** [evictItem] removes the algorithm's victim from the algorithm and the backend,
    or nothing. *)
Lemma evictItem_ok late hc m t :
  hc_rep hc m t →
  ∃ hc' r t' g, evictItem late hc = Some (hc', r) ∧ same_config hc hc' ∧
    g = match alg_Evict (evictionAlgorithm hc) with Some (_, (k, true)) => Some k | _ => None end ∧
    hc_rep hc' (drop_key g m) t' ∧ t' ⊆ t ∧
    (tracked_stored t m → tracked_stored t' (drop_key g m) ∧ ∀ k, g = Some k → is_Some (m !! k)) ∧
    memoryAllocation hc' = i64 (memoryAllocation hc - gone_size g m).
Proof.
  intros Hr. pose proof Hr as [Hs Ht Hm]. unfold evictItem.
  destruct (Evict_law _ _ _ Ht) as (a & t' & r & -> & Ht' & Hcase). cbn [mbind option_bind].
  destruct Hcase as [[-> ->]|(k & -> & Hk & ->)]; cbn [negb].
  - eexists _, _, t, None. split; [done|]. split_and!; try done. cbn. by rewrite Z.sub_0_r.
  - destruct (hypercache_Remove_victim late k a hc m t Hr Ht') as (hc' & t' & -> & Hr' & Hsc & Hmem & Hsub & Hst).
    cbn [mbind option_bind].
    destruct late; cbn [late_error]; eexists _, _, t', (Some k);
      (split; [done|]; split_and!; [done|done|done| | |done]);
      [etrans; [exact Hsub|apply delete_subseteq]| |etrans; [exact Hsub|apply delete_subseteq]|];
      intros Hd; (split; [by apply Hst|]); intros ? [= <-]; by apply elem_of_dom, Hd, elem_of_dom.
Qed.

(** ** Writes *)

(** The ways [insertItem] ends. *)
Inductive inserted (pick : nat) (late : bool) (item : Item) hc m t
    : HyperCache B A → gmap string Item → gmap string any → option error → Prop :=
  | ins_size er it' : SetSize cborLen item = (it', Some er) →
      inserted pick late item hc m t hc m t (Some er)
  | ins_full hc' it' : SetSize cborLen item = (it', None) →
      (0 < maxCacheSize hc)%Z → (maxCacheSize hc < i64 (memoryAllocation hc + Size it'))%Z →
      memoryAllocation hc' = memoryAllocation hc →
      inserted pick late item hc m t hc' m t (Some ErrCacheFull)
  | ins_invalid hc' it' er : SetSize cborLen item = (it', None) → (Valid it').2 = Some er →
      ((maxCacheSize hc ≤ 0)%Z ∨ (i64 (memoryAllocation hc + Size it') ≤ maxCacheSize hc)%Z) →
      memoryAllocation hc' = i64 (memoryAllocation hc + Size it') →
      inserted pick late item hc m t hc' m t (Some er)
  | ins_stored hc' it' t' a g : SetSize cborLen item = (it', None) → (Valid it').2 = None →
      ((maxCacheSize hc ≤ 0)%Z ∨ (i64 (memoryAllocation hc + Size it') ≤ maxCacheSize hc)%Z) →
      alg_Set pick (Key item) (Value item) (evictionAlgorithm hc) = Some a →
      g = victim hc (size (<[Key item := it']> m)) a →
      memoryAllocation hc' =
        i64 (memoryAllocation hc + Size it' - gone_size g (<[Key item := it']> m)) →
      (tracked_stored t m → ∀ k, g = Some k → is_Some (<[Key item := it']> m !! k)) →
      inserted pick late item hc m t hc' (drop_key g (<[Key item := it']> m)) t' None.

Lemma SetSize_fields it it' er :
  SetSize cborLen it = (it', er) → Key it' = Key it ∧ Value it' = Value it ∧
    LastAccess it' = LastAccess it ∧ Expiration it' = Expiration it.
Proof.
  unfold SetSize. intros E. destruct (Value it) as [| | |[]| |] eqn:Ev; try (destruct (cborLen _));
    simplify_eq; cbn; by rewrite Ev.
Qed.

Lemma insertItem_ok pick late item hc m t :
  hc_rep hc m t →
  ∃ hc' m' t' err, insertItem cborLen pick late item hc = Some (hc', err) ∧ hc_rep hc' m' t' ∧
    same_config hc hc' ∧ inserted pick late item hc m t hc' m' t' err ∧
    (tracked_stored t m → tracked_stored t' m').
Proof.
  intros Hr. pose proof Hr as [Hs Ht Hm]. unfold insertItem, setItemSize.
  destruct (SetSize cborLen item) as [it' [er|]] eqn:Esz.
  { eexists _, _, _, _. split; [done|]. split_and!; [done|done|by econstructor|done]. }
  destruct (SetSize_fields _ _ _ Esz) as (Ek & Ev & _). cbn [maxCacheSize memoryAllocation addMemory with_memory].
  destruct (_ && _) eqn:Efull.
  { apply andb_true_iff in Efull as [H1%Z.ltb_lt H2%Z.ltb_lt].
    eexists _, m, t, _. split; [done|].
    assert (i64 (i64 (memoryAllocation hc + Size it') + - Size it') = memoryAllocation hc) as Emem.
    { rewrite i64_add_l. rewrite <- Hm at 2. f_equal. lia. }
    split_and!; [|by split|by eapply ins_full|done].
    split; cbn; [done|done|apply i64_idem]. }
  assert ((maxCacheSize hc ≤ 0)%Z ∨ (i64 (memoryAllocation hc + Size it') ≤ maxCacheSize hc)%Z) as Hlim.
  { apply andb_false_iff in Efull as [H1%Z.ltb_ge|H2%Z.ltb_ge]; [by left|by right]. }
  cbn [backend with_memory addMemory]. destruct (bk_Set_law _ _ it' Hs) as (b & it'' & err & -> & Hc & Herr & Hok & Hbad).
  cbn [mbind option_bind]. destruct err as [er|].
  - destruct (Hbad ltac:(done)) as [-> Hs'].
    eexists _, m, t, _. split; [done|].
    assert (i64 (i64 (memoryAllocation hc + Size it') + - Size zeroItem) =
      i64 (memoryAllocation hc + Size it')) as Emem.
    { rewrite i64_add_l. cbn. f_equal. lia. }
    split_and!; [|by split|by eapply ins_invalid|done].
    split; cbn; [done|done|apply i64_idem].
  - destruct (Hok eq_refl) as [-> Hs']. cbn [evictionAlgorithm with_backend with_memory addMemory].
    destruct (Set_law _ _ _ pick (Key it') (Value it') Ht) as (a & t1 & Ha & Ht' & Hsub & _).
    rewrite Ha. cbn [mbind option_bind]. rewrite Ek in Hs', Hsub, Ha. rewrite Ev in Hsub, Ha.
    set (hc1 := with_alg a _). set (m1 := <[Key item := it']> m) in *.
    assert (hc_rep hc1 m1 t1) as Hr1 by (split; cbn; [done|done|apply i64_idem]).
    assert (tracked_stored t m → tracked_stored t1 m1) as Hd1.
    { intros Hd. apply subseteq_dom in Hsub. unfold tracked_stored, m1 in *.
      rewrite dom_insert_L in *. set_solver. }
    assert (bk_Count (backend hc1) = i64 (Z.of_nat (size m1))) as Ecnt by apply (bk_Count_law _ _ Hs').
    assert (bk_Capacity (backend hc1) = bk_Capacity (backend hc)) as Ecap by exact Hc.
    fold hc1. rewrite Ecnt, Ecap.
    destruct (shouldEvict hc1 && _) eqn:Eev.
    + destruct (evictItem_ok late hc1 _ _ Hr1) as (hc' & r & t' & g & -> & Hsc & Eg & Hr' & _ & Hst & Hmem).
      cbn [mbind option_bind fst]. eexists _, _, t', _. split; [done|]. split_and!.
      * exact Hr'.
      * etrans; [|exact Hsc]. by split.
      * eapply ins_stored; [done|done|done|exact Ha| | |].
        -- unfold victim. fold m1. cbn in Eev. rewrite Eev. exact Eg.
        -- rewrite Hmem. cbn. rewrite i64_sub_l. done.
        -- intros Hd k Hk. by apply (Hst (Hd1 Hd)).
      * intros Hd. by apply Hst, Hd1.
    + eexists _, m1, t1, _. split; [done|]. split_and!; [exact Hr1|by split| |done].
      eapply (ins_stored _ _ _ _ _ _ _ it' t1 a None); try done.
      * unfold victim. fold m1. cbn in Eev. by rewrite Eev.
      * cbn. by rewrite Z.sub_0_r.
Qed.

(** ** Reads *)

(** A read refreshes access times and counts of the items it returns. *)
Definition touches (now : Z) : gmap string Item → gmap string Item → Prop :=
  rtc (λ m m', ∃ k, m' = alter (Item.Touch now) k m).

Lemma total_touch now k m : total (alter (Item.Touch now) k m) = total m.
Proof.
  destruct (m !! k) as [it|] eqn:E.
  - rewrite (total_delete _ k (Item.Touch now it)) by (by rewrite lookup_alter_eq, E).
    rewrite delete_alter_eq. by rewrite (total_delete m k it).
  - by rewrite alter_id by (by rewrite E).
Qed.

Lemma touches_facts now m m' :
  touches now m m' → total m' = total m ∧ dom m' = dom m ∧
    (map_Forall (λ _ it, 0 ≤ Size it)%Z m → map_Forall (λ _ it, 0 ≤ Size it)%Z m').
Proof.
  induction 1 as [m|m1 m2 m3 [k ->] _ (IH1 & IH2 & IH3)]; [done|].
  rewrite IH1, IH2, total_touch, dom_alter_L. split_and!; [done|done|]. intros Hf. apply IH3.
  intros k' it. rewrite lookup_alter. case_decide; [|apply Hf]. subst.
  destruct (m1 !! k') as [it'|] eqn:E; [|done]. cbn. intros ?. simplify_eq. exact (Hf _ _ E).
Qed.

Lemma touches_stored now m m' t : touches now m m' → tracked_stored t m → tracked_stored t m'.
Proof. intros (_ & E & _)%touches_facts. unfold tracked_stored. by rewrite E. Qed.

Lemma touchItem_ok now k it hc m t :
  hc_rep hc m t →
  ∃ hc', touchItem now k it hc = Some (hc', Item.Touch now it) ∧
    hc_rep hc' (alter (Item.Touch now) k m) t ∧ same_config hc hc' ∧
    memoryAllocation hc' = memoryAllocation hc.
Proof.
  intros [Hs Ht Hm]. unfold touchItem.
  destruct (bk_Touch_law _ _ now k Hs) as (b & -> & Hs' & Hc). cbn.
  eexists. split; [done|]. by split_and!.
Qed.

(** What a read of [k] should see: the value, unless it is absent or expired. *)
Definition live (now : Z) (m : gmap string Item) (k : string) : option any :=
  it ← m !! k; if Expired now it then None else Some (Value it).

(** The shape all reads share. *)
Lemma read_ok k hc m t :
  hc_rep hc m t →
  ∃ b, bk_Get k (backend hc) = Some (b, m !! k) ∧ hc_rep (with_backend b hc) m t ∧
    same_config hc (with_backend b hc) ∧
    ∀ tr, hc_rep (with_trigger tr (with_backend b hc)) m t ∧
      same_config hc (with_trigger tr (with_backend b hc)).
Proof.
  intros [Hs Ht Hm]. destruct (bk_Get_law _ _ k Hs) as (b & -> & Hs' & Hc).
  exists b. split_and!; [done|by split|by split|]. intros tr. split; by split.
Qed.

Lemma hypercache_Get_ok now k hc m t :
  hc_rep hc m t →
  ∃ hc' m', Get now k hc = Some (hc', (default ANil (live now m k), bool_decide (is_Some (live now m k)))) ∧
    hc_rep hc' m' t ∧ same_config hc hc' ∧ memoryAllocation hc' = memoryAllocation hc ∧
    touches now m m'.
Proof.
  intros Hr. unfold Get. destruct (read_ok k _ _ _ Hr) as (b & -> & Hr1 & Hsc1 & Htr).
  cbn [mbind option_bind]. unfold live. destruct (m !! k) as [it|] eqn:E; cbn [mbind option_bind].
  2:{ eexists _, m. by split_and!. }
  destruct (Expired now it).
  - eexists _, m. split; [done|]. by destruct (Htr (execTriggerExpiration now (trigger hc))).
  - destruct (touchItem_ok now k it _ _ _ Hr1) as (hc' & -> & Hr' & Hsc & Hmem). cbn.
    eexists _, _. split; [done|]. split_and!; [exact Hr'|by etrans|done|].
    apply rtc_once. by eexists.
Qed.

Lemma GetWithInfo_ok now k hc m t :
  hc_rep hc m t →
  ∃ hc' m' r, GetWithInfo now k hc = Some (hc', r) ∧ Value <$> r = live now m k ∧
    hc_rep hc' m' t ∧ same_config hc hc' ∧ memoryAllocation hc' = memoryAllocation hc ∧
    touches now m m'.
Proof.
  intros Hr. unfold GetWithInfo. destruct (read_ok k _ _ _ Hr) as (b & -> & Hr1 & Hsc1 & Htr).
  cbn [mbind option_bind]. unfold live. destruct (m !! k) as [it|] eqn:E; cbn [mbind option_bind].
  2:{ eexists _, m, _. by split_and!. }
  destruct (Expired now it).
  - eexists _, m, _. split; [done|]. by destruct (Htr (execTriggerExpiration now (trigger hc))).
  - destruct (touchItem_ok now k it _ _ _ Hr1) as (hc' & -> & Hr' & Hsc & Hmem). cbn.
    eexists _, _, _. split; [done|]. split_and!; [done|exact Hr'|by etrans|done|].
    apply rtc_once. by eexists.
Qed.

(** The answer of [GetMultiple]: every key asked for is in exactly one of the two
    maps. *)
Lemma getMultipleLoop_ok now ks res failed hc m t :
  hc_rep hc m t →
  ∃ hc' m' res' failed', getMultipleLoop now ks res failed hc = Some (hc', (res', failed')) ∧
    hc_rep hc' m' t ∧ same_config hc hc' ∧ memoryAllocation hc' = memoryAllocation hc ∧
    touches now m m'.
Proof.
  revert res failed hc m. induction ks as [|k ks IH]; intros res failed hc m Hr; cbn [getMultipleLoop].
  { eexists _, m, _, _. by split_and!. }
  destruct (read_ok k _ _ _ Hr) as (b & -> & Hr1 & Hsc1 & Htr). cbn [mbind option_bind].
  destruct (m !! k) as [it|].
  2:{ destruct (IH res (<[k := ErrKeyNotFound]> failed) _ _ Hr1) as (hc' & m' & r' & f' & -> & ? & ? & ? & ?).
      eexists _, m', _, _. split_and!; [done|done|by etrans|done|done]. }
  destruct (Expired now it).
  - destruct (Htr (execTriggerExpiration now (trigger (with_backend b hc)))) as [Hr2 Hsc2].
    destruct (IH res (<[k := ErrKeyNotFound]> failed) _ _ Hr2) as (hc' & m' & r' & f' & -> & ? & ? & ? & ?).
    eexists _, m', _, _. split_and!; [done|done|by etrans|done|done].
  - destruct (touchItem_ok now k it _ _ _ Hr1) as (hc1 & -> & Hr2 & Hsc2 & Hmem). cbn [mbind option_bind].
    destruct (IH (<[k := Value (Item.Touch now it)]> res) failed _ _ Hr2)
      as (hc' & m' & r' & f' & -> & ? & ? & ? & ?).
    eexists _, m', _, _. split_and!; [done|done|by do 2 (etrans; [|done])|by etrans|].
    eapply rtc_l; [by eexists|done].
Qed.

(** ** Memory accounting *)

(** With a limit in force, the counter covers the stored items and stays below the
    limit (limits and sizes up to 2^62, so that the int64 arithmetic is exact). *)
Record mem_ok hc m : Prop := {
  mo_limit : (0 < maxCacheSize hc ≤ 2 ^ 62)%Z;
  mo_sizes : map_Forall (λ _ it, 0 ≤ Size it)%Z m;
  mo_total : (total m ≤ memoryAllocation hc ≤ maxCacheSize hc)%Z }.

Lemma sizes_sub m m' :
  m' ⊆ m → map_Forall (λ _ it, 0 ≤ Size it)%Z m → map_Forall (λ _ it, 0 ≤ Size it)%Z m'.
Proof. intros Hs Hf k it Hk. eapply Hf, lookup_weaken; done. Qed.

Lemma mem_ok_remove hc hc' m ks :
  mem_ok hc m → NoDup ks → same_config hc hc' →
  memoryAllocation hc' = i64 (memoryAllocation hc - keys_size m ks) →
  mem_ok hc' (delete_all ks m).
Proof.
  intros [Hl Hs Ht] Hn Hsc Hmem. pose proof (total_delete_all m ks Hn) as Htot.
  pose proof (sizes_sub _ _ (delete_all_sub ks m) Hs) as Hs'. pose proof (total_nonneg _ Hs') as Hnn.
  assert (0 ≤ keys_size m ks)%Z as Hk.
  { clear -Hs. induction ks as [|k ks IH]; cbn; [lia|]. unfold key_size.
    destruct (m !! k) eqn:E; [pose proof (Hs _ _ E); cbn in *|]; lia. }
  split; [by rewrite (sc_max _ _ Hsc)|done|].
  rewrite (sc_max _ _ Hsc), Hmem. rewrite i64_small; lia.
Qed.

Lemma mem_ok_same hc hc' now m m' :
  mem_ok hc m → same_config hc hc' → memoryAllocation hc' = memoryAllocation hc →
  touches now m m' → mem_ok hc' m'.
Proof.
  intros [Hl Hs Ht] Hsc Hmem Hto. destruct (touches_facts _ _ _ Hto) as (Etot & _ & Hs').
  split; [by rewrite (sc_max _ _ Hsc)|auto|]. rewrite Etot, Hmem, (sc_max _ _ Hsc). done.
Qed.

Lemma drop_key_total g m :
  map_Forall (λ _ it, 0 ≤ Size it)%Z m →
  total (drop_key g m) = (total m - gone_size g m)%Z ∧ (0 ≤ gone_size g m)%Z ∧
  map_Forall (λ _ it, 0 ≤ Size it)%Z (drop_key g m).
Proof.
  intros Hs. destruct g as [k|]; cbn; [|split_and!; [lia|lia|done]].
  rewrite total_delete_key. split_and!; [done| |by eapply sizes_sub, Hs; apply delete_subseteq].
  unfold key_size. destruct (m !! k) eqn:Ek; [exact (Hs _ _ Ek)|lia].
Qed.

Lemma mem_ok_inserted pick late item hc m t hc' m' t' err it' :
  mem_ok hc m → same_config hc hc' → inserted pick late item hc m t hc' m' t' err →
  (SetSize cborLen item).1 = it' → (0 ≤ Size it' < 2 ^ 62)%Z → mem_ok hc' m'.
Proof.
  intros Hmo Hsc Hins E Hsz. pose proof Hmo as [Hl Hs Ht]. pose proof (total_nonneg _ Hs) as Hnn.
  assert (∀ it2, SetSize cborLen item = (it2, None) → it2 = it') as Eit.
  { intros it2 E2. rewrite E2 in E. done. }
  assert (map_Forall (λ _ it, 0 ≤ Size it)%Z (<[Key item := it']> m)) as Hs'.
  { apply map_Forall_insert_2; [lia|done]. }
  assert (total (<[Key item := it']> m) ≤ Size it' + total m)%Z as Htot.
  { rewrite total_insert, total_delete_key. unfold key_size.
    destruct (m !! Key item) eqn:Ek; [pose proof (Hs _ _ Ek); cbn in *|]; lia. }
  destruct Hins as [er it2 _|hc' it2 E2 _ _ Hmem|hc' it2 er E2 _ Hlim Hmem
    |hc' it2 t' a g E2 _ Hlim _ _ Hmem _]; try apply Eit in E2 as ->.
  - done.
  - split; [by rewrite (sc_max _ _ Hsc)|done|]. rewrite (sc_max _ _ Hsc), Hmem. done.
  - rewrite i64_small in Hlim, Hmem by lia. split; rewrite ?(sc_max _ _ Hsc); [done|done|]. lia.
  - rewrite (i64_small (memoryAllocation hc + Size it')) in Hlim by lia.
    destruct (drop_key_total g _ Hs') as (Htk & Hgs & Hs2). pose proof (total_nonneg _ Hs2).
    split; rewrite ?(sc_max _ _ Hsc); [done|done|]. rewrite Hmem, i64_small; lia.
Qed.

(** ** The background jobs *)

(** The eviction job ends within its bound, and stops only when the backend is
    within its capacity, the quota of evictions is used up, or the algorithm has
    no victim. *)
Lemma evictionJob_ok fuel late evicted hc m t :
  hc_rep hc m t → (0 ≤ evicted ≤ maxEvictionCount hc)%Z →
  (maxEvictionCount hc - evicted < Z.of_nat fuel)%Z →
  ∃ hc' n m' t' err, evictionJob fuel late evicted hc = Some (hc', n, err) ∧
    hc_rep hc' m' t' ∧ same_config hc hc' ∧ m' ⊆ m ∧ (mem_ok hc m → mem_ok hc' m') ∧
    (tracked_stored t m → tracked_stored t' m') ∧
    (late = false → tracked_stored t m →
      err = None ∧ (Z.of_nat (size m') + n = Z.of_nat (size m) + evicted)%Z ∧
      (evicted ≤ n ≤ maxEvictionCount hc)%Z ∧
      ((evicted < n)%Z → (bk_Capacity (backend hc) < i64 (Z.of_nat (S (size m'))))%Z)) ∧
    (err = None → (i64 (Z.of_nat (size m')) ≤ bk_Capacity (backend hc))%Z ∨ n = maxEvictionCount hc ∨
      ∃ a, alg_Evict a = Some (evictionAlgorithm hc', (""%string, false))).
Proof.
  revert evicted hc m t. induction fuel as [|fuel IH]; intros evicted hc m t Hr He Hf; [lia|].
  cbn [evictionJob]. rewrite (bk_Count_law _ _ (rep_stores _ _ _ Hr)).
  destruct (Z.ltb_spec (bk_Capacity (backend hc)) (i64 (Z.of_nat (size m)))) as [Hover|Hwithin]; cbn [negb].
  2:{ eexists _, _, m, t, _. split; [done|]. split_and!; try done; [|auto]. intros _ _. split_and!; lia || done. }
  case_decide as Eq.
  { eexists _, _, m, t, _. split; [done|]. split_and!; try done; [|auto]. intros _ _. split_and!; lia || done. }
  destruct (Evict_law _ _ _ (rep_tracks _ _ _ Hr)) as (a & t1 & r & Hev & Ht1 & Hcase).
  rewrite Hev. cbn [mbind option_bind].
  destruct Hcase as [[-> ->]|(k & -> & Hk & ->)]; cbn [negb].
  { eexists _, _, m, t, _. split; [done|]. split_and!; try done.
    - destruct Hr. by split.
    - intros [? ? ?]. by split.
    - intros _ _. split_and!; lia || done.
    - intros _. right. right. by exists (evictionAlgorithm hc). }
  destruct (hypercache_Remove_victim late k a hc m t Hr Ht1) as (hc1 & t2 & -> & Hr2 & Hsc & Hmem & _ & Hst).
  cbn [mbind option_bind].
  assert (mem_ok hc m → mem_ok hc1 (delete k m)) as Hmo.
  { intros Hmo. apply (mem_ok_remove hc _ _ [k]); [done|apply NoDup_singleton|done|].
    cbn. by rewrite Z.add_0_r. }
  destruct late; cbn [late_error].
  { eexists _, _, _, _, _. split; [done|]. split_and!; [exact Hr2|done|apply delete_subseteq|done|done|done|done]. }
  assert (maxEvictionCount hc1 = maxEvictionCount hc) as Emax by apply Hsc.
  destruct (IH (evicted + 1)%Z hc1 _ _ Hr2)
    as (hc' & n & m' & t' & err & -> & Hr' & Hsc2 & Hsub & Hmo2 & Hst2 & Hn & Hpost); [lia|lia|].
  eexists _, n, m', t', _. split; [done|]. split_and!.
  - done.
  - by etrans.
  - etrans; [exact Hsub|]. apply delete_subseteq.
  - auto.
  - auto.
  - intros E Hd. destruct (Hn E (Hst Hd)) as (? & Hsz & Hrange & Hmin).
    assert (is_Some (m !! k)) as Hkm by (by apply elem_of_dom, Hd, elem_of_dom).
    rewrite map_size_delete_Some in Hsz by done.
    assert (size m ≠ 0). { apply map_size_non_empty_iff. intros ->. by destruct Hkm. }
    split_and!; [done|lia|lia|lia|]. intros _.
    destruct (decide (n = evicted + 1)%Z) as [->|]; [|rewrite <- (sc_capacity _ _ Hsc); apply Hmin; lia].
    replace (S (size m')) with (size m) by lia. done.
  - intros E. rewrite (sc_capacity _ _ Hsc), Emax in Hpost. by apply Hpost.
Qed.

Lemma expireItems_ok late its n hc m t :
  hc_rep hc m t →
  ∃ hc' n' m' t' err, expireItems late its n hc = Some (hc', n', err) ∧ hc_rep hc' m' t' ∧
    same_config hc hc' ∧ (mem_ok hc m → mem_ok hc' m') ∧
    (tracked_stored t m → tracked_stored t' m') ∧
    (late = false → err = None ∧ m' = delete_all (Key <$> its) m ∧
      n' = (n + Z.of_nat (length its))%Z).
Proof.
  revert n hc m t. induction its as [|it its IH]; intros n hc m t Hr; cbn [expireItems].
  { eexists _, _, m, t, _. split; [done|]. split_and!; try done. intros _. split_and!; cbn; done || lia. }
  destruct (hypercache_Remove_ok late [Key it] _ _ _ Hr) as (hc1 & t1 & -> & Hr1 & Hsc & Hmem & _ & Hex).
  cbn [mbind option_bind].
  assert (mem_ok hc m → mem_ok hc1 (delete_all [Key it] m)) as Hmo.
  { intros Hmo. by apply (mem_ok_remove hc hc1 m [Key it] Hmo); [apply NoDup_singleton|..]. }
  assert (tracked_stored t m → tracked_stored t1 (delete_all [Key it] m)) as Hst.
  { intros Hd. rewrite (Hex Hd). by apply dom_sub_delete_all. }
  destruct late; cbn [late_error].
  { eexists _, _, _, _, _. split; [done|]. by split_and!. }
  destruct (IH (n + 1)%Z hc1 _ _ Hr1) as (hc' & n' & m' & t' & err & -> & Hr' & Hsc2 & Hmo2 & Hst2 & Hn).
  eexists _, _, m', t', _. split; [done|]. split_and!; [done|by etrans|auto|auto|].
  intros E. destruct (Hn E) as (-> & -> & ->). split_and!; cbn; done || lia.
Qed.

(** ** Runs *)

Lemma deleteTracked_ok its a t :
  tracks cap a t → ∃ a', deleteTracked its a = Some a' ∧ tracks cap a' (delete_all (Key <$> its) t).
Proof.
  revert a t. induction its as [|it its IH]; intros a t Ht; cbn; [eauto|].
  destruct (Delete_law _ _ _ (Key it) Ht) as (a1 & -> & Ht1). cbn. by apply IH.
Qed.

(** A [Clear] in time empties the backend and forgets what it listed; with a
    cancelled context it empties the backend, keeps the counter and the tracked
    keys, and reports an error. *)
Lemma Clear_ok late hc m t :
  hc_rep hc m t → ∃ hc' t', Clear late hc = Some (hc', late_error late) ∧ hc_rep hc' ∅ t' ∧
    same_config hc hc' ∧ memoryAllocation hc' = (if late then memoryAllocation hc else 0%Z) ∧
    (late = true → t' = t) ∧ (late = false → tracked_stored t m → t' = ∅).
Proof.
  intros Hr. pose proof Hr as [Hs Ht Hm]. unfold Clear.
  destruct (bk_List_law _ _ [] Hs) as (l & Hp & ->). cbn [mbind option_bind applyFilters].
  destruct (bk_Clear_law _ _ late Hs) as (b & -> & Hs' & Hc). cbn [mbind option_bind].
  destruct late; cbn [late_error].
  { eexists _, t. split; [done|]. by split_and!. }
  cbn [evictionAlgorithm with_backend].
  destruct (deleteTracked_ok l _ _ Ht) as (a & -> & Ht'). cbn [mbind option_bind].
  eexists _, _. split; [done|]. split_and!; [by split|by split|done|done|].
  intros _ Hd. apply map_eq. intros k. rewrite delete_all_lookup, lookup_empty. case_decide as Hk; [done|].
  apply not_elem_of_dom. intros Hin%Hd%elem_of_dom. by apply Hk, (listed_keys m); [apply (stores_map_keys _ _ Hs)|..].
Qed.

Inductive hop :=
  | HSet (now : Z) (pick : nat) (late : bool) (key : string) (value : any) (expiration : Z)
  | HGet (now : Z) (key : string)
  | HGetWithInfo (now : Z) (key : string)
  | HGetOrSet (now : Z) (pick : nat) (late : bool) (key : string) (value : any) (expiration : Z)
  | HGetMultiple (now : Z) (keys : list string)
  | HRemove (late : bool) (keys : list string)
  | HClear (late : bool)
  | HSetCapacity (capacity : Z)
  | HEvictionLoop (late : bool)
  | HExpirationLoop (now : Z) (late : bool)
  | HTriggerExpiration (now : Z).

Definition hstep (o : hop) hc : option (HyperCache B A) :=
  match o with
  | HSet now pick late k v d => r ← Set_ cborLen now pick late k v d hc; Some r.1
  | HGet now k => r ← Get now k hc; Some r.1
  | HGetWithInfo now k => r ← GetWithInfo now k hc; Some r.1
  | HGetOrSet now pick late k v d => r ← GetOrSet cborLen now pick late k v d hc; Some r.1
  | HGetMultiple now ks => r ← GetMultiple now ks hc; Some r.1
  | HRemove late ks => r ← Remove late ks hc; Some r.1
  | HClear late => r ← Clear late hc; Some r.1
  | HSetCapacity n => Some (SetCapacity n hc).1
  | HEvictionLoop late => r ← evictionLoop late hc; Some r.1.1
  | HExpirationLoop now late => r ← expirationLoop now late hc; Some r.1.1
  | HTriggerExpiration now => Some (with_trigger (execTriggerExpiration now (trigger hc)) hc)
  end.

Fixpoint hrun (os : list hop) hc : option (HyperCache B A) :=
  match os with [] => Some hc | o :: os => hc ← hstep o hc; hrun os hc end.

(** The operations whose accounting is exact: removals name a key once, and the
    values written have a size below 2^62. *)
Definition sized (now : Z) (k : string) (v : any) (d : Z) : Prop :=
  (0 ≤ Size (SetSize cborLen (newItem now k v d)).1 < 2 ^ 62)%Z.
Definition hop_sized (o : hop) : Prop :=
  match o with
  | HSet now _ _ k v d | HGetOrSet now _ _ k v d => sized now k v d
  | HRemove _ ks => NoDup ks
  | _ => True
  end.

(** Not a [Clear] whose context is cancelled. *)
Definition hop_in_time (o : hop) : Prop := match o with HClear late => late = false | _ => True end.

(** What a step does to the state: never a panic, the limits kept, the accounting
    kept by a step of known size, and stale tracking only from a late [Clear]. *)
Definition step_keeps (o : hop) hc m t (r : option (HyperCache B A)) : Prop :=
  ∃ hc' m' t', r = Some hc' ∧ hc_rep hc' m' t' ∧ same_limits hc hc' ∧
    (hop_sized o → mem_ok hc m → mem_ok hc' m') ∧
    (hop_in_time o → tracked_stored t m → tracked_stored t' m').

Lemma hypercache_hstep_insert o hc m t pick late now k v d r :
  hc_rep hc m t → (hop_sized o → sized now k v d) → hop_in_time o →
  (insertItem cborLen pick late (newItem now k v d) hc = r) →
  step_keeps o hc m t (fst <$> r).
Proof.
  intros Hr Hz Ho <-. destruct (insertItem_ok pick late (newItem now k v d) hc m t Hr)
    as (hc' & m' & t' & err & -> & Hr' & Hsc & Hins & Hst). cbn.
  eexists _, _, _. split_and!; [done|done|by apply same_config_limits| |auto].
  intros Hso Hmo. eapply mem_ok_inserted; [done|done|done|done|by apply Hz].
Qed.

Lemma hypercache_hstep_read o hc hc' m m' t now :
  hc_rep hc' m' t → same_config hc hc' → memoryAllocation hc' = memoryAllocation hc →
  touches now m m' → step_keeps o hc m t (Some hc').
Proof.
  intros Hr Hsc Hmem Hto. exists hc', m', t. split_and!; [done|done|by apply same_config_limits|..].
  - intros _ Hmo. by eapply mem_ok_same.
  - intros _. by eapply touches_stored.
Qed.

Lemma hypercache_hstep_GetOrSet now pick late k v d hc m t :
  hc_rep hc m t → step_keeps (HGetOrSet now pick late k v d) hc m t (hstep (HGetOrSet now pick late k v d) hc).
Proof.
  intros Hr. cbn [hstep]. unfold GetOrSet.
  destruct (read_ok k _ _ _ Hr) as (b & -> & Hr1 & Hsc1 & Htr). cbn [mbind option_bind].
  destruct (m !! k) as [it|].
  - destruct (Expired now it).
    + destruct (Htr (execTriggerExpiration now (trigger (with_backend b hc)))) as [Hr2 Hsc2]. cbn.
      by eapply (hypercache_hstep_read _ _ _ m m t now); [exact Hr2|..|apply rtc_refl].
    + destruct (touchItem_ok now k it _ _ _ Hr1) as (hc' & -> & Hr' & Hsc & Hmem). cbn.
      eapply (hypercache_hstep_read _ _ _ m _ t now); [exact Hr'|by etrans|done|]. apply rtc_once. by eexists.
  - destruct (hypercache_hstep_insert (HGetOrSet now pick late k v d) _ m t pick late now k v d _ Hr1 id I eq_refl)
      as (hc' & m' & t' & Hins & Hr' & Hsl & Hmo & Hst).
    destruct (insertItem _ _ _ _ _) as [[hc2 err]|]; [|done]. cbn in Hins. simplify_eq. cbn [mbind option_bind].
    assert (mem_ok hc m → mem_ok (with_backend b hc) m) as Hmb.
    { intros Hmo'. by eapply (mem_ok_same hc _ now m); [..|apply rtc_refl]. }
    destruct err; cbn; exists hc', m', t'; (split_and!; [done|done| |auto|auto]);
      (etrans; [by apply same_config_limits|done]).
Qed.

Lemma SetCapacity_ok n hc m t :
  hc_rep hc m t → hc_rep (SetCapacity n hc).1 m t ∧ same_limits hc (SetCapacity n hc).1 ∧
    memoryAllocation (SetCapacity n hc).1 = memoryAllocation hc.
Proof.
  intros [Hs Ht Hm]. destruct (bk_SetCapacity_law _ _ n Hs) as [Hs' _]. by split_and!.
Qed.

Lemma hypercache_hstep_ok o hc m t :
  hc_rep hc m t → (0 ≤ maxEvictionCount hc)%Z → step_keeps o hc m t (hstep o hc).
Proof.
  intros Hr Hmax. destruct o as [now pick late k v d|now k|now k|now pick late k v d|now ks|late ks|late|n|late|now late|now];
    cbn [hstep].
  - unfold Set_. apply (hypercache_hstep_insert (HSet now pick late k v d) hc m t pick late now k v d _ Hr id I eq_refl).
  - destruct (hypercache_Get_ok now k hc m t Hr) as (hc' & m' & -> & Hr' & Hsc & Hmem & Hto).
    by eapply hypercache_hstep_read.
  - destruct (GetWithInfo_ok now k hc m t Hr) as (hc' & m' & r & -> & _ & Hr' & Hsc & Hmem & Hto).
    by eapply hypercache_hstep_read.
  - by apply hypercache_hstep_GetOrSet.
  - unfold GetMultiple. destruct (getMultipleLoop_ok now ks ∅ ∅ hc m t Hr)
      as (hc' & m' & r & f & -> & Hr' & Hsc & Hmem & Hto). by eapply hypercache_hstep_read.
  - destruct (hypercache_Remove_ok late ks hc m t Hr) as (hc' & t' & -> & Hr' & Hsc & Hmem & _ & Hex). cbn.
    eexists _, _, _. split_and!; [done|done|by apply same_config_limits|..].
    + intros Hn Hmo. by eapply mem_ok_remove.
    + intros _ Hd. rewrite (Hex Hd). by apply dom_sub_delete_all.
  - destruct (Clear_ok late hc m t Hr) as (hc' & t' & -> & Hr' & Hsc & Hmem & _ & Hin). cbn.
    eexists _, _, _. split_and!; [done|done|by apply same_config_limits|..].
    + intros _ [Hl Hs Ht]. pose proof (total_nonneg _ Hs).
      split; rewrite ?(sc_max _ _ Hsc); [done|apply map_Forall_empty|].
      rewrite total_empty, Hmem. destruct late; lia.
    + cbn. intros E Hd. by rewrite (Hin E Hd).
  - destruct (SetCapacity_ok n hc m t Hr) as (Hr' & Hsl & Hmem). exists (SetCapacity n hc).1, m, t.
    split_and!; [done..| |done]. intros _ [Hl Hs Ht]. by split; rewrite ?(sl_max _ _ Hsl), ?Hmem.
  - unfold evictionLoop. destruct (evictionJob_ok (S (Z.to_nat (maxEvictionCount hc))) late 0 hc m t Hr)
      as (hc' & n & m' & t' & err & -> & Hr' & Hsc & _ & Hmo & Hst & _); [lia|lia|]. cbn.
    eexists _, _, _. split_and!; [done|done|by apply same_config_limits|auto|auto].
  - unfold expirationLoop, List_.
    destruct (bk_List_law _ _ [WithSortBy "Expiration"; WithFilterFunc (expiredFilter now)]
      (rep_stores _ _ _ Hr)) as (l & _ & ->). cbn [mbind option_bind].
    destruct (applyFilters e _ l) as [its|er]; cbn [mbind option_bind].
    + destruct (expireItems_ok late its 0 hc m t Hr) as (hc' & n & m' & t' & err & -> & Hr' & Hsc & Hmo & Hst & _).
      cbn. eexists _, _, _. split_and!; [done|done|by apply same_config_limits|auto|auto].
    + cbn. by eexists _, _, _; split_and!.
  - eexists _, m, t. split; [done|]. destruct Hr. split_and!; [by split|by split| |done]. intros _ [? ? ?]. by split.
Qed.

Lemma hypercache_hrun_ok os hc m t :
  hc_rep hc m t → (0 ≤ maxEvictionCount hc)%Z →
  ∃ hc' m' t', hrun os hc = Some hc' ∧ hc_rep hc' m' t' ∧ same_limits hc hc' ∧
    (Forall hop_sized os → mem_ok hc m → mem_ok hc' m') ∧
    (Forall hop_in_time os → tracked_stored t m → tracked_stored t' m').
Proof.
  revert hc m t. induction os as [|o os IH]; intros hc m t Hr Hmax; cbn [hrun].
  { exists hc, m, t. by split_and!. }
  destruct (hypercache_hstep_ok o hc m t Hr Hmax) as (hc1 & m1 & t1 & -> & Hr1 & Hsc1 & Hmo1 & Hst1).
  cbn [mbind option_bind].
  destruct (IH hc1 m1 t1 Hr1) as (hc2 & m2 & t2 & -> & Hr2 & Hsc2 & Hmo2 & Hst2).
  { by rewrite (sl_count _ _ Hsc1). }
  exists hc2, m2, t2. split_and!; [done|done|by etrans|..]; intros [Ho Hos]%Forall_cons; auto.
Qed.

End Facts.
