(* ===== verification/Construct.v ===== *)
(** * Building an in-memory cache, and its end-to-end theorems
    (hypercache.go, hypercache_construct.go, hypercache_eviction.go, config.go)

    [New] for the in-memory backend: the options, the derived eviction settings,
    the choice of a plain or a sharded eviction algorithm.  The theorems are those
    of HyperCache.v for the caches this builds. *)

From stdpp Require Import base gmap strings list fin_maps sorting.
From Stdlib Require Import ZArith Lia.
From S2P Require Import Prelude Item Algorithm CMap Backend Eviction HyperCache.

(** ** The configured algorithm *)

(** [evictionAlgorithm] is a plain algorithm or a sharded one. *)
Inductive AnyAlgorithm := Plain (a : Algorithm) | Shards (s : Sharded).

Section AnyAlgorithm.
Context (sum64 : string → Z).

#[global] Instance Any_IAlgorithm : IAlgorithm AnyAlgorithm := {
  alg_Evict := λ x, match x with
    | Plain a => '(a, r) ← alg_Evict a; Some (Plain a, r)
    | Shards s => '(s, r) ← sharded_Evict s; Some (Shards s, r) end;
  alg_Set := λ pick k v x, match x with
    | Plain a => a ← alg_Set pick k v a; Some (Plain a)
    | Shards s => s ← sharded_Set sum64 pick k v s; Some (Shards s) end;
  alg_Get := λ k x, match x with
    | Plain a => '(a, r) ← alg_Get k a; Some (Plain a, r)
    | Shards s => '(s, r) ← sharded_Get sum64 k s; Some (Shards s, r) end;
  alg_Delete := λ k x, match x with
    | Plain a => a ← alg_Delete k a; Some (Plain a)
    | Shards s => s ← sharded_Delete sum64 k s; Some (Shards s) end }.

Definition any_tracks (cap : nat) (x : AnyAlgorithm) (m : gmap string any) : Prop :=
  match x with
  | Plain a => tracks cap a m
  | Shards s => ∃ per n, sharded_tracks sum64 per n cap s m
  end.

#[global] Program Instance Any_Laws : AlgorithmLaws AnyAlgorithm := {| tracks := any_tracks |}.
Next Obligation.
  intros cap [a|s] m Ht; [by eapply tracks_size|]. destruct Ht as (per & n & Ht). by eapply sharded_tracks_size.
Qed.
Next Obligation.
  intros cap [a|s] m k Ht; cbn [alg_Get Any_IAlgorithm].
  - destruct (Get_law _ _ _ k Ht) as (a' & -> & Ht'). cbn. by exists (Plain a').
  - destruct Ht as (per & n & Ht).
    destruct (Get_law (AlgorithmLaws := Sharded_Laws sum64 per n) _ _ _ k Ht) as (s' & Hs & Ht').
    cbn in Hs. rewrite Hs. cbn. exists (Shards s'). split; [done|]. by exists per, n.
Qed.
Next Obligation.
  intros cap [a|s] m pick k v Ht; cbn [alg_Set Any_IAlgorithm].
  - destruct (Set_law _ _ _ pick k v Ht) as (a' & m' & -> & Ht' & ?). cbn. by exists (Plain a'), m'.
  - destruct Ht as (per & n & Ht).
    destruct (Set_law (AlgorithmLaws := Sharded_Laws sum64 per n) _ _ _ pick k v Ht) as (s' & m' & Hs & Ht' & ?).
    cbn in Hs. rewrite Hs. cbn. exists (Shards s'), m'. split; [done|]. split; [by exists per, n|done].
Qed.
Next Obligation.
  intros cap [a|s] m Ht; cbn [alg_Evict Any_IAlgorithm].
  - destruct (Evict_law _ _ _ Ht) as (a' & m' & r & -> & Ht' & ?). cbn. by exists (Plain a'), m', r.
  - destruct Ht as (per & n & Ht).
    destruct (Evict_law (AlgorithmLaws := Sharded_Laws sum64 per n) _ _ _ Ht) as (s' & m' & r & Hs & Ht' & ?).
    cbn in Hs. rewrite Hs. cbn. exists (Shards s'), m', r. split; [done|]. split; [by exists per, n|done].
Qed.
Next Obligation.
  intros cap [a|s] m k Ht; cbn [alg_Delete Any_IAlgorithm].
  - destruct (Delete_law _ _ _ k Ht) as (a' & -> & Ht'). cbn. by exists (Plain a').
  - destruct Ht as (per & n & Ht).
    destruct (Delete_law (AlgorithmLaws := Sharded_Laws sum64 per n) _ _ _ k Ht) as (s' & Hs & Ht').
    cbn in Hs. rewrite Hs. cbn. exists (Shards s'). split; [done|]. by exists per, n.
Qed.

End AnyAlgorithm.

(** ** Configuration *)

(** The fields of [HyperCache] that options write. *)
Record Settings := MkSettings {
  s_evictionInterval : Z;
  s_expirationInterval : Z;
  s_evictionAlgorithmName : string;
  s_evictionShardCount : Z;
  s_maxEvictionCount : Z;
  s_maxCacheSize : Z;
  s_triggerBufSize : Z;
  s_debounce : Z }.

Inductive Option :=
  | WithMaxCacheSize (n : Z)
  | WithEvictionShardCount (n : Z)
  | WithEvictionAlgorithm (name : string)
  | WithExpirationInterval (d : Z)
  | WithEvictionInterval (d : Z)
  | WithExpirationTriggerBuffer (n : Z)
  | WithExpirationTriggerDebounce (d : Z)
  | WithMaxEvictionCount (n : Z).

Definition applyOption (s : Settings) (o : Option) : Settings :=
  match o with
  | WithMaxCacheSize n =>
      MkSettings (s_evictionInterval s) (s_expirationInterval s) (s_evictionAlgorithmName s)
        (s_evictionShardCount s) (s_maxEvictionCount s) (if (n <? 0)%Z then 0%Z else n)
        (s_triggerBufSize s) (s_debounce s)
  | WithEvictionShardCount n =>
      MkSettings (s_evictionInterval s) (s_expirationInterval s) (s_evictionAlgorithmName s) n
        (s_maxEvictionCount s) (s_maxCacheSize s) (s_triggerBufSize s) (s_debounce s)
  | WithEvictionAlgorithm name =>
      MkSettings (s_evictionInterval s) (s_expirationInterval s) name (s_evictionShardCount s)
        (s_maxEvictionCount s) (s_maxCacheSize s) (s_triggerBufSize s) (s_debounce s)
  | WithExpirationInterval d =>
      MkSettings (s_evictionInterval s) d (s_evictionAlgorithmName s) (s_evictionShardCount s)
        (s_maxEvictionCount s) (s_maxCacheSize s) (s_triggerBufSize s) (s_debounce s)
  | WithEvictionInterval d =>
      MkSettings d (s_expirationInterval s) (s_evictionAlgorithmName s) (s_evictionShardCount s)
        (s_maxEvictionCount s) (s_maxCacheSize s) (s_triggerBufSize s) (s_debounce s)
  | WithExpirationTriggerBuffer n =>
      MkSettings (s_evictionInterval s) (s_expirationInterval s) (s_evictionAlgorithmName s)
        (s_evictionShardCount s) (s_maxEvictionCount s) (s_maxCacheSize s) n (s_debounce s)
  | WithExpirationTriggerDebounce d =>
      MkSettings (s_evictionInterval s) (s_expirationInterval s) (s_evictionAlgorithmName s)
        (s_evictionShardCount s) (s_maxEvictionCount s) (s_maxCacheSize s) (s_triggerBufSize s) d
  | WithMaxEvictionCount n =>
      MkSettings (s_evictionInterval s) (s_expirationInterval s) (s_evictionAlgorithmName s)
        (s_evictionShardCount s) n (s_maxCacheSize s) (s_triggerBufSize s) (s_debounce s)
  end.

(** [newHyperCacheBase]: ten and thirty minutes in nanoseconds, 32 shards. *)
Definition baseSettings : Settings :=
  MkSettings 600000000000 1800000000000 "" 32 0 0 0 0.

(** [configureEvictionSettings]: [shouldEvict] and the default of
    [maxEvictionCount] ([converters.ToUint] fails on a negative capacity). *)
Definition configureEvictionSettings (s : Settings) (cap : Z) : bool * Z :=
  (((s_evictionInterval s =? 0) && (0 <? cap))%Z,
   if (s_maxEvictionCount s =? 0)%Z then (if (cap <? 0)%Z then 1%Z else cap)
   else s_maxEvictionCount s).

Definition initEvictionAlgorithm (name : string) (maxEvictionCount shardCount : Z)
    : result AnyAlgorithm :=
  if (2 ^ 63 - 1 <? maxEvictionCount)%Z then Err (ErrOther "integer overflow")
  else
    let algorithmName := if decide (name = ""%string) then "lru"%string else name in
    if (1 <? shardCount)%Z
    then result_map Shards (NewSharded algorithmName maxEvictionCount shardCount)
    else result_map Plain (NewEvictionAlgorithm algorithmName maxEvictionCount).

(** [New] for the in-memory backend with capacity [cap] (the check of
    [checkCapacity] repeats that of [NewInMemory]). *)
Definition New (cap : Z) (opts : list Option) : result (HyperCache InMemory AnyAlgorithm) :=
  match NewInMemory cap with
  | Err er => Err er
  | Ok b =>
      let s := foldl applyOption baseSettings opts in
      let '(shouldEvict, maxEvictionCount) := configureEvictionSettings s (capacity b) in
      match initEvictionAlgorithm (s_evictionAlgorithmName s) maxEvictionCount
              (s_evictionShardCount s) with
      | Err er => Err er
      | Ok a =>
          if (capacity b <? 0)%Z then Err ErrInvalidCapacity
          else Ok (MkHC b a 0 (s_maxCacheSize s) shouldEvict maxEvictionCount (s_evictionInterval s)
            (MkTrigger (s_debounce s) 0 false 0
              (Z.to_nat (initExpirationTrigger (capacity b) (s_triggerBufSize s)))))
      end
  end.

Lemma initEvictionAlgorithm_tracks sum64 name n ns a :
  initEvictionAlgorithm name n ns = Ok a → (n + ns < 2 ^ 63)%Z →
  ∃ cap, any_tracks sum64 cap a ∅ ∧ (0 ≤ n)%Z.
Proof.
  unfold initEvictionAlgorithm. destruct (_ <? n)%Z; [done|]. set (nm := if decide _ then _ else _).
  destruct (Z.ltb_spec 1 ns) as [Hs|Hs].
  - destruct (NewSharded nm n ns) as [s|] eqn:E; [|done]. intros [= <-] Hb.
    destruct (NewSharded_rep sum64 _ _ _ _ E Hb) as [Hl Hr].
    assert (0 ≤ n)%Z.
    { unfold NewSharded in E. destruct (_ || _); [done|]. by destruct (Z.ltb_spec n 0). }
    eexists. split; [|done]. eexists _, _. eexists. split; [split; [done|done]|]. split; [exact Hr|].
    by rewrite union_replicate_empty.
  - destruct (NewEvictionAlgorithm nm n) as [a'|] eqn:E; [|done]. intros [= <-] _.
    destruct (NewEvictionAlgorithm_ok _ _ _ E) as (_ & ? & Ht). eauto.
Qed.

(** ** End to end *)

(** A cache over the in-memory backend: what it stores and what it tracks. *)
Definition cache_state (e : env) (hc : HyperCache InMemory AnyAlgorithm) (m : gmap string Item)
    (t : gmap string any) : Prop :=
  im_stores e (backend hc) m ∧ (∃ cap, any_tracks (sum64 e) cap (evictionAlgorithm hc) t) ∧
  dom t ⊆ dom m ∧ i64 (memoryAllocation hc) = memoryAllocation hc ∧ (0 ≤ maxEvictionCount hc)%Z.

(** The same without the promise that what is tracked is stored: all that is left
    once a [Clear] has run with a cancelled context. *)
Definition cache_holds (e : env) (hc : HyperCache InMemory AnyAlgorithm) (m : gmap string Item)
    (t : gmap string any) : Prop :=
  im_stores e (backend hc) m ∧ (∃ cap, any_tracks (sum64 e) cap (evictionAlgorithm hc) t) ∧
  i64 (memoryAllocation hc) = memoryAllocation hc ∧ (0 ≤ maxEvictionCount hc)%Z.

Section EndToEnd.
Context (e : env) (He : env_ok e) (cborLen : any → option Z).

#[local] Instance backend_inst : IBackend InMemory := InMemory_IBackend e.
#[local] Instance backend_laws : BackendLaws InMemory e := InMemory_Laws e He.
#[local] Instance alg_inst : IAlgorithm AnyAlgorithm := Any_IAlgorithm (sum64 e).
#[local] Instance alg_laws : AlgorithmLaws AnyAlgorithm := Any_Laws (sum64 e).

Definition run_cache (os : list hop) (hc : HyperCache InMemory AnyAlgorithm)
    : option (HyperCache InMemory AnyAlgorithm) := hrun cborLen os hc.

Lemma cache_state_rep hc m t :
  cache_state e hc m t ↔ ∃ cap, hc_rep e cap hc m t ∧ tracked_stored t m ∧ (0 ≤ maxEvictionCount hc)%Z.
Proof.
  split.
  - intros (Hs & (cap & Ht) & Hd & Hm & Hmax). exists cap. by split.
  - intros (cap & [Hs Ht Hm] & Hd & Hmax). split_and!; try done. by exists cap.
Qed.

Lemma cache_holds_rep cap hc m t :
  hc_rep e cap hc m t → (0 ≤ maxEvictionCount hc)%Z → cache_holds e hc m t.
Proof. intros [Hs Ht Hm] Hmax. split_and!; try done. by exists cap. Qed.

(** What [New] returns is an empty cache. *)
Lemma New_state opts cap hc :
  New cap opts = Ok hc →
  (maxEvictionCount hc + s_evictionShardCount (foldl applyOption baseSettings opts) < 2 ^ 63)%Z →
  cache_state e hc ∅ ∅ ∧ memoryAllocation hc = 0%Z.
Proof.
  unfold New. destruct (NewInMemory cap) as [b|] eqn:Eb; [|done].
  destruct (NewInMemory_stores e cap b Eb) as [Hs Hc].
  set (s := foldl _ _ _). destruct (configureEvictionSettings s (capacity b)) as [se n].
  destruct (initEvictionAlgorithm _ _ _) as [a|] eqn:Ea; [|done].
  destruct (capacity b <? 0)%Z; [done|]. intros [= <-] Hb. cbn in Hb.
  destruct (initEvictionAlgorithm_tracks (sum64 e) _ _ _ _ Ea Hb) as (acap & Ht & Hn).
  split; [|done]. split_and!; cbn; [done|by exists acap|done|done|done].
Qed.

(** What any run from a new cache leaves. *)
Lemma run_from_New opts cap hc0 os :
  New cap opts = Ok hc0 →
  (maxEvictionCount hc0 + s_evictionShardCount (foldl applyOption baseSettings opts) < 2 ^ 63)%Z →
  ∃ hc m t, run_cache os hc0 = Some hc ∧ cache_holds e hc m t ∧ same_limits hc0 hc ∧
    (Forall (hop_sized cborLen) os → mem_ok hc0 ∅ → mem_ok hc m) ∧
    (Forall hop_in_time os → tracked_stored t m).
Proof.
  intros Hn Hb. destruct (New_state _ _ _ Hn Hb) as [Hst _].
  apply cache_state_rep in Hst as (acap & Hr & Hd & Hmax).
  destruct (hypercache_hrun_ok e cborLen acap os hc0 ∅ ∅ Hr Hmax) as (hc & m & t & Hrun & Hr' & Hsl & Hmo & Hst).
  exists hc, m, t. split_and!; [done| |done|done|auto]. eapply cache_holds_rep; [done|].
  by rewrite (sl_count _ _ Hsl).
Qed.



(** [Remove] subtracts the size of a stored key once for every time it is named,
    though the key is removed once. *)
Theorem hypercache_double_removal (hc : HyperCache InMemory AnyAlgorithm) (m : gmap string Item)
    (t : gmap string any) (late : bool) (k : string) (it : Item) :
  cache_state e hc m t → m !! k = Some it →
  ∃ hc' t', Remove late [k; k] hc = Some (hc', late_error late) ∧ cache_state e hc' (delete k m) t' ∧
    memoryAllocation hc' = i64 (memoryAllocation hc - 2 * Size it).
Proof.
  intros (acap & Hr & Hd & Hmax)%cache_state_rep Hk.
  destruct (hypercache_Remove_ok e acap late [k; k] hc m t Hr) as (hc' & t' & -> & Hr' & Hsc & Hmem & _ & Hex).
  exists hc', t'. rewrite (Hex Hd) in *. split_and!; [done|..].
  - apply cache_state_rep. exists acap. cbn [delete_all] in *. rewrite !delete_delete_eq in *.
    split_and!; [done| |by rewrite (sc_count _ _ Hsc)].
    unfold tracked_stored in *. rewrite !dom_delete_L. set_solver.
  - rewrite Hmem. cbn. unfold key_size. rewrite Hk. f_equal. lia.
Qed.

(** What [Get] answers. *)
Definition get_answer (now : Z) (m : gmap string Item) (k : string) : any * bool :=
  match live now m k with Some v => (v, true) | None => (ANil, false) end.

Lemma Get_answer now k hc m t :
  cache_state e hc m t → snd <$> Get now k hc = Some (get_answer now m k).
Proof.
  intros (acap & Hr & _ & _)%cache_state_rep. destruct (hypercache_Get_ok e acap now k hc m t Hr) as (hc' & m' & -> & _).
  cbn. f_equal. unfold get_answer. by destruct (live now m k).
Qed.

(** C8: What a [Set] changes, in any context, cancelled or not.  A successful [Set]
    of [k] is visible: a later read of [k] answers the new value until its idle time
    exceeds the expiration, and every other key reads as before, except for at most
    one key that is given up.  That key is exactly the victim the eviction algorithm
    names after recording [k], and there is one only when the cache evicts on writes
    and then holds more items than its capacity: the key just written is lost when
    (and only when) the algorithm names it.  A [Set] that reports an error changes
    no answer at all. *)
Theorem hypercache_set_visible (hc : HyperCache InMemory AnyAlgorithm) (m : gmap string Item)
    (t : gmap string any) (now now' : Z) (pick : nat) (late : bool) (k : string) (v : any) (d : Z) :
  cache_state e hc m t →
  ∃ hc' err, Set_ cborLen now pick late k v d hc = Some (hc', err) ∧
    (err = None → ∃ a, alg_Set pick k v (evictionAlgorithm hc) = Some a ∧
       ∀ k', snd <$> Get now' k' hc' = Some (
         if decide (victim hc (size ({[k]} ∪ dom m)) a = Some k') then (ANil, false)
         else if decide (k' = k)
         then (if ((0 <? d) && (d <? sat64 (now' - now)))%Z then (ANil, false) else (v, true))
         else get_answer now' m k')) ∧
    (err ≠ None → ∀ k', snd <$> Get now' k' hc' = Some (get_answer now' m k')).
Proof.
  intros Hst. pose proof Hst as (acap & Hr & Hd & Hmax)%cache_state_rep. unfold Set_.
  destruct (insertItem_ok e cborLen acap pick late (newItem now k v d) hc m t Hr)
    as (hc' & m' & t' & err & Hins & Hr' & Hsc & Hcase & Hst').
  exists hc', err. split; [exact Hins|].
  assert (cache_state e hc' m' t') as Hcs.
  { apply cache_state_rep. exists acap. split_and!; [done|auto|]. by rewrite (sc_count _ _ Hsc). }
  destruct Hcase as [er it' E|hc' it' E _ _ _|hc' it' er E _ _ _|hc' it' t' a g E _ _ Ha Hg _ _];
    (split; [intros Herr|intros Herr k'; try done]); try done;
    [by rewrite (Get_answer _ _ _ _ _ Hcs)..|].
  exists a. split; [exact Ha|]. intros k'. rewrite (Get_answer _ _ _ _ _ Hcs). f_equal.
  destruct (SetSize_fields _ _ _ _ E) as (_ & Ev & El & Ee).
  change (Key (newItem now k v d)) with k in *.
  replace (size ({[k]} ∪ dom m)) with (size (<[k := it']> m)) by (by rewrite <- size_dom, dom_insert_L).
  rewrite <- Hg. unfold get_answer, live, drop_key.
  assert (∀ k', (it ← <[k := it']> m !! k'; if Expired now' it then None else Some (Value it)) =
    if decide (k' = k)
    then (if ((0 <? d) && (d <? sat64 (now' - now)))%Z then None else Some v)
    else (it ← m !! k'; if Expired now' it then None else Some (Value it))) as Hans.
  { intros k2. rewrite lookup_insert. destruct (decide (k = k2)) as [<-|].
    - rewrite decide_True by done. cbn [mbind option_bind]. unfold Expired. by rewrite Ee, El, Ev.
    - by rewrite decide_False by done. }
  destruct g as [g|]; [destruct (decide (Some g = Some k')) as [[= <-]|Hne]|].
  - by rewrite lookup_delete_eq.
  - rewrite lookup_delete_ne by congruence. rewrite Hans. case_decide; [by case_match|done].
  - rewrite (decide_False (P := None = Some _)) by done. rewrite Hans. case_decide; [by case_match|done].
Qed.

(** C10: The eviction job terminates with its fuel, evicts no more than its quota,
    never takes the backend below its capacity, and stops only because the
    backend is within its capacity, the quota is used up, or the eviction
    algorithm has no victim left.  The survivors are unchanged. *)
Theorem hypercache_eviction_job (hc : HyperCache InMemory AnyAlgorithm) (m : gmap string Item)
    (t : gmap string any) :
  cache_state e hc m t →
  ∃ hc' n m' t', evictionLoop false hc = Some (hc', n, None) ∧ cache_state e hc' m' t' ∧
    m' ⊆ m ∧ (Z.of_nat (size m') + n = Z.of_nat (size m))%Z ∧ (0 ≤ n ≤ maxEvictionCount hc)%Z ∧
    ((0 < n)%Z → (bk_Capacity (backend hc) < i64 (Z.of_nat (S (size m'))))%Z) ∧
    ((i64 (Z.of_nat (size m')) ≤ bk_Capacity (backend hc))%Z ∨ n = maxEvictionCount hc ∨
      ∃ a, alg_Evict a = Some (evictionAlgorithm hc', (""%string, false))).
Proof.
  intros Hst. pose proof Hst as (acap & Hr & Hd & Hmax)%cache_state_rep. unfold evictionLoop.
  destruct (evictionJob_ok e acap (S (Z.to_nat (maxEvictionCount hc))) false 0 hc m t Hr)
    as (hc' & n & m' & t' & err & -> & Hr' & Hsc & Hsub & _ & Hst' & Hn & Hpost); [lia|lia|].
  destruct (Hn eq_refl Hd) as (-> & Hsz & Hrange & Hmin). exists hc', n, m', t'.
  split_and!; [done|..|done|lia|lia|lia|done|by apply Hpost].
  apply cache_state_rep. exists acap. split_and!; [done|auto|]. by rewrite (sc_count _ _ Hsc).
Qed.

(** The expiration job removes exactly the items whose idle time exceeds their
    expiration: afterwards the backend holds the other items, unchanged, and the
    number reported is the number removed. *)
Theorem hypercache_expiration_job (hc : HyperCache InMemory AnyAlgorithm) (m : gmap string Item)
    (t : gmap string any) (now : Z) :
  cache_state e hc m t →
  ∃ hc' n t', expirationLoop now false hc = Some (hc', n, None) ∧
    cache_state e hc' (filter (λ kv, Expired now kv.2 = false) m) t' ∧
    n = Z.of_nat (size (filter (λ kv, Expired now kv.2 = true) m)).
Proof.
  intros Hst. pose proof Hst as (acap & Hr & Hd & Hmax)%cache_state_rep. pose proof (rep_stores _ _ _ _ _ Hr) as Hs.
  unfold expirationLoop, List_.
  destruct (bk_List_law _ _ [WithSortBy "Expiration"; WithFilterFunc (expiredFilter now)] Hs) as (l & Hp & ->).
  cbn [mbind option_bind applyFilters ApplyFilter WithSortBy WithFilterFunc].
  change (sortLess "Expiration") with (Some (λ i j : Item, Expiration i <? Expiration j)%Z).
  cbn beta iota. rewrite filterLoop_filter. set (its := filter _ _).
  destruct (expireItems_ok e acap false its 0 hc m t Hr) as (hc' & n & m' & t' & err & -> & Hr' & Hsc & _ & Hst' & Hn).
  destruct (Hn eq_refl) as (-> & -> & ->).
  assert (its ≡ₚ (map_to_list (filter (λ kv, Expired now kv.2 = true) m)).*2) as Hits.
  { unfold its. rewrite (sort_perm _ He), Hp. apply filter_values. }
  exists hc', (Z.of_nat (length its)), t'. split_and!; [do 2 f_equal|..].
  - apply cache_state_rep. exists acap.
    replace (filter (λ kv, Expired now kv.2 = false) m) with (delete_all (Key <$> its) m);
      [split_and!; [done|auto|by rewrite (sc_count _ _ Hsc)]|].
    assert (map_Forall (λ k it, Key it = k) (filter (λ kv : string * Item, Expired now kv.2 = true) m)) as Hs'.
    { intros k' it [Hit _]%map_lookup_filter_Some. by apply (stores_map_keys e _ _ Hs). }
    apply map_eq. intros k. rewrite delete_all_lookup, map_lookup_filter.
    pose proof (listed_keys _ its k Hs' Hits) as Hin. rewrite map_lookup_filter in Hin.
    destruct (m !! k) as [it|] eqn:Ek; cbn in *; [|by case_decide].
    destruct (Expired now it) eqn:Ex.
    + by rewrite decide_True by (apply Hin; eauto).
    + rewrite decide_False; [done|]. intros [? [=]]%Hin.
  - by rewrite Hits, length_fmap, length_map_to_list.
Qed.

(** What a successful [Set] does to the accounting: the gap between the
    allocation counter and the bytes of the stored items grows by the size of the
    value it replaces.  So the counter is exact as long as no key is overwritten,
    and every overwrite leaks the replaced value's size for the cache's lifetime
    (only [Clear] resets the counter). *)
Theorem hypercache_overwrite_drift (hc hc' : HyperCache InMemory AnyAlgorithm) (m : gmap string Item)
    (t : gmap string any) (now : Z) (pick : nat) (k : string) (v : any) (d : Z) :
  cache_state e hc m t → map_Forall (λ _ it, 0 ≤ Size it)%Z m →
  (total m ≤ memoryAllocation hc ≤ 2 ^ 62)%Z → sized cborLen now k v d →
  Set_ cborLen now pick false k v d hc = Some (hc', None) →
  ∃ m' t', cache_state e hc' m' t' ∧
    (memoryAllocation hc' - total m' = memoryAllocation hc - total m + key_size m k)%Z.
Proof.
  intros Hst Hs Ht Hz Hset. pose proof Hst as (acap & Hr & Hd & Hmax)%cache_state_rep. unfold Set_ in Hset.
  destruct (insertItem_ok e cborLen acap pick false (newItem now k v d) hc m t Hr)
    as (hc2 & m' & t' & err & Hins & Hr' & Hsc & Hcase & Hst').
  rewrite Hset in Hins. simplify_eq. exists m', t'. split.
  { apply cache_state_rep. exists acap. split_and!; [done|auto|]. by rewrite (sc_count _ _ Hsc). }
  pose proof (total_nonneg _ Hs) as Hnn. unfold sized in Hz.
  inversion Hcase as [|hc1 it' E|hc1 it' er E|hc1 it' t1 a g E _ _ _ Eg Hmem Hg]; subst hc1 t1.
  rewrite E in Hz; cbn [fst] in Hz; change (Key (newItem now k v d)) with k in *. clear Eg. subst m'.
  assert (map_Forall (λ _ it, 0 ≤ Size it)%Z (<[k := it']> m)) as Hs' by (apply map_Forall_insert_2; [lia|done]).
  destruct (drop_key_total g _ Hs') as (Htk & Hgs & Hs2). pose proof (total_nonneg _ Hs2).
  rewrite total_insert, total_delete_key in Htk.
  assert (0 ≤ key_size m k)%Z by (unfold key_size; destruct (m !! k) eqn:Ek; [exact (Hs _ _ Ek)|lia]).
  rewrite Hmem, i64_small by lia. lia.
Qed.

End EndToEnd.

(** ** Instances *)

Definition sample_opts : list Option :=
  [WithEvictionInterval 0; WithEvictionShardCount 1; WithMaxCacheSize 100].
Definition sample_len (v : any) : option Z := match v with AString s => Some (Z.of_nat (String.length s)) | _ => None end.
Definition sample_cache : HyperCache InMemory AnyAlgorithm :=
  match New 2 sample_opts with Ok hc => hc | Err _ => MkHC (MkInMemory [] 0) (Shards (MkSharded [] 0 0)) 0 0 false 0 0 (MkTrigger 0 0 false 0 0) end.
Definition sample_ops : list hop :=
  [HSet 1 0 false "a" (AString "x") 0; HSet 2 0 false "b" (AString "yy") 0; HGet 3 "a";
   HSet 4 0 false "c" (AString "zzz") 5; HExpirationLoop 100 false; HEvictionLoop false].

Lemma sample_cache_New : New 2 sample_opts = Ok sample_cache.
Proof. reflexivity. Qed.

Lemma sample_cache_state : cache_state sample_env sample_cache ∅ ∅ ∧ memoryAllocation sample_cache = 0%Z.
Proof. by apply (New_state sample_env sample_opts 2); [reflexivity|vm_compute]. Qed.




(** The values of the sample: a repeated letter. *)
Definition sample_text : string :=
  "xxxxxxxxxxxxxxxxxxxxxxxxxxxxxxxxxxxxxxxxxxxxxxxxxxxxxxxxxxxx".

(** A repeated key in [Remove] lets the cache exceed its limit of 100 bytes. *)
Theorem hypercache_double_removal_exceeds :
  ∃ hc its, run_cache sample_env sample_len
      [HSet 1 0 false "a" (AString sample_text) 0; HRemove false ["a"; "a"];
       HSet 2 0 false "b" (AString sample_text) 0; HSet 3 0 false "c" (AString sample_text) 0] sample_cache = Some hc ∧
    List_ (H := InMemory_IBackend sample_env) [] hc = Some (Ok its) ∧
    (maxCacheSize hc < foldr (λ it n, Size it + n) 0 its)%Z ∧ (memoryAllocation hc ≤ maxCacheSize hc)%Z.
Proof.
  eexists _, _. split; [vm_compute; reflexivity|]. split; [vm_compute; reflexivity|].
  by split; vm_compute.
Qed.

(** The sample cache after a write of "a". *)
Definition sample_one : HyperCache InMemory AnyAlgorithm :=
  match run_cache sample_env sample_len [HSet 1 0 false "a" (AString "x") 0] sample_cache with
  | Some hc => hc | None => sample_cache end.

Lemma sample_one_state : ∃ m t, cache_state sample_env sample_one m t.
Proof.
  destruct (run_from_New sample_env sample_env_ok sample_len sample_opts 2 sample_cache
    [HSet 1 0 false "a" (AString "x") 0] eq_refl ltac:(vm_compute; reflexivity))
    as (hc & m & t & Hrun & (Hs & Ht & Hm & Hmax) & _ & _ & Hst).
  exists m, t. unfold sample_one. rewrite Hrun. split_and!; [done|done| |done|done].
  apply Hst. by repeat constructor.
Qed.

(** A write over a stored key, with a cancelled context, is read back. *)
Lemma hypercache_set_visible_witness :
  ∃ hc', Set_ (H := InMemory_IBackend sample_env) (H0 := Any_IAlgorithm (sum64 sample_env))
      sample_len 1 0 true "a" (AString "y") 5 sample_one = Some (hc', None) ∧
    snd <$> Get (H := InMemory_IBackend sample_env) 4 "a" hc' = Some (AString "y", true) ∧
    snd <$> Get (H := InMemory_IBackend sample_env) 9 "a" hc' = Some (ANil, false).
Proof.
  destruct sample_one_state as (m & t & Hst).
  destruct (hypercache_set_visible sample_env sample_env_ok sample_len sample_one m t 1 4 0 true "a"
    (AString "y") 5 Hst) as (hc' & err & Hset & _ & _).
  exists hc'. clear Hst m t. vm_compute in Hset. injection Hset as <- <-.
  split; [vm_compute; reflexivity|]. split; vm_compute; reflexivity.
Defined.

(** The key just written can be the one given up: a cache of capacity one keeps
    its first key for ever, and reports success for the writes it forgets. *)
Theorem hypercache_set_evicts_itself :
  ∃ hc0 hc hc', New 1 sample_opts = Ok hc0 ∧
    run_cache sample_env sample_len [HSet 1 0 false "a" (AString "x") 0] hc0 = Some hc ∧
    Set_ (H := InMemory_IBackend sample_env) (H0 := Any_IAlgorithm (sum64 sample_env))
      sample_len 2 0 false "b" (AString "y") 0 hc = Some (hc', None) ∧
    snd <$> Get (H := InMemory_IBackend sample_env) 3 "b" hc' = Some (ANil, false) ∧
    snd <$> Get (H := InMemory_IBackend sample_env) 3 "a" hc' = Some (AString "x", true).
Proof.
  eexists _, _, _. split; [vm_compute; reflexivity|]. split; [vm_compute; reflexivity|].
  split; [vm_compute; reflexivity|]. by split; vm_compute.
Qed.

Lemma hypercache_eviction_job_witness :
  ∃ hc' n, evictionLoop (H := InMemory_IBackend sample_env) (H0 := Any_IAlgorithm (sum64 sample_env))
      false sample_cache = Some (hc', n, None) ∧ n = 0%Z.
Proof.
  destruct (hypercache_eviction_job sample_env sample_env_ok sample_cache ∅ ∅ (proj1 sample_cache_state))
    as (hc' & n & m' & t' & Hrun & _ & _ & Hn & Hr & _).
  exists hc', n. split; [exact Hrun|]. rewrite map_size_empty in Hn. lia.
Defined.

Lemma hypercache_expiration_job_witness :
  ∃ hc' n, expirationLoop (H := InMemory_IBackend sample_env) (H0 := Any_IAlgorithm (sum64 sample_env))
      9 false sample_cache = Some (hc', n, None) ∧ n = 0%Z.
Proof.
  destruct (hypercache_expiration_job sample_env sample_env_ok sample_cache ∅ ∅ 9 (proj1 sample_cache_state))
    as (hc' & n & t' & Hrun & _ & Hn).
  exists hc', n. split; [exact Hrun|]. by rewrite map_filter_empty, map_size_empty in Hn.
Defined.

Definition sample_set : option (HyperCache InMemory AnyAlgorithm * option error) :=
  Set_ (H := InMemory_IBackend sample_env) (H0 := Any_IAlgorithm (sum64 sample_env))
    sample_len 1 0 false "a" (AString "x") 5 sample_cache.

Lemma hypercache_overwrite_drift_witness :
  ∃ hc' m' t', sample_set = Some (hc', None) ∧
    cache_state sample_env hc' m' t' ∧ (memoryAllocation hc' - total m' = 0)%Z.
Proof.
  destruct sample_cache_state as [Hst Hmem].
  destruct sample_set as [[hc' err]|] eqn:E; [|vm_compute in E; done].
  assert (err = None) as -> by (vm_compute in E; by simplify_eq).
  destruct (hypercache_overwrite_drift sample_env sample_env_ok sample_len sample_cache hc' ∅ ∅ 1 0 "a"
    (AString "x") 5 Hst) as (m' & t' & Hst' & Hd).
  - apply map_Forall_empty.
  - rewrite Hmem, total_empty. lia.
  - clear. vm_compute. split; [discriminate|reflexivity].
  - unfold sample_set in E. exact E.
  - exists hc', m', t'. split; [reflexivity|]. split; [exact Hst'|]. rewrite Hd, Hmem. reflexivity.
Defined.

(** With LRU and inline eviction, the cache gives up the wrong key: a plain LRU
    of capacity two first drops the least recent key of its own accord when the
    third is set, then the cache asks it for a victim and removes the next one.
    The least recent key stays stored but is tracked no longer, so the cache
    never evicts it again. *)
Theorem hypercache_inline_eviction_skips_oldest :
  ∃ hc, run_cache sample_env sample_len
      [HSet 1 0 false "a" (AString "x") 0; HSet 2 0 false "b" (AString "y") 0;
       HSet 3 0 false "c" (AString "z") 0] sample_cache = Some hc ∧
    (snd <$> Get (H := InMemory_IBackend sample_env) 4 "a" hc) = Some (AString "x", true) ∧
    (snd <$> Get (H := InMemory_IBackend sample_env) 4 "b" hc) = Some (ANil, false) ∧
    (snd <$> alg_Get (IAlgorithm := Any_IAlgorithm (sum64 sample_env)) "a" (evictionAlgorithm hc)) =
      Some (ANil, false).
Proof.
  eexists. split; [vm_compute; reflexivity|]. split_and!; vm_compute; reflexivity.
Qed.
