(* ===== verification/Ring.v ===== *)
(** * The consistent-hash ring (internal/cluster/ring.go)

    [Build] places [vnPerNode] virtual nodes per node on the ring of 64-bit hashes
    and [Lookup] walks it clockwise from the key's hash until it has [replication]
    distinct owners.  Parameters: [sum64] is xxhash.Sum64, and [SortFunc] is
    slices.SortFunc, of which only what Go documents is assumed (the sort is not
    stable, so equal hashes come in any order).

    The theorems: what [Lookup] returns, that it does not depend on the order in
    which the nodes are listed, and that adding a node moves no key between two
    other nodes. *)

From stdpp Require Import base gmap strings list sorting.
From Stdlib Require Import ZArith Lia Ascii.
From S2P Require Import Prelude.

(** ** The code *)

Record vnode := MkVnode { hash : Z; nid : string }.

Record Ring := MkRing { vnodes : list vnode; vnPerNode : Z; replication : Z }.

Inductive RingOption := WithVirtualNodes (n : Z) | WithReplication (n : Z).

Definition applyRingOption (r : Ring) (o : RingOption) : Ring :=
  match o with
  | WithVirtualNodes n => if (0 <? n)%Z then MkRing (vnodes r) n (replication r) else r
  | WithReplication n => if (0 <? n)%Z then MkRing (vnodes r) (vnPerNode r) n else r
  end.

Definition NewRing (opts : list RingOption) : Ring := foldl applyRingOption (MkRing [] 64 1) opts.

(** [sort.Search]: bisection for the first index in [i, j) at which [f] holds. *)
Fixpoint searchLoop (fuel : nat) (f : nat → bool) (i j : nat) : nat :=
  match fuel with
  | 0 => i
  | S fuel =>
      if i <? j then
        let h := (i + j) / 2 in
        if f h then searchLoop fuel f i h else searchLoop fuel f (S h) j
      else i
  end.
Definition search (n : nat) (f : nat → bool) : nat := searchLoop n f 0 n.

Section Ring.
Context (sum64 : string → Z) (SortFunc : (vnode → vnode → Z) → list vnode → list vnode).

(** [byte(i)] appended to the node's id. *)
Definition vnodeName (id : string) (i : nat) : string :=
  String.append id (String (ascii_of_nat (i mod 256)) EmptyString).

Definition cmpVnode (a b : vnode) : Z :=
  if (hash a <? hash b)%Z then -1 else if (hash b <? hash a)%Z then 1 else 0.

(** The virtual nodes of one node, by index. *)
Definition nodeVnodes (n : nat) (id : string) : list vnode :=
  (λ i, MkVnode (sum64 (vnodeName id i)) id) <$> seq 0 n.

Definition unsorted (n : nat) (nodes : list string) : list vnode := nodes ≫= nodeVnodes n.

Definition Build (nodes : list string) (r : Ring) : Ring :=
  MkRing (SortFunc cmpVnode (unsorted (Z.to_nat (vnPerNode r)) nodes)) (vnPerNode r) (replication r).

(** The walk: [rest] steps are left, [i] is the loop's counter. *)
Fixpoint lookupLoop (r : Ring) (idx rest i : nat) (res : list string) (seen : gset string)
    : option (list string) :=
  match rest with
  | 0 => Some res
  | S rest =>
      if (Z.of_nat (length res) <? replication r)%Z then
        vn ← vnodes r !! ((idx + i) mod length (vnodes r));
        if decide (nid vn ∈ seen) then lookupLoop r idx rest (S i) res seen
        else lookupLoop r idx rest (S i) (res ++ [nid vn]) ({[nid vn]} ∪ seen)
      else Some res
  end.

Definition hashAt (r : Ring) (i : nat) : Z := from_option hash 0%Z (vnodes r !! i).

Definition Lookup (key : string) (r : Ring) : option (list string) :=
  if decide (vnodes r = []) then Some []
  else
    let target := sum64 key in
    let idx := search (length (vnodes r)) (λ i, (target <=? hashAt r i)%Z) in
    let idx := if decide (idx = length (vnodes r)) then 0 else idx in
    lookupLoop r idx (length (vnodes r)) 0 [] ∅.

End Ring.

(** ** Bisection *)

Lemma searchLoop_ok fuel f i j n :
  j ≤ i + fuel → i ≤ j → j ≤ n → (∀ a b, a ≤ b < n → f a = true → f b = true) →
  let r := searchLoop fuel f i j in
  i ≤ r ≤ j ∧ (∀ a, i ≤ a < r → f a = false) ∧ (r < j → f r = true).
Proof.
  intros Hf Hij Hn Hm. cbn zeta. revert i j Hf Hij Hn.
  induction fuel as [|fuel IH]; intros i j Hf Hij Hn; cbn [searchLoop].
  { split_and!; intros; lia. }
  destruct (Nat.ltb_spec i j) as [Hlt|Hge]; [|split_and!; intros; lia].
  pose proof (Nat.Div0.div_lt_upper_bound (i + j) 2 j ltac:(lia)) as Hh.
  pose proof (Nat.div_le_lower_bound (i + j) 2 i ltac:(lia) ltac:(lia)) as Hi.
  destruct (f ((i + j) / 2)) eqn:E.
  - destruct (IH i ((i + j) / 2)) as (Hb & Hlo & Hhi); [lia..|]. split_and!; [lia|lia|done|].
    intros _. destruct (decide (searchLoop fuel f i ((i + j) / 2) = (i + j) / 2)) as [->|]; [done|].
    apply Hhi. lia.
  - destruct (IH (S ((i + j) / 2)) j) as (Hb & Hlo & Hhi); [lia..|]. split_and!; [lia|lia| |done].
    intros a Ha. destruct (decide (a ≤ (i + j) / 2)) as [Hle|]; [|apply Hlo; lia].
    destruct (f a) eqn:Ea; [|done]. rewrite (Hm a ((i + j) / 2)) in E; [done|lia|done].
Qed.

(** On a sorted list bisection splits it at the target. *)
Definition before (t : Z) (l : list vnode) : list vnode := filter (λ v, hash v < t)%Z l.
Definition from (t : Z) (l : list vnode) : list vnode := filter (λ v, t ≤ hash v)%Z l.

Lemma split_sorted t l :
  StronglySorted (λ a b, hash a ≤ hash b)%Z l → l = before t l ++ from t l.
Proof.
  induction 1 as [|v l Hs IH Hall]; [done|]. unfold before, from in *. rewrite !filter_cons.
  destruct (decide (hash v < t)%Z).
  - rewrite (decide_False (P := (t ≤ hash v)%Z)) by lia. cbn. by rewrite <- IH.
  - rewrite decide_True by lia. replace (filter (λ v, hash v < t)%Z l) with (@nil vnode); [cbn|].
    + f_equal. clear -Hall n. induction l as [|w l IH]; [done|]. apply Forall_cons in Hall as [Hw Hl].
      rewrite filter_cons_True by lia. by rewrite <- IH.
    + clear -Hall n. induction l as [|w l IH]; [done|]. apply Forall_cons in Hall as [Hw Hl].
      rewrite filter_cons_False by lia. by apply IH.
Qed.

(** ** The walk *)

(** First occurrences, those in [seen] left out. *)
Fixpoint firsts (seen : gset string) (l : list string) : list string :=
  match l with
  | [] => []
  | x :: l => if decide (x ∈ seen) then firsts seen l else x :: firsts ({[x]} ∪ seen) l
  end.

Lemma elem_of_firsts seen l x : x ∈ firsts seen l ↔ x ∈ l ∧ x ∉ seen.
Proof.
  revert seen. induction l as [|y l IH]; intros seen; cbn; [set_solver|].
  case_decide; [rewrite IH; set_solver|]. rewrite !elem_of_cons, IH.
  destruct (decide (x = y)); set_solver.
Qed.

Lemma NoDup_firsts seen l : NoDup (firsts seen l).
Proof.
  revert seen. induction l as [|y l IH]; intros seen; cbn; [constructor|].
  case_decide; [done|]. constructor; [|done]. rewrite elem_of_firsts. set_solver.
Qed.

(** Leaving out an element before or after makes no difference. *)
Lemma firsts_filter seen l x :
  filter (λ y, y ≠ x) (firsts seen l) = firsts seen (filter (λ y, y ≠ x) l).
Proof.
  revert seen. induction l as [|y l IH]; intros seen; cbn [firsts]; [done|].
  rewrite (filter_cons _ y l). destruct (decide (y ≠ x)) as [Hne|He]; cbn [firsts].
  - case_decide; [apply IH|]. rewrite filter_cons_True by done. by rewrite IH.
  - apply dec_stable in He as ->. case_decide; [apply IH|]. rewrite filter_cons_False by tauto. rewrite IH.
    assert (∀ (s s' : gset string) l', (∀ z, z ∈ l' → z ∈ s ↔ z ∈ s') → firsts s l' = firsts s' l') as Hext.
    { clear. intros s s' l'. revert s s'. induction l' as [|z l' IH]; intros s s' Hs; cbn; [done|].
      rewrite (IH s s') by (intros; apply Hs; by right).
      rewrite (IH ({[z]} ∪ s) ({[z]} ∪ s')) by (intros w Hw; specialize (Hs w); set_solver).
      specialize (Hs z ltac:(by left)). repeat case_decide; tauto. }
    apply Hext. intros z [Hz _]%list_elem_of_filter. set_solver.
Qed.

Definition rotated (idx : nat) (l : list vnode) : list vnode := drop idx l ++ take idx l.

Lemma rotated_lookup idx l i :
  idx < length l → i < length l → rotated idx l !! i = l !! ((idx + i) mod length l).
Proof.
  intros Hidx Hi. unfold rotated. destruct (decide (i < length l - idx)) as [Hlt|Hge].
  - rewrite lookup_app_l by (rewrite length_drop; lia). rewrite lookup_drop.
    by rewrite Nat.mod_small by lia.
  - rewrite lookup_app_r by (rewrite length_drop; lia). rewrite length_drop.
    rewrite lookup_take_lt by lia. f_equal.
    rewrite <- (Nat.mod_unique (idx + i) (length l) 1 (i - (length l - idx))); lia.
Qed.

Lemma lookupLoop_ok r idx rest i res seen :
  idx < length (vnodes r) → rest + i = length (vnodes r) →
  lookupLoop r idx rest i res seen =
    Some (res ++ take (Z.to_nat (replication r) - length res)
      (firsts seen (nid <$> drop i (rotated idx (vnodes r))))).
Proof.
  intros Hidx. revert i res seen. induction rest as [|rest IH]; intros i res seen Hi; cbn [lookupLoop].
  { rewrite drop_ge; [cbn; by rewrite take_nil, app_nil_r|]. unfold rotated.
    rewrite length_app, length_drop, length_take. lia. }
  destruct (Z.ltb_spec (Z.of_nat (length res)) (replication r)) as [Hr|Hr].
  2:{ replace (Z.to_nat (replication r) - length res) with 0 by lia. by rewrite app_nil_r. }
  rewrite <- (rotated_lookup idx (vnodes r) i) by lia.
  destruct (rotated idx (vnodes r) !! i) as [vn|] eqn:E.
  2:{ apply lookup_ge_None in E. unfold rotated in E. rewrite length_app, length_drop, length_take in E. lia. }
  cbn [mbind option_bind]. rewrite (drop_S _ _ _ E). cbn [fmap list_fmap firsts].
  case_decide; [by apply IH; lia|]. rewrite IH by lia. rewrite <- app_assoc. do 2 f_equal.
  destruct (Z.to_nat (replication r) - length res) as [|m] eqn:Em; [lia|]. cbn.
  rewrite length_app. cbn. do 2 f_equal. lia.
Qed.

(** ** What Go documents of [slices.SortFunc] *)

Lemma searchLoop_le fuel f i j : i ≤ j → searchLoop fuel f i j ≤ j.
Proof.
  revert i j. induction fuel as [|fuel IH]; intros i j Hij; cbn [searchLoop]; [done|].
  destruct (Nat.ltb_spec i j) as [Hlt|Hge]; [|done].
  pose proof (Nat.Div0.div_lt_upper_bound (i + j) 2 j ltac:(lia)) as Hh.
  pose proof (Nat.div_le_lower_bound (i + j) 2 i ltac:(lia) ltac:(lia)) as Hi.
  destruct (f _).
  - etrans; [by apply IH|lia].
  - apply IH. lia.
Qed.

(** On any ring a lookup returns distinct owners, at most as many as the
    replication factor. *)
Lemma Lookup_total sum64 key r :
  ∃ l, Lookup sum64 key r = Some l ∧ NoDup l ∧ length l ≤ Z.to_nat (replication r).
Proof.
  unfold Lookup. case_decide as He.
  { exists []. split_and!; [done|constructor|simpl; lia]. }
  set (n := length (vnodes r)). assert (n ≠ 0) as Hn by (subst n; by destruct (vnodes r)).
  set (idx := search n _). pose proof (searchLoop_le n (λ i, (sum64 key <=? hashAt r i)%Z) 0 n ltac:(lia)) as Hle.
  change (searchLoop _ _ _ _) with idx in Hle.
  rewrite lookupLoop_ok.
  - eexists. split; [done|]. cbn [app length]. split.
    + eapply sublist_NoDup; [apply NoDup_firsts|apply sublist_take].
    + rewrite length_take. lia.
  - fold n. case_decide; lia.
  - fold n. lia.
Qed.

Section RingFacts.
Context (sum64 : string → Z) (SortFunc : (vnode → vnode → Z) → list vnode → list vnode).

Definition hash_le (a b : vnode) : Prop := (hash a ≤ hash b)%Z.

Record sort_ok : Prop := {
  ring_sort_perm : ∀ l, SortFunc cmpVnode l ≡ₚ l;
  ring_sort_sorted : ∀ l, StronglySorted hash_le (SortFunc cmpVnode l) }.

Context (Hsort : sort_ok).

(** The order in which the ring is walked for a key: clockwise from its hash. *)
Definition clockwise (t : Z) (l : list vnode) : list vnode := from t l ++ before t l.

Lemma Lookup_ok key r :
  StronglySorted hash_le (vnodes r) →
  Lookup sum64 key r =
    Some (take (Z.to_nat (replication r)) (firsts ∅ (nid <$> clockwise (sum64 key) (vnodes r)))).
Proof.
  intros Hs. unfold Lookup. case_decide as He.
  { rewrite He. cbn. by rewrite take_nil. }
  set (t := sum64 key). pose proof (split_sorted t _ Hs) as El. set (l := vnodes r) in *.
  set (f := λ i, (t <=? hashAt r i)%Z). set (b := length (before t l)).
  assert (length l = b + length (from t l)) as Hlen by (rewrite El at 1; by rewrite length_app).
  assert (∀ i, i < length l → f i = bool_decide (b ≤ i)) as Hf.
  { intros i Hi. unfold f, hashAt. fold l. destruct (l !! i) as [v|] eqn:Ev; [|apply lookup_ge_None in Ev; lia].
    cbn. rewrite El in Ev. apply lookup_app_Some in Ev as [Ev|[Hge Ev]].
    - rewrite bool_decide_eq_false_2 by (apply lookup_lt_Some in Ev; unfold b; lia).
      apply list_elem_of_lookup_2, list_elem_of_filter in Ev as [Hv _]. apply Z.leb_gt. done.
    - rewrite bool_decide_eq_true_2 by done.
      apply list_elem_of_lookup_2, list_elem_of_filter in Ev as [Hv _]. by apply Z.leb_le. }
  assert (search (length l) f = b) as ->.
  { unfold search. destruct (searchLoop_ok (length l) f 0 (length l) (length l)) as (Hb & Hlo & Hhi); [lia..| |].
    { intros x y Hxy. rewrite !Hf by lia. rewrite !bool_decide_eq_true. lia. }
    set (q := searchLoop _ _ _ _) in *. destruct (Nat.lt_trichotomy q b) as [Hq|[Hq|Hq]]; [|done|].
    - rewrite Hf in Hhi by lia. rewrite bool_decide_eq_true in Hhi. lia.
    - specialize (Hlo b ltac:(lia)). rewrite Hf, bool_decide_eq_false in Hlo by lia. lia. }
  assert (∃ idx, (if decide (b = length l) then 0 else b) = idx ∧ idx < length l ∧
    rotated idx l = clockwise t l) as (idx & -> & Hidx & Hrot).
  { assert (length l ≠ 0) by (by destruct l). unfold rotated, clockwise. case_decide as Hb.
    - exists 0. split_and!; [done|lia|]. assert (from t l = []) as Ef by (apply nil_length_inv; lia).
      rewrite Ef in El |- *. rewrite app_nil_r in El. cbn. by rewrite drop_0, app_nil_r.
    - exists b. split_and!; [done|lia|]. rewrite El at 1 2. unfold b. by rewrite drop_app_length, take_app_length. }
  rewrite lookupLoop_ok by (fold l; lia). fold l. rewrite drop_0, Hrot. cbn [length app]. by rewrite Nat.sub_0_r.
Qed.

(** ** The built ring *)

Lemma Build_sorted nodes r : StronglySorted hash_le (vnodes (Build sum64 SortFunc nodes r)).
Proof. apply Hsort. Qed.

Lemma Build_perm nodes r :
  vnodes (Build sum64 SortFunc nodes r) ≡ₚ unsorted sum64 (Z.to_nat (vnPerNode r)) nodes.
Proof. apply Hsort. Qed.

Lemma elem_of_unsorted n nodes v :
  v ∈ unsorted sum64 n nodes ↔ ∃ i, i < n ∧ hash v = sum64 (vnodeName (nid v) i) ∧ nid v ∈ nodes.
Proof.
  unfold unsorted, nodeVnodes. rewrite list_elem_of_bind. setoid_rewrite list_elem_of_fmap.
  setoid_rewrite elem_of_seq. split.
  - intros (id & (i & -> & Hi) & Hid). exists i. cbn. split_and!; [lia|done|done].
  - intros (i & Hi & Hh & Hn). exists (nid v). split; [|done]. exists i. split; [|lia].
    destruct v. cbn in *. by rewrite Hh.
Qed.

Lemma elem_of_clockwise t l v : v ∈ clockwise t l ↔ v ∈ l.
Proof.
  unfold clockwise, from, before. rewrite elem_of_app, !list_elem_of_filter.
  destruct (decide (t ≤ hash v)%Z); [tauto|]. assert (hash v < t)%Z by lia. tauto.
Qed.

Lemma owners_nodes t nodes r x :
  (0 < vnPerNode r)%Z →
  x ∈ firsts ∅ (nid <$> clockwise t (vnodes (Build sum64 SortFunc nodes r))) ↔ x ∈ nodes.
Proof.
  intros Hn. rewrite elem_of_firsts, list_elem_of_fmap. split.
  - intros [(v & -> & Hv) _]. rewrite elem_of_clockwise, Build_perm, elem_of_unsorted in Hv. naive_solver.
  - intros Hx. split; [|set_solver]. exists (MkVnode (sum64 (vnodeName x 0)) x). split; [done|].
    rewrite elem_of_clockwise, Build_perm, elem_of_unsorted. exists 0. cbn. split_and!; [lia|done|done].
Qed.

(** Two virtual nodes at the same point belong to the same node. *)
Definition collision_free (n : nat) (nodes : list string) : Prop :=
  ∀ v w, v ∈ unsorted sum64 n nodes → w ∈ unsorted sum64 n nodes → hash v = hash w → nid v = nid w.

Lemma sorted_unique (l1 l2 : list vnode) :
  (∀ v w, v ∈ l1 → w ∈ l1 → hash v = hash w → nid v = nid w) →
  StronglySorted hash_le l1 → StronglySorted hash_le l2 → l1 ≡ₚ l2 → l1 = l2.
Proof.
  intros Hc H1 H2 Hp. apply (StronglySorted_unique_strong hash_le); [|done..].
  intros [h x] [h' x'] Hv Hw Hle Hge. rewrite <- Hp in Hw. unfold hash_le in *. cbn in *.
  assert (h = h') as -> by lia. f_equal. by apply (Hc _ _ Hv Hw).
Qed.

(** The ring of the nodes but [x] is the ring without [x]'s virtual nodes. *)
Lemma Build_without nodes x r :
  collision_free (Z.to_nat (vnPerNode r)) nodes →
  filter (λ v, nid v ≠ x) (vnodes (Build sum64 SortFunc nodes r)) =
    vnodes (Build sum64 SortFunc (filter (λ y, y ≠ x) nodes) r).
Proof.
  intros Hc. apply sorted_unique.
  - intros v w [_ Hv]%list_elem_of_filter [_ Hw]%list_elem_of_filter. rewrite Build_perm in Hv, Hw. by apply Hc.
  - pose proof (Build_sorted nodes r) as H. induction H as [|v l Hl IH Hall]; [constructor|].
    rewrite filter_cons. case_decide; [|done]. constructor; [done|].
    apply Forall_forall. intros w [_ Hw]%list_elem_of_filter. by apply (proj1 (Forall_forall _ _) Hall).
  - apply Build_sorted.
  - rewrite !Build_perm. clear. unfold unsorted. induction nodes as [|y nodes IH]; [done|].
    rewrite bind_cons, filter_app, IH, filter_cons. unfold nodeVnodes at 1.
    set (l := seq _ _). assert (filter (λ v, nid v ≠ x) ((λ i, MkVnode (sum64 (vnodeName y i)) y) <$> l) =
      if decide (y ≠ x) then (λ i, MkVnode (sum64 (vnodeName y i)) y) <$> l else []) as ->.
    { clear. induction l as [|i l IHl]; cbn [fmap list_fmap]; [by case_decide|].
      rewrite filter_cons. cbn [nid]. rewrite IHl. by case_decide. }
    by case_decide.
Qed.

Lemma clockwise_filter t (P : vnode → Prop) `{∀ v, Decision (P v)} l :
  filter P (clockwise t l) = clockwise t (filter P l).
Proof.
  unfold clockwise, from, before. rewrite filter_app, !list_filter_filter.
  f_equal; apply list_filter_iff; intros v; tauto.
Qed.

Lemma filter_nid x (l : list vnode) :
  filter (λ y, y ≠ x) (nid <$> l) = nid <$> filter (λ v, nid v ≠ x) l.
Proof.
  induction l as [|v l IH]; [done|]. cbn [fmap list_fmap]. rewrite !filter_cons.
  destruct (decide (nid v ≠ x)); cbn [fmap list_fmap]; by rewrite IH.
Qed.

Lemma filter_take (x : string) n l :
  NoDup l → ∃ d, d ≤ 1 ∧ filter (λ y, y ≠ x) (take n l) = take (n - d) (filter (λ y, y ≠ x) l).
Proof.
  revert n. induction l as [|y l IH]; intros n Hl.
  { exists 0. split; [lia|]. rewrite take_nil. change (filter (λ y, y ≠ x) []) with (@nil string). by rewrite take_nil. }
  apply NoDup_cons in Hl as [Hy Hl]. destruct n as [|n]; [exists 0; split; [lia|done]|]. cbn [take]. rewrite !filter_cons.
  destruct (decide (y ≠ x)) as [Hne|He].
  - destruct (IH n Hl) as (d & Hd & E). destruct (decide (d ≤ n)) as [Hdn|Hdn].
    + exists d. split; [done|]. rewrite E. replace (S n - d) with (S (n - d)) by lia. done.
    + assert (n = 0) as -> by lia. exists 0. split; [lia|]. by cbn.
  - apply dec_stable in He as ->. exists 1. split; [lia|]. rewrite Nat.sub_1_r. cbn [Nat.pred].
    assert (∀ l' : list string, x ∉ l' → filter (λ y, y ≠ x) l' = l') as Hid.
    { intros l' Hx. induction l' as [|z l' IHl]; [done|]. rewrite not_elem_of_cons in Hx.
      rewrite filter_cons_True by naive_solver. by rewrite IHl by naive_solver. }
    rewrite !Hid; [done|done|]. intros Hin. apply Hy. apply elem_of_take in Hin as (i & Hi & _). by eapply list_elem_of_lookup_2.
Qed.

(** The distance from [t] to [h] going clockwise around the 64-bit circle. *)
Definition distance (t h : Z) : Z := ((h - t) mod 2 ^ 64)%Z.

Lemma clockwise_head t l v rest :
  StronglySorted hash_le l → (0 ≤ t < 2 ^ 64)%Z → Forall (λ v, 0 ≤ hash v < 2 ^ 64)%Z l →
  clockwise t l = v :: rest → ∀ w, w ∈ l → (distance t (hash v) ≤ distance t (hash w))%Z.
Proof.
  intros Hs Ht Hb Hc w Hw. unfold distance.
  assert (∀ h, (0 ≤ h < 2 ^ 64)%Z → ((h - t) mod 2 ^ 64 = if decide (t ≤ h)%Z then h - t else h - t + 2 ^ 64)%Z) as Hd.
  { intros h Hh. case_decide.
    - by rewrite Z.mod_small by lia.
    - rewrite <- (Z.mod_add (h - t) 1 (2 ^ 64)) by lia. rewrite Z.mod_small by lia. lia. }
  assert (∀ P `{∀ v : vnode, Decision (P v)}, StronglySorted hash_le (filter P l)) as Hsub.
  { intros P HP. clear -Hs. induction Hs as [|u l Hl IH Hall]; [constructor|]. rewrite filter_cons.
    case_decide; [|done]. constructor; [done|]. apply Forall_forall. intros x [_ Hx]%list_elem_of_filter.
    by apply (proj1 (Forall_forall _ _) Hall). }
  assert (v ∈ l) as Hv by (rewrite <- (elem_of_clockwise t), Hc; by left).
  assert (w ∈ clockwise t l) as Hw' by (by apply elem_of_clockwise).
  rewrite !Hd by (by apply (proj1 (Forall_forall _ _) Hb)).
  unfold clockwise in Hc, Hw'. destruct (from t l) as [|v' f] eqn:Ef.
  - cbn in Hc, Hw'. assert (∀ u, u ∈ before t l → (hash u < t)%Z) as Hlt
      by (by intros u [? _]%list_elem_of_filter).
    pose proof (Hsub (λ u, hash u < t)%Z _) as Hst. fold (before t l) in Hst. rewrite Hc in Hst, Hlt, Hw'.
    pose proof (Hlt v ltac:(by left)). rewrite !decide_False by (pose proof (Hlt w Hw'); lia).
    apply StronglySorted_inv in Hst as [_ Hall]. apply elem_of_cons in Hw' as [->|Hin]; [lia|].
    pose proof (proj1 (Forall_forall _ _) Hall _ Hin). unfold hash_le in *. lia.
  - cbn in Hc. simplify_eq. pose proof (Hsub (λ u, t ≤ hash u)%Z _) as Hst. fold (from t l) in Hst.
    rewrite Ef in Hst. assert (v ∈ from t l) as [Hge _]%list_elem_of_filter by (rewrite Ef; by left).
    rewrite decide_True by done. apply StronglySorted_inv in Hst as [_ Hall].
    assert (0 ≤ hash v < 2 ^ 64)%Z by (by apply (proj1 (Forall_forall _ _) Hb)).
    assert (0 ≤ hash w < 2 ^ 64)%Z by (by apply (proj1 (Forall_forall _ _) Hb)).
    case_decide; [|lia]. apply elem_of_cons in Hw' as [->|[Hin|Hin]%elem_of_app]; [lia|..].
    + pose proof (proj1 (Forall_forall _ _) Hall _ Hin). unfold hash_le in *. lia.
    + apply list_elem_of_filter in Hin as [? _]. lia.
Qed.

Lemma size_list_le (l : list Z) : size (list_to_set l : gset Z) ≤ length l.
Proof.
  induction l as [|x l IH]; cbn [list_to_set length]; [by rewrite size_empty|].
  pose proof (size_union_alt ({[x]} : gset Z) (list_to_set l)) as Hu. rewrite size_singleton in Hu.
  pose proof (subseteq_size (list_to_set l ∖ {[x]} : gset Z) (list_to_set l) ltac:(set_solver)). lia.
Qed.

(** ** The claims *)

(** C34: A lookup on a built ring returns distinct member nodes, as many as the
    replication factor asks for (or all there are), and the first of them owns the
    virtual node at the least clockwise distance from the key's hash. *)
Theorem ring_lookup_owners (r : Ring) (nodes : list string) (key : string) :
  (0 < vnPerNode r)%Z → (0 < replication r)%Z → (∀ s, 0 ≤ sum64 s < 2 ^ 64)%Z →
  ∃ res, Lookup sum64 key (Build sum64 SortFunc nodes r) = Some res ∧ NoDup res ∧
    (∀ x, x ∈ res → x ∈ nodes) ∧
    length res = Z.to_nat (replication r) `min` size (list_to_set nodes : gset string) ∧
    (∀ x, head res = Some x → ∃ i, (0 ≤ i < vnPerNode r)%Z ∧
      ∀ y j, y ∈ nodes → (0 ≤ j < vnPerNode r)%Z →
        (distance (sum64 key) (sum64 (vnodeName x (Z.to_nat i))) ≤
         distance (sum64 key) (sum64 (vnodeName y (Z.to_nat j))))%Z).
Proof.
  intros Hn Hrep Hb. pose proof (Build_sorted nodes r) as Hs. rewrite (Lookup_ok _ _ Hs).
  set (l := vnodes _) in *. set (t := sum64 key). change (replication (Build _ _ nodes r)) with (replication r).
  pose proof (owners_nodes t nodes r) as Ho. fold l in Ho.
  pose proof (NoDup_firsts ∅ (nid <$> clockwise t l)) as Hnd. set (os := firsts ∅ _) in *.
  eexists. split; [done|]. split_and!.
  - eapply sublist_NoDup; [exact Hnd|]. apply sublist_take.
  - intros x (i & Hi & _)%elem_of_take. apply Ho; [done|]. by eapply list_elem_of_lookup_2.
  - rewrite length_take. f_equal. rewrite <- (size_list_to_set (C := gset string) os Hnd). f_equal. apply set_eq.
    intros x. rewrite !elem_of_list_to_set. by apply Ho.
  - intros x Hx. destruct (clockwise t l) as [|v rest] eqn:Ec.
    { unfold os in Hx. cbn in Hx. by rewrite take_nil in Hx. }
    assert (x = nid v) as ->.
    { unfold os in Hx. cbn [fmap list_fmap firsts] in Hx. rewrite decide_False in Hx by set_solver.
      destruct (Z.to_nat (replication r)) eqn:E; [lia|]. cbn in Hx. congruence. }
    assert (Forall (λ v, 0 ≤ hash v < 2 ^ 64)%Z l) as Hall.
    { apply Forall_forall. intros w Hw. unfold l in Hw. rewrite Build_perm, elem_of_unsorted in Hw.
      destruct Hw as (i & _ & -> & _). apply Hb. }
    assert (v ∈ l) as Hv by (rewrite <- (elem_of_clockwise t), Ec; by left).
    unfold l in Hv. rewrite Build_perm, elem_of_unsorted in Hv. destruct Hv as (i & Hi & Hh & _).
    exists (Z.of_nat i). split; [lia|]. intros y j Hy Hj. rewrite Nat2Z.id, <- Hh.
    apply (clockwise_head t l v rest Hs (Hb key) Hall Ec (MkVnode (sum64 (vnodeName y (Z.to_nat j))) y)).
    unfold l. rewrite Build_perm, elem_of_unsorted. exists (Z.to_nat j). cbn. split_and!; [lia|done|done].
Qed.

(** The owners of a key do not depend on the order in which the members are
    listed (Go ranges over a map), provided no two nodes collide on the ring. *)
Theorem ring_order_independent (r : Ring) (nodes nodes' : list string) (key : string) :
  collision_free (Z.to_nat (vnPerNode r)) nodes → nodes' ≡ₚ nodes →
  Lookup sum64 key (Build sum64 SortFunc nodes' r) = Lookup sum64 key (Build sum64 SortFunc nodes r).
Proof.
  intros Hc Hp. f_equal. unfold Build. f_equal. symmetry. apply sorted_unique.
  - intros v w. rewrite !(ring_sort_perm Hsort). apply Hc.
  - apply Hsort.
  - apply Hsort.
  - rewrite !(ring_sort_perm Hsort). unfold unsorted. by rewrite Hp.
Qed.

(** Minimal movement: when node [x] joins, the owners of every key other than
    [x] are the old owners, in the old order, less at most one that [x]
    displaces; no key moves between two old nodes. *)
Theorem ring_minimal_movement (r : Ring) (nodes : list string) (x : string) (key : string) :
  x ∉ nodes → collision_free (Z.to_nat (vnPerNode r)) (x :: nodes) →
  ∃ old new d, Lookup sum64 key (Build sum64 SortFunc nodes r) = Some old ∧
    Lookup sum64 key (Build sum64 SortFunc (x :: nodes) r) = Some new ∧ d ≤ 1 ∧
    filter (λ y, y ≠ x) new = take (Z.to_nat (replication r) - d) old.
Proof.
  intros Hx Hc. rewrite !(Lookup_ok _ _ (Build_sorted _ r)).
  change (replication (Build _ _ _ r)) with (replication r). set (t := sum64 key).
  pose proof (Build_without (x :: nodes) x r Hc) as Hw.
  rewrite filter_cons_False in Hw by tauto.
  replace (filter (λ y, y ≠ x) nodes) with nodes in Hw.
  2:{ clear -Hx. induction nodes as [|y nodes IH]; [done|]. rewrite not_elem_of_cons in Hx.
      rewrite filter_cons_True by naive_solver. rewrite <- IH; naive_solver. }
  destruct (filter_take x (Z.to_nat (replication r))
    (firsts ∅ (nid <$> clockwise t (vnodes (Build sum64 SortFunc (x :: nodes) r))))) as (d & Hd & E);
    [apply NoDup_firsts|].
  eexists _, _, d. split_and!; [done|done|done|]. rewrite E, firsts_filter, filter_nid, clockwise_filter, Hw.
  rewrite take_take. f_equal. lia.
Qed.

(** The vnode index is cut to a byte, so from the 257th on the virtual nodes of
    a node fall on points it already has: however large [vnPerNode], a node
    occupies at most 256 points. *)
Theorem ring_at_most_256_points (n : nat) (id : string) :
  size (list_to_set (hash <$> nodeVnodes sum64 n id) : gset Z) ≤ 256.
Proof.
  trans (size (list_to_set ((λ i, sum64 (vnodeName id i)) <$> seq 0 256) : gset Z)).
  - apply subseteq_size. intros h. rewrite !elem_of_list_to_set. unfold nodeVnodes.
    rewrite <- list_fmap_compose, !list_elem_of_fmap. intros (i & -> & _). exists (i mod 256). split.
    + cbn [compose hash]. unfold compose, vnodeName. cbn [hash]. by rewrite Nat.Div0.mod_mod.
    + apply elem_of_seq. pose proof (Nat.mod_upper_bound i 256). lia.
  - etrans; [apply size_list_le|]. by rewrite length_fmap, length_seq.
Qed.

End RingFacts.

(** ** Instances *)

Definition sample_sum64 (s : string) : Z :=
  (foldl (λ h c, h * 256 + Z.of_nat (nat_of_ascii c)) 7 (String.list_ascii_of_string s) mod 2 ^ 64)%Z.

#[local] Instance cmp_dec (cmp : vnode → vnode → Z) : RelDecision (λ a b, cmp a b ≤ 0)%Z.
Proof. intros a b. apply _. Defined.

Definition sample_sort (cmp : vnode → vnode → Z) : list vnode → list vnode :=
  merge_sort (λ a b, cmp a b ≤ 0)%Z.

Lemma sample_sort_ok : sort_ok sample_sort.
Proof.
  split; [intros; apply merge_sort_Permutation|]. intros l.
  assert (∀ a b, (cmpVnode a b ≤ 0)%Z ↔ hash_le a b) as Hc.
  { intros a b. unfold cmpVnode, hash_le. destruct (Z.ltb_spec (hash a) (hash b)); [split; lia|].
    destruct (Z.ltb_spec (hash b) (hash a)); split; lia. }
  assert (StronglySorted (λ a b, cmpVnode a b ≤ 0)%Z (sample_sort cmpVnode l)) as Hs.
  { apply StronglySorted_merge_sort.
    - intros a b c. rewrite !Hc. unfold hash_le. lia.
    - intros a b. rewrite !Hc. unfold hash_le. lia. }
  induction Hs as [|v l' Hl IH Hall]; constructor; [done|].
  eapply Forall_impl; [exact Hall|]. intros w. apply Hc.
Qed.

Definition sample_ring : Ring := NewRing [WithVirtualNodes 2; WithReplication 2].

Lemma sample_collision_free : collision_free sample_sum64 2 ["c"; "a"; "b"].
Proof.
  set (l := unsorted sample_sum64 2 ["c"; "a"; "b"]).
  assert (Forall (λ v, Forall (λ w, hash v = hash w → nid v = nid w) l) l) as H.
  { apply (bool_decide_unpack _). vm_compute. reflexivity. }
  intros v w Hv Hw. rewrite Forall_forall in H. specialize (H v Hv). rewrite Forall_forall in H. by apply H.
Qed.

Lemma ring_lookup_owners_witness :
  ∃ res, Lookup sample_sum64 "k" (Build sample_sum64 sample_sort ["a"; "b"] sample_ring) = Some res ∧
    length res = 2 ∧ NoDup res.
Proof.
  destruct (ring_lookup_owners sample_sum64 sample_sort sample_sort_ok sample_ring ["a"; "b"] "k")
    as (res & Hl & Hn & _ & Hlen & _); [reflexivity|reflexivity| |].
  - intros s. apply Z.mod_pos_bound. lia.
  - exists res. split; [exact Hl|]. split; [|exact Hn]. rewrite Hlen. reflexivity.
Defined.

Lemma ring_order_independent_witness :
  Lookup sample_sum64 "k" (Build sample_sum64 sample_sort ["b"; "c"; "a"] sample_ring) =
  Lookup sample_sum64 "k" (Build sample_sum64 sample_sort ["c"; "a"; "b"] sample_ring).
Proof.
  apply (ring_order_independent sample_sum64 sample_sort sample_sort_ok).
  - exact sample_collision_free.
  - apply (bool_decide_unpack _). vm_compute. reflexivity.
Defined.

Lemma ring_minimal_movement_witness :
  ∃ old new d, Lookup sample_sum64 "k" (Build sample_sum64 sample_sort ["a"; "b"] sample_ring) = Some old ∧
    Lookup sample_sum64 "k" (Build sample_sum64 sample_sort ["c"; "a"; "b"] sample_ring) = Some new ∧ d ≤ 1 ∧
    filter (λ y, y ≠ "c"%string) new = take (2 - d) old.
Proof.
  apply (ring_minimal_movement sample_sum64 sample_sort sample_sort_ok sample_ring).
  - apply (bool_decide_unpack _). vm_compute. reflexivity.
  - exact sample_collision_free.
Defined.
