(* ===== verification/Membership.v ===== *)
(** * Cluster membership and gossip
    (internal/cluster/membership.go, internal/cluster/node.go,
    internal/cluster/version.go; acceptGossip and refuteIfSuspected of
    pkg/backend/dist_memory.go)

    [Membership] maps node ids to node cells in a store, because Go shares them:
    the backend's [localNode] is the cell registered for its own id, so [Refute]
    changes it too.  A mutation has a part under the lock and a part after it
    (rebuilding the ring, telling the observers); [events] is what the observers
    were told.  Parameters: the hash, the sort, and [enum], the order in which Go
    ranges over a map. *)

From stdpp Require Import base gmap strings list fin_maps.
From Stdlib Require Import ZArith Lia.
From S2P Require Import Prelude Ring.

(** ** The code *)

Inductive NodeState := NodeAlive | NodeSuspect | NodeDead.
#[global] Instance NodeState_eq : EqDecision NodeState.
Proof. solve_decision. Defined.

Record Node := MkNode {
  ID : string;
  Address : string;
  State : NodeState;
  Incarnation : Z;     (* uint64 *)
  LastSeen : Z }.

Definition seen_at (now : Z) (n : Node) : Node :=
  MkNode (ID n) (Address n) (State n) (Incarnation n) now.

Record Membership := MkMembership {
  store : gmap loc Node;
  brk : loc;
  nodes : gmap string loc;
  ring : Ring;
  ver : Z;             (* uint64 *)
  events : list (string * NodeState * Z) }.

Definition NewMembership (r : Ring) : Membership := MkMembership ∅ 1 ∅ r 0 [].

(** A new node cell; [NewNode] derives a missing id from the address's hash. *)
Definition alloc (n : Node) (m : Membership) : loc * Membership :=
  (brk m, MkMembership (<[brk m := n]> (store m)) (Pos.succ (brk m)) (nodes m) (ring m) (ver m) (events m)).

(** [m.ver.Next()] *)
Definition Next (m : Membership) : Z := u64 (ver m + 1).

Section Membership.
Context (sum64 : string → Z) (SortFunc : (vnode → vnode → Z) → list vnode → list vnode)
  (enum : gmap string loc → list (string * loc)).

(** The ids of the nodes that are not dead, in the order of the map. *)
Fixpoint liveLoop (st : gmap loc Node) (kps : list (string * loc)) : option (list string) :=
  match kps with
  | [] => Some []
  | (_, p) :: kps =>
      n ← st !! p;
      ids ← liveLoop st kps;
      Some (if decide (State n = NodeDead) then ids else ID n :: ids)
  end.

(** The part after the lock: [m.ring.Build(nodes)] and [notify]. *)
Definition finish (live : list string) (ev : string * NodeState * Z) (m : Membership) : Membership :=
  MkMembership (store m) (brk m) (nodes m) (Build sum64 SortFunc live (ring m)) (ver m) (events m ++ [ev]).

Definition upsertLocked (now : Z) (p : loc) (m : Membership)
    : option (Membership * (list string * (string * NodeState * Z))) :=
  n ← store m !! p;
  let st := <[p := seen_at now n]> (store m) in
  let ns := <[ID n := p]> (nodes m) in
  live ← liveLoop st (enum ns);
  Some (MkMembership st (brk m) ns (ring m) (Next m) (events m), (live, (ID n, State n, Next m))).

Definition Upsert (now : Z) (p : loc) (m : Membership) : option Membership :=
  '(m, (live, ev)) ← upsertLocked now p m; Some (finish live ev m).

Definition Remove (id : string) (m : Membership) : option (Membership * bool) :=
  match nodes m !! id with
  | None => Some (m, false)
  | Some _ =>
      let ns := delete id (nodes m) in
      live ← liveLoop (store m) (enum ns);
      let m := MkMembership (store m) (brk m) ns (ring m) (Next m) (events m) in
      Some (finish live (id, NodeDead, ver m) m, true)
  end.

(** A node cell and the version change, then the observers run. *)
Definition transition (now : Z) (p : loc) (n : Node) (st : NodeState) (m : Membership) : Membership :=
  MkMembership (<[p := MkNode (ID n) (Address n) st (u64 (Incarnation n + 1)) now]> (store m)) (brk m)
    (nodes m) (ring m) (Next m) (events m).
Definition notify (ev : string * NodeState * Z) (m : Membership) : Membership :=
  MkMembership (store m) (brk m) (nodes m) (ring m) (ver m) (events m ++ [ev]).

Definition Mark (now : Z) (id : string) (st : NodeState) (m : Membership) : option (Membership * bool) :=
  match nodes m !! id with
  | None => Some (m, false)
  | Some p =>
      n ← store m !! p;
      if decide (State n = st) then
        Some (MkMembership (<[p := seen_at now n]> (store m)) (brk m) (nodes m) (ring m) (ver m) (events m), true)
      else
        let m := transition now p n st m in
        Some (notify (id, st, ver m) m, true)
  end.

Definition Refute (now : Z) (id : string) (m : Membership) : option (Membership * bool) :=
  match nodes m !! id with
  | None => Some (m, false)
  | Some p =>
      n ← store m !! p;
      let m := transition now p n NodeAlive m in
      Some (notify (id, NodeAlive, ver m) m, true)
  end.

(** Copies of the cells, in the order of the map. *)
Fixpoint listLoop (st : gmap loc Node) (kps : list (string * loc)) : option (list Node) :=
  match kps with
  | [] => Some []
  | (_, p) :: kps => n ← st !! p; l ← listLoop st kps; Some (n :: l)
  end.
Definition List_ (m : Membership) : option (list Node) := listLoop (store m) (enum (nodes m)).

(** ** Gossip *)

(** [localNode] is the cell [self]. *)
Definition refuteIfSuspected (now : Z) (self : loc) (claim : Node) (m : Membership) : option Membership :=
  me ← store m !! self;
  if decide (State claim = NodeAlive) then Some m
  else if (Incarnation claim <? Incarnation me)%Z then Some m
  else '(m, _) ← Refute now (ID me) m; Some m.

(** [Upsert] of a fresh copy of the gossiped node. *)
Definition adopt (now : Z) (n : Node) (m : Membership) : option Membership :=
  let '(p, m) := alloc (MkNode (ID n) (Address n) (State n) (Incarnation n) now) m in Upsert now p m.

Fixpoint acceptGossip (now : Z) (self : loc) (ns : list Node) (m : Membership) : option Membership :=
  match ns with
  | [] => Some m
  | node :: ns =>
      me ← store m !! self;
      m ← (if decide (ID node = ID me) then refuteIfSuspected now self node m
           else
             cur ← List_ m;
             match list_find (λ c, ID c = ID node) cur with
             | Some (_, c) => if (Incarnation c <? Incarnation node)%Z then adopt now node m else Some m
             | None => adopt now node m
             end);
      acceptGossip now self ns m
  end.

(** ** Heartbeat

    What the network answers is given: [healthOK] for the direct probe, [relayOK]
    for whether some relay reaches the target. *)
Record HeartbeatConfig := MkHB { hbSuspectAfter : Z; hbDeadAfter : Z; indirectProbeK : Z }.

Definition handleProbeFailure (cfg : HeartbeatConfig) (now : Z) (node : Node) (relayOK : bool)
    (m : Membership) : option Membership :=
  if ((0 <? indirectProbeK cfg)%Z && relayOK)%bool then '(m, _) ← Mark now (ID node) NodeAlive m; Some m
  else if decide (State node ≠ NodeAlive) then Some m
  else '(m, _) ← Mark now (ID node) NodeSuspect m; Some m.

Definition evaluateLiveness (cfg : HeartbeatConfig) (now : Z) (node : Node) (healthOK relayOK : bool)
    (m : Membership) : option Membership :=
  let elapsed := sat64 (now - LastSeen node) in
  if ((0 <? hbDeadAfter cfg) && (hbDeadAfter cfg <? elapsed))%Z then '(m, _) ← Remove (ID node) m; Some m
  else
    m ← (if ((0 <? hbSuspectAfter cfg) && (hbSuspectAfter cfg <? elapsed) &&
             bool_decide (State node = NodeAlive))%Z
         then '(m, _) ← Mark now (ID node) NodeSuspect m; Some m else Some m);
    if healthOK : bool then '(m, _) ← Mark now (ID node) NodeAlive m; Some m
    else handleProbeFailure cfg now node relayOK m.

(** One tick over the sampled peers [peers] (copies of members). *)
Fixpoint heartbeatLoop (cfg : HeartbeatConfig) (now : Z) (self : loc) (healthOK relayOK : string → bool)
    (peers : list Node) (m : Membership) : option Membership :=
  match peers with
  | [] => Some m
  | node :: peers =>
      me ← store m !! self;
      m ← (if decide (ID node = ID me) then Some m
           else evaluateLiveness cfg now node (healthOK (ID node)) (relayOK (ID node)) m);
      heartbeatLoop cfg now self healthOK relayOK peers m
  end.

End Membership.

(** ** The members *)

(** Every registered cell is allocated and carries the id it is registered for. *)
Record wf (m : Membership) : Prop := {
  wf_cells : ∀ k p, nodes m !! k = Some p → ∃ n, store m !! p = Some n ∧ ID n = k;
  wf_brk : ∀ p, is_Some (store m !! p) → (p < brk m)%positive }.

Definition view (m : Membership) : gmap string Node := omap (λ p, store m !! p) (nodes m).

Definition live_ids (v : gmap string Node) : list string :=
  (map_to_list (filter (λ kv, State kv.2 ≠ NodeDead) v)).*1.

Lemma view_lookup m k n :
  view m !! k = Some n ↔ ∃ p, nodes m !! k = Some p ∧ store m !! p = Some n.
Proof.
  unfold view. rewrite lookup_omap. destruct (nodes m !! k) as [p|]; cbn; naive_solver.
Qed.

Lemma membership_view_None m k : wf m → view m !! k = None ↔ nodes m !! k = None.
Proof.
  intros Hw. unfold view. rewrite lookup_omap. destruct (nodes m !! k) as [p|] eqn:E; cbn; [|done].
  destruct (wf_cells _ Hw _ _ E) as (n & -> & _). done.
Qed.

Lemma view_ID m k n : wf m → view m !! k = Some n → ID n = k.
Proof. intros Hw (p & Hk & Hp)%view_lookup. destruct (wf_cells _ Hw _ _ Hk) as (n' & ? & ?). congruence. Qed.

(** Registering a cell for its own id, with new contents for it. *)
Lemma register m p n0 n m' :
  wf m → store m !! p = Some n0 → ID n = ID n0 → store m' = <[p := n]> (store m) →
  nodes m' = <[ID n := p]> (nodes m) → brk m' = brk m →
  wf m' ∧ view m' = <[ID n := n]> (view m).
Proof.
  intros Hw Hp Hid Es En Eb. assert (∀ k q, nodes m !! k = Some q → k ≠ ID n → q ≠ p) as Hne.
  { intros k q Hk Hkn ->. destruct (wf_cells _ Hw _ _ Hk) as (? & ? & ?). congruence. }
  split; [split|].
  - intros k q. rewrite Es, En, lookup_insert. case_decide as Hk.
    + intros [= <-]. exists n. by rewrite lookup_insert_eq.
    + intros Hq. rewrite lookup_insert_ne by (symmetry; by eapply Hne). by apply Hw.
  - intros q. rewrite Es, Eb, lookup_insert. case_decide as Hq; [|by apply Hw].
    intros _. subst q. apply Hw. eauto.
  - apply map_eq. intros k. unfold view. rewrite lookup_omap, En, Es, !lookup_insert. case_decide as Hk.
    + cbn. by rewrite lookup_insert_eq.
    + rewrite lookup_omap. destruct (nodes m !! k) as [q|] eqn:Eq; cbn; [|done].
      rewrite lookup_insert_ne; [done|]. symmetry. by eapply Hne.
Qed.

(** The same for a cell already registered. *)
Lemma rewrite_cell m k p n0 n m' :
  wf m → nodes m !! k = Some p → store m !! p = Some n0 → ID n = ID n0 →
  store m' = <[p := n]> (store m) → nodes m' = nodes m → brk m' = brk m →
  wf m' ∧ view m' = <[k := n]> (view m).
Proof.
  intros Hw Hk Hp Hid Es En Eb. destruct (wf_cells _ Hw _ _ Hk) as (n1 & Hp1 & Hid1).
  assert (ID n = k) as <- by congruence. eapply register; try done. by rewrite En, insert_id.
Qed.

(** ** The operations on the members *)

Section Facts.
Context (sum64 : string → Z) (SortFunc : (vnode → vnode → Z) → list vnode → list vnode)
  (enum : gmap string loc → list (string * loc)).
Context (Henum : ∀ m, enum m ≡ₚ map_to_list m).

Definition live_of (st : gmap loc Node) (kp : string * loc) : option string :=
  n ← st !! kp.2; if decide (State n = NodeDead) then None else Some (ID n).

Lemma liveLoop_omap st kps :
  (∀ k p, (k, p) ∈ kps → ∃ n, st !! p = Some n ∧ ID n = k) →
  liveLoop st kps = Some (omap (live_of st) kps).
Proof.
  induction kps as [|[k p] kps IH]; intros Hc; cbn [liveLoop]; [done|].
  destruct (Hc k p) as (n & Hp & Hid); [by left|]. rewrite Hp. cbn [mbind option_bind].
  rewrite IH by (intros; apply Hc; by right). cbn [mbind option_bind omap list_omap].
  assert (live_of st (k, p) = if decide (State n = NodeDead) then None else Some (ID n)) as ->
    by (unfold live_of; cbn; by rewrite Hp).
  by case_decide.
Qed.

(** The nodes the ring is rebuilt from are the members that are not dead. *)
Lemma live_ok m :
  wf m → ∃ live, liveLoop (store m) (enum (nodes m)) = Some live ∧ live ≡ₚ live_ids (view m).
Proof.
  intros Hw. exists (omap (live_of (store m)) (enum (nodes m))). split.
  - apply liveLoop_omap. intros k p. rewrite Henum, elem_of_map_to_list. apply Hw.
  - rewrite Henum. unfold live_ids. apply NoDup_Permutation.
    + assert (omap (live_of (store m)) (map_to_list (nodes m)) `sublist_of` (map_to_list (nodes m)).*1) as Hs.
      { assert (∀ k p, (k, p) ∈ map_to_list (nodes m) → ∃ n, store m !! p = Some n ∧ ID n = k) as Hc
          by (intros k p; rewrite elem_of_map_to_list; apply Hw).
        induction (map_to_list (nodes m)) as [|[k p] l IH]; [constructor|].
        cbn [omap list_omap fmap list_fmap]. destruct (Hc k p) as (n & Hp & Hid); [by left|].
        assert (live_of (store m) (k, p) = if decide (State n = NodeDead) then None else Some (ID n)) as ->
          by (unfold live_of; cbn; by rewrite Hp).
        assert (omap (live_of (store m)) l `sublist_of` l.*1) as Hl by (apply IH; intros; apply Hc; by right).
        case_decide; [by apply sublist_cons|]. rewrite Hid. by apply sublist_skip. }
      eapply sublist_NoDup; [apply (NoDup_fst_map_to_list (nodes m))|exact Hs].
    + apply NoDup_fst_map_to_list.
    + intros k. rewrite list_elem_of_omap, list_elem_of_fmap. split.
      * intros ([k' p] & Hin%elem_of_map_to_list & Hl). unfold live_of in Hl. cbn in Hl.
        destruct (wf_cells _ Hw _ _ Hin) as (n & Hp & Hid). rewrite Hp in Hl. cbn in Hl.
        case_decide; [done|]. simplify_eq. exists (ID n, n). split; [done|].
        apply elem_of_map_to_list, map_lookup_filter_Some. split; [|done]. apply view_lookup. eauto.
      * intros ([k' n] & -> & [Hv Hd]%elem_of_map_to_list%map_lookup_filter_Some).
        pose proof (view_ID _ _ _ Hw Hv) as Hid. apply view_lookup in Hv as (p & Hk & Hp).
        exists (k', p). split; [by apply elem_of_map_to_list|]. unfold live_of. cbn in *. rewrite Hp. cbn.
        rewrite decide_False by done. by rewrite Hid.
Qed.

(** What a mutation does besides changing the members: the version advances and the
    observers hear of it. *)
Definition announces (m m' : Membership) (id : string) (st : NodeState) : Prop :=
  ver m' = Next m ∧ events m' = events m ++ [(id, st, Next m)].

Definition rebuilt (m m' : Membership) : Prop :=
  ∃ live, ring m' = Build sum64 SortFunc live (ring m) ∧ live ≡ₚ live_ids (view m').

Lemma Upsert_ok now p n m :
  wf m → store m !! p = Some n →
  ∃ m', Upsert sum64 SortFunc enum now p m = Some m' ∧ wf m' ∧
    view m' = <[ID n := seen_at now n]> (view m) ∧ announces m m' (ID n) (State n) ∧ rebuilt m m' ∧
    store m' = <[p := seen_at now n]> (store m) ∧ nodes m' = <[ID n := p]> (nodes m).
Proof.
  intros Hw Hp. unfold Upsert, upsertLocked. rewrite Hp. cbn [mbind option_bind].
  set (m1 := MkMembership (<[p := seen_at now n]> (store m)) (brk m) (<[ID n := p]> (nodes m)) (ring m) (Next m) (events m)).
  destruct (register m p n (seen_at now n) m1) as [Hw1 Hv1]; try done.
  destruct (live_ok m1 Hw1) as (live & Hl & Hperm). cbn [store nodes m1] in Hl. rewrite Hl. cbn [mbind option_bind].
  eexists. split; [done|].
  assert (wf (finish sum64 SortFunc live (ID n, State n, Next m) m1)) as Hw2 by (destruct Hw1; by split).
  split_and!; [done|exact Hv1|done| |done|done]. exists live. by split.
Qed.

Lemma membership_Remove_ok id m :
  wf m → ∃ m', Remove sum64 SortFunc enum id m = Some (m', bool_decide (is_Some (view m !! id))) ∧ wf m' ∧
    view m' = delete id (view m) ∧ store m' = store m ∧
    (view m !! id = None → m' = m) ∧
    (is_Some (view m !! id) → announces m m' id NodeDead ∧ rebuilt m m').
Proof.
  intros Hw. unfold Remove. destruct (nodes m !! id) as [p|] eqn:E.
  - assert (is_Some (view m !! id)) as Hs.
    { destruct (wf_cells _ Hw _ _ E) as (n & Hp & _). exists n. apply view_lookup. eauto. }
    rewrite bool_decide_eq_true_2 by done.
    set (m1 := MkMembership (store m) (brk m) (delete id (nodes m)) (ring m) (Next m) (events m)).
    assert (wf m1) as Hw1.
    { split; cbn; [|apply Hw]. intros k q [_ Hk]%lookup_delete_Some. by apply Hw. }
    assert (view m1 = delete id (view m)) as Hv.
    { unfold view, m1. cbn. by rewrite omap_delete. }
    destruct (live_ok m1 Hw1) as (live & Hl & Hperm). cbn [store nodes m1] in Hl. rewrite Hl. cbn [mbind option_bind].
    eexists. split; [done|]. split_and!; [destruct Hw1; by split|exact Hv|done|intros H; by rewrite H in Hs|].
    intros _. split; [done|]. exists live. by split.
  - assert (view m !! id = None) as Hn by (by apply membership_view_None). rewrite Hn.
    exists m. split; [done|]. split_and!; [done|by rewrite delete_id|done|done|by intros []].
Qed.

(** A change of state by [Mark] or [Refute]. *)
Definition moved (now : Z) (st : NodeState) (n : Node) : Node :=
  MkNode (ID n) (Address n) st (u64 (Incarnation n + 1)) now.

Lemma Mark_ok now id st m :
  wf m → ∃ m', Mark now id st m = Some (m', bool_decide (is_Some (view m !! id))) ∧ wf m' ∧ ring m' = ring m ∧
    nodes m' = nodes m ∧
    match view m !! id with
    | None => m' = m
    | Some n =>
        if decide (State n = st)
        then view m' = <[id := seen_at now n]> (view m) ∧ ver m' = ver m ∧ events m' = events m
        else view m' = <[id := moved now st n]> (view m) ∧ announces m m' id st
    end.
Proof.
  intros Hw. unfold Mark. destruct (nodes m !! id) as [p|] eqn:E.
  - destruct (wf_cells _ Hw _ _ E) as (n & Hp & Hid).
    assert (view m !! id = Some n) as Hv by (apply view_lookup; eauto). rewrite Hv, Hp. cbn [mbind option_bind].
    rewrite bool_decide_eq_true_2 by done. case_decide.
    + set (m1 := MkMembership _ _ _ _ _ _).
      destruct (rewrite_cell m id p n (seen_at now n) m1) as [Hw1 Hv1]; try done.
      exists m1. by split_and!.
    + set (m1 := notify _ _). destruct (rewrite_cell m id p n (moved now st n) m1) as [Hw1 Hv1]; try done.
      exists m1. by split_and!.
  - assert (view m !! id = None) as Hn by (by apply membership_view_None). rewrite Hn. exists m. by split_and!.
Qed.

Lemma Refute_ok now id m :
  wf m → ∃ m', Refute now id m = Some (m', bool_decide (is_Some (view m !! id))) ∧ wf m' ∧ ring m' = ring m ∧
    nodes m' = nodes m ∧
    match view m !! id with
    | None => m' = m
    | Some n => view m' = <[id := moved now NodeAlive n]> (view m) ∧ announces m m' id NodeAlive
    end.
Proof.
  intros Hw. unfold Refute. destruct (nodes m !! id) as [p|] eqn:E.
  - destruct (wf_cells _ Hw _ _ E) as (n & Hp & Hid).
    assert (view m !! id = Some n) as Hv by (apply view_lookup; eauto). rewrite Hv, Hp. cbn [mbind option_bind].
    rewrite bool_decide_eq_true_2 by done.
    set (m1 := notify _ _). destruct (rewrite_cell m id p n (moved now NodeAlive n) m1) as [Hw1 Hv1]; try done.
    exists m1. by split_and!.
  - assert (view m !! id = None) as Hn by (by apply membership_view_None). rewrite Hn. exists m. by split_and!.
Qed.

(** ** Gossip on the members *)

Lemma List_ok m : wf m → ∃ l, List_ enum m = Some l ∧ l ≡ₚ (map_to_list (view m)).*2.
Proof.
  intros Hw. unfold List_.
  assert (∀ kps, (∀ k p, (k, p) ∈ kps → nodes m !! k = Some p) →
    ∃ l, listLoop (store m) kps = Some l ∧ l = omap (λ kp, store m !! kp.2) kps) as Hgen.
  { induction kps as [|[k p] kps IH]; intros Hc; cbn [listLoop]; [by exists []|].
    destruct (wf_cells _ Hw k p) as (n & Hp & _); [apply Hc; by left|]. rewrite Hp.
    destruct IH as (l & -> & ->); [intros; apply Hc; by right|]. cbn [mbind option_bind].
    eexists. split; [done|]. cbn [omap list_omap snd]. by rewrite Hp. }
  destruct (Hgen (enum (nodes m))) as (l & -> & ->).
  { intros k p. rewrite Henum. by rewrite elem_of_map_to_list. }
  eexists. split; [done|]. rewrite Henum. unfold view.
  assert (∀ ns, map_to_list (omap (λ p, store m !! p) ns) ≡ₚ
    omap (λ kp : string * loc, (λ n, (kp.1, n)) <$> store m !! kp.2) (map_to_list ns)) as Hm.
  { clear. intros ns. induction ns as [|k p ns Hk IH] using map_ind; [done|].
    rewrite (map_to_list_insert ns k p Hk). cbn [omap list_omap fst snd].
    destruct (store m !! p) as [n|] eqn:E; cbn [fmap option_fmap option_map].
    - rewrite (omap_insert_Some _ _ _ _ n) by done. rewrite map_to_list_insert; [by rewrite IH|].
      rewrite lookup_omap, Hk. done.
    - rewrite (omap_insert_None _ _ _ _) by done. by rewrite delete_id by (by rewrite lookup_omap, Hk). }
  rewrite Hm. clear. induction (map_to_list (nodes m)) as [|[k p] l IH]; [done|]. cbn [omap list_omap fst snd].
  destruct (store m !! p); cbn [fmap option_fmap option_map list_fmap]; [by rewrite IH|done].
Qed.

Lemma find_member m l id :
  wf m → l ≡ₚ (map_to_list (view m)).*2 →
  match view m !! id with
  | Some n => ∃ i, list_find (λ c, ID c = id) l = Some (i, n)
  | None => list_find (λ c, ID c = id) l = None
  end.
Proof.
  intros Hw Hl.
  assert (∀ c, c ∈ l → view m !! ID c = Some c) as Hin.
  { intros c. rewrite Hl. intros ([k n] & -> & Hk%elem_of_map_to_list)%list_elem_of_fmap. cbn.
    by rewrite (view_ID _ _ _ Hw Hk). }
  destruct (view m !! id) as [n|] eqn:E.
  - destruct (list_find_elem_of (λ c, ID c = id) l n) as [[i c] Hf].
    + rewrite Hl. apply list_elem_of_fmap. exists (id, n). by rewrite elem_of_map_to_list.
    + by eapply view_ID.
    + exists i. rewrite Hf. pose proof Hf as (Hc & Hid & _)%list_find_Some.
      apply list_elem_of_lookup_2, Hin in Hc. congruence.
  - apply list_find_None, Forall_forall. intros c Hc <-. apply Hin in Hc. congruence.
Qed.

(** The gossiped node as it is stored. *)
Definition copied (now : Z) (n : Node) : Node := MkNode (ID n) (Address n) (State n) (Incarnation n) now.

(** Higher incarnation wins; a tie keeps what is there. *)
Definition merge (now : Z) (n : Node) (v : gmap string Node) : gmap string Node :=
  match v !! ID n with
  | Some c => if (Incarnation c <? Incarnation n)%Z then <[ID n := copied now n]> v else v
  | None => <[ID n := copied now n]> v
  end.

Definition refuted (now : Z) (claim : Node) (v : gmap string Node) : gmap string Node :=
  match v !! ID claim with
  | Some me =>
      if decide (State claim = NodeAlive) then v
      else if (Incarnation claim <? Incarnation me)%Z then v
      else <[ID claim := moved now NodeAlive me]> v
  | None => v
  end.

Definition gossiped (now : Z) (id : string) (n : Node) (v : gmap string Node) : gmap string Node :=
  if decide (ID n = id) then refuted now n v else merge now n v.

(** The backend's own cell is the one registered for its id. *)
Definition is_self (self : loc) (id : string) (m : Membership) : Prop :=
  nodes m !! id = Some self.

Lemma self_cell self id m :
  wf m → is_self self id m → ∃ me, store m !! self = Some me ∧ ID me = id ∧ view m !! id = Some me.
Proof.
  intros Hw Hs. destruct (wf_cells _ Hw _ _ Hs) as (me & Hp & Hid). exists me. split_and!; [done|done|].
  apply view_lookup. eauto.
Qed.

Lemma adopt_ok now n m self id :
  wf m → is_self self id m → ID n ≠ id →
  ∃ m', adopt sum64 SortFunc enum now n m = Some m' ∧ wf m' ∧ is_self self id m' ∧
    view m' = <[ID n := copied now n]> (view m) ∧ rebuilt m m'.
Proof.
  intros Hw Hs Hne. unfold adopt. cbn [alloc].
  set (m0 := MkMembership (<[brk m := copied now n]> (store m)) (Pos.succ (brk m)) (nodes m) (ring m) (ver m) (events m)).
  assert (∀ p, is_Some (store m !! p) → p ≠ brk m) as Hfresh
    by (intros p Hp ->; apply (wf_brk _ Hw) in Hp; lia).
  assert (wf m0) as Hw0.
  { split; cbn.
    - intros k p Hk. destruct (wf_cells _ Hw _ _ Hk) as (n' & Hp & ?). exists n'.
      rewrite lookup_insert_ne; [done|]. intros E. symmetry in E. revert E. apply Hfresh. eauto.
    - intros p. rewrite lookup_insert. case_decide as E; [intros _; subst; lia|].
      intros Hp%(wf_brk _ Hw). lia. }
  assert (view m0 = view m) as Hv0.
  { apply map_eq. intros k. unfold view. rewrite !lookup_omap. cbn.
    destruct (nodes m !! k) as [p|] eqn:E; cbn; [|done].
    rewrite lookup_insert_ne; [done|]. intros E'. symmetry in E'. revert E'. apply Hfresh.
    destruct (wf_cells _ Hw _ _ E) as (? & ? & _). eauto. }
  destruct (Upsert_ok now (brk m) (copied now n) m0 Hw0) as (m' & Hu & Hw' & Hv' & _ & Hre & _ & Hn').
  { apply lookup_insert_eq. }
  exists m'. split_and!; [exact Hu|done| |by rewrite Hv', Hv0|exact Hre].
  unfold is_self. rewrite Hn'. cbn. by rewrite lookup_insert_ne.
Qed.

Lemma gossip_one now self id n m :
  wf m → is_self self id m →
  ∃ m', acceptGossip sum64 SortFunc enum now self [n] m = Some m' ∧ wf m' ∧ is_self self id m' ∧
    view m' = gossiped now id n (view m).
Proof.
  intros Hw Hs. destruct (self_cell _ _ _ Hw Hs) as (me & Hp & Hid & Hv). cbn [acceptGossip].
  rewrite Hp. cbn [mbind option_bind]. rewrite Hid. unfold gossiped. case_decide as Hn.
  - unfold refuteIfSuspected, refuted. rewrite Hp, Hn, Hv. cbn [mbind option_bind].
    case_decide; [by eexists|]. destruct (_ <? _)%Z; [by eexists|].
    destruct (Refute_ok now (ID me) m Hw) as (m' & -> & Hw' & _ & Hns & Hcase). rewrite Hid, Hv in Hcase.
    destruct Hcase as [Hv' _]. exists m'. split_and!; [done|done|by unfold is_self; rewrite Hns|done].
  - destruct (List_ok m Hw) as (l & -> & Hl). cbn [mbind option_bind]. pose proof (find_member m l (ID n) Hw Hl) as Hf.
    unfold merge. destruct (view m !! ID n) as [c|].
    + destruct Hf as [i ->]. destruct (_ <? _)%Z; [|by eexists].
      destruct (adopt_ok now n m self id Hw Hs Hn) as (m' & -> & ? & ? & ? & _). by exists m'.
    + rewrite Hf. destruct (adopt_ok now n m self id Hw Hs Hn) as (m' & -> & ? & ? & ? & _). by exists m'.
Qed.

Lemma acceptGossip_app now self ns ns' m :
  acceptGossip sum64 SortFunc enum now self (ns ++ ns') m =
  m' ← acceptGossip sum64 SortFunc enum now self ns m; acceptGossip sum64 SortFunc enum now self ns' m'.
Proof.
  revert m. induction ns as [|n ns IH]; intros m; cbn [acceptGossip app]; [done|].
  destruct (store m !! self) as [me|]; cbn [mbind option_bind]; [|done].
  case_decide.
  - destruct (refuteIfSuspected now self n m); cbn [mbind option_bind]; [apply IH|done].
  - destruct (List_ enum m) as [cur|]; cbn [mbind option_bind]; [|done].
    destruct (list_find _ cur) as [[i c]|]; [destruct (_ <? _)%Z|].
    + destruct (adopt _ _ _ now n m); cbn [mbind option_bind]; [apply IH|done].
    + cbn [mbind option_bind]. apply IH.
    + destruct (adopt _ _ _ now n m); cbn [mbind option_bind]; [apply IH|done].
Qed.

Lemma gossip_ok now self id ns m :
  wf m → is_self self id m →
  ∃ m', acceptGossip sum64 SortFunc enum now self ns m = Some m' ∧ wf m' ∧ is_self self id m' ∧
    view m' = foldl (λ v n, gossiped now id n v) (view m) ns.
Proof.
  revert m. induction ns as [|n ns IH]; intros m Hw Hs; [by exists m|].
  destruct (gossip_one now self id n m Hw Hs) as (m1 & H1 & Hw1 & Hs1 & Hv1).
  destruct (IH m1 Hw1 Hs1) as (m2 & H2 & Hw2 & Hs2 & Hv2). exists m2.
  change (n :: ns) with ([n] ++ ns). rewrite acceptGossip_app, H1. cbn [mbind option_bind].
  split_and!; [done|done|done|]. cbn. by rewrite <- Hv1.
Qed.

(** ** What gossip converges to *)

Definition inc_of (v : gmap string Node) (k : string) : Z := from_option Incarnation (-1)%Z (v !! k).

Lemma gossiped_remote now id n v k :
  k ≠ id → (0 ≤ Incarnation n)%Z →
  let v' := gossiped now id n v in
  (inc_of v k ≤ inc_of v' k)%Z ∧ (ID n = k → Incarnation n ≤ inc_of v' k)%Z ∧
  (v' !! k = v !! k ∨ ID n = k ∧ v' !! k = Some (copied now n)).
Proof.
  intros Hk Hn. cbn zeta. unfold gossiped, inc_of. case_decide as Hid.
  - unfold refuted. assert (ID n ≠ k) by congruence.
    assert (∀ x, (<[ID n := x]> v : gmap string Node) !! k = v !! k) as E by (intros; by rewrite lookup_insert_ne).
    destruct (v !! ID n) as [me|]; [repeat case_match|]; rewrite ?E; split_and!; (lia || naive_solver).
  - unfold merge. destruct (decide (ID n = k)) as [<-|Hne].
    + destruct (v !! ID n) as [c|] eqn:Ec; [destruct (Z.ltb_spec (Incarnation c) (Incarnation n))|];
        rewrite ?lookup_insert_eq, ?Ec; cbn; split_and!; (lia || naive_solver).
    + assert (∀ x, (<[ID n := x]> v : gmap string Node) !! k = v !! k) as E by (intros; by rewrite lookup_insert_ne).
      destruct (v !! ID n) as [c|]; [destruct (_ <? _)%Z|]; rewrite ?E; split_and!; (lia || naive_solver).
Qed.

Lemma gossiped_all now id ns v k :
  k ≠ id → Forall (λ n, 0 ≤ Incarnation n)%Z ns →
  let v' := foldl (λ v n, gossiped now id n v) v ns in
  (inc_of v k ≤ inc_of v' k)%Z ∧ (∀ n, n ∈ ns → ID n = k → Incarnation n ≤ inc_of v' k)%Z ∧
  (v' !! k = v !! k ∨ ∃ n, n ∈ ns ∧ ID n = k ∧ v' !! k = Some (copied now n)).
Proof.
  intros Hk. revert v. induction ns as [|n ns IH]; intros v Hns; cbn [foldl].
  { split_and!; [lia|by intros ? ?%elem_of_nil|by left]. }
  apply Forall_cons in Hns as [Hn Hns].
  destruct (gossiped_remote now id n v k Hk Hn) as (H1 & H2 & H3).
  destruct (IH (gossiped now id n v) Hns) as (H4 & H5 & H6). cbn zeta in *. split_and!; [lia|..].
  - intros n' [->|Hin]%elem_of_cons Hid; [specialize (H2 Hid); lia|by apply H5].
  - destruct H6 as [H6|(n' & ? & ? & ?)]; [|right; exists n'; set_solver].
    rewrite H6. destruct H3 as [H3|[? H3]]; [by left|right]. exists n. split_and!; [by left|done|done].
Qed.

(** C35: Accepting gossip never fails on a well-formed membership that contains the
    local node, and for every other node the result is the entry of highest
    incarnation among the local one and those gossiped (the local one on a tie):
    incarnations never go back, and nothing is invented. *)
Theorem gossip_highest_incarnation_wins (now : Z) (self : loc) (id : string) (ns : list Node)
    (m : Membership) (k : string) :
  wf m → is_self self id m → Forall (λ n, 0 ≤ Incarnation n)%Z ns → k ≠ id →
  ∃ m', acceptGossip sum64 SortFunc enum now self ns m = Some m' ∧ wf m' ∧ is_self self id m' ∧
    (inc_of (view m) k ≤ inc_of (view m') k)%Z ∧
    (∀ n, n ∈ ns → ID n = k → Incarnation n ≤ inc_of (view m') k)%Z ∧
    (view m' !! k = view m !! k ∨ ∃ n, n ∈ ns ∧ ID n = k ∧ view m' !! k = Some (copied now n)).
Proof.
  intros Hw Hs Hns Hk. destruct (gossip_ok now self id ns m Hw Hs) as (m' & Ha & Hw' & Hs' & Hv).
  exists m'. rewrite Hv. destruct (gossiped_all now id ns (view m) k Hk Hns) as (? & ? & ?). by split_and!.
Qed.

(** A snapshot lists every member once. *)
Lemma membership_snapshot_ok m snap :
  wf m → List_ enum m = Some snap → ∀ n, n ∈ snap ↔ view m !! ID n = Some n.
Proof.
  intros Hw Hl n. destruct (List_ok m Hw) as (l & Hl' & Hp). rewrite Hl in Hl'. simplify_eq. rewrite Hp.
  rewrite list_elem_of_fmap. split.
  - intros ([k n'] & -> & Hk%elem_of_map_to_list). cbn. by rewrite (view_ID _ _ _ Hw Hk).
  - intros Hn. exists (ID n, n). by rewrite elem_of_map_to_list.
Qed.

Lemma inc_low (v : gmap string Node) k :
  map_Forall (λ _ n, 0 ≤ Incarnation n)%Z v → (-1 ≤ inc_of v k)%Z.
Proof.
  intros Hv. unfold inc_of. destruct (v !! k) as [n|] eqn:E; cbn; [pose proof (Hv _ _ E); cbn in *; lia|lia].
Qed.

Lemma snapshot_le m (snap : list Node) k x :
  wf m → (∀ n, n ∈ snap ↔ view m !! ID n = Some n) →
  (∀ n, n ∈ snap → ID n = k → Incarnation n ≤ x)%Z → (-1 ≤ x)%Z → (inc_of (view m) k ≤ x)%Z.
Proof.
  intros Hw Hn Hx Hm. unfold inc_of. destruct (view m !! k) as [n|] eqn:E; cbn; [|done].
  pose proof (view_ID _ _ _ Hw E). apply Hx; [|done]. apply Hn. congruence.
Qed.

Lemma snapshot_eq m (snap : list Node) k v now :
  (∀ n, n ∈ snap ↔ view m !! ID n = Some n) →
  (∃ n, n ∈ snap ∧ ID n = k ∧ v !! k = Some (copied now n)) → inc_of v k = inc_of (view m) k.
Proof. intros Hn (n & Hin & <- & E). unfold inc_of. rewrite E. apply Hn in Hin. by rewrite Hin. Qed.

(** One exchange of snapshots makes two members agree on the incarnation of every
    third node, whatever they knew before. *)
Theorem gossip_exchange_agrees (now now' : Z) (self1 self2 : loc) (id1 id2 k : string) (m1 m2 : Membership)
    (snap1 snap2 : list Node) :
  wf m1 → wf m2 → is_self self1 id1 m1 → is_self self2 id2 m2 →
  List_ enum m1 = Some snap1 → List_ enum m2 = Some snap2 →
  map_Forall (λ _ n, 0 ≤ Incarnation n)%Z (view m1) → map_Forall (λ _ n, 0 ≤ Incarnation n)%Z (view m2) →
  k ≠ id1 → k ≠ id2 →
  ∃ m1' m2', acceptGossip sum64 SortFunc enum now self1 snap2 m1 = Some m1' ∧
    acceptGossip sum64 SortFunc enum now' self2 snap1 m2 = Some m2' ∧
    inc_of (view m1') k = inc_of (view m2') k.
Proof.
  intros Hw1 Hw2 Hs1 Hs2 Hl1 Hl2 Hi1 Hi2 Hk1 Hk2.
  pose proof (membership_snapshot_ok _ _ Hw1 Hl1) as Hn1. pose proof (membership_snapshot_ok _ _ Hw2 Hl2) as Hn2.
  assert (Forall (λ n, 0 ≤ Incarnation n)%Z snap1) as Hf1
    by (apply Forall_forall; intros n Hn; apply Hn1 in Hn; exact (Hi1 _ _ Hn)).
  assert (Forall (λ n, 0 ≤ Incarnation n)%Z snap2) as Hf2
    by (apply Forall_forall; intros n Hn; apply Hn2 in Hn; exact (Hi2 _ _ Hn)).
  destruct (gossip_ok now self1 id1 snap2 m1 Hw1 Hs1) as (m1' & Ha1 & _ & _ & Hv1).
  destruct (gossip_ok now' self2 id2 snap1 m2 Hw2 Hs2) as (m2' & Ha2 & _ & _ & Hv2).
  exists m1', m2'. split_and!; [done|done|]. rewrite Hv1, Hv2.
  destruct (gossiped_all now id1 snap2 (view m1) k Hk1 Hf2) as (A1 & A2 & A3).
  destruct (gossiped_all now' id2 snap1 (view m2) k Hk2 Hf1) as (B1 & B2 & B3). cbn zeta in *.
  set (v1 := foldl _ (view m1) snap2) in *. set (v2 := foldl _ (view m2) snap1) in *.
  pose proof (inc_low _ k Hi1). pose proof (inc_low _ k Hi2).
  assert (inc_of (view m2) k ≤ inc_of v1 k)%Z by (eapply (snapshot_le m2 snap2); eauto; lia).
  assert (inc_of (view m1) k ≤ inc_of v2 k)%Z by (eapply (snapshot_le m1 snap1); eauto; lia).
  assert (∀ v v' : gmap string Node, v !! k = v' !! k → inc_of v k = inc_of v' k) as Hsame
    by (intros v v' E; unfold inc_of; by rewrite E).
  destruct A3 as [A3|A3]; [apply Hsame in A3|apply (snapshot_eq m2 snap2 k _ now Hn2) in A3];
    (destruct B3 as [B3|B3]; [apply Hsame in B3|apply (snapshot_eq m1 snap1 k _ now' Hn1) in B3]); lia.
Qed.

(** ** Refutation *)

Lemma refuted_rounds now id claim v me j :
  v !! id = Some me → ID me = id → ID claim = id → State claim ≠ NodeAlive →
  (0 ≤ Incarnation me ≤ Incarnation claim)%Z → (Incarnation claim < 2 ^ 64 - 1)%Z → State me = NodeAlive →
  ∃ me', foldl (λ v n, gossiped now id n v) v (replicate j claim) !! id = Some me' ∧ ID me' = id ∧
    State me' = NodeAlive ∧
    Incarnation me' = Z.min (Incarnation me + Z.of_nat j) (Incarnation claim + 1).
Proof.
  intros Hv Hid Hc Hst Hi Hb Ha. revert v me Hv Hid Hi Ha.
  assert (∀ j v me, v !! id = Some me → ID me = id → (Incarnation claim < Incarnation me)%Z →
    foldl (λ v n, gossiped now id n v) v (replicate j claim) = v) as Hdone.
  { clear -Hc Hst. intros j. induction j as [|j IH]; intros v me Hv Hid Hlt; cbn; [done|].
    assert (gossiped now id claim v = v) as ->; [|by eapply IH].
    unfold gossiped, refuted. rewrite decide_True, Hc, Hv, decide_False by done.
    by destruct (Z.ltb_spec (Incarnation claim) (Incarnation me)); [|lia]. }
  induction j as [|j IH]; intros v me Hv Hid Hi Ha; cbn [replicate foldl].
  { exists me. split_and!; [done|done|done|lia]. }
  assert (gossiped now id claim v = <[id := moved now NodeAlive me]> v) as ->.
  { unfold gossiped, refuted. rewrite decide_True, Hc, Hv, decide_False by done.
    by destruct (Z.ltb_spec (Incarnation claim) (Incarnation me)); [lia|]. }
  assert (Incarnation (moved now NodeAlive me) = Incarnation me + 1)%Z as Einc.
  { cbn. unfold u64. rewrite Z.mod_small; lia. }
  destruct (decide (Incarnation me = Incarnation claim)) as [Eq|Hne].
  - rewrite (Hdone j _ (moved now NodeAlive me)) by (rewrite ?lookup_insert_eq; done || lia).
    exists (moved now NodeAlive me). rewrite lookup_insert_eq, Einc. split_and!; [done|done|done|lia].
  - destruct (IH (<[id := moved now NodeAlive me]> v) (moved now NodeAlive me)) as (me' & ? & ? & ? & E).
    + apply lookup_insert_eq.
    + done.
    + rewrite Einc. lia.
    + done.
    + exists me'. split_and!; [done|done|done|]. rewrite E, Einc. lia.
Qed.

(** Self-refutation, exactly: after the same suspect or dead claim at incarnation
    N has been received [j] times, the local incarnation has gone up by one per
    receipt until it is N+1.  So the claim is refuted for good after N-i+1
    receipts, where i is the local incarnation; a single receipt brings it to i+1,
    which does not beat the claim unless i = N. *)
Theorem refute_rounds (now : Z) (self : loc) (id : string) (claim me : Node) (m : Membership) (j : nat) :
  wf m → is_self self id m → view m !! id = Some me → ID claim = id →
  State me = NodeAlive → State claim ≠ NodeAlive →
  (0 ≤ Incarnation me ≤ Incarnation claim)%Z → (Incarnation claim < 2 ^ 64 - 1)%Z →
  ∃ m' me', acceptGossip sum64 SortFunc enum now self (replicate j claim) m = Some m' ∧
    view m' !! id = Some me' ∧ State me' = NodeAlive ∧
    Incarnation me' = Z.min (Incarnation me + Z.of_nat j) (Incarnation claim + 1).
Proof.
  intros Hw Hs Hv Hc Ha Hst Hi Hb.
  destruct (gossip_ok now self id (replicate j claim) m Hw Hs) as (m' & Hg & _ & _ & Hv').
  destruct (refuted_rounds now id claim (view m) me j) as (me' & Hme & _ & ? & ?); try done.
  { by eapply view_ID. }
  exists m', me'. split_and!; [done|by rewrite Hv'|done|done].
Qed.

(** ** The versions and the ring *)

Inductive mop :=
  | MUpsert (now : Z) (n : Node)
  | MRemove (id : string)
  | MMark (now : Z) (id : string) (st : NodeState)
  | MRefute (now : Z) (id : string).

Definition mstep (o : mop) (m : Membership) : option Membership :=
  match o with
  | MUpsert now n => let '(p, m) := alloc n m in Upsert sum64 SortFunc enum now p m
  | MRemove id => '(m, _) ← Remove sum64 SortFunc enum id m; Some m
  | MMark now id st => '(m, _) ← Mark now id st m; Some m
  | MRefute now id => '(m, _) ← Refute now id m; Some m
  end.

Fixpoint mrun (os : list mop) (m : Membership) : option Membership :=
  match os with [] => Some m | o :: os => m ← mstep o m; mrun os m end.

Lemma alloc_ok n m : wf m → wf (alloc n m).2 ∧ view (alloc n m).2 = view m ∧ store (alloc n m).2 !! (alloc n m).1 = Some n.
Proof.
  intros Hw. cbn. assert (∀ p, is_Some (store m !! p) → brk m ≠ p) as Hfresh
    by (intros p Hp <-; apply (wf_brk _ Hw) in Hp; lia).
  split_and!; [split; cbn| |apply lookup_insert_eq].
  - intros k p Hk. destruct (wf_cells _ Hw _ _ Hk) as (n' & Hp & ?). exists n'.
    rewrite lookup_insert_ne; [done|]. apply Hfresh. eauto.
  - intros p. rewrite lookup_insert. case_decide as E; [intros _; subst; lia|]. intros Hp%(wf_brk _ Hw). lia.
  - apply map_eq. intros k. unfold view. rewrite !lookup_omap. cbn.
    destruct (nodes m !! k) as [p|] eqn:E; cbn; [|done]. rewrite lookup_insert_ne; [done|]. apply Hfresh.
    destruct (wf_cells _ Hw _ _ E) as (? & ? & _). eauto.
Qed.

(** A step changes the version and tells the observers, both or neither. *)
Lemma mstep_ok o m :
  wf m → ∃ m', mstep o m = Some m' ∧ wf m' ∧
    (ver m' = ver m ∧ events m' = events m ∨ ∃ id st, announces m m' id st).
Proof.
  intros Hw. destruct o as [now n|id|now id st|now id]; cbn [mstep].
  - destruct (alloc_ok n m Hw) as (Hw0 & _ & Hp). destruct (alloc n m) as [p m0] eqn:E. cbn [fst snd] in *.
    destruct (Upsert_ok now p n m0 Hw0 Hp) as (m' & -> & ? & _ & Ha & _). exists m'. split_and!; [done|done|].
    right. unfold alloc in E. simplify_eq. by exists (ID n), (State n).
  - destruct (membership_Remove_ok id m Hw) as (m' & -> & ? & _ & _ & Hn & Hs). cbn. exists m'. split_and!; [done|done|].
    destruct (view m !! id) eqn:E; [right|left; by rewrite Hn]. destruct Hs as [Ha _]; [done|]. by eexists _, _.
  - destruct (Mark_ok now id st m Hw) as (m' & -> & ? & _ & _ & Hc). cbn. exists m'. split_and!; [done|done|].
    destruct (view m !! id); [|left; by rewrite Hc]. case_decide; [left; naive_solver|right; naive_solver].
  - destruct (Refute_ok now id m Hw) as (m' & -> & ? & _ & _ & Hc). cbn. exists m'. split_and!; [done|done|].
    destruct (view m !! id); [right; naive_solver|left; by rewrite Hc].
Qed.

Lemma mrun_ok os m :
  wf m → ∃ m', mrun os m = Some m' ∧ wf m' ∧ length (events m) ≤ length (events m').
Proof.
  revert m. induction os as [|o os IH]; intros m Hw; [by exists m|]. cbn [mrun].
  destruct (mstep_ok o m Hw) as (m1 & -> & Hw1 & Hc). cbn [mbind option_bind].
  destruct (IH m1 Hw1) as (m2 & -> & Hw2 & Hle). exists m2. split_and!; [done|done|].
  destruct Hc as [[_ E]|(id & st & _ & E)]; rewrite E, ?length_app in Hle; lia.
Qed.

(** Every sequence of membership operations runs without a dangling node
    pointer, and the observers are told of every change exactly once, with the
    consecutive version numbers 1, 2, 3, ... up to the current version (below
    2^64 changes). *)
Theorem membership_versions_consecutive (r : Ring) (os : list mop) :
  (Z.of_nat (length os) < 2 ^ 64)%Z →
  ∃ m, mrun os (NewMembership r) = Some m ∧ wf m ∧
    (snd <$> events m) = (λ i, Z.of_nat (S i)) <$> seq 0 (length (events m)) ∧
    ver m = Z.of_nat (length (events m)).
Proof.
  intros Hlen.
  assert (∀ os m, wf m → (Z.of_nat (length (events m) + length os) < 2 ^ 64)%Z →
    (snd <$> events m) = (λ i, Z.of_nat (S i)) <$> seq 0 (length (events m)) → ver m = Z.of_nat (length (events m)) →
    ∃ m', mrun os m = Some m' ∧ wf m' ∧
      (snd <$> events m') = (λ i, Z.of_nat (S i)) <$> seq 0 (length (events m')) ∧
      ver m' = Z.of_nat (length (events m'))) as Hgen.
  { clear os Hlen. induction os as [|o os IH]; intros m Hw Hl He Hv; [by exists m|]. cbn [mrun length] in *.
    destruct (mstep_ok o m Hw) as (m1 & -> & Hw1 & Hc). cbn [mbind option_bind]. apply IH; [done|..].
    - destruct Hc as [[_ ->]|(id & st & _ & ->)]; [lia|]. rewrite length_app. cbn. lia.
    - destruct Hc as [[_ ->]|(id & st & _ & ->)]; [done|].
      rewrite length_app, Nat.add_1_r, seq_S, !fmap_app, He. cbn. do 2 f_equal. unfold Next, u64.
      rewrite Hv, Z.mod_small; lia.
    - destruct Hc as [[-> ->]|(id & st & -> & ->)]; [done|]. rewrite length_app. cbn. unfold Next, u64.
      rewrite Hv, Z.mod_small; lia. }
  apply Hgen; try done. split; cbn; [done|]. intros p. rewrite lookup_empty. by intros [].
Qed.

Context (Hsort : sort_ok SortFunc).

Lemma lookup_members key live r res :
  Lookup sum64 key (Build sum64 SortFunc live r) = Some res → ∀ x, x ∈ res → x ∈ live.
Proof.
  rewrite (Lookup_ok sum64 key _ (Build_sorted sum64 SortFunc Hsort live r)). intros E x Hx.
  apply (inj Some) in E. rewrite <- E in Hx. apply elem_of_take in Hx as (i & Hi & _).
  apply list_elem_of_lookup_2 in Hi. apply elem_of_firsts in Hi as [(v & -> & Hv)%list_elem_of_fmap _].
  rewrite elem_of_clockwise, (Build_perm sum64 SortFunc Hsort), elem_of_unsorted in Hv. naive_solver.
Qed.

(** When a node joins or is updated, or a node is removed, the ring is rebuilt
    from the members that are not dead: afterwards every owner the ring names is
    a current member that is not dead. *)
Theorem membership_ring_live (now : Z) (n : Node) (gone : option string) (m : Membership) (key : string) :
  wf m → (∀ id, gone = Some id → is_Some (view m !! id)) →
  ∃ m', (match gone with
         | None => mstep (MUpsert now n) m
         | Some id => mstep (MRemove id) m
         end) = Some m' ∧
    view m' = match gone with None => <[ID n := seen_at now n]> (view m) | Some id => delete id (view m) end ∧
    ∀ res x, Lookup sum64 key (ring m') = Some res → x ∈ res →
      ∃ nx, view m' !! x = Some nx ∧ State nx ≠ NodeDead.
Proof.
  intros Hw Hg.
  assert (∀ m0 m', rebuilt m0 m' → ∀ res x, Lookup sum64 key (ring m') = Some res → x ∈ res →
    ∃ nx, view m' !! x = Some nx ∧ State nx ≠ NodeDead) as Hring.
  { intros m0 m' (live & -> & Hl) res x Hres Hx. apply (lookup_members _ _ _ _ Hres) in Hx. rewrite Hl in Hx.
    apply list_elem_of_fmap in Hx as ([k nx] & -> & [Hv Hd]%elem_of_map_to_list%map_lookup_filter_Some). eauto. }
  destruct gone as [id|]; cbn [mstep].
  - destruct (membership_Remove_ok id m Hw) as (m' & -> & _ & Hv & _ & _ & Hs). cbn. exists m'.
    destruct (Hs (Hg id eq_refl)) as [_ Hre]. split_and!; [done|done|]. by eapply Hring.
  - destruct (alloc_ok n m Hw) as (Hw0 & Hv0 & Hp). destruct (alloc n m) as [p m0]. cbn [fst snd] in *.
    destruct (Upsert_ok now p n m0 Hw0 Hp) as (m' & -> & _ & Hv & _ & Hre & _). exists m'.
    split_and!; [done|by rewrite Hv, Hv0|]. by eapply Hring.
Qed.

(** The ring can be left stale: the rebuild runs after the lock is released, so
    when two nodes join at once and the later one rebuilds first, the ring that
    stays is the earlier one's, without the other member. *)
Theorem membership_ring_race (now : Z) (p1 p2 : loc) (n1 n2 : Node) (m : Membership) :
  wf m → store m !! p1 = Some n1 → store m !! p2 = Some n2 → p1 ≠ p2 → ID n1 ≠ ID n2 →
  view m !! ID n2 = None → State n2 = NodeAlive →
  ∃ m1 m2 l1 l2 e1 e2, upsertLocked enum now p1 m = Some (m1, (l1, e1)) ∧
    upsertLocked enum now p2 m1 = Some (m2, (l2, e2)) ∧
    let m' := finish sum64 SortFunc l1 e1 (finish sum64 SortFunc l2 e2 m2) in
    view m' !! ID n2 = Some (seen_at now n2) ∧
    ∀ key res, Lookup sum64 key (ring m') = Some res → ID n2 ∉ res.
Proof.
  intros Hw Hp1 Hp2 Hpp Hii Hv2 Ha. unfold upsertLocked. rewrite Hp1. cbn [mbind option_bind].
  set (m1 := MkMembership (<[p1 := seen_at now n1]> (store m)) (brk m) (<[ID n1 := p1]> (nodes m)) (ring m) (Next m) (events m)).
  destruct (register m p1 n1 (seen_at now n1) m1) as [Hw1 Hv1]; try done.
  destruct (live_ok m1 Hw1) as (l1 & Hl1 & Hperm1). cbn [store nodes m1] in Hl1. rewrite Hl1. cbn [mbind option_bind].
  assert (store m1 !! p2 = Some n2) as Hp2' by (cbn; by rewrite lookup_insert_ne).
  set (m2 := MkMembership (<[p2 := seen_at now n2]> (store m1)) (brk m1) (<[ID n2 := p2]> (nodes m1)) (ring m1) (Next m1) (events m1)).
  destruct (register m1 p2 n2 (seen_at now n2) m2) as [Hw2 Hv2']; try done.
  destruct (live_ok m2 Hw2) as (l2 & Hl2 & _). cbn [store nodes m2] in Hl2.
  eexists m1, m2, l1, l2, _, _. split; [done|]. split.
  { rewrite Hp2'. cbn [mbind option_bind]. rewrite Hl2. done. }
  cbn zeta. split.
  - change (view m2 !! ID n2 = Some (seen_at now n2)). rewrite Hv2'. cbn. by rewrite lookup_insert_eq.
  - intros key res Hres Hin. cbn [ring finish] in Hres. apply (lookup_members _ _ _ _ Hres) in Hin.
    rewrite Hperm1 in Hin. apply list_elem_of_fmap in Hin as ([k nx] & Ek & [Hv _]%elem_of_map_to_list%map_lookup_filter_Some).
    cbn in Ek. subst k. rewrite Hv1 in Hv. rewrite lookup_insert_ne in Hv by done. congruence.
Qed.

(** ** Heartbeat *)

(** Marking a member: its state is the one asked for, it was seen now, and no other
    member changes. *)
Lemma Mark_member now id st m n :
  wf m → view m !! id = Some n →
  ∃ m' n', Mark now id st m = Some (m', true) ∧ wf m' ∧ view m' = <[id := n']> (view m) ∧
    ID n' = ID n ∧ State n' = st ∧ LastSeen n' = now ∧
    Incarnation n' = (if decide (State n = st) then Incarnation n else u64 (Incarnation n + 1)).
Proof.
  intros Hw Hv. destruct (Mark_ok now id st m Hw) as (m' & -> & Hw' & _ & _ & Hc). rewrite Hv in *.
  rewrite bool_decide_eq_true_2 by done. case_decide as Hst.
  - destruct Hc as [Hv' _]. by exists m', (seen_at now n).
  - destruct Hc as [Hv' _]. by exists m', (moved now st n).
Qed.

(** What one heartbeat does to a peer: unseen for longer than [hbDeadAfter] it is
    removed; else, if the direct probe or a relay reaches it, it is alive and seen
    now; else an alive peer becomes suspect and any other stays as it was.  No
    other member changes. *)
Theorem heartbeat_outcome (cfg : HeartbeatConfig) (now : Z) (n : Node) (healthOK relayOK : bool) (m : Membership) :
  wf m → view m !! ID n = Some n →
  ∃ m', evaluateLiveness sum64 SortFunc enum cfg now n healthOK relayOK m = Some m' ∧ wf m' ∧
    (∀ k, k ≠ ID n → view m' !! k = view m !! k) ∧
    if ((0 <? hbDeadAfter cfg) && (hbDeadAfter cfg <? sat64 (now - LastSeen n)))%Z
    then view m' !! ID n = None
    else ∃ n', view m' !! ID n = Some n' ∧
      if healthOK || ((0 <? indirectProbeK cfg)%Z && relayOK)
      then State n' = NodeAlive ∧ LastSeen n' = now
      else State n' = match State n with NodeAlive => NodeSuspect | st => st end.
Proof.
  intros Hw Hv. unfold evaluateLiveness. destruct (_ && _).
  { destruct (membership_Remove_ok (ID n) m Hw) as (m' & -> & ? & Hv' & _). cbn. exists m'. rewrite Hv'.
    split_and!; [done|done|intros; by rewrite lookup_delete_ne|apply lookup_delete_eq]. }
  set (late := (_ && _ && _)%Z).
  assert (∃ m1 n1, (if late then '(m, _) ← Mark now (ID n) NodeSuspect m; Some m else Some m) = Some m1 ∧
    wf m1 ∧ view m1 = <[ID n := n1]> (view m) ∧
    (State n1 = State n ∨ State n = NodeAlive ∧ State n1 = NodeSuspect)) as (m1 & n1 & -> & Hw1 & Hv1 & Hs1).
  { destruct late eqn:El; [|exists m, n; split_and!; [done|done|by rewrite insert_id|by left]].
    destruct (Mark_member now (ID n) NodeSuspect m n Hw Hv) as (m1 & n1 & -> & ? & ? & _ & ? & _).
    exists m1, n1. split_and!; [done|done|done|]. right. unfold late in El.
    apply andb_true_iff in El as [_ El%bool_decide_eq_true]. done. }
  cbn [mbind option_bind].
  assert (view m1 !! ID n = Some n1) as Hl1 by (rewrite Hv1; apply lookup_insert_eq).
  assert (∀ st, ∃ m' n', Mark now (ID n) st m1 = Some (m', true) ∧ wf m' ∧
    view m' = <[ID n := n']> (view m) ∧ State n' = st ∧ LastSeen n' = now) as Hmark.
  { intros st. destruct (Mark_member now (ID n) st m1 n1 Hw1 Hl1) as (m' & n' & -> & ? & Hv' & _ & ? & ? & _).
    exists m', n'. rewrite Hv', Hv1, insert_insert_eq. by split_and!. }
  assert (∀ (x : Node) k, k ≠ ID n → (<[ID n := x]> (view m) : gmap string Node) !! k = view m !! k) as Hothers
    by (intros; by rewrite lookup_insert_ne).
  unfold handleProbeFailure. destruct healthOK; cbn [orb].
  { destruct (Hmark NodeAlive) as (m' & n' & -> & ? & Hv' & ? & ?). cbn. exists m'. rewrite Hv'.
    split_and!; [done|done|apply Hothers|]. exists n'. by rewrite lookup_insert_eq. }
  destruct (_ && relayOK).
  { destruct (Hmark NodeAlive) as (m' & n' & -> & ? & Hv' & ? & ?). cbn. exists m'. rewrite Hv'.
    split_and!; [done|done|apply Hothers|]. exists n'. by rewrite lookup_insert_eq. }
  case_decide as Hst.
  - exists m1. rewrite Hv1. split_and!; [done|done|apply Hothers|]. exists n1. rewrite lookup_insert_eq.
    split; [done|]. destruct Hs1 as [->|[? _]]; [by destruct (State n)|done].
  - destruct (Hmark NodeSuspect) as (m' & n' & -> & ? & Hv' & ? & ?). cbn. exists m'. rewrite Hv'.
    split_and!; [done|done|apply Hothers|]. exists n'. rewrite lookup_insert_eq. split; [done|].
    by rewrite Hst.
Qed.

End Facts.

(** ** Instances *)

Definition sample_node (id : string) (st : NodeState) (inc : Z) : Node := MkNode id "h:1" st inc 0.
Definition sample_upsert : mop → Membership → option Membership := mstep sample_sum64 sample_sort map_to_list.

(** A membership of two: this node ("a") and a peer ("b"). *)
Definition sample_run : option Membership :=
  mrun sample_sum64 sample_sort map_to_list
    [MUpsert 1 (sample_node "a" NodeAlive 1); MUpsert 2 (sample_node "b" NodeAlive 1)] (NewMembership sample_ring).
Definition sample_members : Membership := default (NewMembership sample_ring) sample_run.

Lemma membership_sample_wf : wf sample_members.
Proof.
  assert (wf (NewMembership sample_ring)) as Hw.
  { split; cbn; [done|]. intros p. rewrite lookup_empty. by intros []. }
  destruct (mrun_ok sample_sum64 sample_sort map_to_list (λ _, reflexivity _)
    [MUpsert 1 (sample_node "a" NodeAlive 1); MUpsert 2 (sample_node "b" NodeAlive 1)] _ Hw) as (m & Hm & Hw' & _).
  unfold sample_members, sample_run. by rewrite Hm.
Qed.

(** The cell of "a". *)
Lemma sample_self : is_self 1 "a" sample_members.
Proof. vm_compute. reflexivity. Qed.

Lemma sample_incarnations : map_Forall (λ _ n, 0 ≤ Incarnation n)%Z (view sample_members).
Proof. apply (bool_decide_unpack _). vm_compute. exact I. Qed.

Definition sample_gossip : list Node := [sample_node "b" NodeSuspect 4; sample_node "c" NodeAlive 1].

Lemma gossip_highest_incarnation_wins_witness :
  ∃ m', acceptGossip sample_sum64 sample_sort map_to_list 9 1 sample_gossip sample_members = Some m' ∧
    (4 ≤ inc_of (view m') "b")%Z.
Proof.
  destruct (gossip_highest_incarnation_wins sample_sum64 sample_sort map_to_list (λ _, reflexivity _)
    9 1 "a" sample_gossip sample_members "b" membership_sample_wf sample_self) as (m' & Ha & _ & _ & _ & Hmax & _).
  - apply (bool_decide_unpack _). vm_compute. exact I.
  - discriminate.
  - exists m'. split; [exact Ha|]. apply (Hmax (sample_node "b" NodeSuspect 4)); [by left|reflexivity].
Defined.

Lemma gossip_exchange_agrees_witness :
  ∃ snap m1' m2', List_ map_to_list sample_members = Some snap ∧
    acceptGossip sample_sum64 sample_sort map_to_list 9 1 snap sample_members = Some m1' ∧
    acceptGossip sample_sum64 sample_sort map_to_list 8 2 snap sample_members = Some m2' ∧
    inc_of (view m1') "c" = inc_of (view m2') "c".
Proof.
  destruct (List_ok map_to_list (λ _, reflexivity _) sample_members membership_sample_wf) as (snap & Hl & _).
  destruct (gossip_exchange_agrees sample_sum64 sample_sort map_to_list (λ _, reflexivity _)
    9 8 1 2 "a" "b" "c" sample_members sample_members snap snap membership_sample_wf membership_sample_wf sample_self) as (m1' & m2' & ? & ? & ?).
  - vm_compute. reflexivity.
  - exact Hl.
  - exact Hl.
  - exact sample_incarnations.
  - exact sample_incarnations.
  - discriminate.
  - discriminate.
  - by exists snap, m1', m2'.
Defined.

(** "a" (incarnation 1) hears twice that it is suspect at incarnation 2: it takes
    both receipts to get above the claim. *)
Lemma refute_rounds_witness :
  ∃ m1 me1 m2 me2,
    acceptGossip sample_sum64 sample_sort map_to_list 9 1 (replicate 1 (sample_node "a" NodeSuspect 2)) sample_members = Some m1 ∧
    acceptGossip sample_sum64 sample_sort map_to_list 9 1 (replicate 2 (sample_node "a" NodeSuspect 2)) sample_members = Some m2 ∧
    view m1 !! "a"%string = Some me1 ∧ Incarnation me1 = 2%Z ∧
    view m2 !! "a"%string = Some me2 ∧ Incarnation me2 = 3%Z.
Proof.
  assert (∀ j, ∃ m' me', acceptGossip sample_sum64 sample_sort map_to_list 9 1
      (replicate j (sample_node "a" NodeSuspect 2)) sample_members = Some m' ∧
    view m' !! "a"%string = Some me' ∧ State me' = NodeAlive ∧ Incarnation me' = Z.min (1 + Z.of_nat j) (2 + 1)) as H.
  { intros j. refine (refute_rounds sample_sum64 sample_sort map_to_list (λ _, reflexivity _) 9 1 "a"
      (sample_node "a" NodeSuspect 2) (seen_at 1 (sample_node "a" NodeAlive 1)) sample_members j membership_sample_wf sample_self
      _ _ _ _ _ _); [vm_compute; reflexivity|reflexivity|reflexivity|discriminate|cbn; lia|cbn; lia]. }
  destruct (H 1) as (m1 & me1 & A1 & B1 & _ & C1). destruct (H 2) as (m2 & me2 & A2 & B2 & _ & C2).
  exists m1, me1, m2, me2. by split_and!.
Defined.

Lemma membership_versions_consecutive_witness :
  ∃ m, mrun sample_sum64 sample_sort map_to_list
      [MUpsert 1 (sample_node "a" NodeAlive 1); MMark 2 "a" NodeSuspect; MMark 3 "a" NodeSuspect; MRefute 4 "a"; MRemove "a"]
      (NewMembership sample_ring) = Some m ∧ ver m = Z.of_nat (length (events m)).
Proof.
  destruct (membership_versions_consecutive sample_sum64 sample_sort map_to_list (λ _, reflexivity _) sample_ring
    [MUpsert 1 (sample_node "a" NodeAlive 1); MMark 2 "a" NodeSuspect; MMark 3 "a" NodeSuspect; MRefute 4 "a"; MRemove "a"])
    as (m & Hm & _ & _ & Hv); [vm_compute; reflexivity|]. by exists m.
Defined.

Lemma membership_ring_live_witness :
  ∃ m', mstep sample_sum64 sample_sort map_to_list (MRemove "b") sample_members = Some m' ∧
    view m' = delete "b"%string (view sample_members).
Proof.
  destruct (membership_ring_live sample_sum64 sample_sort map_to_list (λ _, reflexivity _) sample_sort_ok 9
    (sample_node "b" NodeAlive 1) (Some "b"%string) sample_members "k" membership_sample_wf) as (m' & Hm & Hv & _).
  - intros id [= <-]. vm_compute. by eexists.
  - by exists m'.
Defined.

(** Two new cells, registered at once. *)
Definition sample_cells : Membership :=
  (alloc (sample_node "d" NodeAlive 1) (alloc (sample_node "c" NodeAlive 1) sample_members).2).2.

Lemma membership_ring_race_witness :
  ∃ m1 m2 l1 l2 e1 e2, upsertLocked map_to_list 9 3 sample_cells = Some (m1, (l1, e1)) ∧
    upsertLocked map_to_list 9 4 m1 = Some (m2, (l2, e2)) ∧
    let m' := finish sample_sum64 sample_sort l1 e1 (finish sample_sum64 sample_sort l2 e2 m2) in
    view m' !! "d"%string = Some (seen_at 9 (sample_node "d" NodeAlive 1)) ∧
    ∀ key res, Lookup sample_sum64 key (ring m') = Some res → "d"%string ∉ res.
Proof.
  apply (membership_ring_race sample_sum64 sample_sort map_to_list (λ _, reflexivity _) sample_sort_ok
    9 3 4 (sample_node "c" NodeAlive 1) (sample_node "d" NodeAlive 1) sample_cells).
  - unfold sample_cells. apply alloc_ok, alloc_ok, membership_sample_wf.
  - vm_compute. reflexivity.
  - vm_compute. reflexivity.
  - discriminate.
  - discriminate.
  - vm_compute. reflexivity.
  - reflexivity.
Defined.

Lemma heartbeat_outcome_witness :
  ∃ m', evaluateLiveness sample_sum64 sample_sort map_to_list (MkHB 5 10 0) 9 (seen_at 2 (sample_node "b" NodeAlive 1))
      false false sample_members = Some m' ∧
    ∃ n', view m' !! "b"%string = Some n' ∧ State n' = NodeSuspect.
Proof.
  destruct (heartbeat_outcome sample_sum64 sample_sort map_to_list (λ _, reflexivity _) (MkHB 5 10 0) 9
    (seen_at 2 (sample_node "b" NodeAlive 1)) false false sample_members membership_sample_wf) as (m' & Hm & _ & _ & Hn).
  - vm_compute. reflexivity.
  - exists m'. split; [exact Hm|exact Hn].
Defined.
