(* ===== verification/Hints.v ===== *)
(** * Hinted handoff (pkg/backend/dist_memory.go, queueHint ... processHint)

    A write that cannot reach a replica is queued as a hint for that peer, under
    a cap per peer and caps on the number and the bytes of all hints, and a
    replay loop retries the queues.  The queues, the two counters that stand for
    their total length and size, and the metrics are the state.

    Parameters: the transport (an interface; its world is threaded through the
    calls), [jsonLen] the length of [json.Marshal]'s output, and [enum] the order
    in which Go ranges over the map of queues.

    The theorems: how the counters relate to the queues for every interleaving of
    queueing and replaying and what became of every hint, what one replay pass sends
    and keeps, an execution in which the byte cap does not bound the queues, and one
    in which a hint is dropped that no metric counts. *)

From stdpp Require Import base gmap strings list fin_maps.
From Stdlib Require Import ZArith Lia.
From S2P Require Import Prelude Item.

(** ** The code *)

Inductive hintSource := hintSourceReplication | hintSourceMigration.

Record hintedEntry := MkHint {
  h_item : Item; queuedAt : Z; expire : Z; h_size : Z (* int64 *); source : hintSource }.

Record HintConfig := MkHintConfig {
  hintTTL : Z; hintMaxPerNode : Z; hintMaxTotal : Z; hintMaxBytes : Z }.

(** The counters of distMetrics the hint code touches, all [atomic.Int64]. *)
Record HintMetrics := MkHintMetrics {
  hintedQueued : Z; hintedReplayed : Z; hintedExpired : Z; hintedGlobalDropped : Z; hintedBytes : Z;
  migrationHintQueued : Z; migrationHintReplayed : Z; migrationHintExpired : Z;
  migrationHintDropped : Z; migrationHintLastAgeNanos : Z }.

Record HintState := MkHints {
  hints : gmap string (list hintedEntry); hintTotal : Z; hintBytes : Z; hmetrics : HintMetrics }.

Definition noMetrics : HintMetrics := MkHintMetrics 0 0 0 0 0 0 0 0 0 0.
Definition noHints : HintState := MkHints ∅ 0 0 noMetrics.

Definition is_migration (s : hintSource) : bool :=
  match s with hintSourceMigration => true | hintSourceReplication => false end.

(** [Add(1)] on the counters of one kind, and on the migration counter of the same
    kind when the hint comes from a migration. *)
Definition bump (on : bool) (z : Z) : Z := if on then i64 (z + 1) else z.

Definition countQueued (src : hintSource) (bytesNow : Z) (m : HintMetrics) : HintMetrics :=
  MkHintMetrics (i64 (hintedQueued m + 1)) (hintedReplayed m) (hintedExpired m) (hintedGlobalDropped m)
    bytesNow (bump (is_migration src) (migrationHintQueued m)) (migrationHintReplayed m)
    (migrationHintExpired m) (migrationHintDropped m) (migrationHintLastAgeNanos m).

Definition countDropped (src : hintSource) (m : HintMetrics) : HintMetrics :=
  MkHintMetrics (hintedQueued m) (hintedReplayed m) (hintedExpired m) (i64 (hintedGlobalDropped m + 1))
    (hintedBytes m) (migrationHintQueued m) (migrationHintReplayed m) (migrationHintExpired m)
    (bump (is_migration src) (migrationHintDropped m)) (migrationHintLastAgeNanos m).

Definition countExpired (src : hintSource) (m : HintMetrics) : HintMetrics :=
  MkHintMetrics (hintedQueued m) (hintedReplayed m) (i64 (hintedExpired m + 1)) (hintedGlobalDropped m)
    (hintedBytes m) (migrationHintQueued m) (migrationHintReplayed m)
    (bump (is_migration src) (migrationHintExpired m)) (migrationHintDropped m)
    (migrationHintLastAgeNanos m).

(** The age is only stored for a migration hint; [queuedAt] is set by
    [queueHint], so it is never the zero time. *)
Definition countReplayed (e : hintedEntry) (now : Z) (m : HintMetrics) : HintMetrics :=
  MkHintMetrics (hintedQueued m) (i64 (hintedReplayed m + 1)) (hintedExpired m) (hintedGlobalDropped m)
    (hintedBytes m) (migrationHintQueued m) (bump (is_migration (source e)) (migrationHintReplayed m))
    (migrationHintExpired m) (migrationHintDropped m)
    (if is_migration (source e) then sat64 (now - queuedAt e) else migrationHintLastAgeNanos m).

Definition storeBytes (b : Z) (m : HintMetrics) : HintMetrics :=
  MkHintMetrics (hintedQueued m) (hintedReplayed m) (hintedExpired m) (hintedGlobalDropped m) b
    (migrationHintQueued m) (migrationHintReplayed m) (migrationHintExpired m) (migrationHintDropped m)
    (migrationHintLastAgeNanos m).

Definition with_hmetrics (f : HintMetrics → HintMetrics) (s : HintState) : HintState :=
  MkHints (hints s) (hintTotal s) (hintBytes s) (f (hmetrics s)).

Definition adjustHintAccounting (countDelta bytesDelta : Z) (s : HintState) : HintState :=
  let t := i64 (hintTotal s + countDelta) in
  let b := i64 (hintBytes s + bytesDelta) in
  MkHints (hints s) (if (t <? 0)%Z then 0%Z else t) (if (b <? 0)%Z then 0%Z else b) (hmetrics s).

Section Hints.
Context (jsonLen : any → option Z).

Definition approxHintSize (item : option Item) : Z :=
  match item with
  | None => 0
  | Some it =>
      let total := Z.of_nat (String.length (Key it)) in
      match Value it with
      | AString v => i64 (total + Z.of_nat (String.length v))
      | ABytes v => i64 (total + Z.of_nat (length v))
      | v => match jsonLen v with Some n => i64 (total + n) | None => total end
      end
  end.

Context (cfg : HintConfig).

(** [None] is the panic of [queue[0]] on an empty queue. *)
Definition dropOldest (queue : list hintedEntry) (s : HintState)
    : option (list hintedEntry * HintState) :=
  if (0 <? hintMaxPerNode cfg)%Z && (hintMaxPerNode cfg <=? Z.of_nat (length queue))%Z then
    match queue with
    | dropped :: queue => Some (queue, adjustHintAccounting (-1) (- h_size dropped) s)
    | [] => None
    end
  else Some (queue, s).

Definition queueHint (now : Z) (nodeID : string) (item : Item) (src : hintSource) (s : HintState)
    : option HintState :=
  if (hintTTL cfg <=? 0)%Z then Some s
  else
    let size := approxHintSize (Some item) in
    '(queue, s) ← dropOldest (default [] (hints s !! nodeID)) s;
    if ((0 <? hintMaxTotal cfg)%Z && (hintMaxTotal cfg <=? hintTotal s)%Z)
       || ((0 <? hintMaxBytes cfg)%Z && (hintMaxBytes cfg <? i64 (hintBytes s + size))%Z)
    then Some (with_hmetrics (countDropped src) s)
    else
      let cloned := item in
      let queue := queue ++ [MkHint cloned now (now + hintTTL cfg) size src] in
      let s := adjustHintAccounting 1 size
                 (MkHints (<[nodeID := queue]> (hints s)) (hintTotal s) (hintBytes s) (hmetrics s)) in
      Some (with_hmetrics (countQueued src (hintBytes s)) s).

Context {W : Type}.

(** [DistTransport.ForwardSet], or no transport. *)
Context (transport : option (W → string → Item → bool → W * option error)).
Context (enum : gmap string (list hintedEntry) → list (string * list hintedEntry)).

Definition processHint (now : Z) (nodeID : string) (entry : hintedEntry) (w : W) (s : HintState)
    : W * Z * HintState :=
  if (expire entry <? now)%Z then (w, 1%Z, with_hmetrics (countExpired (source entry)) s)
  else
    match transport with
    | None => (w, 0%Z, s)
    | Some ForwardSet =>
        let '(w, err) := ForwardSet w nodeID (h_item entry) false in
        match err with
        | None => (w, 1%Z, with_hmetrics (countReplayed entry now) s)
        | Some _ => (w, 0%Z, s)
        end
    end.

(** The inner loop: the entries of one queue, [out] collects the kept ones. *)
Fixpoint replayQueue (now : Z) (nodeID : string) (queue out : list hintedEntry) (w : W) (s : HintState)
    : W * list hintedEntry * HintState :=
  match queue with
  | [] => (w, out, s)
  | hintEntry :: queue =>
      let '(w, action, s) := processHint now nodeID hintEntry w s in
      if (action =? 0)%Z then replayQueue now nodeID queue (out ++ [hintEntry]) w s
      else if (action =? 1)%Z then
        replayQueue now nodeID queue out w (adjustHintAccounting (-1) (- h_size hintEntry) s)
      else replayQueue now nodeID queue (out ++ [hintEntry]) w s
  end.

Definition with_hints (f : gmap string (list hintedEntry) → gmap string (list hintedEntry))
    (s : HintState) : HintState :=
  MkHints (f (hints s)) (hintTotal s) (hintBytes s) (hmetrics s).

(** The outer loop: each round only changes the entry of the key it visits. *)
Fixpoint replayQueues (now : Z) (qs : list (string * list hintedEntry)) (w : W) (s : HintState)
    : W * HintState :=
  match qs with
  | [] => (w, s)
  | (nodeID, queue) :: qs =>
      let '(w, out, s) := replayQueue now nodeID queue [] w s in
      let s := if decide (out = []) then with_hints (delete nodeID) s
               else with_hints (insert nodeID out) s in
      replayQueues now qs w s
  end.

Definition replayHints (now : Z) (w : W) (s : HintState) : W * HintState :=
  match transport with
  | None => (w, s)
  | Some _ =>
      let '(w, s) := replayQueues now (enum (hints s)) w s in
      (w, with_hmetrics (storeBytes (hintBytes s)) s)
  end.

(** ** Runs *)

Inductive hop :=
  | HQueue (now : Z) (nodeID : string) (item : Item) (src : hintSource)
  | HReplay (now : Z).

Definition hstep (o : hop) (ws : W * HintState) : option (W * HintState) :=
  match o with
  | HQueue now nodeID item src => s ← queueHint now nodeID item src ws.2; Some (ws.1, s)
  | HReplay now => Some (replayHints now ws.1 ws.2)
  end.

Fixpoint hrun (os : list hop) (ws : W * HintState) : option (W * HintState) :=
  match os with [] => Some ws | o :: os => ws ← hstep o ws; hrun os ws end.

End Hints.

(** ** What the counters stand for *)

Section Weight.
Context (f : hintedEntry → Z).

Fixpoint qweight (q : list hintedEntry) : Z :=
  match q with [] => 0 | e :: q => f e + qweight q end.

(** The sum of [f] over all queued entries. *)
Definition weight (m : gmap string (list hintedEntry)) : Z := map_fold (λ _ q n, qweight q + n)%Z 0%Z m.

Lemma qweight_app q q' : qweight (q ++ q') = (qweight q + qweight q')%Z.
Proof. induction q as [|e q IH]; simpl; lia. Qed.

Lemma qweight_perm q q' : q ≡ₚ q' → qweight q = qweight q'.
Proof. induction 1; simpl; lia. Qed.

Lemma weight_delete m k : weight (delete k m) = (weight m - qweight (default [] (m !! k)))%Z.
Proof.
  destruct (m !! k) as [q|] eqn:E.
  - unfold weight. rewrite (map_fold_delete_L _ _ k q m); [simpl; lia|intros; lia|done].
  - rewrite delete_id by done. simpl. lia.
Qed.

Lemma weight_insert m k q :
  weight (<[k := q]> m) = (weight m - qweight (default [] (m !! k)) + qweight q)%Z.
Proof.
  rewrite <- weight_delete, <- insert_delete_eq. unfold weight.
  rewrite map_fold_insert_L; [lia|intros; lia|]. apply lookup_delete_eq.
Qed.

Lemma qweight_nonneg q : (∀ e, e ∈ q → 0 ≤ f e)%Z → (0 ≤ qweight q)%Z.
Proof.
  induction q as [|e q IH]; intros H; simpl; [lia|].
  assert (0 ≤ f e)%Z by (apply H; by left). assert (0 ≤ qweight q)%Z; [|lia].
  apply IH. intros e' He'. apply H. by right.
Qed.

Lemma hints_weight_nonneg m : (∀ k q e, m !! k = Some q → e ∈ q → 0 ≤ f e)%Z → (0 ≤ weight m)%Z.
Proof.
  induction m as [|k q m Hk IH] using map_ind; intros H; [done|].
  rewrite weight_insert, Hk. simpl.
  assert (0 ≤ qweight q)%Z by (apply qweight_nonneg; intros e; apply (H k); apply lookup_insert_eq).
  assert (0 ≤ weight m)%Z; [|lia].
  apply IH. intros k' q' e Hk' He. apply (H k' q' e); [|done].
  rewrite lookup_insert_ne; [done|congruence].
Qed.

Lemma weight_ge m k q :
  (∀ k q e, m !! k = Some q → e ∈ q → 0 ≤ f e)%Z → m !! k = Some q → (qweight q ≤ weight m)%Z.
Proof.
  intros H Hk. assert (0 ≤ weight (delete k m))%Z as Hd.
  - apply hints_weight_nonneg. intros k' q' e [_ Hk']%lookup_delete_Some. eauto.
  - rewrite weight_delete, Hk in Hd. simpl in Hd. lia.
Qed.
End Weight.

Definition pending (m : gmap string (list hintedEntry)) : Z := weight (λ _, 1%Z) m.
Definition pending_bytes (m : gmap string (list hintedEntry)) : Z := weight h_size m.

Lemma qweight_one q : qweight (λ _, 1%Z) q = Z.of_nat (length q).
Proof. induction q as [|e q IH]; simpl; lia. Qed.

(** A counter [c] for a quantity [r]: never more than [r], and equal to it when
    nothing was miscounted. *)
Definition tracks (exact : Prop) (c r : Z) : Prop := (0 ≤ c ≤ r ∧ r < 2 ^ 63)%Z ∧ (exact → c = r).

Definition clamp (z : Z) : Z := if (z <? 0)%Z then 0%Z else z.

Lemma clamp_spec z : clamp z = Z.max 0 z.
Proof. unfold clamp. destruct (Z.ltb_spec z 0); lia. Qed.

Lemma tracks_sub P c r d : tracks P c r → (0 ≤ d ≤ r)%Z → tracks P (clamp (i64 (c + - d))) (r - d).
Proof.
  intros [Hb He] Hd. rewrite i64_small, clamp_spec by lia. split; [lia|]. intros H. specialize (He H). lia.
Qed.

Lemma tracks_add P c r d :
  tracks P c r → (0 ≤ d)%Z → (r + d < 2 ^ 63)%Z → tracks P (clamp (i64 (c + d))) (r + d).
Proof.
  intros [Hb He] Hd Hr. rewrite i64_small, clamp_spec by lia. split; [lia|]. intros H. specialize (He H). lia.
Qed.

Lemma clamp_sub_le c r d P : tracks P c r → (0 ≤ d ≤ r)%Z → (clamp (i64 (c + - d)) ≤ c)%Z.
Proof. intros [Hb _] Hd. rewrite i64_small, clamp_spec by lia. lia. Qed.

(** A miscount only makes the counter smaller. *)
Lemma tracks_weaken (P Q : Prop) c c' r :
  tracks P c r → (Q → P) → (0 ≤ c' ≤ c)%Z → (Q → c' = c) → tracks Q c' r.
Proof. intros [Hb He] HQ Hc Hc'. split; [lia|]. intros H. rewrite Hc' by done. auto. Qed.

Section Facts.
Context (jsonLen : any → option Z) (cfg : HintConfig).
Context {W : Type} (transport : option (W → string → Item → bool → W * option error)).
Context (enum : gmap string (list hintedEntry) → list (string * list hintedEntry)).

Definition sizes_ok (m : gmap string (list hintedEntry)) : Prop :=
  ∀ k q e, m !! k = Some q → e ∈ q → (0 ≤ h_size e)%Z.

(** No code path decrements a counter for an entry that stays queued. *)
Definition uncapped : Prop :=
  (hintMaxPerNode cfg ≤ 0 ∨ hintMaxTotal cfg ≤ 0 ∧ hintMaxBytes cfg ≤ 0)%Z.

Definition capped (s : HintState) : Prop :=
  ((0 < hintMaxTotal cfg → hintTotal s ≤ hintMaxTotal cfg) ∧
   (0 < hintMaxBytes cfg → hintBytes s ≤ hintMaxBytes cfg))%Z.

Definition queues_ok (m : gmap string (list hintedEntry)) : Prop :=
  ∀ k q, m !! k = Some q →
    q ≠ [] ∧ (0 < hintMaxPerNode cfg → Z.of_nat (length q) ≤ hintMaxPerNode cfg)%Z.

(** What became of the accepted hints: [p] are pending, [d] were displaced. *)
Definition conserved (d p : Z) (m : HintMetrics) : Prop :=
  (0 ≤ hintedReplayed m ∧ 0 ≤ hintedExpired m ∧ 0 ≤ d ∧
   hintedQueued m = hintedReplayed m + hintedExpired m + p + d)%Z.

(** [n] is the number of calls of [queueHint] so far, [b] bounds the bytes and [d]
    counts the hints that made room for others. *)
Record hinv (n b d : Z) (s : HintState) : Prop := {
  hinv_sizes : sizes_ok (hints s);
  hinv_queues : queues_ok (hints s);
  hinv_total : tracks uncapped (hintTotal s) (pending (hints s));
  hinv_bytes : tracks uncapped (hintBytes s) (pending_bytes (hints s));
  hinv_capped : capped s;
  hinv_metrics : conserved d (pending (hints s)) (hmetrics s);
  hinv_n : (pending (hints s) ≤ hintedQueued (hmetrics s) ∧ 0 ≤ hintedGlobalDropped (hmetrics s) ∧
    hintedQueued (hmetrics s) + hintedGlobalDropped (hmetrics s) = if hintTTL cfg <=? 0 then 0 else n)%Z;
  hinv_b : (pending_bytes (hints s) ≤ b)%Z }.

(** The state inside the loop over one queue: [l] are the entries kept so far and
    those still to visit, [n] and [b] the number and the bytes of the hints in the
    other queues. *)
Record loop_inv (d n b : Z) (l : list hintedEntry) (s : HintState) : Prop := {
  loop_n : (0 ≤ n ∧ 0 ≤ b)%Z;
  loop_sizes : ∀ e, e ∈ l → (0 ≤ h_size e)%Z;
  loop_total : tracks uncapped (hintTotal s) (n + Z.of_nat (length l));
  loop_bytes : tracks uncapped (hintBytes s) (b + qweight h_size l);
  loop_capped : capped s;
  loop_metrics : conserved d (n + Z.of_nat (length l)) (hmetrics s);
  loop_queued : (hintedQueued (hmetrics s) < 2 ^ 63)%Z }.

(** What only [queueHint] counts. *)
Definition accepted (m : HintMetrics) : Z * Z := (hintedQueued m, hintedGlobalDropped m).

(** The metrics move one hint from pending to replayed or expired. *)
Definition settles (f : HintMetrics → HintMetrics) : Prop :=
  ∀ d p m, conserved d (p + 1) m → (hintedQueued m < 2 ^ 63)%Z → (0 ≤ p)%Z →
    conserved d p (f m) ∧ accepted (f m) = accepted m.

Lemma settles_expired src : settles (countExpired src).
Proof.
  intros d p m (H1 & H2 & H3 & H4) Hq Hp. split; [|done].
  split_and!; cbn; rewrite ?i64_small; try lia.
Qed.

Lemma settles_replayed e now : settles (countReplayed e now).
Proof.
  intros d p m (H1 & H2 & H3 & H4) Hq Hp. split; [|done].
  split_and!; cbn; rewrite ?i64_small; try lia.
Qed.

Lemma loop_inv_remove d n b out e q s f :
  settles f → loop_inv d n b (out ++ e :: q) s →
  loop_inv d n b (out ++ q) (adjustHintAccounting (-1) (- h_size e) (with_hmetrics f s)) ∧
  accepted (f (hmetrics s)) = accepted (hmetrics s).
Proof.
  intros Hf [[Hn Hb] Hsz HT HB Hc Hm Hq].
  rewrite length_app, Nat2Z.inj_add in HT, Hm. rewrite qweight_app in HB. cbn in HT, HB, Hm.
  assert (0 ≤ h_size e)%Z by (apply Hsz; set_solver).
  assert (0 ≤ qweight h_size q ∧ 0 ≤ qweight h_size out)%Z as [??].
  { split; apply qweight_nonneg; intros e' He'; apply Hsz; set_solver. }
  destruct (Hf d (n + Z.of_nat (length out) + Z.of_nat (length q))%Z (hmetrics s)) as [Hm' Hq'];
    [eapply (eq_rect _ (λ z, conserved d z _) Hm); lia|done|lia|].
  split; [|done]. split; cbn -[conserved].
  - done.
  - intros e' He'. apply Hsz. set_solver.
  - rewrite length_app. eapply (eq_rect _ (tracks uncapped _) (tracks_sub _ _ _ 1 HT ltac:(lia))). lia.
  - rewrite qweight_app.
    eapply (eq_rect _ (tracks uncapped _) (tracks_sub _ _ _ (h_size e) HB ltac:(lia))). lia.
  - pose proof (clamp_sub_le _ _ 1 _ HT ltac:(lia)). pose proof (clamp_sub_le _ _ (h_size e) _ HB ltac:(lia)).
    destruct Hc as [Hc1 Hc2]. split; intros Hp; (etrans; [eassumption|auto]).
  - rewrite length_app. eapply (eq_rect _ (λ z, conserved d z _) Hm'). lia.
  - injection Hq' as -> _. lia.
Qed.

Lemma replayQueue_ok now id d n b q : ∀ out w s w' out' s',
  loop_inv d n b (out ++ q) s → replayQueue transport now id q out w s = (w', out', s') →
  hints s' = hints s ∧ out' ⊆+ out ++ q ∧ loop_inv d n b out' s' ∧
  accepted (hmetrics s') = accepted (hmetrics s).
Proof.
  induction q as [|e q IH]; intros out w s w' out' s' Hl Hr; simpl in Hr.
  { simplify_eq. rewrite app_nil_r in *. done. }
  assert (∀ f w1, settles f →
    replayQueue transport now id q out w1
      (adjustHintAccounting (-1) (- h_size e) (with_hmetrics f s)) = (w', out', s') →
    hints s' = hints s ∧ out' ⊆+ out ++ e :: q ∧ loop_inv d n b out' s' ∧
    accepted (hmetrics s') = accepted (hmetrics s)) as Hremove.
  { intros f w1 Hf Hr1. destruct (loop_inv_remove _ _ _ _ _ _ _ f Hf Hl) as [Hl' Hq'].
    destruct (IH _ _ _ _ _ _ Hl' Hr1) as (R1 & R2 & R3 & R4). split_and!; [done| |done|].
    - rewrite R2. apply submseteq_app; [done|]. by apply submseteq_cons.
    - rewrite R4. exact Hq'. }
  assert (∀ w1, replayQueue transport now id q (out ++ [e]) w1 s = (w', out', s') →
    hints s' = hints s ∧ out' ⊆+ out ++ e :: q ∧ loop_inv d n b out' s' ∧
    accepted (hmetrics s') = accepted (hmetrics s)) as Hkeep.
  { intros w1 Hr1. apply IH in Hr1; rewrite <- app_assoc in *; done. }
  unfold processHint in Hr. destruct (expire e <? now)%Z.
  { by apply (Hremove _ _ (settles_expired (source e))) in Hr. }
  destruct transport as [ForwardSet|]; [|simpl in Hr; eauto].
  destruct (ForwardSet w id (h_item e) false) as [w1 [err|]]; [simpl in Hr; eauto|].
  by apply (Hremove _ _ (settles_replayed e now)) in Hr.
Qed.

Lemma hinv_loop nn bb d s id q :
  hints s !! id = Some q → hinv nn bb d s → (nn < 2 ^ 63)%Z →
  loop_inv d (pending (hints s) - Z.of_nat (length q)) (pending_bytes (hints s) - qweight h_size q)
    ([] ++ q) s.
Proof.
  intros Hid [Hsz Hq HT HB Hc Hm Hn Hb] Hnn. simpl.
  pose proof (weight_ge (λ _, 1%Z) (hints s) id q ltac:(done) Hid) as Hge.
  rewrite qweight_one in Hge.
  pose proof (weight_ge h_size (hints s) id q Hsz Hid) as Hge'. unfold pending, pending_bytes in *.
  split; rewrite ?Z.sub_add; try done; [lia|by eauto|]. destruct (hintTTL cfg <=? 0)%Z; lia.
Qed.

(** Storing the kept entries back. *)
Lemma hinv_unloop nn bb d s s1 id q out :
  hints s !! id = Some q → hinv nn bb d s → hints s1 = hints s → out ⊆+ [] ++ q →
  loop_inv d (pending (hints s) - Z.of_nat (length q)) (pending_bytes (hints s) - qweight h_size q) out s1 →
  accepted (hmetrics s1) = accepted (hmetrics s) →
  hinv nn bb d (if decide (out = []) then with_hints (delete id) s1 else with_hints (insert id out) s1).
Proof.
  intros Hid [Hsz Hq HT HB Hc Hm Hn Hb] Eh Hsub [Ln Lsz LT LB Lc Lm Lq] Eq.
  pose proof (submseteq_length _ _ Hsub) as Hlen. simpl in Hlen.
  assert (∀ m, m = (if decide (out = []) then delete id (hints s) else insert id out (hints s)) →
    sizes_ok m ∧ queues_ok m ∧ pending m = (pending (hints s) - Z.of_nat (length q) + Z.of_nat (length out))%Z ∧
    pending_bytes m = (pending_bytes (hints s) - qweight h_size q + qweight h_size out)%Z)
    as Hm'.
  { intros m ->. unfold pending, pending_bytes. case_decide as E.
    - subst. split_and!; [intros k ?? [_ ?]%lookup_delete_Some; eauto|intros k ? [_ ?]%lookup_delete_Some; eauto|..];
        rewrite weight_delete, Hid; cbn -[Z.of_nat]; rewrite ?qweight_one; lia.
    - split_and!.
      + intros k q' e [[<- <-]|[_ ?]]%lookup_insert_Some He; eauto.
      + intros k q' [[<- <-]|[_ ?]]%lookup_insert_Some; [|eauto].
        split; [done|]. destruct (Hq _ _ Hid). lia.
      + rewrite weight_insert, Hid. cbn -[Z.of_nat]. rewrite !qweight_one. lia.
      + rewrite weight_insert, Hid. cbn -[Z.of_nat]. lia. }
  destruct (Hm' _ eq_refl) as (M1 & M2 & M3 & M4). clear Hm'.
  assert (qweight h_size out ≤ qweight h_size q)%Z.
  { apply submseteq_Permutation in Hsub as [r Hp]. simpl in Hp.
    rewrite (qweight_perm _ _ _ Hp), qweight_app. assert (0 ≤ qweight h_size r)%Z; [|lia].
    apply qweight_nonneg. intros e He. apply (Hsz id q e Hid). rewrite Hp. set_solver. }
  injection Eq as Eq1 Eq2.
  split; case_decide; simpl; rewrite ?Eh, ?Eq1, ?Eq2; try done; rewrite ?M3, ?M4; try done; try lia;
    (split; [lia|exact (proj2 Hn)]).
Qed.

(** The outer loop visits each queue of the map once. *)
Lemma replayQueues_ok now nn bb d qs : ∀ w s w' s',
  NoDup qs.*1 → (∀ id q, (id, q) ∈ qs → hints s !! id = Some q) →
  (nn < 2 ^ 63)%Z → hinv nn bb d s → replayQueues transport now qs w s = (w', s') → hinv nn bb d s'.
Proof.
  induction qs as [|[id q] qs IH]; intros w s w' s' Hnd Hin Hnn Hi Hr; simpl in Hr; [by simplify_eq|].
  destruct (replayQueue transport now id q [] w s) as [[w1 out] s1] eqn:Eq.
  assert (hints s !! id = Some q) as Hid by (apply Hin; by left).
  apply NoDup_cons in Hnd as [Hnid Hnd].
  destruct (replayQueue_ok now id d (pending (hints s) - Z.of_nat (length q))
    (pending_bytes (hints s) - qweight h_size q) q [] w s w1 out s1) as (E1 & E2 & El & E3); [|done|].
  { by apply (hinv_loop nn bb d _ id). }
  pose proof (hinv_unloop nn bb d s s1 id q out Hid Hi E1 E2 El E3) as Hi'.
  apply (IH _ _ _ _ Hnd) in Hr; [done| |done|by case_decide].
  intros id' q' Hin'. assert (id ≠ id').
  { intros ->. apply Hnid, list_elem_of_fmap. by exists (id', q'). }
  case_decide; simpl; rewrite E1; rewrite ?lookup_delete_ne, ?lookup_insert_ne by done;
    apply Hin; by right.
Qed.

(** The queue of a peer is at the cap per peer. *)
Definition full (id : string) (s : HintState) : bool :=
  (0 <? hintMaxPerNode cfg)%Z && (hintMaxPerNode cfg <=? Z.of_nat (length (default [] (hints s !! id))))%Z.

(** From [s] to [s'] a hint was accepted into a full queue: it took the place of
    the oldest one. *)
Definition displaces (id : string) (s s' : HintState) : Z :=
  if full id s && (hintedQueued (hmetrics s) <? hintedQueued (hmetrics s'))%Z then 1 else 0.

(** Dropping the oldest hint of a full queue leaves room for one more and takes it
    out of the counters; [d] is what was dropped. *)
Lemma dropOldest_ok n b c s id :
  hinv n b c s →
  ∃ d q s1, dropOldest cfg (default [] (hints s !! id)) s = Some (q, s1) ∧
    default [] (hints s !! id) = d ++ q ∧ hints s1 = hints s ∧ hmetrics s1 = hmetrics s ∧
    Z.of_nat (length d) = (if full id s then 1 else 0)%Z ∧
    (0 < hintMaxPerNode cfg → Z.of_nat (length q) < hintMaxPerNode cfg)%Z ∧
    tracks uncapped (hintTotal s1) (pending (hints s) - Z.of_nat (length d)) ∧
    tracks uncapped (hintBytes s1) (pending_bytes (hints s) - qweight h_size d) ∧ capped s1.
Proof.
  intros [Hsz Hq HT HB Hc Hm Hn Hb]. unfold dropOldest, full.
  destruct (Z.ltb_spec 0 (hintMaxPerNode cfg)) as [Hp|Hp]; cbn [andb].
  2:{ exists [], (default [] (hints s !! id)), s. cbn. rewrite !Z.sub_0_r. split_and!; try done; lia. }
  destruct (Z.leb_spec (hintMaxPerNode cfg) (Z.of_nat (length (default [] (hints s !! id))))) as [Hl|Hl].
  2:{ exists [], (default [] (hints s !! id)), s. cbn. rewrite !Z.sub_0_r. split_and!; try done; lia. }
  destruct (hints s !! id) as [q|] eqn:Eq; cbn in Hl |- *; [|lia].
  destruct q as [|e q]; cbn in Hl; [lia|].
  destruct (Hq _ _ Eq) as [_ Hlen]. specialize (Hlen Hp). cbn in Hlen.
  pose proof (weight_ge (λ _, 1%Z) (hints s) id _ ltac:(done) Eq) as Hge. rewrite qweight_one in Hge.
  pose proof (weight_ge h_size (hints s) id _ Hsz Eq) as Hge'. cbn in Hge, Hge'.
  assert (0 ≤ h_size e)%Z by (apply (Hsz _ _ e Eq); by left).
  assert (0 ≤ qweight h_size q)%Z by
    (apply qweight_nonneg; intros e' He'; apply (Hsz _ _ e' Eq); by right).
  fold (pending (hints s)) in Hge. fold (pending_bytes (hints s)) in Hge'.
  exists [e], q, (adjustHintAccounting (-1) (- h_size e) s). cbn -[Z.sub]. rewrite Z.add_0_r.
  split_and!; try done; [lia|apply (tracks_sub _ _ _ 1 HT); lia|apply (tracks_sub _ _ _ (h_size e) HB); lia|].
  pose proof (clamp_sub_le _ _ 1 _ HT ltac:(lia)). pose proof (clamp_sub_le _ _ (h_size e) _ HB ltac:(lia)).
  destruct Hc as [Hc1 Hc2]. split; intros Hpos; (etrans; [eassumption|auto]).
Qed.

Lemma hinv_reject n b c s s1 d src :
  hinv n b c s → hints s1 = hints s → hmetrics s1 = hmetrics s → (0 ≤ n)%Z → (n + 1 < 2 ^ 63)%Z → (0 < hintTTL cfg)%Z →
  (d ≠ [] → 0 < hintMaxPerNode cfg)%Z → (∀ e, e ∈ d → 0 ≤ h_size e)%Z →
  (0 < hintMaxTotal cfg ∨ 0 < hintMaxBytes cfg)%Z →
  tracks uncapped (hintTotal s1) (pending (hints s) - Z.of_nat (length d)) →
  tracks uncapped (hintBytes s1) (pending_bytes (hints s) - qweight h_size d) → capped s1 →
  hinv (n + 1) b c (with_hmetrics (countDropped src) s1).
Proof.
  intros [Hsz Hq HT HB Hc Hm Hn Hb] Eh Em Hn0 Hn1 Httl Hd Hds Hlim HT1 HB1 Hc1.
  apply qweight_nonneg in Hds.
  assert (uncapped → d = []) as Hu.
  { intros Hu. destruct d; [done|]. specialize (Hd ltac:(done)). unfold uncapped in Hu. lia. }
  split; cbn -[conserved]; rewrite ?Eh, ?Em; try done.
  - destruct HT as [HT _], HT1 as [HT1 HT2]. split; [lia|]. intros H. rewrite (HT2 H), (Hu H). cbn. lia.
  - destruct HB as [HB _], HB1 as [HB1 HB2]. split; [lia|]. intros H. rewrite (HB2 H), (Hu H). cbn. lia.
  - destruct Hm as (M1 & M2 & M3 & M4), HT as [HT _], (Z.leb_spec (hintTTL cfg) 0); [lia|].
    rewrite i64_small; lia.
Qed.

Lemma queueHint_ok n b c now id it src s :
  hinv n b c s → (0 ≤ n)%Z → (n + 1 < 2 ^ 63)%Z →
  (0 ≤ approxHintSize jsonLen (Some it))%Z → (b + approxHintSize jsonLen (Some it) < 2 ^ 63)%Z →
  ∃ s', queueHint jsonLen cfg now id it src s = Some s' ∧
    hinv (n + 1) (b + approxHintSize jsonLen (Some it)) (c + displaces id s s') s'.
Proof.
  intros Hi Hn0 Hn1. unfold queueHint. generalize (approxHintSize jsonLen (Some it)) as size. intros size Hs0 Hs1.
  destruct (Z.leb_spec (hintTTL cfg) 0) as [Httl|Httl].
  { exists s. split; [done|]. unfold displaces. rewrite Z.ltb_irrefl, andb_false_r, Z.add_0_r.
    destruct Hi as [???????]. split; try done; [|lia]. destruct (Z.leb_spec (hintTTL cfg) 0); [done|lia]. }
  destruct (dropOldest_ok n b c s id Hi) as (d & q & s1 & -> & Eq & Eh & Em & Hf & Hl & HT1 & HB1 & Hc1).
  assert (∀ e, e ∈ d ++ q → 0 ≤ h_size e)%Z as Hsz.
  { destruct (hints s !! id) as [q0|] eqn:E; cbn in Eq; [|by destruct d, q; [inversion 1|..]].
    intros e He. eapply (hinv_sizes _ _ _ _ Hi); [done|]. by rewrite Eq. }
  assert (d ≠ [] → 0 < hintMaxPerNode cfg)%Z as Hd.
  { unfold full in Hf. destruct d; [done|]. destruct (Z.ltb_spec 0 (hintMaxPerNode cfg)); done. }
  cbn -[adjustHintAccounting with_hmetrics].
  destruct (_ || _) eqn:Elim; eexists; (split; [done|]).
  { unfold displaces. cbn. rewrite Em, Z.ltb_irrefl, andb_false_r, Z.add_0_r.
    assert (∀ s, hinv (n + 1) b c s → hinv (n + 1) (b + size) c s) as Hmono by (intros ? []; split; try done; lia).
    apply Hmono. eapply (hinv_reject n b c s s1 d); try done.
    - intros e He. apply Hsz, elem_of_app. by left.
    - destruct (Z.ltb_spec 0 (hintMaxTotal cfg)), (Z.ltb_spec 0 (hintMaxBytes cfg)); cbn in Elim; auto; done. }
  apply orb_false_elim in Elim as [EL1 EL2].
  destruct Hi as [Hsz0 Hq [HT _] [HB _] Hc (Hm1 & Hm2 & Hm3 & Hm4) (Hn & Hg & Hcalls) Hb].
  destruct (Z.leb_spec (hintTTL cfg) 0) as [|_] in Hcalls; [lia|].
  assert (0 ≤ qweight h_size d)%Z by (apply qweight_nonneg; intros e He; apply Hsz, elem_of_app; by left).
  assert (pending (<[id := q ++ [MkHint it now (now + hintTTL cfg) size src]]> (hints s)) =
    pending (hints s) - Z.of_nat (length d) + 1)%Z as EP.
  { unfold pending. rewrite weight_insert, Eq, !qweight_one, !length_app. cbn. lia. }
  assert (pending_bytes (<[id := q ++ [MkHint it now (now + hintTTL cfg) size src]]> (hints s)) =
    pending_bytes (hints s) - qweight h_size d + size)%Z as EB.
  { unfold pending_bytes. rewrite weight_insert, Eq, !qweight_app. cbn. lia. }
  split; cbn -[conserved]; rewrite ?Eh, ?Em, ?EP, ?EB.
  - intros k q' e [[<- <-]|[_ ?]]%lookup_insert_Some He; [|by eapply Hsz0].
    apply elem_of_app in He as [He|He%list_elem_of_singleton]; [apply Hsz, elem_of_app; by right|by subst].
  - intros k q' [[<- <-]|[_ ?]]%lookup_insert_Some; [|by eapply Hq].
    split; [by destruct q|]. rewrite length_app. cbn. lia.
  - apply (tracks_add _ _ _ 1 HT1); lia.
  - apply (tracks_add _ _ _ size HB1); lia.
  - destruct Hc1 as [Hc1 Hc2], HT1 as [HT1 _], HB1 as [HB1 _].
    split; intros Hp; cbn -[i64].
    + rewrite i64_small by lia. fold (clamp (hintTotal s1 + 1)). rewrite clamp_spec. lia.
    + rewrite i64_small in EL2 |- * by lia. fold (clamp (hintBytes s1 + size)). rewrite clamp_spec. lia.
  - unfold displaces. cbn -[conserved i64]. rewrite ?Em, i64_small by lia.
    destruct (Z.ltb_spec (hintedQueued (hmetrics s)) (hintedQueued (hmetrics s) + 1)); [|lia].
    rewrite andb_true_r, <- Hf. split_and!; cbn; try done; rewrite ?i64_small by lia; lia.
  - destruct (Z.leb_spec (hintTTL cfg) 0); [lia|]. rewrite i64_small by lia. lia.
  - lia.
Qed.

Definition op_count (o : hop) : Z := match o with HQueue _ _ _ _ => 1 | HReplay _ => 0 end.
Definition op_size (o : hop) : Z :=
  match o with HQueue _ _ it _ => approxHintSize jsonLen (Some it) | HReplay _ => 0 end.
Definition load (f : hop → Z) (os : list hop) : Z := foldr (λ o n, f o + n)%Z 0%Z os.

Lemma load_nonneg f os : Forall (λ o, 0 ≤ f o)%Z os → (0 ≤ load f os)%Z.
Proof. induction 1; simpl; lia. Qed.

Lemma hrun_app os os' ws :
  hrun jsonLen cfg transport enum (os ++ os') ws =
  hrun jsonLen cfg transport enum os ws ≫= hrun jsonLen cfg transport enum os'.
Proof.
  revert ws. induction os as [|o os IH]; intros ws; [done|]. simpl.
  destruct (hstep _ _ _ _ _ _); simpl; [apply IH|done].
Qed.

(** The hints displaced by one operation, and in a run. *)
Definition displaced_by (o : hop) (ws ws' : W * HintState) : Z :=
  match o with HQueue _ id _ _ => displaces id ws.2 ws'.2 | HReplay _ => 0 end.

Fixpoint displaced (os : list hop) (ws : W * HintState) : Z :=
  match os with
  | [] => 0
  | o :: os =>
      match hstep jsonLen cfg transport enum o ws with
      | Some ws' => displaced_by o ws ws' + displaced os ws'
      | None => 0
      end
  end.

Lemma hints_hstep_ok n b d o ws :
  (∀ m, enum m ≡ₚ map_to_list m) →
  hinv n b d ws.2 → (0 ≤ n)%Z → (n + op_count o < 2 ^ 63)%Z → (0 ≤ op_size o)%Z →
  (b + op_size o < 2 ^ 63)%Z →
  ∃ ws', hstep jsonLen cfg transport enum o ws = Some ws' ∧ 
    hinv (n + op_count o) (b + op_size o) (d + displaced_by o ws ws') ws'.2.
Proof.
  intros Henum Hi Hn0 Hn Hs Hb. destruct ws as [w s], o as [now id it src|now]; cbn in *.
  - destruct (queueHint_ok n b d now id it src s) as (s' & -> & Hi'); [done..|]. cbn. by eexists (_, _).
  - eexists; split; [done|]. rewrite !Z.add_0_r. unfold replayHints.
    destruct transport as [t|] eqn:Et; [|done].
    destruct (replayQueues (Some t) now (enum (hints s)) w s) as [w' s'] eqn:E. cbn.
    assert (hinv n b d s') as [Hsz Hq HT HB Hc Hm Hn' Hb'].
    { rewrite <- Et in E. eapply replayQueues_ok; [..|exact Hi|exact E].
      - rewrite Henum. apply NoDup_fst_map_to_list.
      - intros id q. rewrite Henum. apply elem_of_map_to_list.
      - lia. }
    by split.
Qed.

Lemma hints_hrun_ok os : ∀ n b d ws,
  (∀ m, enum m ≡ₚ map_to_list m) → hinv n b d ws.2 → (0 ≤ n)%Z →
  Forall (λ o, 0 ≤ op_size o)%Z os → (n + load op_count os < 2 ^ 63)%Z → (b + load op_size os < 2 ^ 63)%Z →
  ∃ ws', hrun jsonLen cfg transport enum os ws = Some ws' ∧
    hinv (n + load op_count os) (b + load op_size os) (d + displaced os ws) ws'.2.
Proof.
  induction os as [|o os IH]; intros n b d ws Henum Hi Hn0 Hs Hn Hb; simpl in *.
  { rewrite !Z.add_0_r. eauto. }
  apply Forall_cons in Hs as [Ho Hs]. pose proof (load_nonneg _ _ Hs).
  assert (0 ≤ op_count o ∧ 0 ≤ load op_count os)%Z as [??].
  { split; [by destruct o|]. apply load_nonneg, Forall_true. by intros []. }
  destruct (hints_hstep_ok n b d o ws) as (ws1 & -> & Hi1); [done..|lia|done|lia|]. simpl.
  destruct (IH (n + op_count o)%Z (b + op_size o)%Z (d + displaced_by o ws ws1)%Z ws1) as (ws' & -> & Hi'); [done..|lia|done|lia|lia|].
  exists ws'. split; [done|]. by rewrite !Z.add_assoc.
Qed.

End Facts.

(** ** Theorems *)

Lemma hinv_init cfg : hinv cfg 0 0 0 noHints.
Proof.
  split; cbn; try done; [split; cbn; lia|]. by destruct (_ <=? _)%Z.
Qed.

Lemma displaced_uncapped jsonLen cfg {W} transport enum os : ∀ ws : W * HintState,
  (hintMaxPerNode cfg ≤ 0)%Z → displaced jsonLen cfg transport enum os ws = 0%Z.
Proof.
  induction os as [|o os IH]; intros ws Hcap; cbn; [done|].
  destruct (hstep _ _ _ _ o ws) as [ws'|]; [|done]. rewrite (IH _ Hcap), Z.add_0_r.
  destruct o; cbn; [|done]. unfold displaces, full. by destruct (Z.ltb_spec 0 (hintMaxPerNode cfg)); [lia|].
Qed.

(** C40: for every interleaving of queueHint and replayHints (every transport, every
    iteration order), as long as fewer than 2^63 hints and bytes were handed over:
    no call panics; no queue is longer than the cap per peer; the two counters never
    exceed the number and the bytes of the queued hints, and when caps per peer and
    global caps are not both configured they are exact, so that the global caps
    bound the queues.  Every hint is accounted for: with a positive hintTTL each call
    of queueHint counts once, as queued or as refused by a global cap (with another
    hintTTL nothing is queued or counted), and the queued ones are the replayed, the
    expired, the pending and the displaced ones.  A displaced hint, the oldest of a
    full queue that made room for an accepted one, is in no metric; there is none
    without a cap per peer. *)
Theorem hints_accounting jsonLen cfg {W} transport enum os (w : W) :
  (∀ m, enum m ≡ₚ map_to_list m) → Forall (λ o, 0 ≤ op_size jsonLen o)%Z os →
  (load op_count os < 2 ^ 63)%Z → (load (op_size jsonLen) os < 2 ^ 63)%Z →
  ∃ w' s, hrun jsonLen cfg transport enum os (w, noHints) = Some (w', s) ∧
    (∀ id q, hints s !! id = Some q →
      q ≠ [] ∧ (0 < hintMaxPerNode cfg → Z.of_nat (length q) ≤ hintMaxPerNode cfg)%Z) ∧
    (0 ≤ hintTotal s ≤ pending (hints s))%Z ∧ (0 ≤ hintBytes s ≤ pending_bytes (hints s))%Z ∧
    ((hintMaxPerNode cfg ≤ 0 ∨ hintMaxTotal cfg ≤ 0 ∧ hintMaxBytes cfg ≤ 0)%Z →
      hintTotal s = pending (hints s) ∧ hintBytes s = pending_bytes (hints s) ∧
      (0 < hintMaxTotal cfg → pending (hints s) ≤ hintMaxTotal cfg)%Z ∧
      (0 < hintMaxBytes cfg → pending_bytes (hints s) ≤ hintMaxBytes cfg)%Z) ∧
    (hintedQueued (hmetrics s) + hintedGlobalDropped (hmetrics s) =
       if (hintTTL cfg <=? 0)%Z then 0 else load op_count os)%Z ∧
    (0 ≤ hintedGlobalDropped (hmetrics s))%Z ∧
    hintedQueued (hmetrics s) =
      (hintedReplayed (hmetrics s) + hintedExpired (hmetrics s) + pending (hints s) +
       displaced jsonLen cfg transport enum os (w, noHints))%Z ∧
    (0 ≤ displaced jsonLen cfg transport enum os (w, noHints))%Z ∧
    ((hintMaxPerNode cfg ≤ 0)%Z → displaced jsonLen cfg transport enum os (w, noHints) = 0%Z).
Proof.
  intros Henum Hs Hn Hb.
  destruct (hints_hrun_ok jsonLen cfg transport enum os 0 0 0 (w, noHints)) as ([w' s] & E & Hi);
    [done|apply hinv_init|done..|]. rewrite E.
  destruct Hi as [_ Hq [HT HT'] [HB HB'] [Hc1 Hc2] (_ & _ & Hm3 & Hm4) (_ & Hg & Hcalls) _].
  exists w', s. cbn -[displaced] in *. split; [done|]. split; [exact Hq|]. split; [lia|]. split; [lia|].
  split; [intros Hu; by rewrite <- (HT' Hu), <- (HB' Hu)|].
  split_and!; try done. apply displaced_uncapped.
Qed.

(** A hint displaced from a full queue shows in no metric: two hints for one peer
    under a cap of one per peer are both counted as queued, none as dropped, replayed
    or expired, and one is left. *)
Theorem hint_displaced_silently jsonLen {W} (transport : option (W → string → Item → bool → W * option error))
    enum (w : W) :
  ∃ s, hrun jsonLen (MkHintConfig 100 1 0 0) transport enum
      [HQueue 0 "b" (MkItem "k" (AString "v1") 0 0 0 0 1 0 "a") hintSourceReplication;
       HQueue 1 "b" (MkItem "j" (AString "v2") 0 0 0 0 1 0 "a") hintSourceReplication] (w, noHints)
      = Some (w, s) ∧
    hmetrics s = MkHintMetrics 2 0 0 0 3 0 0 0 0 0 ∧ pending (hints s) = 1%Z.
Proof. eexists. split; [vm_compute; reflexivity|]. split; vm_compute; reflexivity. Qed.

(** Go strings of a given length. *)
Fixpoint str_of_len (n : nat) : string :=
  match n with 0 => "" | S n => String Ascii.zero (str_of_len n) end.

Lemma str_of_len_length n : String.length (str_of_len n) = n.
Proof. induction n; simpl; congruence. Qed.

Definition item_of_len (n : nat) : Item := MkItem (str_of_len n) (AString "") 0 0 0 0 0 0 "".

Lemma approxHintSize_item jsonLen n :
  (Z.of_nat n < 2 ^ 63)%Z → approxHintSize jsonLen (Some (item_of_len n)) = Z.of_nat n.
Proof. intros H. cbn -[i64]. rewrite str_of_len_length, Z.add_0_r. apply i64_small. lia. Qed.

(** One hint of [b] bytes for a new peer, then one for the same peer that is over
    the byte cap. *)
Definition leak_round (b i : nat) : list hop :=
  [HQueue 0 (str_of_len i) (item_of_len b) hintSourceReplication;
   HQueue 0 (str_of_len i) (item_of_len (S b)) hintSourceReplication].

Lemma queueHint_fresh jsonLen b id s src :
  (0 < Z.of_nat b < 2 ^ 62)%Z → hints s !! id = None → hintBytes s = 0%Z → hintTotal s = 0%Z →
  ∃ s', queueHint jsonLen (MkHintConfig 1 1 0 (Z.of_nat b)) 0 id (item_of_len b) src s = Some s' ∧
    hints s' = <[id := [MkHint (item_of_len b) 0 1 (Z.of_nat b) src]]> (hints s) ∧
    hintBytes s' = Z.of_nat b ∧ hintTotal s' = 1%Z.
Proof.
  intros Hb Hi HB HT. unfold queueHint, dropOldest. rewrite approxHintSize_item, Hi by lia.
  cbn -[i64 item_of_len]. change (1 <=? Z.of_nat 0)%Z with false. cbn -[i64 item_of_len]. rewrite HB, HT, Z.add_0_l, !i64_small by lia.
  destruct (Z.ltb_spec 0 (Z.of_nat b)), (Z.ltb_spec (Z.of_nat b) (Z.of_nat b)); try lia.
  eexists. split; [done|]. cbn -[i64 item_of_len]. rewrite !Z.add_0_l, !i64_small by lia.
  destruct (Z.ltb_spec (Z.of_nat b) 0); [lia|]. split; [reflexivity|]. split; reflexivity.
Qed.

Lemma queueHint_over jsonLen b id s src e :
  (0 < Z.of_nat b < 2 ^ 62)%Z → hints s !! id = Some [e] → h_size e = Z.of_nat b →
  hintBytes s = Z.of_nat b → hintTotal s = 1%Z →
  ∃ s', queueHint jsonLen (MkHintConfig 1 1 0 (Z.of_nat b)) 0 id (item_of_len (S b)) src s = Some s' ∧
    hints s' = hints s ∧ hintBytes s' = 0%Z ∧ hintTotal s' = 0%Z.
Proof.
  intros Hb Hi He HB HT. unfold queueHint, dropOldest. rewrite approxHintSize_item, Hi by lia.
  cbn -[i64 item_of_len Z.of_nat]. change (1 <=? Z.of_nat 1)%Z with true.
  cbn -[i64 item_of_len Z.of_nat]. rewrite He, HB, Z.add_opp_diag_r. change (i64 0) with 0%Z.
  cbn -[i64 item_of_len Z.of_nat adjustHintAccounting]. rewrite i64_small by lia.
  destruct (Z.ltb_spec 0 (Z.of_nat b)), (Z.ltb_spec (Z.of_nat b) (0 + Z.of_nat (S b))); try lia.
  cbn [andb]. eexists. split; [reflexivity|]. cbn -[i64 Z.of_nat]. by rewrite HB, HT, Z.add_opp_diag_r.
Qed.

Lemma leak_rounds_ok jsonLen b {W} (transport : option (W → string → Item → bool → W * option error))
    enum (w : W) n :
  (0 < Z.of_nat b < 2 ^ 62)%Z →
  ∃ s, hrun jsonLen (MkHintConfig 1 1 0 (Z.of_nat b)) transport enum (seq 0 n ≫= leak_round b) (w, noHints)
      = Some (w, s) ∧
    pending_bytes (hints s) = (Z.of_nat n * Z.of_nat b)%Z ∧ hintBytes s = 0%Z ∧ hintTotal s = 0%Z ∧
    ∀ i, n ≤ i → hints s !! str_of_len i = None.
Proof.
  intros Hb. induction n as [|n (s & IH & HP & HB & HT & Hi)].
  { exists noHints. split_and!; try done. }
  rewrite seq_S, bind_app. change ([0 + n] ≫= leak_round b) with (leak_round b n). rewrite hrun_app, IH.
  destruct (queueHint_fresh jsonLen b (str_of_len n) s hintSourceReplication) as (s1 & E1 & H1 & B1 & T1);
    [done|by apply Hi|done..|].
  destruct (queueHint_over jsonLen b (str_of_len n) s1 hintSourceReplication
    (MkHint (item_of_len b) 0 1 (Z.of_nat b) hintSourceReplication)) as (s2 & E2 & H2 & B2 & T2);
    [done|rewrite H1; apply lookup_insert_eq|done..|].
  exists s2. cbn -[queueHint item_of_len]. rewrite E1. cbn -[queueHint item_of_len]. rewrite E2.
  split_and!; [done| |done..|].
  - unfold pending_bytes in *. rewrite H2, H1, weight_insert, (Hi n) by lia. cbn -[Z.of_nat]. lia.
  - intros i Hle. rewrite H2, H1, lookup_insert_ne; [apply Hi; lia|].
    intros E%(f_equal String.length). rewrite !str_of_len_length in E. lia.
Qed.

(** The byte cap does not bound the queues: with a cap of one hint per peer,
    for every byte cap [b] and every [n] there is a sequence of queueHint calls
    that leaves [n * b] bytes queued with both counters at zero.  A hint that
    finds its peer's queue full first takes the oldest hint out of the counters;
    when it is then refused by the byte cap, the shortened queue is not stored. *)
Theorem hints_byte_cap_leak jsonLen b {W} (transport : option (W → string → Item → bool → W * option error))
    enum (w : W) n :
  (0 < Z.of_nat b < 2 ^ 62)%Z →
  ∃ os s, hrun jsonLen (MkHintConfig 1 1 0 (Z.of_nat b)) transport enum os (w, noHints) = Some (w, s) ∧
    pending_bytes (hints s) = (Z.of_nat n * Z.of_nat b)%Z ∧ hintBytes s = 0%Z ∧ hintTotal s = 0%Z.
Proof.
  intros Hb. destruct (leak_rounds_ok jsonLen b transport enum w n Hb) as (s & H & HP & HB & HT & _).
  by exists (seq 0 n ≫= leak_round b), s.
Qed.

(** ** What a replay sends and keeps *)

(** A transport that logs its calls and in which each delivery either works or not
    for the whole pass. *)
Definition recorder (ok : string → Item → bool) (log : list (string * Item)) (id : string) (it : Item)
    (replicate : bool) : list (string * Item) * option error :=
  (log ++ [(id, it)], if ok id it then None else Some ErrBackendNotFound).

Section Replay.
Context (ok : string → Item → bool) (now : Z).

Definition live (e : hintedEntry) : Prop := (now ≤ expire e)%Z.
Definition kept (id : string) (e : hintedEntry) : Prop := live e ∧ ok id (h_item e) = false.

#[local] Instance live_dec e : Decision (live e).
Proof. unfold live. apply _. Defined.
#[local] Instance kept_dec id e : Decision (kept id e).
Proof. unfold kept. apply _. Defined.

Definition sends (id : string) (q : list hintedEntry) : list (string * Item) :=
  (λ e, (id, h_item e)) <$> filter live q.

(** A queue after the pass; an empty one is removed from the map. *)
Definition remains (id : string) (q : list hintedEntry) : option (list hintedEntry) :=
  match filter (kept id) q with [] => None | q => Some q end.

Lemma replayQueue_recorder id q : ∀ out log s,
  ∃ s', replayQueue (Some (recorder ok)) now id q out log s =
          (log ++ sends id q, out ++ filter (kept id) q, s') ∧ hints s' = hints s.
Proof.
  induction q as [|e q IH]; intros out log s; cbn [replayQueue].
  { exists s. by rewrite !app_nil_r. }
  unfold processHint, sends, recorder in *.
  destruct (Z.ltb_spec (expire e) now) as [He|He].
  { assert (¬ live e) by (unfold live; lia). rewrite !filter_cons_False by (unfold kept; tauto).
    destruct (IH out log (adjustHintAccounting (-1) (- h_size e) (with_hmetrics (countExpired (source e)) s)))
      as (s' & E & ?). exists s'. split; [exact E|done]. }
  rewrite (filter_cons_True live) by done.
  rewrite fmap_cons, (cons_middle _ log (_ <$> filter live q)), (app_assoc log).
  destruct (ok id (h_item e)) eqn:Eok.
  - rewrite filter_cons_False by (unfold kept; intros [_ ?]; congruence).
    destruct (IH out (log ++ [(id, h_item e)]) (adjustHintAccounting (-1) (- h_size e)
      (with_hmetrics (countReplayed e now) s))) as (s' & E & ?). exists s'. split; [exact E|done].
  - rewrite filter_cons_True by done.
    destruct (IH (out ++ [e]) (log ++ [(id, h_item e)]) s) as (s' & E & ?). exists s'.
    split; [|done]. rewrite (cons_middle e out (filter (kept id) q)), (app_assoc out). exact E.
Qed.

Lemma replayQueues_recorder qs : ∀ log s,
  NoDup qs.*1 → (∀ id q, (id, q) ∈ qs → hints s !! id = Some q) →
  ∃ s', replayQueues (Some (recorder ok)) now qs log s = (log ++ (qs ≫= λ '(id, q), sends id q), s') ∧
    (∀ id, hints s' !! id = if decide (id ∈ qs.*1) then hints s !! id ≫= remains id else hints s !! id).
Proof.
  induction qs as [|[id q] qs IH]; intros log s Hnd Hin; cbn [replayQueues].
  { exists s. rewrite app_nil_r. split; [done|]. intros id. by rewrite decide_False by inversion 1. }
  apply NoDup_cons in Hnd as [Hnid Hnd]. assert (hints s !! id = Some q) as Hid by (apply Hin; by left).
  destruct (replayQueue_recorder id q [] log s) as (s1 & -> & E1). cbn [app].
  set (s2 := if decide (filter (kept id) q = []) then _ else _).
  assert (∀ id', hints s2 !! id' = if decide (id' = id) then remains id q else hints s !! id') as E2.
  { intros id'. subst s2. unfold remains. destruct (filter (kept id) q) as [|e l] eqn:Ef.
    - rewrite decide_True by done. cbn. rewrite E1. destruct (decide (id' = id)) as [->|].
      + apply lookup_delete_eq.
      + by apply lookup_delete_ne.
    - rewrite decide_False by done. cbn. rewrite E1. destruct (decide (id' = id)) as [->|].
      + apply lookup_insert_eq.
      + by apply lookup_insert_ne. }
  destruct (IH (log ++ sends id q) s2 Hnd) as (s' & E & Hs').
  { intros id' q' Hin'. rewrite E2, decide_False.
    - apply Hin. by right.
    - intros ->. apply Hnid, list_elem_of_fmap. by exists (id, q'). }
  exists s'. split; [by rewrite E, <- app_assoc|]. intros id'. rewrite Hs', E2. cbn [fmap list_fmap fst].
  destruct (decide (id' = id)) as [->|Hne].
  - rewrite decide_False by done. rewrite decide_True by (by left). by rewrite Hid.
  - destruct (decide (id' ∈ qs.*1)).
    + by rewrite decide_True by (by right).
    + rewrite decide_False; [done|]. by intros [?|?]%elem_of_cons.
Qed.
End Replay.

(** One replay pass sends, queue by queue and in queue order, exactly the
    hints that have not expired, and afterwards each queue holds, in the same
    order, exactly the unexpired hints whose delivery failed; a queue that becomes
    empty is removed. *)
Theorem hints_replay_pass ok enum now log s :
  (∀ m, enum m ≡ₚ map_to_list m) →
  ∃ s', replayHints (Some (recorder ok)) enum now log s =
          (log ++ (enum (hints s) ≫= λ '(id, q), sends now id q), s') ∧
    ∀ id, hints s' !! id = hints s !! id ≫= remains ok now id.
Proof.
  intros Henum. unfold replayHints.
  destruct (replayQueues_recorder ok now (enum (hints s)) log s) as (s' & -> & Hs').
  - rewrite Henum. apply NoDup_fst_map_to_list.
  - intros id q. rewrite Henum. apply elem_of_map_to_list.
  - eexists. split; [done|]. intros id. cbn. rewrite Hs'. case_decide as Hd; [done|].
    destruct (hints s !! id) as [q|] eqn:E; [|done]. destruct Hd. rewrite Henum.
    apply list_elem_of_fmap. exists (id, q). by rewrite elem_of_map_to_list.
Qed.

(** ** Witnesses *)

Definition sample_json (v : any) : option Z := Some 4%Z.

Definition sample_hops : list hop :=
  [HQueue 0 "b" (item_of_len 3) hintSourceReplication; HQueue 1 "b" (item_of_len 2) hintSourceMigration;
   HQueue 2 "c" (item_of_len 1) hintSourceReplication; HQueue 3 "d" (item_of_len 1) hintSourceReplication;
   HReplay 5].

Definition sample_hcfg : HintConfig := MkHintConfig 100 1 2 0.

Definition sample_delivers : string → Item → bool := λ id _, String.eqb id "c".

Lemma hints_accounting_witness :
  ∃ w' s, hrun sample_json sample_hcfg (Some (recorder sample_delivers)) map_to_list sample_hops
      ([], noHints) = Some (w', s) ∧
    (hintedQueued (hmetrics s) + hintedGlobalDropped (hmetrics s) = 4)%Z ∧
    hintedQueued (hmetrics s) = (hintedReplayed (hmetrics s) + hintedExpired (hmetrics s) + 1 + 1)%Z ∧
    hints s !! "b" = Some [MkHint (item_of_len 2) 1 101 2 hintSourceMigration].
Proof.
  destruct (hints_accounting sample_json sample_hcfg (Some (recorder sample_delivers))
    map_to_list sample_hops []) as (w' & s & E & _ & _ & _ & _ & H1 & _ & H2 & _).
  - done.
  - repeat constructor; vm_compute; done.
  - vm_compute. done.
  - vm_compute. done.
  - exists w', s. assert (pending (hints s) = 1%Z ∧ hints s !! "b" =
      Some [MkHint (item_of_len 2) 1 101 2 hintSourceMigration]) as [Ep Eb].
    { vm_compute in E. injection E as _ <-. split; vm_compute; reflexivity. }
    rewrite Ep in H2. split; [exact E|]. split; [exact H1|]. split; [exact H2|exact Eb].
Defined.

Lemma hints_byte_cap_leak_witness :
  ∃ os s, hrun sample_json (MkHintConfig 1 1 0 5) None map_to_list os ((), noHints) = Some ((), s) ∧
    pending_bytes (hints s) = 500%Z.
Proof.
  destruct (hints_byte_cap_leak sample_json 5 None map_to_list () 100) as (os & s & E & H & _); [lia|].
  by exists os, s.
Defined.

Definition sample_hints : HintState :=
  MkHints {["b" := [MkHint (item_of_len 1) 0 3 1 hintSourceReplication;
                    MkHint (item_of_len 2) 0 9 2 hintSourceReplication;
                    MkHint (item_of_len 4) 0 9 4 hintSourceReplication]]} 3 7 noMetrics.

Lemma hints_replay_pass_witness :
  ∃ s', replayHints (Some (recorder (λ _ it, String.eqb (Key it) (str_of_len 4)))) map_to_list 5 []
      sample_hints = ([("b", item_of_len 2); ("b", item_of_len 4)], s') ∧
    hints s' !! "b" = Some [MkHint (item_of_len 2) 0 9 2 hintSourceReplication].
Proof.
  destruct (hints_replay_pass (λ _ it, String.eqb (Key it) (str_of_len 4)) map_to_list 5 [] sample_hints)
    as (s' & E & H); [done|].
  exists s'. split; [exact E|]. rewrite H. reflexivity.
Defined.
