(* ===== verification/DistNode.v ===== *)
(** * One node of the distributed backend (pkg/backend/dist_memory.go)

    The shards of a [DistMemory] with their items and tombstones, and the local
    operations on them: storing an item, removing a key, adopting a peer's answer
    during anti-entropy, compacting tombstones, and the rule that orders two
    versions of an item.

    A shard's [cache.ConcurrentMap] is a flat map here (CMap.v proves that it
    behaves as one).  The shard fields of the rebalancer and the metrics are left
    out.  Parameters: [sum64] is xxhash (the ring), the clock is an argument.

    The theorems describe every operation on the node's flat view, all items and
    all tombstones whatever shard they are in. *)

From stdpp Require Import base gmap strings list fin_maps.
From Stdlib Require Import ZArith Lia.
From S2P Require Import Prelude Item Ring.

(** ** The code *)

Record tombstone := MkTomb { t_version : Z (* uint64 *); t_origin : string; t_at : Z }.

Record distShard := MkDShard {
  d_items : gmap string Item;
  tombs : gmap string tombstone;
  originalPrimary : gmap string string;
  originalOwners : gmap string (list string) }.

Record DistMemory := MkDM {
  localID : string;
  shardCount : Z;
  shards : list distShard;
  dring : option Ring;
  versionCounter : Z;      (* atomic.Uint64 *)
  tombVersionCounter : Z;  (* atomic.Uint64 *)
  merkleChunkSize : Z }.

Definition defaultDistShardCount : Z := 8.

Definition emptyShard : distShard := MkDShard ∅ ∅ ∅ ∅.

Definition with_shards (ss : list distShard) (dm : DistMemory) : DistMemory :=
  MkDM (localID dm) (shardCount dm) ss (dring dm) (versionCounter dm) (tombVersionCounter dm)
    (merkleChunkSize dm).

Definition ensureShardConfig (dm : DistMemory) : DistMemory :=
  let n := if (shardCount dm <=? 0)%Z then defaultDistShardCount else shardCount dm in
  MkDM (localID dm) n (shards dm ++ replicate (Z.to_nat n - length (shards dm)) emptyShard) (dring dm)
    (versionCounter dm) (tombVersionCounter dm) (merkleChunkSize dm).

(** hash/fnv's 32-bit FNV-1a. *)
Definition fnv32a (s : string) : Z :=
  foldl (λ h b, u32 (Z.lxor h (Z.of_nat b) * 16777619)) 2166136261%Z (bytes_of s).

(** [None] is the division by zero. *)
Definition hashKey (key : string) (dm : DistMemory) : option nat :=
  if decide (shardCount dm = 0%Z) then None else Some (Z.to_nat (Z.rem (fnv32a key) (shardCount dm))).

(** The index of the key's shard and the shard; [None] is an index out of range. *)
Definition shardFor (key : string) (dm : DistMemory) : option (nat * distShard) :=
  i ← hashKey key dm; sh ← shards dm !! i; Some (i, sh).

Definition setShard (i : nat) (sh : distShard) (dm : DistMemory) : DistMemory :=
  with_shards (<[i := sh]> (shards dm)) dm.

Section DistNode.
Context (sum64 : string → Z).

Definition lookupOwners (key : string) (dm : DistMemory) : option (list string) :=
  match dring dm with None => Some [] | Some r => Lookup sum64 key r end.

Definition ownsKeyInternal (key : string) (dm : DistMemory) : option bool :=
  match dring dm with
  | None => Some true
  | Some r =>
      owners ← Lookup sum64 key r;
      if decide (localID dm ∈ owners) then Some true
      else Some (bool_decide (length owners = 0))
  end.

(** [sh.originalPrimary] and [sh.originalOwners] are made with the shard, so they
    are never nil. *)
Definition recordOriginalPrimary (key : string) (dm : DistMemory) (sh : distShard) : option distShard :=
  match dring dm with
  | None => Some sh
  | Some r =>
      match originalPrimary sh !! key with
      | Some _ => Some sh
      | None =>
          owners ← Lookup sum64 key r;
          match owners with
          | [] => Some sh
          | o :: _ =>
              let oo := match originalOwners sh !! key with
                        | Some _ => originalOwners sh
                        | None => <[key := owners]> (originalOwners sh)
                        end in
              Some (MkDShard (d_items sh) (tombs sh) (<[key := o]> (originalPrimary sh)) oo)
          end
      end
  end.

(** [applySet] up to the test of [replicate]: what it does to the node itself. *)
Definition storeItem (item : Item) (dm : DistMemory) : option DistMemory :=
  '(i, sh) ← shardFor (Key item) dm;
  sh ← recordOriginalPrimary (Key item) dm sh;
  let cloned := item in
  Some (setShard i (MkDShard (<[Key item := cloned]> (d_items sh)) (tombs sh) (originalPrimary sh)
                      (originalOwners sh)) dm).

(** [shardFor(key).items.Get] and [.GetCopy]. *)
Definition getItem (key : string) (dm : DistMemory) : option (option Item) :=
  '(_, sh) ← shardFor key dm; Some (d_items sh !! key).

(** Removing the item and writing a tombstone, as [applyRemove] and
    [fetchAndAdopt] do. *)
Definition bury (key : string) (t : tombstone) (sh : distShard) : distShard :=
  MkDShard (delete key (d_items sh)) (<[key := t]> (tombs sh)) (originalPrimary sh) (originalOwners sh).

(** [applyRemove] up to the replication: the tombstone's version is one more than
    the item's, or fresh when there is no item (or the sum wraps to zero). *)
Definition removeItem (now : Z) (key : string) (dm : DistMemory) : option DistMemory :=
  '(i, sh) ← shardFor key dm;
  let nextVer := match d_items sh !! key with Some it => u64 (Version it + 1) | None => 0%Z end in
  let '(nextVer, ctr) :=
    if decide (nextVer = 0%Z)
    then (u64 (tombVersionCounter dm + 1), u64 (tombVersionCounter dm + 1))
    else (nextVer, tombVersionCounter dm) in
  let dm := setShard i (bury key (MkTomb nextVer (localID dm) now) sh) dm in
  Some (MkDM (localID dm) (shardCount dm) (shards dm) (dring dm) (versionCounter dm) ctr
          (merkleChunkSize dm)).

(** [fetchAndAdopt], given what [transport.ForwardGet] answered. *)
Definition fetchAndAdopt (now : Z) (key : string) (answer : result (option Item)) (dm : DistMemory)
    : option DistMemory :=
  match answer with
  | Err _ => Some dm
  | Ok None =>
      '(i, sh) ← shardFor key dm;
      match tombs sh !! key with
      | Some _ => Some dm
      | None =>
          match d_items sh !! key with
          | None => Some dm
          | Some cur => Some (setShard i (bury key (MkTomb (u64 (Version cur + 1)) (localID dm) now) sh) dm)
          end
      end
  | Ok (Some it) =>
      '(i, sh) ← shardFor key dm;
      let adopt (dm : DistMemory) :=
        match d_items sh !! key with
        | None => storeItem it dm
        | Some cur => if (Version cur <? Version it)%Z then storeItem it dm else Some dm
        end in
      match tombs sh !! key with
      | Some tomb =>
          if (Version it <=? t_version tomb)%Z then Some dm
          else adopt (setShard i (MkDShard (d_items sh) (delete key (tombs sh)) (originalPrimary sh)
                                    (originalOwners sh)) dm)
      | None => adopt dm
      end
  end.

(** One shard's tombstones of age at least [ttl] go; the count is the purged ones. *)
Definition compactShard (now ttl : Z) (sh : distShard) : distShard * Z :=
  let keep := filter (λ kt, ¬ (ttl ≤ sat64 (now - t_at kt.2))%Z) (tombs sh) in
  (MkDShard (d_items sh) keep (originalPrimary sh) (originalOwners sh),
   Z.of_nat (size (tombs sh)) - Z.of_nat (size keep))%Z.

Fixpoint compactShards (now ttl : Z) (ss : list distShard) (purged : Z) : list distShard * Z :=
  match ss with
  | [] => ([], purged)
  | sh :: ss =>
      let '(sh, n) := compactShard now ttl sh in
      let '(ss, purged) := compactShards now ttl ss (i64 (purged + n)) in
      (sh :: ss, purged)
  end.

Definition compactTombstones (ttl now : Z) (dm : DistMemory) : DistMemory * Z :=
  if (ttl <=? 0)%Z then (dm, 0%Z)
  else let '(ss, purged) := compactShards now ttl (shards dm) 0 in (with_shards ss dm, purged).

Definition countTombstones (dm : DistMemory) : Z :=
  foldl (λ total sh, i64 (total + Z.of_nat (size (tombs sh)))) 0%Z (shards dm).

(** The higher version wins, then the smaller origin, then the first. *)
Definition chooseNewer (itemA itemB : option Item) : option Item :=
  match itemA, itemB with
  | None, _ => itemB
  | _, None => itemA
  | Some a, Some b =>
      if (Version a <? Version b)%Z then Some b
      else if (Version b <? Version a)%Z then Some a
      else if str_ltb (Origin b) (Origin a) then Some b
      else Some a
  end.

End DistNode.

(** ** The flat view *)

Record node_wf (dm : DistMemory) : Prop := {
  nw_count : (0 < shardCount dm)%Z;
  nw_length : length (shards dm) = Z.to_nat (shardCount dm);
  nw_items : partitioned (λ k, hashKey k dm) (d_items <$> shards dm);
  nw_tombs : partitioned (λ k, hashKey k dm) (tombs <$> shards dm) }.

Definition items_of (dm : DistMemory) : gmap string Item := ⋃ (d_items <$> shards dm).
Definition tombs_of (dm : DistMemory) : gmap string tombstone := ⋃ (tombs <$> shards dm).

(** Items are stored under their own key. *)
Definition keys_ok (m : gmap string Item) : Prop := ∀ k it, m !! k = Some it → Key it = k.

(** The fields no local operation changes. *)
Definition same_node (dm dm' : DistMemory) : Prop :=
  localID dm' = localID dm ∧ shardCount dm' = shardCount dm ∧ dring dm' = dring dm ∧
  merkleChunkSize dm' = merkleChunkSize dm ∧ versionCounter dm' = versionCounter dm.

#[export] Instance same_node_preorder : PreOrder same_node.
Proof. unfold same_node. split; [done|]. intros a b c. intros. destruct_and!. split_and!; congruence. Qed.

Lemma fnv32a_nonneg s : (0 ≤ fnv32a s)%Z.
Proof.
  unfold fnv32a. generalize (bytes_of s). intros bs.
  assert (∀ h, 0 ≤ h → 0 ≤ foldl (λ h b, u32 (Z.lxor h (Z.of_nat b) * 16777619)) h bs)%Z as H.
  { induction bs as [|b bs IH]; intros h Hh; [done|]. simpl. apply IH. apply u32_bound. }
  apply H. lia.
Qed.

Lemma hashKey_ok k dm : (0 < shardCount dm)%Z → ∃ i, hashKey k dm = Some i ∧ i < Z.to_nat (shardCount dm).
Proof.
  intros H. unfold hashKey. rewrite decide_False by lia. eexists. split; [done|].
  pose proof (Z.rem_bound_pos (fnv32a k) (shardCount dm) (fnv32a_nonneg k) H). lia.
Qed.

Lemma shardFor_ok k dm :
  node_wf dm → ∃ i sh, shardFor k dm = Some (i, sh) ∧ hashKey k dm = Some i ∧ shards dm !! i = Some sh ∧
    d_items sh !! k = items_of dm !! k ∧ tombs sh !! k = tombs_of dm !! k.
Proof.
  intros [Hc Hl Hi Ht]. destruct (hashKey_ok k dm Hc) as (i & E & Hlt).
  destruct (lookup_lt_is_Some_2 (shards dm) i) as [sh Hsh]; [lia|].
  exists i, sh. unfold shardFor. rewrite E. cbn. rewrite Hsh. split_and!; try done; symmetry.
  - by apply (partitioned_lookup _ _ k i _ Hi E); rewrite list_lookup_fmap, Hsh.
  - by apply (partitioned_lookup _ _ k i _ Ht E); rewrite list_lookup_fmap, Hsh.
Qed.

(** Replacing a key's shard by one that differs at that key only. *)
Lemma setShard_ok k dm i sh sh' :
  node_wf dm → hashKey k dm = Some i → shards dm !! i = Some sh →
  (∀ k', k' ≠ k → d_items sh' !! k' = d_items sh !! k') →
  (∀ k', k' ≠ k → tombs sh' !! k' = tombs sh !! k') →
  node_wf (setShard i sh' dm) ∧
  items_of (setShard i sh' dm) = partial_alter (λ _, d_items sh' !! k) k (items_of dm) ∧
  tombs_of (setShard i sh' dm) = partial_alter (λ _, tombs sh' !! k) k (tombs_of dm).
Proof.
  intros [Hc Hl Hi Ht] E Hsh Hdi Hdt.
  assert (∀ k', ∃ j, hashKey k' dm = Some j ∧ j < length (shards dm)) as Hidx.
  { intros k'. rewrite Hl. by apply hashKey_ok. }
  destruct (partitioned_update _ _ k i (d_items sh) (d_items sh') Hi) as [Hi' Ei]; try done.
  { intros k'. rewrite length_fmap. auto. }
  { by rewrite list_lookup_fmap, Hsh. }
  destruct (partitioned_update _ _ k i (tombs sh) (tombs sh') Ht) as [Ht' Et]; try done.
  { intros k'. rewrite length_fmap. auto. }
  { by rewrite list_lookup_fmap, Hsh. }
  unfold items_of, tombs_of. cbn. rewrite !list_fmap_insert. split; [|done].
  split; cbn; [done|by rewrite length_insert|by rewrite list_fmap_insert..].
Qed.

Section NodeFacts.
Context (sum64 : string → Z).

Lemma recordOriginalPrimary_ok k dm sh :
  ∃ sh', recordOriginalPrimary sum64 k dm sh = Some sh' ∧ d_items sh' = d_items sh ∧ tombs sh' = tombs sh.
Proof.
  unfold recordOriginalPrimary. destruct (dring dm) as [r|]; [|eauto].
  destruct (originalPrimary sh !! k); [eauto|].
  destruct (Lookup_total sum64 k r) as (l & -> & _ & _). cbn. destruct l; eauto.
Qed.

Lemma storeItem_ok it dm :
  node_wf dm → ∃ dm', storeItem sum64 it dm = Some dm' ∧ node_wf dm' ∧ same_node dm dm' ∧
    tombVersionCounter dm' = tombVersionCounter dm ∧
    items_of dm' = <[Key it := it]> (items_of dm) ∧ tombs_of dm' = tombs_of dm.
Proof.
  intros Hwf. destruct (shardFor_ok (Key it) dm Hwf) as (i & sh & E & Ei & Hsh & _ & Et).
  unfold storeItem. rewrite E. cbn.
  destruct (recordOriginalPrimary_ok (Key it) dm sh) as (sh' & -> & Ed & Et'). cbn.
  destruct (setShard_ok (Key it) dm i sh (MkDShard (<[Key it := it]> (d_items sh')) (tombs sh')
    (originalPrimary sh') (originalOwners sh')) Hwf Ei Hsh) as (Hwf' & Hi' & Ht').
  { intros k' Hk'. cbn. by rewrite Ed, lookup_insert_ne. }
  { intros k' Hk'. cbn. by rewrite Et'. }
  eexists. split_and!; [done|done|done|done|..].
  - rewrite Hi'. cbn. by rewrite lookup_insert_eq.
  - rewrite Ht'. cbn. rewrite Et', Et. apply partial_alter_self.
Qed.

(** [bury]ing a key in its shard. *)
Lemma bury_ok k t dm i sh :
  node_wf dm → hashKey k dm = Some i → shards dm !! i = Some sh →
  let dm' := setShard i (bury k t sh) dm in
  node_wf dm' ∧ items_of dm' = delete k (items_of dm) ∧ tombs_of dm' = <[k := t]> (tombs_of dm).
Proof.
  intros Hwf Ei Hsh dm'.
  destruct (setShard_ok k dm i sh (bury k t sh) Hwf Ei Hsh) as (Hwf' & Hi' & Ht').
  { intros k' Hk'. cbn. by rewrite lookup_delete_ne. }
  { intros k' Hk'. cbn. by rewrite lookup_insert_ne. }
  split_and!; [done|..].
  - subst dm'. rewrite Hi'. cbn. by rewrite lookup_delete_eq.
  - subst dm'. rewrite Ht'. cbn. by rewrite lookup_insert_eq.
Qed.

(** The version a removal writes. *)
Definition tomb_version (m : gmap string Item) (ctr : Z) (k : string) : Z :=
  let v := match m !! k with Some it => u64 (Version it + 1) | None => 0%Z end in
  if decide (v = 0%Z) then u64 (ctr + 1) else v.

Lemma removeItem_ok now k dm :
  node_wf dm → ∃ dm', removeItem now k dm = Some dm' ∧ node_wf dm' ∧ same_node dm dm' ∧
    items_of dm' = delete k (items_of dm) ∧
    tombs_of dm' =
      <[k := MkTomb (tomb_version (items_of dm) (tombVersionCounter dm) k) (localID dm) now]> (tombs_of dm).
Proof.
  intros Hwf. destruct (shardFor_ok k dm Hwf) as (i & sh & E & Ei & Hsh & Ed & _).
  unfold removeItem. rewrite E. cbn. rewrite Ed. unfold tomb_version.
  set (v := match items_of dm !! k with Some it => _ | None => _ end).
  case_decide; (eexists; split; [done|]);
    match goal with |- context [bury k ?t sh] =>
      destruct (bury_ok k t dm i sh Hwf Ei Hsh) as ([Hc Hl Hi Ht] & Hi' & Ht') end;
    (split; [split; done|]); (split; [done|]); split; done.
Qed.

(** ** Adopting a peer's answer, on the flat view *)

(** What the node knows is at least version [w]. *)
Definition covers (v : option Z) (w : Z) : bool := match v with Some x => (w <=? x)%Z | None => false end.

Definition adopt (now : Z) (id : string) (k : string) (answer : result (option Item))
    (m : gmap string Item) (t : gmap string tombstone) : gmap string Item * gmap string tombstone :=
  match answer with
  | Err _ => (m, t)
  | Ok None =>
      match t !! k, m !! k with
      | None, Some cur => (delete k m, <[k := MkTomb (u64 (Version cur + 1)) id now]> t)
      | _, _ => (m, t)
      end
  | Ok (Some it) =>
      if covers (t_version <$> t !! k) (Version it) then (m, t)
      else (if covers (Version <$> m !! k) (Version it) then m else <[k := it]> m, delete k t)
  end.

(** A peer answers with the item it stores under the key. *)
Definition answer_ok (k : string) (answer : result (option Item)) : Prop :=
  match answer with Ok (Some it) => Key it = k | _ => True end.

Lemma adopt_item_ok k it dm :
  node_wf dm → Key it = k → ∃ dm',
    match items_of dm !! k with
    | None => storeItem sum64 it dm
    | Some cur => if (Version cur <? Version it)%Z then storeItem sum64 it dm else Some dm
    end = Some dm' ∧ node_wf dm' ∧ same_node dm dm' ∧ tombs_of dm' = tombs_of dm ∧
    items_of dm' = if covers (Version <$> items_of dm !! k) (Version it) then items_of dm
                   else <[k := it]> (items_of dm).
Proof.
  intros Hwf <-. destruct (storeItem_ok it dm Hwf) as (dm' & E & Hwf' & Hs & _ & Hi & Ht).
  destruct (items_of dm !! Key it) as [cur|]; cbn.
  - destruct (Z.ltb_spec (Version cur) (Version it)), (Z.leb_spec (Version it) (Version cur)); try lia.
    + by exists dm'.
    + exists dm. by split_and!.
  - by exists dm'.
Qed.

Lemma fetchAndAdopt_ok now k answer dm :
  node_wf dm → answer_ok k answer → ∃ dm', fetchAndAdopt sum64 now k answer dm = Some dm' ∧
    node_wf dm' ∧ same_node dm dm' ∧
    (items_of dm', tombs_of dm') = adopt now (localID dm) k answer (items_of dm) (tombs_of dm).
Proof.
  intros Hwf Ha. unfold fetchAndAdopt, adopt.
  destruct answer as [[it|]|e]; [..|by exists dm; split_and!];
    destruct (shardFor_ok k dm Hwf) as (i & sh & E & Ei & Hsh & Ed & Et); rewrite E; cbn; rewrite Ed, Et.
  - destruct (tombs_of dm !! k) as [tomb|] eqn:Etk; cbn.
    + destruct (Version it <=? t_version tomb)%Z; [by exists dm; split_and!|].
      set (dm1 := setShard i _ dm).
      destruct (setShard_ok k dm i sh (MkDShard (d_items sh) (delete k (tombs sh)) (originalPrimary sh)
        (originalOwners sh)) Hwf Ei Hsh) as (Hwf1 & Hi1 & Ht1); [done|..].
      { intros k' Hk'. cbn. by rewrite lookup_delete_ne. }
      fold dm1 in Hwf1, Hi1, Ht1.
      assert (items_of dm1 = items_of dm) as Ei1 by (rewrite Hi1; cbn; rewrite Ed; apply partial_alter_self).
      assert (tombs_of dm1 = delete k (tombs_of dm)) as Et1 by (rewrite Ht1; cbn; by rewrite lookup_delete_eq).
      destruct (adopt_item_ok k it dm1 Hwf1 Ha) as (dm' & E' & Hwf' & Hs' & Ht' & Hi').
      rewrite Ei1 in E', Hi'. exists dm'. split_and!; [done|done|by etrans; [|exact Hs']|].
      by rewrite Hi', Ht', Et1.
    + destruct (adopt_item_ok k it dm Hwf Ha) as (dm' & E' & Hwf' & Hs' & Ht' & Hi').
      exists dm'. split_and!; [done..|]. rewrite Hi', Ht'. by rewrite delete_id.
  - destruct (tombs_of dm !! k); [by exists dm; split_and!|].
    destruct (items_of dm !! k) as [cur|]; [|by exists dm; split_and!].
    eexists. split; [done|].
    destruct (bury_ok k (MkTomb (u64 (Version cur + 1)) (localID dm) now) dm i sh Hwf Ei Hsh)
      as (Hwf' & Hi' & Ht'). split_and!; [done|done|]. by rewrite Hi', Ht'.
Qed.

(** [adopt] looks at and changes one key only. *)
Lemma adopt_other now id k k' answer m t :
  k' ≠ k → (adopt now id k answer m t).1 !! k' = m !! k' ∧ (adopt now id k answer m t).2 !! k' = t !! k'.
Proof.
  intros Hk. unfold adopt. destruct answer as [[it|]|e]; repeat case_match; cbn;
    by rewrite ?lookup_insert_ne, ?lookup_delete_ne by done.
Qed.

Lemma adopt_keys now id k answer m t :
  keys_ok m → answer_ok k answer → keys_ok (adopt now id k answer m t).1.
Proof.
  intros Hm Ha k' it'. destruct answer as [[it|]|e]; cbn in *; repeat case_match; cbn; try apply Hm;
    first [intros [[<- <-]|[_ ?]]%lookup_insert_Some|intros [_ ?]%lookup_delete_Some]; auto.
Qed.

End NodeFacts.

(** ** Fresh nodes *)

Definition freshNode (id : string) (count chunk : Z) (r : option Ring) : DistMemory :=
  ensureShardConfig (MkDM id count [] r 0 0 chunk).

Lemma union_empty_shards {A} (f : distShard → gmap string A) n :
  f emptyShard = ∅ → ⋃ (f <$> replicate n emptyShard) = ∅.
Proof. intros E. rewrite fmap_replicate, E. apply union_replicate_empty. Qed.

Lemma partitioned_empty_shards {A} (f : distShard → gmap string A) idx n :
  f emptyShard = ∅ → partitioned idx (f <$> replicate n emptyShard).
Proof.
  intros E i m k Hi. rewrite fmap_replicate, E in Hi. apply lookup_replicate in Hi as [-> _].
  rewrite lookup_empty. by intros [].
Qed.

Lemma freshNode_ok id count chunk r :
  let dm := freshNode id count chunk r in node_wf dm ∧ items_of dm = ∅ ∧ tombs_of dm = ∅.
Proof.
  unfold freshNode, ensureShardConfig. cbn [shards shardCount localID dring versionCounter tombVersionCounter
    merkleChunkSize]. rewrite app_nil_l, Nat.sub_0_r. set (n := if (count <=? 0)%Z then _ else _).
  assert (0 < n)%Z as Hn by (subst n; unfold defaultDistShardCount; destruct (Z.leb_spec count 0); lia).
  split_and!.
  - split; cbn; [done|apply length_replicate|by apply partitioned_empty_shards..].
  - by apply union_empty_shards.
  - by apply union_empty_shards.
Qed.
