(* ===== verification/Merkle.v ===== *)
(** * Merkle anti-entropy (pkg/backend/dist_memory.go, BuildMerkleTree ... syncWithStatus)

    A node hashes its sorted key/version pairs in chunks, compares the leaves with
    those of a peer, and for the keys of the chunks that differ, and for the keys
    only the peer has, asks the peer and adopts its answer.  The peer is reached
    through the in-process transport (pkg/backend/dist_transport.go), so a peer is
    another [DistMemory], or none when it is not registered.

    Parameters: [sum256] is sha256, [SortFunc] is slices.SortFunc on the pairs,
    [enumI], [enumT] and [enumK] are the orders in which Go ranges over the maps
    of items, of tombstones and of missing keys.

    The theorems: a sync leaves the node with at least the version of every item
    of the peer, provided the hash does not collide and the encoding of the chunks, which
    writes no lengths, tells the two stores' chunks apart; which keys a sync
    deletes; and two stores whose trees are equal for every hash function. *)

From stdpp Require Import base gmap strings list fin_maps sorting.
From Stdlib Require Import ZArith Lia.
From S2P Require Import Prelude Item Ring DistNode.

(** ** The code *)

Record MerkleTree := MkTree { LeafHashes : list (list Z); Root : list Z; ChunkSize : Z }.

Record merkleKV := MkKV { kv_k : string; kv_v : Z (* uint64 *) }.

Definition defaultMerkleChunkSize : Z := 128.
Definition merkleVersionBytes : nat := 8.
Definition shiftPerByte : Z := 8.

(** The buffer is filled from its last byte; [acc] is the filled part. *)
Fixpoint encodeLoop (n : nat) (v : Z) (acc : list Z) : list Z :=
  match n with 0 => acc | S n => encodeLoop n (Z.shiftr v shiftPerByte) (u8 v :: acc) end.
Definition encodeUint64BigEndian (v : Z) : list Z := encodeLoop merkleVersionBytes v [].

(** [equalBytes]: the lengths, then byte by byte. *)
Fixpoint equalFrom (a b : list Z) : bool :=
  match a, b with
  | x :: a, y :: b => if (x =? y)%Z then equalFrom a b else false
  | _, _ => true
  end.
Definition equalBytes (a b : list Z) : bool :=
  if decide (length a = length b) then equalFrom a b else false.

(** The loop over the leaves, from index [i]. *)
Fixpoint diffLoop (i : nat) (a b : list (list Z)) : list nat :=
  match a, b with
  | x :: a, y :: b => if equalBytes x y then diffLoop (S i) a b else i :: diffLoop (S i) a b
  | _, _ => []
  end.

(** [None] is a nil tree. *)
Definition DiffLeafRanges (mt other : option MerkleTree) : list nat :=
  match mt, other with
  | Some mt, Some other =>
      if decide (length (LeafHashes mt) = length (LeafHashes other))
      then diffLoop 0 (LeafHashes mt) (LeafHashes other)
      else seq 0 (length (LeafHashes mt))
  | _, _ => []
  end.

Section Merkle.
Context (sum64 : string → Z) (sum256 : list Z → list Z).
Context (SortFunc : (merkleKV → merkleKV → Z) → list merkleKV → list merkleKV).
Context (enumI : gmap string Item → list (string * Item)).
Context (enumT : gmap string tombstone → list (string * tombstone)).
Context (enumK : gset string → list string).

(** [strings.Compare] on the keys. *)
Definition compareKV (a b : merkleKV) : Z :=
  match String.compare (kv_k a) (kv_k b) with Lt => -1 | Eq => 0 | Gt => 1 end.

Definition shardEntries (sh : distShard) : list merkleKV :=
  ((λ '(k, it), MkKV k (Version it)) <$> enumI (d_items sh)) ++
  ((λ '(k, ts), MkKV k (t_version ts)) <$> enumT (tombs sh)).

Definition merkleEntries (dm : DistMemory) : list merkleKV := shards dm ≫= shardEntries.

Definition sortedMerkleEntries (dm : DistMemory) : list merkleKV := SortFunc compareKV (merkleEntries dm).

(** What is written to the hasher for one chunk. *)
Definition encodeEntry (e : merkleKV) : list Z :=
  (Z.of_nat <$> bytes_of (kv_k e)) ++ encodeUint64BigEndian (kv_v e).
Definition encodeChunk (es : list merkleKV) : list Z := es ≫= encodeEntry.

(** The loop over the chunks, [i] is its index; one round per entry is enough. *)
Fixpoint leafLoop (fuel i chunkSize : nat) (entries : list merkleKV) : list (list Z) :=
  match fuel with
  | 0 => []
  | S fuel =>
      if i <? length entries then
        let end_ := (i + chunkSize) `min` length entries in
        sum256 (encodeChunk (take (end_ - i) (drop i entries))) ::
        leafLoop fuel (i + chunkSize) chunkSize entries
      else []
  end.

(** One level of the tree: pairs are hashed together, an odd node is promoted. *)
Fixpoint foldLevel (level : list (list Z)) : list (list Z) :=
  match level with
  | x :: y :: r => sum256 (x ++ y) :: foldLevel r
  | _ => level
  end.

(** Every level is shorter, so as many rounds as there are leaves are enough. *)
Fixpoint foldLoop (fuel : nat) (level : list (list Z)) : list (list Z) :=
  match fuel with
  | 0 => level
  | S fuel => if 1 <? length level then foldLoop fuel (foldLevel level) else level
  end.

Definition foldMerkle (leaves : list (list Z)) : list Z :=
  match foldLoop (length leaves) leaves with [] => [] | x :: _ => x end.

Definition chunkSizeOf (dm : DistMemory) : Z :=
  if (merkleChunkSize dm <=? 0)%Z then defaultMerkleChunkSize else merkleChunkSize dm.

Definition BuildMerkleTree (dm : DistMemory) : MerkleTree :=
  let chunkSize := chunkSizeOf dm in
  let entries := merkleEntries dm in
  if decide (length entries = 0) then MkTree [] [] chunkSize
  else
    let entries := SortFunc compareKV entries in
    let leaves := leafLoop (length entries) 0 (Z.to_nat chunkSize) entries in
    MkTree leaves (foldMerkle leaves) chunkSize.

(** The in-process transport: [None] is a node that is not registered. *)
Definition FetchMerkle (peer : option DistMemory) : result MerkleTree :=
  match peer with None => Err ErrBackendNotFound | Some b => Ok (BuildMerkleTree b) end.

Definition ForwardGet (peer : option DistMemory) (key : string) : option (result (option Item)) :=
  match peer with
  | None => Some (Err ErrBackendNotFound)
  | Some b => r ← getItem key b; Some (Ok r)
  end.

Definition enumerateRemoteOnlyKeys (peer : option DistMemory) (local : list merkleKV) : gset string :=
  match peer with
  | None => ∅
  | Some remote =>
      let missing := ⋃ ((λ sh, dom (d_items sh)) <$> shards remote) : gset string in
      foldl (λ missing e, missing ∖ {[kv_k e]}) missing local
  end.

(** [fetchAndAdopt] for each key in turn. *)
Fixpoint adoptKeys (now : Z) (peer : option DistMemory) (keys : list string) (dm : DistMemory)
    : option DistMemory :=
  match keys with
  | [] => Some dm
  | k :: keys =>
      answer ← ForwardGet peer k;
      dm ← fetchAndAdopt sum64 now k answer dm;
      adoptKeys now peer keys dm
  end.

Fixpoint applyMerkleDiffs (now : Z) (peer : option DistMemory) (entries : list merkleKV) (diffs : list nat)
    (chunkSize : nat) (dm : DistMemory) : option DistMemory :=
  match diffs with
  | [] => Some dm
  | ci :: diffs =>
      let start := ci * chunkSize in
      if length entries <=? start then applyMerkleDiffs now peer entries diffs chunkSize dm
      else
        let end_ := (start + chunkSize) `min` length entries in
        dm ← adoptKeys now peer (kv_k <$> take (end_ - start) (drop start entries)) dm;
        applyMerkleDiffs now peer entries diffs chunkSize dm
  end.

(** The result says whether the two trees agreed and nothing was missing. *)
Definition syncWithStatus (now : Z) (peer : option DistMemory) (dm : DistMemory)
    : option (DistMemory * result bool) :=
  match FetchMerkle peer with
  | Err e => Some (dm, Err e)
  | Ok remoteTree =>
      let localTree := BuildMerkleTree dm in
      let entries := sortedMerkleEntries dm in
      let diffs := DiffLeafRanges (Some localTree) (Some remoteTree) in
      let missing := enumerateRemoteOnlyKeys peer entries in
      dm ← applyMerkleDiffs now peer entries diffs (Z.to_nat (ChunkSize localTree)) dm;
      dm ← adoptKeys now peer (enumK missing) dm;
      Some (dm, Ok (bool_decide (length diffs = 0 ∧ size missing = 0)))
  end.

End Merkle.

(** ** The tree *)

Lemma equalBytes_spec a b : equalBytes a b = true ↔ a = b.
Proof.
  unfold equalBytes. case_decide as Hl; [|split; [done|by intros ->]].
  revert b Hl. induction a as [|x a IH]; intros [|y b] Hl; try done; simpl in *.
  destruct (Z.eqb_spec x y) as [->|Hne].
  - rewrite IH by lia. split; [by intros ->|by intros [=]].
  - split; [done|congruence].
Qed.

Lemma elem_of_diffLoop i a b j :
  length a = length b → j ∈ diffLoop i a b ↔ i ≤ j ∧ j - i < length a ∧ a !! (j - i) ≠ b !! (j - i).
Proof.
  revert i b. induction a as [|x a IH]; intros i [|y b] Hl; simpl in Hl; try done.
  { split; [by intros ?%elem_of_nil|simpl; lia]. }
  cbn [diffLoop]. assert (j ∈ (if equalBytes x y then diffLoop (S i) a b else i :: diffLoop (S i) a b) ↔
    (j = i ∧ x ≠ y) ∨ j ∈ diffLoop (S i) a b) as ->.
  { pose proof (equalBytes_spec x y) as E. destruct (equalBytes x y).
    - destruct E as [E _]. specialize (E eq_refl). tauto.
    - rewrite elem_of_cons. destruct (decide (x = y)) as [->|]; [|tauto]. destruct E as [_ E].
      by discriminate (E eq_refl). }
  rewrite IH by lia. destruct (decide (j = i)) as [->|Hji].
  - rewrite Nat.sub_diag. simpl. split; [intros [[_ Hne]|[? _]]; [|lia]|intros (_ & _ & Hne)].
    + split_and!; [lia|lia|congruence].
    + left. split; [done|congruence].
  - split.
    + intros [[? _]|(? & ? & Hne)]; [done|]. replace (j - i) with (S (j - S i)) by lia. simpl. split_and!; auto; lia.
    + intros (? & Hlt & Hne). right. replace (j - i) with (S (j - S i)) in Hlt, Hne by lia. simpl in Hlt, Hne.
      split_and!; auto; lia.
Qed.

Lemma take_min_drop {A} i n (l : list A) :
  take ((i + n) `min` length l - i) (drop i l) = take n (drop i l).
Proof.
  destruct (decide (i + n ≤ length l)).
  - f_equal. lia.
  - rewrite !take_ge; [done|rewrite length_drop; lia..].
Qed.

Lemma leafLoop_lookup sum256 fuel i cs es j :
  0 < cs → length es ≤ i + fuel →
  leafLoop sum256 fuel i cs es !! j =
    if decide (i + j * cs < length es) then Some (sum256 (encodeChunk (take cs (drop (i + j * cs) es))))
    else None.
Proof.
  intros Hcs. revert i j. induction fuel as [|fuel IH]; intros i j Hl; cbn [leafLoop].
  { rewrite decide_False by lia. done. }
  destruct (Nat.ltb_spec i (length es)) as [Hlt|Hge]; [|by rewrite decide_False by lia].
  destruct j as [|j]; cbn [lookup list_lookup].
  - rewrite Nat.mul_0_l, Nat.add_0_r, decide_True, take_min_drop by done. done.
  - change (leafLoop sum256 fuel (i + cs) cs es !! j = if decide (i + (S j) * cs < length es)
      then Some (sum256 (encodeChunk (take cs (drop (i + S j * cs) es)))) else None).
    rewrite IH by lia. by replace (i + cs + j * cs) with (i + S j * cs) by lia.
Qed.

(** ** Adopting a list of keys *)

(** The effect of [adopt] on one key, given what the peer stores under it. *)
Definition adopt1 (now : Z) (id : string) (remote mi : option Item) (ti : option tombstone)
    : option Item * option tombstone :=
  match remote with
  | None =>
      match ti, mi with
      | None, Some cur => (None, Some (MkTomb (u64 (Version cur + 1)) id now))
      | _, _ => (mi, ti)
      end
  | Some it =>
      if covers (t_version <$> ti) (Version it) then (mi, ti)
      else (if covers (Version <$> mi) (Version it) then mi else Some it, None)
  end.

Lemma adopt_at now id k r m t :
  ((adopt now id k (Ok r) m t).1 !! k, (adopt now id k (Ok r) m t).2 !! k) = adopt1 now id r (m !! k) (t !! k).
Proof.
  unfold adopt, adopt1. destruct r as [it|].
  - destruct (covers (t_version <$> t !! k) _); [done|]. cbn. rewrite lookup_delete_eq.
    by destruct (covers (Version <$> m !! k) _); rewrite ?lookup_insert_eq.
  - destruct (t !! k) eqn:Et, (m !! k) eqn:Em; cbn; rewrite ?Et, ?Em; try done.
    by rewrite lookup_delete_eq, lookup_insert_eq.
Qed.

Lemma adopt1_idem now id r mi ti :
  adopt1 now id r (adopt1 now id r mi ti).1 (adopt1 now id r mi ti).2 = adopt1 now id r mi ti.
Proof.
  destruct r as [it|]; cbn.
  - destruct (covers (t_version <$> ti) (Version it)) eqn:Ec; cbn; [by rewrite Ec|].
    destruct (covers (Version <$> mi) (Version it)) eqn:Em; cbn; [by rewrite Em|].
    by rewrite Z.leb_refl.
  - by destruct ti as [ti|], mi as [mi|].
Qed.

Section SyncFacts.
Context (sum64 : string → Z) (sum256 : list Z → list Z).
Context (SortFunc : (merkleKV → merkleKV → Z) → list merkleKV → list merkleKV).
Context (enumI : gmap string Item → list (string * Item)).
Context (enumT : gmap string tombstone → list (string * tombstone)).
Context (enumK : gset string → list string).

Definition key_le (a b : merkleKV) : Prop := str_ltb (kv_k b) (kv_k a) = false.

(** What Go documents of sorting and of ranging over a map. *)
Record env_ok : Prop := {
  env_perm : ∀ l, SortFunc compareKV l ≡ₚ l;
  env_sorted : ∀ l, StronglySorted key_le (SortFunc compareKV l);
  env_items : ∀ m, enumI m ≡ₚ map_to_list m;
  env_tombs : ∀ m, enumT m ≡ₚ map_to_list m;
  env_keys : ∀ ks, enumK ks ≡ₚ elements ks }.

Lemma ForwardGet_ok k b : node_wf b → ForwardGet (Some b) k = Some (Ok (items_of b !! k)).
Proof.
  intros Hb. cbn. unfold getItem. destruct (shardFor_ok k b Hb) as (i & sh & -> & _ & _ & E & _).
  cbn. by rewrite E.
Qed.

Lemma adoptKeys_app now peer ks ks' dm :
  adoptKeys sum64 now peer (ks ++ ks') dm =
  adoptKeys sum64 now peer ks dm ≫= adoptKeys sum64 now peer ks'.
Proof.
  revert dm. induction ks as [|k ks IH]; intros dm; [done|]. cbn.
  destruct (ForwardGet peer k) as [answer|]; [|done]. cbn.
  destruct (fetchAndAdopt sum64 now k answer dm); [|done]. cbn. apply IH.
Qed.

Lemma adoptKeys_ok now b ks : ∀ dm,
  node_wf b → keys_ok (items_of b) → node_wf dm →
  ∃ dm', adoptKeys sum64 now (Some b) ks dm = Some dm' ∧ node_wf dm' ∧ same_node dm dm' ∧
    ∀ k, (items_of dm' !! k, tombs_of dm' !! k) =
      if decide (k ∈ ks) then adopt1 now (localID dm) (items_of b !! k) (items_of dm !! k) (tombs_of dm !! k)
      else (items_of dm !! k, tombs_of dm !! k).
Proof.
  induction ks as [|k ks IH]; intros dm Hb Hk Hwf.
  { exists dm. split; [done|]. split; [done|]. split; [done|]. intros k. by rewrite decide_False by inversion 1. }
  cbn [adoptKeys]. rewrite ForwardGet_ok by done. cbn [mbind option_bind].
  destruct (fetchAndAdopt_ok sum64 now k (Ok (items_of b !! k)) dm Hwf) as (dm1 & -> & Hwf1 & Hs1 & E1).
  { cbn. destruct (items_of b !! k) eqn:E; [by apply Hk|done]. }
  cbn [mbind option_bind]. destruct (IH dm1 Hb Hk Hwf1) as (dm' & -> & Hwf' & Hs' & E').
  exists dm'. split_and!; [done|done|by etrans|]. intros k'. rewrite E'.
  assert (localID dm1 = localID dm) as Eid by apply Hs1. rewrite Eid.
  apply pair_proj in E1 as [-> ->].
  destruct (decide (k' = k)) as [->|Hne].
  - rewrite (decide_True (P := k ∈ k :: ks)) by (by left).
    pose proof (adopt_at now (localID dm) k (items_of b !! k) (items_of dm) (tombs_of dm)) as Ea.
    apply pair_proj in Ea as [-> ->]. case_decide; [apply adopt1_idem|by destruct (adopt1 _ _ _ _ _)].
  - destruct (adopt_other now (localID dm) k k' (Ok (items_of b !! k)) (items_of dm) (tombs_of dm) Hne)
      as [-> ->]. destruct (decide (k' ∈ ks)).
    + by rewrite decide_True by (by right).
    + rewrite decide_False; [done|]. by intros [?|?]%elem_of_cons.
Qed.

(** The keys of the chunk [ci]. *)
Definition chunk (cs : nat) (es : list merkleKV) (ci : nat) : list merkleKV := take cs (drop (ci * cs) es).

Lemma applyMerkleDiffs_keys now peer es diffs cs : ∀ dm,
  applyMerkleDiffs sum64 now peer es diffs cs dm =
  adoptKeys sum64 now peer (diffs ≫= λ ci, kv_k <$> chunk cs es ci) dm.
Proof.
  induction diffs as [|ci diffs IH]; intros dm; [done|]. cbn [applyMerkleDiffs mbind list_bind].
  rewrite adoptKeys_app. destruct (Nat.leb_spec (length es) (ci * cs)) as [Hle|Hlt].
  - assert (chunk cs es ci = []) as -> by (unfold chunk; rewrite drop_ge by done; apply take_nil). apply IH.
  - rewrite take_min_drop. fold (chunk cs es ci).
    destruct (adoptKeys sum64 now peer (kv_k <$> chunk cs es ci) dm); [apply IH|done].
Qed.

(** ** Which keys a sync visits *)

Abbreviation sorted_of := (sortedMerkleEntries SortFunc enumI enumT).
Abbreviation tree_of := (BuildMerkleTree sum256 SortFunc enumI enumT).

Definition diffs_of (a b : DistMemory) : list nat := DiffLeafRanges (Some (tree_of a)) (Some (tree_of b)).

Definition visits (a b : DistMemory) : list string :=
  (diffs_of a b ≫= λ ci, kv_k <$> chunk (Z.to_nat (chunkSizeOf a)) (sorted_of a) ci) ++
  enumK (enumerateRemoteOnlyKeys (Some b) (sorted_of a)).

Lemma ChunkSize_tree a : ChunkSize (tree_of a) = chunkSizeOf a.
Proof. unfold BuildMerkleTree. by case_decide. Qed.

Lemma sync_ok now a b :
  node_wf a → node_wf b → keys_ok (items_of b) →
  ∃ a' clean, syncWithStatus sum64 sum256 SortFunc enumI enumT enumK now (Some b) a = Some (a', Ok clean) ∧
    node_wf a' ∧ same_node a a' ∧
    (clean = true ↔ diffs_of a b = [] ∧ enumerateRemoteOnlyKeys (Some b) (sorted_of a) = ∅) ∧
    ∀ k, (items_of a' !! k, tombs_of a' !! k) =
      if decide (k ∈ visits a b) then adopt1 now (localID a) (items_of b !! k) (items_of a !! k) (tombs_of a !! k)
      else (items_of a !! k, tombs_of a !! k).
Proof.
  intros Ha Hb Hk. unfold syncWithStatus. cbn [FetchMerkle]. rewrite applyMerkleDiffs_keys, ChunkSize_tree.
  fold (diffs_of a b).
  destruct (adoptKeys_ok now b (visits a b) a Hb Hk Ha) as (a' & E & Hwf & Hs & Hv).
  unfold visits in E. rewrite adoptKeys_app in E. apply bind_Some in E as (a1 & E1 & E2).
  rewrite E1. cbn [mbind option_bind]. rewrite E2. cbn [mbind option_bind].
  eexists _, _. split; [done|]. split; [done|]. split; [done|]. split; [|done].
  rewrite bool_decide_eq_true. rewrite length_zero_iff_nil, size_empty_iff. by rewrite leibniz_equiv_iff.
Qed.

(** ** Entries and chunks *)

(** The versions a node has recorded for a key. *)
Definition knows (dm : DistMemory) (k : string) (v : Z) : Prop :=
  (∃ it, items_of dm !! k = Some it ∧ Version it = v) ∨
  (∃ t, tombs_of dm !! k = Some t ∧ t_version t = v).

Context (Henv : env_ok).

Lemma elem_of_shardEntries sh e :
  e ∈ shardEntries enumI enumT sh ↔
  (∃ it, d_items sh !! kv_k e = Some it ∧ Version it = kv_v e) ∨
  (∃ t, tombs sh !! kv_k e = Some t ∧ t_version t = kv_v e).
Proof.
  unfold shardEntries. rewrite elem_of_app, !list_elem_of_fmap. f_equiv; split.
  - intros ([k it] & -> & Hin). rewrite (env_items Henv), elem_of_map_to_list in Hin. by exists it.
  - intros (it & Hit & E). exists (kv_k e, it). rewrite (env_items Henv), elem_of_map_to_list, E.
    by destruct e.
  - intros ([k t] & -> & Hin). rewrite (env_tombs Henv), elem_of_map_to_list in Hin. by exists t.
  - intros (t & Ht & E). exists (kv_k e, t). rewrite (env_tombs Henv), elem_of_map_to_list, E.
    by destruct e.
Qed.

Lemma elem_of_sorted dm e : node_wf dm → e ∈ sorted_of dm ↔ knows dm (kv_k e) (kv_v e).
Proof.
  intros Hwf. unfold sortedMerkleEntries, merkleEntries. rewrite (env_perm Henv), list_elem_of_bind. split.
  - intros (sh & He & (i & Hi)%list_elem_of_lookup). destruct Hwf as [_ _ Hpi Hpt].
    apply elem_of_shardEntries in He as [(it & Hit & E)|(t & Ht & E)].
    + left. exists it. split; [|done]. rewrite <- Hit. unfold items_of.
      assert ((d_items <$> shards dm) !! i = Some (d_items sh)) as Hl by (by rewrite list_lookup_fmap, Hi).
      eapply partitioned_lookup; [done| |exact Hl]. by apply (Hpi i (d_items sh)).
    + right. exists t. split; [|done]. rewrite <- Ht. unfold tombs_of.
      assert ((tombs <$> shards dm) !! i = Some (tombs sh)) as Hl by (by rewrite list_lookup_fmap, Hi).
      eapply partitioned_lookup; [done| |exact Hl]. by apply (Hpt i (tombs sh)).
  - intros H. destruct (shardFor_ok (kv_k e) dm Hwf) as (i & sh & _ & _ & Hsh & Ei & Et).
    exists sh. rewrite elem_of_shardEntries, Ei, Et. split; [done|]. by eapply list_elem_of_lookup_2.
Qed.

Definition csize (dm : DistMemory) : nat := Z.to_nat (chunkSizeOf dm).

Lemma csize_pos dm : 0 < csize dm.
Proof.
  unfold csize, chunkSizeOf, defaultMerkleChunkSize. destruct (Z.leb_spec (merkleChunkSize dm) 0); lia.
Qed.

Lemma leaf_lookup dm i :
  LeafHashes (tree_of dm) !! i =
    if decide (i * csize dm < length (sorted_of dm))
    then Some (sum256 (encodeChunk (chunk (csize dm) (sorted_of dm) i))) else None.
Proof.
  unfold BuildMerkleTree, sortedMerkleEntries. case_decide as E0.
  - apply length_zero_iff_nil in E0. rewrite E0.
    assert (SortFunc compareKV [] = []) as -> by apply Permutation_nil_r, (env_perm Henv). by rewrite decide_False by (simpl; lia).
  - cbn [LeafHashes]. rewrite leafLoop_lookup by (try apply csize_pos; lia). done.
Qed.

Lemma leaf_chunk_of dm i e :
  sorted_of dm !! i = Some e →
  e ∈ chunk (csize dm) (sorted_of dm) (i / csize dm) ∧ i / csize dm < length (LeafHashes (tree_of dm)).
Proof.
  intros Hi. pose proof (csize_pos dm) as Hc. apply lookup_lt_Some in Hi as Hlt.
  pose proof (Nat.div_mod_eq i (csize dm)) as E. pose proof (Nat.mod_upper_bound i (csize dm)) as Hm.
  set (q := i / csize dm) in *. split.
  - unfold chunk. apply elem_of_take. exists (i mod csize dm). split; [|lia].
    rewrite lookup_drop. rewrite <- Hi. f_equal. lia.
  - apply lookup_lt_is_Some. rewrite leaf_lookup, decide_True by lia. by eexists.
Qed.

Lemma elem_of_chunk_sorted dm i e : e ∈ chunk (csize dm) (sorted_of dm) i → e ∈ sorted_of dm.
Proof.
  unfold chunk. intros (j & Hj & _)%elem_of_take. rewrite lookup_drop in Hj. by eapply list_elem_of_lookup_2.
Qed.

Definition encoded_of (dm : DistMemory) (i : nat) : list Z := encodeChunk (chunk (csize dm) (sorted_of dm) i).

(** SHA-256 does not collide on the encoded chunks of the two stores. *)
Definition no_collision (a b : DistMemory) : Prop :=
  ∀ i, sum256 (encoded_of a i) = sum256 (encoded_of b i) → encoded_of a i = encoded_of b i.

(** Different chunks of the two stores are encoded differently.  The code does not
    ensure it: an entry is its key and its version without a length
    ([merkle_tree_ambiguous] below). *)
Definition unambiguous (a b : DistMemory) : Prop :=
  ∀ i, encoded_of a i = encoded_of b i → chunk (csize a) (sorted_of a) i = chunk (csize b) (sorted_of b) i.

(** A chunk that is not reported as different is the same on both sides. *)
Lemma no_diff_chunk a b i :
  no_collision a b → unambiguous a b → i < length (LeafHashes (tree_of a)) → i ∉ diffs_of a b →
  chunk (csize a) (sorted_of a) i = chunk (csize b) (sorted_of b) i.
Proof.
  intros Hnc Hna Hi Hd. unfold diffs_of, DiffLeafRanges in Hd. case_decide as El.
  - rewrite elem_of_diffLoop, Nat.sub_0_r in Hd by done. apply Hna, Hnc. unfold encoded_of.
    assert (LeafHashes (tree_of a) !! i = LeafHashes (tree_of b) !! i) as E.
    { destruct (decide (LeafHashes (tree_of a) !! i = LeafHashes (tree_of b) !! i)) as [?|Hne]; [done|].
      destruct Hd. split_and!; [lia|done|done]. }
    destruct (lookup_lt_is_Some_2 _ _ Hi) as [ha Ha]. assert (i < length (LeafHashes (tree_of b))) as Hib by lia.
    destruct (lookup_lt_is_Some_2 _ _ Hib) as [hb Hb].
    rewrite !leaf_lookup in E. rewrite leaf_lookup in Ha, Hb. repeat case_decide; congruence.
  - destruct Hd. apply elem_of_seq. lia.
Qed.

Lemma elem_of_remoteOnly a b k :
  k ∈ enumerateRemoteOnlyKeys (Some b) (sorted_of a) ↔
  is_Some (items_of b !! k) ∧ k ∉ kv_k <$> sorted_of a.
Proof.
  cbn. assert (∀ l (X : gset string),
    k ∈ foldl (λ missing e, missing ∖ {[kv_k e]}) X l ↔ k ∈ X ∧ k ∉ kv_k <$> l) as ->.
  { induction l as [|e l IH]; intros X; cbn [foldl].
    - split; [intros H; split; [done|inversion 1]|tauto].
    - rewrite IH, fmap_cons, not_elem_of_cons. set_solver. }
  f_equiv. unfold items_of. generalize (shards b). intros ss. induction ss as [|sh ss IH].
  - split; [intros H; cbn in H; set_solver|]. intros [? H]. discriminate.
  - cbn. rewrite elem_of_union, elem_of_dom. rewrite IH. rewrite lookup_union_is_Some. done.
Qed.

(** No key is both stored and deleted. *)
Definition separate (dm : DistMemory) : Prop :=
  ∀ k, items_of dm !! k = None ∨ tombs_of dm !! k = None.

(** A key of the peer that is not visited is known in the peer's version. *)
Lemma not_visited a b k it :
  node_wf a → node_wf b → separate b → no_collision a b → unambiguous a b →
  items_of b !! k = Some it → k ∉ visits a b → knows a k (Version it).
Proof.
  intros Ha Hb Hsep Hnc Hna Hit [Hd Hm]%not_elem_of_app.
  rewrite (env_keys Henv), elem_of_elements, elem_of_remoteOnly in Hm.
  destruct (decide (k ∈ kv_k <$> sorted_of a)) as [Hk|Hk]; [|destruct Hm; split; [by eexists|done]].
  apply list_elem_of_fmap in Hk as (e & -> & (i & Hi)%list_elem_of_lookup).
  destruct (leaf_chunk_of a i e Hi) as [Hch Hlt].
  assert (i / csize a ∉ diffs_of a b) as Hnd.
  { intros Hin. destruct Hd. apply list_elem_of_bind. exists (i / csize a). split; [|done].
    by apply list_elem_of_fmap_2. }
  rewrite (no_diff_chunk a b _ Hnc Hna Hlt Hnd) in Hch.
  apply elem_of_chunk_sorted, (elem_of_sorted b) in Hch; [|done].
  assert (knows a (kv_k e) (kv_v e)) as Hka.
  { apply elem_of_sorted; [done|]. by eapply list_elem_of_lookup_2. }
  destruct Hch as [(it' & Hit' & E)|(t & Ht & _)].
  - assert (it' = it) as -> by congruence. by rewrite E.
  - destruct (Hsep (kv_k e)); congruence.
Qed.

(** C18: after a successful sync with a peer, the node has recorded, as an item or as
    a tombstone, at least the peer's version of every item the peer stores; where
    it had no tombstone of at least that version, it stores such an item.
    Assumptions: SHA-256 does not collide on the encoded chunks of the two stores, no
    two different chunks of them have one encoding (the code does not rule that out,
    see [merkle_tree_ambiguous]), and the peer stores no key that it has a tombstone
    for.  The peer is asked through the in-process transport. *)
Theorem merkle_sync_catches_up now a b :
  node_wf a → node_wf b → keys_ok (items_of b) → separate b → no_collision a b → unambiguous a b →
  ∃ a' clean, syncWithStatus sum64 sum256 SortFunc enumI enumT enumK now (Some b) a = Some (a', Ok clean) ∧
    node_wf a' ∧
    ∀ k it, items_of b !! k = Some it →
      (covers (t_version <$> tombs_of a' !! k) (Version it) = true ∨
       covers (Version <$> items_of a' !! k) (Version it) = true) ∧
      (separate a → covers (t_version <$> tombs_of a !! k) (Version it) = false →
       covers (Version <$> items_of a' !! k) (Version it) = true).
Proof.
  intros Ha Hb Hkb Hsep Hnc Hna. destruct (sync_ok now a b Ha Hb Hkb) as (a' & clean & E & Hwf & _ & _ & Hv).
  exists a', clean. split; [exact E|]. split; [exact Hwf|]. intros k it Hit. specialize (Hv k).
  destruct (decide (k ∈ visits a b)) as [Hin|Hout].
  - apply pair_proj in Hv as [-> ->]. rewrite Hit. unfold adopt1.
    destruct (covers (t_version <$> tombs_of a !! k) (Version it)) eqn:Ec; [cbn; rewrite Ec; by split; [left|]|].
    cbn. destruct (covers (Version <$> items_of a !! k) (Version it)) eqn:Em; [rewrite Em; by auto|].
    cbn. rewrite Z.leb_refl. by auto.
  - apply pair_proj in Hv as [-> ->]. cbn.
    destruct (not_visited a b k it Ha Hb Hsep Hnc Hna Hit Hout) as [(i & -> & Ev)|(t & -> & Ev)]; cbn;
      rewrite Ev, Z.leb_refl; [by auto|]. split; [by auto|done].
Qed.

(** A sync deletes what the peer lacks: with a peer that has neither items nor
    tombstones (a node that just joined or restarted), every item of the node is
    replaced by a tombstone. *)
Theorem merkle_sync_empty_peer_erases now a b :
  node_wf a → node_wf b → items_of b = ∅ → tombs_of b = ∅ → separate a →
  ∃ a' clean, syncWithStatus sum64 sum256 SortFunc enumI enumT enumK now (Some b) a = Some (a', Ok clean) ∧
    items_of a' = ∅ ∧
    ∀ k it, items_of a !! k = Some it →
      tombs_of a' !! k = Some (MkTomb (u64 (Version it + 1)) (localID a) now).
Proof.
  intros Ha Hb Ei Et Hsep. destruct (sync_ok now a b Ha Hb) as (a' & clean & E & Hwf & _ & _ & Hv).
  { intros k it. by rewrite Ei, lookup_empty. }
  assert (∀ k it, items_of a !! k = Some it → k ∈ visits a b) as Hvis.
  { intros k it Hk. assert (MkKV k (Version it) ∈ sorted_of a) as (i & Hi)%list_elem_of_lookup.
    { apply elem_of_sorted; [done|]. left. by exists it. }
    destruct (leaf_chunk_of a i _ Hi) as [Hch Hlt]. unfold visits. apply elem_of_app. left.
    apply list_elem_of_bind. exists (i / csize a). split.
    - by apply (list_elem_of_fmap_2 kv_k) in Hch.
    - assert (LeafHashes (tree_of b) = []) as Eb.
      { destruct (LeafHashes (tree_of b)) as [|h l] eqn:El; [done|].
        pose proof (leaf_lookup b 0) as H0. rewrite El in H0. case_decide as Hlen; [|done].
        destruct (sorted_of b) as [|e es] eqn:Es; [simpl in Hlen; lia|].
        assert (knows b (kv_k e) (kv_v e)) as [(x & Hx & _)|(x & Hx & _)].
        { apply elem_of_sorted; [done|]. rewrite Es. by left. }
        - by rewrite Ei, lookup_empty in Hx.
        - by rewrite Et, lookup_empty in Hx. }
      unfold diffs_of, DiffLeafRanges. rewrite Eb. rewrite decide_False by (simpl; lia).
      apply elem_of_seq. lia. }
  assert (∀ k it, items_of a !! k = Some it →
    items_of a' !! k = None ∧ tombs_of a' !! k = Some (MkTomb (u64 (Version it + 1)) (localID a) now)) as Hdel.
  { intros k it Hk. specialize (Hv k). rewrite decide_True in Hv by (by eapply Hvis).
    rewrite Ei, lookup_empty, Hk in Hv. destruct (Hsep k) as [?|Hn]; [congruence|]. rewrite Hn in Hv.
    by apply pair_proj in Hv. }
  exists a', clean. split; [exact E|]. split; [|intros k it Hk; by apply Hdel].
  apply map_eq. intros k. rewrite lookup_empty. destruct (items_of a !! k) as [it|] eqn:Hk.
  - by apply (Hdel k it).
  - specialize (Hv k). rewrite Ei, Hk, lookup_empty in Hv. case_decide; [|by apply pair_proj in Hv as [-> _]].
    apply pair_proj in Hv as [-> _]. cbn. by destruct (tombs_of a !! k).
Qed.

End SyncFacts.

(** ** The encoding of a chunk is ambiguous *)

Lemma encodeLoop_app n v acc : encodeLoop n v acc = encodeLoop n v [] ++ acc.
Proof.
  revert v acc. induction n as [|n IH]; intros v acc; [done|]. cbn [encodeLoop].
  rewrite (IH _ (_ :: acc)), (IH _ [_]), <- app_assoc. done.
Qed.

Lemma encodeLoop_bytes n v : Forall (λ b, 0 ≤ b < 256)%Z (encodeLoop n v []).
Proof.
  revert v. induction n as [|n IH]; intros v; [constructor|]. cbn [encodeLoop].
  rewrite encodeLoop_app. apply Forall_app. split; [apply IH|]. constructor; [apply u8_bound|constructor].
Qed.

(** One key that spells two entries. *)
Definition merged_key (k1 : string) (v1 : Z) (k2 : string) : string :=
  String.append k1 (String.append (string_of_bytes (encodeUint64BigEndian v1)) k2).

Lemma encodeChunk_merged k1 v1 k2 v2 :
  encodeChunk [MkKV k1 v1; MkKV k2 v2] = encodeChunk [MkKV (merged_key k1 v1 k2) v2].
Proof.
  unfold encodeChunk, encodeEntry, merged_key. cbn [mbind list_bind kv_k kv_v].
  rewrite !bytes_of_append, !fmap_app, bytes_of_string_of_bytes by apply encodeLoop_bytes.
  by rewrite !app_nil_r, <- !app_assoc.
Qed.

(** A version can be read back from its eight bytes. *)
Definition decodeBE (bs : list Z) : Z := foldl (λ n b, n * 256 + b)%Z 0%Z bs.

Lemma decodeBE_encodeLoop n v :
  (0 ≤ v)%Z → decodeBE (encodeLoop n v []) = (v mod 2 ^ (8 * Z.of_nat n))%Z.
Proof.
  revert v. induction n as [|n IH]; intros v Hv; [by rewrite Z.mod_1_r|].
  cbn [encodeLoop]. rewrite encodeLoop_app. unfold decodeBE. rewrite foldl_app. cbn [foldl].
  fold (decodeBE (encodeLoop n (Z.shiftr v shiftPerByte) [])).
  rewrite IH by (by apply Z.shiftr_nonneg). unfold u8, shiftPerByte. rewrite Z.shiftr_div_pow2 by lia.
  rewrite Nat2Z.inj_succ, Z.mul_succ_r, Z.pow_add_r by lia.
  rewrite (Z.mul_comm (2 ^ (8 * Z.of_nat n))), Z.rem_mul_r by lia. lia.
Qed.

(** The eight bytes written for a version determine it: reading them as a
    big-endian number gives the uint64 back. *)
Theorem version_encoding_roundtrip v :
  (0 ≤ v < 2 ^ 64)%Z →
  length (encodeUint64BigEndian v) = 8 ∧ decodeBE (encodeUint64BigEndian v) = v.
Proof.
  intros Hv. split.
  - unfold encodeUint64BigEndian, merkleVersionBytes. cbn. done.
  - unfold encodeUint64BigEndian, merkleVersionBytes. rewrite decodeBE_encodeLoop by lia.
    apply Z.mod_small. lia.
Qed.

Section Ambiguous.
Context (sum256 : list Z → list Z).
Context (SortFunc : (merkleKV → merkleKV → Z) → list merkleKV → list merkleKV).
Context (enumI : gmap string Item → list (string * Item)).
Context (enumT : gmap string tombstone → list (string * tombstone)).
Context (enumK : gset string → list string).
Context (Henv : env_ok SortFunc enumI enumT enumK).

Lemma sorted_pair l k1 v1 k2 v2 :
  str_ltb k1 k2 = true → l ≡ₚ [MkKV k1 v1; MkKV k2 v2] →
  SortFunc compareKV l = [MkKV k1 v1; MkKV k2 v2].
Proof.
  intros Hlt Hp. pose proof (Permutation_trans (env_perm _ _ _ _ Henv l) Hp) as Hp'.
  pose proof (env_sorted _ _ _ _ Henv l) as Hs. symmetry in Hp'.
  apply Permutation_length_2_inv in Hp' as [E|E]; [done|]. rewrite E in Hs.
  apply StronglySorted_inv in Hs as [_ Hs]. apply Forall_cons in Hs as [Hle _].
  unfold key_le in Hle. cbn in Hle. congruence.
Qed.

(** The tree does not determine the contents, whatever the hash function: the
    key and the version are hashed without their lengths, so a node that holds two
    entries and a node that holds the one entry whose key spells the first entry
    and the second key have the same tree; a sync between them finds no
    difference between the trees although they share no key. *)
Theorem merkle_tree_ambiguous a b k1 v1 k2 v2 :
  str_ltb k1 k2 = true → (1 < chunkSizeOf a)%Z → chunkSizeOf b = chunkSizeOf a →
  merkleEntries enumI enumT a ≡ₚ [MkKV k1 v1; MkKV k2 v2] →
  merkleEntries enumI enumT b ≡ₚ [MkKV (merged_key k1 v1 k2) v2] →
  BuildMerkleTree sum256 SortFunc enumI enumT a = BuildMerkleTree sum256 SortFunc enumI enumT b ∧
  diffs_of sum256 SortFunc enumI enumT a b = [].
Proof.
  intros Hlt Hc Ec Ha Hb.
  assert (BuildMerkleTree sum256 SortFunc enumI enumT a = BuildMerkleTree sum256 SortFunc enumI enumT b) as E.
  { unfold BuildMerkleTree. rewrite (Permutation_length Ha), (Permutation_length Hb). cbn [length].
    rewrite !decide_False by lia.
    rewrite (sorted_pair _ _ _ _ _ Hlt Ha).
    assert (SortFunc compareKV (merkleEntries enumI enumT b) = [MkKV (merged_key k1 v1 k2) v2]) as ->.
    { apply Permutation_singleton_r. by rewrite (env_perm _ _ _ _ Henv). }
    rewrite Ec. set (cs := chunkSizeOf a) in *.
    assert (2 ≤ Z.to_nat cs) as Hcs by lia. destruct (Z.to_nat cs) as [|[|c]]; [lia..|].
    cbn [leafLoop length Nat.ltb Nat.leb]. cbn [Nat.add Nat.min Nat.sub drop take].
    rewrite Nat.min_0_r. by rewrite encodeChunk_merged. }
  split; [exact E|]. unfold diffs_of. rewrite E. unfold DiffLeafRanges. rewrite decide_True by done.
  destruct (diffLoop _ _ _) as [|i l] eqn:El; [done|]. exfalso.
  assert (i ∈ i :: l) as Hi by (by left). rewrite <- El, elem_of_diffLoop in Hi by done. tauto.
Qed.
End Ambiguous.

(** ** Witnesses *)

#[local] Instance cmpKV_dec (cmp : merkleKV → merkleKV → Z) : RelDecision (λ a b, cmp a b ≤ 0)%Z.
Proof. intros a b. apply _. Defined.

Definition sample_sortKV (cmp : merkleKV → merkleKV → Z) : list merkleKV → list merkleKV :=
  merge_sort (λ a b, cmp a b ≤ 0)%Z.

Lemma compareKV_le a b : (compareKV a b ≤ 0)%Z ↔ key_le a b.
Proof.
  unfold compareKV, key_le, str_ltb. rewrite (String.compare_antisym (kv_k b) (kv_k a)).
  destruct (String.compare (kv_k a) (kv_k b)); cbn; split; (done || lia).
Qed.

Lemma sample_env : env_ok sample_sortKV map_to_list map_to_list elements.
Proof.
  split; try done; [intros; apply merge_sort_Permutation|]. intros l.
  assert (StronglySorted (λ a b, compareKV a b ≤ 0)%Z (sample_sortKV compareKV l)) as Hs.
  { apply StronglySorted_merge_sort.
    - intros a b c. rewrite !compareKV_le. unfold key_le. intros. by eapply str_leb_trans.
    - intros a b. rewrite !compareKV_le. unfold key_le. destruct (str_ltb (kv_k b) (kv_k a)) eqn:E; [|auto].
      right. by apply str_ltb_antisym. }
  induction Hs as [|v l' Hl IH Hall]; constructor; [done|].
  eapply Forall_impl; [exact Hall|]. intros w. apply compareKV_le.
Qed.

Definition sample_item (k : string) (v : Z) : Item := MkItem k (AString "v") 0 0 1 0 0 v "n1".

Definition sample_fresh (id : string) : DistMemory := freshNode id 2 2 None.

(** A node with one item. *)
Definition sample_one (id k : string) (v : Z) : DistMemory :=
  default (sample_fresh id) (storeItem sample_sum64 (sample_item k v) (sample_fresh id)).

Lemma sample_one_ok id k v :
  node_wf (sample_one id k v) ∧ items_of (sample_one id k v) = {[k := sample_item k v]} ∧
  tombs_of (sample_one id k v) = ∅.
Proof.
  destruct (freshNode_ok id 2 2 None) as (Hwf & Ei & Et).
  destruct (storeItem_ok sample_sum64 (sample_item k v) _ Hwf) as (dm & E & Hwf' & _ & _ & Ei' & Et').
  assert (sample_one id k v = dm) as -> by (unfold sample_one, sample_fresh; by rewrite E). split; [done|].
  rewrite Ei', Et', Ei, Et. done.
Qed.

Lemma sample_separate id k v : separate (sample_one id k v).
Proof. intros k'. right. destruct (sample_one_ok id k v) as (_ & _ & ->). done. Qed.

Lemma sample_keys id k v : keys_ok (items_of (sample_one id k v)).
Proof.
  destruct (sample_one_ok id k v) as (_ & -> & _). intros k' it.
  rewrite lookup_singleton_Some. by intros [<- <-].
Qed.

(** Two nodes that hold the same key in versions 1 and 2. *)
Lemma merkle_sync_catches_up_witness :
  ∃ a' clean, syncWithStatus sample_sum64 id sample_sortKV map_to_list map_to_list elements 7
      (Some (sample_one "b" "k" 2)) (sample_one "a" "k" 1) = Some (a', Ok clean) ∧
    covers (Version <$> items_of a' !! "k") 2 = true.
Proof.
  destruct (sample_one_ok "a" "k" 1) as (Ha & Eia & Eta). destruct (sample_one_ok "b" "k" 2) as (Hb & Eib & _).
  destruct (merkle_sync_catches_up sample_sum64 id sample_sortKV map_to_list map_to_list elements sample_env 7
    (sample_one "a" "k" 1) (sample_one "b" "k" 2) Ha Hb (sample_keys _ _ _) (sample_separate _ _ _))
    as (a' & clean & E & _ & H).
  - intros i E. exact E.
  - intros [|i]; vm_compute; [|done]. intros [=].
  - exists a', clean. split; [exact E|].
    apply (H "k" (sample_item "k" 2)).
    + rewrite Eib. apply lookup_singleton_eq.
    + apply sample_separate.
    + by rewrite Eta.
Defined.

Lemma merkle_sync_empty_peer_erases_witness :
  ∃ a' clean, syncWithStatus sample_sum64 id sample_sortKV map_to_list map_to_list elements 7
      (Some (sample_fresh "b")) (sample_one "a" "k" 1) = Some (a', Ok clean) ∧ items_of a' = ∅.
Proof.
  destruct (sample_one_ok "a" "k" 1) as (Ha & Eia & Eta). destruct (freshNode_ok "b" 2 2 None) as (Hb & Ei & Et).
  destruct (merkle_sync_empty_peer_erases sample_sum64 id sample_sortKV map_to_list map_to_list elements
    sample_env 7 (sample_one "a" "k" 1) (sample_fresh "b") Ha Hb Ei Et (sample_separate _ _ _))
    as (a' & clean & E & H & _).
  by exists a', clean.
Defined.

Lemma version_encoding_roundtrip_witness :
  length (encodeUint64BigEndian 258) = 8 ∧ decodeBE (encodeUint64BigEndian 258) = 258%Z.
Proof. apply (version_encoding_roundtrip 258). lia. Defined.

(** Three nodes' worth of data in two stores with the same tree. *)
Definition sample_two : DistMemory :=
  default (sample_one "a" "k" 1) (storeItem sample_sum64 (sample_item "l" 3) (sample_one "a" "k" 1)).

Lemma merkle_tree_ambiguous_witness :
  diffs_of id sample_sortKV map_to_list map_to_list sample_two (sample_one "b" (merged_key "k" 1 "l") 3) = [].
Proof.
  apply (merkle_tree_ambiguous id sample_sortKV map_to_list map_to_list elements sample_env sample_two
    (sample_one "b" (merged_key "k" 1 "l") 3) "k" 1 "l" 3).
  - reflexivity.
  - vm_compute. reflexivity.
  - vm_compute. reflexivity.
  - vm_compute. reflexivity.
  - vm_compute. reflexivity.
Defined.
