(* ===== verification/Cluster.v ===== *)
(** * A cluster of distributed backends (pkg/backend/dist_memory.go, pkg/backend/dist_transport.go)

    The nodes of a cluster joined by the in-process transport: writes with
    forwarding, promotion, replication and hints, reads at the three consistency
    levels with read repair, and removals.  A node that is not registered with the
    transport is unreachable for the others but keeps working itself, which is how
    a crash or a partition looks to the cluster.

    Calls run one at a time.  The transport calls back into the receiving node;
    a call with [replicate] set fans out with [replicate] unset, which does not
    fan out again, so the two levels are two definitions.  Tracing, metrics and
    the optional batching of read repairs are left out.

    The theorems: a quorum write that succeeds on its primary path is stored by a
    quorum of owners, a quorum read returns a version at least as new as one that
    a quorum stores, what read repair does to every owner, and executions in which
    an acknowledged write is lost. *)

From stdpp Require Import base gmap strings list fin_maps sets.
From Stdlib Require Import ZArith Lia.
From S2P Require Import Prelude Item Ring Hints DistNode.

(** ** The code *)

Inductive ConsistencyLevel := ConsistencyOne | ConsistencyQuorum | ConsistencyAll.

#[export] Instance ConsistencyLevel_eq_dec : EqDecision ConsistencyLevel.
Proof. solve_decision. Defined.

Record ServerConfig := MkServerConfig {
  readConsistency : ConsistencyLevel;
  writeConsistency : ConsistencyLevel;
  parallelReads : bool;
  hasTransport : bool;      (* loadTransport() != nil *)
  hintConfig : HintConfig }.

Record Server := MkServer {
  node : DistMemory; conf : ServerConfig; hintq : HintState; draining : bool }.

(** All nodes, and the ids that are registered with the transport. *)
Record Cluster := MkCluster { servers : gmap string Server; backends : gset string }.

Definition lookup_ (id : string) (c : Cluster) : option Server :=
  if decide (id ∈ backends c) then servers c !! id else None.

Definition Register (id : string) (c : Cluster) : Cluster := MkCluster (servers c) ({[id]} ∪ backends c).
Definition Unregister (id : string) (c : Cluster) : Cluster := MkCluster (servers c) (backends c ∖ {[id]}).

Definition requiredAcks (total : Z) (lvl : ConsistencyLevel) : Z :=
  match lvl with
  | ConsistencyAll => total
  | ConsistencyQuorum => Z.quot total 2 + 1
  | ConsistencyOne => 1
  end.

Definition putNode (id : string) (dm : DistMemory) (c : Cluster) : Cluster :=
  MkCluster (alter (λ s, MkServer dm (conf s) (hintq s) (draining s)) id (servers c)) (backends c).

(** Run a node operation on a server. *)
Definition onNode (id : string) (f : DistMemory → option DistMemory) (c : Cluster) : option Cluster :=
  s ← servers c !! id; dm ← f (node s); Some (putNode id dm c).

Section Cluster.
Context (sum64 : string → Z) (jsonLen : any → option Z).

(** *** Writes *)

Definition storeAt (id : string) (item : Item) (c : Cluster) : option Cluster :=
  onNode id (storeItem sum64 item) c.

(** [ForwardSet] with [replicate] unset: the ownership guard of
    [applyForwardedSet], then the local part of [applySet]. *)
Definition deliverSet (oid : string) (item : Item) (c : Cluster) : option (Cluster * option error) :=
  match lookup_ oid c with
  | None => Some (c, Some ErrBackendNotFound)
  | Some b =>
      owns ← ownsKeyInternal sum64 (Key item) (node b);
      if owns : bool then c ← storeAt oid item c; Some (c, None) else Some (c, None)
  end.

(** The fan-out loop of [applySet]; errors are dropped. *)
Fixpoint fanOutSet (self : string) (oids : list string) (item : Item) (c : Cluster) : option Cluster :=
  match oids with
  | [] => Some c
  | oid :: oids =>
      if decide (oid = self) then fanOutSet self oids item c
      else '(c, _) ← deliverSet oid item c; fanOutSet self oids item c
  end.

Definition applySet (self : string) (item : Item) (replicate : bool) (c : Cluster) : option Cluster :=
  c ← storeAt self item c;
  s ← servers c !! self;
  match replicate, dring (node s) with
  | true, Some r =>
      owners ← Lookup sum64 (Key item) r;
      if (length owners <=? 1) || negb (hasTransport (conf s)) then Some c
      else fanOutSet self (tail owners) item c
  | _, _ => Some c
  end.

(** [InProcessTransport.ForwardSet] and [applyForwardedSet]. *)
Definition ForwardSet (oid : string) (item : Item) (replicate : bool) (c : Cluster)
    : option (Cluster * option error) :=
  match lookup_ oid c with
  | None => Some (c, Some ErrBackendNotFound)
  | Some b =>
      owns ← ownsKeyInternal sum64 (Key item) (node b);
      if owns : bool then c ← applySet oid item replicate c; Some (c, None) else Some (c, None)
  end.

Definition queueHintAt (self : string) (now : Z) (oid : string) (item : Item) (src : hintSource) (c : Cluster)
    : option Cluster :=
  s ← servers c !! self;
  h ← queueHint jsonLen (hintConfig (conf s)) now oid item src (hintq s);
  Some (MkCluster (<[self := MkServer (node s) (conf s) h (draining s)]> (servers c)) (backends c)).

Fixpoint replicateLoop (self : string) (now : Z) (item : Item) (replicas : list string) (acks : Z)
    (c : Cluster) : option (Cluster * Z) :=
  match replicas with
  | [] => Some (c, acks)
  | oid :: replicas =>
      if decide (oid = self) then replicateLoop self now item replicas acks c
      else
        '(c, err) ← ForwardSet oid item false c;
        match err with
        | None => replicateLoop self now item replicas (acks + 1) c
        | Some _ => c ← queueHintAt self now oid item hintSourceReplication c;
                    replicateLoop self now item replicas acks c
        end
  end.

Definition replicateTo (self : string) (now : Z) (item : Item) (replicas : list string) (c : Cluster)
    : option (Cluster * Z) :=
  s ← servers c !! self;
  if hasTransport (conf s) then replicateLoop self now item replicas 0 c else Some (c, 0%Z).

(** [(proceedAsPrimary, err)]. *)
Definition handleForwardPrimary (self : string) (owners : list string) (item : Item) (c : Cluster)
    : option (Cluster * (bool * option error)) :=
  s ← servers c !! self;
  if negb (hasTransport (conf s)) then Some (c, (false, Some ErrNotOwner))
  else
    primary ← head owners;
    '(c, errFwd) ← ForwardSet primary item true c;
    match errFwd with
    | None => Some (c, (false, None))
    | Some _ =>
        owns ← ownsKeyInternal sum64 (Key item) (node s);
        if bool_decide (self ∈ tail owners) && owns then Some (c, (true, None))
        else Some (c, (false, errFwd))
    end.

(** The stamp of the primary path: version, origin and update time. *)
Definition stamp (now v : Z) (self : string) (it : Item) : Item :=
  MkItem (Key it) (Value it) (LastAccess it) now (Size it) (Expiration it) (AccessCount it) v self.

Definition nextVersion (self : string) (c : Cluster) : option (Cluster * Z) :=
  s ← servers c !! self;
  let dm := node s in
  let v := u64 (versionCounter dm + 1) in
  Some (putNode self (MkDM (localID dm) (shardCount dm) (shards dm) (dring dm) v (tombVersionCounter dm)
                        (merkleChunkSize dm)) c, v).

(** The primary path of [setImpl], from the version on. *)
Definition setPrimary (self : string) (now : Z) (item : Item) (owners : list string) (promoted : bool)
    (c : Cluster) : option (Cluster * option error) :=
  '(c, v) ← nextVersion self c;
  let item := stamp now v self item in
  c ← applySet self item false c;
  let replicas := if promoted then owners else tail owners in
  '(c, n) ← replicateTo self now item replicas c;
  s ← servers c !! self;
  let needed := requiredAcks (Z.of_nat (length owners)) (writeConsistency (conf s)) in
  if (1 + n <? needed)%Z then Some (c, Some ErrQuorumFailed) else Some (c, None).

Definition setImpl (self : string) (now : Z) (item : Item) (c : Cluster) : option (Cluster * option error) :=
  s ← servers c !! self;
  if draining s then Some (c, Some ErrDraining)
  else
    owners ← lookupOwners sum64 (Key item) (node s);
    match owners with
    | [] => Some (c, Some ErrNotOwner)
    | primary :: _ =>
        if decide (primary = self) then setPrimary self now item owners false c
        else
          '(c, r) ← handleForwardPrimary self owners item c;
          match r with
          | (_, Some ferr) => Some (c, Some ferr)
          | (false, None) => Some (c, None)
          | (true, None) => setPrimary self now item owners true c
          end
    end.

(** [Set]: the validation comes first and may reset the item's expiration. *)
Definition Set_ (self : string) (now : Z) (item : Item) (c : Cluster) : option (Cluster * option error) :=
  match Valid item with
  | (_, Some e) => Some (c, Some e)
  | (item, None) => setImpl self now item c
  end.

(** *** Reads *)

(** [InProcessTransport.ForwardGet]. *)
Definition ForwardGet (oid key : string) (c : Cluster) : option (result (option Item)) :=
  match lookup_ oid c with
  | None => Some (Err ErrBackendNotFound)
  | Some b => r ← getItem key (node b); Some (Ok r)
  end.

Definition localGet (self key : string) (c : Cluster) : option (option Item) :=
  s ← servers c !! self; getItem key (node s).

(** What an owner answers; an unreachable owner and a miss are the same. *)
Definition fetchOwner (self key oid : string) (c : Cluster) : option (option Item) :=
  if decide (oid = self) then localGet self key c
  else
    s ← servers c !! self;
    if negb (hasTransport (conf s)) then Some None
    else
      r ← ForwardGet oid key c;
      match r with Ok (Some it) => Some (Some it) | _ => Some None end.

(** [tryRemoteGet]: a hit is stored when this node owns the key but lacks it. *)
Definition tryRemoteGet (self key oid : string) (c : Cluster) : option (Cluster * option Item) :=
  s ← servers c !! self;
  if bool_decide (oid = self) || negb (hasTransport (conf s)) then Some (c, None)
  else
    r ← ForwardGet oid key c;
    match r with
    | Ok (Some it) =>
        owns ← ownsKeyInternal sum64 key (node s);
        if owns : bool then
          mine ← localGet self key c;
          match mine with
          | None => c ← applySet self it false c; Some (c, Some it)
          | Some _ => Some (c, Some it)
          end
        else Some (c, Some it)
    | _ => Some (c, None)
    end.

Definition tryLocalGet (self key oid : string) (c : Cluster) : option (option Item) :=
  if decide (oid = self) then localGet self key c else Some None.

Fixpoint getOne (self key : string) (owners : list string) (c : Cluster) : option (Cluster * option Item) :=
  match owners with
  | [] => Some (c, None)
  | oid :: owners =>
      mine ← tryLocalGet self key oid c;
      match mine with
      | Some it => Some (c, Some it)
      | None =>
          '(c, r) ← tryRemoteGet self key oid c;
          match r with Some it => Some (c, Some it) | None => getOne self key owners c end
      end
  end.

(** The loop over the owners until the quorum is reached; [stale] collects the
    owners whose answer replaced an earlier one. *)
Fixpoint collectQuorum (self key : string) (owners : list string) (needed : Z) (chosen : option Item)
    (acks : Z) (stale : list string) (c : Cluster) : option (option Item * Z * list string) :=
  match owners with
  | [] => Some (chosen, acks, stale)
  | oid :: owners =>
      r ← fetchOwner self key oid c;
      match r with
      | None => collectQuorum self key owners needed chosen acks stale c
      | Some it =>
          let prev := chosen in
          let chosen := chooseNewer chosen (Some it) in
          let acks := (acks + 1)%Z in
          let stale := if bool_decide (prev ≠ None ∧ chosen ≠ prev) then stale ++ [oid] else stale in
          if (needed <=? acks)%Z && bool_decide (chosen ≠ None) then Some (chosen, acks, stale)
          else collectQuorum self key owners needed chosen acks stale c
      end
  end.

(** The repair is sent whatever the owner holds; its error is dropped. *)
Definition repairRemoteReplica (self : string) (chosen : Item) (oid : string) (c : Cluster) : option Cluster :=
  s ← servers c !! self;
  if negb (hasTransport (conf s)) then Some c else '(c, _) ← ForwardSet oid chosen false c; Some c.

Fixpoint repairStaleOwners (self : string) (chosen : Item) (stale : list string) (c : Cluster)
    : option Cluster :=
  match stale with
  | [] => Some c
  | oid :: stale =>
      if decide (oid = self) then repairStaleOwners self chosen stale c
      else c ← repairRemoteReplica self chosen oid c; repairStaleOwners self chosen stale c
  end.

Definition isStale (localIt chosen : Item) : bool :=
  (Version localIt <? Version chosen)%Z ||
  ((Version localIt =? Version chosen)%Z && str_ltb (Origin chosen) (Origin localIt)).

Definition repairLocalReplica (self key : string) (chosen : Item) (c : Cluster) : option Cluster :=
  mine ← localGet self key c;
  match mine with
  | Some localIt => if isStale localIt chosen then applySet self chosen false c else Some c
  | None => applySet self chosen false c
  end.

Fixpoint repairReplicas (self key : string) (chosen : Item) (owners : list string) (c : Cluster)
    : option Cluster :=
  match owners with
  | [] => Some c
  | oid :: owners =>
      c ← (if decide (oid = self) then repairLocalReplica self key chosen c
           else repairRemoteReplica self chosen oid c);
      repairReplicas self key chosen owners c
  end.

(** [order] is the order in which the answers arrive: the ring's order in the
    sequential read, any order in the parallel one. *)
Definition getWithConsistency (self key : string) (owners order : list string) (c : Cluster)
    : option (Cluster * option Item) :=
  s ← servers c !! self;
  let needed := requiredAcks (Z.of_nat (length owners)) (readConsistency (conf s)) in
  '(chosen, acks, stale) ← collectQuorum self key order needed None 0 [] c;
  match chosen with
  | Some it =>
      if (acks <? needed)%Z then Some (c, None)
      else
        c ← repairStaleOwners self it stale c;
        c ← repairReplicas self key it owners c;
        Some (c, Some it)
  | None => Some (c, None)
  end.

(** Every owner is asked at once; [arrival] is the order of the answers. *)
Definition getWithConsistencyParallel (arrival : list string → list string) (self key : string) (owners : list string)
    (c : Cluster) : option (Cluster * option Item) :=
  getWithConsistency self key owners (arrival owners) c.

Definition getImpl (arrival : list string → list string) (self key : string) (c : Cluster)
    : option (Cluster * option Item) :=
  s ← servers c !! self;
  fast ← (if decide (readConsistency (conf s) = ConsistencyOne) then localGet self key c else Some None);
  match fast with
  | Some it => Some (c, Some it)
  | None =>
      owners ← lookupOwners sum64 key (node s);
      if decide (owners = []) then Some (c, None)
      else if decide (readConsistency (conf s) = ConsistencyOne) then getOne self key owners c
      else if parallelReads (conf s) then getWithConsistencyParallel arrival self key owners c
      else getWithConsistency self key owners owners c
  end.

(** *** Removals *)

Definition removeAt (id : string) (now : Z) (key : string) (c : Cluster) : option Cluster :=
  onNode id (removeItem now key) c.

(** [ForwardRemove] with [replicate] unset; there is no ownership guard. *)
Definition deliverRemove (oid : string) (now : Z) (key : string) (c : Cluster)
    : option (Cluster * option error) :=
  match lookup_ oid c with
  | None => Some (c, Some ErrBackendNotFound)
  | Some _ => c ← removeAt oid now key c; Some (c, None)
  end.

Fixpoint fanOutRemove (self : string) (now : Z) (oids : list string) (key : string) (c : Cluster)
    : option Cluster :=
  match oids with
  | [] => Some c
  | oid :: oids =>
      if decide (oid = self) then fanOutRemove self now oids key c
      else '(c, _) ← deliverRemove oid now key c; fanOutRemove self now oids key c
  end.

Definition applyRemove (self : string) (now : Z) (key : string) (replicate : bool) (c : Cluster)
    : option Cluster :=
  c ← removeAt self now key c;
  s ← servers c !! self;
  match replicate, dring (node s), hasTransport (conf s) with
  | true, Some r, true =>
      owners ← Lookup sum64 key r;
      if length owners <=? 1 then Some c else fanOutRemove self now (tail owners) key c
  | _, _, _ => Some c
  end.

Definition ForwardRemove (oid : string) (now : Z) (key : string) (replicate : bool) (c : Cluster)
    : option (Cluster * option error) :=
  match lookup_ oid c with
  | None => Some (c, Some ErrBackendNotFound)
  | Some _ => c ← applyRemove oid now key replicate c; Some (c, None)
  end.

Definition forwardOrPromoteRemove (self : string) (now : Z) (key : string) (owners : list string) (c : Cluster)
    : option (Cluster * option error) :=
  primary ← head owners;
  '(c, err) ← ForwardRemove primary now key true c;
  match err with
  | None => Some (c, None)
  | Some _ =>
      s ← servers c !! self;
      owns ← ownsKeyInternal sum64 key (node s);
      if bool_decide (self ∈ tail owners) && owns
      then c ← applyRemove self now key true c; Some (c, None)
      else Some (c, err)
  end.

Fixpoint removeLoop (self : string) (now : Z) (keys : list string) (c : Cluster)
    : option (Cluster * option error) :=
  match keys with
  | [] => Some (c, None)
  | key :: keys =>
      s ← servers c !! self;
      owners ← lookupOwners sum64 key (node s);
      match owners with
      | [] => removeLoop self now keys c
      | primary :: _ =>
          if decide (primary = self) then
            c ← applyRemove self now key true c; removeLoop self now keys c
          else if negb (hasTransport (conf s)) then Some (c, Some ErrNotOwner)
          else
            '(c, err) ← forwardOrPromoteRemove self now key owners c;
            match err with Some e => Some (c, Some e) | None => removeLoop self now keys c end
      end
  end.

Definition removeImpl (self : string) (now : Z) (keys : list string) (c : Cluster)
    : option (Cluster * option error) :=
  s ← servers c !! self;
  if draining s then Some (c, Some ErrDraining) else removeLoop self now keys c.

(** [SyncWith] is in Merkle.v, [replayHints] in Hints.v. *)

End Cluster.

(** ** What the nodes hold *)

Definition holds (c : Cluster) (id k : string) : option Item :=
  s ← servers c !! id; items_of (node s) !! k.

Definition reachable (c : Cluster) (id : string) : Prop := is_Some (lookup_ id c).
#[export] Instance reachable_dec c id : Decision (reachable c id).
Proof. unfold reachable. apply _. Defined.

(** All nodes are well formed and see the same ring. *)
Record server_wf (r : Ring) (id : string) (s : Server) : Prop := {
  sw_node : node_wf (node s);
  sw_id : localID (node s) = id;
  sw_ring : dring (node s) = Some r;
  sw_keys : keys_ok (items_of (node s)) }.

Definition cluster_wf (r : Ring) (c : Cluster) : Prop :=
  ∀ id s, servers c !! id = Some s → server_wf r id s.

(** What no write, read or removal changes. *)
Definition frame (c c' : Cluster) : Prop :=
  backends c' = backends c ∧
  ∀ id, (λ s, (conf s, draining s)) <$> servers c' !! id = (λ s, (conf s, draining s)) <$> servers c !! id.

#[export] Instance frame_preorder : PreOrder frame.
Proof.
  split; [done|]. intros a b c [H1 H2] [H3 H4]. split; [congruence|]. intros id. by rewrite H4, H2.
Qed.

Lemma frame_reachable c c' id : frame c c' → reachable c' id ↔ reachable c id.
Proof.
  intros [Hb Hs]. unfold reachable, lookup_. rewrite Hb. case_decide; [|done]. specialize (Hs id).
  destruct (servers c' !! id), (servers c !! id); try done.
Qed.

Lemma frame_server c c' id s :
  frame c c' → servers c !! id = Some s →
  ∃ s', servers c' !! id = Some s' ∧ conf s' = conf s ∧ draining s' = draining s.
Proof.
  intros [_ Hs] E. specialize (Hs id). rewrite E in Hs.
  destruct (servers c' !! id) as [s'|]; [|done]. exists s'. cbn in Hs. by simplify_eq.
Qed.

Lemma reachable_server c id : reachable c id → ∃ s, servers c !! id = Some s ∧ lookup_ id c = Some s.
Proof. unfold reachable, lookup_. intros [s E]. case_decide; [|done]. by exists s. Qed.

Section ClusterFacts.
Context (sum64 : string → Z) (jsonLen : any → option Z) (r : Ring).

Lemma putNode_lookup id dm c id' :
  servers (putNode id dm c) !! id' =
  if decide (id' = id) then (λ s, MkServer dm (conf s) (hintq s) (draining s)) <$> servers c !! id
  else servers c !! id'.
Proof.
  unfold putNode. cbn [servers]. case_decide as E; [subst; apply lookup_alter_eq|by apply lookup_alter_ne].
Qed.

(** Running a node operation that keeps the node well formed. *)
Lemma putNode_ok id s dm c :
  cluster_wf r c → servers c !! id = Some s → server_wf r id (MkServer dm (conf s) (hintq s) (draining s)) →
  cluster_wf r (putNode id dm c) ∧ frame c (putNode id dm c) ∧
  ∀ id' k, holds (putNode id dm c) id' k = if decide (id' = id) then items_of dm !! k else holds c id' k.
Proof.
  intros Hwf Hs Hdm. split_and!.
  - intros id' s'. rewrite putNode_lookup. case_decide as E; [|apply Hwf]. subst. rewrite Hs. cbn. by intros [= <-].
  - split; [done|]. intros id'. rewrite putNode_lookup. case_decide as E; [|done]. subst. by rewrite Hs.
  - intros id' k. unfold holds. rewrite putNode_lookup. case_decide as E; [|done]. by rewrite Hs.
Qed.

Lemma storeAt_ok id it c :
  cluster_wf r c → is_Some (servers c !! id) →
  ∃ c', storeAt sum64 id it c = Some c' ∧ cluster_wf r c' ∧ frame c c' ∧
    ∀ id' k, holds c' id' k = if decide (id' = id ∧ k = Key it) then Some it else holds c id' k.
Proof.
  intros Hwf [s Hs]. destruct (Hwf id s Hs) as [Hn Hid Hr Hk].
  destruct (storeItem_ok sum64 it (node s) Hn) as (dm & E & Hn' & (S1 & S2 & S3 & _) & _ & Ei & _).
  unfold storeAt, onNode. rewrite Hs. cbn. rewrite E. cbn. eexists. split; [done|].
  destruct (putNode_ok id s dm c Hwf Hs) as (H1 & H2 & H3).
  { split; cbn; [done|congruence|congruence|]. rewrite Ei. intros k i.
    rewrite lookup_insert_Some. intros [[<- <-]|[_ ?]]; [done|by apply Hk]. }
  split_and!; [done|done|]. intros id' k. rewrite H3. case_decide as E1.
  - subst. rewrite Ei. destruct (decide (k = Key it)) as [->|Hne].
    + by rewrite decide_True, lookup_insert_eq.
    + rewrite decide_False, lookup_insert_ne by naive_solver. unfold holds. by rewrite Hs.
  - rewrite decide_False; [done|]. naive_solver.
Qed.

Lemma removeAt_ok id now key c :
  cluster_wf r c → is_Some (servers c !! id) →
  ∃ c', removeAt id now key c = Some c' ∧ cluster_wf r c' ∧ frame c c' ∧
    ∀ id' k, holds c' id' k = if decide (id' = id ∧ k = key) then None else holds c id' k.
Proof.
  intros Hwf [s Hs]. destruct (Hwf id s Hs) as [Hn Hid Hr Hk].
  destruct (removeItem_ok now key (node s) Hn) as (dm & E & Hn' & (S1 & S2 & S3 & _) & Ei & _).
  unfold removeAt, onNode. rewrite Hs. cbn. rewrite E. cbn. eexists. split; [done|].
  destruct (putNode_ok id s dm c Hwf Hs) as (H1 & H2 & H3).
  { split; cbn; [done|congruence|congruence|]. rewrite Ei. intros k i [_ ?]%lookup_delete_Some. by apply Hk. }
  split_and!; [done|done|]. intros id' k. rewrite H3. case_decide as E1.
  - subst. rewrite Ei. destruct (decide (k = key)) as [->|Hne].
    + by rewrite decide_True, lookup_delete_eq.
    + rewrite decide_False, lookup_delete_ne by naive_solver. unfold holds. by rewrite Hs.
  - rewrite decide_False; [done|]. naive_solver.
Qed.

Lemma owns_owner k id s os :
  server_wf r id s → Lookup sum64 k r = Some os → id ∈ os → ownsKeyInternal sum64 k (node s) = Some true.
Proof.
  intros [_ Hid Hr _] Hos Hin. unfold ownsKeyInternal. rewrite Hr, Hos. cbn. by rewrite decide_True by congruence.
Qed.

Lemma ownsKey_Some k s :
  dring (node s) = Some r → ∃ b, ownsKeyInternal sum64 k (node s) = Some b ∧
    ∀ os, Lookup sum64 k r = Some os → localID (node s) ∈ os → b = true.
Proof.
  intros Hr. unfold ownsKeyInternal. rewrite Hr. destruct (Lookup_total sum64 k r) as (os & -> & _).
  cbn. case_decide; eexists; (split; [done|]); intros os' [= <-]; [done|]. intros. done.
Qed.

(** A write without fan-out. *)
Lemma applySet_local id it c :
  cluster_wf r c → is_Some (servers c !! id) →
  ∃ c', applySet sum64 id it false c = Some c' ∧ cluster_wf r c' ∧ frame c c' ∧
    ∀ id' k, holds c' id' k = if decide (id' = id ∧ k = Key it) then Some it else holds c id' k.
Proof.
  intros Hwf Hs. destruct (storeAt_ok id it c Hwf Hs) as (c' & E & Hwf' & Hf & Hh).
  exists c'. split_and!; try done. unfold applySet. rewrite E. cbn. destruct Hs as [s Hs].
  destruct (frame_server c c' id s Hf Hs) as (s' & -> & _). done.
Qed.

(** A replica write delivered to an owner is stored exactly when it is reachable. *)
Lemma ForwardSet_owner oid it c os :
  cluster_wf r c → Lookup sum64 (Key it) r = Some os → oid ∈ os →
  ∃ c' err, ForwardSet sum64 oid it false c = Some (c', err) ∧ cluster_wf r c' ∧ frame c c' ∧
    (err = None ↔ reachable c oid) ∧
    ∀ id' k, holds c' id' k = if decide (reachable c oid ∧ id' = oid ∧ k = Key it) then Some it
                              else holds c id' k.
Proof.
  intros Hwf Hos Hin. unfold ForwardSet. destruct (decide (reachable c oid)) as [Hre|Hre].
  - destruct (reachable_server _ _ Hre) as (b & Hb & ->).
    rewrite (owns_owner _ oid b os (Hwf _ _ Hb) Hos Hin). cbn.
    destruct (applySet_local oid it c Hwf) as (c' & -> & Hwf' & Hf & Hh); [by eexists|]. cbn.
    eexists _, _. split_and!; try done. intros id' k. rewrite Hh.
    destruct (decide (id' = oid ∧ k = Key it)).
    + by rewrite decide_True by done.
    + by rewrite decide_False by tauto.
  - destruct (lookup_ oid c) as [b|] eqn:El; [destruct Hre; by exists b|].
    eexists _, _. split_and!; try done. intros id' k. rewrite decide_False by tauto. done.
Qed.

Lemma queueHint_total cfg now id it src s : ∃ s', queueHint jsonLen cfg now id it src s = Some s'.
Proof.
  unfold queueHint. destruct (_ <=? 0)%Z; [eauto|].
  assert (∃ qs, dropOldest cfg (default [] (hints s !! id)) s = Some qs) as [[q s1] ->].
  { unfold dropOldest. destruct (default [] (hints s !! id)) as [|e q]; [|case_match; eauto].
    destruct (Z.ltb_spec 0 (hintMaxPerNode cfg)); [|eauto].
    destruct (Z.leb_spec (hintMaxPerNode cfg) (Z.of_nat (@length hintedEntry []))); [simpl in *; lia|eauto]. }
  cbn. case_match; eauto.
Qed.

Lemma queueHintAt_ok self now oid it src c :
  cluster_wf r c → is_Some (servers c !! self) →
  ∃ c', queueHintAt jsonLen self now oid it src c = Some c' ∧ cluster_wf r c' ∧ frame c c' ∧
    ∀ id' k, holds c' id' k = holds c id' k.
Proof.
  intros Hwf [s Hs]. unfold queueHintAt. rewrite Hs. cbn.
  destruct (queueHint_total (hintConfig (conf s)) now oid it src (hintq s)) as [h ->].
  cbn. eexists. split; [done|]. split_and!.
  - intros id s'. cbn. rewrite lookup_insert_Some. intros [[<- <-]|[_ ?]]; [|by apply Hwf].
    by destruct (Hwf _ _ Hs).
  - split; [done|]. intros id. cbn. destruct (decide (self = id)) as [->|Hne].
    + by rewrite lookup_insert_eq, Hs.
    + by rewrite lookup_insert_ne.
  - intros id' k. unfold holds. cbn. destruct (decide (self = id')) as [->|Hne].
    + by rewrite lookup_insert_eq, Hs.
    + by rewrite lookup_insert_ne.
Qed.

(** The replicas a write reaches. *)
Definition reached (c : Cluster) (self : string) (l : list string) : list string :=
  filter (λ oid, oid ≠ self ∧ reachable c oid) l.

Lemma reached_cons c self oid l :
  reached c self (oid :: l) =
  if decide (oid ≠ self ∧ reachable c oid) then oid :: reached c self l else reached c self l.
Proof. unfold reached. by rewrite filter_cons. Qed.

Lemma reached_frame c c' self l : frame c c' → reached c' self l = reached c self l.
Proof. intros Hf. apply list_filter_iff. intros oid. by rewrite (frame_reachable c c' oid Hf). Qed.

Lemma replicateLoop_ok self now it os l : ∀ acks c,
  cluster_wf r c → is_Some (servers c !! self) → Lookup sum64 (Key it) r = Some os →
  (∀ x, x ∈ l → x ∈ os) →
  ∃ c', replicateLoop sum64 jsonLen self now it l acks c =
          Some (c', acks + Z.of_nat (length (reached c self l)))%Z ∧
    cluster_wf r c' ∧ frame c c' ∧
    ∀ id k, holds c' id k = if decide (id ∈ reached c self l ∧ k = Key it) then Some it else holds c id k.
Proof.
  induction l as [|oid l IH]; intros acks c Hwf Hs Hos Hl; cbn [replicateLoop].
  { exists c. cbn [reached filter list_filter length]. split_and!; [f_equal; f_equal; simpl; lia|done|done|].
    intros id k. rewrite decide_False; [done|]. intros [H _]. by apply elem_of_nil in H. }
  assert (∀ x, x ∈ l → x ∈ os) as Hl' by (intros x Hx; apply Hl; by right).
  rewrite reached_cons. case_decide as E.
  { rewrite decide_False by tauto. by apply IH. }
  destruct (ForwardSet_owner oid it c os Hwf Hos) as (c1 & err & -> & Hwf1 & Hf1 & Herr & Hh1).
  { apply Hl. by left. }
  cbn [mbind option_bind].
  assert (is_Some (servers c1 !! self)) as Hs1.
  { destruct Hs as [s Hs]. destruct (frame_server _ _ _ _ Hf1 Hs) as (s' & -> & _). by eexists. }
  destruct err as [e|].
  - assert (¬ reachable c oid) as Hnr by (intros ?; by apply Herr in H).
    rewrite decide_False by tauto.
    destruct (queueHintAt_ok self now oid it hintSourceReplication c1 Hwf1 Hs1) as (c2 & -> & Hwf2 & Hf2 & Hh2). cbn [mbind option_bind].
    assert (frame c c2) as Hf by (by etrans).
    destruct (IH acks c2 Hwf2) as (c' & -> & Hwf' & Hf' & Hh'); [|done..|].
    { destruct Hs1 as [s Hs1]. destruct (frame_server _ _ _ _ Hf2 Hs1) as (s' & -> & _). by eexists. }
    rewrite (reached_frame c c2 self l Hf). exists c'. split_and!; [done|done|by etrans|].
    intros id k. rewrite Hh', (reached_frame c c2 self l Hf), Hh2, Hh1.
    case_decide; [done|]. by rewrite decide_False by tauto.
  - assert (reachable c oid) as Hre by (by apply Herr).
    rewrite decide_True by done.
    destruct (IH (acks + 1)%Z c1 Hwf1 Hs1 Hos Hl') as (c' & -> & Hwf' & Hf' & Hh').
    rewrite (reached_frame c c1 self l Hf1). exists c'. split_and!.
    + f_equal. f_equal. cbn [length]. lia.
    + done.
    + by etrans.
    + intros id k. rewrite Hh', (reached_frame c c1 self l Hf1), Hh1.
      destruct (decide (id ∈ reached c self l ∧ k = Key it)) as [[? ?]|Hn].
      * rewrite decide_True; [done|]. split; [by right|done].
      * case_decide as E1.
        -- rewrite decide_True; [done|]. destruct E1 as (_ & -> & ->). split; [by left|done].
        -- rewrite decide_False; [done|]. intros [[->|?]%elem_of_cons ->]; tauto.
Qed.

Lemma frame_is_Some c c' id : frame c c' → is_Some (servers c !! id) → is_Some (servers c' !! id).
Proof. intros Hf [s Hs]. destruct (frame_server _ _ _ _ Hf Hs) as (s' & -> & _). by eexists. Qed.

Lemma nextVersion_ok self s c :
  cluster_wf r c → servers c !! self = Some s →
  ∃ c', nextVersion self c = Some (c', u64 (versionCounter (node s) + 1)) ∧ cluster_wf r c' ∧ frame c c' ∧
    ∀ id k, holds c' id k = holds c id k.
Proof.
  intros Hwf Hs. unfold nextVersion. rewrite Hs. cbn. eexists. split; [done|].
  destruct (Hwf _ _ Hs) as [[W1 W2 W3 W4] Hid Hr Hk].
  match goal with |- context [putNode self ?d c] => destruct (putNode_ok self s d c Hwf Hs) as (H1 & H2 & H3) end.
  { split; cbn; [split; done|done..]. }
  split_and!; [done|done|]. intros id k. rewrite H3. case_decide; [|done]. subst. unfold holds. by rewrite Hs.
Qed.

(** Which replicas a primary tries, and which of them it reaches. *)
Definition targets (s : Server) (c : Cluster) (self : string) (promoted : bool) (os : list string) : list string :=
  if hasTransport (conf s) then reached c self (if promoted then os else tail os) else [].

Lemma setPrimary_ok self now it os promoted c s :
  cluster_wf r c → servers c !! self = Some s → Lookup sum64 (Key it) r = Some os →
  let v := u64 (versionCounter (node s) + 1) in
  let stored := targets s c self promoted os in
  ∃ c', setPrimary sum64 jsonLen self now it os promoted c =
      Some (c', if (1 + Z.of_nat (length stored) <?
                    requiredAcks (Z.of_nat (length os)) (writeConsistency (conf s)))%Z
                then Some ErrQuorumFailed else None) ∧
    cluster_wf r c' ∧ frame c c' ∧
    ∀ id k, holds c' id k = if decide ((id = self ∨ id ∈ stored) ∧ k = Key it)
                            then Some (stamp now v self it) else holds c id k.
Proof.
  intros Hwf Hs Hos v stored. unfold setPrimary.
  destruct (nextVersion_ok self s c Hwf Hs) as (c1 & -> & Hwf1 & Hf1 & Hh1). cbn [mbind option_bind]. fold v.
  destruct (applySet_local self (stamp now v self it) c1 Hwf1) as (c2 & -> & Hwf2 & Hf2 & Hh2).
  { eapply frame_is_Some; [done|by eexists]. }
  cbn [mbind option_bind]. assert (frame c c2) as Hf by (by etrans).
  destruct (frame_server _ _ _ _ Hf Hs) as (s2 & Hs2 & Ec2 & _).
  unfold replicateTo. rewrite Hs2. cbn [mbind option_bind]. rewrite Ec2. unfold targets in stored.
  assert (∃ c3, (if hasTransport (conf s)
      then replicateLoop sum64 jsonLen self now (stamp now v self it) (if promoted then os else tail os) 0 c2
      else Some (c2, 0%Z)) = Some (c3, Z.of_nat (length stored)) ∧ cluster_wf r c3 ∧ frame c c3 ∧
      ∀ id k, holds c3 id k = if decide (id ∈ stored ∧ k = Key it) then Some (stamp now v self it)
                              else holds c2 id k) as (c3 & -> & Hwf3 & Hf3 & Hh3).
  { subst stored. destruct (hasTransport (conf s)).
    - destruct (replicateLoop_ok self now (stamp now v self it) os (if promoted then os else tail os) 0 c2)
        as (c3 & -> & Hwf3 & Hf3 & Hh3); [done|by eexists|done| |].
      + intros x. destruct promoted; [done|]. destruct os; [done|]. by right.
      + rewrite (reached_frame c c2) in Hh3 |- * by done. exists c3. split_and!; [done|done|by etrans|done].
    - exists c2. split_and!; [done|done|done|]. intros id k. rewrite decide_False; [done|].
      intros [H _]. by apply elem_of_nil in H. }
  cbn [mbind option_bind]. destruct (frame_server _ _ _ _ Hf3 Hs) as (s3 & Hs3 & Ec3 & _).
  rewrite Hs3. cbn [mbind option_bind]. rewrite Ec3. exists c3. split_and!; [by case_match|done|done|].
  intros id k. rewrite Hh3, Hh2, Hh1. cbn [Key stamp]. repeat case_decide; naive_solver.
Qed.

(** ** Quorums *)

(** The owners that hold a version of the key no older than [v]. *)
Definition fresh_owners (c : Cluster) (k : string) (v : Z) (os : list string) : list string :=
  filter (λ id, covers (Version <$> holds c id k) v = true) os.

Lemma count_sublist (P : string → Prop) `{∀ x, Decision (P x)} (l os : list string) :
  NoDup l → (∀ x, x ∈ l → x ∈ os ∧ P x) → length l ≤ length (filter P os).
Proof.
  intros Hnd Hl. apply submseteq_length, NoDup_submseteq; [done|].
  intros x Hx. rewrite list_elem_of_filter. destruct (Hl x Hx). done.
Qed.

(** Two subsets of the owners that are together larger than the owners meet. *)
Lemma quorums_meet (l1 l2 os : list string) :
  NoDup l1 → NoDup l2 → (∀ x, x ∈ l1 → x ∈ os) → (∀ x, x ∈ l2 → x ∈ os) →
  length os < length l1 + length l2 → ∃ x, x ∈ l1 ∧ x ∈ l2.
Proof.
  intros N1 N2 H1 H2 Hlt.
  destruct (decide (Exists (λ x, x ∈ l2) l1)) as [He|He].
  - apply Exists_exists in He as (x & ? & ?). eauto.
  - exfalso. assert (length (l1 ++ l2) ≤ length os); [|rewrite length_app in *; lia].
    apply submseteq_length, NoDup_submseteq.
    + apply NoDup_app. split_and!; [done| |done]. intros x Hx Hx2. apply He, Exists_exists. eauto.
    + intros x [Hx|Hx]%elem_of_app; auto.
Qed.

Lemma requiredAcks_quorum n : (0 ≤ n)%Z → (n < 2 * requiredAcks n ConsistencyQuorum)%Z.
Proof. intros Hn. cbn. pose proof (Z.quot_rem n 2). pose proof (Z.rem_bound_pos n 2). lia. Qed.

(** ** Reads *)

(** What the owner [oid] answers to the reader [self]. *)
Definition answer (t : bool) (c : Cluster) (self k oid : string) : option Item :=
  if decide (oid = self) then holds c self k
  else if decide (t = true ∧ reachable c oid) then holds c oid k else None.

Lemma getItem_holds c id k s :
  cluster_wf r c → servers c !! id = Some s → getItem k (node s) = Some (holds c id k).
Proof.
  intros Hwf Hs. destruct (Hwf _ _ Hs) as [Hn _ _ _]. unfold getItem, holds. rewrite Hs.
  destruct (shardFor_ok k (node s) Hn) as (i & sh & -> & _ & _ & E & _). cbn. by rewrite E.
Qed.

Lemma localGet_ok c self k : cluster_wf r c → is_Some (servers c !! self) → localGet self k c = Some (holds c self k).
Proof. intros Hwf [s Hs]. unfold localGet. rewrite Hs. cbn. by apply getItem_holds. Qed.

Lemma fetchOwner_ok c self k oid s :
  cluster_wf r c → servers c !! self = Some s →
  fetchOwner self k oid c = Some (answer (hasTransport (conf s)) c self k oid).
Proof.
  intros Hwf Hs. unfold fetchOwner, answer. case_decide as E; [apply localGet_ok; [done|by eexists]|].
  rewrite Hs. cbn. destruct (hasTransport (conf s)); cbn; [|by rewrite decide_False by naive_solver].
  unfold ForwardGet. destruct (decide (reachable c oid)) as [Hre|Hre].
  - rewrite decide_True by done. destruct (reachable_server _ _ Hre) as (b & Hb & ->).
    rewrite (getItem_holds c oid k b Hwf Hb). cbn. by destruct (holds c oid k).
  - rewrite decide_False by tauto. destruct (lookup_ oid c) as [b|] eqn:El; [destruct Hre; by exists b|done].
Qed.

Lemma chooseNewer_max a b m :
  chooseNewer a (Some b) = m →
  ∃ x, m = Some x ∧ (Version b ≤ Version x)%Z ∧ (∀ y, a = Some y → (Version y ≤ Version x)%Z) ∧
    (x = b ∨ a = Some x).
Proof.
  intros <-. destruct a as [a|]; cbn; [|exists b; split_and!; auto; lia || done].
  destruct (Z.ltb_spec (Version a) (Version b)); [|destruct (Z.ltb_spec (Version b) (Version a));
    [|destruct (str_ltb (Origin b) (Origin a))]];
    (eexists; split; [done|]; split_and!; [lia|intros y [= <-]; lia|auto]).
Qed.

(** The responders [R] of a quorum read: the chosen item is no older than any of
    their answers, and if the quorum was missed everyone was asked. *)
Record collected (ans : string → option Item) (order : list string) (needed acks : Z) (chosen : option Item)
    (res : option Item * Z * list string) (R : list string) : Prop := {
  col_sub : sublist R order;
  col_acks : (res.1.2 = acks + Z.of_nat (length R))%Z;
  col_answers : ∀ id, id ∈ R → ∃ it y, ans id = Some it ∧ res.1.1 = Some y ∧ (Version it ≤ Version y)%Z;
  col_grows : ∀ x, chosen = Some x → ∃ y, res.1.1 = Some y ∧ (Version x ≤ Version y)%Z;
  col_from : ∀ y, res.1.1 = Some y → chosen = Some y ∨ ∃ id, id ∈ R ∧ ans id = Some y;
  col_all : (res.1.2 < needed)%Z → R = filter (λ id, is_Some (ans id)) order }.

Lemma collectQuorum_ok self k needed c s : ∀ order chosen acks stale,
  cluster_wf r c → servers c !! self = Some s →
  ∃ res R, collectQuorum self k order needed chosen acks stale c = Some res ∧
    collected (answer (hasTransport (conf s)) c self k) order needed acks chosen res R ∧
    (∀ id, id ∈ res.2 → id ∈ stale ∨ id ∈ order).
Proof.
  induction order as [|oid order IH]; intros chosen acks stale Hwf Hs; cbn [collectQuorum].
  { exists (chosen, acks, stale), []. split_and!; [done| |auto].
    split; cbn; [constructor|lia|intros id H; by apply elem_of_nil in H|intros x ->; exists x; split; [done|lia]|auto|done]. }
  rewrite (fetchOwner_ok c self k oid s Hwf Hs). cbn [mbind option_bind].
  destruct (answer (hasTransport (conf s)) c self k oid) as [it|] eqn:Ea.
  2:{ destruct (IH chosen acks stale Hwf Hs) as (res & R & -> & [H1 H2 H3 H4 H5 H6] & Hst).
      exists res, R. split_and!; [done| |intros id Hid; destruct (Hst id Hid); [auto|right; by right]].
      split; auto.
      - by apply sublist_cons.
      - intros Hlt. rewrite filter_cons_False; [by apply H6|]. rewrite Ea. by intros []. }
  destruct (chooseNewer_max chosen it _ eq_refl) as (x & Ex & Hb & Hold & Hfrom). rewrite Ex.
  set (stale' := if bool_decide _ then _ else _).
  assert (∀ id, id ∈ stale' → id ∈ stale ∨ id ∈ oid :: order) as Hst'.
  { intros id. subst stale'. case_bool_decide; [|auto]. rewrite elem_of_app, list_elem_of_singleton.
    intros [?| ->]; [auto|right; by left]. }
  rewrite (bool_decide_eq_true_2 (Some x ≠ None)) by done. rewrite andb_true_r.
  destruct (Z.leb_spec needed (acks + 1)) as [Hle|Hlt].
  { exists (Some x, (acks + 1)%Z, stale'), [oid]. split_and!; [done| |done].
    split; cbn; [by apply sublist_skip, sublist_nil_l|lia| | | |lia].
    - intros id ->%list_elem_of_singleton. by exists it, x.
    - intros y Hy. exists x. split; [done|]. by apply Hold.
    - intros y [= <-]. destruct Hfrom as [->|?]; [|auto]. right. exists oid. split; [by left|done]. }
  destruct (IH (Some x) (acks + 1)%Z stale' Hwf Hs) as (res & R & -> & [H1 H2 H3 H4 H5 H6] & Hst).
  exists res, (oid :: R). destruct (H4 x eq_refl) as (z & Ez & Hz). split_and!; [done| |].
  - split; cbn [length]; [by apply sublist_skip|lia| | | |].
    + intros id [->|Hid]%elem_of_cons; [|by apply H3]. exists it, z. split_and!; [done|done|lia].
    + intros y Hy. exists z. split; [done|]. specialize (Hold y Hy). lia.
    + intros y Hy. destruct (H5 y Hy) as [[= ->]|(id & ? & ?)]; [|right; exists id; split; [by right|done]].
      destruct Hfrom as [->|?]; [|auto]. right. exists oid. split; [by left|done].
    + intros Hn. rewrite filter_cons_True by (rewrite Ea; by eexists). by rewrite H6.
  - intros id Hid. destruct (Hst id Hid) as [Hid'|?]; [by apply Hst'|right; by right].
Qed.

(** ** Read repair *)

(** [it] replaces [mine]: a higher version, or the same from a smaller origin. *)
Definition precedes (it mine : Item) : Prop :=
  (Version mine < Version it)%Z ∨ (Version mine = Version it ∧ str_ltb (Origin it) (Origin mine) = true).
#[local] Instance precedes_dec it mine : Decision (precedes it mine) := _.

(** What the reading node holds after its repair, from what it held. *)
Definition local_repair (it : Item) (mine : option Item) : option Item :=
  match mine with Some m => if decide (precedes it m) then Some it else Some m | None => Some it end.

(** What a node holds after the repair of the owners [l] by [self], which has a
    transport if [t]. *)
Definition after_repair (t : bool) (self : string) (l : list string) (it : Item) (c : Cluster) (id k : string)
    : option Item :=
  if decide (k = Key it ∧ id ∈ l) then
    if decide (id = self) then local_repair it (holds c id k)
    else if decide (t = true ∧ reachable c id) then Some it else holds c id k
  else holds c id k.

Lemma local_repair_idem it m : local_repair it (local_repair it m) = local_repair it m.
Proof. destruct m as [m|]; cbn; repeat (case_decide; cbn); done. Qed.

Lemma repairRemoteReplica_ok self it oid c os s :
  cluster_wf r c → servers c !! self = Some s → Lookup sum64 (Key it) r = Some os → oid ∈ os → oid ≠ self →
  ∃ c', repairRemoteReplica sum64 self it oid c = Some c' ∧ cluster_wf r c' ∧ frame c c' ∧
    ∀ id k, holds c' id k = after_repair (hasTransport (conf s)) self [oid] it c id k.
Proof.
  intros Hwf Hs Hos Hin Hne. unfold repairRemoteReplica. rewrite Hs. cbn [mbind option_bind].
  assert (∀ id, id ∈ [oid] → id ≠ self) as Hn by (intros id ->%list_elem_of_singleton; done).
  destruct (hasTransport (conf s)); cbn [negb].
  - destruct (ForwardSet_owner oid it c os Hwf Hos Hin) as (c' & err & -> & Hwf' & Hf & _ & Hh).
    cbn [mbind option_bind]. exists c'. split_and!; [done..|]. intros id k. rewrite Hh. unfold after_repair.
    repeat case_decide; try done; set_solver.
  - exists c. split_and!; [done..|]. intros id k. unfold after_repair. repeat case_decide; try done; set_solver.
Qed.

Lemma repairLocalReplica_ok self it c t :
  cluster_wf r c → is_Some (servers c !! self) →
  ∃ c', repairLocalReplica sum64 self (Key it) it c = Some c' ∧ cluster_wf r c' ∧ frame c c' ∧
    ∀ id k, holds c' id k = after_repair t self [self] it c id k.
Proof.
  intros Hwf Hs. unfold repairLocalReplica. rewrite localGet_ok by done. cbn [mbind option_bind].
  assert (local_repair it (holds c self (Key it)) = Some it →
    ∃ c', applySet sum64 self it false c = Some c' ∧ cluster_wf r c' ∧ frame c c' ∧
      ∀ id k, holds c' id k = after_repair t self [self] it c id k) as Hset.
  { intros El. destruct (applySet_local self it c Hwf Hs) as (c' & -> & Hwf' & Hf & Hh). exists c'. split_and!; [done..|].
    intros id k. rewrite Hh. unfold after_repair. repeat case_decide; try done; try set_solver; destruct_and!; by subst. }
  assert (local_repair it (holds c self (Key it)) = holds c self (Key it) →
    ∀ id k, holds c id k = after_repair t self [self] it c id k) as Hkeep.
  { intros El id k. unfold after_repair. repeat case_decide; try done; destruct_and!; [by subst|set_solver]. }
  destruct (holds c self (Key it)) as [mine|] eqn:Em; [|by apply Hset].
  cbn in Hset, Hkeep. unfold isStale. case_decide as Hp.
  - replace (_ || _) with true; [by apply Hset|]. destruct Hp as [?|[-> ->]]; [|by rewrite Z.eqb_refl, orb_true_r].
    symmetry. apply orb_true_iff. left. by apply Z.ltb_lt.
  - replace (_ || _) with false; [exists c; split_and!; [done..|by apply Hkeep]|].
    symmetry. apply orb_false_iff. unfold precedes in Hp. split; [apply Z.ltb_ge; lia|].
    destruct (Z.eqb_spec (Version mine) (Version it)); [|done]. cbn. destruct (str_ltb _ _); [|done]. tauto.
Qed.

Lemma after_repair_frame t self l it c c1 id k :
  frame c c1 → holds c1 id k = holds c id k → after_repair t self l it c1 id k = after_repair t self l it c id k.
Proof.
  intros Hf E. unfold after_repair. rewrite E. pose proof (frame_reachable c c1 id Hf) as Hre.
  case_decide; [|done]. case_decide; [done|].
  destruct (decide (t = true ∧ reachable c1 id)), (decide (t = true ∧ reachable c id)); naive_solver.
Qed.

(** Repairing one owner and then others is repairing them all. *)
Lemma after_repair_cons t self oid l it c c1 id k :
  frame c c1 → (∀ id k, holds c1 id k = after_repair t self [oid] it c id k) →
  after_repair t self l it c1 id k = after_repair t self (oid :: l) it c id k.
Proof.
  intros Hf Hh. destruct (decide (k = Key it ∧ id = oid)) as [[-> ->]|Hn].
  - unfold after_repair at 1. rewrite !Hh. unfold after_repair.
    rewrite !(decide_True (P := Key it = Key it ∧ oid ∈ [oid])) by (split; [done|by left]).
    rewrite !(decide_True (P := Key it = Key it ∧ oid ∈ oid :: l)) by (split; [done|by left]).
    pose proof (frame_reachable c c1 oid Hf) as Hre.
    destruct (decide (oid = self)) as [->|]; [case_decide; [apply local_repair_idem|done]|].
    repeat case_decide; try done; destruct_and!; naive_solver.
  - rewrite (after_repair_frame t self l it c c1 id k Hf).
    + unfold after_repair. repeat case_decide; try done; set_solver.
    + rewrite Hh. unfold after_repair. rewrite decide_False; [done|set_solver].
Qed.

Lemma repairStaleOwners_ok self it os stale : ∀ c s,
  cluster_wf r c → servers c !! self = Some s → Lookup sum64 (Key it) r = Some os →
  (∀ x, x ∈ stale → x ∈ os) →
  ∃ c', repairStaleOwners sum64 self it stale c = Some c' ∧ cluster_wf r c' ∧ frame c c' ∧
    ∀ id k, holds c' id k = after_repair (hasTransport (conf s)) self (filter (λ x, x ≠ self) stale) it c id k.
Proof.
  induction stale as [|oid stale IH]; intros c s Hwf Hs Hos Hst; cbn [repairStaleOwners].
  { exists c. split_and!; [done..|]. intros id k. unfold after_repair. rewrite decide_False; [done|set_solver]. }
  assert (∀ x, x ∈ stale → x ∈ os) as Hst' by (intros x Hx; apply Hst; by right).
  rewrite filter_cons. case_decide as E; [rewrite decide_False by (intros ?; done); by apply IH|].
  rewrite decide_True by done.
  destruct (repairRemoteReplica_ok self it oid c os s Hwf Hs Hos) as (c1 & -> & Hwf1 & Hf1 & Hh1); [apply Hst; by left|done|].
  cbn [mbind option_bind]. destruct (frame_server _ _ _ _ Hf1 Hs) as (s1 & Hs1 & Ec & _).
  destruct (IH c1 s1 Hwf1 Hs1 Hos Hst') as (c' & -> & Hwf' & Hf' & Hh').
  exists c'. split_and!; [done|done|by etrans|]. intros id k. rewrite Hh', Ec. by apply after_repair_cons.
Qed.

Lemma repairReplicas_ok self it os l : ∀ c s,
  cluster_wf r c → servers c !! self = Some s → Lookup sum64 (Key it) r = Some os →
  (∀ x, x ∈ l → x ∈ os) →
  ∃ c', repairReplicas sum64 self (Key it) it l c = Some c' ∧ cluster_wf r c' ∧ frame c c' ∧
    ∀ id k, holds c' id k = after_repair (hasTransport (conf s)) self l it c id k.
Proof.
  induction l as [|oid l IH]; intros c s Hwf Hs Hos Hl; cbn [repairReplicas].
  { exists c. split_and!; [done..|]. intros id k. unfold after_repair. rewrite decide_False; [done|set_solver]. }
  assert (∃ c1, (if decide (oid = self) then repairLocalReplica sum64 self (Key it) it c
      else repairRemoteReplica sum64 self it oid c) = Some c1 ∧ cluster_wf r c1 ∧ frame c c1 ∧
    ∀ id k, holds c1 id k = after_repair (hasTransport (conf s)) self [oid] it c id k) as (c1 & -> & Hwf1 & Hf1 & Hh1).
  { case_decide as E; [subst; apply repairLocalReplica_ok; [done|by eexists]|].
    apply (repairRemoteReplica_ok self it oid c os s Hwf Hs Hos); [apply Hl; by left|done]. }
  cbn [mbind option_bind]. destruct (frame_server _ _ _ _ Hf1 Hs) as (s1 & Hs1 & Ec & _).
  destruct (IH c1 s1 Hwf1 Hs1 Hos) as (c' & -> & Hwf' & Hf' & Hh'); [intros x Hx; apply Hl; by right|].
  exists c'. split_and!; [done|done|by etrans|]. intros id k. rewrite Hh', Ec. by apply after_repair_cons.
Qed.

(** A repair of some of the other owners changes nothing for a repair of all. *)
Lemma after_repair_absorbs t self l1 l2 it c c1 id k :
  frame c c1 → (∀ x, x ∈ l1 → x ∈ l2 ∧ x ≠ self) →
  (∀ id k, holds c1 id k = after_repair t self l1 it c id k) →
  after_repair t self l2 it c1 id k = after_repair t self l2 it c id k.
Proof.
  intros Hf Hl Hh. destruct (decide (k = Key it ∧ id ∈ l1)) as [[-> Hin]|Hn].
  - destruct (Hl id Hin) as [Hin2 Hne]. pose proof (frame_reachable c c1 id Hf) as Hre.
    unfold after_repair at 1 2. rewrite !Hh. unfold after_repair.
    rewrite !(decide_True (P := Key it = Key it ∧ _)) by done. rewrite !(decide_False (P := id = self)) by done.
    repeat case_decide; try done; destruct_and!; naive_solver.
  - apply after_repair_frame; [done|]. rewrite Hh. unfold after_repair. by rewrite decide_False.
Qed.

(** ** Consistent reads *)

Lemma answer_key t c self k oid it : cluster_wf r c → answer t c self k oid = Some it → Key it = k.
Proof.
  intros Hwf. assert (∀ id, holds c id k = Some it → Key it = k) as H.
  { intros id. unfold holds. destruct (servers c !! id) as [s|] eqn:E; [|done]. cbn. apply (Hwf _ _ E). }
  unfold answer. repeat case_decide; try done; apply H.
Qed.

Lemma requiredAcks_pos n lvl : (0 < n)%Z → (0 < requiredAcks n lvl)%Z.
Proof. intros Hn. destruct lvl; cbn; try lia. pose proof (Z.quot_pos n 2). lia. Qed.

Definition read_needs (s : Server) (os : list string) : Z :=
  requiredAcks (Z.of_nat (length os)) (readConsistency (conf s)).

Lemma getWithConsistency_ok self k os order c s :
  cluster_wf r c → servers c !! self = Some s → Lookup sum64 k r = Some os → os ≠ [] → order ≡ₚ os →
  let ans := answer (hasTransport (conf s)) c self k in
  ∃ c' res, getWithConsistency sum64 self k os order c = Some (c', res) ∧
    match res with
    | None => c' = c ∧ (Z.of_nat (length (filter (λ id, is_Some (ans id)) os)) < read_needs s os)%Z
    | Some it =>
        Key it = k ∧
        (∃ R, NoDup R ∧ (∀ x, x ∈ R → x ∈ os) ∧ (read_needs s os ≤ Z.of_nat (length R))%Z ∧
          (∃ id, id ∈ R ∧ ans id = Some it) ∧
          ∀ id, id ∈ R → ∃ x, ans id = Some x ∧ (Version x ≤ Version it)%Z) ∧
        cluster_wf r c' ∧ frame c c' ∧
        ∀ id k', holds c' id k' = after_repair (hasTransport (conf s)) self os it c id k'
    end.
Proof.
  intros Hwf Hs Hos Hne Hord ans. unfold getWithConsistency. rewrite Hs. cbn [mbind option_bind].
  fold (read_needs s os). set (needed := read_needs s os).
  assert (0 < needed)%Z as Hpos by (apply requiredAcks_pos; destruct os; [done|simpl; lia]).
  destruct (Lookup_total sum64 k r) as (os' & Eo & Hnd & _). assert (os' = os) as -> by congruence.
  destruct (collectQuorum_ok self k needed c s order None 0 [] Hwf Hs) as ([[chosen acks] stale] & R & -> & Hc & Hst).
  fold ans in Hc. destruct Hc as [H1 H2 H3 _ H5 H6]. cbn [fst snd] in *. cbn [mbind option_bind].
  assert (∀ x, x ∈ R → x ∈ os) as HR.
  { intros x Hx. rewrite <- Hord. by eapply sublist_submseteq, elem_of_submseteq in H1. }
  assert (NoDup R) as HRn by (eapply sublist_NoDup; [|exact H1]; by rewrite Hord).
  assert (length (filter (λ id, is_Some (ans id)) order) = length (filter (λ id, is_Some (ans id)) os)) as El
    by (by rewrite Hord).
  destruct chosen as [it|].
  2:{ eexists _, None. split; [done|]. split; [done|]. assert (R = []) as ->.
      { destruct R as [|x R]; [done|]. destruct (H3 x) as (? & ? & _ & [=] & _); by left. }
      rewrite <- El, <- H6; simpl in *; lia. }
  destruct (Z.ltb_spec acks needed) as [Hlt|Hge].
  { eexists _, None. split; [done|]. split; [done|]. rewrite <- El, <- H6; lia. }
  destruct (H5 it eq_refl) as [[=]|(id0 & Hid0 & Ha0)].
  assert (Key it = k) as Ek by (by eapply answer_key). subst k.
  destruct (repairStaleOwners_ok self it os stale c s Hwf Hs Hos) as (c1 & -> & Hwf1 & Hf1 & Hh1).
  { intros x Hx. destruct (Hst x Hx) as [Hn|Hx']; [by apply elem_of_nil in Hn|by rewrite <- Hord]. }
  cbn [mbind option_bind]. destruct (frame_server _ _ _ _ Hf1 Hs) as (s1 & Es1 & Ec & _).
  destruct (repairReplicas_ok self it os os c1 s1 Hwf1 Es1 Hos) as (c2 & -> & Hwf2 & Hf2 & Hh2); [auto|].
  cbn [mbind option_bind]. exists c2, (Some it). split; [done|]. split; [done|]. split.
  { exists R. split_and!; [done|done|lia|by exists id0|].
    intros id Hid. destruct (H3 id Hid) as (x & y & Hx & [= <-] & Hle). eauto. }
  split_and!; [done|by etrans|]. intros id k'. rewrite Hh2, Ec. eapply after_repair_absorbs; [done| |done].
  intros x [Hx1 Hx2]%list_elem_of_filter. split; [|done].
  destruct (Hst x Hx2) as [Hn|Hx']; [by apply elem_of_nil in Hn|by rewrite <- Hord].
Qed.

(** A quorum read is no older than what a majority of the owners stores. *)
Lemma majority_read self k os order c s v c' it :
  cluster_wf r c → servers c !! self = Some s → Lookup sum64 k r = Some os → os ≠ [] → order ≡ₚ os →
  readConsistency (conf s) = ConsistencyQuorum →
  (requiredAcks (Z.of_nat (length os)) ConsistencyQuorum ≤ Z.of_nat (length (fresh_owners c k v os)))%Z →
  getWithConsistency sum64 self k os order c = Some (c', Some it) → (v ≤ Version it)%Z.
Proof.
  intros Hwf Hs Hos Hne Hord Hlvl Hmaj Hget.
  destruct (getWithConsistency_ok self k os order c s Hwf Hs Hos Hne Hord) as (c'' & res & E & Hres).
  rewrite Hget in E. injection E as <- <-.
  destruct Hres as (_ & (R & HRn & HR & Hlen & _ & Hans) & _). unfold read_needs in Hlen. rewrite Hlvl in Hlen.
  destruct (Lookup_total sum64 k r) as (os' & Eo & Hnd & _). assert (os' = os) as -> by congruence.
  pose proof (requiredAcks_quorum (Z.of_nat (length os)) ltac:(lia)).
  destruct (quorums_meet R (fresh_owners c k v os) os) as (x & Hx1 & Hx2); [done| |done| |lia|].
  { unfold fresh_owners. by apply NoDup_filter. }
  { intros x [_ ?]%list_elem_of_filter. done. }
  destruct (Hans x Hx1) as (y & Hy & Hle). apply list_elem_of_filter in Hx2 as [Hx2 _].
  assert (holds c x k = Some y) as E. { unfold answer in Hy. repeat case_decide; congruence. }
  rewrite E in Hx2. cbn in Hx2. lia.
Qed.

(** What a write that is not forwarded leaves behind. *)
Lemma setImpl_primary self now it os p c s :
  cluster_wf r c → servers c !! self = Some s → Lookup sum64 (Key it) r = Some os → head os = Some p →
  draining s = false → hasTransport (conf s) = true → p = self ∨ (¬ reachable c p ∧ self ∈ tail os) →
  let v := u64 (versionCounter (node s) + 1) in
  ∃ c1 err, setImpl sum64 jsonLen self now it c = Some (c1, err) ∧ cluster_wf r c1 ∧ frame c c1 ∧
    (err = None ∨ err = Some ErrQuorumFailed) ∧
    (∀ id k, ¬ reachable c id → id ≠ self → holds c1 id k = holds c id k) ∧
    (err = None → (requiredAcks (Z.of_nat (length os)) (writeConsistency (conf s)) ≤
      Z.of_nat (length (filter (λ id, holds c1 id (Key it) = Some (stamp now v self it)) os)))%Z).
Proof.
  intros Hwf Hs Hos Hp Hd Ht Hpath v. destruct os as [|p' os]; [done|]. injection Hp as ->.
  pose proof (Hwf _ _ Hs) as Hsw. destruct (Lookup_total sum64 (Key it) r) as (os' & Eo & Hnd & _).
  assert (os' = p :: os) as -> by congruence. clear Eo.
  assert (∃ promoted, setImpl sum64 jsonLen self now it c =
      setPrimary sum64 jsonLen self now it (p :: os) promoted c ∧ self ∈ p :: os) as (promoted & E & Hself).
  { unfold setImpl. rewrite Hs. cbn [mbind option_bind]. rewrite Hd. unfold lookupOwners.
    rewrite (sw_ring _ _ _ Hsw), Hos. cbn [mbind option_bind]. case_decide as E.
    - exists false. split; [done|]. subst. by left.
    - exists true. destruct Hpath as [?|[Hnr Hin]]; [done|]. cbn in Hin. split; [|by right].
      unfold handleForwardPrimary. rewrite Hs. cbn [mbind option_bind]. rewrite Ht. cbn [negb head mbind option_bind].
      unfold ForwardSet. destruct (lookup_ p c) as [b|] eqn:El; [destruct Hnr; by exists b|].
      cbn [mbind option_bind]. rewrite (owns_owner _ self s (p :: os) Hsw Hos) by (by right).
      cbn [mbind option_bind tail]. rewrite bool_decide_eq_true_2 by done. done. }
  rewrite E. clear E.
  destruct (setPrimary_ok self now it (p :: os) promoted c s Hwf Hs Hos) as (c1 & -> & Hwf1 & Hf1 & Hh).
  fold v in Hh. set (stored := targets s c self promoted (p :: os)) in *.
  eexists _, _. split; [done|]. split; [done|]. split; [done|]. split; [case_match; auto|]. split.
  { intros id k Hn Hne. rewrite Hh, decide_False; [done|]. intros [[?|Hin] _]; [done|]. subst stored.
    unfold targets in Hin. rewrite Ht in Hin. by apply list_elem_of_filter in Hin as [[_ ?] _]. }
  destruct (Z.ltb_spec (1 + Z.of_nat (length stored))
    (requiredAcks (Z.of_nat (length (p :: os))) (writeConsistency (conf s)))) as [?|Hge]; [done|]. intros _.
  assert (NoDup (self :: stored) ∧ ∀ x, x ∈ stored → x ∈ p :: os) as [Hnd' Hsub].
  { subst stored. unfold targets. rewrite Ht. unfold reached. split.
    - apply NoDup_cons. split; [intros [[? _] _]%list_elem_of_filter; done|].
      apply NoDup_filter. destruct promoted; [done|]. by apply NoDup_cons in Hnd as [_ ?].
    - intros x [_ Hx]%list_elem_of_filter. destruct promoted; [done|]. by right. }
  assert (length (self :: stored) ≤
    length (filter (λ id, holds c1 id (Key it) = Some (stamp now v self it)) (p :: os))) as Hcount.
  { apply count_sublist; [done|]. intros x [->|Hx]%elem_of_cons.
    - split; [done|]. rewrite Hh, decide_True; [done|]. auto.
    - split; [by apply Hsub|]. rewrite Hh, decide_True; [done|]. auto. }
  cbn [length] in Hcount. lia.
Qed.

(** Above consistency ONE a Get is a read of the owners in some order. *)
Lemma getImpl_consistent arrival self k os c s :
  cluster_wf r c → servers c !! self = Some s → Lookup sum64 k r = Some os → os ≠ [] →
  readConsistency (conf s) ≠ ConsistencyOne → (∀ l, arrival l ≡ₚ l) →
  ∃ order, order ≡ₚ os ∧ getImpl sum64 arrival self k c = getWithConsistency sum64 self k os order c.
Proof.
  intros Hwf Hs Hos Hne Hrd Harr. unfold getImpl. rewrite Hs. cbn [mbind option_bind].
  rewrite (decide_False (P := readConsistency (conf s) = ConsistencyOne)) by done.
  cbn [mbind option_bind]. unfold lookupOwners. rewrite (sw_ring _ _ _ (Hwf _ _ Hs)), Hos.
  cbn [mbind option_bind]. rewrite (decide_False (P := os = [])) by done.
  rewrite (decide_False (P := readConsistency (conf s) = ConsistencyOne)) by done.
  destruct (parallelReads (conf s)); eauto.
Qed.



(** ** A write that is lost *)

(** A sequential read takes the first owner's answer into account. *)
Lemma head_counts self k os p c s old c' it :
  cluster_wf r c → servers c !! self = Some s → head os = Some p →
  answer (hasTransport (conf s)) c self k p = Some old →
  getWithConsistency sum64 self k os os c = Some (c', Some it) → (Version old ≤ Version it)%Z.
Proof.
  intros Hwf Hs Hp Ha. destruct os as [|p' os]; [done|]. injection Hp as ->. unfold getWithConsistency.
  rewrite Hs. cbn [mbind option_bind collectQuorum]. rewrite (fetchOwner_ok c self k p s Hwf Hs), Ha.
  set (needed := requiredAcks _ _). cbn [mbind option_bind chooseNewer].
  rewrite (bool_decide_eq_true_2 (Some old ≠ None)) by done. rewrite andb_true_r.
  set (stale := if bool_decide _ then _ else _).
  assert (∀ chosen acks st, (match chosen with
      | Some it => if (acks <? needed)%Z then Some (c, None)
          else c ← repairStaleOwners sum64 self it st c; c ← repairReplicas sum64 self k it (p :: os) c; Some (c, Some it)
      | None => Some (c, None) end) = Some (c', Some it) → chosen = Some it) as Hret.
  { intros [ch|] acks st; [|done]. case_match; [done|]. destruct (repairStaleOwners _ _ _ _ _) as [c1|]; [|done].
    cbn [mbind option_bind]. destruct (repairReplicas _ _ _ _ _ _); [|done]. cbn [mbind option_bind]. congruence. }
  case_match; cbn [mbind option_bind].
  - intros E. apply (Hret (Some old)) in E. injection E as ->. lia.
  - destruct (collectQuorum_ok self k needed c s os (Some old) (0 + 1)%Z stale Hwf Hs)
      as ([[chosen acks] st] & R & -> & [_ _ _ Hg _ _] & _). cbn [mbind option_bind fst snd] in *.
    intros E. apply Hret in E. destruct (Hg old eq_refl) as (y & Ey & Hy). rewrite E in Ey. by injection Ey as ->.
Qed.


(** ** Forwarded writes *)

Lemma fanOutSet_ok self it os l : ∀ c,
  cluster_wf r c → Lookup sum64 (Key it) r = Some os → (∀ x, x ∈ l → x ∈ os) →
  ∃ c', fanOutSet sum64 self l it c = Some c' ∧ cluster_wf r c' ∧ frame c c' ∧
    ∀ id k, holds c' id k = if decide (id ∈ reached c self l ∧ k = Key it) then Some it else holds c id k.
Proof.
  induction l as [|oid l IH]; intros c Hwf Hos Hl; cbn [fanOutSet].
  { exists c. split_and!; [done|done|done|]. intros id k. rewrite decide_False; [done|].
    intros [H _]. by apply elem_of_nil in H. }
  assert (∀ x, x ∈ l → x ∈ os) as Hl' by (intros x Hx; apply Hl; by right).
  rewrite reached_cons. case_decide as E.
  { rewrite decide_False by tauto. by apply IH. }
  destruct (ForwardSet_owner oid it c os Hwf Hos) as (c1 & err & E1 & Hwf1 & Hf1 & _ & Hh1); [apply Hl; by left|].
  assert (deliverSet sum64 oid it c = Some (c1, err)) as ->.
  { rewrite <- E1. unfold deliverSet, ForwardSet. destruct (lookup_ oid c) as [b|] eqn:El; [|done].
    assert (servers c !! oid = Some b) as Hb by (unfold lookup_ in El; by case_decide).
    rewrite (owns_owner _ oid b os (Hwf _ _ Hb) Hos) by (apply Hl; by left). cbn [mbind option_bind].
    unfold applySet. destruct (storeAt_ok oid it c Hwf) as (c0 & -> & _ & Hf0 & _); [by eexists|].
    cbn [mbind option_bind]. destruct (frame_server _ _ _ _ Hf0 Hb) as (b' & -> & _). done. }
  cbn [mbind option_bind]. destruct (IH c1 Hwf1 Hos Hl') as (c' & -> & Hwf' & Hf' & Hh').
  exists c'. split_and!; [done|done|by etrans|]. intros id k.
  rewrite Hh', (reached_frame c c1 self l Hf1), Hh1. repeat case_decide; set_solver.
Qed.

(** Storing at a node leaves every hint queue alone. *)
Definition same_hints (c c' : Cluster) : Prop :=
  ∀ id, hintq <$> servers c' !! id = hintq <$> servers c !! id.

Lemma storeAt_hints id it c c' : storeAt sum64 id it c = Some c' → same_hints c c'.
Proof.
  unfold storeAt, onNode. intros (s & Hs & (dm & _ & [= <-])%bind_Some)%bind_Some id'.
  rewrite putNode_lookup. case_decide; [|done]. subst. by rewrite Hs.
Qed.

Lemma fanOutSet_hints self it l : ∀ c c', fanOutSet sum64 self l it c = Some c' → same_hints c c'.
Proof.
  induction l as [|oid l IH]; intros c c' H; cbn [fanOutSet] in H; [by simplify_eq|].
  case_decide; [by apply IH|]. apply bind_Some in H as ([c1 err] & H1 & H2). apply IH in H2.
  intros id. rewrite H2. unfold deliverSet in H1. destruct (lookup_ oid c); [|by simplify_eq].
  apply bind_Some in H1 as ([] & _ & H1); [|by simplify_eq].
  apply bind_Some in H1 as (c0 & H1 & [= <- <-]). by apply storeAt_hints in H1.
Qed.

Lemma reachable_tail os p c id :
  NoDup (p :: os) → id ∈ p :: os → reachable c id → id = p ∨ id ∈ reached c p os.
Proof.
  intros [Hp _]%NoDup_cons [->|Hin]%elem_of_cons Hre; [by left|right]. apply list_elem_of_filter.
  split; [|done]. split; [|done]. intros ->. done.
Qed.

(** A forwarded write with replication, on the key's primary: every reachable owner
    stores the item. *)
Lemma ForwardSet_primary it os p c b :
  cluster_wf r c → Lookup sum64 (Key it) r = Some (p :: os) → reachable c p → servers c !! p = Some b →
  hasTransport (conf b) = true →
  ∃ c', ForwardSet sum64 p it true c = Some (c', None) ∧ cluster_wf r c' ∧ frame c c' ∧ same_hints c c' ∧
    ∀ id k, holds c' id k = if decide (id ∈ p :: os ∧ reachable c id ∧ k = Key it) then Some it else holds c id k.
Proof.
  intros Hwf Hos Hre Hb Htb. pose proof (Hwf _ _ Hb) as Hbw.
  destruct (Lookup_total sum64 (Key it) r) as (os' & Eo & Hnd & _). assert (os' = p :: os) as -> by congruence.
  destruct (storeAt_ok p it c Hwf) as (c1 & E1 & Hwf1 & Hf1 & Hh1); [by eexists|].
  destruct (frame_server _ _ _ _ Hf1 Hb) as (b1 & Hb1 & Ecb & _).
  destruct (fanOutSet_ok p it (p :: os) os c1 Hwf1 Hos) as (c2 & E2 & Hwf2 & Hf2 & Hh2); [by right|].
  assert (applySet sum64 p it true c = Some c2) as Ea.
  { unfold applySet. rewrite E1. cbn [mbind option_bind]. rewrite Hb1. cbn [mbind option_bind].
    rewrite (sw_ring _ _ _ (Hwf1 _ _ Hb1)), Hos. cbn [mbind option_bind]. rewrite Ecb, Htb. cbn [negb].
    rewrite orb_false_r. destruct os as [|o os]; [|exact E2]. exact E2. }
  destruct (reachable_server _ _ Hre) as (b' & _ & El).
  assert (b' = b) as -> by (unfold lookup_ in El; case_decide; congruence).
  exists c2. split_and!; [|done|by etrans| |].
  - unfold ForwardSet. rewrite El. rewrite (owns_owner _ p b (p :: os) Hbw Hos) by (by left).
    cbn [mbind option_bind]. rewrite Ea. done.
  - intros id. rewrite (fanOutSet_hints _ _ _ _ _ E2), (storeAt_hints _ _ _ _ E1). done.
  - intros id k. rewrite Hh2, Hh1, (reached_frame c c1 p os Hf1).
    destruct (decide (id ∈ p :: os ∧ reachable c id ∧ k = Key it)) as [(Hin & Hr & ->)|Hn].
    + destruct (reachable_tail os p c id Hnd Hin Hr) as [->|?].
      * case_decide; [done|]. by rewrite decide_True.
      * by rewrite decide_True.
    + rewrite !decide_False; [done|..].
      * intros [-> ->]. apply Hn. split; [by left|done].
      * intros [[[_ ?] ?]%list_elem_of_filter ->]. apply Hn. split; [by right|done].
Qed.

(** A Set on a node that is not the key's primary hands the item to the primary
    and succeeds whatever the write consistency level is and however many owners
    are reachable: no version is assigned, the reachable owners store the item as
    the caller passed it, and no hint is queued for the others. *)
Theorem forwarded_set_outcome self now it os p c s b :
  cluster_wf r c → servers c !! self = Some s → Lookup sum64 (Key it) r = Some os → head os = Some p →
  draining s = false → hasTransport (conf s) = true → p ≠ self → reachable c p →
  servers c !! p = Some b → hasTransport (conf b) = true →
  ∃ c', setImpl sum64 jsonLen self now it c = Some (c', None) ∧ frame c c' ∧
    (∀ id, hintq <$> servers c' !! id = hintq <$> servers c !! id) ∧
    ∀ id k, holds c' id k = if decide (id ∈ os ∧ reachable c id ∧ k = Key it) then Some it else holds c id k.
Proof.
  intros Hwf Hs Hos Hp Hd Ht Hne Hre Hb Htb. destruct os as [|p' os]; [done|]. injection Hp as ->.
  pose proof (Hwf _ _ Hs) as Hsw.
  destruct (ForwardSet_primary it os p c b Hwf Hos Hre Hb Htb) as (c2 & E2 & _ & Hf2 & Hq2 & Hh2).
  exists c2. split_and!; [|done..]. unfold setImpl. rewrite Hs. cbn [mbind option_bind]. rewrite Hd.
  unfold lookupOwners. rewrite (sw_ring _ _ _ Hsw), Hos. cbn [mbind option_bind]. rewrite decide_False by done.
  unfold handleForwardPrimary. rewrite Hs. cbn [mbind option_bind]. rewrite Ht. cbn [negb head mbind option_bind].
  rewrite E2. done.
Qed.

(** ** Removals *)

Lemma fanOutRemove_ok self now k l : ∀ c,
  cluster_wf r c →
  ∃ c', fanOutRemove self now l k c = Some c' ∧ cluster_wf r c' ∧ frame c c' ∧
    ∀ id k', holds c' id k' = if decide (id ∈ reached c self l ∧ k' = k) then None else holds c id k'.
Proof.
  induction l as [|oid l IH]; intros c Hwf; cbn [fanOutRemove].
  { exists c. split_and!; [done|done|done|]. intros id k'. rewrite decide_False; [done|].
    intros [H _]. by apply elem_of_nil in H. }
  rewrite reached_cons. case_decide as E.
  { rewrite decide_False by tauto. by apply IH. }
  assert (∃ c1 err, deliverRemove oid now k c = Some (c1, err) ∧ cluster_wf r c1 ∧ frame c c1 ∧
    ∀ id k', holds c1 id k' = if decide (reachable c oid ∧ id = oid ∧ k' = k) then None else holds c id k')
    as (c1 & err & -> & Hwf1 & Hf1 & Hh1).
  { unfold deliverRemove. destruct (decide (reachable c oid)) as [Hre|Hre].
    - destruct (reachable_server _ _ Hre) as (b & Hb & ->).
      destruct (removeAt_ok oid now k c Hwf) as (c1 & -> & Hwf1 & Hf1 & Hh1); [by eexists|].
      cbn [mbind option_bind]. eexists _, _. split_and!; [done|done|done|]. intros id k'. rewrite Hh1.
      repeat case_decide; tauto.
    - destruct (lookup_ oid c) as [b|] eqn:El; [destruct Hre; by exists b|].
      eexists _, _. split_and!; [done|done|done|]. intros id k'. by rewrite decide_False by tauto. }
  cbn [mbind option_bind]. destruct (IH c1 Hwf1) as (c' & -> & Hwf' & Hf' & Hh').
  exists c'. split_and!; [done|done|by etrans|]. intros id k'.
  rewrite Hh', (reached_frame c c1 self l Hf1), Hh1. repeat case_decide; set_solver.
Qed.

Lemma applyRemove_ok self now k os c s :
  cluster_wf r c → servers c !! self = Some s → hasTransport (conf s) = true → Lookup sum64 k r = Some os →
  ∃ c', applyRemove sum64 self now k true c = Some c' ∧ cluster_wf r c' ∧ frame c c' ∧
    ∀ id k', holds c' id k' =
      if decide ((id = self ∨ id ∈ reached c self (tail os)) ∧ k' = k) then None else holds c id k'.
Proof.
  intros Hwf Hs Ht Hos. unfold applyRemove.
  destruct (removeAt_ok self now k c Hwf) as (c1 & -> & Hwf1 & Hf1 & Hh1); [by eexists|]. cbn [mbind option_bind].
  destruct (frame_server _ _ _ _ Hf1 Hs) as (s1 & Hs1 & Ec & _). rewrite Hs1. cbn [mbind option_bind].
  rewrite (sw_ring _ _ _ (Hwf1 _ _ Hs1)), Ec, Ht, Hos. cbn [mbind option_bind].
  destruct (fanOutRemove_ok self now k (tail os) c1 Hwf1) as (c2 & E & Hwf2 & Hf2 & Hh2).
  exists c2. split_and!; [by destruct os as [|? [|? ?]]|done|by etrans|]. intros id k'.
  rewrite Hh2, Hh1, (reached_frame c c1 self (tail os) Hf1). repeat case_decide; set_solver.
Qed.

(** The effect of a removal run by the owner [e], which is the primary or replaces
    an unreachable one. *)
Lemma remove_by e now k p os c b :
  cluster_wf r c → Lookup sum64 k r = Some (p :: os) →
  (∀ id b, servers c !! id = Some b → hasTransport (conf b) = true) →
  e ∈ p :: os → servers c !! e = Some b → (e ≠ p → ¬ reachable c p) →
  ∃ c', applyRemove sum64 e now k true c = Some c' ∧ frame c c' ∧
    (∀ o, o ∈ p :: os → reachable c o → holds c' o k = None) ∧ holds c' e k = None ∧
    (∀ id k', k' ≠ k ∨ id ∉ p :: os → holds c' id k' = holds c id k').
Proof.
  intros Hwf Hos Ht He Hb Hep. destruct (applyRemove_ok e now k (p :: os) c b Hwf Hb (Ht _ _ Hb) Hos)
    as (c' & -> & _ & Hf & Hh). exists c'. cbn [tail] in Hh. split_and!; [done|done|..].
  - intros o Ho Hre. rewrite Hh, decide_True; [done|]. split; [|done].
    destruct (decide (o = e)); [by left|right]. apply list_elem_of_filter. split; [done|].
    apply elem_of_cons in Ho as [->|?]; [|done]. destruct Hep; [congruence|done].
  - rewrite Hh, decide_True; [done|]. auto.
  - intros id k' Hn. rewrite Hh, decide_False; [done|].
    intros [[->|[_ Hin]%list_elem_of_filter] ->]; set_solver.
Qed.

(** Remove of a key on any node succeeds exactly when the node is the primary,
    or reaches it, or is itself a replica; when it succeeds, no reachable owner
    still holds the key, nor does the node itself where it acted as the primary; a
    failure changes nothing, and no other key and no node that is not an owner is
    touched. *)
Theorem cluster_remove self now k os p c s :
  cluster_wf r c → servers c !! self = Some s → Lookup sum64 k r = Some os → head os = Some p →
  draining s = false → (∀ id b, servers c !! id = Some b → hasTransport (conf b) = true) →
  ∃ c' err, removeImpl sum64 self now [k] c = Some (c', err) ∧ frame c c' ∧
    (err = None ↔ p = self ∨ reachable c p ∨ self ∈ tail os) ∧
    (err ≠ None → c' = c) ∧
    (err = None → (∀ o, o ∈ os → reachable c o → holds c' o k = None) ∧
      (p = self ∨ ¬ reachable c p → holds c' self k = None)) ∧
    (∀ id k', k' ≠ k ∨ id ∉ os → holds c' id k' = holds c id k').
Proof.
  intros Hwf Hs Hos Hp Hd Ht. destruct os as [|p' os]; [done|]. injection Hp as ->.
  destruct (Lookup_total sum64 k r) as (os' & Eo & Hnd & _). assert (os' = p :: os) as -> by congruence.
  pose proof (Hwf _ _ Hs) as Hsw.
  pose proof (λ e b, remove_by e now k p os c b Hwf Hos Ht) as Hexec.
  assert (∀ c1 err, removeLoop sum64 self now [k] c = Some (c1, err) →
    removeImpl sum64 self now [k] c = Some (c1, err)) as Hloop.
  { intros c1 err E. unfold removeImpl. rewrite Hs. cbn [mbind option_bind]. by rewrite Hd. }
  cbn [removeLoop] in Hloop. rewrite Hs in Hloop. cbn [mbind option_bind] in Hloop. unfold lookupOwners in Hloop.
  rewrite (sw_ring _ _ _ Hsw), Hos in Hloop. cbn [mbind option_bind] in Hloop.
  destruct (decide (p = self)) as [->|Hne].
  { destruct (Hexec self s) as (c' & E & Hf & H1 & H2 & H3); [by left|done|done|].
    exists c', None. split; [apply Hloop; by rewrite E|]. split_and!; auto; tauto. }
  rewrite (Ht _ _ Hs) in Hloop. cbn [negb] in Hloop. unfold forwardOrPromoteRemove, ForwardRemove in Hloop.
  cbn [head mbind option_bind] in Hloop. destruct (decide (reachable c p)) as [Hre|Hre].
  { destruct (reachable_server _ _ Hre) as (b & Hb & El). rewrite El in Hloop.
    destruct (Hexec p b) as (c' & E & Hf & H1 & H2 & H3); [by left|done|done|].
    exists c', None. split; [apply Hloop; by rewrite E|]. split_and!; auto; tauto. }
  destruct (lookup_ p c) as [b|] eqn:El; [destruct Hre; by exists b|]. cbn [mbind option_bind] in Hloop.
  rewrite Hs in Hloop. cbn [mbind option_bind tail] in Hloop.
  destruct (ownsKey_Some k s (sw_ring _ _ _ Hsw)) as (owns & Eo' & Hown).
  rewrite (sw_id _ _ _ Hsw) in Hown. rewrite Eo' in Hloop.
  cbn [mbind option_bind] in Hloop. destruct (decide (self ∈ os)) as [Hin|Hin].
  - rewrite bool_decide_eq_true_2 in Hloop by done. rewrite (Hown (p :: os)) in Hloop by (done || by right).
    destruct (Hexec self s) as (c' & E & Hf & H1 & H2 & H3); [by right|done|done|].
    exists c', None. split; [apply Hloop; by rewrite E|]. split_and!; auto; tauto.
  - rewrite bool_decide_eq_false_2 in Hloop by done. cbn [andb] in Hloop.
    exists c, (Some ErrBackendNotFound). split; [by apply Hloop|]. split_and!; try done. cbn. split; [done|].
    intros [?|[?|?]]; tauto.
Qed.

End ClusterFacts.

(** ** A sample cluster *)

Definition sample_nodes_ring : Ring :=
  Build sample_sum64 sample_sort ["a"; "b"; "c"] (NewRing [WithVirtualNodes 2; WithReplication 3]).

Definition sample_conf (rd wr : ConsistencyLevel) : ServerConfig :=
  MkServerConfig rd wr false true (MkHintConfig 100 0 0 0).

Definition sample_server (id : string) : Server :=
  MkServer (freshNode id 2 0 (Some sample_nodes_ring)) (sample_conf ConsistencyQuorum ConsistencyQuorum) noHints false.

Definition sample_cluster : Cluster :=
  MkCluster (list_to_map ((λ id, (id, sample_server id)) <$> ["a"; "b"; "c"])) {["a"; "b"; "c"]}.

Definition sample_owners : list string := default [] (Lookup sample_sum64 "k" sample_nodes_ring).

Lemma sample_servers id s : servers sample_cluster !! id = Some s → s = sample_server id.
Proof.
  unfold sample_cluster. cbn [servers]. intros Hs%elem_of_list_to_map_2.
  by apply list_elem_of_fmap in Hs as (x & [= -> ->] & _).
Qed.

Lemma sample_cluster_wf : cluster_wf sample_nodes_ring sample_cluster.
Proof.
  intros id s ->%sample_servers.
  destruct (freshNode_ok id 2 0 (Some sample_nodes_ring)) as (Hwf & Ei & _).
  split; [done|done|done|]. cbn [node sample_server]. intros k it. by rewrite Ei, lookup_empty.
Qed.

Definition sample_value (v : string) : Item := MkItem "k" (AString v) 0 0 1 0 0 0 "".

Abbreviation sample_set := (setImpl sample_sum64 sample_json).
Abbreviation sample_get := (getImpl sample_sum64 id).

(** ** Witnesses *)

Definition sample_c1 : Cluster :=
  default sample_cluster (fst <$> sample_set "a" 1 (sample_value "x") sample_cluster).
Definition sample_c2 : Cluster := MkCluster (servers sample_c1) {["b"; "c"]}.
Definition sample_c3 : Cluster := default sample_cluster (fst <$> sample_get "c" "k" sample_c2).


(** The sample value written on [a] while [b] was unreachable. *)
Definition sample_behind : Cluster :=
  Register "b" (default sample_cluster (fst <$> sample_set "a" 1 (sample_value "x") (Unregister "b" sample_cluster))).

Lemma sample_behind_wf : cluster_wf sample_nodes_ring sample_behind.
Proof.
  destruct (setImpl_primary sample_sum64 sample_json sample_nodes_ring "a" 1 (sample_value "x") ["a"; "b"; "c"]
    "a" (Unregister "b" sample_cluster) (sample_server "a")) as (c1 & err & E & Hwf & _); try (vm_compute; reflexivity).
  - exact sample_cluster_wf.
  - by left.
  - unfold sample_behind. rewrite E. exact Hwf.
Qed.


(** Two writes on the primary [a], then one on [b] while [a] is unreachable. *)
Definition sample_old : Cluster :=
  Unregister "a" (default sample_cluster (fst <$> sample_set "a" 2 (sample_value "old") sample_c1)).
Definition sample_taken : Cluster :=
  default sample_cluster (fst <$> sample_set "b" 3 (sample_value "new") sample_old).

Lemma forwarded_set_outcome_witness :
  ∃ c', sample_set "b" 1 (sample_value "x") (Unregister "c" sample_cluster) = Some (c', None) ∧
    holds c' "a" "k" = Some (sample_value "x") ∧ holds c' "c" "k" = None.
Proof.
  destruct (forwarded_set_outcome sample_sum64 sample_json sample_nodes_ring "b" 1 (sample_value "x")
    ["a"; "b"; "c"] "a" (Unregister "c" sample_cluster) (sample_server "b") (sample_server "a"))
    as (c' & E & _ & _ & H).
  - exact sample_cluster_wf.
  - reflexivity.
  - vm_compute. reflexivity.
  - reflexivity.
  - reflexivity.
  - reflexivity.
  - discriminate.
  - exists (sample_server "a"). vm_compute. reflexivity.
  - reflexivity.
  - reflexivity.
  - exists c'. split; [exact E|]. rewrite !H. split; vm_compute; reflexivity.
Defined.

Lemma sample_c1_ok : cluster_wf sample_nodes_ring sample_c1 ∧ frame sample_cluster sample_c1.
Proof.
  destruct (setImpl_primary sample_sum64 sample_json sample_nodes_ring "a" 1 (sample_value "x") ["a"; "b"; "c"]
    "a" sample_cluster (sample_server "a")) as (c1 & err & E & Hwf & Hf & _); try (vm_compute; reflexivity).
  - apply sample_cluster_wf.
  - by left.
  - assert (sample_c1 = c1) as -> by (unfold sample_c1; rewrite E; reflexivity). exact (conj Hwf Hf).
Qed.

Lemma sample_old_wf : cluster_wf sample_nodes_ring sample_old.
Proof.
  destruct (setImpl_primary sample_sum64 sample_json sample_nodes_ring "a" 2 (sample_value "old") ["a"; "b"; "c"]
    "a" sample_c1 (default (sample_server "a") (servers sample_c1 !! "a"))) as (c1 & err & E & Hwf & _);
    try (vm_compute; reflexivity).
  - apply sample_c1_ok.
  - by left.
  - unfold sample_old. rewrite E. exact Hwf.
Qed.


Lemma cluster_remove_witness :
  ∃ c' err, removeImpl sample_sum64 "b" 2 ["k"] sample_c1 = Some (c', err) ∧ err = None ∧
    holds c' "c" "k" = None.
Proof.
  destruct (cluster_remove sample_sum64 sample_nodes_ring "b" 2 "k" ["a"; "b"; "c"] "a" sample_c1
    (default (sample_server "b") (servers sample_c1 !! "b"))) as (c' & err & E & _ & He & _ & H & _).
  - apply sample_c1_ok.
  - vm_compute. reflexivity.
  - vm_compute. reflexivity.
  - reflexivity.
  - vm_compute. reflexivity.
  - intros id b Hb. destruct sample_c1_ok as [_ [_ Hf]]. specialize (Hf id). rewrite Hb in Hf.
    destruct (servers sample_cluster !! id) as [b0|] eqn:E0; [|done]. apply sample_servers in E0 as ->.
    apply Some_inj, pair_proj in Hf as [Ec _]. rewrite Ec. reflexivity.
  - assert (reachable sample_c1 "a") as Ha by (eexists; vm_compute; reflexivity).
    assert (reachable sample_c1 "c") as Hc by (eexists; vm_compute; reflexivity).
    assert (err = None) as -> by (apply He; right; left; exact Ha).
    exists c', None. split; [exact E|]. split; [reflexivity|].
    apply (proj1 (H eq_refl) "c"); [|exact Hc]. right. right. left.
Defined.
