(* ===== verification/Pool.v ===== *)
(** * The worker pool (pool.go)

    Producers, workers, [Resize] and [Shutdown] run concurrently; the model
    interleaves their atomic steps over the channels [jobs], [quit] and [errorChan],
    the wait group and the read-write lock that serialises [Enqueue] and [Shutdown].
    A send to a closed channel, a second close and a negative wait group are
    [Panics]; a send to a full channel is [Blocked] until there is room or, for
    [jobs] and [quit], a worker takes the value directly ([Handoff]).

    [accepted] and [ran] record, for the theorems only, the jobs that were sent and
    the jobs that were run.

    The theorems: only a [Resize] that shrinks a pool after its [Shutdown] can panic;
    when [Shutdown] has stopped waiting, exactly the accepted jobs have run, once
    each; and a pool whose errors nobody reads can block in [Shutdown] for ever. *)

From stdpp Require Import base gmap strings list.
From Stdlib Require Import ZArith Lia.
From S2P Require Import Prelude.

(** A job, and whether it returns an error. *)
Record JobFunc := MkJob { job_id : nat; fails : bool }.

#[export] Instance JobFunc_eq_dec : EqDecision JobFunc.
Proof. solve_decision. Defined.

Inductive pc :=
  | EnqCall (j : JobFunc) | EnqLocked (j : JobFunc) | EnqSend (j : JobFunc) | EnqUnlock
  | SdCall | SdLocked | SdEarly | SdUnlock | SdWait | SdQuit | SdErrors
  | WSelect | WRun (j : JobFunc) | WError | WDone
  | RsCall (n : Z) | RsGrow (n : nat) | RsShrink (n : nat)
  | Return.

#[export] Instance pc_eq_dec : EqDecision pc.
Proof. solve_decision. Defined.

(** [cap] is the number of workers the pool was made with, the capacity of its three
    channels. *)
Record WorkerPool := MkPool {
  readers : gset nat; writer : option nat; closed : bool;
  workers : Z; cap : nat;
  jobs : list JobFunc; jobs_closed : bool;
  wg : Z;
  quit : nat; quit_closed : bool;
  errors : nat; errors_closed : bool;
  threads : gmap nat pc;
  accepted : list JobFunc; ran : list JobFunc }.

(** [NewWorkerPool]: the workers are threads 0 to [n]-1. *)
Definition NewWorkerPool (n : nat) : WorkerPool :=
  MkPool ∅ None false (Z.of_nat n) n [] false 0 0 false 0 false
    (list_to_map ((λ i, (i, WSelect)) <$> seq 0 n)) [] [].

Definition with_pc (tid : nat) (p : pc) (s : WorkerPool) : WorkerPool :=
  MkPool (readers s) (writer s) (closed s) (workers s) (cap s) (jobs s) (jobs_closed s) (wg s) (quit s)
    (quit_closed s) (errors s) (errors_closed s) (<[tid := p]> (threads s)) (accepted s) (ran s).
Definition with_lock (r : gset nat) (w : option nat) (s : WorkerPool) : WorkerPool :=
  MkPool r w (closed s) (workers s) (cap s) (jobs s) (jobs_closed s) (wg s) (quit s)
    (quit_closed s) (errors s) (errors_closed s) (threads s) (accepted s) (ran s).
Definition with_wg (n : Z) (s : WorkerPool) : WorkerPool :=
  MkPool (readers s) (writer s) (closed s) (workers s) (cap s) (jobs s) (jobs_closed s) n (quit s)
    (quit_closed s) (errors s) (errors_closed s) (threads s) (accepted s) (ran s).
Definition with_jobs (js : list JobFunc) (s : WorkerPool) : WorkerPool :=
  MkPool (readers s) (writer s) (closed s) (workers s) (cap s) js (jobs_closed s) (wg s) (quit s)
    (quit_closed s) (errors s) (errors_closed s) (threads s) (accepted s) (ran s).
Definition accept (j : JobFunc) (s : WorkerPool) : WorkerPool :=
  MkPool (readers s) (writer s) (closed s) (workers s) (cap s) (jobs s) (jobs_closed s) (wg s) (quit s)
    (quit_closed s) (errors s) (errors_closed s) (threads s) (accepted s ++ [j]) (ran s).
Definition finish (j : JobFunc) (s : WorkerPool) : WorkerPool :=
  MkPool (readers s) (writer s) (closed s) (workers s) (cap s) (jobs s) (jobs_closed s) (wg s) (quit s)
    (quit_closed s) (errors s) (errors_closed s) (threads s) (accepted s) (ran s ++ [j]).
Definition with_quit (n : nat) (c : bool) (s : WorkerPool) : WorkerPool :=
  MkPool (readers s) (writer s) (closed s) (workers s) (cap s) (jobs s) (jobs_closed s) (wg s) n
    c (errors s) (errors_closed s) (threads s) (accepted s) (ran s).
Definition with_errors (n : nat) (c : bool) (s : WorkerPool) : WorkerPool :=
  MkPool (readers s) (writer s) (closed s) (workers s) (cap s) (jobs s) (jobs_closed s) (wg s) (quit s)
    (quit_closed s) n c (threads s) (accepted s) (ran s).
Definition with_workers (n : Z) (s : WorkerPool) : WorkerPool :=
  MkPool (readers s) (writer s) (closed s) n (cap s) (jobs s) (jobs_closed s) (wg s) (quit s)
    (quit_closed s) (errors s) (errors_closed s) (threads s) (accepted s) (ran s).

(** [pool.closed = true; close(pool.jobs)]. *)
Definition close_jobs (s : WorkerPool) : WorkerPool :=
  MkPool (readers s) (writer s) true (workers s) (cap s) (jobs s) true (wg s) (quit s)
    (quit_closed s) (errors s) (errors_closed s) (threads s) (accepted s) (ran s).

Inductive outcome := Blocked | Panics | Next (s : WorkerPool).

Definition Enqueue (tid : nat) (p : pc) (s : WorkerPool) : outcome :=
  match p with
  | EnqCall j =>
      match writer s with
      | Some _ => Blocked
      | None => Next (with_pc tid (EnqLocked j) (with_lock ({[tid]} ∪ readers s) None s))
      end
  | EnqLocked j =>
      if closed s then Next (with_pc tid EnqUnlock s)
      else Next (with_pc tid (EnqSend j) (with_wg (wg s + 1) s))
  | EnqSend j =>
      if jobs_closed s then Panics
      else if length (jobs s) <? cap s
      then Next (with_pc tid EnqUnlock (accept j (with_jobs (jobs s ++ [j]) s)))
      else Blocked
  | EnqUnlock => Next (with_pc tid Return (with_lock (readers s ∖ {[tid]}) (writer s) s))
  | _ => Blocked
  end.

Definition Shutdown (tid : nat) (p : pc) (s : WorkerPool) : outcome :=
  match p with
  | SdCall =>
      match writer s with
      | Some _ => Blocked
      | None => if decide (readers s = ∅) then Next (with_pc tid SdLocked (with_lock ∅ (Some tid) s)) else Blocked
      end
  | SdLocked =>
      if closed s then Next (with_pc tid SdEarly s)
      else if jobs_closed s then Panics
      else Next (with_pc tid SdUnlock (close_jobs s))
  | SdEarly => Next (with_pc tid Return (with_lock (readers s) None s))
  | SdUnlock => Next (with_pc tid SdWait (with_lock (readers s) None s))
  | SdWait => if decide (wg s = 0%Z) then Next (with_pc tid SdQuit s) else Blocked
  | SdQuit => if quit_closed s then Panics else Next (with_pc tid SdErrors (with_quit (quit s) true s))
  | SdErrors => if errors_closed s then Panics else Next (with_pc tid Return (with_errors (errors s) true s))
  | _ => Blocked
  end.

(** [choice] is the ready case that [select] takes. *)
Definition worker (tid : nat) (choice : bool) (p : pc) (s : WorkerPool) : outcome :=
  match p with
  | WSelect =>
      if choice then
        match jobs s with
        | j :: js => Next (with_pc tid (WRun j) (with_jobs js s))
        | [] => if jobs_closed s then Next (with_pc tid Return s) else Blocked
        end
      else
        match quit s with
        | S n => Next (with_pc tid Return (with_quit n (quit_closed s) s))
        | 0 => if quit_closed s then Next (with_pc tid Return s) else Blocked
        end
  | WRun j => Next (with_pc tid (if fails j then WError else WDone) (finish j s))
  | WError =>
      if errors_closed s then Panics
      else if errors s <? cap s then Next (with_pc tid WDone (with_errors (S (errors s)) false s))
      else Blocked
  | WDone => if (wg s - 1 <? 0)%Z then Panics else Next (with_pc tid WSelect (with_wg (wg s - 1) s))
  | _ => Blocked
  end.

(** [fresh] is the thread of the worker that a growing pool starts. *)
Definition Resize (tid fresh : nat) (p : pc) (s : WorkerPool) : outcome :=
  match p with
  | RsCall newSize =>
      if (newSize <? 0)%Z then Next (with_pc tid Return s)
      else
        let diff := (newSize - workers s)%Z in
        if decide (diff = 0%Z) then Next (with_pc tid Return s)
        else Next (with_pc tid (if (0 <? diff)%Z then RsGrow (Z.to_nat diff) else RsShrink (Z.to_nat (- diff)))
                     (with_workers newSize s))
  | RsGrow (S n) =>
      match threads s !! fresh with
      | Some _ => Blocked
      | None => Next (with_pc fresh WSelect (with_pc tid (RsGrow n) s))
      end
  | RsShrink (S n) =>
      if quit_closed s then Panics
      else if quit s <? cap s then Next (with_pc tid (RsShrink n) (with_quit (S (quit s)) false s)) else Blocked
  | RsGrow 0 | RsShrink 0 => Next (with_pc tid Return s)
  | _ => Blocked
  end.

(** A worker that waits in its [select] takes the value of a blocked sender. *)
Definition Handoff (tid wid : nat) (s : WorkerPool) : outcome :=
  match threads s !! tid, threads s !! wid with
  | Some (EnqSend j), Some WSelect =>
      if jobs_closed s then Blocked
      else if decide (jobs s = []) then Next (with_pc wid (WRun j) (with_pc tid EnqUnlock (accept j s))) else Blocked
  | Some (RsShrink (S n)), Some WSelect =>
      if quit_closed s then Blocked
      else if decide (quit s = 0) then Next (with_pc wid Return (with_pc tid (RsShrink n) s)) else Blocked
  | _, _ => Blocked
  end.

Inductive label :=
  | Call (tid : nat) (p : pc)
  | Run (tid : nat) (choice : bool) (fresh : nat)
  | Give (tid wid : nat)
  | RecvError.

Definition is_call (p : pc) : bool :=
  match p with EnqCall _ | SdCall | RsCall _ => true | _ => false end.

Definition step (l : label) (s : WorkerPool) : outcome :=
  match l with
  | Call tid p =>
      match threads s !! tid with
      | Some _ => Blocked
      | None => if is_call p then Next (with_pc tid p s) else Blocked
      end
  | Run tid choice fresh =>
      match threads s !! tid with
      | Some (EnqCall _ | EnqLocked _ | EnqSend _ | EnqUnlock) as p => Enqueue tid (default Return p) s
      | Some (SdCall | SdLocked | SdEarly | SdUnlock | SdWait | SdQuit | SdErrors) as p =>
          Shutdown tid (default Return p) s
      | Some (WSelect | WRun _ | WError | WDone) as p => worker tid choice (default Return p) s
      | Some (RsCall _ | RsGrow _ | RsShrink _) as p => Resize tid fresh (default Return p) s
      | _ => Blocked
      end
  | Give tid wid => Handoff tid wid s
  | RecvError =>
      match errors s with S n => Next (with_errors n (errors_closed s) s) | 0 => Blocked end
  end.

Inductive reachable (n : nat) : WorkerPool → Prop :=
  | reach_New : reachable n (NewWorkerPool n)
  | reach_step l s s' : reachable n s → step l s = Next s' → reachable n s'.

(** ** Counting *)

(** Calls that hold a unit of the wait group, and those that hold job [j]. *)
Definition weight (p : pc) : Z := match p with EnqSend _ | WRun _ | WError | WDone => 1 | _ => 0 end.
Definition running (j : JobFunc) (p : pc) : Z := if decide (p = WRun j) then 1 else 0.
Definition cnt (j : JobFunc) (js : list JobFunc) : Z := Z.of_nat (length (filter (λ x, x = j) js)).

Lemma cnt_app j l l' : cnt j (l ++ l') = (cnt j l + cnt j l')%Z.
Proof. unfold cnt. rewrite filter_app, length_app. lia. Qed.
Lemma cnt_cons j x l : cnt j (x :: l) = (running j (WRun x) + cnt j l)%Z.
Proof.
  unfold cnt, running. rewrite filter_cons. destruct (decide (x = j)) as [->|Hne].
  - rewrite decide_True by done. cbn. lia.
  - rewrite decide_False by congruence. lia.
Qed.
Lemma cnt_nil j : cnt j [] = 0%Z.
Proof. done. Qed.

Record count_inv (s : WorkerPool) : Prop := {
  c_wg : wg s = (Z.of_nat (length (jobs s)) + msum weight (threads s))%Z;
  c_jobs : ∀ j, cnt j (accepted s) = (cnt j (ran s) + cnt j (jobs s) + msum (running j) (threads s))%Z }.

Lemma msum_list_zero {A} (f : A → Z) (a : A) n : f a = 0%Z → ∀ k,
  msum f (list_to_map ((λ i, (i, a)) <$> seq k n) : gmap nat A) = 0%Z.
Proof.
  intros Hf. induction n as [|n IH]; intros k; cbn [seq fmap list_fmap list_to_map foldr]; [apply msum_empty|].
  cbn [fst snd]. rewrite msum_fresh; [cbn; rewrite Hf; apply IH|]. apply not_elem_of_list_to_map_1. rewrite <- list_fmap_compose.
  intros (i & -> & Hi%elem_of_seq)%list_elem_of_fmap. cbn in *. lia.
Qed.

Lemma count_New n : count_inv (NewWorkerPool n).
Proof. split; cbn; intros; rewrite msum_list_zero; done. Qed.

(** One thread moves; [d] is the change of the job queue's length. *)
Lemma count_move tid q p s s' :
  count_inv s → threads s !! tid = Some q → threads s' = <[tid := p]> (threads s) →
  (wg s' - Z.of_nat (length (jobs s')) = wg s - Z.of_nat (length (jobs s)) - weight q + weight p)%Z →
  (∀ j, cnt j (accepted s') - cnt j (ran s') - cnt j (jobs s') =
        cnt j (accepted s) - cnt j (ran s) - cnt j (jobs s) - running j q + running j p)%Z →
  count_inv s'.
Proof.
  intros [Hw Hj] Hq Et Ew Ej. split; [|intros j; specialize (Hj j); specialize (Ej j)];
    rewrite Et, (msum_replace _ _ _ q) by done; lia.
Qed.

(** The counters of the steps that leave jobs and wait group alone. *)
Ltac counted Hq := eapply count_move; [eassumption|exact Hq|reflexivity| |]; cbn; intros;
  rewrite ?cnt_app, ?cnt_cons, ?cnt_nil, ?length_app; unfold running, cnt; cbn; repeat case_decide; simplify_eq; try lia.

Lemma count_new tid p s : count_inv s → threads s !! tid = None → weight p = 0%Z → (∀ j, p ≠ WRun j) →
  count_inv (with_pc tid p s).
Proof.
  intros [Hw Hj] Ht Hz Hr. split; cbn; [|intros j; specialize (Hj j)]; rewrite msum_fresh by done; [lia|].
  unfold running at 1. rewrite decide_False by done. lia.
Qed.

Lemma count_step l s s' : count_inv s → step l s = Next s' → count_inv s'.
Proof.
  intros Hc. destruct l as [tid p|tid choice fresh|tid wid|]; cbn [step].
  - destruct (threads s !! tid) eqn:Et; [done|]. destruct (is_call p) eqn:Ep; [|done]. intros [= <-].
    apply count_new; [done..|by destruct p|by intros j ->].
  - destruct (threads s !! tid) as [p|] eqn:Hp; [|done].
    destruct p; cbn [default Datatypes.id Enqueue Shutdown worker Resize]; try done;
      repeat case_match; try done; intros [= <-]; try (by counted Hp).
    + match goal with H : jobs s = _ |- _ => rename H into Ej end.
      eapply count_move; [eassumption|exact Hp|reflexivity| |]; cbn; rewrite Ej; cbn [length]; [lia|].
      intros x. rewrite cnt_cons. unfold running. rewrite (decide_False (P := WSelect = _)) by done. lia.
    + apply count_new; [|cbn; rewrite lookup_insert_ne; [done|congruence]|done..]. by counted Hp.
  - unfold Handoff. destruct (threads s !! tid) as [p|] eqn:Hp; [|done].
    destruct p; try done; destruct (threads s !! wid) as [[]|] eqn:Hw; try done;
      repeat case_match; try done; intros [= <-].
    all: assert (tid ≠ wid) by congruence.
    + eapply (count_move wid WSelect (WRun j) (with_pc tid EnqUnlock (with_wg (wg s - 1) s))).
      * by counted Hp.
      * cbn. by rewrite lookup_insert_ne.
      * done.
      * cbn. lia.
      * intros x. cbn. rewrite cnt_app, cnt_cons, cnt_nil. unfold running. rewrite (decide_False (P := WSelect = _)) by done. lia.
    + eapply (count_move wid WSelect Return (with_pc tid (RsShrink n0) s)).
      * by counted Hp.
      * cbn. by rewrite lookup_insert_ne.
      * done.
      * cbn. lia.
      * intros x. cbn. unfold running. rewrite !decide_False by done. lia.
  - destruct (errors s); [done|]. intros [= <-]. by destruct Hc.
Qed.

(** ** The invariant of the lock and of the shutdown *)

Definition reading (p : pc) : Prop := match p with EnqLocked _ | EnqSend _ | EnqUnlock => True | _ => False end.
Definition writing (p : pc) : Prop := match p with SdLocked | SdEarly | SdUnlock => True | _ => False end.

(** The call of [Shutdown] that closed the jobs. *)
Definition owner (p : pc) : Prop := match p with SdUnlock | SdWait | SdQuit | SdErrors => True | _ => False end.
Definition waited (p : pc) : Prop := match p with SdQuit | SdErrors => True | _ => False end.

Record inv (s : WorkerPool) : Prop := {
  p_read : ∀ tid p, threads s !! tid = Some p → reading p → tid ∈ readers s;
  p_write : ∀ tid p, threads s !! tid = Some p → writing p → writer s = Some tid;
  p_excl : ∀ tid, writer s = Some tid → readers s = ∅;
  p_open : ∀ tid j, threads s !! tid = Some (EnqSend j) → closed s = false;
  p_jobs : jobs_closed s = closed s;
  p_owner : ∀ tid p, threads s !! tid = Some p → owner p → closed s = true ∧ errors_closed s = false;
  p_one : ∀ t1 t2 p1 p2, threads s !! t1 = Some p1 → threads s !! t2 = Some p2 → owner p1 → owner p2 → t1 = t2;
  p_quit : ∀ tid p, threads s !! tid = Some p → owner p → p ≠ SdErrors → quit_closed s = false;
  p_waited : ∀ tid p, threads s !! tid = Some p → waited p → wg s = 0%Z;
  p_done : quit_closed s = true ∨ errors_closed s = true → wg s = 0%Z ∧ closed s = true }.

Lemma pool_inv_New n : inv (NewWorkerPool n).
Proof.
  assert (∀ tid p, threads (NewWorkerPool n) !! tid = Some p → p = WSelect) as Hw.
  { intros tid p H%elem_of_list_to_map_2. apply list_elem_of_fmap in H as (i & [= -> ->] & _). done. }
  split; try done; try (intros tid p H; apply Hw in H as ->; done).
  - intros t1 t2 p1 p2 H1%Hw. by subst.
  - by intros [H|H].
Qed.

(** The holder of a unit of the wait group keeps it positive. *)
Lemma wg_positive s tid p : count_inv s → threads s !! tid = Some p → weight p = 1%Z → (0 < wg s)%Z.
Proof.
  intros [Hw _] Hp Hq. rewrite Hw.
  assert (0 ≤ msum weight (delete tid (threads s)))%Z.
  { apply msum_nonneg. intros k q _. by destruct q. }
  rewrite (msum_delete weight _ _ _ Hp) in H. lia.
Qed.

Ltac split_insert := repeat match goal with
  | H : <[_ := _]> _ !! _ = Some _ |- _ => apply lookup_insert_Some in H as [[? ?]|[? ?]]
  end; simplify_eq/=.

Lemma no_reader s t t' p p' : inv s → threads s !! t = Some p → writing p →
  threads s !! t' = Some p' → reading p' → False.
Proof.
  intros Hi Hp Hw Hp' Hr. pose proof (p_excl _ Hi _ (p_write _ Hi _ _ Hp Hw)) as E.
  pose proof (p_read _ Hi _ _ Hp' Hr). set_solver.
Qed.

Ltac pool_case Hi :=
  first
    [ done
    | by eapply (p_read _ Hi) | by eapply (p_write _ Hi) | by eapply (p_excl _ Hi) | by eapply (p_open _ Hi)
    | by eapply (p_jobs _ Hi) | by eapply (p_owner _ Hi) | by eapply (p_one _ Hi) | by eapply (p_quit _ Hi)
    | by eapply (p_waited _ Hi) | by eapply (p_done _ Hi)
    | match goal with
      | H : threads _ !! ?t = Some ?p, Hr : reading ?p |- _ => pose proof (p_read _ Hi t p H Hr); set_solver
      | H : threads _ !! ?t = Some ?p, Hw : writing ?p |- _ => pose proof (p_write _ Hi t p H Hw); congruence
      end
    | idtac ].
Ltac pool_step Hi := split; cbn; intros; split_insert; pool_case Hi.

Lemma inv_call tid p s : inv s → threads s !! tid = None → is_call p = true → inv (with_pc tid p s).
Proof. intros Hi Ht Hc. destruct p; try done; pool_step Hi. Qed.

Lemma waited_owner p : waited p → owner p.
Proof. by destruct p. Qed.

Lemma inv_Enqueue tid p s s' : inv s → threads s !! tid = Some p → Enqueue tid p s = Next s' → inv s'.
Proof.
  intros Hi Hp. destruct p as [j|j|j| | | | | | | | | | | | | | | | ]; cbn [Enqueue]; try done.
  - destruct (writer s) eqn:Ew; [done|]. intros [= <-]. pool_step Hi. set_solver.
  - destruct (closed s) eqn:Ec; intros [= <-]; pool_step Hi.
    + match goal with H : waited _ |- _ => apply waited_owner in H end. edestruct (p_owner _ Hi); [eassumption..|]. congruence.
    + destruct (p_done _ Hi) as [_ ?]; [done|]. congruence.
  - destruct (jobs_closed s) eqn:Ec; [done|]. destruct (_ <? _); [|done]. intros [= <-]. pool_step Hi.
  - intros [= <-]. pool_step Hi. match goal with H : writer s = Some _ |- _ => rewrite (p_excl _ Hi _ H) end. set_solver.
Qed.

(** Before the jobs are closed nothing else is, and no call owns the shutdown. *)
Lemma still_open s : inv s → closed s = false →
  errors_closed s = false ∧ quit_closed s = false ∧ ∀ p tid, owner p → threads s !! tid ≠ Some p.
Proof.
  intros Hi Hc. split_and!.
  - destruct (errors_closed s) eqn:E; [|done]. destruct (p_done _ Hi); [by right|congruence].
  - destruct (quit_closed s) eqn:E; [|done]. destruct (p_done _ Hi); [by left|congruence].
  - intros p tid Ho Hp. destruct (p_owner _ Hi _ _ Hp Ho). congruence.
Qed.

Lemma one_writer s t t' p p' : inv s → threads s !! t = Some p → writing p →
  threads s !! t' = Some p' → writing p' → t = t'.
Proof. intros Hi Hp Hw Hp' Hw'. pose proof (p_write _ Hi _ _ Hp Hw). pose proof (p_write _ Hi _ _ Hp' Hw'). congruence. Qed.

Lemma inv_Shutdown tid p s s' : inv s → threads s !! tid = Some p → Shutdown tid p s = Next s' → inv s'.
Proof.
  intros Hi Hp. destruct p; cbn [Shutdown]; try done.
  - destruct (writer s) eqn:Ew; [done|]. case_decide as Er; [|done]. intros [= <-]. pool_step Hi.
  - destruct (closed s) eqn:Ec; [|destruct (jobs_closed s) eqn:Ej; [done|]]; intros [= <-]; [pool_step Hi|].
    destruct (still_open s Hi Ec) as (He & Hq & Hno). pool_step Hi.
    + exfalso. by eapply (no_reader s tid _ _ _ Hi Hp I H0 I).
    + exfalso. by eapply Hno.
    + exfalso. by eapply Hno.
    + naive_solver congruence.
  - intros [= <-]. pool_step Hi. assert (tid = tid0) by (by eapply (one_writer s)). congruence.
  - intros [= <-]. pool_step Hi. assert (tid = tid0) by (by eapply (one_writer s)). congruence.
  - case_decide; [|done]. intros [= <-]. pool_step Hi.
  - destruct (quit_closed s) eqn:Eq; [done|]. intros [= <-]. pool_step Hi.
    + assert (tid0 = tid) by (by eapply (p_one _ Hi)). congruence.
    + destruct (p_owner _ Hi _ _ Hp I). split; [by eapply (p_waited _ Hi)|done].
  - destruct (errors_closed s) eqn:Eq; [done|]. intros [= <-]. pool_step Hi.
    + assert (tid0 = tid) by (by eapply (p_one _ Hi)). congruence.
    + destruct (p_owner _ Hi _ _ Hp I). split; [by eapply (p_waited _ Hi)|done].
Qed.

Lemma inv_worker tid choice p s s' : inv s → count_inv s → threads s !! tid = Some p →
  worker tid choice p s = Next s' → inv s'.
Proof.
  intros Hi Hc Hp. destruct p; cbn [worker]; try done; repeat case_match; try done; intros [= <-]; pool_step Hi.
  - split; [|done]. edestruct (p_owner _ Hi); eassumption.
  - apply (p_done _ Hi). naive_solver.
  - pose proof (wg_positive _ _ _ Hc Hp eq_refl). edestruct (p_waited _ Hi); [eassumption..|]. lia.
  - pose proof (wg_positive _ _ _ Hc Hp eq_refl). destruct (p_done _ Hi); [done|]. lia.
Qed.

Lemma inv_Resize tid fresh p s s' : inv s → threads s !! tid = Some p → Resize tid fresh p s = Next s' → inv s'.
Proof.
  intros Hi Hp. destruct p; cbn [Resize]; try done; repeat case_match; try done; intros [= <-]; try by pool_step Hi.
  pool_step Hi. apply (p_done _ Hi). naive_solver.
Qed.

Lemma inv_Handoff tid wid s s' : inv s → Handoff tid wid s = Next s' → inv s'.
Proof.
  intros Hi. unfold Handoff. destruct (threads s !! tid) as [p|] eqn:Hp; [|done].
  destruct p; try done; destruct (threads s !! wid) as [[]|] eqn:Hw; try done;
    repeat case_match; try done; intros [= <-]; pool_step Hi.
Qed.

Lemma pool_inv_step l s s' : inv s → count_inv s → step l s = Next s' → inv s'.
Proof.
  intros Hi Hc. destruct l as [tid p|tid choice fresh|tid wid|]; cbn [step].
  - destruct (threads s !! tid) eqn:Et; [done|]. destruct (is_call p) eqn:Ep; [|done]. intros [= <-]. by apply inv_call.
  - destruct (threads s !! tid) as [p|] eqn:Hp; [|done]. destruct p; try done; cbn [default Datatypes.id];
      first [by apply inv_Enqueue|by apply inv_Shutdown|by apply inv_worker|by apply inv_Resize].
  - by apply inv_Handoff.
  - destruct (errors s); [done|]. intros [= <-]. pool_step Hi.
Qed.

Lemma pool_reachable_inv n s : reachable n s → inv s ∧ count_inv s.
Proof.
  induction 1 as [|l s s' _ [IH1 IH2] E]; [split; [apply pool_inv_New|apply count_New]|].
  split; [by eapply pool_inv_step|by eapply count_step].
Qed.

(** ** The theorems *)

(** The pool panics in one case only: a [Resize] that shrinks it sends its quit
    signals after [Shutdown] closed the quit channel.  Whatever producers, workers,
    resizes and repeated shutdowns do otherwise, no job or error is sent on a closed
    channel, no channel is closed twice and the wait group never goes negative. *)
Theorem pool_panics_only_on_late_resize n s l :
  reachable n s → step l s = Panics →
  ∃ tid choice fresh k, l = Run tid choice fresh ∧ threads s !! tid = Some (RsShrink (S k)) ∧ quit_closed s = true.
Proof.
  intros [Hi Hc]%pool_reachable_inv E. destruct l as [tid p|tid choice fresh|tid wid|]; cbn [step] in E.
  - by repeat case_match.
  - destruct (threads s !! tid) as [p|] eqn:Hp; [|done].
    destruct p as [j|j|j| | | | | | | | | |j| | |m|[|m]|[|m]|]; cbn in E; try by repeat case_match.
    + rewrite (p_jobs _ Hi), (p_open _ Hi _ _ Hp) in E. by case_match.
    + rewrite (p_jobs _ Hi) in E. by destruct (closed s).
    + by rewrite (p_quit _ Hi _ _ Hp I) in E by done.
    + destruct (p_owner _ Hi _ _ Hp I) as [_ Eo]. by rewrite Eo in E.
    + pose proof (wg_positive _ _ _ Hc Hp eq_refl). destruct (errors_closed s) eqn:Ee; [|by case_match].
      destruct (p_done _ Hi); [by right|]. lia.
    + pose proof (wg_positive _ _ _ Hc Hp eq_refl). case_match; [|done]. lia.
    + destruct (quit_closed s) eqn:Eq; [|by case_match]. by exists tid, choice, fresh, m.
  - unfold Handoff in E. by repeat case_match.
  - by case_match.
Qed.

Lemma msum_zero {A} (f : A → Z) (m : gmap nat A) : (∀ k a, m !! k = Some a → 0 ≤ f a)%Z → msum f m = 0%Z →
  ∀ k a, m !! k = Some a → f a = 0%Z.
Proof.
  intros Hf Hz k a Hk. assert (0 ≤ msum f (delete k m))%Z as H.
  { apply msum_nonneg. intros k' a' [_ Hk']%lookup_delete_Some. by eapply Hf. }
  rewrite (msum_delete f _ _ _ Hk) in H. specialize (Hf _ _ Hk). lia.
Qed.

Lemma cnt_perm l l' : (∀ j, cnt j l = cnt j l') → l ≡ₚ l'.
Proof.
  revert l'. induction l as [|x l IH]; intros l' H.
  - destruct l' as [|y l']; [done|]. specialize (H y). rewrite cnt_cons, cnt_nil in H. unfold running, cnt in H.
    rewrite decide_True in H by done. lia.
  - assert (x ∈ l') as Hx.
    { destruct (decide (x ∈ l')) as [|Hn]; [done|]. specialize (H x). rewrite cnt_cons in H. unfold running in H.
      rewrite decide_True in H by done. assert (cnt x l' = 0%Z) as Ez.
      { unfold cnt. destruct (filter (λ y, y = x) l') as [|y r] eqn:Ef; [done|]. exfalso. apply Hn.
        assert (y ∈ filter (λ y, y = x) l') as [-> ?]%list_elem_of_filter by (rewrite Ef; by left). done. }
      unfold cnt in *. lia. }
    apply elem_of_Permutation in Hx as [l'' E]. rewrite E. constructor. apply IH. intros j. specialize (H j).
    assert (cnt j l' = cnt j (x :: l'')) as E'.
    { unfold cnt. by rewrite E. }
    rewrite E', !cnt_cons in H. lia.
Qed.

(** C11: when [Shutdown] has stopped waiting (the quit channel is closed), exactly the
    jobs that [Enqueue] accepted have been run, each as often as it was accepted, and
    no worker is inside a job, however enqueues, resizes and shutdowns interleaved. *)
Theorem pool_shutdown_runs_all n s :
  reachable n s → quit_closed s = true →
  ran s ≡ₚ accepted s ∧ jobs s = [] ∧ ∀ tid j, threads s !! tid ≠ Some (WRun j).
Proof.
  intros [Hi [Hw Hj]]%pool_reachable_inv Hq. destruct (p_done _ Hi) as [Hz _]; [by left|].
  assert (0 ≤ msum weight (threads s))%Z by (apply msum_nonneg; intros k p _; by destruct p).
  assert (jobs s = []) as Ejobs by (destruct (jobs s); [done|cbn in Hw; lia]).
  assert (∀ tid j, threads s !! tid ≠ Some (WRun j)) as Hno.
  { intros tid j Hp. assert (weight (WRun j) = 0%Z); [|done]. eapply msum_zero; [| |exact Hp].
    - intros k p _. by destruct p.
    - rewrite Ejobs in Hw. cbn in Hw. lia. }
  split_and!; [|done..]. apply cnt_perm. intros j. rewrite Hj, Ejobs, cnt_nil.
  assert (msum (running j) (threads s) = 0%Z); [|lia]. revert Hno. generalize (threads s). intros m.
  induction m as [|k p m Hk IH] using map_ind; intros Hno; [apply msum_empty|].
  rewrite msum_fresh by done. rewrite IH.
  - unfold running. rewrite decide_False; [done|]. intros ->. apply (Hno k j). apply lookup_insert_eq.
  - intros k' j' Hk'. apply (Hno k' j'). rewrite lookup_insert_ne; [done|]. by intros ->; rewrite Hk in Hk'.
Qed.

(** ** Errors that nobody reads *)

Fixpoint run (ls : list label) (s : WorkerPool) : outcome :=
  match ls with
  | [] => Next s
  | l :: ls => match step l s with Next s' => run ls s' | o => o end
  end.

Lemma pool_run_reachable n ls : ∀ s s', reachable n s → run ls s = Next s' → reachable n s'.
Proof.
  induction ls as [|l ls IH]; intros s s' Hr; cbn; [by intros [= <-]|].
  destruct (step l s) eqn:E; [done..|]. apply IH. by eapply reach_step.
Qed.

Definition go (tid k : nat) : list label := replicate k (Run tid true 0).
Definition failing (i : nat) : JobFunc := MkJob i true.

(** One worker; two failing jobs are enqueued and run; then [Shutdown] is called. *)
Definition unread : list label :=
  Call 1 (EnqCall (failing 1)) :: go 1 4 ++ go 0 4 ++
  Call 2 (EnqCall (failing 2)) :: go 2 4 ++ go 0 2 ++
  Call 3 SdCall :: go 3 3.
Definition stuck : WorkerPool := match run unread (NewWorkerPool 1) with Next s => s | _ => NewWorkerPool 1 end.

Lemma stuck_reachable : reachable 1 stuck.
Proof. eapply (pool_run_reachable 1 unread); [apply reach_New|]. vm_compute. reflexivity. Defined.

(** The cache never reads the pool's errors.  Once as many jobs have failed as the
    pool has workers, the next failing job blocks its worker, and [Shutdown] waits
    for it for ever: no call and no worker of the pool can take a step. *)
Theorem pool_shutdown_deadlock :
  reachable 1 stuck ∧ threads stuck !! 3 = Some SdWait ∧ (∀ tid choice fresh, step (Run tid choice fresh) stuck = Blocked) ∧
  (∀ tid wid, step (Give tid wid) stuck = Blocked).
Proof.
  assert (∀ tid p, threads stuck !! tid = Some p → p = Return ∨ p = SdWait ∨ p = WError) as Hp.
  { assert (map_Forall (λ _ p, p = Return ∨ p = SdWait ∨ p = WError) (threads stuck)) as H; [|exact H].
    apply (bool_decide_unpack _). vm_compute. exact I. }
  split_and!; [exact stuck_reachable|vm_compute; reflexivity| |].
  - intros tid choice fresh. cbn [step]. destruct (threads stuck !! tid) as [p|] eqn:E; [|reflexivity].
    destruct (Hp _ _ E) as [-> | [-> | ->]]; [reflexivity|vm_compute; reflexivity|vm_compute; reflexivity].
  - intros tid wid. cbn [step]. unfold Handoff. destruct (threads stuck !! tid) as [p|] eqn:E; [|reflexivity].
    destruct (Hp _ _ E) as [-> | [-> | ->]]; reflexivity.
Qed.

(** ** Witnesses *)

(** A pool of one worker that was shut down, and a shrinking [Resize] after it. *)
Definition late_resize : list label :=
  Call 1 (EnqCall (MkJob 1 false)) :: go 1 4 ++ go 0 3 ++ Call 2 SdCall :: go 2 6 ++ [Call 3 (RsCall 0); Run 3 true 0].
Definition closed_pool : WorkerPool := match run late_resize (NewWorkerPool 1) with Next s => s | _ => NewWorkerPool 1 end.

Lemma closed_reachable : reachable 1 closed_pool.
Proof. eapply (pool_run_reachable 1 late_resize); [apply reach_New|]. vm_compute. reflexivity. Defined.

Lemma pool_panics_only_on_late_resize_witness :
  ∃ tid choice fresh k, Run 3 true 0 = Run tid choice fresh ∧
    threads closed_pool !! tid = Some (RsShrink (S k)) ∧ quit_closed closed_pool = true.
Proof.
  apply (pool_panics_only_on_late_resize 1 closed_pool (Run 3 true 0) closed_reachable). vm_compute. reflexivity.
Defined.

Lemma pool_shutdown_runs_all_witness : ran closed_pool ≡ₚ accepted closed_pool ∧ accepted closed_pool = [MkJob 1 false].
Proof.
  split; [|vm_compute; reflexivity].
  apply (pool_shutdown_runs_all 1 closed_pool closed_reachable). vm_compute. reflexivity.
Defined.
