(* ===== verification/RepairQueue.v ===== *)
(** * The read-repair coalescer (pkg/backend/dist_read_repair.go)

    Readers enqueue repairs, flushers detach a peer's pending repairs under the lock
    and send them afterwards, in parallel.  The model interleaves these: an
    [enqueue], the critical section of a [flushPeer] (by the goroutine that
    [enqueue] starts, by the ticker or by the final drain), and one [ForwardSet] of
    a detached batch, in any order, with the node's transport set and torn down at any
    point.  [sent] is the log of the calls to the transport and [dropped] what the
    flushes that found no transport threw away.

    The theorems: every enqueued repair is coalesced, pending, in flight, sent or
    dropped, and exactly one of these; the coalescing never loses the newest repair
    of a key, by version and then by origin, except to a flush without a transport;
    and a drain with nothing in flight leaves nothing pending. *)

From stdpp Require Import base gmap strings list fin_maps.
From Stdlib Require Import ZArith Lia.
From S2P Require Import Prelude Item.

(** ** The code *)

Record repairQueue := MkQueue {
  maxBatchSize : Z;
  transport : bool;                            (* q.transport() != nil *)
  entries : gmap string (gmap string Item);
  inflight : list (string * list Item);
  sent : list (string * Item);
  dropped : list (string * Item);
  readRepairCoalesced : Z;                     (* atomic.Int64 *)
  readRepairBatched : Z }.                     (* atomic.Int64 *)

Definition newRepairQueue (size : Z) (t : bool) : repairQueue := MkQueue size t ∅ [] [] [] 0 0.

Definition isHigherVersion (candidate existing : Item) : bool :=
  if (Version existing <? Version candidate)%Z then true
  else if (Version candidate <? Version existing)%Z then false
  else str_ltb (Origin candidate) (Origin existing).

Definition coalesce (q : repairQueue) : repairQueue :=
  MkQueue (maxBatchSize q) (transport q) (entries q) (inflight q) (sent q) (dropped q)
    (i64 (readRepairCoalesced q + 1)) (readRepairBatched q).
Definition with_entries (m : gmap string (gmap string Item)) (q : repairQueue) : repairQueue :=
  MkQueue (maxBatchSize q) (transport q) m (inflight q) (sent q) (dropped q) (readRepairCoalesced q)
    (readRepairBatched q).

(** The flag is [shouldFlush]: a goroutine is started to flush the peer.  A nil item
    is ignored. *)
Definition enqueue (peer : string) (item : option Item) (q : repairQueue) : repairQueue * bool :=
  match item with
  | None => (q, false)
  | Some item =>
      let peerEntries := default ∅ (entries q !! peer) in
      let put (q : repairQueue) :=
        let peerEntries := <[Key item := item]> peerEntries in
        (with_entries (<[peer := peerEntries]> (entries q)) q,
         (maxBatchSize q <=? Z.of_nat (size peerEntries))%Z) in
      match peerEntries !! Key item with
      | Some existing =>
          if negb (isHigherVersion item existing)
          then (coalesce (with_entries (<[peer := peerEntries]> (entries q)) q), false)
          else put (coalesce q)
      | None => put q
      end
  end.

(** The critical section of [flushPeer] and the slice it makes of the entries. *)
Definition detach (peer : string) (q : repairQueue) : repairQueue :=
  let peerEntries := default ∅ (entries q !! peer) in
  if decide (size peerEntries = 0) then q
  else
    let items := (map_to_list peerEntries).*2 in
    MkQueue (maxBatchSize q) (transport q) (delete peer (entries q))
      (if transport q then inflight q ++ [(peer, items)] else inflight q) (sent q)
      (if transport q then dropped q else dropped q ++ ((λ it, (peer, it)) <$> items))
      (readRepairCoalesced q) (readRepairBatched q).

(** One goroutine of the errgroup: item [j] of batch [i] is sent. *)
Definition dispatch (i j : nat) (q : repairQueue) : option repairQueue :=
  '(peer, items) ← inflight q !! i;
  it ← items !! j;
  Some (MkQueue (maxBatchSize q) (transport q) (entries q)
          (<[i := (peer, take j items ++ drop (S j) items)]> (inflight q)) (sent q ++ [(peer, it)]) (dropped q)
          (readRepairCoalesced q) (i64 (readRepairBatched q + 1))).

(** [flushAll]: the peers are read first, then flushed one after the other. *)
Definition flushAll (q : repairQueue) : repairQueue :=
  foldl (λ q peer, detach peer q) q (map_to_list (entries q)).*1.

Inductive label :=
  | Enqueue (peer : string) (item : Item)
  | Flush (peer : string)
  | Send (i j : nat)
  | SetTransport (t : bool).

Definition step (l : label) (q : repairQueue) : option repairQueue :=
  match l with
  | Enqueue peer item => Some (enqueue peer (Some item) q).1
  | Flush peer => Some (detach peer q)
  | Send i j => dispatch i j q
  | SetTransport t =>
      Some (MkQueue (maxBatchSize q) t (entries q) (inflight q) (sent q) (dropped q) (readRepairCoalesced q) (readRepairBatched q))
  end.

Fixpoint run (ls : list label) (q : repairQueue) : option repairQueue :=
  match ls with [] => Some q | l :: ls => q ← step l q; run ls q end.

(** ** The order of versions *)

(** [a] is a repair of the same key that is at least as new as [b]: its version is
    higher, or the same and its origin is not the greater of the two. *)
Definition covers (a b : Item) : Prop :=
  Key a = Key b ∧
  ((Version b < Version a)%Z ∨ (Version b = Version a ∧ str_ltb (Origin b) (Origin a) = false)).

#[export] Instance covers_preorder : PreOrder covers.
Proof.
  split.
  - intros a. split; [done|]. right. split; [done|]. apply str_ltb_irrefl.
  - intros a b c [Ek1 H1] [Ek2 H2]. split; [congruence|].
    destruct H1 as [H1|[E1 H1]], H2 as [H2|[E2 H2]]; [left; lia|left; lia|left; lia|right].
    split; [congruence|]. by eapply str_leb_trans.
Qed.

(** The comparison of the code decides the order. *)
Lemma isHigherVersion_covers a b : Key a = Key b → if isHigherVersion a b then covers a b else covers b a.
Proof.
  intros Ek. unfold isHigherVersion, covers. destruct (Z.ltb_spec (Version b) (Version a)); [split; [done|by left]|].
  destruct (Z.ltb_spec (Version a) (Version b)); [split; [done|by left]|].
  destruct (str_ltb (Origin a) (Origin b)) eqn:E; (split; [done|]); right; (split; [lia|]); [by apply str_ltb_antisym|done].
Qed.

(** ** Nothing newest is lost *)

(** Where a repair can be, if no flush threw it away. *)
Definition alive (q : repairQueue) (peer : string) (it : Item) : Prop :=
  (∃ m, entries q !! peer = Some m ∧ m !! Key it = Some it) ∨
  (∃ i items, inflight q !! i = Some (peer, items) ∧ it ∈ items) ∨
  (peer, it) ∈ sent q.

Definition keyed (q : repairQueue) : Prop :=
  ∀ peer m k it, entries q !! peer = Some m → m !! k = Some it → Key it = k.

(** What an enqueue does to the entries of the peer: one entry at the item's key. *)
Lemma enqueue_entries peer it q : keyed q →
  ∃ x, covers x it ∧ (∀ y, default ∅ (entries q !! peer) !! Key it = Some y → covers x y) ∧
    let q' := (enqueue peer (Some it) q).1 in
    entries q' = <[peer := <[Key it := x]> (default ∅ (entries q !! peer))]> (entries q) ∧
    inflight q' = inflight q ∧ sent q' = sent q ∧ transport q' = transport q ∧ dropped q' = dropped q ∧
    readRepairBatched q' = readRepairBatched q ∧
    readRepairCoalesced q' =
      match default ∅ (entries q !! peer) !! Key it with
      | Some _ => i64 (readRepairCoalesced q + 1)
      | None => readRepairCoalesced q
      end.
Proof.
  intros Hk. cbn [enqueue]. destruct (default ∅ (entries q !! peer) !! Key it) as [ex|] eqn:E.
  - assert (Key ex = Key it) as Ek.
    { destruct (entries q !! peer) as [m|] eqn:Em; cbn in E; [by eapply Hk|by rewrite lookup_empty in E]. }
    pose proof (isHigherVersion_covers it ex ltac:(done)) as Hcov.
    destruct (isHigherVersion it ex) eqn:Eh; cbn [negb].
    + exists it. split; [done|]. split; [by intros y [= <-]|done].
    + exists ex. split; [done|]. split; [by intros y [= <-]|]. cbn. rewrite (insert_id _ (Key it) ex) by done. done.
  - exists it. split; [done|]. split; [done|]. done.
Qed.

Lemma keyed_step l q q' : keyed q → step l q = Some q' → keyed q'.
Proof.
  intros Hk. destruct l as [peer it|peer|i j|t]; cbn [step]; [| | |by intros [= <-]].
  - intros Hq. apply (inj Some) in Hq as <-.
    destruct (enqueue_entries peer it q Hk) as (x & [Ex _] & _ & E & _). cbv zeta in E. intros p m k y.
    rewrite E, lookup_insert_Some. intros [[<- <-]|[_ Hm]]; [|by eapply Hk].
    rewrite lookup_insert_Some. intros [[<- <-]|[_ Hy]]; [done|].
    destruct (entries q !! peer) as [m0|] eqn:Em; cbn in Hy; [by eapply Hk|by rewrite lookup_empty in Hy].
  - intros [= <-]. unfold detach. case_decide; [done|]. intros p m k y. cbn.
    intros [_ Hm]%lookup_delete_Some. by eapply Hk.
  - unfold dispatch. intros ([p items] & _ & (it & _ & [= <-])%bind_Some)%bind_Some. exact Hk.
Qed.

(** A repair is thrown away only by a flush that finds no transport. *)
Lemma dropped_step l q q' : step l q = Some q' →
  (transport q = true → dropped q' = dropped q) ∧ dropped q `prefix_of` dropped q' ∧
  transport q' = match l with SetTransport t => t | _ => transport q end.
Proof.
  destruct l as [peer it|peer|i j|t]; cbn [step].
  - intros [= <-]. cbn [enqueue]. destruct (_ !! Key it); [destruct (negb _)|]; done.
  - intros [= <-]. unfold detach. case_decide; [done|]. cbn. destruct (transport q); [done|].
    split_and!; [done|by eexists|done].
  - unfold dispatch. intros ([p items] & _ & (it & _ & [= <-])%bind_Some)%bind_Some. done.
  - by intros [= <-].
Qed.

Lemma elem_of_middle {A} (items : list A) j x y :
  items !! j = Some x → y ∈ items → y = x ∨ y ∈ take j items ++ drop (S j) items.
Proof.
  intros Hj Hy. rewrite <- (take_drop_middle _ _ _ Hj), elem_of_app, elem_of_cons in Hy. rewrite elem_of_app. tauto.
Qed.

(** Alive, or thrown away for want of a transport. *)
Definition kept (q : repairQueue) (peer : string) (it : Item) : Prop := alive q peer it ∨ (peer, it) ∈ dropped q.

Lemma alive_step l q q' peer x : keyed q → step l q = Some q' → alive q peer x →
  ∃ x', covers x' x ∧ kept q' peer x'.
Proof.
  intros Hk Hl Ha.
  enough ((transport q = false ∧ (peer, x) ∈ dropped q') ∨ ∃ x', covers x' x ∧ alive q' peer x') as [[_ ?]|(x' & ? & ?)];
    [exists x; split; [done|by right]|exists x'; split; [done|by left]|].
  revert Hl Ha. destruct l as [p it|p|i j|t]; cbn [step]; [intros Hl Ha; right; revert Hl Ha| |intros Hl Ha; right; revert Hl Ha|].
  - intros Hq. apply (inj Some) in Hq as <-.
    destruct (enqueue_entries p it q Hk) as (y & _ & Hy & E & Ei & Es & _). cbv zeta in E, Ei, Es.
    intros [(m & Hm & Hx)|[Hx|Hx]].
    + destruct (decide (p = peer)) as [->|Hne].
      * rewrite Hm in Hy, E. cbn [default Datatypes.id] in Hy, E. destruct (decide (Key it = Key x)) as [Ek|Ek].
        -- exists y. rewrite <- Ek in Hx. specialize (Hy x Hx). split; [done|]. left. eexists.
           rewrite E, lookup_insert_eq. split; [done|]. destruct Hy as [-> _]. by rewrite Ek, lookup_insert_eq.
        -- exists x. split; [done|]. left. eexists. rewrite E, lookup_insert_eq. split; [done|].
           by rewrite lookup_insert_ne.
      * exists x. split; [done|]. left. exists m. by rewrite E, lookup_insert_ne.
    + exists x. split; [done|]. right. left. by rewrite Ei.
    + exists x. split; [done|]. right. right. by rewrite Es.
  - intros [= <-] Hx. unfold detach. case_decide as Esz; [right; by exists x|].
    destruct Hx as [(m & Hm & Hx)|[(i & items & Hi & Hx)|Hx]].
    + destruct (decide (p = peer)) as [->|Hne].
      * assert (x ∈ (map_to_list m).*2) as Hin.
        { apply list_elem_of_fmap. exists (Key x, x). split; [done|]. by apply elem_of_map_to_list. }
        cbn. rewrite Hm. cbn. destruct (transport q).
        -- right. exists x. split; [done|]. right. left. exists (length (inflight q)), (map_to_list m).*2. cbn.
           by rewrite lookup_app_r, Nat.sub_diag by done.
        -- left. split; [done|]. cbn. apply elem_of_app. right. apply list_elem_of_fmap. by exists x.
      * right. exists x. split; [done|]. left. exists m. cbn. by rewrite lookup_delete_ne.
    + right. exists x. split; [done|]. right. left. cbn. exists i, items. split; [|done].
      destruct (transport q); [|done]. rewrite lookup_app_l; [done|]. by eapply lookup_lt_Some.
    + right. exists x. split; [done|]. right. by right.
  - unfold dispatch. intros ([p items] & Hi & (it & Hj & [= <-])%bind_Some)%bind_Some Hx.
    exists x. split; [done|]. destruct Hx as [Hx|[(i' & items' & Hi' & Hx)|Hx]]; [by left| |].
    + destruct (decide (i' = i)) as [->|Hne].
      * rewrite Hi in Hi'. injection Hi' as -> ->. destruct (elem_of_middle items' j it x Hj Hx) as [->|Hx'].
        -- right. right. cbn. set_solver.
        -- right. left. exists i. eexists. cbn. rewrite list_lookup_insert_eq by by eapply lookup_lt_Some. done.
      * right. left. exists i', items'. cbn. by rewrite list_lookup_insert_ne.
    + right. right. cbn. set_solver.
  - intros [= <-] Hx. right. by exists x.
Qed.

Lemma kept_step l q q' peer x : keyed q → step l q = Some q' → kept q peer x → ∃ x', covers x' x ∧ kept q' peer x'.
Proof.
  intros Hk E [Ha|Hd]; [by eapply alive_step|]. exists x. split; [done|]. right.
  destruct (dropped_step _ _ _ E) as (_ & [l' ->] & _). apply elem_of_app. by left.
Qed.

(** C30: coalescing never loses the newest repair.  However readers and flushers
    interleave, and however the transport is set and torn down meanwhile, for every
    repair that was enqueued for a peer there is one of the same key, of a higher
    version or of the same version and no greater origin, that is pending for the peer,
    in flight to it or sent to it, or that a flush threw away because it found no
    transport.  As long as there is a transport no flush throws anything away. *)
Theorem repair_newest_kept ls size t0 q peer it :
  run ls (newRepairQueue size t0) = Some q → Enqueue peer it ∈ ls →
  (∃ x, covers x it ∧ (alive q peer x ∨ (peer, x) ∈ dropped q)) ∧
  (t0 = true → (∀ t, SetTransport t ∈ ls → t = true) → dropped q = []).
Proof.
  assert (∀ ls q0, keyed q0 → run ls q0 = Some q →
    (Enqueue peer it ∈ ls → ∃ x, covers x it ∧ kept q peer x) ∧
    (∀ x, kept q0 peer x → ∃ y, covers y x ∧ kept q peer y) ∧
    (transport q0 = true → (∀ t, SetTransport t ∈ ls → t = true) → dropped q = dropped q0)) as H.
  { clear ls. intros ls. induction ls as [|l ls IH]; intros q0 Hk; cbn [run].
    { intros [= ->]. split_and!; [intros Hin; by apply elem_of_nil in Hin| |done]. intros x Hx. by exists x. }
    intros (q1 & E & Hr)%bind_Some. destruct (dropped_step _ _ _ E) as (Hd1 & _ & Ht1).
    destruct (IH q1) as (IH1 & IH2 & IH3); [by eapply keyed_step|done|]. split_and!.
    - intros [<-|Hin]%elem_of_cons; [|by apply IH1]. cbn [step] in E. apply (inj Some) in E as <-.
      destruct (enqueue_entries peer it q0 Hk) as (x & Hx & _ & Ee & _). cbv zeta in Ee.
      destruct (IH2 x) as (y & Hy & Ha); [|exists y; split; [by etrans|done]].
      left. left. eexists. rewrite Ee, lookup_insert_eq. split; [done|]. destruct Hx as [-> _]. by rewrite lookup_insert_eq.
    - intros x Hx. destruct (kept_step _ _ _ _ _ Hk E Hx) as (x1 & H1 & Ha1).
      destruct (IH2 x1 Ha1) as (y & Hy & Ha). exists y. split; [by etrans|done].
    - intros Ht Hall. rewrite <- (Hd1 Ht). apply IH3; [|intros t Hin; apply Hall; by right].
      rewrite Ht1. destruct l; try done. apply Hall. by left. }
  intros Hr Hin. destruct (H ls (newRepairQueue size t0)) as (H1 & _ & H3); [|exact Hr|exact (conj (H1 Hin) H3)].
  intros p m k x. cbn. by rewrite lookup_empty.
Qed.

(** ** Accounting *)

Definition pending (q : repairQueue) : Z := msum (λ m : gmap string Item, Z.of_nat (size m)) (entries q).
Fixpoint batch_items (l : list (string * list Item)) : Z :=
  match l with [] => 0 | (_, items) :: l => Z.of_nat (length items) + batch_items l end.
Definition flying (q : repairQueue) : Z := batch_items (inflight q).
Definition is_enqueue (l : label) : bool := match l with Enqueue _ _ => true | _ => false end.
Definition enqueued (ls : list label) : Z := Z.of_nat (length (filter (λ l, is_enqueue l = true) ls)).

(** The ledger after [n] enqueues. *)
Definition ledger (n : Z) (q : repairQueue) : Prop :=
  readRepairCoalesced q = i64 (n - pending q - flying q - Z.of_nat (length (sent q)) - Z.of_nat (length (dropped q))) ∧
  readRepairBatched q = i64 (Z.of_nat (length (sent q))).

Lemma flying_app l l' : batch_items (l ++ l') = (batch_items l + batch_items l')%Z.
Proof. induction l as [|[p items] l IH]; [done|]. cbn [batch_items app]. rewrite IH. lia. Qed.

Lemma flying_insert l : ∀ i peer items items', l !! i = Some (peer, items) →
  batch_items (<[i := (peer, items')]> l) =
  (batch_items l - Z.of_nat (length items) + Z.of_nat (length items'))%Z.
Proof.
  induction l as [|[p0 its0] l IH]; intros [|i] peer items items' Hi; try done.
  - injection Hi as -> ->. cbn [batch_items insert list_insert]. lia.
  - change (<[S i := (peer, items')]> ((p0, its0) :: l)) with ((p0, its0) :: <[i := (peer, items')]> l).
    cbn [batch_items]. rewrite (IH i peer items items' Hi). lia.
Qed.

Lemma pending_put peer m q :
  pending (with_entries (<[peer := m]> (entries q)) q) =
  (pending q - Z.of_nat (size (default ∅ (entries q !! peer))) + Z.of_nat (size m))%Z.
Proof.
  unfold pending. cbn [entries with_entries]. destruct (entries q !! peer) as [m0|] eqn:E; cbn [default Datatypes.id].
  - by rewrite (msum_replace _ _ _ m0).
  - rewrite msum_fresh by done. rewrite map_size_empty. lia.
Qed.

Lemma ledger_enqueue n peer it q : keyed q → ledger n q → ledger (n + 1) (enqueue peer (Some it) q).1.
Proof.
  intros Hk [Hc Hb]. destruct (enqueue_entries peer it q Hk) as (x & _ & _ & E & Ei & Es & _ & Ed & Eb & Ec).
  cbv zeta in *. unfold ledger. rewrite Ec, Eb, Es, Ed.
  assert (flying (enqueue peer (Some it) q).1 = flying q) as -> by (unfold flying; by rewrite Ei).
  assert (pending (enqueue peer (Some it) q).1 =
    pending (with_entries (<[peer := <[Key it := x]> (default ∅ (entries q !! peer))]> (entries q)) q)) as ->.
  { unfold pending. by rewrite E. }
  rewrite pending_put. split; [|done]. set (pe := default ∅ (entries q !! peer)) in *.
  destruct (pe !! Key it) as [y|] eqn:Ey.
  - rewrite map_size_insert_Some by (by eexists). rewrite Hc, i64_add_l. f_equal. lia.
  - rewrite map_size_insert_None by done. rewrite Hc. f_equal. lia.
Qed.

Lemma ledger_detach n peer q : ledger n q → ledger n (detach peer q).
Proof.
  intros [Hc Hb]. unfold detach. case_decide as Esz; [done|]. unfold ledger. cbn [readRepairCoalesced readRepairBatched sent dropped].
  split; [|done]. rewrite Hc. f_equal. unfold pending, flying. cbn [entries inflight].
  destruct (entries q !! peer) as [m|] eqn:Em; [|done]. cbn [default Datatypes.id] in *.
  rewrite (msum_delete _ _ _ m) by done.
  destruct (transport q); [rewrite flying_app; cbn [batch_items]|rewrite length_app, length_fmap];
    rewrite length_fmap, length_map_to_list; lia.
Qed.

Lemma ledger_dispatch n i j q q' : ledger n q → dispatch i j q = Some q' → ledger n q'.
Proof.
  intros [Hc Hb]. unfold dispatch. intros ([p items] & Hi & (it & Hj & [= <-])%bind_Some)%bind_Some.
  unfold ledger. cbn [readRepairCoalesced readRepairBatched sent dropped]. rewrite length_app. cbn [length].
  split; [|rewrite Hb, i64_add_l; f_equal; lia]. rewrite Hc. f_equal. unfold pending, flying. cbn [entries inflight].
  rewrite (flying_insert _ _ _ _ _ Hi), length_app, length_take, length_drop.
  pose proof (lookup_lt_Some _ _ _ Hj). lia.
Qed.

(** The counters are exact.  After any interleaving the count of coalesced
    repairs is what was enqueued and is neither pending, nor in flight, nor sent,
    nor thrown away for want of a transport, and the count of batched repairs is
    what was sent (both as 64-bit integers). *)
Theorem repair_queue_ledger ls size t q :
  run ls (newRepairQueue size t) = Some q → ledger (enqueued ls) q.
Proof.
  assert (∀ ls n q0, keyed q0 → ledger n q0 → run ls q0 = Some q → ledger (n + enqueued ls) q) as H.
  { clear ls. intros ls. induction ls as [|l ls IH]; intros n q0 Hk Hl; cbn [run].
    { intros [= ->]. unfold enqueued. cbn. by rewrite Z.add_0_r. }
    intros (q1 & E & Hr)%bind_Some. pose proof (keyed_step _ _ _ Hk E) as Hk1. unfold enqueued.
    rewrite filter_cons. destruct l as [peer it|peer|i j|b]; cbn [step] in E.
    - apply (inj Some) in E as <-. rewrite decide_True by done. cbn [length]. rewrite Nat2Z.inj_succ.
      replace (n + Z.succ _)%Z with ((n + 1) + enqueued ls)%Z by (unfold enqueued; lia).
      eapply IH; [done|by apply ledger_enqueue|done].
    - apply (inj Some) in E as <-. rewrite decide_False by done. eapply IH; [done|by apply ledger_detach|done].
    - rewrite decide_False by done. eapply IH; [done|by eapply ledger_dispatch|done].
    - apply (inj Some) in E as <-. rewrite decide_False by done. eapply IH; [done|exact Hl|done]. }
  intros Hr. apply (H ls 0%Z (newRepairQueue size t)); [|done|done]. intros p m k x. cbn. by rewrite lookup_empty.
Qed.

(** ** The drain *)

Lemma detach_entries peer q p m :
  entries (detach peer q) !! p = Some m → entries q !! p = Some m ∧ (p = peer → m = ∅).
Proof.
  unfold detach. case_decide as E.
  - intros Hm. split; [done|]. intros ->. rewrite Hm in E. by apply map_size_empty_inv in E.
  - cbn. by intros [? Hm]%lookup_delete_Some.
Qed.

(** The final flush of [run] leaves no repair pending. *)
Lemma flushAll_drains q : pending (flushAll q) = 0%Z.
Proof.
  assert (∀ l q0, (∀ p m, entries q0 !! p = Some m → m = ∅ ∨ p ∈ l) →
    ∀ p m, entries (foldl (λ q peer, detach peer q) q0 l) !! p = Some m → m = ∅) as H.
  { induction l as [|peer l IH]; intros q0 H0 p m; cbn [foldl].
    - intros Hm. destruct (H0 p m Hm) as [|Hin]; [done|by apply elem_of_nil in Hin].
    - apply IH. intros p' m' [Hm Hp]%detach_entries. destruct (H0 _ _ Hm) as [|[->|]%elem_of_cons]; auto. }
  assert (∀ p m, entries (flushAll q) !! p = Some m → m = ∅) as He.
  { apply H. intros p m Hm. right. apply list_elem_of_fmap. exists (p, m). split; [done|]. by apply elem_of_map_to_list. }
  unfold pending. revert He. generalize (entries (flushAll q)). intros M. induction M as [|p m M Hp IH] using map_ind; intros He.
  { apply msum_empty. }
  rewrite msum_fresh by done. rewrite (He p m) by apply lookup_insert_eq. rewrite map_size_empty, IH; [done|].
  intros p' m' Hm'. apply (He p'). rewrite lookup_insert_ne; [done|]. by intros ->; rewrite Hp in Hm'.
Qed.

(** ** Order *)

Definition at_version (v : Z) : Item := MkItem "k" (AString "x") 0 0 1 0 0 v "n".

(** Coalescing only sees what is pending: a repair that was detached no longer
    shields its key, so an older version enqueued afterwards is sent after the newer
    one, and the receiver (which stores every forwarded item) ends with the older. *)
Theorem repair_queue_regresses : ∃ q,
  run [Enqueue "p" (at_version 5); Flush "p"; Enqueue "p" (at_version 3); Flush "p"; Send 0 0; Send 1 0]
    (newRepairQueue 8 true) = Some q ∧
  sent q = [("p", at_version 5); ("p", at_version 3)].
Proof. eexists. split; vm_compute; reflexivity. Qed.

(** ** Witnesses *)

(** The version 5 displaces the version 3 of the same key and is the one that is sent. *)
Lemma repair_newest_kept_witness :
  ∃ q x, run [Enqueue "p" (at_version 3); Enqueue "p" (at_version 5); Flush "p"; Send 0 0] (newRepairQueue 8 true) = Some q ∧
    covers x (at_version 3) ∧ alive q "p" x ∧ sent q = [("p", at_version 5)].
Proof.
  destruct (repair_newest_kept [Enqueue "p" (at_version 3); Enqueue "p" (at_version 5); Flush "p"; Send 0 0] 8 true
    (default (newRepairQueue 8 true)
      (run [Enqueue "p" (at_version 3); Enqueue "p" (at_version 5); Flush "p"; Send 0 0] (newRepairQueue 8 true)))
    "p" (at_version 3)) as [(x & Hc & Ha) Hd].
  - vm_compute. reflexivity.
  - left.
  - assert (dropped (default (newRepairQueue 8 true)
      (run [Enqueue "p" (at_version 3); Enqueue "p" (at_version 5); Flush "p"; Send 0 0] (newRepairQueue 8 true))) = []) as Hn.
    { apply Hd; [reflexivity|]. intros t Ht. rewrite !elem_of_cons, elem_of_nil in Ht.
      destruct Ht as [[=]|[[=]|[[=]|[[=]|[]]]]]. }
    rewrite Hn in Ha. destruct Ha as [Ha|Ha]; [|by apply elem_of_nil in Ha].
    eexists _, x. split; [|split; [exact Hc|split; [exact Ha|]]]; vm_compute; reflexivity.
Defined.

Lemma repair_queue_ledger_witness :
  ∃ q, run [Enqueue "p" (at_version 5); Enqueue "p" (at_version 7); Flush "p"; Send 0 0] (newRepairQueue 8 true) = Some q ∧
    ledger 2 q ∧ readRepairCoalesced q = 1%Z ∧ readRepairBatched q = 1%Z.
Proof.
  eexists. split; [vm_compute; reflexivity|]. split; [|split; vm_compute; reflexivity].
  apply (repair_queue_ledger [Enqueue "p" (at_version 5); Enqueue "p" (at_version 7); Flush "p"; Send 0 0] 8 true).
  vm_compute. reflexivity.
Defined.
