(* ===== verification/Rebalance.v ===== *)
(** * The rebalancer of the distributed backend (pkg/backend/dist_memory.go)

    One tick on one node: the scan for items whose ownership moved, their migration
    to the new primary (through the hint queue when it cannot be reached), the
    replication to new replica owners, and the shedding of keys the node no longer
    owns after the grace period.

    The shards' [removedAt] maps are one map here: a key is only ever recorded in
    the map of its own shard.  The batches that [migrateItems] runs concurrently are
    run one item at a time, in the order that [sched] makes of them; two batches
    share no key.  Of the metrics, [rebalancedKeys] is kept.  A tick reads the clock
    as [now] while it scans and as [later] when it sheds.

    The theorems, for nodes that are all on one ring: a tick on a node with unbounded
    hints loses no item, and a node without a grace period owns everything it holds
    after a tick and its next scan finds nothing to migrate; and three ways in which
    items or replicas are missed, one of them by nodes on different rings. *)

From stdpp Require Import base gmap strings list fin_maps sets.
From Stdlib Require Import ZArith Lia.
From S2P Require Import Prelude Item Ring Hints DistNode Cluster.

(** ** The code *)

Record RebConfig := MkRebConfig {
  removalGracePeriod : Z; rebalanceBatchSize : Z; replicaDiffMaxPerTick : Z }.

Record Rebal := MkRebal { cl : Cluster; removedAt : gmap string Z; rebalancedKeys : Z (* atomic.Int64 *) }.

Definition with_cl (c : Cluster) (rb : Rebal) : Rebal := MkRebal c (removedAt rb) (rebalancedKeys rb).
Definition with_removed (m : gmap string Z) (rb : Rebal) : Rebal := MkRebal (cl rb) m (rebalancedKeys rb).
Definition countMoved (rb : Rebal) : Rebal := MkRebal (cl rb) (removedAt rb) (i64 (rebalancedKeys rb + 1)).

(** [if _, exists := sh.removedAt[key]; !exists { sh.removedAt[key] = time.Now() }]. *)
Definition noteRemoved (now : Z) (key : string) (rb : Rebal) : Rebal :=
  match removedAt rb !! key with
  | Some _ => rb
  | None => with_removed (<[key := now]> (removedAt rb)) rb
  end.

(** The batches of [migrateItems]: [items[start:min(start+size, len)]] until the end. *)
Fixpoint batches {A} (fuel : nat) (size : nat) (items : list A) : list (list A) :=
  match fuel with
  | 0 => []
  | S fuel => if decide (items = []) then [] else take size items :: batches fuel size (drop size items)
  end.

Section Rebalance.
Context (sum64 : string → Z) (jsonLen : any → option Z) (cfg : RebConfig) (self : string).

(** The order in which [sh.items.All()] yields the items. *)
Context (enum : gmap string Item → list (string * Item)).

Abbreviation grace := (removalGracePeriod cfg).

Definition shouldRebalance (now : Z) (sh : distShard) (it : Item) (rb : Rebal) : option (Rebal * bool) :=
  s ← servers (cl rb) !! self;
  owns ← ownsKeyInternal sum64 (Key it) (node s);
  if negb owns then Some (if (0 <? grace)%Z then noteRemoved now (Key it) rb else rb, true)
  else
    match dring (node s) with
    | None => Some (rb, false)
    | Some r =>
        owners ← Lookup sum64 (Key it) r;
        match owners with
        | [] => Some (rb, false)
        | curPrimary :: _ =>
            match originalPrimary sh !! Key it with
            | None => Some (rb, false)
            | Some prevPrimary => Some (rb, bool_decide (prevPrimary = self) && bool_decide (curPrimary ≠ self))
            end
        end
    end.

Fixpoint collectShard (now : Z) (sh : distShard) (kvs : list (string * Item)) (out : list Item) (rb : Rebal)
    : option (Rebal * list Item) :=
  match kvs with
  | [] => Some (rb, out)
  | (_, it) :: kvs =>
      '(rb, b) ← shouldRebalance now sh it rb;
      collectShard now sh kvs (if b : bool then out ++ [it] else out) rb
  end.

Fixpoint collectShards (now : Z) (shs : list distShard) (out : list Item) (rb : Rebal)
    : option (Rebal * list Item) :=
  match shs with
  | [] => Some (rb, out)
  | sh :: shs => '(rb, out) ← collectShard now sh (enum (d_items sh)) out rb; collectShards now shs out rb
  end.

Definition collectRebalanceCandidates (now : Z) (rb : Rebal) : option (Rebal * list Item) :=
  s ← servers (cl rb) !! self; collectShards now (shards (node s)) [] rb.

(** [sh.originalPrimary[key] = id] and [sh.items.Remove(key)]. *)
Definition setOriginalPrimary (key id : string) (dm : DistMemory) : option DistMemory :=
  '(i, sh) ← shardFor key dm;
  Some (setShard i (MkDShard (d_items sh) (tombs sh) (<[key := id]> (originalPrimary sh)) (originalOwners sh)) dm).
Definition releaseItem (key : string) (dm : DistMemory) : option DistMemory :=
  '(i, sh) ← shardFor key dm;
  Some (setShard i (MkDShard (delete key (d_items sh)) (tombs sh) (originalPrimary sh) (originalOwners sh)) dm).

Definition migrateIfNeeded (now : Z) (item : Item) (rb : Rebal) : option Rebal :=
  s ← servers (cl rb) !! self;
  owners ← lookupOwners sum64 (Key item) (node s);
  match owners with
  | [] => Some rb
  | primary :: _ =>
      if decide (primary = self) then Some rb
      else if negb (hasTransport (conf s)) then Some rb
      else
        let rb := countMoved rb in
        '(c, migrationErr) ← ForwardSet sum64 primary item true (cl rb);
        c ← match migrationErr with
            | None => Some c
            | Some _ => queueHintAt jsonLen self now primary item hintSourceMigration c
            end;
        c ← onNode self (setOriginalPrimary (Key item) primary) c;
        s ← servers c !! self;
        owns ← ownsKeyInternal sum64 (Key item) (node s);
        if owns : bool then Some (with_cl c rb)
        else if (0 <? grace)%Z then Some (noteRemoved now (Key item) (with_cl c rb))
        else c ← onNode self (releaseItem (Key item)) c; Some (with_cl c rb)
  end.

Fixpoint migrateAll (now : Z) (items : list Item) (rb : Rebal) : option Rebal :=
  match items with
  | [] => Some rb
  | it :: items => rb ← migrateIfNeeded now it rb; migrateAll now items rb
  end.

(** The concurrent batches, in an order of their items. *)
Definition migrateItems (sched : list (list Item) → list Item) (now : Z) (items : list Item) (rb : Rebal)
    : option Rebal :=
  migrateAll now (sched (batches (length items) (Z.to_nat (rebalanceBatchSize cfg)) items)) rb.

Definition maybeRecordRemoval (now : Z) (key : string) (rb : Rebal) : option Rebal :=
  if (grace <=? 0)%Z then Some rb
  else
    s ← servers (cl rb) !! self;
    owns ← ownsKeyInternal sum64 key (node s);
    if owns : bool then Some rb else Some (noteRemoved now key rb).

(** [sh.originalOwners[key]] and its update. *)
Definition ownerBaseline (key : string) (c : Cluster) : option (option (list string)) :=
  s ← servers c !! self; '(_, sh) ← shardFor key (node s); Some (originalOwners sh !! key).
Definition putBaseline (key : string) (owners : list string) (dm : DistMemory) : option DistMemory :=
  '(i, sh) ← shardFor key dm;
  Some (setShard i (MkDShard (d_items sh) (tombs sh) (originalPrimary sh)
                      (<[key := owners]> (originalOwners sh))) dm).
Definition setOwnerBaseline (key : string) (owners : list string) (c : Cluster) : option Cluster :=
  onNode self (putBaseline key owners) c.

(** Whether a baseline existed; one is made if not. *)
Definition ensureOwnerBaseline (key : string) (owners : list string) (c : Cluster) : option (Cluster * bool) :=
  base ← ownerBaseline key c;
  match base with
  | Some _ => Some (c, true)
  | None => c ← setOwnerBaseline key owners c; Some (c, false)
  end.

Definition computeNewReplicas (prev owners : list string) : list string :=
  filter (λ o, o ∉ prev) (tail owners).

Definition hitLimit (limit processed : Z) : bool := (0 <? limit)%Z && (limit <=? processed)%Z.

Fixpoint sendReplicaDiff (it : Item) (repls : list string) (processed limit : Z) (rb : Rebal)
    : option (Rebal * Z) :=
  match repls with
  | [] => Some (rb, processed)
  | rid :: repls =>
      if decide (rid = self) then sendReplicaDiff it repls processed limit rb
      else
        '(c, _) ← ForwardSet sum64 rid it false (cl rb);
        let rb := countMoved (with_cl c rb) in
        let processed := (processed + 1)%Z in
        if hitLimit limit processed then Some (rb, processed)
        else sendReplicaDiff it repls processed limit rb
  end.

(** One item of [replDiffShard]. *)
Definition replDiffItem (now : Z) (it : Item) (processed limit : Z) (rb : Rebal) : option (Rebal * Z) :=
  s ← servers (cl rb) !! self;
  owners ← lookupOwners sum64 (Key it) (node s);
  match owners with
  | [] => rb ← maybeRecordRemoval now (Key it) rb; Some (rb, processed)
  | primary :: _ =>
      if decide (primary ≠ self) then rb ← maybeRecordRemoval now (Key it) rb; Some (rb, processed)
      else
        '(c, existed) ← ensureOwnerBaseline (Key it) owners (cl rb);
        let rb := with_cl c rb in
        if negb existed then Some (rb, processed)
        else
          prev ← ownerBaseline (Key it) (cl rb);
          let newRepls := computeNewReplicas (default [] prev) owners in
          if decide (newRepls = []) then Some (rb, processed)
          else
            '(rb, processed) ← sendReplicaDiff it newRepls processed limit rb;
            c ← setOwnerBaseline (Key it) owners (cl rb);
            Some (with_cl c rb, processed)
  end.

Fixpoint replDiffLoop (now : Z) (snapshot : list (string * Item)) (processed limit : Z) (rb : Rebal)
    : option (Rebal * Z) :=
  match snapshot with
  | [] => Some (rb, processed)
  | (_, it) :: snapshot =>
      if hitLimit limit processed then Some (rb, processed)
      else '(rb, processed) ← replDiffItem now it processed limit rb; replDiffLoop now snapshot processed limit rb
  end.

(** [replDiffShard] of shard [i], whose items are read when its turn comes. *)
Definition replDiffShard (now : Z) (i : nat) (processed limit : Z) (rb : Rebal) : option (Rebal * Z) :=
  s ← servers (cl rb) !! self;
  sh ← shards (node s) !! i;
  replDiffLoop now (enum (d_items sh)) processed limit rb.

Fixpoint replDiffShards (now : Z) (idxs : list nat) (processed limit : Z) (rb : Rebal) : option Rebal :=
  match idxs with
  | [] => Some rb
  | i :: idxs =>
      '(rb, processed) ← replDiffShard now i processed limit rb;
      if hitLimit limit processed then Some rb else replDiffShards now idxs processed limit rb
  end.

Definition replicateNewReplicas (now : Z) (rb : Rebal) : option Rebal :=
  s ← servers (cl rb) !! self;
  match dring (node s), hasTransport (conf s) with
  | Some _, true => replDiffShards now (seq 0 (length (shards (node s)))) 0 (replicaDiffMaxPerTick cfg) rb
  | _, _ => Some rb
  end.

(** The second loop of [shedShard]: ownership is tested again. *)
Fixpoint shedLoop (dels : list string) (rb : Rebal) : option Rebal :=
  match dels with
  | [] => Some rb
  | k :: dels =>
      s ← servers (cl rb) !! self;
      owns ← ownsKeyInternal sum64 k (node s);
      if owns : bool then shedLoop dels rb
      else c ← onNode self (releaseItem k) (cl rb); shedLoop dels (with_cl c rb)
  end.

Definition shedRemovedKeys (later : Z) (rb : Rebal) : option Rebal :=
  if (grace <=? 0)%Z then Some rb
  else
    let due := filter (λ kt, (grace ≤ sat64 (later - kt.2))%Z) (removedAt rb) in
    shedLoop (map_to_list due).*1 (with_removed (removedAt rb ∖ due) rb).

Definition runRebalanceTick (sched : list (list Item) → list Item) (now later : Z) (rb : Rebal) : option Rebal :=
  '(rb, candidates) ← collectRebalanceCandidates now rb;
  rb ← (if decide (0 < length candidates) then migrateItems sched now candidates rb else Some rb);
  rb ← replicateNewReplicas now rb;
  shedRemovedKeys later rb.

End Rebalance.

(** ** Local operations *)

(** The recorded primary of a key. *)
Definition prim (dm : DistMemory) (k : string) : option string :=
  '(_, sh) ← shardFor k dm; originalPrimary sh !! k.

Lemma prim_setShard key dm i sh sh' :
  hashKey key dm = Some i → shards dm !! i = Some sh →
  (∀ k, k ≠ key → originalPrimary sh' !! k = originalPrimary sh !! k) →
  ∀ k, prim (setShard i sh' dm) k = if decide (k = key) then originalPrimary sh' !! key else prim dm k.
Proof.
  intros Ei Hsh Ho k. unfold prim, shardFor. change (hashKey k (setShard i sh' dm)) with (hashKey k dm).
  cbn [setShard with_shards shards]. case_decide as Ek; [subst k|].
  - rewrite Ei. cbn [mbind option_bind]. rewrite list_lookup_insert_eq by by eapply lookup_lt_Some. done.
  - destruct (hashKey k dm) as [j|]; [|done]. cbn [mbind option_bind].
    destruct (decide (j = i)) as [->|]; [|by rewrite list_lookup_insert_ne].
    rewrite list_lookup_insert_eq by (by eapply lookup_lt_Some). rewrite Hsh. cbn. by rewrite Ho.
Qed.

Section LocalFacts.
Context (sum64 : string → Z).

Lemma storeItem_prim it dm dm' :
  node_wf dm → storeItem sum64 it dm = Some dm' →
  (∀ k, k ≠ Key it → prim dm' k = prim dm k) ∧ (∀ x, prim dm (Key it) = Some x → prim dm' (Key it) = Some x).
Proof.
  intros Hwf. destruct (shardFor_ok (Key it) dm Hwf) as (i & sh & E & Ei & Hsh & _).
  unfold storeItem. rewrite E. cbn [mbind option_bind].
  assert (∃ sh1, recordOriginalPrimary sum64 (Key it) dm sh = Some sh1 ∧
    (∀ k, k ≠ Key it → originalPrimary sh1 !! k = originalPrimary sh !! k) ∧
    (∀ x, originalPrimary sh !! Key it = Some x → originalPrimary sh1 !! Key it = Some x)) as (sh1 & -> & Hne & Heq).
  { unfold recordOriginalPrimary. destruct (dring dm) as [r|]; [|exists sh; split_and!; auto].
    destruct (originalPrimary sh !! Key it) eqn:Eo; [exists sh; split_and!; auto; congruence|].
    destruct (Lookup_total sum64 (Key it) r) as (l & -> & _ & _). cbn. destruct l as [|o l]; [exists sh; split_and!; auto; congruence|].
    eexists. split; [done|]. cbn. split; [|congruence]. intros k Hk. by rewrite lookup_insert_ne. }
  cbn [mbind option_bind]. intros [= <-]. split.
  - intros k Hk. rewrite (prim_setShard (Key it) dm i sh _ Ei Hsh) by done. by rewrite decide_False.
  - intros x Hx. rewrite (prim_setShard (Key it) dm i sh _ Ei Hsh) by done. rewrite decide_True by done. cbn.
    apply Heq. unfold prim in Hx. rewrite E in Hx. exact Hx.
Qed.

Lemma setOriginalPrimary_ok key id dm :
  node_wf dm → ∃ dm', setOriginalPrimary key id dm = Some dm' ∧ node_wf dm' ∧ same_node dm dm' ∧
    items_of dm' = items_of dm ∧ ∀ k, prim dm' k = if decide (k = key) then Some id else prim dm k.
Proof.
  intros Hwf. destruct (shardFor_ok key dm Hwf) as (i & sh & E & Ei & Hsh & Ed & _).
  unfold setOriginalPrimary. rewrite E. cbn [mbind option_bind]. eexists. split; [done|].
  match goal with |- context [setShard i ?sh' dm] =>
    destruct (setShard_ok key dm i sh sh' Hwf Ei Hsh) as (Hwf' & Hi' & _) end; [done..|]. split_and!; [exact Hwf'|done| |].
  - rewrite Hi'. cbn. rewrite Ed. apply partial_alter_self.
  - intros k. rewrite (prim_setShard key dm i sh _ Ei Hsh); [cbn; by rewrite lookup_insert_eq|].
    intros k' Hk'. cbn. by rewrite lookup_insert_ne.
Qed.

Lemma releaseItem_ok key dm :
  node_wf dm → ∃ dm', releaseItem key dm = Some dm' ∧ node_wf dm' ∧ same_node dm dm' ∧
    items_of dm' = delete key (items_of dm) ∧ ∀ k, prim dm' k = prim dm k.
Proof.
  intros Hwf. destruct (shardFor_ok key dm Hwf) as (i & sh & E & Ei & Hsh & Ed & _).
  unfold releaseItem. rewrite E. cbn [mbind option_bind]. eexists. split; [done|].
  match goal with |- context [setShard i ?sh' dm] =>
    destruct (setShard_ok key dm i sh sh' Hwf Ei Hsh) as (Hwf' & Hi' & _) end; [|done|].
  { intros k' Hk'. cbn. by rewrite lookup_delete_ne. }
  split_and!; [exact Hwf'|done| |].
  - rewrite Hi'. cbn. by rewrite lookup_delete_eq.
  - intros k. rewrite (prim_setShard key dm i sh _ Ei Hsh) by done. case_decide as Ek; [|done]. subst.
    unfold prim. by rewrite E.
Qed.

Lemma putBaseline_ok key owners dm :
  node_wf dm → ∃ dm', putBaseline key owners dm = Some dm' ∧
    node_wf dm' ∧ same_node dm dm' ∧ items_of dm' = items_of dm ∧ ∀ k, prim dm' k = prim dm k.
Proof.
  intros Hwf. destruct (shardFor_ok key dm Hwf) as (i & sh & E & Ei & Hsh & Ed & _).
  unfold putBaseline. rewrite E. cbn [mbind option_bind]. eexists. split; [done|].
  match goal with |- context [setShard i ?sh' dm] =>
    destruct (setShard_ok key dm i sh sh' Hwf Ei Hsh) as (Hwf' & Hi' & _) end; [done..|]. split_and!; [exact Hwf'|done| |].
  - rewrite Hi'. cbn. rewrite Ed. apply partial_alter_self.
  - intros k. rewrite (prim_setShard key dm i sh _ Ei Hsh) by done. case_decide as Ek; [|done]. subst.
    unfold prim. by rewrite E.
Qed.

End LocalFacts.

Lemma batches_concat {A} size fuel : ∀ items : list A,
  0 < size → length items ≤ fuel → concat (batches fuel size items) = items.
Proof.
  induction fuel as [|fuel IH]; intros items Hs Hl; cbn [batches].
  { destruct items; [done|cbn in Hl; lia]. }
  case_decide as E; [by subst|]. cbn [concat]. rewrite IH; [apply take_drop|done|].
  rewrite length_drop. destruct items; [done|]. cbn in *. lia.
Qed.

(** ** On the cluster *)

Section RebalanceFacts.
Context (sum64 : string → Z) (jsonLen : any → option Z) (r : Ring) (cfg : RebConfig) (self : string).
Context (enum : gmap string Item → list (string * Item)).
Abbreviation grace := (removalGracePeriod cfg).

Definition recorded (c : Cluster) (k : string) : option string := s ← servers c !! self; prim (node s) k.

(** All nodes are on the same ring [r], the receivers of a migration included, and
    have a transport: the cluster after a membership change has reached every node. *)
Record ready (c : Cluster) : Prop := {
  rd_wf : cluster_wf r c;
  rd_self : is_Some (servers c !! self);
  rd_transport : ∀ id b, servers c !! id = Some b → hasTransport (conf b) = true }.

Lemma ready_frame c c' : ready c → cluster_wf r c' → frame c c' → ready c'.
Proof.
  intros [Hwf Hs Ht] Hwf' Hf. split; [done|by eapply frame_is_Some|].
  intros id b Hb. destruct Hf as [_ Hf]. specialize (Hf id). rewrite Hb in Hf.
  destruct (servers c !! id) as [b0|] eqn:E; [|done]. cbn in Hf. injection Hf as -> _. by eapply Ht.
Qed.

(** What storing an item, on whatever nodes, does to this node's recorded primaries. *)
Record spreads (it : Item) (c c' : Cluster) : Prop := {
  sp_other : ∀ k, k ≠ Key it → recorded c' k = recorded c k;
  sp_same : ∀ x, recorded c (Key it) = Some x → recorded c' (Key it) = Some x }.

#[local] Instance spreads_preorder it : PreOrder (spreads it).
Proof.
  split; [by split|]. intros a b c [H1 H2] [H3 H4]. split; [|by auto]. intros k Hk. by rewrite H3, H1.
Qed.

Lemma storeAt_spreads id it c c' :
  cluster_wf r c → storeAt sum64 id it c = Some c' → cluster_wf r c' ∧ spreads it c c'.
Proof.
  intros Hwf E. split.
  { destruct (storeAt_ok sum64 r id it c Hwf) as (c1 & E1 & Hwf1 & _).
    - unfold storeAt, onNode in E. apply bind_Some in E as (s & Hs & _). by eexists.
    - rewrite E in E1. by injection E1 as ->. }
  unfold storeAt, onNode in E. apply bind_Some in E as (s & Hs & (dm & Ed & [= <-])%bind_Some).
  destruct (storeItem_prim sum64 it (node s) dm (sw_node _ _ _ (Hwf _ _ Hs)) Ed) as [Hne Heq].
  split; unfold recorded.
  - intros k Hk. rewrite putNode_lookup. case_decide; [|done]. subst. rewrite Hs. cbn. by apply Hne.
  - intros x. rewrite putNode_lookup. case_decide; [|done]. subst. rewrite Hs. cbn. apply Heq.
Qed.

Lemma deliverSet_spreads oid it c c' e :
  cluster_wf r c → deliverSet sum64 oid it c = Some (c', e) → cluster_wf r c' ∧ spreads it c c'.
Proof.
  intros Hwf. unfold deliverSet. destruct (lookup_ oid c); [|by intros [= <- _]].
  intros ([] & _ & H)%bind_Some; [|by injection H as <- _].
  apply bind_Some in H as (c1 & H & [= <- _]). by apply storeAt_spreads in H.
Qed.

Lemma fanOutSet_spreads id it l : ∀ c c',
  cluster_wf r c → fanOutSet sum64 id l it c = Some c' → cluster_wf r c' ∧ spreads it c c'.
Proof.
  induction l as [|oid l IH]; intros c c' Hwf; cbn [fanOutSet]; [by intros [= <-]|].
  case_decide; [by apply IH|]. intros ([c1 e] & H1 & H2)%bind_Some.
  apply deliverSet_spreads in H1 as [Hwf1 H1]; [|done]. apply IH in H2 as [Hwf2 H2]; [|done]. split; [done|by etrans].
Qed.

Lemma ForwardSet_spreads oid it b c c' e :
  cluster_wf r c → ForwardSet sum64 oid it b c = Some (c', e) → cluster_wf r c' ∧ spreads it c c'.
Proof.
  intros Hwf. unfold ForwardSet. destruct (lookup_ oid c); [|by intros [= <- _]].
  intros ([] & _ & H)%bind_Some; [|by injection H as <- _].
  apply bind_Some in H as (c2 & H & [= <- _]). unfold applySet in H.
  apply bind_Some in H as (c1 & H1 & H). apply storeAt_spreads in H1 as [Hwf1 H1]; [|done].
  apply bind_Some in H as (s' & Hs' & H). destruct b; [|by simplify_eq].
  destruct (dring (node s')) as [r'|]; [|by simplify_eq]. apply bind_Some in H as (os & _ & H).
  destruct (_ || _); [by simplify_eq|]. apply fanOutSet_spreads in H as [Hwf2 H2]; [|done]. split; [done|by etrans].
Qed.

(** A local operation of this node. *)
Lemma onNode_ok f c s dm :
  cluster_wf r c → servers c !! self = Some s → f (node s) = Some dm → node_wf dm →
  same_node (node s) dm → keys_ok (items_of dm) →
  ∃ c', onNode self f c = Some c' ∧ cluster_wf r c' ∧ frame c c' ∧ same_hints c c' ∧
    (∀ id k, holds c' id k = if decide (id = self) then items_of dm !! k else holds c id k) ∧
    (∀ k, recorded c' k = prim dm k) ∧ node <$> servers c' !! self = Some dm.
Proof.
  intros Hwf Hs Ef Hn Hsame Hk. pose proof (Hwf _ _ Hs) as [? Hid Hr ?].
  destruct Hsame as (Ei & Ec & Er & _).
  destruct (putNode_ok r self s dm c Hwf Hs) as (Hwf' & Hf & Hh); [split; cbn; first [done|congruence]|].
  exists (putNode self dm c). split_and!; [|exact Hwf'|exact Hf| | | |].
  - unfold onNode. rewrite Hs. cbn. by rewrite Ef.
  - intros id. rewrite putNode_lookup. case_decide; [|done]. subst. by rewrite Hs.
  - exact Hh.
  - intros k. unfold recorded. rewrite putNode_lookup, decide_True by done. by rewrite Hs.
  - rewrite putNode_lookup, decide_True by done. by rewrite Hs.
Qed.

Lemma queueHintAt_self now oid it src c s :
  servers c !! self = Some s →
  ∃ h c', queueHint jsonLen (hintConfig (conf s)) now oid it src (hintq s) = Some h ∧
    queueHintAt jsonLen self now oid it src c = Some c' ∧ hintq <$> servers c' !! self = Some h ∧
    (∀ k, recorded c' k = recorded c k).
Proof.
  intros Hs. destruct (queueHint_total jsonLen (hintConfig (conf s)) now oid it src (hintq s)) as [h E].
  unfold queueHintAt. rewrite Hs. cbn. rewrite E. cbn. exists h. eexists. split_and!; [done|done| |].
  - cbn. by rewrite lookup_insert_eq.
  - intros k. unfold recorded. cbn. by rewrite lookup_insert_eq, Hs.
Qed.

Lemma owns_eq k s os : server_wf r self s → Lookup sum64 k r = Some os → os ≠ [] →
  ownsKeyInternal sum64 k (node s) = Some (bool_decide (self ∈ os)).
Proof.
  intros [_ Hid Hr _] Hos Hne. unfold ownsKeyInternal. rewrite Hr, Hos. cbn [mbind option_bind]. rewrite Hid.
  case_decide; [by rewrite bool_decide_eq_true_2|].
  rewrite (bool_decide_eq_false_2 (self ∈ os)) by done. by rewrite bool_decide_eq_false_2 by (by destruct os).
Qed.

(** What the migration of one item does to the cluster. *)
Record migrated (now : Z) (it : Item) (p : string) (os : list string) (rb rb' : Rebal) : Prop := {
  mg_ready : ready (cl rb');
  mg_frame : frame (cl rb) (cl rb');
  mg_holds : ∀ id k, holds (cl rb') id k =
    if decide (id = self ∧ k = Key it ∧ self ∉ p :: os ∧ (grace ≤ 0)%Z) then None
    else if decide (reachable (cl rb) p ∧ id ∈ p :: os ∧ reachable (cl rb) id ∧ k = Key it) then Some it
    else holds (cl rb) id k;
  mg_here : recorded (cl rb') (Key it) = Some p;
  mg_other : ∀ k, k ≠ Key it → recorded (cl rb') k = recorded (cl rb) k;
  mg_hints : ∀ s, servers (cl rb) !! self = Some s → ∃ s', servers (cl rb') !! self = Some s' ∧
    if decide (reachable (cl rb) p) then hintq s' = hintq s
    else queueHint jsonLen (hintConfig (conf s)) now p it hintSourceMigration (hintq s) = Some (hintq s');
  mg_removed : ∀ k, is_Some (removedAt rb !! k) → is_Some (removedAt rb' !! k) }.

(** The forward to the new primary, with its hint on failure. *)
Lemma forward_ok now it p os c :
  ready c → Lookup sum64 (Key it) r = Some (p :: os) →
  ∃ c1 err c2, ForwardSet sum64 p it true c = Some (c1, err) ∧
    match err with
    | None => Some c1
    | Some _ => queueHintAt jsonLen self now p it hintSourceMigration c1
    end = Some c2 ∧ cluster_wf r c2 ∧ frame c c2 ∧ spreads it c c2 ∧
    (∀ id k, holds c2 id k =
      if decide (reachable c p ∧ id ∈ p :: os ∧ reachable c id ∧ k = Key it) then Some it else holds c id k) ∧
    (∀ s, servers c !! self = Some s → ∃ s', servers c2 !! self = Some s' ∧
      if decide (reachable c p) then hintq s' = hintq s
      else queueHint jsonLen (hintConfig (conf s)) now p it hintSourceMigration (hintq s) = Some (hintq s')).
Proof.
  intros [Hwf [s0 Hs0] Ht] Hos. destruct (decide (reachable c p)) as [Hre|Hre].
  - destruct (reachable_server _ _ Hre) as (b & Hb & _).
    destruct (ForwardSet_primary sum64 r it os p c b Hwf Hos Hre Hb (Ht _ _ Hb)) as (c1 & E & Hwf1 & Hf & Hq & Hh).
    exists c1, None, c1. split_and!; try done.
    + by eapply ForwardSet_spreads.
    + intros id k. rewrite Hh. repeat case_decide; tauto.
    + intros s Hs. destruct (frame_server _ _ _ _ Hf Hs) as (s' & Hs' & _). exists s'. split; [done|].
      specialize (Hq self). rewrite Hs, Hs' in Hq. by injection Hq.
  - assert (lookup_ p c = None) as El by (apply eq_None_not_Some; exact Hre).
    destruct (queueHintAt_ok jsonLen r self now p it hintSourceMigration c Hwf) as (c2 & E2 & Hwf2 & Hf2 & Hh2);
      [by eexists|].
    exists c, (Some ErrBackendNotFound), c2. unfold ForwardSet. rewrite El. split_and!; try done.
    + destruct (queueHintAt_self now p it hintSourceMigration c s0 Hs0) as (h & c2' & _ & E2' & _ & Hr).
      assert (c2' = c2) as -> by congruence. split; intros; rewrite Hr; done.
    + intros id k. rewrite Hh2, decide_False by tauto. done.
    + intros s Hs. destruct (queueHintAt_self now p it hintSourceMigration c s Hs) as (h & c2' & Eh & E2' & Hq & _).
      assert (c2' = c2) as -> by congruence. destruct (servers c2 !! self) as [s'|]; [|done].
      exists s'. split; [done|]. injection Hq as ->. done.
Qed.

Lemma noteRemoved_ok now k rb : cl (noteRemoved now k rb) = cl rb ∧
  (∀ k', is_Some (removedAt rb !! k') → is_Some (removedAt (noteRemoved now k rb) !! k')).
Proof.
  unfold noteRemoved. destruct (removedAt rb !! k) eqn:E; [done|]. split; [done|]. cbn. intros k' Hk'.
  destruct (decide (k = k')) as [->|]; [by rewrite lookup_insert_eq|by rewrite lookup_insert_ne].
Qed.

Lemma migrate_ok now it p os rb :
  ready (cl rb) → Lookup sum64 (Key it) r = Some (p :: os) → p ≠ self →
  ∃ rb', migrateIfNeeded sum64 jsonLen cfg self now it rb = Some rb' ∧ migrated now it p os rb rb'.
Proof.
  intros Hrd Hos Hne. pose proof Hrd as [Hwf [s Hs] Ht]. pose proof (Hwf _ _ Hs) as Hsw.
  destruct (forward_ok now it p os (cl rb) Hrd Hos) as (c1 & err & c2 & E1 & E2 & Hwf2 & Hf2 & Hsp & Hh2 & Hq2).
  destruct (Hq2 s Hs) as (s2 & Hs2 & Hq). pose proof (Hwf2 _ _ Hs2) as Hsw2.
  destruct (setOriginalPrimary_ok (Key it) p (node s2) (sw_node _ _ _ Hsw2)) as (dm & Ed & Hn & Hsame & Ei & Hp).
  destruct (onNode_ok (setOriginalPrimary (Key it) p) c2 s2 dm Hwf2 Hs2 Ed Hn Hsame) as
    (c3 & E3 & Hwf3 & Hf3 & Hq3 & Hh3 & Hr3 & _); [rewrite Ei; apply Hsw2|].
  destruct (frame_server _ _ _ _ Hf3 Hs2) as (s3 & Hs3 & _). pose proof (Hwf3 _ _ Hs3) as Hsw3.
  assert (hintq s3 = hintq s2) as Eq3.
  { specialize (Hq3 self). rewrite Hs2, Hs3 in Hq3. by injection Hq3. }
  assert (∀ id k, holds c3 id k = holds c2 id k) as Hh23.
  { intros id k. rewrite Hh3. destruct (decide (id = self)) as [->|]; [|reflexivity]. unfold holds. rewrite Hs2. cbn. by rewrite Ei. }
  assert (∀ k, recorded c2 k = prim (node s2) k) as Er2 by (intros k; unfold recorded; by rewrite Hs2).
  assert (frame (cl rb) c3) as Hf13 by (by etrans).
  assert (ready c3) as Hrd3 by (by eapply ready_frame).
  assert (∀ k, k ≠ Key it → recorded c3 k = recorded (cl rb) k) as Hoth.
  { intros k Hk. rewrite Hr3, Hp, decide_False by done. rewrite <- Er2. by apply (sp_other _ _ _ Hsp). }
  assert (recorded c3 (Key it) = Some p) as Hhere by (by rewrite Hr3, Hp, decide_True).
  unfold migrateIfNeeded. rewrite Hs. cbn [mbind option_bind]. unfold lookupOwners.
  rewrite (sw_ring _ _ _ Hsw), Hos. cbn [mbind option_bind]. rewrite decide_False by done.
  rewrite (Ht _ _ Hs). cbn [negb countMoved cl]. rewrite E1. cbn [mbind option_bind]. rewrite E2.
  cbn [mbind option_bind]. rewrite E3. cbn [mbind option_bind]. rewrite Hs3. cbn [mbind option_bind].
  rewrite (owns_eq _ s3 _ Hsw3 Hos) by discriminate. cbn [mbind option_bind].
  case_bool_decide as Hin; [|destruct (0 <? grace)%Z eqn:Eg].
  - eexists. split; [done|]. split; cbn; try done.
    + intros id k. rewrite Hh23, Hh2. rewrite (decide_False (P := _ ∧ _ ∧ self ∉ _ ∧ _)) by tauto. done.
    + intros s' Hs'. assert (s' = s) as -> by congruence. exists s3. split; [done|]. by rewrite Eq3.
  - eexists. split; [done|]. destruct (noteRemoved_ok now (Key it) (with_cl c3 (countMoved rb))) as [Ecl Hrm].
    cbn [cl with_cl] in Ecl. split; rewrite ?Ecl; try done.
    + intros id k. rewrite Hh23, Hh2. rewrite (decide_False (P := _ ∧ _ ∧ self ∉ _ ∧ _)) by lia. done.
    + intros s' Hs'. assert (s' = s) as -> by congruence. exists s3. split; [done|]. by rewrite Eq3.
  - destruct (releaseItem_ok (Key it) (node s3) (sw_node _ _ _ Hsw3)) as (dm4 & Ed4 & Hn4 & Hsame4 & Ei4 & Hp4).
    destruct (onNode_ok (releaseItem (Key it)) c3 s3 dm4 Hwf3 Hs3 Ed4 Hn4 Hsame4) as
      (c4 & E4 & Hwf4 & Hf4 & Hq4 & Hh4 & Hr4 & _).
    { rewrite Ei4. intros k x [_ Hx]%lookup_delete_Some. by apply Hsw3. }
    rewrite E4. cbn [mbind option_bind]. eexists. split; [done|].
    assert (∀ k, recorded c4 k = recorded c3 k) as Er4.
    { intros k. rewrite Hr4, Hp4. unfold recorded. by rewrite Hs3. }
    split; cbn; try done.
    + by eapply ready_frame.
    + by etrans.
    + intros id k. rewrite Hh4. destruct (decide (id = self)) as [->|Hid].
      * rewrite Ei4. destruct (decide (k = Key it)) as [->|Hk].
        -- rewrite lookup_delete_eq, decide_True; [done|]. split_and!; [done..|]. lia.
        -- rewrite lookup_delete_ne by done. rewrite (decide_False (P := _ ∧ _ ∧ self ∉ _ ∧ _)) by tauto.
           rewrite <- Hh2, <- Hh23. unfold holds. by rewrite Hs3.
      * rewrite Hh23, Hh2. rewrite (decide_False (P := id = self ∧ _)) by tauto. done.
    + by rewrite Er4.
    + intros k Hk. rewrite Er4. by apply Hoth.
    + intros s' Hs'. assert (s' = s) as -> by congruence.
      destruct (frame_server _ _ _ _ Hf4 Hs3) as (s4 & Hs4 & _). exists s4. split; [done|].
      specialize (Hq4 self). rewrite Hs3, Hs4 in Hq4. injection Hq4 as ->. by rewrite Eq3.
Qed.

(** *** The scan *)

Definition owners (k : string) : list string := default [] (Lookup sum64 k r).

Lemma Lookup_owners k : Lookup sum64 k r = Some (owners k).
Proof. unfold owners. by destruct (Lookup_total sum64 k r) as (l & -> & _). Qed.

(** Whether a key moves, given the primary recorded for it. *)
Definition moves (os : list string) (prev : option string) : bool :=
  match os with
  | [] => false
  | p :: _ => negb (bool_decide (self ∈ os)) || (bool_decide (prev = Some self) && bool_decide (p ≠ self))
  end.

Lemma moves_true os prev : moves os prev = true → ∃ p os', os = p :: os' ∧ p ≠ self.
Proof.
  destruct os as [|p os]; cbn [moves]; [done|]. intros H. exists p, os. split; [done|]. intros ->.
  rewrite bool_decide_eq_true_2 in H by (by left). rewrite (bool_decide_eq_false_2 (self ≠ self)) in H by tauto.
  by rewrite andb_false_r in H.
Qed.

Definition same_but_removed (rb rb' : Rebal) : Prop :=
  cl rb' = cl rb ∧ rebalancedKeys rb' = rebalancedKeys rb ∧ ((grace ≤ 0)%Z → rb' = rb).

#[local] Instance same_but_removed_preorder : PreOrder same_but_removed.
Proof.
  split; [intros a; split_and!; done|]. intros a b c (E1 & E2 & E3) (F1 & F2 & F3).
  split_and!; [congruence..|]. intros H. by rewrite F3, E3.
Qed.

Lemma noteRemoved_same now k rb : (0 < grace)%Z → same_but_removed rb (noteRemoved now k rb).
Proof. intros Hg. unfold noteRemoved. destruct (removedAt rb !! k); [done|]. split_and!; [done..|lia]. Qed.

Lemma shouldRebalance_ok now sh it rb :
  ready (cl rb) →
  ∃ rb', shouldRebalance sum64 cfg self now sh it rb =
      Some (rb', moves (owners (Key it)) (originalPrimary sh !! Key it)) ∧ same_but_removed rb rb'.
Proof.
  intros [Hwf [s Hs] _]. pose proof (Hwf _ _ Hs) as Hsw. unfold shouldRebalance. rewrite Hs. cbn [mbind option_bind].
  destruct (owners (Key it)) as [|p os] eqn:Eo.
  - unfold ownsKeyInternal. rewrite (sw_ring _ _ _ Hsw), Lookup_owners, Eo. cbn. by exists rb.
  - rewrite (owns_eq _ s _ Hsw (Lookup_owners _)) by (rewrite Eo; discriminate). rewrite Eo.
    cbn [mbind option_bind moves]. case_bool_decide as Hin; cbn [negb orb].
    + rewrite (sw_ring _ _ _ Hsw), Lookup_owners, Eo. cbn [mbind option_bind].
      destruct (originalPrimary sh !! Key it) as [prev|]; [|by exists rb]. exists rb. split; [|done].
      do 3 f_equal. apply bool_decide_ext. naive_solver.
    + destruct (0 <? grace)%Z eqn:Eg; [|by exists rb]. eexists. split; [done|]. apply noteRemoved_same. lia.
Qed.

Lemma collectShard_ok now sh kvs : ∀ out rb, ready (cl rb) →
  ∃ rb', collectShard sum64 cfg self now sh kvs out rb =
      Some (rb', out ++ filter (λ it, moves (owners (Key it)) (originalPrimary sh !! Key it) = true) kvs.*2) ∧
    same_but_removed rb rb'.
Proof.
  induction kvs as [|[k it] kvs IH]; intros out rb Hrd; cbn [collectShard].
  { exists rb. by rewrite app_nil_r. }
  destruct (shouldRebalance_ok now sh it rb Hrd) as (rb1 & -> & H1). cbn [mbind option_bind].
  pose proof H1 as (Ecl & _). rewrite <- Ecl in Hrd.
  destruct (IH (if moves (owners (Key it)) (originalPrimary sh !! Key it) then out ++ [it] else out) rb1 Hrd)
    as (rb2 & -> & H2). exists rb2. split; [|by etrans]. do 2 f_equal. cbn [fmap list_fmap snd].
  rewrite filter_cons. destruct (moves _ _); cbn; [|done]. by rewrite <- app_assoc.
Qed.

Context (enum_perm : ∀ m, enum m ≡ₚ map_to_list m).

Lemma elem_of_enum m it : it ∈ (enum m).*2 ↔ ∃ k, m !! k = Some it.
Proof.
  rewrite enum_perm, list_elem_of_fmap. split.
  - intros ([k x] & -> & H%elem_of_map_to_list). by exists k.
  - intros [k H]. exists (k, it). split; [done|]. by apply elem_of_map_to_list.
Qed.

Lemma collectShards_ok now shs : ∀ out rb, ready (cl rb) →
  ∃ rb' out', collectShards sum64 cfg self enum now shs out rb = Some (rb', out') ∧ same_but_removed rb rb' ∧
    ∀ it, it ∈ out' ↔ it ∈ out ∨ ∃ sh k, sh ∈ shs ∧ d_items sh !! k = Some it ∧
      moves (owners (Key it)) (originalPrimary sh !! Key it) = true.
Proof.
  induction shs as [|sh shs IH]; intros out rb Hrd; cbn [collectShards].
  { exists rb, out. split_and!; [done..|]. intros it. split; [by left|].
    intros [?|(sh & k & Hsh & _)]; [done|]. by apply elem_of_nil in Hsh. }
  destruct (collectShard_ok now sh (enum (d_items sh)) out rb Hrd) as (rb1 & -> & H1). cbn [mbind option_bind].
  pose proof H1 as (Ecl & _). rewrite <- Ecl in Hrd.
  match goal with |- context [collectShards _ _ _ _ _ _ ?o rb1] => destruct (IH o rb1 Hrd) as (rb2 & out' & -> & H2 & Ho) end.
  exists rb2, out'. split_and!; [done|by etrans|]. intros it. rewrite Ho, elem_of_app, list_elem_of_filter, elem_of_enum.
  split.
  - intros [[?|[Hm [k Hk]]]|(sh' & k & ? & ?)]; [by left|right; exists sh, k; split; [by left|done]|].
    right. exists sh', k. split; [by right|done].
  - intros [?|(sh' & k & [->|Hsh]%elem_of_cons & Hk & Hm)]; [by left; left|left; right; eauto|].
    right. by exists sh', k.
Qed.

(** The candidates are the items of the node whose key moves. *)
Definition candidate (c : Cluster) (it : Item) : Prop :=
  holds c self (Key it) = Some it ∧ moves (owners (Key it)) (recorded c (Key it)) = true.

Lemma shard_item dm sh k it : node_wf dm → sh ∈ shards dm → d_items sh !! k = Some it →
  items_of dm !! k = Some it ∧ prim dm k = originalPrimary sh !! k.
Proof.
  intros Hwf (i & Hi)%list_elem_of_lookup Hk. pose proof (nw_items _ Hwf i (d_items sh) k) as Hp.
  assert (hashKey k dm = Some i) as Eh.
  { apply Hp; [by rewrite list_lookup_fmap, Hi|by eexists]. }
  destruct (shardFor_ok k dm Hwf) as (j & sh' & Es & Eh' & Hj & Ed & _).
  assert (j = i) as -> by congruence. assert (sh' = sh) as -> by congruence.
  split; [congruence|]. unfold prim. by rewrite Es.
Qed.

Lemma collect_ok now rb : ready (cl rb) →
  ∃ rb' cands, collectRebalanceCandidates sum64 cfg self enum now rb = Some (rb', cands) ∧
    same_but_removed rb rb' ∧ ∀ it, it ∈ cands ↔ candidate (cl rb) it.
Proof.
  intros Hrd. pose proof Hrd as [Hwf [s Hs] _]. pose proof (Hwf _ _ Hs) as Hsw.
  unfold collectRebalanceCandidates. rewrite Hs. cbn [mbind option_bind].
  destruct (collectShards_ok now (shards (node s)) [] rb Hrd) as (rb' & out & -> & Hsame & Ho).
  exists rb', out. split_and!; [done..|]. intros it. rewrite Ho. unfold candidate, holds, recorded.
  rewrite Hs. cbn [mbind option_bind]. split.
  - intros [H|(sh & k & Hsh & Hk & Hm)]; [by apply elem_of_nil in H|].
    destruct (shard_item _ sh k it (sw_node _ _ _ Hsw) Hsh Hk) as [Hi Hp].
    pose proof (sw_keys _ _ _ Hsw k it Hi) as <-. by rewrite Hp.
  - intros [Hi Hm]. right. destruct (shardFor_ok (Key it) (node s) (sw_node _ _ _ Hsw)) as (i & sh & E & _ & Hsh & Ed & _).
    exists sh, (Key it). split_and!; [by eapply list_elem_of_lookup_2|congruence|].
    unfold prim in Hm. by rewrite E in Hm.
Qed.

(** *** Migration *)

(** A hint for the item waits in this node's queue for [p]. *)
Definition hinted (c : Cluster) (p : string) (it : Item) : Prop :=
  ∃ s q e, servers c !! self = Some s ∧ hints (hintq s) !! p = Some q ∧ e ∈ q ∧ h_item e = it.

(** The hint queue has a lifetime and no caps. *)
Definition uncapped (hc : HintConfig) : Prop :=
  (0 < hintTTL hc ∧ hintMaxPerNode hc ≤ 0 ∧ hintMaxTotal hc ≤ 0 ∧ hintMaxBytes hc ≤ 0)%Z.
Definition hints_unbounded (c : Cluster) : Prop :=
  ∀ s, servers c !! self = Some s → uncapped (hintConfig (conf s)).

Lemma queueHint_uncapped hc now p it src h h' :
  uncapped hc → queueHint jsonLen hc now p it src h = Some h' →
  ∃ e, h_item e = it ∧ hints h' = <[p := default [] (hints h !! p) ++ [e]]> (hints h).
Proof.
  intros (Ht & Hp & Hm & Hb). unfold queueHint, dropOldest.
  destruct (Z.leb_spec (hintTTL hc) 0); [lia|].
  destruct (Z.ltb_spec 0 (hintMaxPerNode hc)); [lia|]. cbn [andb mbind option_bind].
  destruct (Z.ltb_spec 0 (hintMaxTotal hc)); [lia|]. destruct (Z.ltb_spec 0 (hintMaxBytes hc)); [lia|].
  cbn [andb orb]. intros [= <-]. eexists. split; [|reflexivity]. done.
Qed.

(** An item is safe when the new primary holds it or it waits as a hint. *)
Definition safe (c : Cluster) (p : string) (it : Item) : Prop :=
  (reachable c p ∧ holds c p (Key it) = Some it) ∨ hinted c p it.

Lemma migrated_hinted now it p os rb rb' p' it' :
  ready (cl rb) → hints_unbounded (cl rb) → migrated now it p os rb rb' →
  hinted (cl rb) p' it' → hinted (cl rb') p' it'.
Proof.
  intros Hrd Hu Hm (s & q & e & Hs & Hq & He & Ei). destruct (mg_hints _ _ _ _ _ _ Hm s Hs) as (s' & Hs' & H).
  destruct (decide (reachable (cl rb) p)).
  - exists s', q, e. by rewrite H.
  - apply queueHint_uncapped in H as (e' & _ & Eh); [|by apply Hu].
    destruct (decide (p = p')) as [->|Hne].
    + exists s', (q ++ [e']), e. rewrite Eh, Hq, lookup_insert_eq. split_and!; [done..|set_solver|done].
    + exists s', q, e. rewrite Eh, lookup_insert_ne by done. done.
Qed.

Lemma migrated_safe now it p os rb rb' :
  ready (cl rb) → hints_unbounded (cl rb) → p ≠ self → migrated now it p os rb rb' → safe (cl rb') p it.
Proof.
  intros Hrd Hu Hne Hm. destruct (decide (reachable (cl rb) p)) as [Hre|Hre].
  - left. split; [by apply (frame_reachable _ _ _ (mg_frame _ _ _ _ _ _ Hm))|].
    rewrite (mg_holds _ _ _ _ _ _ Hm), decide_False by tauto. rewrite decide_True; [done|].
    split_and!; [done|by left|done..].
  - right. destruct Hrd as [_ [s Hs] _]. destruct (mg_hints _ _ _ _ _ _ Hm s Hs) as (s' & Hs' & H).
    rewrite decide_False in H by done. apply queueHint_uncapped in H as (e & Ei & Eh); [|by apply Hu].
    exists s', (default [] (hints (hintq s) !! p) ++ [e]), e. rewrite Eh, lookup_insert_eq.
    split_and!; [done..|set_solver|done].
Qed.

(** The migrated items so far, relative to the cluster of the scan. *)
Record mig_inv (c0 : Cluster) (dn : list Item) (rb : Rebal) : Prop := {
  mi_ready : ready (cl rb);
  mi_frame : frame c0 (cl rb);
  mi_src : ∀ it, it ∈ dn → holds c0 self (Key it) = Some it;
  mi_local : ∀ k it, holds (cl rb) self k = Some it → holds c0 self k = Some it;
  mi_rest : ∀ k it, holds c0 self k = Some it → (∀ x, x ∈ dn → Key x ≠ k) →
    holds (cl rb) self k = Some it ∧ recorded (cl rb) k = recorded c0 k;
  mi_done : ∀ it, it ∈ dn → ∃ p os, owners (Key it) = p :: os ∧ p ≠ self ∧
    recorded (cl rb) (Key it) = Some p ∧
    (self ∈ p :: os → holds (cl rb) self (Key it) = Some it) ∧
    (self ∉ p :: os → (grace ≤ 0)%Z → holds (cl rb) self (Key it) = None) ∧
    (hints_unbounded c0 → safe (cl rb) p it) }.

Lemma unbounded_frame c c' : frame c c' → is_Some (servers c !! self) → hints_unbounded c → hints_unbounded c'.
Proof.
  intros Hf [s Hs] Hu s' Hs'. destruct (frame_server _ _ _ _ Hf Hs) as (s1 & Hs1 & Ec & _).
  assert (s1 = s') as -> by congruence. rewrite Ec. by apply Hu.
Qed.

Lemma mig_step now c0 dn rb it :
  mig_inv c0 dn rb → ready c0 → candidate c0 it →
  ∃ rb', migrateIfNeeded sum64 jsonLen cfg self now it rb = Some rb' ∧ mig_inv c0 (it :: dn) rb'.
Proof.
  intros [Hrd Hf Hsrc Hloc Hrest Hdone] Hrd0 [Hit Hmv]. destruct (moves_true _ _ Hmv) as (p & os & Eo & Hne).
  destruct (migrate_ok now it p os rb Hrd) as (rb' & E & Hm); [by rewrite Lookup_owners, Eo|done|].
  exists rb'. split; [done|].
  assert (∀ k, k ≠ Key it → holds (cl rb') self k = holds (cl rb) self k) as Hoth.
  { intros k Hk. rewrite (mg_holds _ _ _ _ _ _ Hm), !decide_False by tauto. done. }
  assert (hints_unbounded c0 → hints_unbounded (cl rb)) as Hub
    by (intros; eapply unbounded_frame; [exact Hf|apply Hrd0|done]).
  (* the moved item itself *)
  assert (self ∈ p :: os → holds (cl rb) self (Key it) = Some it) as Hpre.
  { intros Hin. destruct (decide (Key it ∈ Key <$> dn)) as [(x & Ex & Hx)%list_elem_of_fmap|Hnot].
    - destruct (Hdone x Hx) as (p' & os' & Eo' & _ & _ & Hh & _). rewrite <- Ex, Eo in Eo'.
      injection Eo' as -> ->. specialize (Hh Hin). rewrite Ex. rewrite Hh. f_equal.
      apply Hloc in Hh. rewrite <- Ex in Hh. congruence.
    - destruct (Hrest _ _ Hit) as [Hh _]; [|done]. intros x Hx Ex. apply Hnot. rewrite <- Ex. by apply list_elem_of_fmap_2. }
  split.
  - apply (mg_ready _ _ _ _ _ _ Hm).
  - etrans; [done|apply (mg_frame _ _ _ _ _ _ Hm)].
  - intros x [->|Hx]%elem_of_cons; [done|by apply Hsrc].
  - intros k x. destruct (decide (k = Key it)) as [->|Hk]; [|rewrite Hoth by done; apply Hloc].
    rewrite (mg_holds _ _ _ _ _ _ Hm). case_decide; [done|]. case_decide; [by intros [= <-]|apply Hloc].
  - intros k x Hx Hnot. assert (k ≠ Key it) as Hk.
    { intros ->. apply (Hnot it); [by left|done]. }
    rewrite Hoth, (mg_other _ _ _ _ _ _ Hm) by done. apply Hrest; [done|]. intros y Hy. apply Hnot. by right.
  - assert (∃ p' os', owners (Key it) = p' :: os' ∧ p' ≠ self ∧ recorded (cl rb') (Key it) = Some p' ∧
      (self ∈ p' :: os' → holds (cl rb') self (Key it) = Some it) ∧
      (self ∉ p' :: os' → (grace ≤ 0)%Z → holds (cl rb') self (Key it) = None) ∧
      (hints_unbounded c0 → safe (cl rb') p' it)) as Hnew.
    { exists p, os. split_and!; [done|done|apply (mg_here _ _ _ _ _ _ Hm)|..].
      - intros Hin. rewrite (mg_holds _ _ _ _ _ _ Hm), decide_False by tauto. case_decide; [done|by apply Hpre].
      - intros Hnin Hg. by rewrite (mg_holds _ _ _ _ _ _ Hm), decide_True.
      - intros Hu. eapply migrated_safe; eauto. }
    intros x [->|Hx]%elem_of_cons; [exact Hnew|]. destruct (decide (Key x = Key it)) as [Ek|Ek].
    { pose proof (Hsrc x Hx) as Hx0. rewrite Ek, Hit in Hx0. by injection Hx0 as <-. }
    destruct (Hdone x Hx) as (p' & os' & Eo' & Hne' & Hr' & Hin' & Hout' & Hsafe').
    exists p', os'. rewrite Hoth, (mg_other _ _ _ _ _ _ Hm) by done. split_and!; [done..|].
    intros Hu. specialize (Hsafe' Hu). destruct Hsafe' as [[Hre Hh]|Hh]; [left|right].
    + split; [by apply (frame_reachable _ _ _ (mg_frame _ _ _ _ _ _ Hm))|].
      rewrite (mg_holds _ _ _ _ _ _ Hm), !decide_False by tauto. done.
    + eapply migrated_hinted; eauto.
Qed.

Lemma migrateAll_ok now c0 l : ∀ dn rb,
  mig_inv c0 dn rb → ready c0 → (∀ it, it ∈ l → candidate c0 it) →
  ∃ rb', migrateAll sum64 jsonLen cfg self now l rb = Some rb' ∧
    ∃ dn', mig_inv c0 dn' rb' ∧ ∀ it, it ∈ dn' ↔ it ∈ dn ∨ it ∈ l.
Proof.
  induction l as [|it l IH]; intros dn rb Hi Hrd Hc; cbn [migrateAll].
  { exists rb. split; [done|]. exists dn. split; [done|]. intros it. split; [by left|]. intros [?|H]; [done|by apply elem_of_nil in H]. }
  destruct (mig_step now c0 dn rb it Hi Hrd) as (rb1 & -> & Hi1); [by apply Hc; left|]. cbn [mbind option_bind].
  destruct (IH _ _ Hi1 Hrd) as (rb' & E & dn' & Hi' & Hd); [intros; apply Hc; by right|].
  exists rb'. split; [done|]. exists dn'. split; [done|]. intros x. rewrite Hd, !elem_of_cons. naive_solver.
Qed.

Lemma mig_init c rb : ready c → cl rb = c → mig_inv c [] rb.
Proof. intros Hrd <-. split; try done; intros it H; by apply elem_of_nil in H. Qed.

(** The scan and the migration of a tick. *)
Definition scan_and_migrate (sched : list (list Item) → list Item) (now : Z) (rb : Rebal) : option Rebal :=
  '(rb, candidates) ← collectRebalanceCandidates sum64 cfg self enum now rb;
  if decide (0 < length candidates) then migrateItems sum64 jsonLen cfg self sched now candidates rb else Some rb.

Lemma scan_and_migrate_ok sched now rb :
  ready (cl rb) → (0 < rebalanceBatchSize cfg)%Z → (∀ bs, sched bs ≡ₚ concat bs) →
  ∃ rb' dn, scan_and_migrate sched now rb = Some rb' ∧ mig_inv (cl rb) dn rb' ∧
    (∀ it, it ∈ dn ↔ candidate (cl rb) it).
Proof.
  intros Hrd Hb Hs. unfold scan_and_migrate.
  destruct (collect_ok now rb Hrd) as (rb1 & cands & -> & (Ecl & _) & Hc). cbn [mbind option_bind].
  case_decide as El.
  - unfold migrateItems. set (l := sched _).
    assert (∀ it, it ∈ l ↔ candidate (cl rb) it) as Hl.
    { intros it. unfold l. rewrite Hs, batches_concat by lia. apply Hc. }
    destruct (migrateAll_ok now (cl rb) l [] rb1) as (rb' & E & dn & Hi & Hd); [by apply mig_init|done|by intros; apply Hl|].
    exists rb', dn. split_and!; [done..|]. intros it. rewrite Hd, <- Hl. set_solver.
  - destruct cands; [|cbn in El; lia]. exists rb1, []. split_and!; [done|by apply mig_init|done].
Qed.

(** *** Replication to new replicas *)

(** It leaves this node's items, recorded primaries and hints alone, and touches on
    other nodes only keys whose primary this node is. *)
Record quiet (rb rb' : Rebal) : Prop := {
  qt_ready : ready (cl rb) → ready (cl rb');
  qt_frame : frame (cl rb) (cl rb');
  qt_self : ∀ k, holds (cl rb') self k = holds (cl rb) self k;
  qt_rec : ∀ k, recorded (cl rb') k = recorded (cl rb) k;
  qt_hints : hintq <$> servers (cl rb') !! self = hintq <$> servers (cl rb) !! self;
  qt_count : (λ s, shardCount (node s)) <$> servers (cl rb') !! self =
    (λ s, shardCount (node s)) <$> servers (cl rb) !! self;
  qt_other : ∀ id k, head (owners k) ≠ Some self → holds (cl rb') id k = holds (cl rb) id k }.

#[local] Instance quiet_preorder : PreOrder quiet.
Proof.
  split; [by split|]. intros a b c H1 H2. split.
  - intros. by apply H2, H1.
  - etrans; [apply H1|apply H2].
  - intros k. by rewrite (qt_self _ _ H2), (qt_self _ _ H1).
  - intros k. by rewrite (qt_rec _ _ H2), (qt_rec _ _ H1).
  - by rewrite (qt_hints _ _ H2), (qt_hints _ _ H1).
  - by rewrite (qt_count _ _ H2), (qt_count _ _ H1).
  - intros id k Hk. by rewrite (qt_other _ _ H2), (qt_other _ _ H1).
Qed.

Lemma quiet_cl rb rb' : cl rb' = cl rb → quiet rb rb'.
Proof. intros E. split; rewrite ?E; done. Qed.

Lemma maybeRecordRemoval_ok now k rb : ready (cl rb) →
  ∃ rb', maybeRecordRemoval sum64 cfg self now k rb = Some rb' ∧ quiet rb rb'.
Proof.
  intros [Hwf [s Hs] _]. unfold maybeRecordRemoval. destruct (grace <=? 0)%Z; [by exists rb|].
  rewrite Hs. cbn [mbind option_bind].
  destruct (ownsKey_Some sum64 r k s (sw_ring _ _ _ (Hwf _ _ Hs))) as ([] & -> & _); cbn [mbind option_bind];
    eexists; (split; [done|]); [done|]. apply quiet_cl. by destruct (noteRemoved_ok now k rb).
Qed.

Lemma setOwnerBaseline_ok k os rb : ready (cl rb) →
  ∃ c, setOwnerBaseline self k os (cl rb) = Some c ∧ quiet rb (with_cl c rb).
Proof.
  intros Hrd. pose proof Hrd as [Hwf [s Hs] _]. pose proof (Hwf _ _ Hs) as Hsw. unfold setOwnerBaseline.
  destruct (putBaseline_ok k os (node s) (sw_node _ _ _ Hsw)) as (dm & Ed & Hn & Hsame & Ei & Hp).
  destruct (onNode_ok (putBaseline k os) (cl rb) s dm Hwf Hs Ed Hn Hsame) as (c & E & Hwf' & Hf & Hq & Hh & Hr & Hnd);
    [rewrite Ei; apply Hsw|].
  exists c. split; [exact E|]. assert (∀ id k, holds c id k = holds (cl rb) id k) as Hall.
  { intros id k'. rewrite Hh. destruct (decide (id = self)) as [->|]; [|done]. rewrite Ei. unfold holds. by rewrite Hs. }
  split; cbn; [by intros; eapply ready_frame|done|by intros; apply Hall| |apply Hq| |by intros; apply Hall].
  - intros k'. rewrite Hr, Hp. unfold recorded. by rewrite Hs.
  - destruct (servers c !! self) as [s'|]; [|done]. rewrite Hs. cbn in *. f_equal. injection Hnd as ->. apply Hsame.
Qed.

Lemma ForwardSet_elsewhere oid it c c' e : oid ≠ self → ForwardSet sum64 oid it false c = Some (c', e) →
  servers c' !! self = servers c !! self.
Proof.
  intros Hne. unfold ForwardSet. destruct (lookup_ oid c); [|by intros [= <- _]].
  intros ([] & _ & H)%bind_Some; [|by injection H as <- _]. apply bind_Some in H as (c2 & H & [= <- _]).
  unfold applySet, storeAt, onNode in H. apply bind_Some in H as (c1 & H1 & H).
  apply bind_Some in H as (s' & _ & [= <-]). apply bind_Some in H1 as (s1 & _ & (dm & _ & [= <-])%bind_Some).
  by rewrite putNode_lookup, decide_False.
Qed.

Lemma sendReplicaDiff_ok it repls limit : ∀ processed rb, ready (cl rb) →
  head (owners (Key it)) = Some self → (∀ x, x ∈ repls → x ∈ owners (Key it)) →
  ∃ rb' n, sendReplicaDiff sum64 self it repls processed limit rb = Some (rb', n) ∧ quiet rb rb'.
Proof.
  induction repls as [|rid repls IH]; intros processed rb Hrd Hp Hin; cbn [sendReplicaDiff]; [by eexists _, _|].
  assert (∀ x, x ∈ repls → x ∈ owners (Key it)) as Hin' by (intros; apply Hin; by right).
  case_decide as Er; [by apply IH|].
  destruct (ForwardSet_owner sum64 r rid it (cl rb) (owners (Key it)) (rd_wf _ Hrd) (Lookup_owners _))
    as (c & err & E & Hwf & Hf & _ & Hh); [apply Hin; by left|].
  rewrite E. cbn [mbind option_bind].
  assert (quiet rb (countMoved (with_cl c rb))) as Hq.
  { pose proof (ForwardSet_elsewhere _ _ _ _ _ Er E) as Es. split; cbn.
    - intros _. by eapply ready_frame.
    - done.
    - intros k. unfold holds. by rewrite Es.
    - intros k. unfold recorded. by rewrite Es.
    - by rewrite Es.
    - by rewrite Es.
    - intros id k Hk. rewrite Hh, decide_False; [done|]. intros (_ & _ & ->). done. }
  destruct (hitLimit _ _); [by eexists _, _|].
  destruct (IH (processed + 1)%Z (countMoved (with_cl c rb))) as (rb' & n & E' & Hq'); [by apply Hq|done..|].
  exists rb', n. split; [done|by etrans].
Qed.

Lemma ownerBaseline_Some k c : ready c → ∃ b, ownerBaseline self k c = Some b.
Proof.
  intros [Hwf [s Hs] _]. unfold ownerBaseline. rewrite Hs. cbn.
  destruct (shardFor_ok k (node s) (sw_node _ _ _ (Hwf _ _ Hs))) as (i & sh & -> & _). by eexists.
Qed.

Lemma replDiffItem_ok now it processed limit rb : ready (cl rb) →
  ∃ rb' n, replDiffItem sum64 cfg self now it processed limit rb = Some (rb', n) ∧ quiet rb rb'.
Proof.
  intros Hrd. pose proof Hrd as [Hwf [s Hs] _]. unfold replDiffItem. rewrite Hs. cbn [mbind option_bind].
  unfold lookupOwners. rewrite (sw_ring _ _ _ (Hwf _ _ Hs)), Lookup_owners. cbn [mbind option_bind].
  destruct (maybeRecordRemoval_ok now (Key it) rb Hrd) as (rbm & Em & Hqm).
  destruct (owners (Key it)) as [|p os] eqn:Eo.
  { rewrite Em. cbn. by eexists _, _. }
  case_decide as Ep; [rewrite Em; cbn; by eexists _, _|].
  assert (p = self) as -> by (destruct (decide (p = self)); [done|tauto]).
  unfold ensureOwnerBaseline. destruct (ownerBaseline_Some (Key it) (cl rb) Hrd) as [b Eb]. rewrite Eb.
  cbn [mbind option_bind]. destruct b as [prev|].
  2:{ destruct (setOwnerBaseline_ok (Key it) (self :: os) rb Hrd) as (c & -> & Hq). cbn. by eexists _, _. }
  cbn [mbind option_bind negb]. change (cl (with_cl (cl rb) rb)) with (cl rb). rewrite Eb.
  cbn [mbind option_bind default Datatypes.id].
  assert (quiet rb (with_cl (cl rb) rb)) as Hq0 by (by apply quiet_cl).
  case_decide as En; [by eexists _, _|].
  destruct (sendReplicaDiff_ok it (computeNewReplicas prev (self :: os)) limit processed (with_cl (cl rb) rb))
    as (rb1 & n & E1 & Hq1); [done|by rewrite Eo| |].
  { intros x (_ & Hx)%list_elem_of_filter. rewrite Eo. by right. }
  rewrite E1. cbn [mbind option_bind].
  destruct (setOwnerBaseline_ok (Key it) (self :: os) rb1) as (c & -> & Hq2); [by apply Hq1, Hq0|].
  cbn. eexists _, _. split; [done|]. etrans; [exact Hq0|]. by etrans.
Qed.

Lemma replDiffLoop_ok now limit l : ∀ processed rb, ready (cl rb) →
  ∃ rb' n, replDiffLoop sum64 cfg self now l processed limit rb = Some (rb', n) ∧ quiet rb rb'.
Proof.
  induction l as [|[k it] l IH]; intros processed rb Hrd; cbn [replDiffLoop]; [by eexists _, _|].
  destruct (hitLimit _ _); [by eexists _, _|].
  destruct (replDiffItem_ok now it processed limit rb Hrd) as (rb1 & n & -> & Hq). cbn [mbind option_bind].
  destruct (IH n rb1) as (rb2 & n2 & -> & Hq2); [by apply Hq|]. eexists _, _. split; [done|by etrans].
Qed.

Lemma replDiffShards_ok now limit idxs : ∀ processed rb, ready (cl rb) →
  (∀ s i, servers (cl rb) !! self = Some s → i ∈ idxs → i < length (shards (node s))) →
  ∃ rb', replDiffShards sum64 cfg self enum now idxs processed limit rb = Some rb' ∧ quiet rb rb'.
Proof.
  induction idxs as [|i idxs IH]; intros processed rb Hrd Hi; cbn [replDiffShards]; [by eexists|].
  pose proof Hrd as [Hwf [s Hs] _]. unfold replDiffShard. rewrite Hs. cbn [mbind option_bind].
  destruct (lookup_lt_is_Some_2 (shards (node s)) i) as [sh ->]; [apply Hi; [done|by left]|]. cbn [mbind option_bind].
  destruct (replDiffLoop_ok now limit (enum (d_items sh)) processed rb Hrd) as (rb1 & n & -> & Hq).
  cbn [mbind option_bind]. destruct (hitLimit _ _); [by eexists|].
  assert (ready (cl rb1)) as Hrd1 by (by apply Hq).
  destruct (IH n rb1 Hrd1) as (rb2 & -> & Hq2); [|eexists; split; [done|by etrans]].
  intros s1 j Hs1 Hj. assert (j < length (shards (node s))) as Hlt by (apply Hi; [done|by right]).
  pose proof (qt_count _ _ Hq) as Ec. rewrite Hs, Hs1 in Ec. injection Ec as Ec.
  pose proof (nw_length _ (sw_node _ _ _ (Hwf _ _ Hs))).
  pose proof (nw_length _ (sw_node _ _ _ (rd_wf _ Hrd1 _ _ Hs1))). congruence.
Qed.

Lemma replicateNewReplicas_ok now rb : ready (cl rb) →
  ∃ rb', replicateNewReplicas sum64 cfg self enum now rb = Some rb' ∧ quiet rb rb'.
Proof.
  intros Hrd. pose proof Hrd as [Hwf [s Hs] Ht]. unfold replicateNewReplicas. rewrite Hs. cbn [mbind option_bind].
  rewrite (sw_ring _ _ _ (Hwf _ _ Hs)), (Ht _ _ Hs). apply replDiffShards_ok; [done|].
  intros s' i Hs' Hi%elem_of_seq. assert (s' = s) as -> by congruence. lia.
Qed.

(** *** Shedding *)

(** Only items of keys that this node does not own go. *)
Record shed (rb rb' : Rebal) : Prop := {
  sd_ready : ready (cl rb) → ready (cl rb');
  sd_frame : frame (cl rb) (cl rb');
  sd_holds : ∀ id k, id ≠ self ∨ self ∈ owners k ∨ owners k = [] → holds (cl rb') id k = holds (cl rb) id k;
  sd_sub : ∀ k it, holds (cl rb') self k = Some it → holds (cl rb) self k = Some it;
  sd_hints : hintq <$> servers (cl rb') !! self = hintq <$> servers (cl rb) !! self }.

#[local] Instance shed_preorder : PreOrder shed.
Proof.
  split; [by split|]. intros a b c H1 H2. split.
  - intros. by apply H2, H1.
  - etrans; [apply H1|apply H2].
  - intros id k Hk. by rewrite (sd_holds _ _ H2), (sd_holds _ _ H1).
  - intros k it H. by apply H1, H2.
  - by rewrite (sd_hints _ _ H2), (sd_hints _ _ H1).
Qed.

Lemma shedLoop_ok dels : ∀ rb, ready (cl rb) →
  ∃ rb', shedLoop sum64 self dels rb = Some rb' ∧ shed rb rb'.
Proof.
  induction dels as [|k dels IH]; intros rb Hrd; cbn [shedLoop]; [by eexists|].
  pose proof Hrd as [Hwf [s Hs] _]. pose proof (Hwf _ _ Hs) as Hsw. rewrite Hs. cbn [mbind option_bind].
  destruct (ownsKey_Some sum64 r k s (sw_ring _ _ _ Hsw)) as (b & Eb & Hb). rewrite Eb. cbn [mbind option_bind].
  destruct b; [by apply IH|].
  assert (owners k ≠ []) as Hne.
  { intros En. unfold ownsKeyInternal in Eb. rewrite (sw_ring _ _ _ Hsw), Lookup_owners, En in Eb. done. }
  destruct (releaseItem_ok k (node s) (sw_node _ _ _ Hsw)) as (dm & Ed & Hn & Hsame & Ei & _).
  destruct (onNode_ok (releaseItem k) (cl rb) s dm Hwf Hs Ed Hn Hsame) as (c & -> & Hwf' & Hf & Hq & Hh & _).
  { rewrite Ei. intros k' x [_ Hx]%lookup_delete_Some. by apply Hsw. }
  cbn [mbind option_bind].
  assert (self ∉ owners k) as Hno.
  { intros Hin. rewrite <- (sw_id _ _ _ Hsw) in Hin. by specialize (Hb _ (Lookup_owners k) Hin). }
  assert (∀ k', holds c self k' = delete k (items_of (node s)) !! k') as Hhs.
  { intros k'. by rewrite Hh, decide_True, Ei. }
  assert (∀ k', holds (cl rb) self k' = items_of (node s) !! k') as Hh0 by (intros; unfold holds; by rewrite Hs).
  assert (shed rb (with_cl c rb)) as H1.
  { split; cbn; [by intros; eapply ready_frame|done| | |apply Hq].
    - intros id k' Hk. destruct (decide (id = self)) as [->|]; [|by rewrite Hh, decide_False].
      rewrite Hhs, Hh0, lookup_delete_ne; [done|]. intros <-. naive_solver.
    - intros k' it. rewrite Hhs, Hh0. by intros [_ ?]%lookup_delete_Some. }
  destruct (IH (with_cl c rb)) as (rb' & -> & H2); [by apply H1|]. eexists. split; [done|by etrans].
Qed.

Lemma shedRemovedKeys_ok later rb : ready (cl rb) →
  ∃ rb', shedRemovedKeys sum64 cfg self later rb = Some rb' ∧ shed rb rb' ∧ ((grace ≤ 0)%Z → rb' = rb).
Proof.
  intros Hrd. unfold shedRemovedKeys. destruct (Z.leb_spec grace 0); [by eexists|].
  match goal with |- context [shedLoop _ _ ?l ?x] => destruct (shedLoop_ok l x) as (rb' & E & H'); [done|] end.
  exists rb'. split_and!; [done| |lia]. by destruct H'; split.
Qed.

(** *** A tick *)

Definition fair (sched : list (list Item) → list Item) : Prop := ∀ bs, sched bs ≡ₚ concat bs.

Lemma tick_ok sched now later rb :
  ready (cl rb) → (0 < rebalanceBatchSize cfg)%Z → fair sched →
  ∃ rb1 rb2 rb3 dn, runRebalanceTick sum64 jsonLen cfg self enum sched now later rb = Some rb3 ∧
    mig_inv (cl rb) dn rb1 ∧ (∀ it, it ∈ dn ↔ candidate (cl rb) it) ∧ quiet rb1 rb2 ∧ shed rb2 rb3 ∧
    ((grace ≤ 0)%Z → rb3 = rb2).
Proof.
  intros Hrd Hb Hs. destruct (scan_and_migrate_ok sched now rb Hrd Hb Hs) as (rb1 & dn & E1 & Hi & Hd).
  destruct (replicateNewReplicas_ok now rb1 (mi_ready _ _ _ Hi)) as (rb2 & E2 & Hq).
  destruct (shedRemovedKeys_ok later rb2) as (rb3 & E3 & Hsh & Hg); [apply Hq, Hi|].
  exists rb1, rb2, rb3, dn. split_and!; try done. unfold runRebalanceTick, scan_and_migrate in *.
  apply bind_Some in E1 as ([rb0 cands] & -> & E1). cbn [mbind option_bind]. rewrite E1. cbn [mbind option_bind].
  rewrite E2. cbn [mbind option_bind]. exact E3.
Qed.

Lemma not_moving k prev : self ∈ owners k → moves (owners k) prev = false → head (owners k) = Some self ∨ prev ≠ Some self.
Proof.
  destruct (owners k) as [|p os]; cbn [moves head]; [intros H; by apply elem_of_nil in H|].
  intros Hin. rewrite bool_decide_eq_true_2 by done. cbn.
  case_bool_decide; case_bool_decide as Hp; cbn; try done; [|by right..].
  left. f_equal. destruct (decide (p = self)); [done|tauto].
Qed.

(** C16: a rebalance tick loses no item once the ring has settled.  When all nodes have
    the same ring and a transport, whatever rings there were before and whichever nodes
    are reachable, with an unbounded hint queue every item this node held before the
    tick is still held by it afterwards, or it is stored by the key's new primary, or it
    waits in the hint queue for that primary; the tick always completes.  The batches
    of the migration run in any order.  While the receiver is on another ring this is
    false: [migration_refused_loses] below is a run in which it refuses the item and
    the sender drops it. *)
Theorem rebalance_no_loss sched now later rb :
  ready (cl rb) → (0 < rebalanceBatchSize cfg)%Z → fair sched → hints_unbounded (cl rb) →
  ∃ rb', runRebalanceTick sum64 jsonLen cfg self enum sched now later rb = Some rb' ∧ ready (cl rb') ∧
    ∀ k it, holds (cl rb) self k = Some it →
      holds (cl rb') self k = Some it ∨ ∃ p, head (owners k) = Some p ∧ p ≠ self ∧ safe (cl rb') p it.
Proof.
  intros Hrd Hb Hs Hu. destruct (tick_ok sched now later rb Hrd Hb Hs) as (rb1 & rb2 & rb3 & dn & E & Hi & Hd & Hq & Hsh & _).
  exists rb3. split_and!; [done|apply Hsh, Hq, Hi|]. intros k it Hk.
  assert (Key it = k) as <-.
  { pose proof Hrd as [Hwf [s Hsv] _]. unfold holds in Hk. rewrite Hsv in Hk. by apply (Hwf _ _ Hsv). }
  destruct (decide (candidate (cl rb) it)) as [Hc|Hc].
  - right. destruct (mi_done _ _ _ Hi it) as (p & os & Eo & Hne & _ & _ & _ & Hsafe); [by apply Hd|].
    exists p. rewrite Eo. split_and!; [done..|]. destruct (Hsafe Hu) as [[Hre Hh]|(s & q & e & Hsv & Hhint & He & Ei)].
    + left. split.
      * apply (frame_reachable _ _ _ (sd_frame _ _ Hsh)). by apply (frame_reachable _ _ _ (qt_frame _ _ Hq)).
      * rewrite (sd_holds _ _ Hsh), (qt_other _ _ Hq); [done| |by left]. rewrite Eo. cbn. congruence.
    + right. pose proof (sd_hints _ _ Hsh) as E2. rewrite (qt_hints _ _ Hq), Hsv in E2.
      destruct (servers (cl rb3) !! self) as [s3|] eqn:Es3; [|done]. injection E2 as E2.
      exists s3, q, e. by rewrite E2.
  - left. assert (moves (owners (Key it)) (recorded (cl rb) (Key it)) = false) as Hmv.
    { destruct (moves _ _) eqn:Em; [|done]. by destruct Hc. }
    destruct (mi_rest _ _ _ Hi (Key it) it Hk) as [Hh _].
    { intros x Hx Ex. apply Hc. apply Hd in Hx as [Hx Hm]. split; [done|]. by rewrite <- Ex. }
    destruct (decide (self ∈ owners (Key it))) as [Hin|Hnin].
    + rewrite (sd_holds _ _ Hsh), (qt_self _ _ Hq); [done|by right; left].
    + destruct (owners (Key it)) as [|p os] eqn:Eo.
      * rewrite (sd_holds _ _ Hsh), (qt_self _ _ Hq); [done|by right; right].
      * cbn [moves] in Hmv. rewrite bool_decide_eq_false_2 in Hmv by done. done.
Qed.

(** C17: without a grace period a tick leaves nothing behind to migrate: every key
    the node still holds is one it owns (or the ring is empty), nothing was added to
    what it held, and the next scan finds no candidate and changes nothing, so the
    count of rebalanced keys stops growing while the ring does not change. *)
Theorem rebalance_settles sched now later now' rb :
  ready (cl rb) → (0 < rebalanceBatchSize cfg)%Z → fair sched → (grace ≤ 0)%Z →
  ∃ rb', runRebalanceTick sum64 jsonLen cfg self enum sched now later rb = Some rb' ∧
    (∀ k it, holds (cl rb') self k = Some it →
      holds (cl rb) self k = Some it ∧ (self ∈ owners k ∨ owners k = [])) ∧
    collectRebalanceCandidates sum64 cfg self enum now' rb' = Some (rb', []).
Proof.
  intros Hrd Hb Hs Hg. destruct (tick_ok sched now later rb Hrd Hb Hs) as (rb1 & rb2 & rb3 & dn & E & Hi & Hd & Hq & _ & E3).
  specialize (E3 Hg). subst rb3. exists rb2. split; [done|].
  assert (∀ k it, holds (cl rb2) self k = Some it → holds (cl rb) self k = Some it ∧
    (self ∈ owners k ∨ owners k = []) ∧ moves (owners k) (recorded (cl rb2) k) = false) as Hall.
  { intros k it Hk. rewrite (qt_self _ _ Hq) in Hk. rewrite (qt_rec _ _ Hq).
    pose proof (mi_local _ _ _ Hi k it Hk) as Hk0. split; [done|].
    assert (Key it = k) as <-.
    { pose proof Hrd as [Hwf [s Hsv] _]. unfold holds in Hk0. rewrite Hsv in Hk0. by apply (Hwf _ _ Hsv). }
    destruct (moves (owners (Key it)) (recorded (cl rb) (Key it))) eqn:Em.
    - destruct (mi_done _ _ _ Hi it) as (p & os & Eo & Hne & Hr & _ & Hout & _); [by apply Hd|].
      rewrite Eo, Hr. cbn [moves]. destruct (decide (self ∈ p :: os)) as [Hin|Hnin].
      + split; [by left|]. rewrite (bool_decide_eq_true_2 (self ∈ _)) by done.
        rewrite (bool_decide_eq_false_2 (Some p = _)) by congruence. done.
      + rewrite Hout in Hk by done. done.
    - destruct (mi_rest _ _ _ Hi (Key it) it Hk0) as [_ ->].
      { intros x Hx Ex. apply Hd in Hx as [_ Hm]. rewrite Ex in Hm. congruence. }
      split; [|done]. destruct (owners (Key it)) as [|p os] eqn:Eo; [by right|left].
      destruct (decide (self ∈ p :: os)) as [|Hn]; [done|]. cbn [moves] in Em.
      by rewrite bool_decide_eq_false_2 in Em. }
  split; [intros k it Hk; by destruct (Hall k it Hk) as (? & ? & _)|].
  destruct (collect_ok now' rb2) as (rb' & cands & -> & (_ & _ & Hsame) & Hc); [apply Hq, Hi|].
  rewrite (Hsame Hg). do 2 f_equal. destruct cands as [|it cands]; [done|]. exfalso.
  assert (candidate (cl rb2) it) as [Hit Hm] by (apply Hc; by left).
  destruct (Hall _ _ Hit) as (_ & _ & Hf). congruence.
Qed.

(** With hints switched off, a migration whose new primary cannot be reached
    throws the item away: without a grace period the local copy of a key the node no
    longer owns is released although nothing was stored and nothing was queued. *)
Theorem migration_loses_item now it p os rb s :
  ready (cl rb) → Lookup sum64 (Key it) r = Some (p :: os) → self ∉ p :: os → ¬ reachable (cl rb) p →
  (grace ≤ 0)%Z → servers (cl rb) !! self = Some s → (hintTTL (hintConfig (conf s)) ≤ 0)%Z →
  ∃ rb', migrateIfNeeded sum64 jsonLen cfg self now it rb = Some rb' ∧
    holds (cl rb') self (Key it) = None ∧
    (∀ id, id ≠ self → holds (cl rb') id (Key it) = holds (cl rb) id (Key it)) ∧
    (∃ s', servers (cl rb') !! self = Some s' ∧ hintq s' = hintq s).
Proof.
  intros Hrd Hos Hno Hre Hg Hs Httl.
  destruct (migrate_ok now it p os rb Hrd Hos) as (rb' & E & Hm); [by intros ->; apply Hno; left|].
  exists rb'. split_and!; [done| | |].
  - by rewrite (mg_holds _ _ _ _ _ _ Hm), decide_True.
  - intros id Hid. by rewrite (mg_holds _ _ _ _ _ _ Hm), !decide_False by tauto.
  - destruct (mg_hints _ _ _ _ _ _ Hm s Hs) as (s' & Hs' & Hq). exists s'. split; [done|].
    rewrite decide_False in Hq by done. unfold queueHint in Hq. destruct (Z.leb_spec (hintTTL (hintConfig (conf s))) 0); [|lia].
    by injection Hq as ->.
Qed.

End RebalanceFacts.

(** ** Witnesses *)

(** Nodes "b" and "c" are on the ring; "a" has left it and still holds a key. *)
Definition left_ring : Ring :=
  Build sample_sum64 sample_sort ["b"; "c"] (NewRing [WithVirtualNodes 2; WithReplication 2]).
Definition left_server (hc : HintConfig) (id : string) : Server :=
  MkServer (freshNode id 2 0 (Some left_ring))
    (MkServerConfig ConsistencyQuorum ConsistencyQuorum false true hc) noHints false.
Definition left_cluster (hc : HintConfig) (up : gset string) : Cluster :=
  MkCluster (list_to_map ((λ id, (id, left_server hc id)) <$> ["a"; "b"; "c"])) up.
Definition moved_item : Item := sample_value "x".
Definition left_rebal (hc : HintConfig) (up : gset string) : Rebal :=
  MkRebal (default (left_cluster hc up) (storeAt sample_sum64 "a" moved_item (left_cluster hc up))) ∅ 0.
Definition left_config : RebConfig := MkRebConfig 0 16 0.
Definition open_hints : HintConfig := MkHintConfig 100 0 0 0.
Definition no_hints : HintConfig := MkHintConfig 0 0 0 0.
Definition left_jsonLen (v : any) : option Z := Some 1%Z.

Lemma left_servers hc up id s : servers (left_cluster hc up) !! id = Some s → s = left_server hc id.
Proof.
  cbn [left_cluster servers]. intros H%elem_of_list_to_map_2. apply list_elem_of_fmap in H as (x & [= -> ->] & _). done.
Qed.

Lemma left_wf hc up : cluster_wf left_ring (left_cluster hc up).
Proof.
  intros id s ->%left_servers. destruct (freshNode_ok id 2 0 (Some left_ring)) as (Hwf & Ei & _).
  split; [done|done|done|]. cbn [node left_server]. intros k it. by rewrite Ei, lookup_empty.
Qed.

Lemma left_store hc up : ∃ c', storeAt sample_sum64 "a" moved_item (left_cluster hc up) = Some c' ∧
  ready left_ring "a" c' ∧ frame (left_cluster hc up) c' ∧ holds c' "a" "k" = Some moved_item.
Proof.
  destruct (storeAt_ok sample_sum64 left_ring "a" moved_item (left_cluster hc up) (left_wf hc up))
    as (c' & E & Hwf & Hf & Hh); [by eexists|].
  exists c'. split; [exact E|]. split; [|split; [exact Hf|]].
  2:{ rewrite Hh, decide_True; [reflexivity|split; reflexivity]. }
  eapply ready_frame; [|exact Hwf|exact Hf]. split; [apply left_wf|by eexists|].
  by intros id b ->%left_servers.
Qed.

Lemma left_ready hc up : ready left_ring "a" (cl (left_rebal hc up)).
Proof. destruct (left_store hc up) as (c' & E & H & _). cbn [left_rebal cl]. by rewrite E. Qed.

Lemma left_holds hc up : holds (cl (left_rebal hc up)) "a" "k" = Some moved_item.
Proof. destruct (left_store hc up) as (c' & E & _ & _ & H). cbn [left_rebal cl]. by rewrite E. Qed.

Lemma left_frame hc up : frame (left_cluster hc up) (cl (left_rebal hc up)).
Proof. destruct (left_store hc up) as (c' & E & _ & H & _). cbn [left_rebal cl]. by rewrite E. Qed.

Lemma left_conf hc up s : servers (cl (left_rebal hc up)) !! "a" = Some s → hintConfig (conf s) = hc.
Proof.
  intros Hs. destruct (frame_server _ _ "a" (left_server hc "a") (left_frame hc up)) as (s' & Hs' & Ec & _); [done|].
  assert (s' = s) as -> by congruence. by rewrite Ec.
Qed.

Lemma rebalance_no_loss_witness :
  ∃ rb', runRebalanceTick sample_sum64 left_jsonLen left_config "a" map_to_list (@concat Item) 1 2
           (left_rebal open_hints {["a"; "c"]}) = Some rb' ∧
    (holds (cl rb') "a" "k" = Some moved_item ∨
     ∃ p, head (owners sample_sum64 left_ring "k") = Some p ∧ p ≠ "a" ∧ safe "a" (cl rb') p moved_item).
Proof.
  destruct (rebalance_no_loss sample_sum64 left_jsonLen left_ring left_config "a" map_to_list ltac:(reflexivity)
    (@concat Item) 1 2 (left_rebal open_hints {["a"; "c"]})) as (rb' & E & _ & H).
  - apply left_ready.
  - reflexivity.
  - intros bs. reflexivity.
  - intros s Hs. rewrite (left_conf _ _ _ Hs). unfold uncapped. cbn. lia.
  - exists rb'. split; [exact E|]. apply H. apply left_holds.
Defined.

Lemma rebalance_settles_witness :
  ∃ rb', runRebalanceTick sample_sum64 left_jsonLen left_config "a" map_to_list (@concat Item) 1 2
           (left_rebal open_hints {["a"; "b"; "c"]}) = Some rb' ∧
    collectRebalanceCandidates sample_sum64 left_config "a" map_to_list 3 rb' = Some (rb', []).
Proof.
  destruct (rebalance_settles sample_sum64 left_jsonLen left_ring left_config "a" map_to_list ltac:(reflexivity)
    (@concat Item) 1 2 3 (left_rebal open_hints {["a"; "b"; "c"]})) as (rb' & E & _ & H).
  - apply left_ready.
  - reflexivity.
  - intros bs. reflexivity.
  - cbn. lia.
  - exists rb'. split; [exact E|exact H].
Defined.

Lemma migration_loses_item_witness :
  ∃ rb', migrateIfNeeded sample_sum64 left_jsonLen left_config "a" 1 moved_item (left_rebal no_hints {["a"]}) = Some rb' ∧
    holds (cl (left_rebal no_hints {["a"]})) "a" "k" = Some moved_item ∧ holds (cl rb') "a" "k" = None.
Proof.
  assert (∃ p os, Lookup sample_sum64 "k" left_ring = Some (p :: os) ∧ "a" ∉ p :: os ∧ p ≠ "a") as (p & os & El & Hn & Hp).
  { eexists _, _. split; [vm_compute; reflexivity|]. split; [by apply (bool_decide_unpack _)|done]. }
  destruct (left_ready no_hints {["a"]}) as [_ [s Hs] _].
  destruct (migration_loses_item sample_sum64 left_jsonLen left_ring left_config "a" 1 moved_item p os
    (left_rebal no_hints {["a"]}) s) as (rb' & E & Hh & _).
  - apply left_ready.
  - exact El.
  - exact Hn.
  - rewrite (frame_reachable _ _ _ (left_frame _ _)). unfold reachable, lookup_. cbn [left_cluster backends].
    rewrite decide_False; [by intros [? ?]|]. rewrite elem_of_singleton. exact Hp.
  - cbn. lia.
  - exact Hs.
  - by rewrite (left_conf _ _ _ Hs).
  - exists rb'. split; [exact E|]. split; [apply left_holds|exact Hh].
Defined.

(** *** A receiver on another ring *)

(** "b" and "c" have not yet heard that "a" left: for them "a" is still the only node. *)
Definition behind_server (id : string) : Server :=
  MkServer (freshNode id 2 0 (Some (Build sample_sum64 sample_sort ["a"] (NewRing [WithVirtualNodes 2; WithReplication 2]))))
    (MkServerConfig ConsistencyQuorum ConsistencyQuorum false true open_hints) noHints false.
Definition split_cluster : Cluster :=
  MkCluster (<["b" := behind_server "b"]> (<["c" := behind_server "c"]> (servers (left_cluster open_hints {["a"; "b"; "c"]}))))
    {["a"; "b"; "c"]}.
Definition split_rebal : Rebal :=
  MkRebal (default split_cluster (storeAt sample_sum64 "a" moved_item split_cluster)) ∅ 0.

(** Every node is reachable and hints are unbounded, and the item is lost: the new primary
    refuses it without an error, and the sender releases its copy. *)
Theorem migration_refused_loses : ∃ rb',
  holds (cl split_rebal) "a" "k" = Some moved_item ∧
  runRebalanceTick sample_sum64 left_jsonLen left_config "a" map_to_list (@concat Item) 1 2 split_rebal = Some rb' ∧
  Forall (λ id, holds (cl rb') id "k" = None ∧ hintq <$> servers (cl rb') !! id = Some noHints) ["a"; "b"; "c"].
Proof.
  eexists. split; [vm_compute; reflexivity|]. split; [vm_compute; reflexivity|].
  repeat constructor; vm_compute; reflexivity.
Qed.

(** *** The throttle of the replica diff *)

(** Node "a" was alone on the ring when it stored the key; then "b" and "c" joined. *)
Definition with_ring (r : Ring) (dm : DistMemory) : DistMemory :=
  MkDM (localID dm) (shardCount dm) (shards dm) (Some r) (versionCounter dm) (tombVersionCounter dm)
    (merkleChunkSize dm).
Definition alone_ring : Ring := Build sample_sum64 sample_sort ["a"] (NewRing [WithVirtualNodes 2; WithReplication 3]).
Definition grown_node : DistMemory :=
  let dm := freshNode "a" 2 0 (Some alone_ring) in
  with_ring sample_nodes_ring (default dm (storeItem sample_sum64 moved_item dm)).
Definition grown_rebal : Rebal :=
  MkRebal (putNode "a" grown_node sample_cluster) ∅ 0.

(** A limit on replica transfers per tick makes the rebalancer forget replicas.
    Both new owners lack the key; a tick with a limit of one sends it to the first
    and then records all owners as served, so the second tick, and every later one,
    sends nothing. *)
Theorem replica_diff_throttle_skips : ∃ rb1,
  runRebalanceTick sample_sum64 left_jsonLen (MkRebConfig 0 16 1) "a" map_to_list (@concat Item) 1 1 grown_rebal = Some rb1 ∧
  runRebalanceTick sample_sum64 left_jsonLen (MkRebConfig 0 16 1) "a" map_to_list (@concat Item) 2 2 rb1 = Some rb1 ∧
  length (filter (λ id, holds (cl rb1) id "k" = Some moved_item) sample_owners) = 2 ∧ length sample_owners = 3.
Proof. eexists. split; [vm_compute; reflexivity|]. repeat split; vm_compute; reflexivity. Qed.
