(* ===== verification/Auth.v ===== *)
(** * Client authentication (pkg/httpauth/policy.go, pkg/httpauth/loader.go)

    How a request's credentials resolve to an identity, how scopes are enforced,
    and how a policy is validated and loaded.  The request is what the code reads of
    the fiber context: the Authorization header and the verified chains of the TLS
    connection.

    Parameters: bcrypt (a third-party package), [decodeFile] (opening the file and
    decoding its YAML) and the policy's own ServerVerify hook.  base64 and the
    string functions are the standard library's and are written out.

    The theorems: no request passes without a configured credential that carries
    the required scope, what the bearer loop computes, the round trip of a Basic
    header, and what a loaded policy guarantees. *)

From stdpp Require Import base gmap strings list.
From Stdlib Require Import ZArith Lia.
From S2P Require Import Prelude Item.

(** ** The standard library *)

(** [strings.TrimSpace] on bytes; the Unicode spaces are those of [allSpace]. *)
Fixpoint trimLeft (bs : list nat) : list nat :=
  match bs with
  | 194 :: (133 | 160) :: r => trimLeft r
  | 225 :: 154 :: 128 :: r => trimLeft r
  | 226 :: 128 :: (128 | 129 | 130 | 131 | 132 | 133 | 134 | 135 | 136 | 137 | 138
                  | 168 | 169 | 175) :: r => trimLeft r
  | 226 :: 129 :: 159 :: r => trimLeft r
  | 227 :: 128 :: 128 :: r => trimLeft r
  | (9 | 10 | 11 | 12 | 13 | 32) :: r => trimLeft r
  | _ => bs
  end.
Fixpoint trimRight (bs : list nat) : list nat :=
  if allSpace bs then [] else match bs with [] => [] | b :: r => b :: trimRight r end.
Definition trimSpace (bs : list nat) : list nat := trimRight (trimLeft bs).

(** The value of a character of the standard base64 alphabet. *)
Definition b64val (c : Z) : option Z :=
  if decide (65 ≤ c ≤ 90)%Z then Some (c - 65)%Z
  else if decide (97 ≤ c ≤ 122)%Z then Some (c - 71)%Z
  else if decide (48 ≤ c ≤ 57)%Z then Some (c + 4)%Z
  else if decide (c = 43)%Z then Some 62%Z
  else if decide (c = 47)%Z then Some 63%Z
  else None.

(** [base64.StdEncoding.DecodeString]: quanta of four characters, padding only at
    the end; line breaks are skipped. *)
Fixpoint decodeQuanta (bs : list Z) : option (list Z) :=
  match bs with
  | [] => Some []
  | a :: b :: c :: d :: r =>
      va ← b64val a; vb ← b64val b;
      match b64val c with
      | Some vc =>
          match b64val d with
          | Some vd =>
              let n := Z.lor (Z.lor (Z.shiftl va 18) (Z.shiftl vb 12)) (Z.lor (Z.shiftl vc 6) vd) in
              rest ← decodeQuanta r;
              Some (u8 (Z.shiftr n 16) :: u8 (Z.shiftr n 8) :: u8 n :: rest)
          | None =>
              if decide (d = 61%Z ∧ r = []) then
                let n := Z.lor (Z.lor (Z.shiftl va 18) (Z.shiftl vb 12)) (Z.shiftl vc 6) in
                Some [u8 (Z.shiftr n 16); u8 (Z.shiftr n 8)]
              else None
          end
      | None =>
          if decide (c = 61%Z ∧ d = 61%Z ∧ r = []) then
            let n := Z.lor (Z.shiftl va 18) (Z.shiftl vb 12) in Some [u8 (Z.shiftr n 16)]
          else None
      end
  | _ => None
  end.
Definition base64Decode (bs : list Z) : option (list Z) :=
  decodeQuanta (filter (λ b, b ≠ 10%Z ∧ b ≠ 13%Z) bs).

(** [strings.Cut] at a byte. *)
Fixpoint cutAt (sep : Z) (bs : list Z) : option (list Z * list Z) :=
  match bs with
  | [] => None
  | b :: r => if decide (b = sep) then Some ([], r) else '(x, y) ← cutAt sep r; Some (b :: x, y)
  end.

(** ** The policy *)

Abbreviation Scope := string.
Definition ScopeRead : Scope := "read".
Definition ScopeWrite : Scope := "write".
Definition ScopeAdmin : Scope := "admin".

Record Identity := MkIdentity { id_ID : string; id_Scopes : list Scope }.

Definition HasScope (s : Scope) (i : Identity) : bool := bool_decide (s ∈ id_Scopes i).

Definition Capabilities (i : Identity) : list string := (λ s, String.append "cache." s) <$> id_Scopes i.
Definition HasCapability (name : string) (i : Identity) : bool := bool_decide (name ∈ Capabilities i).

Record TokenIdentity := MkToken { tk_ID : string; tk_Token : string; tk_Scopes : list Scope }.
Record CertIdentity := MkCert { SubjectCN : string; ct_Scopes : list Scope }.
Record BasicIdentity := MkBasic {
  Username : string; PasswordBcrypt : string; bs_ID : string; bs_Scopes : list Scope }.

(** What the code reads of a request; [tls] is the common names of the verified
    chains, [None] for plaintext. *)
Record Request := MkRequest { authorization : string; tls : option (list (list string)) }.

Record Policy := MkPolicy {
  Tokens : list TokenIdentity;
  BasicIdentities : list BasicIdentity;
  CertIdentities : list CertIdentity;
  ServerVerify : option (Request → result Identity);
  AllowAnonymous : bool;
  AllowBasicWithoutTLS : bool }.

Definition zeroPolicy : Policy := MkPolicy [] [] [] None false false.

Definition IsConfigured (p : Policy) : bool :=
  (0 <? length (Tokens p)) || (0 <? length (BasicIdentities p)) || (0 <? length (CertIdentities p)) ||
  match ServerVerify p with Some _ => true | None => false end.

Definition parseBasicHeader (authHeader : string) : option (string * string) :=
  if String.prefix "Basic " authHeader then
    let encoded := trimSpace (drop 6 (bytes_of authHeader)) in
    if decide (encoded = []) then None
    else
      decoded ← base64Decode (Z.of_nat <$> encoded);
      '(user, pass) ← cutAt 58 decoded;
      Some (string_of_bytes user, string_of_bytes pass)
  else None.

(** The loop runs to its end; [matched] is the last match, or -1. *)
Fixpoint bearerLoop (got : string) (ts : list TokenIdentity) (i matched : Z) : Z :=
  match ts with
  | [] => matched
  | t :: ts =>
      let want := String.append "Bearer " (tk_Token t) in
      bearerLoop got ts (i + 1) (if decide (got = want) then i else matched)
  end.

Definition resolveBearer (authHeader : string) (p : Policy) : option Identity :=
  if decide (authHeader = ""%string ∨ length (Tokens p) = 0) then None
  else
    let matched := bearerLoop authHeader (Tokens p) 0 (-1) in
    if (matched <? 0)%Z then None
    else t ← Tokens p !! Z.to_nat matched; Some (MkIdentity (tk_ID t) (tk_Scopes t)).

Fixpoint certLoop (cn : string) (cs : list CertIdentity) : option Identity :=
  match cs with
  | [] => None
  | ci :: cs => if decide (SubjectCN ci = cn) then Some (MkIdentity cn (ct_Scopes ci)) else certLoop cn cs
  end.

Definition resolveCert (req : Request) (p : Policy) : option Identity :=
  if decide (length (CertIdentities p) = 0) then None
  else
    match tls req with
    | Some ((cn :: _) :: _) => if decide (cn = ""%string) then None else certLoop cn (CertIdentities p)
    | _ => None
    end.

Section Auth.
Context (bcryptCost : string → option Z) (bcryptCompare : string → string → bool).

(** The first row of the user decides. *)
Fixpoint basicLoop (user pass : string) (bs : list BasicIdentity) : option Identity :=
  match bs with
  | [] => None
  | b :: bs =>
      if decide (Username b = user) then
        if bcryptCompare (PasswordBcrypt b) pass then Some (MkIdentity (bs_ID b) (bs_Scopes b)) else None
      else basicLoop user pass bs
  end.

Definition resolveBasic (req : Request) (p : Policy) : option Identity :=
  if decide (length (BasicIdentities p) = 0) then None
  else
    '(user, pass) ← parseBasicHeader (authorization req);
    if negb (AllowBasicWithoutTLS p) && bool_decide (tls req = None) then None
    else basicLoop user pass (BasicIdentities p).

Definition anonymous : Identity := MkIdentity "anonymous" [ScopeRead; ScopeWrite; ScopeAdmin].

Definition resolve (req : Request) (p : Policy) : option Identity :=
  match resolveBearer (authorization req) p with
  | Some id => Some id
  | None =>
      match resolveBasic req p with
      | Some id => Some id
      | None =>
          match resolveCert req p with
          | Some id => Some id
          | None =>
              match ServerVerify p with
              | Some hook =>
                  match hook req with
                  | Ok id => Some id
                  | Err _ => if AllowAnonymous p then Some anonymous else None
                  end
              | None => if AllowAnonymous p then Some anonymous else None
              end
          end
      end
  end.

(** The response status of a refused request, or the identity that is stored for
    the handlers. *)
Inductive verdict := Pass (id : Identity) | StatusUnauthorized | StatusForbidden.

Definition Verify (required : Scope) (req : Request) (p : Policy) : verdict :=
  match resolve req p with
  | None => StatusUnauthorized
  | Some identity =>
      if decide (required ≠ ""%string) then
        if HasScope required identity then Pass identity else StatusForbidden
      else Pass identity
  end.

Definition validateBasicIdentity (b : BasicIdentity) : option error :=
  if decide (Username b = ""%string) then Some ErrInsecureAuthConfig
  else if decide (bs_ID b = ""%string) then Some ErrInsecureAuthConfig
  else if decide (String.length (PasswordBcrypt b) = 0) then Some ErrInsecureAuthConfig
  else match bcryptCost (PasswordBcrypt b) with None => Some ErrInsecureAuthConfig | Some _ => None end.

Fixpoint validateTokens (ts : list TokenIdentity) : option error :=
  match ts with
  | [] => None
  | t :: ts =>
      if decide (tk_Token t = ""%string) then Some ErrInsecureAuthConfig
      else if decide (tk_ID t = ""%string) then Some ErrInsecureAuthConfig
      else validateTokens ts
  end.

Fixpoint validateBasics (bs : list BasicIdentity) : option error :=
  match bs with
  | [] => None
  | b :: bs => match validateBasicIdentity b with Some e => Some e | None => validateBasics bs end
  end.

Fixpoint validateCerts (cs : list CertIdentity) : option error :=
  match cs with
  | [] => None
  | c :: cs => if decide (SubjectCN c = ""%string) then Some ErrInsecureAuthConfig else validateCerts cs
  end.

Definition Validate (p : Policy) : option error :=
  match validateTokens (Tokens p) with
  | Some e => Some e
  | None =>
      match validateBasics (BasicIdentities p) with
      | Some e => Some e
      | None => validateCerts (CertIdentities p)
      end
  end.

(** ** The loader *)

Record tokenFile := MkTokenFile { tf_ID : string; tf_Token : string; tf_Scopes : list string }.
Record userFile := MkUserFile {
  uf_ID : string; uf_Username : string; uf_PasswordBcrypt : string; uf_Scopes : list string }.
Record certFile := MkCertFile { cf_SubjectCN : string; cf_Scopes : list string }.

Record fileSchema := MkSchema {
  fs_Tokens : list tokenFile; fs_Users : list userFile; fs_Certs : list certFile;
  fs_AllowAnonymous : bool; fs_AllowBasicWithoutTLS : bool }.

Fixpoint parseScopesLoop (raw : list string) (out : list Scope) : result (list Scope) :=
  match raw with
  | [] => Ok out
  | name :: raw =>
      if decide (name ∈ [ScopeRead; ScopeWrite; ScopeAdmin]) then parseScopesLoop raw (out ++ [name])
      else Err (ErrOther "unknown scope")
  end.
Definition parseScopes (raw : list string) : result (list Scope) :=
  if decide (length raw = 0) then Err (ErrOther "scopes is empty") else parseScopesLoop raw [].

(** The three loops of [schemaToPolicy] have one shape. *)
Fixpoint liftRows {A B} (scopesOf : A → list string) (mk : A → list Scope → B) (rows : list A) (out : list B)
    : result (list B) :=
  match rows with
  | [] => Ok out
  | r :: rows =>
      match parseScopes (scopesOf r) with
      | Err e => Err e
      | Ok scopes => liftRows scopesOf mk rows (out ++ [mk r scopes])
      end
  end.

Definition schemaToPolicy (s : fileSchema) : result Policy :=
  match liftRows tf_Scopes (λ t scopes, MkToken (tf_ID t) (tf_Token t) scopes) (fs_Tokens s) [] with
  | Err e => Err e
  | Ok tokens =>
      match liftRows uf_Scopes (λ u scopes, MkBasic (uf_Username u) (uf_PasswordBcrypt u) (uf_ID u) scopes)
              (fs_Users s) [] with
      | Err e => Err e
      | Ok users =>
          match liftRows cf_Scopes (λ c scopes, MkCert (cf_SubjectCN c) scopes) (fs_Certs s) [] with
          | Err e => Err e
          | Ok certs =>
              Ok (MkPolicy tokens users certs None (fs_AllowAnonymous s) (fs_AllowBasicWithoutTLS s))
          end
      end
  end.

Context (decodeFile : string → result fileSchema).

(** Every failure is wrapped in [ErrInvalidPolicy]; the cause is left out. *)
Definition ErrInvalidPolicy : error := ErrOther "httpauth: invalid policy".

Definition loadFromFile (path : string) : result Policy :=
  match decodeFile path with
  | Err _ => Err ErrInvalidPolicy
  | Ok schema =>
      match schemaToPolicy schema with
      | Err _ => Err ErrInvalidPolicy
      | Ok policy => match Validate policy with Some _ => Err ErrInvalidPolicy | None => Ok policy end
      end
  end.

Definition synthesizeLegacyPolicy (token : string) : Policy :=
  MkPolicy [MkToken "default" token [ScopeRead; ScopeWrite; ScopeAdmin]] [] [] None false false.

(** The two environment variables are arguments. *)
Definition LoadFromEnv (configPath legacyToken : string) : result Policy :=
  if decide (configPath ≠ ""%string) then loadFromFile configPath
  else if decide (legacyToken ≠ ""%string) then Ok (synthesizeLegacyPolicy legacyToken)
  else Ok zeroPolicy.

End Auth.

(** ** Bearer tokens *)

Definition presents (h : string) (t : TokenIdentity) : Prop := h = String.append "Bearer " (tk_Token t).
#[export] Instance presents_dec h t : Decision (presents h t).
Proof. unfold presents. apply _. Defined.
#[global] Typeclasses Opaque presents.

Lemma bearerLoop_ok got ts : ∀ i m,
  (bearerLoop got ts i m = m ∧ ∀ t, t ∈ ts → ¬ presents got t) ∨
  (∃ j t, bearerLoop got ts i m = (i + Z.of_nat j)%Z ∧ ts !! j = Some t ∧ presents got t ∧
    ∀ j' t', j < j' → ts !! j' = Some t' → ¬ presents got t').
Proof.
  induction ts as [|t ts IH]; intros i m; cbn [bearerLoop].
  { left. split; [done|]. intros t H. by apply elem_of_nil in H. }
  destruct (IH (i + 1)%Z (if decide (got = String.append "Bearer " (tk_Token t)) then i else m))
    as [[-> Hno]|(j & t' & -> & Hj & Hp & Hlast)].
  - case_decide as E; [right|left].
    + exists 0, t. split_and!; [lia|done|done|]. intros [|j'] t' Hlt Hj'; [lia|]. apply Hno.
      by eapply list_elem_of_lookup_2.
    + split; [done|]. intros t' [->|Hin]%elem_of_cons; [done|by apply Hno].
  - right. exists (S j), t'. split_and!; [lia|done|done|]. intros [|j'] t'' Hlt; [lia|]. intros. by eapply (Hlast j'); [lia|].
Qed.

Lemma resolveBearer_ok h p id :
  resolveBearer h p = Some id ↔
  ∃ j t, Tokens p !! j = Some t ∧ presents h t ∧ id = MkIdentity (tk_ID t) (tk_Scopes t) ∧
    ∀ j' t', j < j' → Tokens p !! j' = Some t' → ¬ presents h t'.
Proof.
  unfold resolveBearer. case_decide as E0.
  - split; [done|]. intros (j & t & Hj & -> & _). destruct E0 as [E0|E0]; [done|].
    apply length_zero_iff_nil in E0. by rewrite E0 in Hj.
  - destruct (bearerLoop_ok h (Tokens p) 0 (-1)) as [[-> Hno]|(j & t & -> & Hj & Hp & Hlast)].
    + cbn. split; [done|]. intros (j & t & Hj & Hp & _). destruct (Hno t); [|done].
      by eapply list_elem_of_lookup_2.
    + destruct (Z.ltb_spec (0 + Z.of_nat j) 0); [lia|]. rewrite Z.add_0_l, Nat2Z.id, Hj. cbn. split.
      * intros [= <-]. by exists j, t.
      * intros (j' & t' & Hj' & Hp' & -> & Hlast').
        destruct (Nat.lt_trichotomy j j') as [Hlt|[->|Hlt]]; [by destruct (Hlast j' t')|congruence|].
        by destruct (Hlast' j t).
Qed.

(** ** Who passes *)

Section AuthFacts.
Context (bcryptCompare : string → string → bool).

Lemma basicLoop_ok user pass bs id :
  basicLoop bcryptCompare user pass bs = Some id →
  ∃ b, b ∈ bs ∧ Username b = user ∧ bcryptCompare (PasswordBcrypt b) pass = true ∧
    id = MkIdentity (bs_ID b) (bs_Scopes b).
Proof.
  induction bs as [|b bs IH]; cbn; [done|]. case_decide as E.
  - destruct (bcryptCompare _ _) eqn:Ec; [|done]. intros [= <-]. exists b. split_and!; [by left|done..].
  - intros H. destruct (IH H) as (b' & ? & ?). exists b'. split; [by right|done].
Qed.

Lemma certLoop_ok cn cs id :
  certLoop cn cs = Some id → ∃ ci, ci ∈ cs ∧ SubjectCN ci = cn ∧ id = MkIdentity cn (ct_Scopes ci).
Proof.
  induction cs as [|ci cs IH]; cbn; [done|]. case_decide as E.
  - intros [= <-]. exists ci. split_and!; [by left|done..].
  - intros H. destruct (IH H) as (ci' & ? & ?). exists ci'. split; [by right|done].
Qed.

(** The credential classes a request can pass with. *)
Inductive granted (p : Policy) (req : Request) : Identity → Prop :=
  | by_token t : t ∈ Tokens p → authorization req = String.append "Bearer " (tk_Token t) →
      granted p req (MkIdentity (tk_ID t) (tk_Scopes t))
  | by_password b pass : b ∈ BasicIdentities p →
      parseBasicHeader (authorization req) = Some (Username b, pass) →
      bcryptCompare (PasswordBcrypt b) pass = true → AllowBasicWithoutTLS p = true ∨ tls req ≠ None →
      granted p req (MkIdentity (bs_ID b) (bs_Scopes b))
  | by_cert ci rest chains : ci ∈ CertIdentities p → SubjectCN ci ≠ ""%string →
      tls req = Some ((SubjectCN ci :: rest) :: chains) →
      granted p req (MkIdentity (SubjectCN ci) (ct_Scopes ci))
  | by_hook hook id : ServerVerify p = Some hook → hook req = Ok id → granted p req id
  | by_anonymous : AllowAnonymous p = true → granted p req anonymous.

Lemma resolve_granted req p id : resolve bcryptCompare req p = Some id → granted p req id.
Proof.
  unfold resolve. destruct (resolveBearer (authorization req) p) as [i|] eqn:E1.
  { intros [= <-]. apply resolveBearer_ok in E1 as (j & t & Hj & Hp & -> & _).
    apply by_token; [by eapply list_elem_of_lookup_2|done]. }
  destruct (resolveBasic bcryptCompare req p) as [i|] eqn:E2.
  { intros [= <-]. unfold resolveBasic in E2. case_decide; [done|].
    apply bind_Some in E2 as ([user pass] & Ep & E2). destruct (_ && _) eqn:Et; [done|].
    apply basicLoop_ok in E2 as (b & Hb & <- & Hc & ->). eapply by_password; [done..|].
    destruct (AllowBasicWithoutTLS p); [by left|right]. cbn in Et. by apply bool_decide_eq_false in Et. }
  destruct (resolveCert req p) as [i|] eqn:E3.
  { intros [= <-]. unfold resolveCert in E3. case_decide; [done|].
    destruct (tls req) as [[|[|cn rest] chains]|] eqn:Et; try done. case_decide; [done|].
    apply certLoop_ok in E3 as (ci & Hci & <- & ->). by eapply by_cert. }
  destruct (ServerVerify p) as [hook|] eqn:Eh.
  - destruct (hook req) as [i|e] eqn:Er.
    + intros [= <-]. by eapply by_hook.
    + destruct (AllowAnonymous p) eqn:Ea; [|done]. intros [= <-]. by apply by_anonymous.
  - destruct (AllowAnonymous p) eqn:Ea; [|done]. intros [= <-]. by apply by_anonymous.
Qed.

(** C19: a request passes a route only with a credential that the policy grants (a
    configured bearer token presented exactly, a Basic password that bcrypt accepts
    on a TLS connection or where plaintext was allowed, a verified certificate's
    common name, the policy's hook, or the anonymous opt-in), as the identity of
    that grant, and only when that identity carries the scope the route requires;
    with no such credential the answer is 401, without the scope it is 403. *)
Theorem auth_no_escalation required req p :
  match Verify bcryptCompare required req p with
  | Pass id => granted p req id ∧ (required = ""%string ∨ required ∈ id_Scopes id)
  | StatusForbidden => required ≠ ""%string ∧ ∃ id, granted p req id ∧ required ∉ id_Scopes id
  | StatusUnauthorized => resolve bcryptCompare req p = None ∧ AllowAnonymous p = false
  end.
Proof.
  unfold Verify. destruct (resolve bcryptCompare req p) as [id|] eqn:E.
  - apply resolve_granted in E. case_decide as Er.
    + unfold HasScope. case_bool_decide; [by auto|]. split; [done|]. by exists id.
    + split; [done|]. left. destruct (decide (required = ""%string)); [done|tauto].
  - split; [done|]. unfold resolve in E. destruct (AllowAnonymous p); [|done].
    repeat case_match; done.
Qed.

(** A bearer header decides alone, whatever else the request carries: the last
    configured token it presents gives the identity, and without one the header
    resolves to nothing. *)
Theorem bearer_last_match_wins h p :
  resolveBearer h p =
  (λ t, MkIdentity (tk_ID t) (tk_Scopes t)) <$> last (filter (λ t, presents h t) (Tokens p)).
Proof.
  destruct (resolveBearer h p) as [id|] eqn:E.
  - apply resolveBearer_ok in E as (j & t & Hj & Hp & -> & Hlast).
    rewrite <- (take_drop_middle _ _ _ Hj), filter_app, filter_cons_True by done.
    assert (filter (λ t, presents h t) (drop (S j) (Tokens p)) = []) as ->.
    { destruct (filter _ _) as [|t' l] eqn:Ef; [done|]. exfalso.
      assert (t' ∈ filter (λ t, presents h t) (drop (S j) (Tokens p))) as Hin by (rewrite Ef; by left).
      apply list_elem_of_filter in Hin as [Hp' (i & Hi)%list_elem_of_lookup]. rewrite lookup_drop in Hi.
      eapply (Hlast (S j + i) t'); [lia|exact Hi|exact Hp']. }
    by rewrite last_snoc.
  - destruct (last (filter _ _)) as [t|] eqn:El; [|done]. exfalso. apply last_Some in El as [l El].
    assert (t ∈ filter (λ t, presents h t) (Tokens p)) as Hin by (rewrite El; set_solver).
    apply list_elem_of_filter in Hin as [Hp Hin]. unfold resolveBearer in E. case_decide as E0.
    { destruct E0 as [->|E0]; [done|]. apply length_zero_iff_nil in E0. rewrite E0 in Hin. by apply elem_of_nil in Hin. }
    destruct (bearerLoop_ok h (Tokens p) 0 (-1)) as [[_ Hno]|(j & t' & Eb & Hj & _)]; [by apply (Hno t)|].
    rewrite Eb, Z.add_0_l, Nat2Z.id, Hj in E. destruct (Z.ltb_spec (Z.of_nat j) 0); [lia|done].
Qed.

(** A policy without any credential class does not open the API: every request
    is answered 401, unless anonymous access is allowed, in which case every
    request passes every route, even one that carries a wrong credential. *)
Theorem unconfigured_policy required req p :
  IsConfigured p = false →
  Verify bcryptCompare required req p =
    if AllowAnonymous p then
      if decide (required = ""%string ∨ required ∈ [ScopeRead; ScopeWrite; ScopeAdmin])
      then Pass anonymous else StatusForbidden
    else StatusUnauthorized.
Proof.
  unfold IsConfigured. intros Hc. rewrite !orb_false_iff in Hc. destruct Hc as [[[Ht Hb] Hct] Hv].
  apply Nat.ltb_ge in Ht, Hb, Hct.
  assert (resolve bcryptCompare req p = if AllowAnonymous p then Some anonymous else None) as E.
  { unfold resolve, resolveBearer, resolveBasic, resolveCert.
    rewrite !decide_True by (try right; lia). by destruct (ServerVerify p). }
  unfold Verify. rewrite E. destruct (AllowAnonymous p); [|done].
  case_decide as Er; case_decide as Es.
  - unfold HasScope. cbn [anonymous id_Scopes]. by rewrite bool_decide_eq_true_2 by tauto.
  - unfold HasScope. cbn [anonymous id_Scopes]. by rewrite bool_decide_eq_false_2 by tauto.
  - done.
  - destruct Es. left. destruct (decide (required = ""%string)); [done|tauto].
Qed.

End AuthFacts.

(** ** Loaded policies *)

Definition scopes_ok (ss : list Scope) : Prop :=
  ss ≠ [] ∧ ∀ s, s ∈ ss → s ∈ [ScopeRead; ScopeWrite; ScopeAdmin].

Record policy_ok (bcryptCost : string → option Z) (p : Policy) : Prop := {
  po_tokens : ∀ t, t ∈ Tokens p → tk_Token t ≠ ""%string ∧ tk_ID t ≠ ""%string ∧ scopes_ok (tk_Scopes t);
  po_basic : ∀ b, b ∈ BasicIdentities p →
    Username b ≠ ""%string ∧ bs_ID b ≠ ""%string ∧ is_Some (bcryptCost (PasswordBcrypt b)) ∧
    scopes_ok (bs_Scopes b);
  po_certs : ∀ c, c ∈ CertIdentities p → SubjectCN c ≠ ""%string ∧ scopes_ok (ct_Scopes c);
  po_hook : ServerVerify p = None }.

Lemma parseScopes_ok raw ss : parseScopes raw = Ok ss → ss = raw ∧ scopes_ok ss.
Proof.
  unfold parseScopes. case_decide as E; [done|].
  assert (∀ out, parseScopesLoop raw out = Ok ss →
    ss = out ++ raw ∧ ∀ s, s ∈ raw → s ∈ [ScopeRead; ScopeWrite; ScopeAdmin]) as H.
  { clear E. induction raw as [|name raw IH]; intros out; cbn [parseScopesLoop].
    - intros [= <-]. rewrite app_nil_r. split; [done|]. intros s Hs. by apply elem_of_nil in Hs.
    - case_decide as Hn; [|done]. intros [-> Hr]%IH. rewrite <- app_assoc. split; [done|].
      intros s [->|Hs]%elem_of_cons; auto. }
  intros [-> Hs]%H. split; [done|]. split; [|done]. intros E'. cbn in E'. by subst.
Qed.

Lemma liftRows_ok {A B} (scopesOf : A → list string) (mk : A → list Scope → B) rows : ∀ out res,
  liftRows scopesOf mk rows out = Ok res →
  ∀ b, b ∈ res → b ∈ out ∨ ∃ r, r ∈ rows ∧ b = mk r (scopesOf r) ∧ scopes_ok (scopesOf r).
Proof.
  induction rows as [|r rows IH]; intros out res; cbn [liftRows]; [intros [= <-]; auto|].
  destruct (parseScopes (scopesOf r)) as [ss|e] eqn:Ep; [|done].
  apply parseScopes_ok in Ep as [-> Hs]. intros H b Hb.
  destruct (IH _ _ H b Hb) as [[Ho|Hb']%elem_of_app|(r' & Hr' & ?)]; [by left| |].
  - apply list_elem_of_singleton in Hb'. right. exists r. split; [by left|done].
  - right. exists r'. split; [by right|done].
Qed.

Lemma validateTokens_ok ts :
  validateTokens ts = None → ∀ t, t ∈ ts → tk_Token t ≠ ""%string ∧ tk_ID t ≠ ""%string.
Proof.
  induction ts as [|t ts IH]; cbn; [intros _ t Ht; by apply elem_of_nil in Ht|].
  repeat case_decide; try done. intros Hv t' [->|Ht']%elem_of_cons; auto.
Qed.

Lemma validateBasics_ok bcryptCost bs :
  validateBasics bcryptCost bs = None →
  ∀ b, b ∈ bs → Username b ≠ ""%string ∧ bs_ID b ≠ ""%string ∧ is_Some (bcryptCost (PasswordBcrypt b)).
Proof.
  induction bs as [|b bs IH]; cbn; [intros _ b Hb; by apply elem_of_nil in Hb|].
  destruct (validateBasicIdentity bcryptCost b) eqn:E; [done|]. intros H b' [->|Hb']%elem_of_cons; [|auto].
  unfold validateBasicIdentity in E. repeat case_decide; try done. destruct (bcryptCost _); [|done]. eauto.
Qed.

Lemma validateCerts_ok cs : validateCerts cs = None → ∀ c, c ∈ cs → SubjectCN c ≠ ""%string.
Proof.
  induction cs as [|c cs IH]; cbn; [intros _ c Hc; by apply elem_of_nil in Hc|].
  case_decide; [done|]. intros Hv c' [->|Hc']%elem_of_cons; auto.
Qed.

(** C20: whatever policy the loader accepts, from a file, from the legacy token or
    from an empty environment, is well formed: no empty token, user name, common
    name or audit id, every password a bcrypt hash, every grant at least one scope
    and no scope but read, write and admin. *)
Theorem loaded_policy_ok bcryptCost decodeFile configPath legacyToken p :
  LoadFromEnv bcryptCost decodeFile configPath legacyToken = Ok p → policy_ok bcryptCost p.
Proof.
  unfold LoadFromEnv. case_decide as Ec.
  - unfold loadFromFile. destruct (decodeFile configPath) as [schema|e]; [|done].
    destruct (schemaToPolicy schema) as [q|e] eqn:Es; [|done].
    destruct (Validate bcryptCost q) as [e|] eqn:Ev; [done|]. intros [= ->].
    unfold schemaToPolicy in Es. destruct (liftRows _ _ (fs_Tokens schema) []) as [ts|e] eqn:Et; [|done].
    destruct (liftRows _ _ (fs_Users schema) []) as [us|e] eqn:Eu; [|done].
    destruct (liftRows _ _ (fs_Certs schema) []) as [cs|e] eqn:Ecs; [|done]. injection Es as <-.
    unfold Validate in Ev. cbn [Tokens BasicIdentities CertIdentities] in Ev.
    destruct (validateTokens ts) eqn:Vt; [done|]. destruct (validateBasics bcryptCost us) eqn:Vu; [done|].
    split; cbn; [..|done].
    + intros t Ht. pose proof (validateTokens_ok _ Vt t Ht).
      destruct (liftRows_ok _ _ _ _ _ Et t Ht) as [Hn|(x & _ & -> & Hs)]; [by apply elem_of_nil in Hn|naive_solver].
    + intros b Hb. pose proof (validateBasics_ok _ _ Vu b Hb).
      destruct (liftRows_ok _ _ _ _ _ Eu b Hb) as [Hn|(x & _ & -> & Hs)]; [by apply elem_of_nil in Hn|naive_solver].
    + intros c Hc. pose proof (validateCerts_ok _ Ev c Hc).
      destruct (liftRows_ok _ _ _ _ _ Ecs c Hc) as [Hn|(x & _ & -> & Hs)]; [by apply elem_of_nil in Hn|naive_solver].
  - case_decide as El; intros [= <-]; split; cbn; try done;
      try (intros x Hx; by apply elem_of_nil in Hx).
    intros t Ht%list_elem_of_singleton. subst. split_and!; done.
Qed.

(** ** The Basic header *)

(** RFC 4648: the character of a value below 64. *)
Definition b64chr (v : Z) : Z :=
  if decide (v < 26)%Z then (v + 65)%Z
  else if decide (v < 52)%Z then (v + 71)%Z
  else if decide (v < 62)%Z then (v - 4)%Z
  else if decide (v = 62)%Z then 43%Z else 47%Z.

Lemma b64val_chr v : (0 ≤ v < 64)%Z → b64val (b64chr v) = Some v.
Proof. intros Hv. unfold b64chr, b64val. repeat case_decide; try lia; f_equal; lia. Qed.

(** The encoder: three bytes to four characters, with padding at the end. *)
Fixpoint base64Encode (bs : list Z) : list Z :=
  match bs with
  | x :: y :: z :: r =>
      b64chr (x / 4) :: b64chr (x mod 4 * 16 + y / 16) :: b64chr (y mod 16 * 4 + z / 64) :: b64chr (z mod 64)
        :: base64Encode r
  | [x; y] => [b64chr (x / 4); b64chr (x mod 4 * 16 + y / 16); b64chr (y mod 16 * 4); 61%Z]
  | [x] => [b64chr (x / 4); b64chr (x mod 4 * 16); 61%Z; 61%Z]
  | [] => []
  end.

Lemma lor_shiftl a b n : (0 ≤ n)%Z → (0 ≤ b < 2 ^ n)%Z → Z.lor (Z.shiftl a n) b = (a * 2 ^ n + b)%Z.
Proof.
  intros Hn Hb. rewrite <- Z.shiftl_mul_pow2, <- Z.add_lor_land by done.
  assert (Z.land (Z.shiftl a n) b = 0)%Z as ->; [|lia].
  apply Z.bits_inj'. intros i Hi. rewrite Z.land_spec, Z.bits_0, Z.shiftl_spec by done.
  destruct (decide (i < n)%Z); [by rewrite Z.testbit_neg_r by lia|].
  destruct (decide (b = 0)%Z) as [->|]; [by rewrite Z.bits_0, andb_false_r|].
  rewrite (Z.bits_above_log2 b), andb_false_r; [done|lia|].
  apply Z.log2_lt_pow2; [lia|].
  pose proof (Z.pow_le_mono_r 2 n i). lia.
Qed.

(** The three shapes of a quantum, as the arithmetic of its values. *)
Lemma quantum4 a b c d :
  (0 ≤ b < 64 → 0 ≤ c < 64 → 0 ≤ d < 64 →
   Z.lor (Z.lor (Z.shiftl a 18) (Z.shiftl b 12)) (Z.lor (Z.shiftl c 6) d) = a * 262144 + b * 4096 + c * 64 + d)%Z.
Proof.
  intros Hb Hc Hd. rewrite (lor_shiftl c d 6) by lia.
  replace (Z.lor (Z.shiftl a 18) (Z.shiftl b 12)) with (Z.shiftl (a * 64 + b) 12).
  2:{ change 64%Z with (2 ^ 6)%Z. rewrite <- (lor_shiftl a b 6) by lia. by rewrite Z.shiftl_lor, Z.shiftl_shiftl by lia. }
  rewrite lor_shiftl by lia. lia.
Qed.

Lemma quantum_bytes x y z :
  (0 ≤ x < 256 → 0 ≤ y < 256 → 0 ≤ z < 256 →
   let n := x / 4 * 262144 + (x mod 4 * 16 + y / 16) * 4096 + (y mod 16 * 4 + z / 64) * 64 + z mod 64 in
   u8 (Z.shiftr n 16) = x ∧ u8 (Z.shiftr n 8) = y ∧ u8 n = z)%Z.
Proof.
  intros Hx Hy Hz n. subst n. unfold u8. rewrite !Z.shiftr_div_pow2 by lia. cbn [Z.pow Z.pow_pos Pos.iter Z.mul Pos.mul].
  repeat split; Z.to_euclidean_division_equations; lia.
Qed.

Abbreviation byte b := (0 ≤ b < 256)%Z.

Lemma quantum3 a b c :
  (0 ≤ b < 64 → 0 ≤ c < 64 →
   Z.lor (Z.lor (Z.shiftl a 18) (Z.shiftl b 12)) (Z.shiftl c 6) = a * 262144 + b * 4096 + c * 64)%Z.
Proof.
  intros Hb Hc. pose proof (quantum4 a b c 0 Hb Hc ltac:(lia)) as H. rewrite Z.lor_0_r in H. lia.
Qed.

Lemma quantum2 a b :
  (0 ≤ b < 64 → Z.lor (Z.shiftl a 18) (Z.shiftl b 12) = a * 262144 + b * 4096)%Z.
Proof.
  intros Hb. pose proof (quantum3 a b 0 Hb ltac:(lia)) as H. rewrite Z.shiftl_0_l, Z.lor_0_r in H. lia.
Qed.

Lemma sextets x y z : byte x → byte y → byte z →
  (0 ≤ x / 4 < 64 ∧ 0 ≤ x mod 4 * 16 + y / 16 < 64 ∧ 0 ≤ y mod 16 * 4 + z / 64 < 64 ∧ 0 ≤ z mod 64 < 64 ∧
   0 ≤ x mod 4 * 16 < 64 ∧ 0 ≤ y mod 16 * 4 < 64)%Z.
Proof. intros. repeat split; Z.to_euclidean_division_equations; lia. Qed.

Lemma decodeQuanta_encode n : ∀ bs,
  length bs ≤ n → Forall (λ b, byte b) bs → decodeQuanta (base64Encode bs) = Some bs.
Proof.
  induction n as [|n IH]; intros [|x [|y [|z r]]] Hl H; cbn in Hl; try lia; try done;
    rewrite !Forall_cons in H; cbn [base64Encode decodeQuanta].
  - destruct H as [Hx _]. destruct (sextets x 0 0) as (S1 & _ & _ & _ & S2 & _); [lia..|].
    rewrite !b64val_chr by done. cbn [mbind option_bind]. rewrite quantum2 by done.
    destruct (quantum_bytes x 0 0) as [E _]; [lia..|]. cbn in E. rewrite !Z.add_0_r in E. by rewrite E.
  - destruct H as (Hx & Hy & _). destruct (sextets x y 0) as (S1 & S2 & _ & _ & _ & S3); [lia..|].
    rewrite !b64val_chr by done. cbn [mbind option_bind]. rewrite quantum3 by done.
    destruct (quantum_bytes x y 0) as (E & E' & _); [lia..|]. cbn in E, E'. rewrite !Z.add_0_r in E, E'.
    cbn. by rewrite E, E'.
  - destruct H as (Hx & Hy & Hz & Hr). destruct (sextets x y z) as (S1 & S2 & S3 & S4 & _); [lia..|].
    rewrite !b64val_chr by done. cbn [mbind option_bind]. rewrite quantum4 by done.
    rewrite IH by (lia || done). cbn [mbind option_bind].
    destruct (quantum_bytes x y z) as (E & E' & E''); [lia..|]. by rewrite E, E', E''.
Qed.

(** The characters of an encoding are printable and not spaces. *)
Lemma b64chr_printable v : (0 ≤ v < 64 → 33 ≤ b64chr v ≤ 126)%Z.
Proof. intros Hv. unfold b64chr. repeat case_decide; lia. Qed.

Lemma base64Encode_printable n : ∀ bs,
  length bs ≤ n → Forall (λ b, byte b) bs → Forall (λ c, 33 ≤ c ≤ 126)%Z (base64Encode bs).
Proof.
  induction n as [|n IH]; intros [|x [|y [|z r]]] Hl H; cbn in Hl; try lia; try apply Forall_nil_2;
    rewrite !Forall_cons in H; cbn [base64Encode].
  - destruct H as [Hx _]. destruct (sextets x 0 0) as (S1 & _ & _ & _ & S2 & _); [lia..|].
    repeat (apply Forall_cons; split; [first [by apply b64chr_printable | lia]|]). done.
  - destruct H as (Hx & Hy & _). destruct (sextets x y 0) as (S1 & S2 & _ & _ & _ & S3); [lia..|].
    repeat (apply Forall_cons; split; [first [by apply b64chr_printable | lia]|]). done.
  - destruct H as (Hx & Hy & Hz & Hr). destruct (sextets x y z) as (S1 & S2 & S3 & S4 & _); [lia..|].
    repeat (apply Forall_cons; split; [by apply b64chr_printable|]). apply IH; [lia|done].
Qed.

Lemma printable_not_space :
  Forall (λ b, ∀ r, trimLeft (b :: r) = b :: r ∧ allSpace (b :: r) = false) (seq 33 94).
Proof. cbn [seq]. repeat (apply Forall_cons; split; [intros r; split; reflexivity|]). apply Forall_nil. done. Qed.

Lemma trimSpace_printable bs : Forall (λ b, 33 ≤ b ≤ 126) bs → trimSpace bs = bs.
Proof.
  intros H. unfold trimSpace. pose proof (proj1 (Forall_forall _ _) printable_not_space) as Hs.
  assert (∀ b, 33 ≤ b ≤ 126 → b ∈ seq 33 94) as Hin by (intros; apply elem_of_seq; lia).
  assert (trimLeft bs = bs) as ->.
  { destruct H as [|b bs Hb _]; [done|]. by destruct (Hs b (Hin b Hb) bs). }
  induction H as [|b bs Hb _ IH]; [done|]. cbn [trimRight].
  destruct (Hs b (Hin b Hb) bs) as [_ ->]. by rewrite IH.
Qed.

Lemma cutAt_ok sep xs ys : sep ∉ xs → cutAt sep (xs ++ sep :: ys) = Some (xs, ys).
Proof.
  induction xs as [|x xs IH]; intros Hn; cbn [app cutAt].
  - by rewrite decide_True by done.
  - apply not_elem_of_cons in Hn as [? Hn]. rewrite decide_False by done. by rewrite (IH Hn).
Qed.

(** The header a client sends (RFC 7617). *)
Definition basicHeader (user pass : string) : string :=
  String.append "Basic "
    (string_of_bytes (base64Encode (Z.of_nat <$> bytes_of (String.append user (String.append ":" pass))))).

Lemma prefix_append s s' : String.prefix s (String.append s s') = true.
Proof. induction s as [|c s IH]; [by destruct s'|]. change (String.append (String c s) s') with (String c (String.append s s')).
  cbn [String.prefix]. destruct (Ascii.ascii_dec c c); [exact IH|congruence]. Qed.

(** Encoding then decoding, through a Go string. *)
Lemma base64_roundtrip bs :
  Forall (λ b, byte b) bs → base64Decode (Z.of_nat <$> bytes_of (string_of_bytes (base64Encode bs))) = Some bs.
Proof.
  intros H. pose proof (base64Encode_printable (length bs) bs ltac:(done) H) as Hp.
  rewrite bytes_of_string_of_bytes by (eapply Forall_impl; [exact Hp|cbn; lia]).
  unfold base64Decode. rewrite filter_all by (eapply Forall_impl; [exact Hp|cbn; lia]).
  by apply (decodeQuanta_encode (length bs)).
Qed.

(** What a client sends for a user and a password comes back as exactly that
    user and that password, for all bytes, where the user name has no colon. *)
Theorem basic_header_roundtrip user pass :
  58 ∉ bytes_of user → parseBasicHeader (basicHeader user pass) = Some (user, pass).
Proof.
  intros Hu. unfold parseBasicHeader, basicHeader. rewrite prefix_append, bytes_of_append.
  change (bytes_of "Basic ") with [66; 97; 115; 105; 99; 32]. cbn [app skipn]. rewrite drop_0.
  set (raw := Z.of_nat <$> bytes_of (String.append user (String.append ":" pass))).
  assert (Forall (λ b, byte b) raw) as Hraw by apply bytes_of_bound.
  pose proof (base64Encode_printable (length raw) raw ltac:(done) Hraw) as Hp.
  assert (Forall (λ b, byte b) (base64Encode raw)) as Hb by (eapply Forall_impl; [exact Hp|cbn; lia]).
  assert (raw = (Z.of_nat <$> bytes_of user) ++ 58%Z :: (Z.of_nat <$> bytes_of pass)) as Er.
  { unfold raw. rewrite !bytes_of_append, fmap_app. done. }
  assert (Forall (λ b, 33 ≤ b ≤ 126) (bytes_of (string_of_bytes (base64Encode raw)))) as Hn.
  { rewrite <- (bytes_of_string_of_bytes _ Hb), Forall_fmap in Hp. eapply Forall_impl; [exact Hp|cbn; lia]. }
  rewrite (trimSpace_printable _ Hn), bytes_of_string_of_bytes by done.
  rewrite decide_False.
  2:{ intros E. apply (f_equal (fmap Z.of_nat)) in E. rewrite bytes_of_string_of_bytes in E by done.
      pose proof (decodeQuanta_encode (length raw) raw ltac:(done) Hraw) as Ed. rewrite E, Er in Ed.
      by destruct (Z.of_nat <$> bytes_of user). }
  pose proof (base64_roundtrip raw Hraw) as Ed. rewrite bytes_of_string_of_bytes in Ed by done. rewrite Ed.
  cbn [mbind option_bind]. rewrite Er, cutAt_ok; [cbn; by rewrite !string_of_bytes_of|].
  intros (b & Eb & Hin)%list_elem_of_fmap. by replace b with 58 in Hin by lia.
Qed.

(** ** Witnesses *)

Definition sample_bcryptCost (h : string) : option Z := if decide (h = "$2a$hash") then Some 10%Z else None.
Definition sample_bcryptCompare (h p : string) : bool := bool_decide (h = "$2a$hash" ∧ p = "secret").
Definition sample_decodeFile (path : string) : result fileSchema :=
  Ok (MkSchema [MkTokenFile "ci" "t0ken" ["read"; "write"]] [MkUserFile "ops-1" "ops" "$2a$hash" ["admin"]]
        [MkCertFile "node-a" ["read"]] false false).

Lemma loaded_policy_ok_witness :
  ∃ p, LoadFromEnv sample_bcryptCost sample_decodeFile "auth.yaml" "" = Ok p ∧ policy_ok sample_bcryptCost p ∧
    Verify sample_bcryptCompare ScopeAdmin (MkRequest (basicHeader "ops" "secret") (Some [])) p =
      Pass (MkIdentity "ops-1" ["admin"]) ∧
    Verify sample_bcryptCompare ScopeAdmin (MkRequest (basicHeader "ops" "secret") None) p = StatusUnauthorized ∧
    Verify sample_bcryptCompare ScopeAdmin (MkRequest "Bearer t0ken" None) p = StatusForbidden.
Proof.
  eexists. split; [vm_compute; reflexivity|]. split; [|repeat split; vm_compute; reflexivity].
  apply (loaded_policy_ok sample_bcryptCost sample_decodeFile "auth.yaml" ""). vm_compute. reflexivity.
Defined.

Lemma unconfigured_policy_witness :
  Verify sample_bcryptCompare ScopeAdmin (MkRequest "Bearer wrong" None) (MkPolicy [] [] [] None true false) =
  Pass anonymous.
Proof. rewrite (unconfigured_policy sample_bcryptCompare); vm_compute; reflexivity. Defined.

Lemma basic_header_roundtrip_witness :
  parseBasicHeader "Basic QWxhZGRpbjpvcGVuOnNlc2FtZQ==" = Some ("Aladdin", "open:sesame")%string.
Proof.
  change "Basic QWxhZGRpbjpvcGVuOnNlc2FtZQ=="%string with (basicHeader "Aladdin" "open:sesame").
  apply basic_header_roundtrip. apply (bool_decide_unpack _). exact I.
Defined.
