(* ===== verification/EventBus.v ===== *)
(** * The event bus (internal/eventbus/bus.go)

    Publishers, subscribers and unsubscribers run concurrently; the model
    interleaves their atomic steps: an acquisition or a release of the read-write
    lock, the critical section's effects, each non-blocking send of the publishing
    loop, the entry of the [sync.Once] and the closing of a channel.  Go panics on a
    send to a closed channel and on a second close: those steps are [Panics].

    The lock is kept as its holders (a set of readers or one writer), a channel as
    its buffer with what has been received from it so far, and [offered] counts, for
    the accounting theorem only, how often a publisher met a subscriber.

    The theorems: no step panics and no buffer overflows; every event a publisher
    offers is received, buffered or counted as dropped; a publisher never waits for
    a subscriber; and two publishers can be delivered in the opposite order of
    their versions. *)

From stdpp Require Import base gmap strings list.
From Stdlib Require Import ZArith Lia.
From S2P Require Import Prelude.

Record Event := MkEvent { Type_ : string; Payload : any; Version : Z; Timestamp : Z }.

Definition subscriberBufferSize : nat := 16.

Record Chan := MkChan { received : list Event; buf : list Event; closed : bool }.

(** The lifecycle of the [sync.Once] of a subscription. *)
Inductive once := NotRun | Running | Finished.

(** Program counters.  [PubLoop] carries the subscribers that the range over the map
    has still to visit. *)
Inductive pc :=
  | PubCall (evt : Event)
  | PubRLocked (evt : Event)
  | PubLoop (evt : Event) (todo : gmap Z nat)
  | SubCall
  | SubLocked
  | SubInserted (id : Z) (ch : nat)
  | UnsubCall (ch : nat)
  | UnsubOnce (id : Z) (ch : nat)
  | UnsubLocked (id : Z) (ch : nat)
  | UnsubDeleted (ch : nat)
  | UnsubClose (ch : nat)
  | Return.

(** The [Bus], the channels and closures it handed out, and the running calls. *)
Record Bus := MkBus {
  readers : gset nat;
  writer : option nat;
  subscribers : gmap Z nat;
  nextID : Z;
  version : Z;
  dropped : Z;
  chans : gmap nat Chan;
  closures : gmap nat (Z * once);
  threads : gmap nat pc;
  offered : Z }.

Definition New : Bus := MkBus ∅ None ∅ 0 0 0 ∅ ∅ ∅ 0.

Definition with_lock (r : gset nat) (w : option nat) (b : Bus) : Bus :=
  MkBus r w (subscribers b) (nextID b) (version b) (dropped b) (chans b) (closures b) (threads b) (offered b).
Definition with_pc (tid : nat) (p : pc) (b : Bus) : Bus :=
  MkBus (readers b) (writer b) (subscribers b) (nextID b) (version b) (dropped b) (chans b) (closures b)
    (<[tid := p]> (threads b)) (offered b).
Definition with_chan (ch : nat) (c : Chan) (b : Bus) : Bus :=
  MkBus (readers b) (writer b) (subscribers b) (nextID b) (version b) (dropped b) (<[ch := c]> (chans b))
    (closures b) (threads b) (offered b).
Definition with_closure (ch : nat) (c : Z * once) (b : Bus) : Bus :=
  MkBus (readers b) (writer b) (subscribers b) (nextID b) (version b) (dropped b) (chans b)
    (<[ch := c]> (closures b)) (threads b) (offered b).
Definition with_subscribers (m : gmap Z nat) (b : Bus) : Bus :=
  MkBus (readers b) (writer b) m (nextID b) (version b) (dropped b) (chans b) (closures b) (threads b) (offered b).

Inductive outcome := Blocked | Panics | Next (b : Bus).

(** [RLock] and [Lock] wait while the lock is held in a conflicting mode. *)
Definition rlock (tid : nat) (p : pc) (b : Bus) : outcome :=
  match writer b with
  | Some _ => Blocked
  | None => Next (with_pc tid p (with_lock ({[tid]} ∪ readers b) None b))
  end.
Definition lock (tid : nat) (p : pc) (b : Bus) : outcome :=
  match writer b with
  | Some _ => Blocked
  | None => if decide (readers b = ∅) then Next (with_pc tid p (with_lock ∅ (Some tid) b)) else Blocked
  end.

(** [select { case sub.ch <- evt: default: dropped.Add(1) }]. *)
Definition trySend (evt : Event) (ch : nat) (b : Bus) : outcome :=
  match chans b !! ch with
  | None => Blocked
  | Some c =>
      if closed c then Panics
      else if length (buf c) <? subscriberBufferSize then
        Next (with_chan ch (MkChan (received c) (buf c ++ [evt]) false) b)
      else Next (MkBus (readers b) (writer b) (subscribers b) (nextID b) (version b) (u64 (dropped b + 1))
                   (chans b) (closures b) (threads b) (offered b))
  end.

(** The steps of [Publish]; [id] is the subscriber the range over the map visits
    next, [now] the clock. *)
Definition Publish (tid : nat) (id now : Z) (p : pc) (b : Bus) : outcome :=
  match p with
  | PubCall evt => rlock tid (PubRLocked evt) b
  | PubRLocked evt =>
      let v := u64 (version b + 1) in
      let evt := MkEvent (Type_ evt) (Payload evt) v (if decide (Timestamp evt = 0)%Z then now else Timestamp evt) in
      Next (with_pc tid (PubLoop evt (subscribers b))
        (MkBus (readers b) (writer b) (subscribers b) (nextID b) v (dropped b) (chans b) (closures b)
           (threads b) (offered b + Z.of_nat (size (subscribers b)))))
  | PubLoop evt todo =>
      if decide (todo = ∅) then Next (with_pc tid Return (with_lock (readers b ∖ {[tid]}) (writer b) b))
      else
        match todo !! id with
        | None => Blocked
        | Some ch => trySend evt ch (with_pc tid (PubLoop evt (delete id todo)) b)
        end
  | _ => Blocked
  end.

(** The steps of [Subscribe]: a fresh channel, registered under the lock. *)
Definition Subscribe (tid : nat) (p : pc) (b : Bus) : outcome :=
  match p with
  | SubCall => lock tid SubLocked b
  | SubLocked =>
      let id := nextID b in
      let ch := fresh (dom (chans b)) in
      Next (with_pc tid (SubInserted id ch)
        (MkBus (readers b) (writer b) (<[id := ch]> (subscribers b)) (u64 (id + 1)) (version b) (dropped b)
           (<[ch := MkChan [] [] false]> (chans b)) (closures b) (threads b) (offered b)))
  | SubInserted id ch =>
      Next (with_pc tid Return (with_closure ch (id, NotRun) (with_lock (readers b) None b)))
  | _ => Blocked
  end.

(** The steps of the [unsub] closure. *)
Definition unsub (tid : nat) (p : pc) (b : Bus) : outcome :=
  match p with
  | UnsubCall ch =>
      match closures b !! ch with
      | Some (id, NotRun) => Next (with_pc tid (UnsubOnce id ch) (with_closure ch (id, Running) b))
      | Some (_, Finished) => Next (with_pc tid Return b)
      | _ => Blocked
      end
  | UnsubOnce id ch => lock tid (UnsubLocked id ch) b
  | UnsubLocked id ch => Next (with_pc tid (UnsubDeleted ch) (with_subscribers (delete id (subscribers b)) b))
  | UnsubDeleted ch => Next (with_pc tid (UnsubClose ch) (with_lock (readers b) None b))
  | UnsubClose ch =>
      match chans b !! ch, closures b !! ch with
      | Some c, Some (id, _) =>
          if closed c then Panics
          else Next (with_pc tid Return (with_closure ch (id, Finished)
                 (with_chan ch (MkChan (received c) (buf c) true) b)))
      | _, _ => Blocked
      end
  | _ => Blocked
  end.

(** A call of [Publish] or [Subscribe], a call of an unsubscribe function (by its
    owner or by the goroutine that watches the context), a step of a running call,
    a receive. *)
Inductive label :=
  | CallPublish (tid : nat) (evt : Event)
  | CallSubscribe (tid : nat)
  | CallUnsub (tid ch : nat)
  | Run (tid : nat) (id now : Z)
  | Recv (ch : nat).

Definition spawn (tid : nat) (p : pc) (b : Bus) : outcome :=
  match threads b !! tid with Some _ => Blocked | None => Next (with_pc tid p b) end.

Definition step (l : label) (b : Bus) : outcome :=
  match l with
  | CallPublish tid evt => spawn tid (PubCall evt) b
  | CallSubscribe tid => spawn tid SubCall b
  | CallUnsub tid ch => match closures b !! ch with Some _ => spawn tid (UnsubCall ch) b | None => Blocked end
  | Run tid id now =>
      match threads b !! tid with
      | Some (PubCall _ | PubRLocked _ | PubLoop _ _) as p => Publish tid id now (default Return p) b
      | Some (SubCall | SubLocked | SubInserted _ _) as p => Subscribe tid (default Return p) b
      | Some (UnsubCall _ | UnsubOnce _ _ | UnsubLocked _ _ | UnsubDeleted _ | UnsubClose _) as p =>
          unsub tid (default Return p) b
      | _ => Blocked
      end
  | Recv ch =>
      match chans b !! ch with
      | Some (MkChan r (e :: q) cl) => Next (with_chan ch (MkChan (r ++ [e]) q cl) b)
      | _ => Blocked
      end
  end.

(** Runs from the empty bus. *)
Inductive reachable : Bus → Prop :=
  | reach_New : reachable New
  | reach_step l b b' : reachable b → step l b = Next b' → reachable b'.

(** [Dropped] and [SubscriberCount]. *)
Definition Dropped (b : Bus) : Z := dropped b.
Definition SubscriberCount (b : Bus) : nat := size (subscribers b).

(** ** The invariant *)

Definition reading (p : pc) : Prop := match p with PubRLocked _ | PubLoop _ _ => True | _ => False end.
Definition writing (p : pc) : Prop :=
  match p with SubLocked | SubInserted _ _ | UnsubLocked _ _ | UnsubDeleted _ => True | _ => False end.

(** The channel whose [sync.Once] body a call is running, the identifier it will
    delete, and the channel it has taken out of the map. *)
Definition unsub_of (p : pc) : option nat :=
  match p with UnsubOnce _ ch | UnsubLocked _ ch | UnsubDeleted ch | UnsubClose ch => Some ch | _ => None end.
Definition unsub_id (p : pc) : option Z :=
  match p with UnsubOnce id _ | UnsubLocked id _ => Some id | _ => None end.
Definition deleted_of (p : pc) : option nat :=
  match p with UnsubDeleted ch | UnsubClose ch => Some ch | _ => None end.

Lemma deleted_unsub p ch : deleted_of p = Some ch → unsub_of p = Some ch.
Proof. by destruct p. Qed.

Record inv (b : Bus) : Prop := {
  i_read : ∀ tid p, threads b !! tid = Some p → reading p → tid ∈ readers b;
  i_write : ∀ tid p, threads b !! tid = Some p → writing p → writer b = Some tid;
  i_excl : ∀ tid, writer b = Some tid → readers b = ∅;
  i_loop : ∀ tid evt todo, threads b !! tid = Some (PubLoop evt todo) → todo ⊆ subscribers b;
  i_sub : ∀ id ch, subscribers b !! id = Some ch → is_Some (chans b !! ch) ∧
    ((closures b !! ch = None ∧ ∃ tid, threads b !! tid = Some (SubInserted id ch)) ∨
     ∃ o, closures b !! ch = Some (id, o) ∧ o ≠ Finished);
  i_new : ∀ tid id ch, threads b !! tid = Some (SubInserted id ch) →
    closures b !! ch = None ∧ is_Some (chans b !! ch);
  i_run : ∀ tid p ch, threads b !! tid = Some p → unsub_of p = Some ch →
    ∃ id, closures b !! ch = Some (id, Running) ∧ ∀ id', unsub_id p = Some id' → id' = id;
  i_gone : ∀ tid p ch id, threads b !! tid = Some p → deleted_of p = Some ch → subscribers b !! id ≠ Some ch;
  i_one : ∀ t1 t2 p1 p2 ch, threads b !! t1 = Some p1 → threads b !! t2 = Some p2 →
    unsub_of p1 = Some ch → unsub_of p2 = Some ch → t1 = t2;
  i_clos : ∀ ch x, closures b !! ch = Some x → is_Some (chans b !! ch);
  i_open : ∀ ch c, chans b !! ch = Some c → closed c = true → ∃ id, closures b !! ch = Some (id, Finished);
  i_buf : ∀ ch c, chans b !! ch = Some c → length (buf c) ≤ subscriberBufferSize }.

Lemma eventbus_inv_New : inv New.
Proof. split; cbn; intros; simplify_map_eq. Qed.

(** A registered channel is open. *)
Lemma registered_open b id ch : inv b → subscribers b !! id = Some ch →
  ∃ c, chans b !! ch = Some c ∧ closed c = false.
Proof.
  intros Hi Hs. destruct (i_sub _ Hi _ _ Hs) as [[c Hc] Ho]. exists c. split; [done|].
  destruct (closed c) eqn:E; [|done]. destruct (i_open _ Hi _ _ Hc E) as [id' Hf].
  destruct Ho as [[Hn _]|(o & Ho & Hne)]; [congruence|]. rewrite Hf in Ho. by injection Ho as _ <-.
Qed.

(** Two identifiers never share a channel. *)
Lemma subscribers_inj b id id' ch : inv b →
  subscribers b !! id = Some ch → subscribers b !! id' = Some ch → id = id'.
Proof.
  intros Hi H H'. destruct (i_sub _ Hi _ _ H) as [_ [[Hn [t Ht]]|(o & Ho & _)]];
    destruct (i_sub _ Hi _ _ H') as [_ [[Hn' [t' Ht']]|(o' & Ho' & _)]]; try congruence.
  pose proof (i_write _ Hi _ _ Ht I). pose proof (i_write _ Hi _ _ Ht' I).
  assert (t = t') as -> by congruence. congruence.
Qed.

(** Case analysis on a lookup in an updated map. *)
Ltac split_insert := repeat match goal with
  | H : <[_ := _]> _ !! _ = Some _ |- _ => apply lookup_insert_Some in H as [[? ?]|[? ?]]
  | H : <[_ := _]> _ !! _ = None |- _ => apply lookup_insert_None in H as [? ?]
  end; simplify_eq/=.

(** A thread that is not registering leaves the registrations as they are. *)
Lemma sub_moved b tid p id ch :
  inv b → (∀ i c, threads b !! tid ≠ Some (SubInserted i c)) → subscribers b !! id = Some ch →
  is_Some (chans b !! ch) ∧
    ((closures b !! ch = None ∧ ∃ t, <[tid := p]> (threads b) !! t = Some (SubInserted id ch)) ∨
     ∃ o, closures b !! ch = Some (id, o) ∧ o ≠ Finished).
Proof.
  intros Hi Hne Hs. destruct (i_sub _ Hi _ _ Hs) as [Hc [[Hn [t Ht]]|Ho]]; (split; [done|]); [left|by right].
  split; [done|]. exists t. rewrite lookup_insert_ne; [done|]. intros ->. by eapply Hne.
Qed.

(** A thread in a critical section of the write lock excludes every other holder. *)
Lemma excl_reader b t t' p p' : inv b → threads b !! t = Some p → writing p →
  threads b !! t' = Some p' → reading p' → False.
Proof.
  intros Hi Hp Hw Hp' Hr. pose proof (i_write _ Hi _ _ Hp Hw) as E. pose proof (i_excl _ Hi _ E) as E'.
  pose proof (i_read _ Hi _ _ Hp' Hr). set_solver.
Qed.
Lemma excl_writer b t t' p p' : inv b → threads b !! t = Some p → writing p →
  threads b !! t' = Some p' → writing p' → t = t'.
Proof.
  intros Hi Hp Hw Hp' Hr. pose proof (i_write _ Hi _ _ Hp Hw). pose proof (i_write _ Hi _ _ Hp' Hr). congruence.
Qed.

Ltac bus_case Hi :=
  repeat match goal with H : reading _ |- _ => progress cbn in H | H : writing _ |- _ => progress cbn in H end;
  first
    [ done
    | by eapply (i_read _ Hi) | by eapply (i_write _ Hi) | by eapply (i_excl _ Hi) | by eapply (i_loop _ Hi)
    | by eapply (i_sub _ Hi) | eapply (sub_moved _ _ _ _ _ Hi); [intros; congruence|eassumption]
    | by eapply (i_new _ Hi) | by eapply (i_run _ Hi) | by eapply (i_gone _ Hi) | by eapply (i_one _ Hi)
    | by eapply (i_clos _ Hi) | by eapply (i_open _ Hi) | by eapply (i_buf _ Hi)
    | match goal with
      | H : threads _ !! ?t = Some ?p, Hr : reading ?p |- _ =>
          pose proof (i_read _ Hi t p H Hr); set_solver
      | H : threads _ !! ?t = Some ?p, Hw : writing ?p |- _ =>
          pose proof (i_write _ Hi t p H Hw); congruence
      end
    | set_solver
    | idtac ].
Ltac bus_step Hi := split; cbn; intros; split_insert; bus_case Hi.

Lemma inv_spawn tid p b b' : inv b → ¬ reading p → ¬ writing p → unsub_of p = None →
  spawn tid p b = Next b' → inv b'.
Proof.
  unfold spawn. intros Hi Hr Hw Hu. destruct (threads b !! tid) eqn:Et; [done|]. intros [= <-].
  destruct p; try done; bus_step Hi.
Qed.

Lemma is_Some_insert {A} (m : gmap nat A) k a x : is_Some (m !! x) → is_Some (<[k := a]> m !! x).
Proof.
  intros Hx. destruct (decide (k = x)) as [->|]; [by rewrite lookup_insert_eq|by rewrite lookup_insert_ne].
Qed.

(** An update of one channel, and the counters, which the invariant ignores. *)
Lemma inv_chan ch c c' b : inv b → chans b !! ch = Some c →
  (closed c' = true → ∃ id, closures b !! ch = Some (id, Finished)) →
  length (buf c') ≤ subscriberBufferSize → inv (with_chan ch c' b).
Proof.
  intros Hi Hc Ho Hb.
  bus_step Hi.
  - destruct (i_sub _ Hi _ _ H). auto using is_Some_insert.
  - destruct (i_new _ Hi _ _ _ H). auto using is_Some_insert.
  - apply is_Some_insert. by eapply (i_clos _ Hi).
Qed.

Lemma trySend_inv evt ch b b' : inv b → trySend evt ch b = Next b' → inv b'.
Proof.
  intros Hi. unfold trySend. destruct (chans b !! ch) as [c|] eqn:Ec; [|done]. destruct (closed c) eqn:Eo; [done|].
  destruct (Nat.ltb_spec (length (buf c)) subscriberBufferSize); intros [= <-].
  - apply (inv_chan ch c); [done..|]. cbn. rewrite length_app. cbn. lia.
  - by destruct Hi; split.
Qed.

Lemma inv_Publish tid id now p b b' : inv b → threads b !! tid = Some p →
  Publish tid id now p b = Next b' → inv b'.
Proof.
  intros Hi Hp. destruct p as [evt|evt|evt todo| | | | | | | | | ]; cbn [Publish]; try done.
  - unfold rlock. destruct (writer b) eqn:Ew; [done|]. intros [= <-]. bus_step Hi.
  - intros [= <-]. bus_step Hi. 
  - case_decide.
    + intros [= <-]. bus_step Hi. match goal with H : writer b = Some _ |- _ => rewrite (i_excl _ Hi _ H) end. set_solver.
    + destruct (todo !! id) as [ch|] eqn:Et; [|done]. apply trySend_inv. bus_step Hi.
      etrans; [apply delete_subseteq|by eapply (i_loop _ Hi)].
Qed.

Lemma inv_insert tid b : inv b → threads b !! tid = Some SubLocked → ∀ b',
  Subscribe tid SubLocked b = Next b' → inv b'.
Proof.
  intros Hi Hp b' [= <-]. set (ch := fresh (dom (chans b))).
  assert (chans b !! ch = None) as Hf by (apply not_elem_of_dom, is_fresh).
  assert (closures b !! ch = None) as Hcl.
  { destruct (closures b !! ch) eqn:E; [|done]. destruct (i_clos _ Hi _ _ E). congruence. }
  bus_step Hi.
  - exfalso. by eapply (excl_reader b tid _ _ _ Hi Hp I H0 I).
  - split; [by rewrite lookup_insert_eq|]. left. split; [done|]. exists tid. by rewrite lookup_insert_eq.
  - edestruct (sub_moved b tid) as [? ?]; [exact Hi|intros; congruence|eassumption|].
    split; [by apply is_Some_insert|eassumption].
  - by rewrite lookup_insert_eq.
  - edestruct (i_new _ Hi) as [? ?]; [done|]. auto using is_Some_insert.
  - intros [[<- <-]|[_ Hs]]%lookup_insert_Some; [|by eapply (i_gone _ Hi)].
    edestruct (i_run _ Hi) as (? & ? & _); [|by eapply deleted_unsub|]; [eassumption|congruence].
  - apply is_Some_insert. by eapply (i_clos _ Hi).
  - unfold subscriberBufferSize. lia.
Qed.

Lemma inv_return tid id ch b : inv b → threads b !! tid = Some (SubInserted id ch) → ∀ b',
  Subscribe tid (SubInserted id ch) b = Next b' → inv b'.
Proof.
  intros Hi Hp b' [= <-]. destruct (i_new _ Hi _ _ _ Hp) as [Hcl Hch].
  assert (∀ t p, threads b !! t = Some p → writing p → t = tid) as Hu.
  { intros t p Ht Hw. by eapply (excl_writer b t tid). }
  bus_step Hi.
  - destruct (i_sub _ Hi _ _ H) as [Hc Ho]. split; [done|]. right.
    destruct (decide (ch = ch0)) as [<-|Hne].
    + destruct Ho as [[_ [t Ht]]|(o & Ho & _)]; [|congruence]. rewrite (Hu t _ Ht I), Hp in Ht.
      injection Ht as <-. exists NotRun. by rewrite lookup_insert_eq.
    + rewrite lookup_insert_ne by done. destruct Ho as [[_ [t Ht]]|Ho]; [|done].
      rewrite (Hu t _ Ht I), Hp in Ht. congruence.
  - edestruct (i_run _ Hi) as (i & ? & ?); [done..|]. exists i. rewrite lookup_insert_ne by congruence. done.
  - edestruct (i_open _ Hi) as (i & ?); [done..|]. exists i. by rewrite lookup_insert_ne by congruence.
Qed.

Lemma inv_Subscribe tid p b b' : inv b → threads b !! tid = Some p → Subscribe tid p b = Next b' → inv b'.
Proof.
  intros Hi Hp. destruct p as [| | | | |id ch| | | | | | ]; try done; [|by apply inv_insert|by apply inv_return].
  cbn [Subscribe]. unfold lock. destruct (writer b) eqn:Ew; [done|]. case_decide as Er; [|done].
  intros [= <-]. bus_step Hi.
Qed.

Lemma inv_once tid id ch b : inv b → threads b !! tid = Some (UnsubCall ch) →
  closures b !! ch = Some (id, NotRun) →
  inv (with_pc tid (UnsubOnce id ch) (with_closure ch (id, Running) b)).
Proof.
  intros Hi Hp Ec.
  assert (∀ p t, unsub_of p = Some ch → threads b !! t ≠ Some p) as Hnone.
  { intros p t Hu Ht. destruct (i_run _ Hi _ _ _ Ht Hu) as (? & ? & _). congruence. }
  bus_step Hi.
  - edestruct (sub_moved b tid (UnsubOnce id ch)) as [Hc Ho]; [exact Hi|intros; congruence|eassumption|].
    split; [done|]. destruct (decide (ch = ch0)) as [<-|].
    + right. exists Running. rewrite lookup_insert_eq. destruct Ho as [[? _]|(? & ? & _)]; [|split]; congruence.
    + by rewrite lookup_insert_ne.
  - edestruct (i_new _ Hi) as [? ?]; [eassumption|]. by rewrite lookup_insert_ne by congruence.
  - exists id. rewrite lookup_insert_eq. split; congruence.
  - edestruct (i_run _ Hi) as (i & ? & ?); [eassumption..|]. exists i. by rewrite lookup_insert_ne by congruence.
  - edestruct (i_open _ Hi) as (i & ?); [eassumption..|]. exists i. by rewrite lookup_insert_ne by congruence.
Qed.

Lemma inv_delete tid id ch b : inv b → threads b !! tid = Some (UnsubLocked id ch) →
  inv (with_pc tid (UnsubDeleted ch) (with_subscribers (delete id (subscribers b)) b)).
Proof.
  intros Hi Hp. destruct (i_run _ Hi _ _ _ Hp eq_refl) as (i & Hc & E). specialize (E _ eq_refl). subst i.
  bus_step Hi.
  - exfalso. by eapply (excl_reader b tid _ _ _ Hi Hp I H0 I).
  - apply lookup_delete_Some in H as [_ Hs]. eapply (sub_moved b tid); [exact Hi|intros; congruence|done].
  - intros [Hne Hs]%lookup_delete_Some. destruct (i_sub _ Hi _ _ Hs) as [_ [[? _]|(? & ? & _)]]; congruence.
  - intros [_ Hs]%lookup_delete_Some. by eapply (i_gone _ Hi).
Qed.

Lemma inv_close tid id ch c o b : inv b → threads b !! tid = Some (UnsubClose ch) →
  chans b !! ch = Some c → closures b !! ch = Some (id, o) →
  inv (with_pc tid Return (with_closure ch (id, Finished) (with_chan ch (MkChan (received c) (buf c) true) b))).
Proof.
  intros Hi Hp Ec Eo.
  assert (∀ p t, unsub_of p = Some ch → threads b !! t = Some p → t = tid) as Hone.
  { intros p t Hu Ht. by eapply (i_one _ Hi). }
  bus_step Hi.
  - edestruct (sub_moved b tid Return) as [Hc Ho]; [exact Hi|intros; congruence|eassumption|].
    split; [by apply is_Some_insert|]. rewrite lookup_insert_ne; [done|]. intros <-.
    by eapply (i_gone _ Hi tid _ ch).
  - edestruct (i_new _ Hi) as [? ?]; [eassumption|]. rewrite lookup_insert_ne by congruence. auto using is_Some_insert.
  - edestruct (i_run _ Hi) as (i & ? & ?); [eassumption..|]. exists i. rewrite lookup_insert_ne; [done|].
    intros <-. assert (tid0 = tid); [by eapply Hone|congruence].
  - by rewrite lookup_insert_eq.
  - apply is_Some_insert. by eapply (i_clos _ Hi).
  - exists id. by rewrite lookup_insert_eq.
  - edestruct (i_open _ Hi) as (i & ?); [eassumption..|]. exists i. by rewrite lookup_insert_ne by congruence.
Qed.

Lemma inv_unsub tid p b b' : inv b → threads b !! tid = Some p → unsub tid p b = Next b' → inv b'.
Proof.
  intros Hi Hp. destruct p as [| | | | | |ch|id ch|id ch|ch|ch| ]; cbn [unsub]; try done.
  - destruct (closures b !! ch) as [[id o]|] eqn:Ec; [|done]. destruct o; [|done|]; intros [= <-].
    + by apply inv_once.
    + bus_step Hi.
  - unfold lock. destruct (writer b) eqn:Ew; [done|]. case_decide as Er; [|done]. intros [= <-]. bus_step Hi.
    by eapply (i_run _ Hi _ _ _ Hp).
  - intros [= <-]. by apply inv_delete.
  - intros [= <-]. bus_step Hi.
    + assert (tid0 = tid); [|congruence]. by eapply (excl_writer b tid0 tid).
    + by eapply (i_run _ Hi _ _ _ Hp).
  - destruct (chans b !! ch) as [c|] eqn:Ec; [|done]. destruct (closures b !! ch) as [[id o]|] eqn:Eo; [|done].
    destruct (closed c); [done|]. intros [= <-]. by eapply inv_close.
Qed.

Lemma eventbus_inv_step l b b' : inv b → step l b = Next b' → inv b'.
Proof.
  intros Hi. destruct l as [tid evt|tid|tid ch|tid id now|ch]; cbn [step].
  - intros E. eapply inv_spawn; [exact Hi| | | |exact E]; cbn; tauto.
  - intros E. eapply inv_spawn; [exact Hi| | | |exact E]; cbn; tauto.
  - destruct (closures b !! ch); [|done]. intros E. eapply inv_spawn; [exact Hi| | | |exact E]; cbn; tauto.
  - destruct (threads b !! tid) as [p|] eqn:Hp; [|done].
    destruct p; try done; cbn [default]; first [by apply inv_Publish|by apply inv_Subscribe|by apply inv_unsub].
  - destruct (chans b !! ch) as [[r [|e q] cl]|] eqn:Ec; try done. intros [= <-].
    eapply inv_chan; [done..| |].
    + intros Hcl. by eapply (i_open _ Hi _ _ Ec).
    + pose proof (i_buf _ Hi _ _ Ec). cbn in *. lia.
Qed.

Lemma eventbus_reachable_inv b : reachable b → inv b.
Proof. induction 1; eauto using eventbus_inv_New, eventbus_inv_step. Qed.

(** ** Safety *)

(** C31: however publishers, subscribers, unsubscribers and cancelled contexts
    interleave, no step sends on a closed channel or closes a channel twice, no
    buffer holds more than sixteen events, and every registered channel is open. *)
Theorem eventbus_safe b : reachable b →
  (∀ l, step l b ≠ Panics) ∧
  (∀ ch c, chans b !! ch = Some c → length (buf c) ≤ 16) ∧
  (∀ id ch, subscribers b !! id = Some ch → ∃ c, chans b !! ch = Some c ∧ closed c = false).
Proof.
  intros Hi%eventbus_reachable_inv. split_and!; [|exact (i_buf _ Hi)|by intros; eapply registered_open].
  intros l E. destruct l as [tid evt|tid|tid ch|tid id now|ch]; cbn [step] in E; unfold spawn in E; try by case_match.
  - by repeat case_match.
  - destruct (threads b !! tid) as [p|] eqn:Hp; [|done].
    destruct p as [evt|evt|evt todo| | |id' ch|ch|id' ch|id' ch|ch|ch| ]; cbn in E; unfold rlock, lock in E;
      try by repeat case_match.
    + case_decide; [done|]. destruct (todo !! id) as [ch|] eqn:Et; [|done]. unfold trySend in E.
      cbn [chans with_pc] in E.
      destruct (registered_open b id ch Hi) as (c & Hc & Ho).
      { eapply lookup_weaken; [exact Et|by eapply (i_loop _ Hi)]. }
      rewrite Hc, Ho in E. by case_match.
    + destruct (i_run _ Hi _ _ _ Hp eq_refl) as (id' & Hc & _). rewrite Hc in E.
      destruct (chans b !! ch) as [c|] eqn:Ech; [|done]. destruct (closed c) eqn:Eo; [|done].
      destruct (i_open _ Hi _ _ Ech Eo) as [? ?]. congruence.
  - by repeat case_match.
Qed.

(** ** Accounting *)

(** What subscribers have got, and what publishers have still to offer. *)
Definition got (c : Chan) : Z := Z.of_nat (length (received c) + length (buf c)).
Definition accepted (b : Bus) : Z := msum got (chans b).
Definition left_to_offer (p : pc) : Z := match p with PubLoop _ todo => Z.of_nat (size todo) | _ => 0 end.
Definition remaining (b : Bus) : Z := msum left_to_offer (threads b).

Definition balanced (b : Bus) : Prop := dropped b = u64 (offered b - accepted b - remaining b).

Lemma remaining_move tid q p b : threads b !! tid = Some q →
  remaining (with_pc tid p b) = (remaining b - left_to_offer q + left_to_offer p)%Z.
Proof. intros Hq. unfold remaining. cbn [with_pc threads]. by apply msum_replace. Qed.

Lemma accepted_chan ch c c' b : chans b !! ch = Some c →
  accepted (with_chan ch c' b) = (accepted b - got c + got c')%Z.
Proof. intros Hc. unfold accepted. cbn [with_chan chans]. by apply msum_replace. Qed.

(** Steps that move a thread between counters with nothing left to offer, and touch
    neither the channels nor the counters. *)
Lemma balanced_move tid q p b b' : balanced b → threads b !! tid = Some q →
  left_to_offer q = 0%Z → left_to_offer p = 0%Z → dropped b' = dropped b → offered b' = offered b →
  accepted b' = accepted b → threads b' = <[tid := p]> (threads b) → balanced b'.
Proof.
  unfold balanced. intros Hb Hq Eq Ep -> -> -> Et. rewrite Hb. f_equal. unfold remaining. rewrite Et.
  rewrite (msum_replace _ _ _ q) by done. lia.
Qed.

Lemma balanced_trySend evt ch b b' :
  dropped b = u64 (offered b - accepted b - remaining b - 1) → trySend evt ch b = Next b' → balanced b'.
Proof.
  unfold trySend, balanced. intros Hb. destruct (chans b !! ch) as [c|] eqn:Ec; [|done].
  destruct (closed c); [done|]. destruct (_ <? _); intros [= <-].
  - rewrite (accepted_chan _ c) by done. unfold got; cbn [with_chan dropped offered received buf]. rewrite Hb. f_equal.
    unfold remaining. cbn [threads with_chan]. rewrite length_app. cbn [length]. lia.
  - cbn [dropped offered]. unfold accepted, remaining in *. cbn [chans threads]. rewrite Hb. unfold u64.
    rewrite Zplus_mod_idemp_l. f_equal. lia.
Qed.

Ltac moved := eapply balanced_move; [eassumption|eassumption|done| | | | |cbn; reflexivity]; try reflexivity.

Lemma balanced_step l b b' : balanced b → step l b = Next b' → balanced b'.
Proof.
  intros Hb. destruct l as [tid evt|tid|tid ch|tid id now|ch]; cbn [step].
  1-3: repeat case_match; try done; unfold spawn; case_match; try done; intros [= <-];
    unfold balanced, remaining, accepted in *; cbn [with_pc dropped offered chans threads];
    rewrite msum_fresh by done; rewrite Hb; f_equal; cbn; lia.
  - destruct (threads b !! tid) as [p|] eqn:Hp; [|done].
    destruct p as [evt|evt|evt todo| | |id' ch|ch|id' ch|id' ch|ch|ch| ]; cbn [default Datatypes.id Publish Subscribe unsub];
      unfold rlock, lock; try done; try (repeat case_match; try done; intros [= <-]; by moved).
    + intros [= <-]. unfold balanced. rewrite (remaining_move _ (PubRLocked evt)) by done.
      cbn [left_to_offer with_pc dropped offered]. unfold balanced, accepted, remaining in *.
      cbn [chans threads with_pc]. rewrite Hb. f_equal. lia.
    + case_decide as Ee.
      * intros [= <-]. unfold balanced in *. rewrite (remaining_move _ (PubLoop evt todo)) by done.
        cbn [left_to_offer with_pc with_lock dropped offered]. rewrite Ee, map_size_empty. unfold accepted, remaining in *.
        cbn [chans threads with_lock with_pc]. rewrite Hb. f_equal. cbn. lia.
      * destruct (todo !! id) as [ch|] eqn:Et; [|done]. apply balanced_trySend.
        rewrite (remaining_move _ (PubLoop evt todo)) by done. cbn [left_to_offer with_pc dropped offered].
        rewrite (map_size_delete_Some id) by done. unfold balanced, accepted, remaining in *. cbn [chans with_pc].
        assert (size todo ≠ 0) by (intros E; apply map_size_empty_inv in E; done).
        rewrite Hb. f_equal. lia.
    + intros [= <-]. moved. unfold accepted. cbn [chans with_pc].
      rewrite msum_fresh by (apply not_elem_of_dom, is_fresh). unfold got. cbn [received buf length]. lia.
    + repeat case_match; try done; intros [= <-]. moved.
      match goal with H : chans b !! ch = Some ?c |- _ => transitivity (accepted (with_chan ch (MkChan (received c) (buf c) true) b)); [done|rewrite (accepted_chan _ c) by done] end.
      unfold got. cbn [received buf]. lia.
  - destruct (chans b !! ch) as [[r [|e q] cl]|] eqn:Ec; try done. intros [= <-]. unfold balanced in *.
    rewrite (accepted_chan _ _ _ _ Ec). unfold got; cbn [with_chan dropped offered received buf].
    unfold remaining in *. cbn [threads with_chan]. rewrite Hb, length_app. f_equal. cbn [length]. lia.
Qed.

(** No event is lost without a trace.  In every reachable state, of all the
    meetings of a publisher with a registered subscriber, each one has been received,
    is in the subscriber's buffer, is still to be made by a running publisher, or is
    in the (64-bit) count of dropped events; with no publisher running, the count is
    exactly what was offered and not accepted. *)
Theorem eventbus_accounting b : reachable b →
  Dropped b = u64 (offered b - accepted b - remaining b) ∧
  ((∀ tid evt todo, threads b !! tid ≠ Some (PubLoop evt todo)) → Dropped b = u64 (offered b - accepted b)).
Proof.
  intros Hr. assert (balanced b) as Hb.
  { induction Hr as [|l b b' _ IH E]; [done|by eapply balanced_step]. }
  split; [done|]. intros Hno. unfold Dropped. rewrite Hb. f_equal.
  assert (remaining b = 0)%Z; [|lia]. unfold remaining. revert Hno. generalize (threads b).
  intros m. induction m as [|tid p m Hm IH] using map_ind; intros Hno; [by rewrite msum_empty|].
  rewrite msum_fresh by done. rewrite IH.
  - destruct p; try done. by destruct (Hno tid evt todo); rewrite lookup_insert_eq.
  - intros t evt todo Ht. apply (Hno t evt todo). rewrite lookup_insert_ne; [done|]. by intros ->; rewrite Hm in Ht.
Qed.

(** ** What one publication does *)

Fixpoint run (ls : list label) (b : Bus) : outcome :=
  match ls with
  | [] => Next b
  | l :: ls => match step l b with Next b' => run ls b' | o => o end
  end.

Lemma eventbus_run_reachable ls : ∀ b b', reachable b → run ls b = Next b' → reachable b'.
Proof.
  induction ls as [|l ls IH]; intros b b' Hr; cbn; [by intros [= <-]|].
  destruct (step l b) eqn:E; [done..|]. apply IH. by eapply reach_step.
Qed.

(** A subscriber takes the event if it has room. *)
Definition pushed (evt : Event) (c : Chan) : Chan :=
  if length (buf c) <? subscriberBufferSize then MkChan (received c) (buf c ++ [evt]) (closed c) else c.

(** One iteration of the loop: it is never blocked. *)
Lemma publish_iteration tid evt todo id now ch b : inv b →
  threads b !! tid = Some (PubLoop evt todo) → todo !! id = Some ch →
  ∃ b1 c, step (Run tid id now) b = Next b1 ∧ threads b1 !! tid = Some (PubLoop evt (delete id todo)) ∧
    chans b !! ch = Some c ∧ chans b1 = <[ch := pushed evt c]> (chans b) ∧ subscribers b1 = subscribers b.
Proof.
  intros Hi Hp Ht. destruct (registered_open b id ch Hi) as (c & Hc & Ho).
  { eapply lookup_weaken; [exact Ht|by eapply (i_loop _ Hi)]. }
  cbn [step]. rewrite Hp. cbn [default Datatypes.id Publish]. rewrite decide_False by (by intros ->; rewrite lookup_empty in Ht).
  rewrite Ht. unfold trySend. cbn [chans with_pc]. rewrite Hc, Ho.
  assert (pushed evt c = if length (buf c) <? subscriberBufferSize
    then MkChan (received c) (buf c ++ [evt]) false else c) as Epush by (unfold pushed; by rewrite Ho).
  destruct (_ <? _); eexists _, c; (split; [reflexivity|]); rewrite Epush; cbn; rewrite lookup_insert_eq;
    (split_and!; try done).
  by rewrite insert_id.
Qed.

Lemma publish_loop tid evt now ids : ∀ todo b, inv b → threads b !! tid = Some (PubLoop evt todo) →
  NoDup ids → (∀ id, id ∈ ids ↔ is_Some (todo !! id)) →
  ∃ b', run ((λ id, Run tid id now) <$> ids ++ [0%Z]) b = Next b' ∧ threads b' !! tid = Some Return ∧
    tid ∉ readers b' ∧
    (∀ id ch c, todo !! id = Some ch → chans b !! ch = Some c → chans b' !! ch = Some (pushed evt c)) ∧
    (∀ ch, (∀ id, todo !! id ≠ Some ch) → chans b' !! ch = chans b !! ch).
Proof.
  induction ids as [|id ids IH]; intros todo b Hi Hp Hnd Hd.
  - assert (todo = ∅) as Ee.
    { apply map_empty. intros id. destruct (todo !! id) eqn:E; [|done]. assert (id ∈ []) by (apply Hd; eauto). set_solver. }
    cbn [app fmap list_fmap run step]. rewrite Hp. cbn [default Datatypes.id Publish]. rewrite decide_True by done.
    eexists. split; [reflexivity|]. cbn. split_and!; [by rewrite lookup_insert_eq|set_solver| |done].
    intros id ch c. by rewrite Ee, lookup_empty.
  - apply NoDup_cons in Hnd as [Hni Hnd]. destruct (todo !! id) as [ch|] eqn:Et.
    2:{ assert (is_Some (todo !! id)) as [? ?] by (apply Hd; by left). congruence. }
    destruct (publish_iteration tid evt todo id now ch b Hi Hp Et) as (b1 & c & Es & Hp1 & Hc & Ec & Esub).
    assert (inv b1) as Hi1 by by eapply eventbus_inv_step.
    destruct (IH (delete id todo) b1 Hi1 Hp1 Hnd) as (b' & Er & Hret & Hrd & Hin & Hout).
    { intros i. destruct (decide (i = id)) as [->|]; [rewrite lookup_delete_eq; split; [done|by intros [? ?]]|].
      rewrite lookup_delete_ne by done. rewrite <- Hd. set_solver. }
    assert (∀ i, todo !! i = Some ch → i = id) as Hinj.
    { intros i H. pose proof (i_loop _ Hi _ _ _ Hp) as Hsub.
      eapply (subscribers_inj b _ _ ch Hi); eapply lookup_weaken; eauto. }
    exists b'. cbn [app fmap list_fmap run]. rewrite Es. split_and!; [done..| |].
    + intros i ch' c' Hi' Hc'. destruct (decide (i = id)) as [->|Hne].
      * assert (ch' = ch) as -> by congruence. assert (c' = c) as -> by congruence.
        rewrite Hout; [by rewrite Ec, lookup_insert_eq|]. intros j [Hj1 Hj2]%lookup_delete_Some. by rewrite (Hinj j) in Hj1.
      * apply (Hin i); [by rewrite lookup_delete_ne|]. rewrite Ec, lookup_insert_ne; [done|].
        intros <-. by apply Hne, Hinj.
    + intros ch' Hno. rewrite Hout; [rewrite Ec, lookup_insert_ne; [done|]|].
      * intros <-. by apply (Hno id).
      * intros j [_ Hj]%lookup_delete_Some. by apply (Hno j).
Qed.

(** A publisher that has stamped its event never waits for a subscriber.
    Whatever order the map is visited in, its own steps, one per subscriber and the
    return, bring the call to its end with the lock released; every subscriber of
    the round with room in its buffer has got the event behind what it held before,
    and no other channel has changed. *)
Theorem publish_completes tid evt todo now ids b :
  reachable b → threads b !! tid = Some (PubLoop evt todo) → NoDup ids →
  (∀ id, id ∈ ids ↔ is_Some (todo !! id)) →
  ∃ b', run ((λ id, Run tid id now) <$> ids ++ [0%Z]) b = Next b' ∧ threads b' !! tid = Some Return ∧
    tid ∉ readers b' ∧
    (∀ id ch c, todo !! id = Some ch → chans b !! ch = Some c → chans b' !! ch = Some (pushed evt c)) ∧
    (∀ ch, (∀ id, todo !! id ≠ Some ch) → chans b' !! ch = chans b !! ch).
Proof. intros Hr%eventbus_reachable_inv. by apply publish_loop. Qed.

(** ** Order *)

Definition ev (s : string) : Event := MkEvent s ANil 0 7.
Definition subscribe_one : list label := [CallSubscribe 0; Run 0 0 0; Run 0 0 0; Run 0 0 0].
Definition overtaking : list label :=
  subscribe_one ++
  [CallPublish 1 (ev "a"); CallPublish 2 (ev "b"); Run 1 0 0; Run 2 0 0; Run 1 0 0; Run 2 0 0;
   Run 2 0 0; Run 2 0 0; Run 1 0 0; Run 1 0 0].

(** Versions do not order what a subscriber receives.  The version is stamped
    under the read lock, which two publishers hold at once: one run of two
    publications ends with both calls returned and the subscriber's channel holding
    version 2 before version 1. *)
Theorem eventbus_reorders : ∃ b c,
  run overtaking New = Next b ∧ reachable b ∧ chans b !! 0 = Some c ∧
  ((λ e, (Type_ e, Version e)) <$> buf c = [("b", 2); ("a", 1)]%Z) ∧ Dropped b = 0%Z.
Proof.
  assert (∃ b, run overtaking New = Next b) as [b E] by (eexists; vm_compute; reflexivity).
  exists b. vm_compute in E. injection E as <-. eexists. split; [vm_compute; reflexivity|]. split.
  { eapply (eventbus_run_reachable overtaking); [apply reach_New|]. vm_compute. reflexivity. }
  split; [vm_compute; reflexivity|]. split; vm_compute; reflexivity.
Qed.

(** ** Witnesses *)

Definition busy : Bus := match run (take 9 overtaking) New with Next b => b | _ => New end.

Lemma busy_reachable : reachable busy.
Proof. eapply (eventbus_run_reachable (take 9 overtaking)); [apply reach_New|]. vm_compute. reflexivity. Defined.

Lemma eventbus_safe_witness :
  ∃ c, chans busy !! 0 = Some c ∧ length (buf c) ≤ 16.
Proof.
  eexists. split; [vm_compute; reflexivity|].
  apply (proj1 (proj2 (eventbus_safe busy busy_reachable)) 0). vm_compute. reflexivity.
Defined.

Lemma eventbus_accounting_witness : Dropped busy = u64 (offered busy - accepted busy - remaining busy).
Proof. exact (proj1 (eventbus_accounting busy busy_reachable)). Defined.

Lemma publish_completes_witness : ∃ evt b',
  threads busy !! 1 = Some (PubLoop evt {[0%Z := 0]}) ∧
  run ((λ id, Run 1 id 0) <$> [0%Z] ++ [0%Z]) busy = Next b' ∧ threads b' !! 1 = Some Return.
Proof.
  eexists. destruct (publish_completes 1 (MkEvent "a" ANil 1 7) {[0%Z := 0]} 0 [0%Z] busy) as (b' & E & Hr & _).
  - exact busy_reachable.
  - vm_compute. reflexivity.
  - apply NoDup_singleton.
  - intros id. rewrite list_elem_of_singleton. split; [intros ->; by eexists|].
    intros [ch Hch]. by apply lookup_singleton_Some in Hch as [-> _].
  - exists b'. split; [vm_compute; reflexivity|]. by split.
Defined.
