(* ===== verification/Transport.v ===== *)
(** * The HTTP transport of the distributed backend
      (pkg/backend/dist_http_transport.go, dist_http_server.go, dist_http_types.go, dist_keys.go)

    How an item crosses the wire in a forwarded set or get, how the keys of a node are
    paged and how a cluster-wide listing is merged.

    A JSON document is its syntax tree ([jval] for values); printing and parsing it are
    encoding/json's and go-json's.  Both replace the bytes of a string that are not UTF-8
    by U+FFFD when they print it ([toValidUTF8]), so a string of the tree is what the
    receiver reads.  A number that is read into an [any] keeps its text here.  A field name is matched whatever its case, as both
    packages document, so [cache.Item], which has no tags, is read by the fields of
    [decodeGetBody].  Authentication, gzip, URLs and body limits are left out.
    Parameters: [pathMatch] is path.Match; the order in which a shard's map is iterated
    is the order of its list of keys.

    The theorems: what a forwarded set and a forwarded get do to an item's value and to
    its expiration, which keys a paged listing returns, and when a cluster-wide listing
    is complete. *)

From stdpp Require Import base gmap strings list sorting.
From Stdlib Require Import ZArith Lia Ascii Wf_nat.
From S2P Require Import Prelude Item Auth.

(** ** The code *)

(** *** Values on the wire *)

(** A JSON value: strings are told apart from the rest. *)
Inductive jval := JNull | JString (s : string) | JOther (raw : list Z).

(** What [Item.Value] holds: the bytes that a client wrote, a string (what a []byte
    becomes on a replica), raw JSON (what [ForwardGet] returns), or something else, with
    its JSON text. *)
Inductive gval := GNil | GBytes (bs : list Z) | GString (s : string) | GRaw (j : jval) | GOther (raw : list Z).

(** The well-formed sequences of utf8.DecodeRune that are longer than a byte. *)
Definition between (lo hi : nat) (c : ascii) : bool := (lo <=? nat_of_ascii c) && (nat_of_ascii c <=? hi).
Definition seq2 (c0 c1 : ascii) : bool := between 194 223 c0 && between 128 191 c1.
Definition seq3 (c0 c1 c2 : ascii) : bool :=
  (between 224 224 c0 && between 160 191 c1 || between 225 236 c0 && between 128 191 c1 ||
   between 237 237 c0 && between 128 159 c1 || between 238 239 c0 && between 128 191 c1) && between 128 191 c2.
Definition seq4 (c0 c1 c2 c3 : ascii) : bool :=
  (between 240 240 c0 && between 144 191 c1 || between 241 243 c0 && between 128 191 c1 ||
   between 244 244 c0 && between 128 143 c1) && between 128 191 c2 && between 128 191 c3.

(** U+FFFD. *)
Definition runeError : string := string_of_bytes [239; 191; 189]%Z.

(** A string as JSON carries it: each byte that is not part of a well-formed sequence
    becomes U+FFFD. *)
Fixpoint toValidUTF8 (s : string) : string :=
  match s with
  | EmptyString => EmptyString
  | String c0 r0 =>
      let bad := String.append runeError (toValidUTF8 r0) in
      if nat_of_ascii c0 <? 128 then String c0 (toValidUTF8 r0)
      else
        match r0 with
        | EmptyString => bad
        | String c1 r1 =>
            if seq2 c0 c1 then String c0 (String c1 (toValidUTF8 r1))
            else
              match r1 with
              | EmptyString => bad
              | String c2 r2 =>
                  if seq3 c0 c1 c2 then String c0 (String c1 (String c2 (toValidUTF8 r2)))
                  else
                    match r2 with
                    | EmptyString => bad
                    | String c3 r3 =>
                        if seq4 c0 c1 c2 c3 then String c0 (String c1 (String c2 (String c3 (toValidUTF8 r3)))) else bad
                    end
              end
        end
  end.

(** [json.Marshal] of a value, and [json.Unmarshal] into an [any]. *)
Definition marshalValue (v : gval) : jval :=
  match v with
  | GNil => JNull
  | GBytes bs => JString (string_of_bytes (base64Encode bs))
  | GString s => JString (toValidUTF8 s)
  | GRaw j => j
  | GOther raw => JOther raw
  end.
Definition unmarshalAny (j : jval) : gval :=
  match j with JNull => GNil | JString s => GString s | JOther raw => GOther raw end.
(** [json.Unmarshal] into a string; null leaves it empty. *)
Definition unmarshalString (j : jval) : option string :=
  match j with JNull => Some ""%string | JString s => Some s | JOther _ => None end.

(** *** Items on the wire *)

(** The fields of [cache.Item] that the transport carries. *)
Record TItem := MkTItem {
  ti_Key : string; ti_Value : gval; ti_Expiration : Z (* time.Duration *);
  ti_Version : Z; ti_Origin : string; ti_LastUpdated : Z; ti_LastAccess : Z }.

Definition Millisecond : Z := 1000000.

Record httpSetRequest := MkSetReq {
  q_Key : string; q_Value : jval; q_Expiration : Z; q_Version : Z; q_Origin : string; q_Replicate : bool }.

(** The body that [ForwardSet] sends, as the JSON carries it. *)
Definition setRequest (item : TItem) (replicate : bool) : httpSetRequest :=
  MkSetReq (toValidUTF8 (ti_Key item)) (marshalValue (ti_Value item)) (Z.quot (ti_Expiration item) Millisecond)
    (ti_Version item) (toValidUTF8 (ti_Origin item)) replicate.

(** The item that [handleSet] applies. *)
Definition setItem (now : Z) (req : httpSetRequest) : TItem :=
  MkTItem (q_Key req) (unmarshalAny (q_Value req)) (i64 (q_Expiration req * Millisecond)) (q_Version req)
    (q_Origin req) now now.

(** What [ForwardSet] makes of the status of the response. *)
Definition setStatus (status : Z) : option error :=
  if (status =? 404)%Z then Some ErrBackendNotFound
  else if (300 <=? status)%Z then Some (ErrOther "forward set status") else None.

(** The JSON of a [cache.Item]: a duration is its number of nanoseconds. *)
Record itemJSON := MkItemJSON { j_Key : string; j_Value : jval; j_Expiration : Z; j_Version : Z; j_Origin : string }.
Definition marshalItem (item : TItem) : itemJSON :=
  MkItemJSON (toValidUTF8 (ti_Key item)) (marshalValue (ti_Value item)) (ti_Expiration item) (ti_Version item)
    (toValidUTF8 (ti_Origin item)).

(** The body of a get: the fields that are present. *)
Record getBody := MkGetBody { b_found : option bool; b_item : option itemJSON }.

(** [handleGet]: the status and, for 200, the body. *)
Definition handleGet (key : string) (owners : list string) (items : gmap string TItem) : Z * getBody :=
  if decide (key = ""%string) then (400%Z, MkGetBody None None)
  else if decide (length owners = 0) then (404%Z, MkGetBody None None)
  else
    match items !! key with
    | Some it => (200%Z, MkGetBody (Some true) (Some (marshalItem it)))
    | None => (200%Z, MkGetBody (Some false) None)
    end.

Definition zeroTItem : TItem := MkTItem "" GNil 0 0 "" 0 0.

Definition decodeGetBody (now : Z) (body : getBody) : option TItem * bool :=
  let found := default false (b_found body) in
  if negb found then (None, false)
  else
    match b_item body with
    | Some mirror =>
        (Some (MkTItem (j_Key mirror) (GRaw (j_Value mirror)) (i64 (j_Expiration mirror * Millisecond))
                 (j_Version mirror) (j_Origin mirror) now now), true)
    | None => (Some zeroTItem, true)
    end.

(** [ForwardGet] on the response of the node. *)
Definition ForwardGet (now : Z) (resp : Z * getBody) : result (option TItem) :=
  if (resp.1 =? 404)%Z then Err ErrBackendNotFound
  else if negb (resp.1 =? 200)%Z then Err (ErrOther "forward get status")
  else
    match decodeGetBody now resp.2 with
    | (item, true) => Ok item
    | (_, false) => Ok None
    end.

(** *** Listing keys *)

Section Keys.
Context (pathMatch : string → string → option bool).

Definition keyGlobMetacharacters : list nat := [42; 63; 91].
Definition isGlob (pattern : string) : bool :=
  existsb (λ c, bool_decide (c ∈ keyGlobMetacharacters)) (bytes_of pattern).

Definition buildKeyMatcher (pattern : string) : result (string → bool) :=
  if decide (pattern = ""%string) then Ok (λ _, true)
  else if negb (isGlob pattern) then Ok (λ k, String.prefix pattern k)
  else
    match pathMatch pattern "" with
    | None => Err (ErrOther "list-keys: invalid glob pattern")
    | Some _ => Ok (λ k, match pathMatch pattern k with Some ok => ok | None => false end)
    end.

(** The keys of a shard, in the order of iteration; [None] is a nil shard. *)
Definition shardKeys := list (option (list string)).

Fixpoint collectLoop (ks : list string) (limit : Z) (matcher : string → bool) (out : list string)
    : list string * bool :=
  match ks with
  | [] => (out, false)
  | k :: ks =>
      if negb (matcher k) then collectLoop ks limit matcher out
      else if ((0 <? limit) && (limit <=? Z.of_nat (length out)))%Z then (out, true)
      else collectLoop ks limit matcher (out ++ [k])
  end.
Definition collectShardKeys (ks : list string) (limit : Z) (matcher : string → bool) : list string * bool :=
  collectLoop ks limit matcher [].

(** A query parameter: absent, or what [strconv.Atoi] makes of it. *)
Inductive qint := QAbsent | QBad | QInt (z : Z).
Definition parseQuery (q : qint) : option Z :=
  match q with QAbsent => Some 0%Z | QBad => None | QInt z => if (z <? 0)%Z then None else Some z end.

(** A page: the keys, the next cursor (no cursor is the empty string), whether it was
    cut. *)
Record keysPage := MkPage { Keys : list string; NextCursor : option Z; Truncated : bool }.

(** [handleKeys]; an error is the status 400. *)
Definition handleKeys (shards : shardKeys) (cursorQ limitQ : qint) (pattern : string) : result keysPage :=
  match parseQuery cursorQ with
  | None => Err (ErrOther "invalid cursor")
  | Some cursor =>
      match parseQuery limitQ with
      | None => Err (ErrOther "invalid limit")
      | Some limit =>
          match buildKeyMatcher pattern with
          | Err e => Err e
          | Ok matcher =>
              match shards !! Z.to_nat cursor with
              | None => Ok (MkPage [] None false)
              | Some None => Ok (MkPage [] (Some (cursor + 1)%Z) false)
              | Some (Some shard) =>
                  let '(keys, truncated) := collectShardKeys shard limit matcher in
                  let nextCursor :=
                    if truncated then Some cursor
                    else if (cursor + 1 <? Z.of_nat (length shards))%Z then Some (cursor + 1)%Z else None in
                  Ok (MkPage keys nextCursor truncated)
              end
          end
      end
  end.

Definition safetyLimit : nat := 1024.

(** The loop of [DistHTTPTransport.ListKeys]; [fetch] is [listKeysPage]. *)
Fixpoint listKeysLoop (n : nat) (fetch : option Z → result keysPage) (cursor : option Z) (all : list string)
    : result (list string) :=
  match n with
  | O => Ok all
  | S n =>
      match fetch cursor with
      | Err e => Err e
      | Ok page =>
          let all := all ++ Keys page in
          match NextCursor page with
          | None => Ok all
          | Some c =>
              if decide (Some c = cursor) then Ok all else listKeysLoop n fetch (Some c) all
          end
      end
  end.

(** The JSON of a page. *)
Definition marshalPage (page : keysPage) : keysPage :=
  MkPage (toValidUTF8 <$> Keys page) (NextCursor page) (Truncated page).

(** [listKeysPage] on a node that answers; its 400 is an error of the transport. *)
Definition listKeysPage (shards : shardKeys) (pattern : string) (cursor : option Z) : result keysPage :=
  match handleKeys shards (match cursor with None => QAbsent | Some c => QInt c end) QAbsent pattern with
  | Ok page => Ok (marshalPage page)
  | Err _ => Err (ErrOther "list keys status")
  end.

Definition ListKeysHTTP (shards : shardKeys) (pattern : string) : result (list string) :=
  listKeysLoop safetyLimit (listKeysPage shards pattern) None [].

(** *** The cluster-wide listing *)

Record listKeysAccumulator := MkAcc { dedup : gset string; maxKeys : nat; partialNodes : list string; truncated : bool }.

Fixpoint tryAdd (keys : list string) (a : listKeysAccumulator) : listKeysAccumulator :=
  match keys with
  | [] => a
  | k :: ks =>
      if maxKeys a <=? size (dedup a) then MkAcc (dedup a) (maxKeys a) (partialNodes a) true
      else tryAdd ks (MkAcc ({[k]} ∪ dedup a) (maxKeys a) (partialNodes a) (truncated a))
  end.

Definition markPartial (peer : string) (a : listKeysAccumulator) : listKeysAccumulator :=
  MkAcc (dedup a) (maxKeys a) (partialNodes a ++ [peer]) (truncated a).

Definition defaultListKeysMax : Z := 10000.

(** [collectPeerKeys], given what the peer answered (the node itself always answers). *)
Definition collectPeerKeys (peer : string) (answer : option (list string)) (a : listKeysAccumulator)
    : listKeysAccumulator :=
  match answer with None => markPartial peer a | Some keys => tryAdd keys a end.

Record ListKeysResult := MkListKeys { lk_Keys : list string; lk_Truncated : bool; lk_PartialNodes : list string }.

Definition accResult (a : listKeysAccumulator) : ListKeysResult :=
  MkListKeys (merge_sort String.le (elements (dedup a))) (truncated a) (partialNodes a).

(** [ListKeys]: the peers with their answers, in the order in which their goroutines
    take the accumulator's lock. *)
Definition ListKeys (pattern : string) (maxResults : Z) (answers : list (string * option (list string)))
    : result ListKeysResult :=
  let maxResults := if (maxResults <=? 0)%Z then defaultListKeysMax else maxResults in
  match buildKeyMatcher pattern with
  | Err e => Err e
  | Ok _ =>
      Ok (accResult (foldl (λ a '(peer, answer), collectPeerKeys peer answer a)
                       (MkAcc ∅ (Z.to_nat maxResults) [] false) answers))
  end.

(** [localMatchingKeys]. *)
Definition localMatchingKeys (shards : shardKeys) (matcher : string → bool) : list string :=
  concat ((λ sh, match sh with None => [] | Some ks => filter (λ k, matcher k = true) ks end) <$> shards).

End Keys.

(** ** Strings on the wire *)

(** What has crossed once crosses unchanged. *)
Lemma toValidUTF8_idem s : toValidUTF8 (toValidUTF8 s) = toValidUTF8 s.
Proof.
  remember (String.length s) as n eqn:En. revert s En.
  induction (lt_wf n) as [n _ IH]. intros s ->.
  assert (∀ r, String.length r < String.length s → toValidUTF8 (toValidUTF8 r) = toValidUTF8 r) as IH'
    by (intros r Hr; by apply (IH (String.length r))).
  assert (∀ t, toValidUTF8 (String.append runeError t) = String.append runeError (toValidUTF8 t)) as Hbad
    by (intros t; reflexivity).
  clear IH. destruct s as [|c0 r0]; [done|]. cbn [String.length] in IH'. cbn [toValidUTF8].
  destruct (nat_of_ascii c0 <? 128) eqn:E0; [cbn [toValidUTF8]; rewrite E0, IH'; [done|lia]|].
  destruct r0 as [|c1 r1]; [done|]. cbn [String.length] in IH'.
  destruct (seq2 c0 c1) eqn:E1; [cbn [toValidUTF8]; rewrite E0, E1, IH'; [done|lia]|].
  destruct r1 as [|c2 r2]; [rewrite Hbad, IH'; [done|cbn; lia]|]. cbn [String.length] in IH'.
  destruct (seq3 c0 c1 c2) eqn:E2; [cbn [toValidUTF8]; rewrite E0, E1, E2, IH'; [done|lia]|].
  destruct r2 as [|c3 r3]; [rewrite Hbad, IH'; [done|cbn; lia]|]. cbn [String.length] in IH'.
  destruct (seq4 c0 c1 c2 c3) eqn:E3; [cbn [toValidUTF8]; rewrite E0, E1, E2, E3, IH'; [done|lia]|].
  rewrite Hbad, IH'; [done|cbn; lia].
Qed.

Lemma toValidUTF8_ascii s : Forall (λ b, b < 128) (bytes_of s) → toValidUTF8 s = s.
Proof.
  induction s as [|c s IH]; intros Hs; [done|]. apply Forall_cons in Hs as [Hc Hs]. cbn [toValidUTF8].
  apply Nat.ltb_lt in Hc. by rewrite Hc, (IH Hs).
Qed.

(** Base64 text crosses unchanged. *)
Lemma toValidUTF8_base64 bs :
  Forall (λ b, byte b) bs → toValidUTF8 (string_of_bytes (base64Encode bs)) = string_of_bytes (base64Encode bs).
Proof.
  intros H. pose proof (base64Encode_printable (length bs) bs ltac:(done) H) as Hp. apply toValidUTF8_ascii.
  assert (Forall (λ z, (z < 128)%Z) (Z.of_nat <$> bytes_of (string_of_bytes (base64Encode bs)))) as Hb.
  { rewrite bytes_of_string_of_bytes by (eapply Forall_impl; [exact Hp|cbn; lia]).
    eapply Forall_impl; [exact Hp|cbn; lia]. }
  apply Forall_fmap in Hb. eapply Forall_impl; [exact Hb|cbn; lia].
Qed.

(** The letter e with an acute accent is kept; a lone byte 255 and half a sequence are not. *)
Example utf8_kept : toValidUTF8 (string_of_bytes [107; 195; 169]%Z) = string_of_bytes [107; 195; 169]%Z.
Proof. by vm_compute. Qed.
Example utf8_replaced :
  toValidUTF8 (string_of_bytes [255; 107; 195]%Z) = string_of_bytes [239; 191; 189; 107; 239; 191; 189]%Z.
Proof. by vm_compute. Qed.

(** Two keys that differ only in bytes that are not UTF-8 are one key on the peer that a
    set is forwarded to. *)
Theorem forwarded_keys_collide now rep v :
  let it b := MkTItem (string_of_bytes [107; b]%Z) v 0 1 "a" 0 0 in
  ti_Key (it 254%Z) ≠ ti_Key (it 255%Z) ∧
  ti_Key (setItem now (setRequest (it 254%Z) rep)) = ti_Key (setItem now (setRequest (it 255%Z) rep)).
Proof. split; by vm_compute. Qed.

(** ** Expirations on the wire *)

Lemma i64_fixed_scale d : (- 2 ^ 63 ≤ d < 2 ^ 63)%Z → i64 (d * Millisecond) = d → d = 0%Z.
Proof.
  intros Hd H. unfold i64, Millisecond in H.
  set (x := (d * 1000000 + 2 ^ 63)%Z) in *.
  pose proof (Z.div_mod x (2 ^ 64) ltac:(lia)) as E. set (q := (x / 2 ^ 64)%Z) in *.
  assert (999999 * d = 2 ^ 64 * q)%Z as Eq by (unfold x in *; lia).
  assert (2 ^ 64 | d)%Z as [k ->].
  { apply (Z.gauss _ 999999); [exists q; lia|by vm_compute]. }
  lia.
Qed.

Lemma quot_scale_fits d : (- 2 ^ 63 ≤ d < 2 ^ 63)%Z → i64 (Z.quot d Millisecond * Millisecond) = (Z.quot d Millisecond * Millisecond)%Z.
Proof. intros Hd. apply i64_small. unfold Millisecond. Z.to_euclidean_division_equations; lia. Qed.

(** C28: a forwarded set keeps an item's version, its key and its origin (up to bytes that
    are not UTF-8) and cuts its expiration to whole milliseconds, so one below a millisecond becomes none at all.  A forwarded get
    reads the peer's nanoseconds as milliseconds: the item that arrives has a million
    times the expiration, in the arithmetic of int64, which is never the peer's unless
    the item has none. *)
Theorem http_expiration now key owners items it rep :
  items !! key = Some it → key ≠ ""%string → owners ≠ [] → (- 2 ^ 63 ≤ ti_Expiration it < 2 ^ 63)%Z →
  let it1 := setItem now (setRequest it rep) in
  ti_Key it1 = toValidUTF8 (ti_Key it) ∧ ti_Version it1 = ti_Version it ∧ ti_Origin it1 = toValidUTF8 (ti_Origin it) ∧
  ti_Expiration it1 = (Z.quot (ti_Expiration it) Millisecond * Millisecond)%Z ∧
  ∃ it2, ForwardGet now (handleGet key owners items) = Ok (Some it2) ∧
    ti_Key it2 = toValidUTF8 (ti_Key it) ∧ ti_Version it2 = ti_Version it ∧ ti_Origin it2 = toValidUTF8 (ti_Origin it) ∧
    ti_Expiration it2 = i64 (ti_Expiration it * Millisecond) ∧
    (ti_Expiration it2 = ti_Expiration it ↔ ti_Expiration it = 0%Z).
Proof.
  intros Hit Hk Ho Hd. repeat split; [by apply quot_scale_fits|].
  unfold handleGet. rewrite decide_False by done. rewrite decide_False by (by intros ?%nil_length_inv).
  rewrite Hit. eexists. split; [done|]. repeat split; cbn [ti_Expiration]; cbn.
  - by apply i64_fixed_scale.
  - by intros ->.
Qed.

(** ** Paged listings *)

Lemma filter_cons_b (m : string → bool) k ks :
  filter (λ k, m k = true) (k :: ks) = if m k then k :: filter (λ k, m k = true) ks else filter (λ k, m k = true) ks.
Proof. rewrite filter_cons. destruct (m k) eqn:E; [by rewrite decide_True|rewrite decide_False; [done|congruence]]. Qed.

Lemma collectLoop_ok m ks : ∀ out, collectLoop ks 0 m out = (out ++ filter (λ k, m k = true) ks, false).
Proof.
  induction ks as [|k ks IH]; intros out; cbn [collectLoop]; [by rewrite app_nil_r|].
  rewrite filter_cons_b. destruct (m k); cbn [negb]; rewrite IH; [by rewrite <- app_assoc|done].
Qed.

Section Listing.
Context (pathMatch : string → string → option bool).

Lemma listKeysPage_ok shards pattern m c (cursor : option Z) :
  buildKeyMatcher pathMatch pattern = Ok m → cursor = Some (Z.of_nat c) ∨ cursor = None ∧ c = 0 →
  ∃ next, listKeysPage pathMatch shards pattern cursor =
    Ok (MkPage (toValidUTF8 <$> localMatchingKeys (take 1 (drop c shards)) m) next false) ∧
    (next = Some (Z.of_nat (S c)) ∨ next = None ∧ length shards ≤ S c).
Proof.
  intros Hm Hc. unfold listKeysPage, handleKeys.
  assert (parseQuery (match cursor with None => QAbsent | Some c => QInt c end) = Some (Z.of_nat c)) as ->.
  { destruct Hc as [->|[-> ->]]; [|done]. cbn. destruct (Z.ltb_spec (Z.of_nat c) 0); [lia|done]. }
  cbn [parseQuery]. rewrite Hm, Nat2Z.id. destruct (shards !! c) as [[sh|]|] eqn:E.
  - rewrite (drop_S _ _ _ E). unfold collectShardKeys. rewrite collectLoop_ok. cbn. rewrite app_nil_r.
    destruct (Z.ltb_spec (Z.of_nat c + 1) (Z.of_nat (length shards))); eexists; (split; [done|]); cbn;
      [left; f_equal; lia|right; split; [done|lia]].
  - rewrite (drop_S _ _ _ E). eexists. split; [done|]. left. cbn. f_equal. lia.
  - apply lookup_ge_None in E. rewrite drop_ge by done. eexists. split; [done|]. right. split; [done|lia].
Qed.

Lemma localMatchingKeys_app m s1 s2 :
  localMatchingKeys (s1 ++ s2) m = localMatchingKeys s1 m ++ localMatchingKeys s2 m.
Proof. unfold localMatchingKeys. by rewrite fmap_app, concat_app. Qed.

Lemma listKeysLoop_ok shards pattern m n : ∀ c cursor all,
  buildKeyMatcher pathMatch pattern = Ok m → cursor = Some (Z.of_nat c) ∨ cursor = None ∧ c = 0 →
  listKeysLoop n (listKeysPage pathMatch shards pattern) cursor all
  = Ok (all ++ (toValidUTF8 <$> localMatchingKeys (take n (drop c shards)) m)).
Proof.
  induction n as [|n IH]; intros c cursor all Hm Hc; cbn [listKeysLoop]; [by rewrite take_0, app_nil_r|].
  destruct (listKeysPage_ok shards pattern m c cursor Hm Hc) as (next & -> & Hn). cbn [NextCursor Keys].
  assert (take (S n) (drop c shards) = take 1 (drop c shards) ++ take n (drop (S c) shards)) as ->.
  { change (S n) with (1 + n). rewrite <- take_take_drop, drop_drop. by rewrite Nat.add_1_r. }
  rewrite localMatchingKeys_app, fmap_app, app_assoc. destruct Hn as [->|[-> Hl]].
  - rewrite decide_False by (destruct Hc as [->|[-> ->]]; [intros [= ?]; lia|done]).
    apply IH; [done|by left].
  - rewrite (drop_ge _ (S c)), take_nil by done. by rewrite app_nil_r.
Qed.

Lemma listKeysLoop_bad shards pattern e n cursor :
  buildKeyMatcher pathMatch pattern = Err e → 0 < n → cursor = None →
  listKeysLoop n (listKeysPage pathMatch shards pattern) cursor [] = Err (ErrOther "list keys status").
Proof.
  intros E Hn ->. destruct n as [|n]; [lia|]. cbn [listKeysLoop]. unfold listKeysPage, handleKeys.
  cbn [parseQuery]. by rewrite E.
Qed.

(** The listing that walks a peer's shards returns the matching keys of the first
    1024 shards, each shard's once, or the error of the pattern; with more shards the
    rest is left out and no error says so. *)
Theorem http_list_keys shards pattern :
  ListKeysHTTP pathMatch shards pattern =
    match buildKeyMatcher pathMatch pattern with
    | Ok m => Ok (toValidUTF8 <$> localMatchingKeys (take 1024 shards) m)
    | Err _ => Err (ErrOther "list keys status")
    end.
Proof.
  unfold ListKeysHTTP. destruct (buildKeyMatcher pathMatch pattern) as [m|e] eqn:E.
  - rewrite (listKeysLoop_ok _ _ m _ 0) by auto. done.
  - apply (listKeysLoop_bad _ _ e); [done|unfold safetyLimit; lia|done].
Qed.

(** ** Cluster-wide listings *)

(** What the peers that answered hold. *)
Definition answered (answers : list (string * option (list string))) : gset string :=
  ⋃ ((λ '(_, answer), list_to_set (default [] answer)) <$> answers).

Record acc_ok (seen : gset string) (a : listKeysAccumulator) : Prop := {
  acc_sub : dedup a ⊆ seen;
  acc_max : size (dedup a) ≤ maxKeys a;
  acc_all : truncated a = false → dedup a = seen;
  acc_full : truncated a = true → size (dedup a) = maxKeys a }.

Lemma tryAdd_ok keys : ∀ seen a,
  acc_ok seen a →
  acc_ok (seen ∪ list_to_set keys) (tryAdd keys a) ∧ maxKeys (tryAdd keys a) = maxKeys a ∧
  partialNodes (tryAdd keys a) = partialNodes a.
Proof.
  induction keys as [|k ks IH]; intros seen a H; cbn [tryAdd list_to_set].
  { split; [|done]. by rewrite union_empty_r_L. }
  destruct H as [Hs Hm Ha Hf]. destruct (Nat.leb_spec (maxKeys a) (size (dedup a))).
  - split; [|done]. split; cbn; [set_solver|done|done|lia].
  - rewrite (union_assoc_L seen). apply (IH (seen ∪ {[k]}) (MkAcc ({[k]} ∪ dedup a) (maxKeys a) (partialNodes a) (truncated a))). split; cbn.
    + set_solver.
    + pose proof (size_union_alt {[k]} (dedup a)) as E. rewrite size_singleton in E.
      pose proof (subseteq_size (dedup a ∖ {[k]}) (dedup a) ltac:(set_solver)). lia.
    + intros Ht. rewrite (Ha Ht). set_solver.
    + intros Ht. specialize (Hf Ht). lia.
Qed.

Lemma foldl_collect_ok answers : ∀ seen a,
  acc_ok seen a →
  let a' := foldl (λ a '(peer, answer), collectPeerKeys peer answer a) a answers in
  acc_ok (seen ∪ answered answers) a' ∧ maxKeys a' = maxKeys a ∧
  partialNodes a' = partialNodes a ++ (filter (λ pa, pa.2 = None) answers).*1.
Proof.
  unfold answered. induction answers as [|[peer answer] answers IH]; intros seen a H; cbn [foldl].
  { cbn. rewrite union_empty_r_L, app_nil_r. done. }
  rewrite fmap_cons, union_list_cons, union_assoc_L, filter_cons. destruct answer as [ks|]; cbn [collectPeerKeys default].
  - destruct (tryAdd_ok ks seen a H) as (H1 & E1 & E2). destruct (IH _ _ H1) as (H2 & E3 & E4).
    rewrite decide_False by done. cbn zeta. rewrite E4, E3, E1, E2. done.
  - assert (acc_ok (seen ∪ list_to_set []) (markPartial peer a)) as H1.
    { cbn. rewrite union_empty_r_L. destruct H. by split. }
    destruct (IH _ _ H1) as (H2 & E3 & E4). rewrite decide_True by done. cbn zeta. rewrite E4, E3.
    cbn. by rewrite <- app_assoc.
Qed.

(** A cluster-wide listing with a bound of [n] keys, in whatever order the peers'
    answers are merged.  One that does not report truncation has exactly the keys of the
    peers that answered, sorted and without duplicates; one that does has [n] of them.
    Below [n] distinct keys it never reports truncation and above [n] always.  The peers
    that did not answer are listed. *)
Theorem cluster_list_keys pattern m n answers :
  buildKeyMatcher pathMatch pattern = Ok m → (0 < n)%Z →
  ∃ r, ListKeys pathMatch pattern n answers = Ok r ∧
    StronglySorted String.le (lk_Keys r) ∧ NoDup (lk_Keys r) ∧
    (∀ k, k ∈ lk_Keys r → k ∈ answered answers) ∧
    (lk_Truncated r = false → lk_Keys r = merge_sort String.le (elements (answered answers))) ∧
    (lk_Truncated r = true → Z.of_nat (length (lk_Keys r)) = n) ∧
    ((Z.of_nat (size (answered answers)) < n)%Z → lk_Truncated r = false) ∧
    ((n < Z.of_nat (size (answered answers)))%Z → lk_Truncated r = true) ∧
    lk_PartialNodes r = (filter (λ pa, pa.2 = None) answers).*1.
Proof.
  intros Hm Hn. unfold ListKeys. rewrite Hm. destruct (Z.leb_spec n 0); [lia|].
  eexists. split; [done|]. unfold accResult. cbn [lk_Keys lk_Truncated lk_PartialNodes].
  destruct (foldl_collect_ok answers ∅ (MkAcc ∅ (Z.to_nat n) [] false)) as (H1 & E1 & E2); [by split; cbn; [|rewrite size_empty; lia|..]|].
  set (a := foldl _ _ _) in *. rewrite union_empty_l_L in H1. destruct H1 as [Hs Hmx Ha Hf]. cbn in E1, E2. rewrite E1 in *.
  pose proof (subseteq_size _ _ Hs) as Hle.
  split; [apply StronglySorted_merge_sort; apply _|]. split; [rewrite merge_sort_Permutation; apply NoDup_elements|].
  split; [intros k Hk; rewrite merge_sort_Permutation in Hk; apply elem_of_elements in Hk; by apply Hs|].
  split; [intros Ht; by rewrite (Ha Ht)|].
  split; [intros Ht; rewrite merge_sort_Permutation; specialize (Hf Ht); unfold size, set_size in Hf; cbn in Hf; lia|].
  split; [intros Hu; destruct (truncated a); [specialize (Hf eq_refl); lia|done]|].
  split; [|done]. intros Hu. destruct (truncated a); [done|]. rewrite (Ha eq_refl) in Hmx. lia.
Qed.

End Listing.

(** ** Witnesses *)

(** An item with an expiration of one minute and half a millisecond. *)
Definition sample_titem : TItem := MkTItem "k" (GBytes [104; 105]%Z) 60000500000 3 "a" 0 0.

Lemma http_expiration_witness :
  let it1 := setItem 9 (setRequest sample_titem true) in
  ti_Key it1 = "k"%string ∧ ti_Version it1 = 3%Z ∧ ti_Origin it1 = "a"%string ∧
  ti_Expiration it1 = 60000000000%Z ∧
  ∃ it2, ForwardGet 9 (handleGet "k" ["a"%string] {["k"%string := sample_titem]}) = Ok (Some it2) ∧
    ti_Key it2 = "k"%string ∧ ti_Version it2 = 3%Z ∧ ti_Origin it2 = "a"%string ∧
    ti_Expiration it2 = 60000500000000000%Z ∧ (ti_Expiration it2 = 60000500000%Z ↔ 60000500000 = 0)%Z.
Proof.
  refine (http_expiration 9 "k" ["a"%string] {["k"%string := sample_titem]} sample_titem true _ _ _ _).
  - vm_compute. reflexivity.
  - discriminate.
  - discriminate.
  - cbn. lia.
Defined.

Definition sample_pathMatch (p k : string) : option bool := Some (bool_decide (p = k)).

(** Two replicas with the same two keys, and a third peer that does not answer. *)
Definition sample_answers : list (string * option (list string)) :=
  [("a"%string, Some ["u:2"; "u:1"]%string); ("b"%string, None); ("c"%string, Some ["u:1"; "u:2"]%string)].

Lemma cluster_list_keys_witness :
  ∃ r, ListKeys sample_pathMatch "u:" 3 sample_answers = Ok r ∧
    StronglySorted String.le (lk_Keys r) ∧ NoDup (lk_Keys r) ∧
    (∀ k, k ∈ lk_Keys r → k ∈ answered sample_answers) ∧
    (lk_Truncated r = false → lk_Keys r = merge_sort String.le (elements (answered sample_answers))) ∧
    (lk_Truncated r = true → Z.of_nat (length (lk_Keys r)) = 3%Z) ∧
    ((Z.of_nat (size (answered sample_answers)) < 3)%Z → lk_Truncated r = false) ∧
    ((3 < Z.of_nat (size (answered sample_answers)))%Z → lk_Truncated r = true) ∧
    lk_PartialNodes r = (filter (λ pa, pa.2 = None) sample_answers).*1.
Proof.
  refine (cluster_list_keys sample_pathMatch "u:" (λ k, String.prefix "u:" k) 3 sample_answers _ _).
  - vm_compute. reflexivity.
  - lia.
Defined.

(** With a bound of exactly the number of distinct keys, the second replica's duplicates
    make a complete listing report truncation. *)
Example duplicates_report_truncation :
  ListKeys sample_pathMatch "u:" 2 sample_answers = Ok (MkListKeys ["u:1"; "u:2"]%string true ["b"%string]) ∧
  size (answered sample_answers) = 2.
Proof. by vm_compute. Qed.
