(* ===== verification/Client.v ===== *)
(** * The client library (pkg/client)

    How a client cleans its seeds, orders and tries the endpoints of a request,
    classifies what they answer, refreshes its view of the cluster, and encodes the
    values of batches.

    The network is a state [W] with [roundTrip]: one attempt at an endpoint gives a
    response, or [None] when the request cannot be built or delivered.  Parameters:
    the parser of the JSON error body and of the member list, and [urlScheme]
    (net/url).  The shuffle of the endpoints is the sequence of swaps its random
    source chooses.  Timeouts, headers and logging are left out.

    The theorems: which endpoints a request reaches and what it returns, that the
    client always has an endpoint to try, that a retried body is always complete, and
    the round trip of batch values. *)

From stdpp Require Import base gmap strings list.
From Stdlib Require Import ZArith Lia.
From S2P Require Import Prelude Item Auth.

(** ** The code *)

Record StatusError := MkStatus { HTTPStatus : Z; Code : string; Message : string; Details : string }.

(** The errors of the package; [EDispatch] is any error that is not a [StatusError]. *)
Inductive cerror :=
  | ENoEndpoints
  | EAllEndpointsFailed (tried : nat) (lastErr : option cerror)
  | EStatus (e : StatusError)
  | EDispatch
  | EDecode.

Inductive sentinel := SNotFound | SUnauthorized | SForbidden | SDraining | SBadRequest | SInternal | SOther.

(** [StatusError.Is]. *)
Definition Is (e : StatusError) (target : sentinel) : bool :=
  match target with
  | SNotFound => bool_decide (Code e = "NOT_FOUND") || (HTTPStatus e =? 404)%Z
  | SUnauthorized => bool_decide (Code e = "UNAUTHORIZED") || (HTTPStatus e =? 401)%Z
  | SForbidden => (HTTPStatus e =? 403)%Z
  | SDraining => bool_decide (Code e = "DRAINING") || (HTTPStatus e =? 503)%Z
  | SBadRequest => bool_decide (Code e = "BAD_REQUEST") || (HTTPStatus e =? 400)%Z
  | SInternal => bool_decide (Code e = "INTERNAL") || ((500 <=? HTTPStatus e)%Z && negb (HTTPStatus e =? 503)%Z)
  | SOther => false
  end.

Definition isRetryable (e : cerror) : bool :=
  match e with
  | EStatus se => (500 <=? HTTPStatus se)%Z || (HTTPStatus se =? 503)%Z
  | _ => true
  end.

Record Request := MkReq { method : string; url : string; body : option (list Z) }.
Record Response := MkResp { StatusCode : Z; respBody : list Z }.

(** [repeatableReader]: the data and the position; [Read] into a buffer of [n] bytes. *)
Record repeatableReader := MkReader { data : list Z; pos : nat }.
Definition newRepeatableReader (b : list Z) : repeatableReader := MkReader b 0.
Definition Read (n : nat) (r : repeatableReader) : option (list Z) * repeatableReader :=
  if length (data r) <=? pos r then (None, r)
  else
    let chunk := take n (drop (pos r) (data r)) in
    (Some chunk, MkReader (data r) (pos r + length chunk)).

(** [strings.TrimRight(s, "/")]. *)
Fixpoint trimSlashes (bs : list nat) : list nat :=
  if forallb (Nat.eqb 47) bs then [] else match bs with [] => [] | b :: r => b :: trimSlashes r end.
Definition trimRightSlash (s : string) : string := string_of_bytes (Z.of_nat <$> trimSlashes (bytes_of s)).
Definition trimSpaceS (s : string) : string := string_of_bytes (Z.of_nat <$> trimSpace (bytes_of s)).

(** [s[:n] + "..."]. *)
Definition truncate (s : string) (n : nat) : string :=
  if String.length s <=? n then s else String.append (String.substring 0 n s) "...".

(** The seeds and the last known endpoints. *)
Record Client := MkClient { seeds : list string; endpoints : option (list string) }.

Definition cleanSeeds (ss : list string) : list string :=
  filter (λ s, s ≠ ""%string) ((λ s, trimRightSlash (trimSpaceS s)) <$> ss).

Definition New (ss : list string) : Client + cerror :=
  if decide (ss = []) then inr ENoEndpoints
  else
    let cleaned := cleanSeeds ss in
    if decide (cleaned = []) then inr ENoEndpoints else inl (MkClient cleaned (Some cleaned)).

Definition Endpoints (c : Client) : list string :=
  match endpoints c with None => seeds c | Some es => es end.

Definition currentEndpoints (c : Client) : list string :=
  match endpoints c with
  | None => seeds c
  | Some es => if decide (length es = 0) then seeds c else es
  end.

(** [rng.Shuffle]'s swaps on the indexes; [None] is an index out of range. *)
Fixpoint applySwaps (swaps : list (nat * nat)) (out : list nat) : option (list nat) :=
  match swaps with
  | [] => Some out
  | (i, j) :: swaps => x ← out !! i; y ← out !! j; applySwaps swaps (<[j := x]> (<[i := y]> out))
  end.
Definition order (swaps : list (nat * nat)) (n : nat) : option (list nat) := applySwaps swaps (seq 0 n).

Section Client.
Context {W : Type} (roundTrip : string → Request → W → W * option Response).
Context (errorEnvelope : list Z → option (string * string * string)).

Definition classifyResponse (resp : Response) : StatusError :=
  match errorEnvelope (respBody resp) with
  | Some (code, msg, det) =>
      if decide (code = ""%string) then MkStatus (StatusCode resp) "" (truncate (string_of_bytes (respBody resp)) 256) ""
      else MkStatus (StatusCode resp) code msg det
  | None => MkStatus (StatusCode resp) "" (truncate (string_of_bytes (respBody resp)) 256) ""
  end.

Definition tryOnce (endpoint meth path : string) (bodyBytes : option (list Z)) (w : W) : W * (Response + cerror) :=
  match roundTrip endpoint (MkReq meth (String.append endpoint path) bodyBytes) w with
  | (w, None) => (w, inr EDispatch)
  | (w, Some resp) =>
      if (400 <=? StatusCode resp)%Z then (w, inr (EStatus (classifyResponse resp))) else (w, inl resp)
  end.

(** The loop of [do] over the shuffled indexes. *)
Fixpoint failover (ord : list nat) (eps : list string) (meth path : string) (b : option (list Z))
    (lastErr : option cerror) (w : W) : option (W * (Response + cerror)) :=
  match ord with
  | [] => Some (w, inr (EAllEndpointsFailed (length eps) lastErr))
  | i :: ord =>
      endpoint ← eps !! i;
      match tryOnce endpoint meth path b w with
      | (w, inl resp) => Some (w, inl resp)
      | (w, inr e) =>
          if negb (isRetryable e) then Some (w, inr e) else failover ord eps meth path b (Some e) w
      end
  end.

Definition do_ (swaps : list (nat * nat)) (meth path : string) (b : option (list Z)) (c : Client) (w : W)
    : option (W * (Response + cerror)) :=
  let eps := currentEndpoints c in
  if decide (length eps = 0) then Some (w, inr ENoEndpoints)
  else ord ← order swaps (length eps); failover ord eps meth path b None w.

(** [Set], with the query string that its TTL gives; [ttlString] is
    [Duration.String]. *)
Definition Set_ (ttlString : Z → string) (swaps : list (nat * nat)) (escapedKey : string) (value : list Z) (ttl : Z)
    (c : Client) (w : W) : option (W * option cerror) :=
  let path := String.append "/v1/cache/" escapedKey in
  let path := if (0 <? ttl)%Z then String.append path (String.append "?ttl=" (ttlString ttl)) else path in
  '(w, r) ← do_ swaps "PUT" path (Some value) c w;
  match r with
  | inr e => Some (w, Some e)
  | inl resp =>
      if negb (StatusCode resp =? 200)%Z then Some (w, Some (EStatus (classifyResponse resp))) else Some (w, None)
  end.

Definition Get (swaps : list (nat * nat)) (escapedKey : string) (c : Client) (w : W)
    : option (W * (list Z + cerror)) :=
  '(w, r) ← do_ swaps "GET" (String.append "/v1/cache/" escapedKey) None c w;
  match r with
  | inr e => Some (w, inr e)
  | inl resp =>
      if negb (StatusCode resp =? 200)%Z then Some (w, inr (EStatus (classifyResponse resp)))
      else Some (w, inl (respBody resp))
  end.

Definition Delete (swaps : list (nat * nat)) (escapedKey : string) (c : Client) (w : W)
    : option (W * option cerror) :=
  '(w, r) ← do_ swaps "DELETE" (String.append "/v1/cache/" escapedKey) None c w;
  match r with
  | inr e => Some (w, Some e)
  | inl resp =>
      if negb (StatusCode resp =? 200)%Z && negb (StatusCode resp =? 204)%Z
      then Some (w, Some (EStatus (classifyResponse resp))) else Some (w, None)
  end.

(** *** Topology *)

Record clusterMember := MkMember { m_ID : string; m_Address : string; m_State : string }.

Context (parseMembers : list Z → option (list clusterMember)) (urlScheme : string → option string).

Fixpoint schemeFromSeeds (ss : list string) : string :=
  match ss with
  | [] => "https"
  | s :: ss =>
      match urlScheme s with
      | None => schemeFromSeeds ss
      | Some sc => if decide (sc = ""%string) then schemeFromSeeds ss else sc
      end
  end.

Definition contains (sub s : string) : bool :=
  match String.index 0 sub s with Some _ => true | None => false end.

Definition buildEndpoint (scheme address : string) : string :=
  let address := trimSpaceS address in
  if decide (address = ""%string) then ""%string
  else if contains "://" address then trimRightSlash address
  else String.append scheme (String.append "://" address).

Fixpoint membersLoop (scheme : string) (ms : list clusterMember) (updated : list string) : list string :=
  match ms with
  | [] => updated
  | m :: ms =>
      if decide (m_Address m = ""%string) then membersLoop scheme ms updated
      else if decide (m_State m = "dead"%string) then membersLoop scheme ms updated
      else
        let endpoint := buildEndpoint scheme (m_Address m) in
        if decide (endpoint ≠ ""%string) then membersLoop scheme ms (updated ++ [endpoint])
        else membersLoop scheme ms updated
  end.

Definition RefreshTopology (swaps : list (nat * nat)) (c : Client) (w : W) : option (W * Client * option cerror) :=
  '(w, r) ← do_ swaps "GET" "/cluster/members" None c w;
  match r with
  | inr e => Some (w, c, Some e)
  | inl resp =>
      match parseMembers (respBody resp) with
      | None => Some (w, c, Some EDecode)
      | Some ms =>
          let updated := membersLoop (schemeFromSeeds (seeds c)) ms [] in
          if decide (length updated = 0) then Some (w, c, None)
          else Some (w, MkClient (seeds c) (Some updated), None)
      end
  end.

End Client.

(** *** Batches *)

Record itemEnvelope := MkEnvelope { e_Value : string; e_ValueEncoding : string }.

Definition decodeEnvelopeValue (env : itemEnvelope) : option (list Z) :=
  if decide (e_ValueEncoding env = ""%string ∨ e_ValueEncoding env = "base64"%string)
  then base64Decode (Z.of_nat <$> bytes_of (e_Value env))
  else Some (Z.of_nat <$> bytes_of (e_Value env)).

Record BatchSetItem := MkSetItem { s_Key : string; s_Value : list Z; s_TTL : Z }.
Record batchPutItemWire := MkPutWire { p_Key : string; p_Value : string; p_ValueEncoding : string; p_TTLMs : Z }.
Record batchPutResultWire := MkPutResWire { pr_Key : string; pr_Stored : bool; pr_Error : string; pr_Code : string }.
Record BatchPutResult := MkPutRes { r_Key : string; r_Stored : bool; r_Err : option StatusError }.
Record batchGetResultWire := MkGetWire
  { g_Key : string; g_Found : bool; g_Value : string; g_ValueEncoding : string; g_TTLMs : Z; g_Version : Z;
    g_Origin : string; g_Owners : list string }.
Record ItemView := MkItemView
  { i_Key : string; i_Value : list Z; i_TTLMs : Z; i_Version : Z; i_Origin : string; i_Node : string;
    i_Owners : list string }.
Record BatchGetResult := MkGetRes { gr_Key : string; gr_Found : bool; gr_Item : option ItemView }.

Definition putWire (it : BatchSetItem) : batchPutItemWire :=
  MkPutWire (s_Key it) (string_of_bytes (base64Encode (s_Value it))) "base64"
    (if (0 <? s_TTL it)%Z then Z.quot (s_TTL it) 1000000 else 0%Z).

Definition statusErrorFromBatch (success : bool) (code message : string) : option StatusError :=
  if success && bool_decide (code = ""%string) then None
  else if bool_decide (code = ""%string) && bool_decide (message = ""%string) then None
  else
    let status :=
      if decide (code = "BAD_REQUEST"%string) then 400%Z
      else if decide (code = "DRAINING"%string) then 503%Z
      else if decide (code = "INTERNAL"%string) then 500%Z
      else 0%Z in
    Some (MkStatus status code message "").

Definition itemFromBatchGet (r : batchGetResultWire) (node : string) : option ItemView :=
  value ← decodeEnvelopeValue (MkEnvelope (g_Value r) (g_ValueEncoding r));
  Some (MkItemView (g_Key r) value (g_TTLMs r) (g_Version r) (g_Origin r) node (g_Owners r)).

Fixpoint getResults (rs : list batchGetResultWire) (node : string) : option (list BatchGetResult) :=
  match rs with
  | [] => Some []
  | r :: rs =>
      item ← (if g_Found r then Some <$> itemFromBatchGet r node else Some None);
      rest ← getResults rs node;
      Some (MkGetRes (g_Key r) (g_Found r) item :: rest)
  end.

Section Batch.
Context {W : Type} (roundTrip : string → Request → W → W * option Response).
Context (errorEnvelope : list Z → option (string * string * string)).
(** encoding/json on the request and response types. *)
Context (marshalPut : list batchPutItemWire → list Z) (parsePut : list Z → option (list batchPutResultWire)).
Context (marshalGet : list string → list Z) (parseGet : list Z → option (list batchGetResultWire * string)).

Definition BatchSet (swaps : list (nat * nat)) (items : list BatchSetItem) (c : Client) (w : W)
    : option (W * (list BatchPutResult + cerror)) :=
  if decide (items = []) then Some (w, inl [])
  else
    '(w, r) ← do_ roundTrip errorEnvelope swaps "POST" "/v1/cache/batch/put" (Some (marshalPut (putWire <$> items))) c w;
    match r with
    | inr e => Some (w, inr e)
    | inl resp =>
        if negb (StatusCode resp =? 200)%Z then Some (w, inr (EStatus (classifyResponse errorEnvelope resp)))
        else
          match parsePut (respBody resp) with
          | None => Some (w, inr EDecode)
          | Some out =>
              Some (w, inl ((λ r, MkPutRes (pr_Key r) (pr_Stored r)
                              (statusErrorFromBatch (pr_Stored r) (pr_Code r) (pr_Error r))) <$> out))
          end
    end.

Definition BatchGet (swaps : list (nat * nat)) (keys : list string) (c : Client) (w : W)
    : option (W * (list BatchGetResult + cerror)) :=
  if decide (keys = []) then Some (w, inl [])
  else
    '(w, r) ← do_ roundTrip errorEnvelope swaps "POST" "/v1/cache/batch/get" (Some (marshalGet keys)) c w;
    match r with
    | inr e => Some (w, inr e)
    | inl resp =>
        if negb (StatusCode resp =? 200)%Z then Some (w, inr (EStatus (classifyResponse errorEnvelope resp)))
        else
          match parseGet (respBody resp) with
          | None => Some (w, inr EDecode)
          | Some (out, node) =>
              match getResults out node with
              | None => Some (w, inr EDecode)
              | Some rs => Some (w, inl rs)
              end
          end
    end.

Record batchDeleteResultWire := MkDelWire { dw_Key : string; dw_Deleted : bool; dw_Error : string; dw_Code : string }.
Record BatchDeleteResult := MkDelResult { dr_Key : string; dr_Deleted : bool; dr_Err : option StatusError }.

Context (parseDelete : list Z → option (list batchDeleteResultWire)).

Definition BatchDelete (swaps : list (nat * nat)) (keys : list string) (c : Client) (w : W)
    : option (W * (list BatchDeleteResult + cerror)) :=
  if decide (keys = []) then Some (w, inl [])
  else
    '(w, r) ← do_ roundTrip errorEnvelope swaps "POST" "/v1/cache/batch/delete" (Some (marshalGet keys)) c w;
    match r with
    | inr e => Some (w, inr e)
    | inl resp =>
        if negb (StatusCode resp =? 200)%Z then Some (w, inr (EStatus (classifyResponse errorEnvelope resp)))
        else
          match parseDelete (respBody resp) with
          | None => Some (w, inr EDecode)
          | Some out =>
              Some (w, inl ((λ r, MkDelResult (dw_Key r) (dw_Deleted r)
                              (statusErrorFromBatch (dw_Deleted r) (dw_Code r) (dw_Error r))) <$> out))
          end
    end.

(** The JSON of a single item has the fields of a batch entry and the node. *)
Context (parseItem : list Z → option (batchGetResultWire * string)).

Definition GetItem (swaps : list (nat * nat)) (escapedKey : string) (c : Client) (w : W)
    : option (W * (ItemView + cerror)) :=
  '(w, r) ← do_ roundTrip errorEnvelope swaps "GET" (String.append "/v1/cache/" escapedKey) None c w;
  match r with
  | inr e => Some (w, inr e)
  | inl resp =>
      if negb (StatusCode resp =? 200)%Z then Some (w, inr (EStatus (classifyResponse errorEnvelope resp)))
      else
        match parseItem (respBody resp) with
        | None => Some (w, inr EDecode)
        | Some (env, node) =>
            match itemFromBatchGet env node with None => Some (w, inr EDecode) | Some it => Some (w, inl it) end
        end
  end.

Context (parseAllowed : list Z → option bool).

Definition Can (swaps : list (nat * nat)) (escapedCapability : string) (c : Client) (w : W)
    : option (W * (bool + cerror)) :=
  '(w, r) ← do_ roundTrip errorEnvelope swaps "GET" (String.append "/v1/me/can?capability=" escapedCapability) None c w;
  match r with
  | inr e => Some (w, inr e)
  | inl resp =>
      if negb (StatusCode resp =? 200)%Z then Some (w, inr (EStatus (classifyResponse errorEnvelope resp)))
      else match parseAllowed (respBody resp) with None => Some (w, inr EDecode) | Some a => Some (w, inl a) end
  end.

End Batch.

(** ** The endpoints of a request *)

Lemma applySwaps_perm swaps : ∀ out,
  Forall (λ s, s.1 < length out ∧ s.2 < length out) swaps →
  ∃ out', applySwaps swaps out = Some out' ∧ out' ≡ₚ out.
Proof.
  induction swaps as [|[i j] swaps IH]; intros out H; [by exists out|].
  rewrite Forall_cons in H. destruct H as [[Hi Hj] H]. cbn [fst snd] in Hi, Hj. cbn [applySwaps].
  destruct (lookup_lt_is_Some_2 _ _ Hi) as [x Ex], (lookup_lt_is_Some_2 _ _ Hj) as [y Ey].
  rewrite Ex, Ey. cbn [mbind option_bind].
  destruct (IH (<[j:=x]> (<[i:=y]> out))) as (out' & E & P); [by rewrite !length_insert|].
  exists out'. split; [done|]. rewrite P. apply (Permutation_insert_swap out i j x y Ex Ey).
Qed.

Lemma order_perm swaps n :
  Forall (λ s, s.1 < n ∧ s.2 < n) swaps → ∃ ord, order swaps n = Some ord ∧ ord ≡ₚ seq 0 n.
Proof. intros H. unfold order. apply applySwaps_perm. by rewrite length_seq. Qed.

Lemma lookup_total_seq (eps : list string) : (λ i, eps !!! i) <$> seq 0 (length eps) = eps.
Proof.
  apply list_eq. intros i. rewrite list_lookup_fmap.
  destruct (decide (i < length eps)).
  - rewrite lookup_seq_lt by done. cbn. rewrite list_lookup_lookup_total_lt by done. done.
  - rewrite !lookup_ge_None_2; rewrite ?length_seq; [done|lia..].
Qed.

Section Failover.
Context {W : Type} (roundTrip : string → Request → W → W * option Response).
Context (errorEnvelope : list Z → option (string * string * string)).
Context (meth path : string) (b : option (list Z)).

Local Notation attempt ep w := (tryOnce roundTrip errorEnvelope ep meth path b w).

(** [attempts eps w last w' last']: trying the endpoints [eps] in turn from [w], each
    fails with an error that another endpoint may not give; the last error is [last']. *)
Inductive attempts : list string → W → option cerror → W → option cerror → Prop :=
  | attempts_nil w l : attempts [] w l w l
  | attempts_cons ep eps w e w1 l w2 l2 :
      attempt ep w = (w1, inr e) → isRetryable e = true → attempts eps w1 (Some e) w2 l2 →
      attempts (ep :: eps) w l w2 l2.

(** What ends a request early: a response below 400, or a 4xx answer. *)
Definition final (r : Response + cerror) : Prop :=
  match r with
  | inl resp => (StatusCode resp < 400)%Z
  | inr e => ∃ se, e = EStatus se ∧ (400 ≤ HTTPStatus se < 500)%Z
  end.

Lemma classify_status resp : HTTPStatus (classifyResponse errorEnvelope resp) = StatusCode resp.
Proof. unfold classifyResponse. destruct (errorEnvelope _) as [[[code msg] det]|]; [case_decide|]; done. Qed.

Lemma tryOnce_final ep w w1 r :
  attempt ep w = (w1, r) → match r with inl _ => True | inr e => isRetryable e = false end → final r.
Proof.
  unfold tryOnce. destruct (roundTrip _ _ _) as [w0 [resp|]]; [|intros [= <- <-] Hr; cbn in Hr; congruence].
  destruct (Z.leb_spec 400 (StatusCode resp)); intros [= <- <-] Hr; [|done].
  eexists. split; [done|]. rewrite classify_status. cbn in Hr. rewrite classify_status in Hr.
  apply orb_false_iff in Hr as [Hr _]. lia.
Qed.

Lemma failover_ok eps : ∀ ord l w,
  Forall (λ i, i < length eps) ord →
  let tried := (λ i, eps !!! i) <$> ord in
  ∃ w' r, failover roundTrip errorEnvelope ord eps meth path b l w = Some (w', r) ∧
    ((∃ pre ep post w1 l1, tried = pre ++ ep :: post ∧ attempts pre w l w1 l1 ∧ attempt ep w1 = (w', r) ∧ final r)
     ∨ ∃ l1, attempts tried w l w' l1 ∧ r = inr (EAllEndpointsFailed (length eps) l1)).
Proof.
  induction ord as [|i ord IH]; intros l w H; cbn.
  { do 2 eexists. split; [done|]. right. exists l. split; [constructor|done]. }
  rewrite Forall_cons in H. destruct H as [Hi H].
  rewrite (list_lookup_lookup_total_lt _ _ Hi). cbn [mbind option_bind].
  destruct (attempt (eps !!! i) w) as [w1 r] eqn:E. destruct r as [resp|e].
  { do 2 eexists. split; [done|]. left. exists [], (eps !!! i). do 3 eexists. split; [done|].
    split; [constructor|]. split; [done|]. by eapply tryOnce_final. }
  destruct (isRetryable e) eqn:Hr; cbn [negb].
  - destruct (IH (Some e) w1 H) as (w' & r & Ef & [(pre & ep & post & w2 & l2 & Et & Ha & Ht & Hf)|(l1 & Ha & ->)]).
    + do 2 eexists. split; [done|]. left. exists ((eps !!! i) :: pre), ep, post, w2, l2. rewrite Et.
      split; [done|]. split; [by econstructor|done].
    + do 2 eexists. split; [done|]. right. exists l1. split; [by econstructor|done].
  - do 2 eexists. split; [done|]. left. exists [], (eps !!! i). do 3 eexists. split; [done|].
    split; [constructor|]. split; [done|]. by eapply tryOnce_final.
Qed.

Lemma attempts_last eps w l w' l' : attempts eps w l w' l' → eps ≠ [] → is_Some l'.
Proof.
  induction 1 as [|ep eps w e w1 l w2 l2 _ _ H IH]; [done|]. intros _.
  destruct eps; [inversion H; subst; by eexists|by apply IH].
Qed.

Lemma do_ok swaps c w :
  currentEndpoints c ≠ [] →
  Forall (λ s, s.1 < length (currentEndpoints c) ∧ s.2 < length (currentEndpoints c)) swaps →
  ∃ tried w' r,
    do_ roundTrip errorEnvelope swaps meth path b c w = Some (w', r) ∧ tried ≡ₚ currentEndpoints c ∧
    ((∃ pre ep post w1 l1, tried = pre ++ ep :: post ∧ attempts pre w None w1 l1 ∧ attempt ep w1 = (w', r) ∧ final r)
     ∨ ∃ e, attempts tried w None w' (Some e) ∧ r = inr (EAllEndpointsFailed (length tried) (Some e))).
Proof.
  intros Hne Hs. unfold do_. set (eps := currentEndpoints c) in *.
  rewrite decide_False by (intros E%nil_length_inv; done).
  destruct (order_perm swaps (length eps) Hs) as (ord & -> & P). cbn [mbind option_bind].
  assert (Forall (λ i, i < length eps) ord) as Hlt.
  { rewrite P, Forall_forall. intros i Hi%elem_of_seq. lia. }
  assert (((λ i, eps !!! i) <$> ord) ≡ₚ eps) as Pt by (rewrite P; by rewrite lookup_total_seq).
  destruct (failover_ok eps ord None w Hlt) as (w' & r & E & H). exists ((λ i, eps !!! i) <$> ord), w', r.
  split; [done|]. split; [done|]. destruct H as [H|(l1 & Ha & ->)]; [by left|]. right.
  destruct (attempts_last _ _ _ _ _ Ha) as [e ->].
  { intros E0. rewrite E0 in Pt. by apply Permutation_nil_l in Pt. }
  exists e. split; [done|]. by rewrite (Permutation_length Pt).
Qed.

End Failover.

(** ** The client's view of the cluster *)

Section View.
Context {W : Type} (roundTrip : string → Request → W → W * option Response).
Context (errorEnvelope : list Z → option (string * string * string)).
Context (parseMembers : list Z → option (list clusterMember)) (urlScheme : string → option string).

Local Notation refresh := (RefreshTopology roundTrip errorEnvelope parseMembers urlScheme).
Local Notation request swaps meth path b c w := (do_ roundTrip errorEnvelope swaps meth path b c w).

(** The clients that [New] and any number of refreshes give, whatever the network does. *)
Inductive reachable : Client → Prop :=
  | reachable_new ss c : New ss = inl c → reachable c
  | reachable_refresh swaps c w w' c' err :
      reachable c → refresh swaps c w = Some (w', c', err) → reachable c'.

Definition view_ok (c : Client) : Prop :=
  seeds c ≠ [] ∧ ∃ es, endpoints c = Some es ∧ es ≠ [] ∧ Forall (λ ep, ep ≠ ""%string) es.

Lemma view_current c : view_ok c → currentEndpoints c = Endpoints c ∧ currentEndpoints c ≠ [].
Proof.
  intros (_ & es & E & Hne & _). unfold currentEndpoints, Endpoints. rewrite E.
  by rewrite decide_False by (by intros ?%nil_length_inv).
Qed.

Lemma New_ok ss c : New ss = inl c → view_ok c.
Proof.
  unfold New. case_decide; [done|]. case_decide as Hc; [done|]. intros [= <-]. split; [done|].
  exists (cleanSeeds ss). split; [done|]. split; [done|].
  apply Forall_forall. intros ep Hep. unfold cleanSeeds in Hep. by apply list_elem_of_filter in Hep as [? _].
Qed.

(** A usable member: it has an address and the response does not call it dead. *)
Definition usable (m : clusterMember) : Prop := m_Address m ≠ ""%string ∧ m_State m ≠ "dead"%string.
#[local] Instance usable_dec m : Decision (usable m).
Proof. unfold usable. apply _. Defined.

Lemma membersLoop_ok scheme ms : ∀ acc,
  membersLoop scheme ms acc
  = acc ++ filter (λ ep, ep ≠ ""%string) ((λ m, buildEndpoint scheme (m_Address m)) <$> filter usable ms).
Proof.
  induction ms as [|m ms IH]; intros acc; cbn [membersLoop]; [by rewrite app_nil_r|].
  rewrite filter_cons. destruct (decide (m_Address m = _)); [rewrite decide_False by (by intros []); by rewrite IH|].
  destruct (decide (m_State m = _)); [rewrite decide_False by (by intros []); by rewrite IH|].
  rewrite (decide_True (P := usable m)) by done. rewrite fmap_cons, filter_cons.
  case_decide; rewrite IH; [by rewrite <- app_assoc|done].
Qed.

Lemma client_refresh_ok swaps c w w' c' err :
  refresh swaps c w = Some (w', c', err) →
  seeds c' = seeds c ∧
  (c' = c ∨ err = None ∧ ∃ es, endpoints c' = Some es ∧ es ≠ [] ∧ Forall (λ ep, ep ≠ ""%string) es).
Proof.
  unfold RefreshTopology. destruct (request _ _ _ _ _ _) as [[w1 [resp|e]]|]; cbn [mbind option_bind];
    [|by intros [= <- <- <-]; auto|done].
  destruct (parseMembers _) as [ms|]; [|by intros [= <- <- <-]; auto].
  case_decide as Hl; [by intros [= <- <- <-]; auto|]. intros [= <- <- <-]. split; [done|]. right.
  split; [done|]. eexists. split; [done|]. split; [by intros E; rewrite E in Hl|].
  rewrite membersLoop_ok. cbn. apply Forall_forall. intros ep Hep. by apply list_elem_of_filter in Hep as [? _].
Qed.

Lemma reachable_ok c : reachable c → view_ok c.
Proof.
  induction 1 as [ss c H|swaps c w w' c' err _ IH H]; [by eapply New_ok|].
  destruct (client_refresh_ok _ _ _ _ _ _ H) as (Es & [->|(_ & Hv)]); [done|]. split; [rewrite Es; apply IH|done].
Qed.

(** C27: every request of a client, after any history of refreshes, returns: some order of
    the endpoints of its view is tried, each at most once; every attempt before the last
    fails with a transport error or a 5xx; the request returns the first answer below 500,
    or, when no endpoint gives one, the error with the last failure. *)
Theorem client_request_outcome c swaps meth path b w :
  reachable c →
  Forall (λ s, s.1 < length (Endpoints c) ∧ s.2 < length (Endpoints c)) swaps →
  ∃ tried w' r,
    request swaps meth path b c w = Some (w', r) ∧ tried ≡ₚ Endpoints c ∧ tried ≠ [] ∧
    ((∃ pre ep post w1 l1, tried = pre ++ ep :: post ∧
        attempts roundTrip errorEnvelope meth path b pre w None w1 l1 ∧
        tryOnce roundTrip errorEnvelope ep meth path b w1 = (w', r) ∧ final r)
     ∨ ∃ e, attempts roundTrip errorEnvelope meth path b tried w None w' (Some e) ∧
         r = inr (EAllEndpointsFailed (length tried) (Some e))).
Proof.
  intros Hc Hs. destruct (view_current c (reachable_ok c Hc)) as [E Hne]. rewrite <- E in *.
  destruct (do_ok roundTrip errorEnvelope meth path b swaps c w Hne Hs) as (tried & w' & r & H & P & O).
  exists tried, w', r. split; [done|]. split; [done|]. split; [|done].
  intros ->. by apply Permutation_nil_l in P.
Qed.

Lemma attempts_down meth path b eps w l w' l' :
  Forall (λ ep, ∀ req w, (roundTrip ep req w).2 = None) eps →
  attempts roundTrip errorEnvelope meth path b eps w l w' l' → eps ≠ [] → l' = Some EDispatch.
Proof.
  intros Hd H. induction H as [|ep eps w e w1 l w2 l2 Ht _ H IH]; [done|]. intros _.
  rewrite Forall_cons in Hd. destruct Hd as [Hep Hd]. unfold tryOnce in Ht.
  pose proof (Hep (MkReq meth (String.append ep path) b) w) as E. destruct (roundTrip _ _ _) as [w0 r]. cbn in E.
  subst r. injection Ht as <- <-. destruct eps; [by inversion H|by apply IH].
Qed.

Lemma request_down c swaps meth path b w :
  view_ok c → Forall (λ s, s.1 < length (Endpoints c) ∧ s.2 < length (Endpoints c)) swaps →
  Forall (λ ep, ∀ req w, (roundTrip ep req w).2 = None) (Endpoints c) →
  ∃ w', request swaps meth path b c w
        = Some (w', inr (EAllEndpointsFailed (length (Endpoints c)) (Some EDispatch))).
Proof.
  intros Hc Hs Hd. destruct (view_current c Hc) as [E Hne]. rewrite <- E in *.
  destruct (do_ok roundTrip errorEnvelope meth path b swaps c w Hne Hs) as (tried & w' & r & H & P & O).
  exists w'. rewrite H. do 2 f_equal. rewrite <- P in Hd.
  destruct O as [(pre & ep & post & w1 & l1 & -> & _ & Ht & Hf)|(e & Ha & ->)].
  - rewrite Forall_app, Forall_cons in Hd. destruct Hd as (_ & Hep & _). unfold tryOnce in Ht.
    pose proof (Hep (MkReq meth (String.append ep path) b) w1) as E1. destruct (roundTrip _ _ _) as [w0 r0].
    cbn in E1. subst r0. injection Ht as <- <-. by destruct Hf as (se & [=] & _).
  - assert (tried ≠ []) as Ht by (intros ->; by apply Permutation_nil_l in P).
    pose proof (attempts_down _ _ _ _ _ _ _ _ Hd Ha Ht) as E1. injection E1 as ->. by rewrite (Permutation_length P).
Qed.

(** A run of refreshes, with the shuffle of each. *)
Fixpoint refreshes (rs : list (list (nat * nat))) (c : Client) (w : W) : option (W * Client) :=
  match rs with
  | [] => Some (w, c)
  | swaps :: rs => '(w, c, _) ← refresh swaps c w; refreshes rs c w
  end.

(** Once the view holds only endpoints that do not answer, no number of refreshes
    changes it and every request fails, even when a seed outside the view answers: the
    seeds are not tried again. *)
Theorem client_view_stuck c rs swaps meth path b w :
  reachable c →
  Forall (λ ep, ∀ req w, (roundTrip ep req w).2 = None) (Endpoints c) →
  Forall (Forall (λ s, s.1 < length (Endpoints c) ∧ s.2 < length (Endpoints c))) (swaps :: rs) →
  ∃ w1 w2, refreshes rs c w = Some (w1, c) ∧
    request swaps meth path b c w1 = Some (w2, inr (EAllEndpointsFailed (length (Endpoints c)) (Some EDispatch))).
Proof.
  intros Hc%reachable_ok Hd Hs. rewrite Forall_cons in Hs. destruct Hs as [Hsw Hs].
  revert w. induction rs as [|sw rs IH]; intros w; cbn [refreshes].
  { destruct (request_down c swaps meth path b w Hc Hsw Hd) as [w2 E]. by exists w, w2. }
  rewrite Forall_cons in Hs. destruct Hs as [Hs1 Hs].
  destruct (request_down c sw "GET" "/cluster/members" None w Hc Hs1 Hd) as [w1 E].
  unfold RefreshTopology. rewrite E. cbn [mbind option_bind]. by apply IH.
Qed.

End View.

(** ** Request bodies *)

(** Reads with the given buffer sizes, up to the end of the file. *)
Fixpoint drain (sizes : list nat) (r : repeatableReader) : list Z * repeatableReader :=
  match sizes with
  | [] => ([], r)
  | n :: sizes =>
      match Read n r with
      | (None, r) => ([], r)
      | (Some chunk, r) => let '(rest, r) := drain sizes r in (chunk ++ rest, r)
      end
  end.

Lemma drain_ok sizes : ∀ r,
  Forall (λ n, 0 < n) sizes → length (data r) - pos r ≤ length sizes →
  drain sizes r = (drop (pos r) (data r), MkReader (data r) (pos r `max` length (data r))).
Proof.
  induction sizes as [|n sizes IH]; intros [d p] Hs Hl; cbn [drain Read data pos length] in *.
  { rewrite drop_ge, Nat.max_l by lia. done. }
  rewrite Forall_cons in Hs. destruct Hs as [Hn Hs].
  unfold Read. cbn [data pos]. destruct (Nat.leb_spec (length d) p).
  { rewrite drop_ge, Nat.max_l by lia. done. }
  rewrite IH; cbn [data pos]; [|done|rewrite length_take, length_drop; lia].
  rewrite <- drop_drop, length_take, length_drop. f_equal; [|f_equal; lia].
  destruct (decide (n ≤ length d - p)); [rewrite Nat.min_l by lia; apply take_drop|].
  rewrite Nat.min_r, (take_ge _ n), (drop_ge (drop p d)) by (rewrite ?length_drop; lia). apply app_nil_r.
Qed.

(** Whatever buffers the HTTP layer reads with, the reader of an attempt gives the whole
    body once and then the end of the file; each attempt has a reader of its own. *)
Theorem reader_complete sizes n bs :
  Forall (λ n, 0 < n) sizes → length bs ≤ length sizes →
  (drain sizes (newRepeatableReader bs)).1 = bs ∧
  (Read n (drain sizes (newRepeatableReader bs)).2).1 = None.
Proof.
  intros Hs Hl. rewrite drain_ok; cbn; [|done|lia]. split; [by rewrite drop_0|].
  unfold Read. cbn. by rewrite Nat.leb_refl.
Qed.

(** ** Witnesses *)

(** One seed that answers, and a member that does not. *)
Definition sample_world (ep : string) (_ : Request) (w : nat) : nat * option Response :=
  (S w, if decide (ep = "http://seed:1"%string) then Some (MkResp 200 [1%Z]) else None).
Definition sample_members (_ : list Z) : option (list clusterMember) :=
  Some [MkMember "b" " 10.0.0.1:80 " "alive"; MkMember "c" "10.0.0.2:80" "dead"; MkMember "d" "" "alive"].
Definition sample_scheme (s : string) : option string := if String.prefix "http://" s then Some "http"%string else None.
Definition sample_refresh := RefreshTopology sample_world (λ _, None) sample_members sample_scheme.

Definition seed_client : Client := MkClient ["http://seed:1"%string] (Some ["http://seed:1"%string]).
Definition stuck_client : Client := MkClient ["http://seed:1"%string] (Some ["http://10.0.0.1:80"%string]).

Example sample_new : New [" http://seed:1/ "; "/"]%string = inl seed_client.
Proof. by vm_compute. Qed.

Example sample_refreshed : sample_refresh [] seed_client 0 = Some (1, stuck_client, None).
Proof. by vm_compute. Qed.

Lemma client_request_outcome_witness :
  sample_refresh [] seed_client 0 = Some (1, stuck_client, None) ∧
  ∃ tried w' r,
    do_ sample_world (λ _, None) [(0, 0)] "GET" "/v1/cache/k" None stuck_client 1 = Some (w', r) ∧
    tried ≡ₚ Endpoints stuck_client ∧ tried ≠ [] ∧
    ((∃ pre ep post w1 l1, tried = pre ++ ep :: post ∧
        attempts sample_world (λ _, None) "GET" "/v1/cache/k" None pre 1 None w1 l1 ∧
        tryOnce sample_world (λ _, None) ep "GET" "/v1/cache/k" None w1 = (w', r) ∧ final r)
     ∨ ∃ e, attempts sample_world (λ _, None) "GET" "/v1/cache/k" None tried 1 None w' (Some e) ∧
         r = inr (EAllEndpointsFailed (length tried) (Some e))).
Proof.
  split; [by vm_compute|].
  refine (client_request_outcome sample_world (λ _, None) sample_members sample_scheme stuck_client [(0, 0)] _ _ _ 1 _ _).
  - eapply reachable_refresh; [exact (reachable_new _ _ _ _ _ _ sample_new)|exact sample_refreshed].
  - repeat constructor.
Defined.

Lemma client_view_stuck_witness :
  tryOnce sample_world (λ _, None) "http://seed:1" "GET" "/v1/cache/k" None 1 = (2, inl (MkResp 200 [1%Z])) ∧
  ∃ w1 w2,
    refreshes sample_world (λ _, None) sample_members sample_scheme [[]; [(0, 0)]] stuck_client 1
      = Some (w1, stuck_client) ∧
    do_ sample_world (λ _, None) [] "GET" "/v1/cache/k" None stuck_client w1
      = Some (w2, inr (EAllEndpointsFailed 1 (Some EDispatch))).
Proof.
  split; [by vm_compute|].
  refine (client_view_stuck sample_world (λ _, None) sample_members sample_scheme stuck_client [[]; [(0, 0)]] []
            _ _ None 1 _ _ _).
  - eapply reachable_refresh; [exact (reachable_new _ _ _ _ _ _ sample_new)|exact sample_refreshed].
  - repeat constructor.
  - repeat constructor.
Defined.
