(* ===== verification/Server.v ===== *)
(** * The server binary's client API (cmd/hypercache-server/main.go, oidc.go)

    The handlers of the REST API over a cache service, the route table with the scopes it
    requires, the paged key browser, the JWT claims that make an identity, and the policy
    that the binary ends up with at start-up.

    The cache that the handlers call is the class [CacheService] (HyperCache.v and
    Cluster.v model what is behind it).  Responses are their status and the fields of
    their JSON; the time stamps that are printed as text are left out, and the strings of
    the documents between client and server are taken to be UTF-8.  Parameters: the
    OIDC library's verification of a token, bcrypt, and the decoding of request bodies.

    The theorems: a value written through the API comes back unchanged from every node,
    whatever hops it took; no request without the write scope changes the cache; the
    pages of a listing are the listing; and what the start-up policy admits. *)

From stdpp Require Import base gmap strings list.
From Stdlib Require Import ZArith Lia.
From S2P Require Import Prelude Item Auth Transport Client.

(** ** The code *)

(** *** Values *)

Definition decodeBase64Bytes (s : string) : option (list Z) :=
  if (String.length s <? 4) || negb (Nat.modulo (String.length s) 4 =? 0) then None
  else
    match base64Decode (Z.of_nat <$> bytes_of s) with
    | None => None
    | Some out => if decide (length out = 0) then None else Some out
    end.

Definition stringBytes (s : string) : list Z := Z.of_nat <$> bytes_of s.

(** The text of a JSON value that is not a string. *)
Definition jsonText (j : jval) : list Z :=
  match j with JNull => stringBytes "null" | JString s => stringBytes s | JOther raw => raw end.

Definition itemValueAsBytes (v : gval) : list Z :=
  match v with
  | GBytes x => x
  | GString x => match decodeBase64Bytes x with Some decoded => decoded | None => stringBytes x end
  | GRaw x =>
      match unmarshalString x with
      | Some s => match decodeBase64Bytes s with Some decoded => decoded | None => stringBytes s end
      | None => jsonText x
      end
  | GNil => stringBytes "null"
  | GOther raw => raw
  end.

(** What [writeValue] sends: the bytes, and whether the content type is JSON. *)
Definition writeRawJSON (raw : jval) : list Z * bool :=
  match unmarshalString raw with
  | Some s => match decodeBase64Bytes s with Some decoded => (decoded, false) | None => (stringBytes s, false) end
  | None => (jsonText raw, true)
  end.
Definition writeValue (v : gval) : list Z * bool :=
  match v with
  | GBytes x => (x, false)
  | GString x => match decodeBase64Bytes x with Some decoded => (decoded, false) | None => (stringBytes x, false) end
  | GRaw x => writeRawJSON x
  | GNil => (stringBytes "null", true)
  | GOther raw => (raw, true)
  end.

(** [itemRemainingTTL]'s milliseconds. *)
Definition itemRemainingTTL (now : Z) (it : TItem) : Z :=
  if (ti_Expiration it <=? 0)%Z then 0%Z
  else Z.max (Z.quot (ti_LastAccess it + ti_Expiration it - now) 1000000) 0.

(** *** Responses *)

Definition codeBadRequest : string := "BAD_REQUEST".
Definition codeNotFound : string := "NOT_FOUND".
Definition codeDraining : string := "DRAINING".
Definition codeInternal : string := "INTERNAL".

Record batchDeleteResult := MkDelRes { d_Key : string; d_Deleted : bool; d_Owners : list string; d_Code : string }.
Record putResult := MkPutR { x_Key : string; x_Stored : bool; x_Bytes : nat; x_Owners : list string; x_Code : string }.

Record listKeysResponse := MkListResp {
  k_Keys : list string; k_NextCursor : option Z; k_TotalMatched : nat; k_Truncated : bool; k_PartialNodes : list string }.

Inductive apiBody :=
  | BErr (code : string)
  | BOk
  | BPut (key : string) (ttlMs : Z) (bytes : nat) (owners : list string)
  | BDelete (key : string) (owners : list string)
  | BOwners (key : string) (owners : list string)
  | BRaw (bs : list Z) (json : bool)
  | BEnvelope (e : batchGetResultWire)
  | BHead (version : Z) (origin : string) (ttlMs : Z) (owners : list string)
  | BBatchGet (rs : list batchGetResultWire)
  | BBatchPut (rs : list putResult)
  | BBatchDelete (rs : list batchDeleteResult)
  | BKeys (r : listKeysResponse)
  | BMe (id : string) (scopes capabilities : list string)
  | BCan (capability : string) (allowed : bool).

Record apiResponse := MkApi { a_Status : Z; a_Body : apiBody }.

Definition jsonErr (status : Z) (code : string) : apiResponse := MkApi status (BErr code).
Definition ok (b : apiBody) : apiResponse := MkApi 200 b.

Definition classifyAndRespond (e : error) : apiResponse :=
  match e with
  | ErrDraining => jsonErr 503 codeDraining
  | ErrNotOwner => jsonErr 503 codeInternal
  | _ => jsonErr 500 codeInternal
  end.

Definition classifyErrCode (e : error) : string :=
  match e with
  | ErrDraining => codeDraining
  | ErrNotOwner => codeInternal
  | _ => codeInternal
  end.

(** *** The cache behind the API *)

Class CacheService (S : Type) := {
  svc_Set : string → list Z → Z → S → S * option error;
  svc_GetWithInfo : string → S → S * option TItem;
  svc_Remove : string → S → S * option error;
  svc_Owners : string → S → list string;
  svc_Keys : string → Z → S → result (option ListKeysResult) }.

Section Handlers.
Context {S : Type} `{CacheService S} (now : Z).

(** A [ttl] query parameter: absent, not a duration, or a duration. *)
Definition handlePut (key : string) (ttlQ : qint) (body : list Z) (s : S) : S * apiResponse :=
  if decide (key = ""%string) then (s, jsonErr 400 codeBadRequest)
  else
    match match ttlQ with QAbsent => Some 0%Z | QBad => None | QInt d => Some d end with
    | None => (s, jsonErr 400 codeBadRequest)
    | Some ttl =>
        match svc_Set key body ttl s with
        | (s, Some e) => (s, classifyAndRespond e)
        | (s, None) => (s, ok (BPut key (Z.quot ttl 1000000) (length body) (svc_Owners key s)))
        end
    end.

(** [buildEnvelope] and [batchGetResultFromItem] make the same fields of an item. *)
Definition batchGetResultFromItem (key : string) (it : TItem) (s : S) : batchGetResultWire :=
  MkGetWire key true (string_of_bytes (base64Encode (itemValueAsBytes (ti_Value it)))) "base64"
    (itemRemainingTTL now it) (ti_Version it) (ti_Origin it) (svc_Owners key s).

Definition handleGet (wantsJSON : bool) (key : string) (s : S) : S * apiResponse :=
  if decide (key = ""%string) then (s, jsonErr 400 codeBadRequest)
  else
    match svc_GetWithInfo key s with
    | (s, None) => (s, jsonErr 404 codeNotFound)
    | (s, Some it) =>
        if wantsJSON then (s, ok (BEnvelope (batchGetResultFromItem key it s)))
        else let '(bs, json) := writeValue (ti_Value it) in (s, ok (BRaw bs json))
    end.

Definition handleHead (key : string) (s : S) : S * apiResponse :=
  if decide (key = ""%string) then (s, MkApi 400 BOk)
  else
    match svc_GetWithInfo key s with
    | (s, None) => (s, MkApi 404 BOk)
    | (s, Some it) => (s, ok (BHead (ti_Version it) (ti_Origin it) (itemRemainingTTL now it) (svc_Owners key s)))
    end.

Definition handleDelete (key : string) (s : S) : S * apiResponse :=
  if decide (key = ""%string) then (s, jsonErr 400 codeBadRequest)
  else
    let owners := svc_Owners key s in
    match svc_Remove key s with
    | (s, Some e) => (s, classifyAndRespond e)
    | (s, None) => (s, ok (BDelete key owners))
    end.

Definition handleOwners (key : string) (s : S) : apiResponse :=
  if decide (key = ""%string) then jsonErr 400 codeBadRequest else ok (BOwners key (svc_Owners key s)).

Fixpoint batchGetLoop (keys : list string) (s : S) : S * list batchGetResultWire :=
  match keys with
  | [] => (s, [])
  | key :: keys =>
      if decide (key = ""%string) then
        let '(s, rs) := batchGetLoop keys s in (s, MkGetWire key false "" "" 0 0 "" [] :: rs)
      else
        match svc_GetWithInfo key s with
        | (s, None) => let '(s, rs) := batchGetLoop keys s in (s, MkGetWire key false "" "" 0 0 "" [] :: rs)
        | (s, Some it) =>
            let r := batchGetResultFromItem key it s in
            let '(s, rs) := batchGetLoop keys s in (s, r :: rs)
        end
  end.

(** The request bodies that decode are [Some]. *)
Definition handleBatchGet (req : option (list string)) (s : S) : S * apiResponse :=
  match req with
  | None => (s, jsonErr 400 codeBadRequest)
  | Some keys => let '(s, rs) := batchGetLoop keys s in (s, ok (BBatchGet rs))
  end.

Definition decodeBatchPutValue (item : batchPutItemWire) : option (list Z) :=
  if decide (p_ValueEncoding item ≠ "base64"%string) then Some (stringBytes (p_Value item))
  else base64Decode (Z.of_nat <$> bytes_of (p_Value item)).

Definition applyBatchPutItem (item : batchPutItemWire) (s : S) : S * putResult :=
  if decide (p_Key item = ""%string) then (s, MkPutR (p_Key item) false 0 [] codeBadRequest)
  else
    match decodeBatchPutValue item with
    | None => (s, MkPutR (p_Key item) false 0 [] codeBadRequest)
    | Some value =>
        match svc_Set (p_Key item) value (i64 (p_TTLMs item * 1000000)) s with
        | (s, Some e) => (s, MkPutR (p_Key item) false 0 [] (classifyErrCode e))
        | (s, None) => (s, MkPutR (p_Key item) true (length value) (svc_Owners (p_Key item) s) "")
        end
    end.

Fixpoint batchPutLoop (items : list batchPutItemWire) (s : S) : S * list putResult :=
  match items with
  | [] => (s, [])
  | item :: items =>
      let '(s, r) := applyBatchPutItem item s in
      let '(s, rs) := batchPutLoop items s in (s, r :: rs)
  end.

Definition handleBatchPut (req : option (list batchPutItemWire)) (s : S) : S * apiResponse :=
  match req with
  | None => (s, jsonErr 400 codeBadRequest)
  | Some items => let '(s, rs) := batchPutLoop items s in (s, ok (BBatchPut rs))
  end.

Fixpoint batchDeleteLoop (keys : list string) (s : S) : S * list batchDeleteResult :=
  match keys with
  | [] => (s, [])
  | key :: keys =>
      if decide (key = ""%string) then
        let '(s, rs) := batchDeleteLoop keys s in (s, MkDelRes key false [] codeBadRequest :: rs)
      else
        let owners := svc_Owners key s in
        match svc_Remove key s with
        | (s, Some e) =>
            let '(s, rs) := batchDeleteLoop keys s in (s, MkDelRes key false owners (classifyErrCode e) :: rs)
        | (s, None) => let '(s, rs) := batchDeleteLoop keys s in (s, MkDelRes key true owners "" :: rs)
        end
  end.

Definition handleBatchDelete (req : option (list string)) (s : S) : S * apiResponse :=
  match req with
  | None => (s, jsonErr 400 codeBadRequest)
  | Some keys => let '(s, rs) := batchDeleteLoop keys s in (s, ok (BBatchDelete rs))
  end.

(** *** The key browser *)

Definition listKeysDefaultLimit : Z := 100.
Definition listKeysMaxLimit : Z := 500.
Definition listKeysDefaultMax : Z := 10000.
Definition listKeysHardMax : Z := 50000.

Record listKeysParams := MkParams { Pattern : string; Cursor : Z; Limit : Z; MaxResults : Z }.

Definition parseBoundedPositiveInt (q : qint) (def hardMax : Z) : option Z :=
  match q with
  | QAbsent => Some def
  | QBad => None
  | QInt n => if (n <=? 0)%Z then None else Some (if (hardMax <? n)%Z then hardMax else n)
  end.

Definition parseListKeysQuery (pattern : string) (cursorQ limitQ maxQ : qint) : option listKeysParams :=
  cursor ← match cursorQ with
           | QAbsent => Some 0%Z
           | QBad => None
           | QInt n => if (n <? 0)%Z then None else Some n
           end;
  limit ← parseBoundedPositiveInt limitQ listKeysDefaultLimit listKeysMaxLimit;
  maxResults ← parseBoundedPositiveInt maxQ listKeysDefaultMax listKeysHardMax;
  Some (MkParams pattern cursor limit maxResults).

(** The page of a result. *)
Definition listPage (params : listKeysParams) (res : ListKeysResult) : listKeysResponse :=
  let total := Z.of_nat (length (lk_Keys res)) in
  let start := Z.min (Cursor params) total in
  let end_ := Z.min (start + Limit params) total in
  MkListResp (take (Z.to_nat (end_ - start)) (drop (Z.to_nat start) (lk_Keys res)))
    (if (end_ <? total)%Z then Some end_ else None) (length (lk_Keys res)) (lk_Truncated res) (lk_PartialNodes res).

Definition handleListKeys (pattern : string) (cursorQ limitQ maxQ : qint) (s : S) : apiResponse :=
  match parseListKeysQuery pattern cursorQ limitQ maxQ with
  | None => jsonErr 400 codeBadRequest
  | Some params =>
      match svc_Keys (Pattern params) (MaxResults params) s with
      | Err _ => jsonErr 400 codeBadRequest
      | Ok None => jsonErr 501 codeInternal
      | Ok (Some res) => ok (BKeys (listPage params res))
      end
  end.

(** *** Identities *)

Definition handleMe (identity : option Identity) : apiResponse :=
  match identity with
  | None => jsonErr 500 codeInternal
  | Some id => ok (BMe (id_ID id) (id_Scopes id) (Capabilities id))
  end.

Definition isKnownCapability (s : string) : bool :=
  bool_decide (s ∈ ["cache.read"; "cache.write"; "cache.admin"]%string).

Definition handleCan (capability : string) (identity : option Identity) : apiResponse :=
  if decide (capability = ""%string) then jsonErr 400 codeBadRequest
  else if negb (isKnownCapability capability) then jsonErr 400 codeBadRequest
  else
    match identity with
    | None => jsonErr 500 codeInternal
    | Some id => ok (BCan capability (HasCapability capability id))
    end.

(** *** Routes *)

Inductive handler :=
  | Hhealthz | Hspec | HListKeys | HPut | HGet | HHead | HDelete | HOwners | HMe | HCan
  | HBatchGet | HBatchPut | HBatchDelete.

(** A segment of a path pattern; a parameter takes one segment. *)
Inductive pseg := PLit (s : string) | PKey.

Definition routes : list (string * list pseg * string * handler) :=
  [("GET", [PLit "healthz"], "", Hhealthz);
   ("GET", [PLit "v1"; PLit "openapi.yaml"], "", Hspec);
   ("GET", [PLit "v1"; PLit "cache"; PLit "keys"], ScopeRead, HListKeys);
   ("PUT", [PLit "v1"; PLit "cache"; PKey], ScopeWrite, HPut);
   ("GET", [PLit "v1"; PLit "cache"; PKey], ScopeRead, HGet);
   ("HEAD", [PLit "v1"; PLit "cache"; PKey], ScopeRead, HHead);
   ("DELETE", [PLit "v1"; PLit "cache"; PKey], ScopeWrite, HDelete);
   ("GET", [PLit "v1"; PLit "owners"; PKey], ScopeRead, HOwners);
   ("GET", [PLit "v1"; PLit "me"], ScopeRead, HMe);
   ("GET", [PLit "v1"; PLit "me"; PLit "can"], ScopeRead, HCan);
   ("POST", [PLit "v1"; PLit "cache"; PLit "batch"; PLit "get"], ScopeRead, HBatchGet);
   ("POST", [PLit "v1"; PLit "cache"; PLit "batch"; PLit "put"], ScopeWrite, HBatchPut);
   ("POST", [PLit "v1"; PLit "cache"; PLit "batch"; PLit "delete"], ScopeWrite, HBatchDelete)]%string.

(** The key a pattern binds, when it matches. *)
Fixpoint matchPath (pat : list pseg) (path : list string) (key : string) : option string :=
  match pat, path with
  | [], [] => Some key
  | PLit l :: pat, seg :: path => if decide (l = seg) then matchPath pat path key else None
  | PKey :: pat, seg :: path => if decide (seg = ""%string) then None else matchPath pat path seg
  | _, _ => None
  end.

(** The first route registered that matches. *)
Fixpoint findRoute (rs : list (string * list pseg * string * handler)) (meth : string) (path : list string)
    : option (string * handler * string) :=
  match rs with
  | [] => None
  | (m, pat, scope, h) :: rs =>
      if decide (m = meth) then
        match matchPath pat path "" with
        | Some key => Some (scope, h, key)
        | None => findRoute rs meth path
        end
      else findRoute rs meth path
  end.

(** A request as the handlers read it. *)
Record apiRequest := MkApiReq {
  r_method : string; r_path : list string; r_auth : Auth.Request; r_wantsJSON : bool; r_body : list Z;
  r_ttl : qint; r_q : string; r_cursor : qint; r_limit : qint; r_max : qint; r_capability : string;
  r_keys : option (list string); r_items : option (list batchPutItemWire) }.

Definition runHandler (h : handler) (key : string) (identity : option Identity) (r : apiRequest) (s : S)
    : S * apiResponse :=
  match h with
  | Hhealthz | Hspec => (s, ok BOk)
  | HListKeys => (s, handleListKeys (r_q r) (r_cursor r) (r_limit r) (r_max r) s)
  | HPut => handlePut key (r_ttl r) (r_body r) s
  | HGet => handleGet (r_wantsJSON r) key s
  | HHead => handleHead key s
  | HDelete => handleDelete key s
  | HOwners => (s, handleOwners key s)
  | HMe => (s, handleMe identity)
  | HCan => (s, handleCan (r_capability r) identity)
  | HBatchGet => handleBatchGet (r_keys r) s
  | HBatchPut => handleBatchPut (r_items r) s
  | HBatchDelete => handleBatchDelete (r_keys r) s
  end.

Context (bcryptCompare : string → string → bool).

(** [registerClientRoutes]: a request meets the policy's middleware, then the handler. *)
Definition serve (p : Policy) (r : apiRequest) (s : S) : S * apiResponse :=
  match findRoute routes (r_method r) (r_path r) with
  | None => (s, MkApi 404 BOk)
  | Some (scope, h, key) =>
      if decide (scope = ""%string) then runHandler h key None r s
      else
        match Verify bcryptCompare scope (r_auth r) p with
        | Pass id => runHandler h key (Some id) r s
        | StatusUnauthorized => (s, MkApi 401 BOk)
        | StatusForbidden => (s, MkApi 403 BOk)
        end
  end.

End Handlers.

(** *** JWT claims *)

Inductive claim := CString (s : string) | CArray (items : list (option string)) | COther.

Definition bearerFromHeader (header : string) : option string :=
  if negb (String.prefix "Bearer " header) then None
  else
    let token := String.substring 7 (String.length header - 7) header in
    if decide (token = ""%string) then None else Some token.

Definition extractIdentityClaim (claims : gmap string claim) (name : string) : option string :=
  match claims !! name with
  | Some (CString id) => if decide (id = ""%string) then None else Some id
  | _ => None
  end.

(** [strings.Fields]: the runs of bytes between Unicode spaces ([n] bounds the length). *)
Fixpoint fieldsLoop (n : nat) (bs cur : list nat) : list (list nat) :=
  let flush := if decide (cur = []) then [] else [cur] in
  match n with
  | O => flush
  | Datatypes.S n =>
      match bs with
      | [] => flush
      | b :: r =>
          let bs' := trimLeft bs in
          if decide (length bs' < length bs) then flush ++ fieldsLoop n bs' [] else fieldsLoop n r (cur ++ [b])
      end
  end.
Definition Fields (s : string) : list string :=
  (λ f, string_of_bytes (Z.of_nat <$> f)) <$> fieldsLoop (Datatypes.S (String.length s)) (bytes_of s) [].

Definition extractScopeClaim (claims : gmap string claim) (name : string) : list Auth.Scope :=
  match claims !! name with
  | None => []
  | Some COther => []
  | Some (CString v) => filter (λ t, t ∈ [ScopeRead; ScopeWrite; ScopeAdmin]) (Fields v)
  | Some (CArray v) => filter (λ t, t ∈ [ScopeRead; ScopeWrite; ScopeAdmin]) (omap id v)
  end.

(** [verifyJWT] is the library's verification of a token, with its claims. *)
Definition makeOIDCServerVerify (verifyJWT : string → option (gmap string claim)) (identityClaim scopeClaim : string)
    (req : Auth.Request) : result Identity :=
  match bearerFromHeader (authorization req) with
  | None => Err (ErrOther "oidc: missing bearer")
  | Some raw =>
      match verifyJWT raw with
      | None => Err (ErrOther "oidc: verify")
      | Some claims =>
          match extractIdentityClaim claims identityClaim with
          | None => Err (ErrOther "oidc: identity claim")
          | Some id => Ok (MkIdentity id (extractScopeClaim claims scopeClaim))
          end
      end
  end.

(** *** Start-up *)

Record oidcConfig := MkOIDC { OIDCIssuer : string; OIDCAudience : string; OIDCIdentityClaim : string; OIDCScopeClaim : string }.

Definition validateOIDCConfig (c : oidcConfig) : option error :=
  if decide (OIDCIssuer c ≠ ""%string ∧ OIDCAudience c = ""%string) then Some (ErrOther "missing audience")
  else if decide (OIDCAudience c ≠ ""%string ∧ OIDCIssuer c = ""%string) then Some (ErrOther "missing issuer")
  else None.

Section Startup.
Context (bcryptCost : string → option Z) (decodeFile : string → result fileSchema).
(** OIDC discovery for an issuer and an audience, which may fail. *)
Context (discover : string → string → option (string → option (gmap string claim))).

(** [loadConfig], as far as authentication goes. *)
Definition loadConfig (configPath legacyToken : string) (c : oidcConfig) : result Policy :=
  match LoadFromEnv bcryptCost decodeFile configPath legacyToken with
  | Err e => Err e
  | Ok policy => match validateOIDCConfig c with Some e => Err e | None => Ok policy end
  end.

Definition with_AllowAnonymous (p : Policy) : Policy :=
  MkPolicy (Tokens p) (BasicIdentities p) (CertIdentities p) (ServerVerify p) true (AllowBasicWithoutTLS p).
Definition with_ServerVerify (f : Auth.Request → result Identity) (p : Policy) : Policy :=
  MkPolicy (Tokens p) (BasicIdentities p) (CertIdentities p) (Some f) (AllowAnonymous p) (AllowBasicWithoutTLS p).

Definition attachOIDCVerifier (c : oidcConfig) (p : Policy) : option Policy :=
  if decide (OIDCIssuer c = ""%string) then Some p
  else
    match discover (OIDCIssuer c) (OIDCAudience c) with
    | None => None
    | Some verifyJWT =>
        Some (with_ServerVerify (makeOIDCServerVerify verifyJWT (OIDCIdentityClaim c) (OIDCScopeClaim c)) p)
    end.

(** [run] up to the policy that the API is started with; [None] is the exit with status 1. *)
Definition startPolicy (configPath legacyToken : string) (c : oidcConfig) : option Policy :=
  match loadConfig configPath legacyToken c with
  | Err _ => None
  | Ok policy => attachOIDCVerifier c (if IsConfigured policy then policy else with_AllowAnonymous policy)
  end.

End Startup.

(** ** Values through the cluster *)

Lemma length_base64Encode n : ∀ bs, length bs ≤ n → ∃ k, length (base64Encode bs) = 4 * k ∧ (bs ≠ [] → 0 < k).
Proof.
  induction n as [|n IH]; intros [|x [|y [|z r]]] Hl; cbn in Hl; try lia; try by exists 0.
  - exists 1. cbn. auto with lia.
  - exists 1. cbn. auto with lia.
  - destruct (IH r) as (k & E & _); [lia|]. exists (Datatypes.S k). cbn [base64Encode length]. rewrite E. split; [lia|lia].
Qed.

Lemma length_string_of_bytes bs : String.length (string_of_bytes bs) = length bs.
Proof. unfold string_of_bytes. induction bs as [|b bs IH]; [done|]. cbn. by rewrite <- IH. Qed.

(** The base64 text of a value is always recognised and decoded; the empty value has the
    empty text. *)
Lemma decode_or_bytes v :
  Forall (λ b, byte b) v →
  match decodeBase64Bytes (string_of_bytes (base64Encode v)) with
  | Some decoded => decoded
  | None => stringBytes (string_of_bytes (base64Encode v))
  end = v.
Proof.
  intros Hv. destruct v as [|x v]; [done|]. unfold decodeBase64Bytes.
  destruct (length_base64Encode _ (x :: v) (Nat.le_refl _)) as (k & E & Hk). specialize (Hk ltac:(done)).
  rewrite length_string_of_bytes, E. destruct (Nat.ltb_spec (4 * k) 4); [lia|].
  rewrite (Nat.mul_comm 4 k), Nat.Div0.mod_mul. cbn [orb negb Nat.eqb]. by rewrite base64_roundtrip.
Qed.

(** A hop between nodes: a forwarded set (replication, hand-off, repair) or a forwarded
    get. *)
Inductive hop := HopSet (now : Z) (replicate : bool) | HopGet (now : Z).
Definition carry (h : hop) (it : TItem) : TItem :=
  match h with
  | HopSet now rep => setItem now (setRequest it rep)
  | HopGet now => default zeroTItem (decodeGetBody now (MkGetBody (Some true) (Some (marshalItem it)))).1
  end.

(** The forms a value takes. *)
Definition holds (v : list Z) (g : gval) : Prop :=
  g = GBytes v ∨ g = GString (string_of_bytes (base64Encode v)) ∨ g = GRaw (JString (string_of_bytes (base64Encode v))).

Lemma carry_holds v h it :
  Forall (λ b, byte b) v → holds v (ti_Value it) → holds v (ti_Value (carry h it)).
Proof.
  intros Hv%toValidUTF8_base64. unfold holds.
  destruct h; cbn; intros [-> | [-> | ->]]; cbn; rewrite ?Hv; auto.
Qed.

(** A string after some hops. *)
Definition crossed (hs : list hop) (s : string) : string := match hs with [] => s | _ => toValidUTF8 s end.

Lemma crossed_cons h hs s : crossed (h :: hs) s = crossed hs (toValidUTF8 s).
Proof. destruct hs; [done|]. symmetry. apply toValidUTF8_idem. Qed.

Lemma carry_fields h it :
  ti_Version (carry h it) = ti_Version it ∧ ti_Origin (carry h it) = toValidUTF8 (ti_Origin it).
Proof. by destruct h. Qed.

Lemma holds_bytes v g : Forall (λ b, byte b) v → holds v g → itemValueAsBytes g = v ∧ writeValue g = (v, false).
Proof.
  intros Hv. pose proof (decode_or_bytes v Hv) as E.
  intros [-> | [-> | ->]]; cbn; [done|..]; (split; [done|]); destruct (decodeBase64Bytes _); by rewrite E.
Qed.

Lemma carries_ok v hs : Forall (λ b, byte b) v → ∀ it, holds v (ti_Value it) →
  let it' := foldl (λ it h, carry h it) it hs in
  holds v (ti_Value it') ∧ ti_Version it' = ti_Version it ∧ ti_Origin it' = crossed hs (ti_Origin it).
Proof.
  intros Hv. induction hs as [|h hs IH]; intros it Hh; cbn [foldl]; [done|].
  destruct (IH (carry h it) (carry_holds v h it Hv Hh)) as (H1 & H2 & H3).
  destruct (carry_fields h it) as (E1 & E2). cbn zeta. by rewrite H2, H3, E1, E2, crossed_cons.
Qed.

(** C21: a value that a client sends in a batch is the value the server stores, and whatever
    forwarded sets and gets the item goes through, the node that ends up with it answers
    a single get with exactly those bytes, and a batch get with an envelope that the
    client decodes to them, with the key, the item's version and its origin (after a hop,
    with the bytes that are not UTF-8 replaced). *)
Theorem api_value_roundtrip {S} `{CacheService S} now key (bsi : BatchSetItem) it hs node (s : S) :
  Forall (λ b, byte b) (s_Value bsi) →
  ti_Value it = GBytes (s_Value bsi) →
  decodeBatchPutValue (putWire bsi) = Some (s_Value bsi) ∧
  let it' := foldl (λ it h, carry h it) it hs in
  writeValue (ti_Value it') = (s_Value bsi, false) ∧
  itemFromBatchGet (batchGetResultFromItem now key it' s) node =
    Some (MkItemView key (s_Value bsi) (itemRemainingTTL now it') (ti_Version it)
      (crossed hs (ti_Origin it)) node (svc_Owners key s)).
Proof.
  intros Hv Ev. split; [by apply base64_roundtrip|].
  destruct (carries_ok (s_Value bsi) hs Hv it) as (Hh & Evr & Eo); [by left|].
  cbn zeta in *. set (it' := foldl _ _ _) in *. destruct (holds_bytes _ _ Hv Hh) as [Eb Ew]. split; [done|].
  unfold itemFromBatchGet, batchGetResultFromItem. cbn [g_Value g_ValueEncoding g_Key g_TTLMs g_Version g_Origin g_Owners].
  unfold decodeEnvelopeValue. cbn [e_ValueEncoding e_Value]. rewrite decide_True by auto.
  rewrite Eb, base64_roundtrip by done. cbn [mbind option_bind]. by rewrite Evr, Eo.
Qed.

(** A text value that the Go API stored, unlike one written through the server, is not
    safe: one that happens to be base64 is served decoded. *)
Example text_value_decoded : writeValue (GString "test") = ([181; 235; 45]%Z, false).
Proof. by vm_compute. Qed.

(** ** Batches *)

Section Batches.
Context {S : Type} `{CacheService S}.

(** The items a batch stores: those with a key and a value that decodes. *)
Definition storable (item : batchPutItemWire) : option (string * list Z * Z) :=
  if decide (p_Key item = ""%string) then None
  else value ← decodeBatchPutValue item; Some (p_Key item, value, i64 (p_TTLMs item * 1000000)).

Definition setAll (its : list (string * list Z * Z)) (s : S) : S :=
  foldl (λ s '(k, v, ttl), (svc_Set k v ttl s).1) s its.

Lemma batchPutLoop_ok items : ∀ s : S,
  (batchPutLoop items s).1 = setAll (omap storable items) s ∧
  x_Key <$> (batchPutLoop items s).2 = p_Key <$> items ∧
  Forall2 (λ item r, storable item = None → x_Stored r = false ∧ x_Code r = codeBadRequest) items (batchPutLoop items s).2.
Proof.
  induction items as [|item items IH]; intros s; cbn [batchPutLoop]; [by split_and!|].
  destruct (applyBatchPutItem item s) as [s1 r] eqn:E. destruct (batchPutLoop items s1) as [s2 rs] eqn:El.
  specialize (IH s1). rewrite El in IH. cbn [fst snd] in *. destruct IH as (E1 & E2 & E3).
  rewrite !fmap_cons, E2. cbn [omap list_omap]. unfold applyBatchPutItem in E. unfold storable at 1.
  case_decide; [injection E as <- <-; split_and!; [done|done|]; constructor; [|done]; by intros|].
  destruct (decodeBatchPutValue item) as [v|] eqn:Ed; cbn [mbind option_bind].
  2:{ injection E as <- <-. split_and!; [done|done|]. constructor; [|done]. by intros. }
  change (setAll ((p_Key item, v, i64 (p_TTLMs item * 1000000)) :: omap storable items) s)
    with (setAll (omap storable items) (svc_Set (p_Key item) v (i64 (p_TTLMs item * 1000000)) s).1).
  destruct (svc_Set _ _ _ s) as [s' [e|]]; injection E as <- <-; split_and!; try done;
    (constructor; [|done]); unfold storable; rewrite decide_False, Ed by done; done.
Qed.

(** A batch put answers every item in order and stores exactly the items with a key and a
    value that decodes, one after the other; the others fail alone. *)
Theorem batch_put_outcome req (s : S) :
  handleBatchPut req s =
    match req with
    | None => (s, jsonErr 400 codeBadRequest)
    | Some items => (setAll (omap storable items) s, ok (BBatchPut (batchPutLoop items s).2))
    end.
Proof.
  destruct req as [items|]; [|done]. cbn. destruct (batchPutLoop_ok items s) as (E & _).
  destruct (batchPutLoop items s) as [s' rs]. cbn in *. by rewrite E.
Qed.

End Batches.

(** ** Authorization *)

Section Authorized.
Context {S : Type} `{CacheService S} (now : Z) (bcryptCompare : string → string → bool).

(** What reading does to the cache. *)
Inductive reads : S → S → Prop :=
  | reads_nil s : reads s s
  | reads_get key s s' : reads (svc_GetWithInfo key s).1 s' → reads s s'.

Lemma reads_one key (s : S) : reads s (svc_GetWithInfo key s).1.
Proof. apply (reads_get key), reads_nil. Qed.

Lemma batchGetLoop_reads keys : ∀ s : S, reads s (batchGetLoop now keys s).1.
Proof.
  induction keys as [|key keys IH]; intros s; cbn [batchGetLoop]; [constructor|].
  case_decide; [specialize (IH s); by destruct (batchGetLoop now keys s)|].
  destruct (svc_GetWithInfo key s) as [s1 o] eqn:E. apply (reads_get key). rewrite E. cbn [fst].
  specialize (IH s1). destruct o; destruct (batchGetLoop now keys s1); exact IH.
Qed.

Definition mutating (h : handler) : bool :=
  match h with HPut | HDelete | HBatchPut | HBatchDelete => true | _ => false end.

Lemma runHandler_reads h key id r (s : S) : mutating h = false → reads s (runHandler now h key id r s).1.
Proof.
  destruct h; intros Hm; try done; cbn [runHandler fst]; try apply reads_nil.
  - unfold handleGet. case_decide; [apply reads_nil|]. pose proof (reads_one key s) as Hr.
    destruct (svc_GetWithInfo key s) as [s' [it|]]; [|exact Hr]. destruct (r_wantsJSON r); [exact Hr|].
    destruct (writeValue _). exact Hr.
  - unfold handleHead. case_decide; [apply reads_nil|]. pose proof (reads_one key s) as Hr.
    by destruct (svc_GetWithInfo key s) as [s' [it|]].
  - unfold handleBatchGet. destruct (r_keys r) as [ks|]; [|apply reads_nil].
    pose proof (batchGetLoop_reads ks s) as Hr. by destruct (batchGetLoop now ks s).
Qed.

Lemma findRoute_in rs meth path scope h key :
  findRoute rs meth path = Some (scope, h, key) → ∃ m pat, (m, pat, scope, h) ∈ rs.
Proof.
  induction rs as [|[[[m pat] sc] h'] rs IH]; [done|]. cbn [findRoute].
  assert (findRoute rs meth path = Some (scope, h, key) → ∃ m0 pat0, (m0, pat0, scope, h) ∈ (m, pat, sc, h') :: rs) as Hrec.
  { intros E. destruct (IH E) as (m0 & pat0 & Hin). exists m0, pat0. by right. }
  case_decide; [|done]. destruct (matchPath pat path "") as [k|]; [|done].
  intros [= -> -> ->]. exists m, pat. by left.
Qed.

(** The scopes of the table, checked route by route. *)
Definition route_ok (rt : string * list pseg * string * handler) : bool :=
  let '(_, _, scope, h) := rt in
  if mutating h then bool_decide (scope = ScopeWrite)
  else bool_decide (scope = ScopeRead)
       || bool_decide (scope = ""%string) && match h with Hhealthz | Hspec => true | _ => false end.

Lemma routes_scopes scope h m pat :
  (m, pat, scope, h) ∈ routes →
  (mutating h = true ∧ scope = ScopeWrite) ∨ (mutating h = false ∧ scope = ScopeRead) ∨
  (scope = ""%string ∧ (h = Hhealthz ∨ h = Hspec)).
Proof.
  assert (forallb route_ok routes = true) as Hall by (vm_compute; reflexivity).
  intros Hin. rewrite forallb_forall in Hall. apply list_elem_of_In, Hall in Hin. unfold route_ok in Hin.
  destruct (mutating h) eqn:Em; [left; by apply bool_decide_eq_true in Hin|].
  apply orb_true_iff in Hin as [Hs|Hs]; [right; left; by apply bool_decide_eq_true in Hs|].
  apply andb_true_iff in Hs as [Hs Hh]. apply bool_decide_eq_true in Hs. right; right. split; [done|].
  destruct h; auto; done.
Qed.

(** C22: a request whose credentials do not carry the write scope leaves the cache as a
    sequence of reads does, and one that passes no scope check at all (401 or 403) leaves
    it untouched; the routes that ask for no scope reveal nothing of the cache. *)
Theorem api_mutation_authorized p r (s : S) :
  (∀ id, Verify bcryptCompare ScopeWrite (r_auth r) p ≠ Pass id) →
  reads s (serve now bcryptCompare p r s).1 ∧
  ((∀ id, Verify bcryptCompare ScopeRead (r_auth r) p ≠ Pass id) →
     (serve now bcryptCompare p r s).1 = s ∧
     (a_Status (serve now bcryptCompare p r s).2 = 401 ∨ a_Status (serve now bcryptCompare p r s).2 = 403 ∨
      a_Status (serve now bcryptCompare p r s).2 = 404 ∨ serve now bcryptCompare p r s = (s, ok BOk))%Z).
Proof.
  intros Hw. unfold serve. destruct (findRoute routes (r_method r) (r_path r)) as [[[scope h] key]|] eqn:Er.
  2:{ split; [apply reads_nil|]. intros _. cbn; auto. }
  destruct (findRoute_in _ _ _ _ _ _ Er) as (m & pat & Hin).
  destruct (routes_scopes _ _ _ _ Hin) as [[Hm ->]|[[Hm ->]|[-> Hh]]].
  - rewrite decide_False by done. destruct (Verify bcryptCompare ScopeWrite (r_auth r) p) as [id| |] eqn:Ev.
    + by destruct (Hw id).
    + split; [apply reads_nil|]. intros _. cbn; auto.
    + split; [apply reads_nil|]. intros _. cbn; auto.
  - rewrite decide_False by done. destruct (Verify bcryptCompare ScopeRead (r_auth r) p) as [id| |] eqn:Ev.
    + split; [by apply runHandler_reads|]. intros Hr. by destruct (Hr id).
    + split; [apply reads_nil|]. intros _. cbn; auto.
    + split; [apply reads_nil|]. intros _. cbn; auto.
  - rewrite decide_True by done.
    destruct Hh as [-> | ->]; (split; [apply reads_nil|]); intros _; cbn; auto 6.
Qed.

End Authorized.

(** ** The key browser *)

(** A client that follows the cursors of at most [n] pages of one result. *)
Fixpoint browse (n : nat) (params : listKeysParams) (res : ListKeysResult) : list (list string) :=
  match n with
  | O => []
  | Datatypes.S n =>
      let page := listPage params res in
      k_Keys page ::
        match k_NextCursor page with
        | None => []
        | Some c => browse n (MkParams (Pattern params) c (Limit params) (MaxResults params)) res
        end
  end.

Lemma browse_ok n : ∀ params res,
  (0 < Limit params)%Z → (0 ≤ Cursor params)%Z →
  length (lk_Keys res) < Z.to_nat (Cursor params) + n →
  concat (browse n params res) = drop (Z.to_nat (Cursor params)) (lk_Keys res) ∧
  Forall (λ page, Z.of_nat (length page) ≤ Limit params)%Z (browse n params res).
Proof.
  induction n as [|n IH]; intros params res Hl Hc Hn.
  { cbn. rewrite drop_ge by lia. done. }
  cbn [browse]. unfold listPage. cbn [k_Keys k_NextCursor].
  set (keys := lk_Keys res) in *. set (cur := Cursor params) in *.
  destruct (Z.ltb_spec (Z.min (Z.min cur (Z.of_nat (length keys)) + Limit params) (Z.of_nat (length keys)))
              (Z.of_nat (length keys))) as [Hlt|Hge].
  - assert (Z.min cur (Z.of_nat (length keys)) = cur) as -> by lia.
    assert (Z.min (cur + Limit params) (Z.of_nat (length keys)) = cur + Limit params)%Z as -> by lia.
    replace (cur + Limit params - cur)%Z with (Limit params) by lia.
    destruct (IH (MkParams (Pattern params) (cur + Limit params) (Limit params) (MaxResults params)) res) as [E F];
      cbn [Limit Cursor]; [done|lia|fold keys; lia|]. cbn [Limit Cursor] in E, F. fold keys in E.
    split; [|constructor; [rewrite length_take; lia|exact F]].
    cbn [concat]. rewrite E. rewrite Z2Nat.inj_add, <- drop_drop by lia. apply take_drop.
  - split; [|constructor; [rewrite length_take, length_drop; lia|constructor]].
    cbn [concat]. rewrite app_nil_r. destruct (decide (cur ≤ Z.of_nat (length keys))%Z).
    + rewrite (Z.min_l cur) by lia. rewrite take_ge; [done|rewrite length_drop; lia].
    + rewrite (drop_ge keys (Z.to_nat cur)) by lia. rewrite drop_ge, take_nil by lia. done.
Qed.

(** Every accepted query has a limit within 1 and 500 and a bound within 1 and 50000, and
    following the cursors from the first page of a result gives every key of the result
    once, in order, in pages of at most the limit. *)
Theorem list_pages_complete pattern limitQ maxQ params res n :
  parseListKeysQuery pattern QAbsent limitQ maxQ = Some params →
  length (lk_Keys res) < n →
  (1 ≤ Limit params ≤ 500)%Z ∧ (1 ≤ MaxResults params ≤ 50000)%Z ∧
  concat (browse n params res) = lk_Keys res ∧
  Forall (λ page, Z.of_nat (length page) ≤ Limit params)%Z (browse n params res).
Proof.
  assert (∀ q def hardMax m, parseBoundedPositiveInt q def hardMax = Some m → (1 ≤ def ≤ hardMax)%Z → (1 ≤ m ≤ hardMax)%Z) as Hb.
  { intros q def hardMax m. destruct q as [| |k]; cbn; [intros [= <-]; lia|done|].
    destruct (Z.leb_spec k 0); [done|]. destruct (Z.ltb_spec hardMax k); intros [= <-]; lia. }
  intros Hp Hn. unfold parseListKeysQuery in Hp. cbn [mbind option_bind] in Hp.
  destruct (parseBoundedPositiveInt limitQ _ _) as [l|] eqn:El; [|done]. cbn [mbind option_bind] in Hp.
  destruct (parseBoundedPositiveInt maxQ _ _) as [mx|] eqn:Em; [|done]. cbn [mbind option_bind] in Hp.
  apply (inj Some) in Hp as <-. cbn [Limit MaxResults].
  apply Hb in El; [|unfold listKeysDefaultLimit, listKeysMaxLimit; lia].
  apply Hb in Em; [|unfold listKeysDefaultMax, listKeysHardMax; lia].
  unfold listKeysMaxLimit, listKeysHardMax in *. split; [done|]. split; [done|].
  destruct (browse_ok n (MkParams pattern 0 l mx) res) as [E F]; cbn [Limit Cursor]; [lia|lia|cbn; lia|].
  split; [by rewrite E, drop_0|done].
Qed.

(** ** The policy at start-up *)

Section StartupProofs.
Context (bcryptCost : string → option Z) (decodeFile : string → result fileSchema).
Context (discover : string → string → option (string → option (gmap string claim))).
Context (bcryptCompare : string → string → bool).

Lemma extractScopeClaim_known claims name : Forall (λ sc, sc ∈ [ScopeRead; ScopeWrite; ScopeAdmin]) (extractScopeClaim claims name).
Proof.
  unfold extractScopeClaim. destruct (claims !! name) as [[v|v|]|]; try constructor;
    apply Forall_forall; intros sc Hsc; by apply list_elem_of_filter in Hsc as [? _].
Qed.

(** The policy the API starts with admits anonymous callers when the loaded policy says
    so, or when it is not configured without the OIDC hook. *)
Lemma startPolicy_ok configPath legacyToken c p :
  startPolicy bcryptCost decodeFile discover configPath legacyToken c = Some p →
  ∃ p0, LoadFromEnv bcryptCost decodeFile configPath legacyToken = Ok p0 ∧
    Tokens p = Tokens p0 ∧ BasicIdentities p = BasicIdentities p0 ∧ CertIdentities p = CertIdentities p0 ∧
    AllowAnonymous p = AllowAnonymous p0 || negb (IsConfigured p0).
Proof.
  unfold startPolicy, loadConfig. destruct (LoadFromEnv _ _ _ _) as [p0|e]; [|done].
  destruct (validateOIDCConfig c); [done|]. unfold attachOIDCVerifier. intros H. exists p0. split; [done|].
  destruct (IsConfigured p0); [rewrite orb_false_r|rewrite orb_true_r];
    (case_decide; [by injection H as <-|]); (destruct (discover _ _); [|done]); by injection H as <-.
Qed.

(** A policy with nothing but a hook. *)
Lemma resolve_hook_only f anon basicPlain req :
  resolve bcryptCompare req (MkPolicy [] [] [] (Some f) anon basicPlain)
  = match f req with Ok id => Some id | Err _ => if anon then Some anonymous else None end.
Proof.
  unfold resolve, resolveBearer, resolveBasic, resolveCert. cbn [Tokens BasicIdentities CertIdentities length].
  rewrite decide_True by auto. by rewrite !decide_True by done.
Qed.

(** C23: with OIDC alone configured, the server admits everyone: a request without a valid
    JWT passes every route as the anonymous identity with all three scopes, although one
    with a valid JWT that lacks the scope is refused. *)
Theorem oidc_only_admits_everyone c verifyJWT :
  OIDCIssuer c ≠ ""%string → OIDCAudience c ≠ ""%string →
  discover (OIDCIssuer c) (OIDCAudience c) = Some verifyJWT →
  ∃ p, startPolicy bcryptCost decodeFile discover "" "" c = Some p ∧
    ∀ req scope, scope ∈ [ScopeRead; ScopeWrite; ScopeAdmin] →
      match makeOIDCServerVerify verifyJWT (OIDCIdentityClaim c) (OIDCScopeClaim c) req with
      | Err _ => Verify bcryptCompare scope req p = Pass anonymous
      | Ok id => Verify bcryptCompare scope req p = if HasScope scope id then Pass id else StatusForbidden
      end.
Proof.
  intros Hi Ha Hd. unfold startPolicy, loadConfig, LoadFromEnv. rewrite !decide_False by tauto.
  unfold validateOIDCConfig. rewrite !decide_False by tauto. unfold attachOIDCVerifier.
  rewrite decide_False, Hd by done. eexists. split; [reflexivity|]. intros req scope Hs.
  assert (scope ≠ ""%string ∧ HasScope scope anonymous = true) as [Hne Hsc].
  { split; [|by apply bool_decide_eq_true]. intros ->. apply (bool_decide_eq_true_2 _) in Hs. by vm_compute in Hs. }
  unfold Verify, with_ServerVerify. cbn [IsConfigured]. cbn. rewrite resolve_hook_only.
  destruct (makeOIDCServerVerify _ _ _ req) as [id|e]; rewrite decide_True by done; [done|]. by rewrite Hsc.
Qed.

(** With a policy that is configured and does not allow anonymous callers, a request that
    none of its credentials nor the hook recognises is refused. *)
Theorem start_policy_closed configPath legacyToken c p p0 req scope :
  startPolicy bcryptCost decodeFile discover configPath legacyToken c = Some p →
  LoadFromEnv bcryptCost decodeFile configPath legacyToken = Ok p0 →
  IsConfigured p0 = true → AllowAnonymous p0 = false →
  resolveBearer (authorization req) p = None → resolveBasic bcryptCompare req p = None → resolveCert req p = None →
  (∀ f id, ServerVerify p = Some f → f req ≠ Ok id) →
  Verify bcryptCompare scope req p = StatusUnauthorized.
Proof.
  intros Hp Hl Hc Hanon H1 H2 H3 Hf. destruct (startPolicy_ok _ _ _ _ Hp) as (p1 & El & _ & _ & _ & Ea).
  rewrite El in Hl. injection Hl as ->. rewrite Hanon, Hc in Ea. unfold Verify, resolve. rewrite H1, H2, H3, Ea.
  destruct (ServerVerify p) as [f|]; [|done]. destruct (f req) as [id|e] eqn:E; [by destruct (Hf f id)|done].
Qed.

End StartupProofs.

(** ** The client against the server *)

Fixpoint dropString (n : nat) (s : string) : string :=
  match n, s with Datatypes.S n, String _ s => dropString n s | _, _ => s end.

(** The segments of a path. *)
Fixpoint segmentsLoop (bs cur : list nat) : list (list nat) :=
  match bs with
  | [] => [cur]
  | b :: r => if decide (b = 47) then cur :: segmentsLoop r [] else segmentsLoop r (cur ++ [b])
  end.
Definition segments (path : string) : list string :=
  drop 1 ((λ f, string_of_bytes (Z.of_nat <$> f)) <$> segmentsLoop (bytes_of path) []).

Lemma dropString_append s s' : dropString (String.length s) (String.append s s') = s'.
Proof.
  induction s as [|c s IH]; [by destruct s'|].
  change (String.append (String c s) s') with (String c (String.append s s')). exact IH.
Qed.

Section ClientServer.
Context {S : Type} `{CacheService S} (now : Z) (bcryptCompare : string → string → bool) (p : Policy).
(** The rest of a request as the framework presents it, and how a body is printed. *)
Context (present : Client.Request → apiRequest) (render : apiBody → list Z).

(** A network in which every endpoint that answers is this server's API. *)
Definition serverNet (ep : string) (req : Client.Request) (w : gmap string S) : gmap string S * option Response :=
  match w !! ep with
  | None => (w, None)
  | Some s =>
      let r := present req in
      let r := MkApiReq (Client.method req) (segments (dropString (String.length ep) (url req))) (r_auth r)
                 (r_wantsJSON r) (default [] (Client.body req)) (r_ttl r) (r_q r) (r_cursor r) (r_limit r) (r_max r)
                 (r_capability r) (r_keys r) (r_items r) in
      let '(s', resp) := serve now bcryptCompare p r s in
      (<[ep := s']> w, Some (MkResp (a_Status resp) (render (a_Body resp))))
  end.

Context (errorEnvelope : list Z → option (string * string * string)).
Context (parseMembers : list Z → option (list clusterMember)) (urlScheme : string → option string).

Lemma members_404 ep w w' r :
  tryOnce serverNet errorEnvelope ep "GET" "/cluster/members" None w = (w', r) →
  match r with inl _ => False | inr (EStatus se) => HTTPStatus se = 404%Z | inr e => e = EDispatch end.
Proof.
  unfold tryOnce, serverNet. destruct (w !! ep) as [s|]; [|by intros [= <- <-]].
  cbn [url Client.method Client.body]. rewrite dropString_append.
  change (segments "/cluster/members") with ["cluster"; "members"]%string.
  unfold serve. cbn [r_method r_path].
  change (findRoute routes "GET" ["cluster"; "members"]%string) with (@None (string * handler * string)).
  cbn [a_Status]. cbn. intros [= <- <-]. apply classify_status.
Qed.

(** A client of this server never learns the topology: the API has no route for
    /cluster/members (it is on the management port), so whatever endpoints answer, a
    refresh fails and leaves the client as it was. *)
Theorem topology_refresh_fails c swaps w :
  reachable serverNet errorEnvelope parseMembers urlScheme c →
  Forall (λ s, s.1 < length (Endpoints c) ∧ s.2 < length (Endpoints c)) swaps →
  ∃ w' e, RefreshTopology serverNet errorEnvelope parseMembers urlScheme swaps c w = Some (w', c, Some e).
Proof.
  intros Hc%reachable_ok Hs. destruct (view_current c Hc) as [E Hne]. rewrite <- E in Hs.
  destruct (do_ok serverNet errorEnvelope "GET" "/cluster/members" None swaps c w Hne Hs) as (tried & w' & r & Hd & _ & O).
  unfold RefreshTopology. rewrite Hd. cbn [mbind option_bind]. destruct r as [resp|e]; [|by eauto].
  exfalso. destruct O as [(pre & ep & post & w1 & l1 & _ & _ & Ht & _)|(e & _ & [=])].
  by apply members_404 in Ht.
Qed.

End ClientServer.

(** ** Witnesses *)

(** A store that keeps what it is given. *)
Definition sample_store := gmap string TItem.
#[local] Instance sample_service : CacheService sample_store := {|
  svc_Set := λ k v ttl s, (<[k := MkTItem k (GBytes v) ttl 1 "a" 0 0]> s, None);
  svc_GetWithInfo := λ k s, (s, s !! k);
  svc_Remove := λ k s, (delete k s, None);
  svc_Owners := λ _ _, ["a"%string];
  svc_Keys := λ _ _ _, Ok None |}.

Definition sample_batch_item : BatchSetItem := MkSetItem "k" [0; 255; 7; 10]%Z 5000000000.
Definition sample_stored : TItem := MkTItem "k" (GBytes [0; 255; 7; 10]%Z) 5000000000 4 "a" 0 0.

Lemma api_value_roundtrip_witness :
  decodeBatchPutValue (putWire sample_batch_item) = Some [0; 255; 7; 10]%Z ∧
  let it' := foldl (λ it h, carry h it) sample_stored [HopSet 1 true; HopGet 2; HopSet 3 false] in
  writeValue (ti_Value it') = ([0; 255; 7; 10]%Z, false) ∧
  itemFromBatchGet (batchGetResultFromItem 5 "k" it' (∅ : sample_store)) "b" =
    Some (MkItemView "k" [0; 255; 7; 10]%Z (itemRemainingTTL 5 it') 4 "a" "b" ["a"%string]).
Proof.
  refine (api_value_roundtrip 5 "k" sample_batch_item sample_stored [HopSet 1 true; HopGet 2; HopSet 3 false] "b"
            (∅ : sample_store) _ _).
  - repeat constructor; cbn; lia.
  - vm_compute. reflexivity.
Defined.

(** A policy with one token that may only read, and a delete that carries it. *)
Definition read_only_policy : Policy := MkPolicy [MkToken "ci" "t" [ScopeRead]] [] [] None false false.
Definition sample_delete : apiRequest :=
  MkApiReq "DELETE" ["v1"; "cache"; "k"]%string (MkRequest "Bearer t" None) false [] QAbsent "" QAbsent QAbsent QAbsent
    "" None None.

Lemma api_mutation_authorized_witness :
  serve 5 (λ _ _, false) read_only_policy sample_delete ({["k"%string := sample_stored]} : sample_store)
    = ({["k"%string := sample_stored]}, MkApi 403 BOk) ∧
  reads ({["k"%string := sample_stored]} : sample_store)
    (serve 5 (λ _ _, false) read_only_policy sample_delete ({["k"%string := sample_stored]} : sample_store)).1.
Proof.
  split; [vm_compute; reflexivity|].
  apply (api_mutation_authorized 5 (λ _ _, false) read_only_policy sample_delete).
  intros id. vm_compute. discriminate.
Defined.

Definition sample_oidc : oidcConfig := MkOIDC "https://idp" "cache" "sub" "scope".
(** The only valid token may only read. *)
Definition sample_jwt (raw : string) : option (gmap string claim) :=
  if decide (raw = "good"%string) then Some {["sub"%string := CString "ann"; "scope"%string := CString " read other"]} else None.

Lemma oidc_only_admits_everyone_witness :
  ∃ p, startPolicy (λ _, None) (λ _, Err ErrKeyNotFound) (λ _ _, Some sample_jwt) "" "" sample_oidc = Some p ∧
    Verify (λ _ _, false) ScopeAdmin (MkRequest "" None) p = Pass anonymous ∧
    Verify (λ _ _, false) ScopeWrite (MkRequest "Bearer good" None) p = StatusForbidden ∧
    Verify (λ _ _, false) ScopeRead (MkRequest "Bearer good" None) p = Pass (MkIdentity "ann" ["read"%string]).
Proof.
  destruct (oidc_only_admits_everyone (λ _, None) (λ _, Err ErrKeyNotFound) (λ _ _, Some sample_jwt) (λ _ _, false)
              sample_oidc sample_jwt) as (p & Hp & H).
  - discriminate.
  - discriminate.
  - reflexivity.
  - exists p. split; [exact Hp|]. split_and!.
    + refine (H (MkRequest "" None) ScopeAdmin _). apply (bool_decide_unpack _). exact I.
    + refine (H (MkRequest "Bearer good" None) ScopeWrite _). apply (bool_decide_unpack _). exact I.
    + refine (H (MkRequest "Bearer good" None) ScopeRead _). apply (bool_decide_unpack _). exact I.
Defined.

Lemma topology_refresh_fails_witness :
  ∃ w' e, RefreshTopology (serverNet 5 (λ _ _, false) read_only_policy (λ _, sample_delete) (λ _, [])) (λ _, None)
            (λ _, Some [MkMember "b" "b:7946" "alive"]) (λ _, Some "http"%string) [] seed_client
            ({["http://seed:1"%string := (∅ : sample_store)]} : gmap string sample_store)
          = Some (w', seed_client, Some e).
Proof.
  refine (topology_refresh_fails 5 (λ _ _, false) read_only_policy (λ _, sample_delete) (λ _, []) (λ _, None)
            (λ _, Some [MkMember "b" "b:7946" "alive"]) (λ _, Some "http"%string) seed_client []
            ({["http://seed:1"%string := (∅ : sample_store)]} : gmap string sample_store) _ _).
  - exact (reachable_new _ _ _ _ _ _ sample_new).
  - constructor.
Defined.
