(* ===== verification/Stats.v ===== *)
(** * Statistics (pkg/stats/histogramcollector.go, pkg/backend/dist_latency.go)

    The histogram collector of one statistic, with its recorders as interleaved threads
    at the grain of the atomic operations and of the lock of the sample ring; and the
    fixed-bucket latency histogram of the distributed backend.

    A recorder is its position in [record]; the schedule is a list of thread indexes.
    What [float64] does to a result is left out: a median is a numerator over two, and
    the index that [percentileOf] computes is an argument.

    The theorems: whatever the interleaving, once the recorders are done the count, sum,
    minimum and maximum are those of the recorded values and the sample ring holds the
    latest samples in order; the compare-and-swap loops cannot run for ever; the median
    and the percentiles are where they should be; every latency is in its bucket. *)

From stdpp Require Import base gmap strings list sorting.
From Stdlib Require Import ZArith Lia.
From S2P Require Import Prelude.

(** ** The code *)

Definition MaxInt64 : Z := 2 ^ 63 - 1.
Definition MinInt64 : Z := - 2 ^ 63.
Definition DefaultSampleCapacity : Z := 4096.

Record statShard := MkStat {
  count : Z; sum : Z; minV : Z; maxV : Z;      (* atomic.Int64 *)
  locked : bool; samples : list Z; pos : nat; written : nat }.

(** [NewHistogramStatsCollectorWithCapacity]'s capacity, and a fresh shard. *)
Definition sampleCap (capacity : Z) : Z := if (capacity <=? 0)%Z then DefaultSampleCapacity else capacity.
Definition newShard (capacity : Z) : statShard :=
  MkStat 0 0 MaxInt64 MinInt64 false (replicate (Z.to_nat (sampleCap capacity)) 0%Z) 0 0.

(** Where a recorder is, with its value. *)
Inductive rpc :=
  | RCount (v : Z) | RSum (v : Z)
  | RMinLoad (v : Z) | RMinCAS (v cur : Z)
  | RMaxLoad (v : Z) | RMaxCAS (v cur : Z)
  | RTryLock (v : Z) | RWrite (v : Z) | RDone (v : Z).

(** The write to the ring, under the lock, and the unlock. *)
Definition ringWrite (v : Z) (s : statShard) : statShard :=
  MkStat (count s) (sum s) (minV s) (maxV s) false (<[pos s := v]> (samples s))
    (Nat.modulo (pos s + 1) (length (samples s)))
    (if written s <? length (samples s) then written s + 1 else written s).

(** One atomic step of [record]. *)
Definition recordStep (pc : rpc) (s : statShard) : rpc * statShard :=
  let with_agg c su mi ma lk := MkStat c su mi ma lk (samples s) (pos s) (written s) in
  match pc with
  | RCount v => (RSum v, with_agg (i64 (count s + 1)) (sum s) (minV s) (maxV s) (locked s))
  | RSum v => (RMinLoad v, with_agg (count s) (i64 (sum s + v)) (minV s) (maxV s) (locked s))
  | RMinLoad v => (if (minV s <=? v)%Z then RMaxLoad v else RMinCAS v (minV s), s)
  | RMinCAS v cur =>
      if (minV s =? cur)%Z then (RMaxLoad v, with_agg (count s) (sum s) v (maxV s) (locked s)) else (RMinLoad v, s)
  | RMaxLoad v => (if (v <=? maxV s)%Z then RTryLock v else RMaxCAS v (maxV s), s)
  | RMaxCAS v cur =>
      if (maxV s =? cur)%Z then (RTryLock v, with_agg (count s) (sum s) (minV s) v (locked s)) else (RMaxLoad v, s)
  | RTryLock v =>
      if locked s then (RDone v, s) else (RWrite v, with_agg (count s) (sum s) (minV s) (maxV s) true)
  | RWrite v => (RDone v, ringWrite v s)
  | RDone v => (RDone v, s)
  end.

(** The collector's recorders of one statistic.  [hist] is the sequence of values written
    to the ring, for the theorems. *)
Record sys := MkSys { threads : list rpc; shard : statShard; hist : list Z }.

Inductive label := Start (v : Z) | Step (t : nat).

Definition step (l : label) (y : sys) : option sys :=
  match l with
  | Start v => Some (MkSys (threads y ++ [RCount v]) (shard y) (hist y))
  | Step t =>
      match threads y !! t with
      | None | Some (RDone _) => None
      | Some pc =>
          let '(pc', s') := recordStep pc (shard y) in
          Some (MkSys (<[t := pc']> (threads y)) s' (match pc with RWrite v => hist y ++ [v] | _ => hist y end))
      end
  end.

Fixpoint run (ls : list label) (y : sys) : option sys :=
  match ls with [] => Some y | l :: ls => y ← step l y; run ls y end.

Definition initial (capacity : Z) : sys := MkSys [] (newShard capacity) [].

(** The samples that [snapshotSorted] copies, oldest first, and the sorted snapshot. *)
Definition snapshot (s : statShard) : list Z :=
  if written s <? length (samples s) then take (written s) (samples s)
  else drop (pos s) (samples s) ++ take (pos s) (samples s).
Definition snapshotSorted (s : statShard) : list Z :=
  if 0 <? written s then merge_sort Z.le (snapshot s) else [].

(** [medianOf] before its conversion to floating point: a numerator over two; the two
    middle values are added as int64. *)
Definition medianOf (sorted : list Z) : Z :=
  let n := length sorted in
  if n =? 0 then 0%Z
  else if Nat.modulo n 2 =? 1 then (2 * (sorted !!! Nat.div n 2))%Z
  else i64 ((sorted !!! (Nat.div n 2 - 1)) + (sorted !!! Nat.div n 2)).

(** [percentileOf]: the percentile is at most zero, at least one, or between, with the
    truncated product of the length and the percentile. *)
Inductive pct := PLow | PHigh | PMid (idx : nat).
Definition percentileOf (sorted : list Z) (p : pct) : Z :=
  let n := length sorted in
  if n =? 0 then 0%Z
  else
    match p with
    | PLow => sorted !!! 0
    | PHigh => sorted !!! (n - 1)
    | PMid idx => sorted !!! (if n <=? idx then n - 1 else idx)
    end.

(** *** Latency buckets *)

Definition latencyBuckets : list Z :=
  [50000; 100000; 250000; 500000; 1000000; 2000000; 5000000; 10000000; 25000000; 50000000;
   100000000; 250000000; 500000000; 1000000000]%Z.

(** The index that [observe] adds to. *)
Fixpoint bucketLoop (ns : Z) (ubs : list Z) : nat :=
  match ubs with [] => 0 | ub :: ubs => if (ns <=? ub)%Z then 0 else Datatypes.S (bucketLoop ns ubs) end.
Definition observe (ns : Z) (buckets : list Z) : list Z :=
  let i := bucketLoop ns latencyBuckets in <[i := u64 ((buckets !!! i) + 1)]> buckets.
Definition newDistLatencyCollector : list Z := replicate (length latencyBuckets + 1) 0%Z.

(** ** The sample ring *)

(** The last [cap] elements. *)
Definition lastn (cap : nat) (h : list Z) : list Z := drop (length h - cap) h.

Definition ring_ok (cap : nat) (h : list Z) (s : statShard) : Prop :=
  length (samples s) = cap ∧
  if length h <? cap
  then samples s = h ++ replicate (cap - length h) 0%Z ∧ pos s = length h ∧ written s = length h
  else drop (pos s) (samples s) ++ take (pos s) (samples s) = lastn cap h ∧ pos s < cap ∧ written s = cap.

Lemma lastn_snoc cap h v : cap ≤ length h → 0 < cap → lastn cap (h ++ [v]) = drop 1 (lastn cap h) ++ [v].
Proof.
  intros Hc Hp. unfold lastn. rewrite length_app, drop_drop. cbn [length].
  rewrite drop_app_le by lia. do 2 f_equal. lia.
Qed.

Lemma ringWrite_ok cap h v s : 0 < cap → ring_ok cap h s → ring_ok cap (h ++ [v]) (ringWrite v s).
Proof.
  intros Hp [Hl H]. unfold ring_ok, ringWrite. cbn [samples pos written]. rewrite length_insert, length_app. cbn [length].
  split; [done|]. rewrite Hl. destruct (Nat.ltb_spec (length h) cap) as [Hh|Hh].
  - destruct H as (Es & Ep & Ew). rewrite Ew, Ep. destruct (Nat.ltb_spec (length h) cap); [|lia].
    assert (<[length h := v]> (samples s) = (h ++ [v]) ++ replicate (cap - (length h + 1)) 0%Z) as Ei.
    { rewrite Es. replace (cap - length h) with (1 + (cap - (length h + 1))) by lia.
      rewrite insert_app_r_alt by lia. rewrite Nat.sub_diag. cbn. by rewrite <- app_assoc. }
    rewrite Ei. destruct (Nat.ltb_spec (length h + 1) cap) as [Hn|Hn].
    + split; [done|]. split; [rewrite Nat.mod_small by lia; lia|lia].
    + replace (length h + 1) with cap by lia. rewrite Nat.Div0.mod_same. split; [|lia].
      rewrite Nat.sub_diag. cbn [replicate]. rewrite drop_0, take_0, !app_nil_r. unfold lastn. rewrite length_app. cbn [length].
      replace (length h + 1 - cap) with 0 by lia. by rewrite drop_0.
  - destruct H as (E & Hps & Ew). destruct (Nat.ltb_spec (length h + 1) cap); [lia|]. rewrite Ew, Nat.ltb_irrefl.
    rewrite (lastn_snoc cap h v Hh Hp), <- E. split_and!; [|apply Nat.mod_upper_bound; lia|done].
    destruct (lookup_lt_is_Some_2 (samples s) (pos s)) as [x Ex]; [lia|].
    rewrite (drop_S _ _ _ Ex) at 1. cbn [app drop]. rewrite drop_0, <- app_assoc.
    assert (take (pos s) (samples s) ++ [v] = take (pos s + 1) (<[pos s := v]> (samples s))) as Et.
    { rewrite Nat.add_1_r. rewrite (take_S_r _ _ v) by (apply list_lookup_insert_eq; lia).
      by rewrite take_insert_ge by lia. }
    assert (drop (Datatypes.S (pos s)) (samples s) = drop (pos s + 1) (<[pos s := v]> (samples s))) as Ed.
    { rewrite Nat.add_1_r. by rewrite drop_insert_lt by lia. }
    rewrite Et, Ed. destruct (decide (pos s + 1 < cap)).
    + by rewrite Nat.mod_small by lia.
    + replace (pos s + 1) with cap by lia. rewrite Nat.Div0.mod_same, drop_0, take_0, app_nil_r.
      rewrite drop_ge, take_ge; [done|rewrite length_insert; lia..].
Qed.

Lemma stats_snapshot_ok cap h s : ring_ok cap h s → snapshot s = lastn cap h.
Proof.
  intros [Hl H]. unfold snapshot. rewrite Hl. destruct (Nat.ltb_spec (length h) cap) as [Hh|Hh].
  - destruct H as (Es & _ & ->). destruct (Nat.ltb_spec (length h) cap); [|lia].
    rewrite Es, take_app_length. unfold lastn. replace (length h - cap) with 0 by lia. by rewrite drop_0.
  - destruct H as (E & _ & ->). by rewrite Nat.ltb_irrefl.
Qed.

(** ** The recorders *)

Definition val (pc : rpc) : Z :=
  match pc with
  | RCount v | RSum v | RMinLoad v | RMinCAS v _ | RMaxLoad v | RMaxCAS v _ | RTryLock v | RWrite v | RDone v => v
  end.
Definition counted (pc : rpc) : bool := match pc with RCount _ => false | _ => true end.
Definition summed (pc : rpc) : bool := match pc with RCount _ | RSum _ => false | _ => true end.
Definition mined (pc : rpc) : bool :=
  match pc with RCount _ | RSum _ | RMinLoad _ | RMinCAS _ _ => false | _ => true end.
Definition maxed (pc : rpc) : bool :=
  match pc with RTryLock _ | RWrite _ | RDone _ => true | _ => false end.
Definition finished (pc : rpc) : bool := match pc with RDone _ => true | _ => false end.

Fixpoint tsum (f : rpc → Z) (l : list rpc) : Z := match l with [] => 0 | pc :: l => f pc + tsum f l end.

Lemma tsum_app f l l' : tsum f (l ++ l') = (tsum f l + tsum f l')%Z.
Proof. induction l as [|x l IH]; cbn [tsum app]; [done|]. rewrite IH. lia. Qed.

Lemma tsum_insert f l i x y : l !! i = Some x → tsum f (<[i := y]> l) = (tsum f l - f x + f y)%Z.
Proof.
  intros Hi. rewrite <- (take_drop_middle l i x Hi) at 2. rewrite insert_take_drop by (by eapply lookup_lt_Some).
  rewrite !tsum_app. cbn. lia.
Qed.

Lemma tsum_le f g l : (∀ pc, pc ∈ l → f pc ≤ g pc)%Z → (tsum f l ≤ tsum g l)%Z.
Proof.
  induction l as [|x l IH]; intros H; cbn; [done|]. pose proof (H x ltac:(left)). assert (tsum f l ≤ tsum g l)%Z; [|lia].
  apply IH. intros pc Hpc. apply H. by right.
Qed.

Definition b2z (b : bool) : Z := if b then 1 else 0.
Definition occ (x : Z) (l : list Z) : Z := Z.of_nat (length (filter (x =.) l)).

Record inv (cap : nat) (y : sys) : Prop := {
  inv_count : count (shard y) = i64 (tsum (λ pc, b2z (counted pc)) (threads y));
  inv_sum : sum (shard y) = i64 (tsum (λ pc, if summed pc then val pc else 0%Z) (threads y));
  inv_min_le : ∀ pc, pc ∈ threads y → mined pc = true → (minV (shard y) ≤ val pc)%Z;
  inv_min_in : minV (shard y) = MaxInt64 ∨ minV (shard y) ∈ val <$> threads y;
  inv_cas : ∀ v cur, RMinCAS v cur ∈ threads y → (v < cur)%Z;
  inv_max_ge : ∀ pc, pc ∈ threads y → maxed pc = true → (val pc ≤ maxV (shard y))%Z;
  inv_max_in : maxV (shard y) = MinInt64 ∨ maxV (shard y) ∈ val <$> threads y;
  inv_casmax : ∀ v cur, RMaxCAS v cur ∈ threads y → (cur < v)%Z;
  inv_lock : tsum (λ pc, b2z (match pc with RWrite _ => true | _ => false end)) (threads y) = b2z (locked (shard y));
  inv_ring : ring_ok cap (hist y) (shard y);
  inv_hist : ∀ x, (occ x (hist y) ≤ tsum (λ pc, b2z (finished pc && bool_decide (x = val pc))) (threads y))%Z }.

Lemma vals_insert (l : list rpc) t pc pc' : l !! t = Some pc → val pc' = val pc → val <$> <[t := pc']> l = val <$> l.
Proof.
  intros Ht Hv. rewrite list_fmap_insert, Hv. apply list_insert_id. by rewrite list_lookup_fmap, Ht.
Qed.

(** A thread of the new system is an old one or the one that moved. *)
Lemma elem_insert (l : list rpc) t pc pc' : pc ∈ <[t := pc']> l → pc = pc' ∨ pc ∈ l.
Proof.
  intros [i Hi]%list_elem_of_lookup. destruct (decide (i = t)) as [->|Hne].
  - apply list_lookup_insert_Some in Hi as [(_ & -> & _)|(? & _)]; [by left|done].
  - rewrite list_lookup_insert_ne in Hi by done. right. by eapply list_elem_of_lookup_2.
Qed.

Lemma ring_agg cap h s c su mi ma lk :
  ring_ok cap h s → ring_ok cap h (MkStat c su mi ma lk (samples s) (pos s) (written s)).
Proof. done. Qed.

(** The invariant after one thread moved, from what its step did to each part. *)
Lemma inv_move cap y t pc pc' s' h' :
  inv cap y → threads y !! t = Some pc → val pc' = val pc →
  count s' = i64 (count (shard y) + (b2z (counted pc') - b2z (counted pc))) →
  sum s' = i64 (sum (shard y) + ((if summed pc' then val pc else 0) - (if summed pc then val pc else 0))) →
  (minV s' ≤ minV (shard y))%Z → (mined pc' = true → minV s' ≤ val pc)%Z →
  (minV s' = minV (shard y) ∨ minV s' = val pc) → (∀ v cur, pc' = RMinCAS v cur → v < cur)%Z →
  (maxV (shard y) ≤ maxV s')%Z → (maxed pc' = true → val pc ≤ maxV s')%Z →
  (maxV s' = maxV (shard y) ∨ maxV s' = val pc) → (∀ v cur, pc' = RMaxCAS v cur → cur < v)%Z →
  b2z (locked s') = (b2z (locked (shard y)) - b2z (match pc with RWrite _ => true | _ => false end)
                     + b2z (match pc' with RWrite _ => true | _ => false end))%Z →
  ring_ok cap h' s' →
  (∀ x, occ x h' ≤ occ x (hist y) + (b2z (finished pc' && bool_decide (x = val pc)) - b2z (finished pc && bool_decide (x = val pc))))%Z →
  inv cap (MkSys (<[t := pc']> (threads y)) s' h').
Proof.
  intros [Hc Hs Hml Hmi Hcas Hmg Hmx Hcasm Hlk Hr Hh] Ht Hv Ec Es M1 M2 M3 M4 X1 X2 X3 X4 El R H1.
  split; cbn [threads shard hist].
  - rewrite Ec, Hc, (tsum_insert _ _ _ _ _ Ht), i64_add_l. f_equal. lia.
  - rewrite Es, Hs, (tsum_insert _ _ _ _ _ Ht), i64_add_l, Hv. f_equal. lia.
  - intros q [-> | Hq]%elem_insert Hm; [rewrite Hv; by apply M2|]. specialize (Hml q Hq Hm). lia.
  - rewrite (vals_insert _ _ _ _ Ht Hv). destruct M3 as [-> | ->]; [done|]. right.
    apply list_elem_of_fmap. exists pc. split; [done|]. by eapply list_elem_of_lookup_2.
  - intros v cur [E|Hq]%elem_insert; [by apply M4|by apply Hcas].
  - intros q [-> | Hq]%elem_insert Hm; [rewrite Hv; by apply X2|]. specialize (Hmg q Hq Hm). lia.
  - rewrite (vals_insert _ _ _ _ Ht Hv). destruct X3 as [-> | ->]; [done|]. right.
    apply list_elem_of_fmap. exists pc. split; [done|]. by eapply list_elem_of_lookup_2.
  - intros v cur [E|Hq]%elem_insert; [by apply X4|by apply Hcasm].
  - rewrite (tsum_insert _ _ _ _ _ Ht), El, Hlk. lia.
  - done.
  - intros x. rewrite (tsum_insert _ _ _ _ _ Ht), Hv. specialize (Hh x). specialize (H1 x). lia.
Qed.

Lemma i64_id z : i64 (i64 z) = i64 z.
Proof. pose proof (i64_add_l z 0) as E. by rewrite !Z.add_0_r in E. Qed.

(** The aggregates are wrapped integers. *)
Lemma inv_i64 cap y z : inv cap y → (z = 0)%Z →
  count (shard y) = i64 (count (shard y) + z) ∧ sum (shard y) = i64 (sum (shard y) + z).
Proof. intros Hi ->. rewrite !Z.add_0_r, (inv_count _ _ Hi), (inv_sum _ _ Hi), !i64_id. by split. Qed.

Lemma occ_snoc x h v : occ x (h ++ [v]) = (occ x h + b2z (bool_decide (x = v)))%Z.
Proof.
  unfold occ. rewrite filter_app, length_app, filter_cons, filter_nil. case_decide; case_bool_decide; cbn; try done; lia.
Qed.

Lemma tsum_ge f l pc : (∀ pc, 0 ≤ f pc)%Z → pc ∈ l → (f pc ≤ tsum f l)%Z.
Proof.
  intros Hf. assert (∀ l, 0 ≤ tsum f l)%Z as Hp.
  { intros l0. induction l0 as [|x l0 IH]; cbn; [done|]. pose proof (Hf x). lia. }
  induction l as [|x l IH]; [by intros ?%not_elem_of_nil|]. intros [-> | H]%elem_of_cons; cbn [tsum].
  - pose proof (Hp l). lia.
  - specialize (IH H). pose proof (Hf x). lia.
Qed.

(** A writer holds the lock. *)
Lemma writer_locked cap y v : inv cap y → RWrite v ∈ threads y → locked (shard y) = true.
Proof.
  intros Hi Hin. pose proof (inv_lock _ _ Hi) as E.
  pose proof (tsum_ge (λ pc, b2z (match pc with RWrite _ => true | _ => false end)) _ _ ltac:(by intros []) Hin) as Hge.
  cbn in Hge. rewrite E in Hge. by destruct (locked (shard y)).
Qed.

Lemma step_inv cap l y y' : 0 < cap → inv cap y → step l y = Some y' → inv cap y'.
Proof.
  intros Hp Hinv. destruct l as [v|t]; cbn [step].
  - intros [= <-]. destruct Hinv as [Hc Hs Hml Hmi Hcas Hmg Hmx Hcasm Hlk Hr Hh].
    split; cbn [threads shard hist]; rewrite ?tsum_app, ?fmap_app; cbn [tsum counted summed val fmap list_fmap finished andb b2z].
    + rewrite Hc. f_equal. lia.
    + rewrite Hs. f_equal. lia.
    + intros pc [Hq|Hq]%elem_of_app; [by apply Hml|]. by apply list_elem_of_singleton in Hq as ->.
    + destruct Hmi; [by left|right]. apply elem_of_app. by left.
    + intros ? ? [Hq|Hq]%elem_of_app; [by eapply Hcas|]. by apply list_elem_of_singleton in Hq.
    + intros pc [Hq|Hq]%elem_of_app; [by apply Hmg|]. by apply list_elem_of_singleton in Hq as ->.
    + destruct Hmx; [by left|right]. apply elem_of_app. by left.
    + intros ? ? [Hq|Hq]%elem_of_app; [by eapply Hcasm|]. by apply list_elem_of_singleton in Hq.
    + rewrite <- Hlk. lia.
    + done.
    + intros x. specialize (Hh x). rewrite tsum_app. cbn [tsum finished andb b2z]. lia.
  - destruct (threads y !! t) as [pc|] eqn:Ht; [|done].
    assert (pc ∈ threads y) as Hin by (by eapply list_elem_of_lookup_2).
    destruct (inv_i64 cap y 0 Hinv eq_refl) as [Ec Es]. pose proof (inv_ring _ _ Hinv) as Hr.
    pose proof (inv_min_le _ _ Hinv pc Hin) as Fm. pose proof (inv_max_ge _ _ Hinv pc Hin) as Fx.
    destruct pc as [v|v|v|v cur|v|v cur|v|v|v]; try done;
      try pose proof (inv_cas _ _ Hinv _ _ Hin) as Fc; try pose proof (inv_casmax _ _ Hinv _ _ Hin) as Fd;
      try pose proof (writer_locked _ _ _ Hinv Hin) as Fl; cbn [recordStep]; intros H;
      repeat match type of H with context [if ?b then _ else _] => destruct b eqn:?Eb end;
      injection H as <-; eapply (inv_move cap y t); try exact Hinv; try exact Ht;
      cbn [val counted summed mined maxed finished count sum minV maxV locked b2z andb ringWrite] in *;
      rewrite ?Z.sub_diag, ?Z.add_0_r, ?Z.sub_0_r in *; try done; try lia; auto;
      try (intros _; specialize (Fm eq_refl); lia); try (intros _; specialize (Fx eq_refl); lia);
      try (by intros ? ? [= <- <-]; lia).
    + intros x. case_bool_decide; cbn; lia.
    + rewrite Eb. done.
    + rewrite Fl. done.
    + by apply ringWrite_ok.
    + intros x. rewrite occ_snoc. lia.
Qed.

Lemma run_inv cap ls : ∀ y y', 0 < cap → inv cap y → run ls y = Some y' → inv cap y'.
Proof.
  induction ls as [|l ls IH]; intros y y' Hp Hi; cbn [run]; [by intros [= <-]|].
  destruct (step l y) as [y1|] eqn:E; [|done]. cbn [mbind option_bind]. apply IH; [done|by eapply step_inv].
Qed.

Lemma sampleCap_pos capacity : 0 < Z.to_nat (sampleCap capacity).
Proof. unfold sampleCap, DefaultSampleCapacity. destruct (Z.leb_spec capacity 0); lia. Qed.

Lemma initial_inv capacity : inv (Z.to_nat (sampleCap capacity)) (initial capacity).
Proof.
  pose proof (sampleCap_pos capacity) as Hp.
  split; cbn [initial threads shard hist newShard count sum minV maxV locked tsum]; try done; auto;
    try (by intros ? ?%not_elem_of_nil); try (by intros ? ? ?%not_elem_of_nil).
  unfold ring_ok, newShard. cbn [samples pos written length]. split; [apply length_replicate|].
  destruct (Nat.ltb_spec 0 (Z.to_nat (sampleCap capacity))); [|lia]. by rewrite Nat.sub_0_r.
Qed.

(** The values recorded by a schedule. *)
Definition starts (ls : list label) : list Z := omap (λ l, match l with Start v => Some v | Step _ => None end) ls.

Lemma run_vals ls : ∀ y y', run ls y = Some y' → val <$> threads y' = (val <$> threads y) ++ starts ls.
Proof.
  induction ls as [|l ls IH]; intros y y'; cbn [run]; [intros [= <-]; by rewrite app_nil_r|].
  destruct (step l y) as [y1|] eqn:E; [|done]. cbn [mbind option_bind]. intros H. rewrite (IH _ _ H).
  destruct l as [v|t]; cbn [step] in E.
  - injection E as <-. cbn [threads]. by rewrite fmap_app, <- app_assoc.
  - destruct (threads y !! t) as [pc|] eqn:Ht; [|done].
    assert (∀ pc' s', recordStep pc (shard y) = (pc', s') → val pc' = val pc) as Hv.
    { intros pc' s'. destruct pc; cbn; repeat case_match; by intros [= <- <-]. }
    destruct (recordStep pc (shard y)) as [pc' s'] eqn:Er. specialize (Hv _ _ eq_refl).
    destruct pc; try done; apply (inj Some) in E as <-; cbn [threads]; by rewrite (vals_insert _ _ _ _ Ht Hv).
Qed.

Lemma tsum_finished f l :
  Forall (λ pc, finished pc = true) l → tsum f l = foldr (λ pc n, f (RDone (val pc)) + n)%Z 0%Z l.
Proof.
  induction 1 as [|pc l Hf _ IH]; [done|]. cbn [tsum foldr]. rewrite IH. by destruct pc.
Qed.

Lemma foldr_vals g l : foldr (λ pc n, g (val pc) + n)%Z 0%Z l = foldr (λ v n, g v + n)%Z 0%Z (val <$> l).
Proof. induction l as [|pc l IH]; cbn; [done|]. by rewrite IH. Qed.

Lemma foldr_occ x vs : foldr (λ v n, b2z (bool_decide (x = v)) + n)%Z 0%Z vs = occ x vs.
Proof.
  unfold occ. induction vs as [|v vs IH]; [done|]. cbn [foldr]. rewrite IH, filter_cons.
  case_bool_decide; case_decide; cbn [b2z length]; lia.
Qed.

Definition total (vs : list Z) : Z := foldr Z.add 0%Z vs.

(** C39: whatever the interleaving of the recorders of a statistic, once all of them are
    done the count and the sum are those of the recorded values in int64 arithmetic, the
    minimum and the maximum are attained by a recorded value and bound all of them, the
    sample lock is free, and the window holds the latest samples in order, each a recorded
    value at most as often as it was recorded. *)
Theorem histogram_exact capacity ls y :
  run ls (initial capacity) = Some y → Forall (λ pc, finished pc = true) (threads y) →
  Forall (λ v, MinInt64 ≤ v ≤ MaxInt64)%Z (starts ls) →
  let vs := starts ls in let s := shard y in
  count s = i64 (Z.of_nat (length vs)) ∧ sum s = i64 (total vs) ∧
  (∀ v, v ∈ vs → minV s ≤ v ≤ maxV s)%Z ∧ (vs ≠ [] → minV s ∈ vs ∧ maxV s ∈ vs) ∧
  locked s = false ∧ snapshot s = lastn (Z.to_nat (sampleCap capacity)) (hist y) ∧
  (∀ x, occ x (hist y) ≤ occ x vs)%Z.
Proof.
  intros Hrun Hfin Hrng. cbn zeta. pose proof (run_inv _ _ _ _ (sampleCap_pos capacity) (initial_inv capacity) Hrun) as Hi.
  pose proof (run_vals _ _ _ Hrun) as Hv. cbn in Hv. rewrite <- Hv in *.
  assert (∀ v, v ∈ val <$> threads y → minV (shard y) ≤ v ≤ maxV (shard y))%Z as Hb.
  { intros v (pc & -> & Hpc)%list_elem_of_fmap. rewrite Forall_forall in Hfin. specialize (Hfin pc Hpc).
    split; [apply (inv_min_le _ _ Hi)|apply (inv_max_ge _ _ Hi)]; try done; by destruct pc. }
  split_and!.
  - rewrite (inv_count _ _ Hi), tsum_finished by done. f_equal. cbn. clear. induction (threads y) as [|pc l IH]; [done|].
    cbn [foldr fmap list_fmap length]. rewrite IH. cbn. lia.
  - rewrite (inv_sum _ _ Hi), tsum_finished by done. f_equal. cbn. by rewrite (foldr_vals (λ v, v)).
  - done.
  - intros Hne. destruct (val <$> threads y) as [|v0 vs] eqn:E; [done|].
    pose proof (Hb v0 ltac:(left)) as Hb0. rewrite Forall_cons in Hrng. destruct Hrng as [Hr0 _].
    split.
    + destruct (inv_min_in _ _ Hi) as [Em|Em]; [|by rewrite E in Em]. apply elem_of_cons. left. lia.
    + destruct (inv_max_in _ _ Hi) as [Em|Em]; [|by rewrite E in Em]. apply elem_of_cons. left. lia.
  - pose proof (inv_lock _ _ Hi) as El. rewrite tsum_finished in El by done. cbn in El.
    assert (∀ l : list rpc, foldr (λ (_ : rpc) n, 0 + n)%Z 0%Z l = 0%Z) as Hz by (clear; induction l; cbn in *; lia).
    rewrite Hz in El. by destruct (locked (shard y)).
  - by apply stats_snapshot_ok, (inv_ring _ _ Hi).
  - intros x. rewrite (inv_hist _ _ Hi x), tsum_finished by done.
    apply Z.eq_le_incl. rewrite <- foldr_occ, <- (foldr_vals (λ v, b2z (bool_decide (x = v)))). reflexivity.
Qed.

(** ** The compare-and-swap loops *)

(** How far a recorder is from its end, with [T] recorders: a comparison that is going to
    fail counts two more than one that is going to succeed, and what a success costs the
    others is paid by the one that leaves the loop. *)
Definition weight (T : Z) (s : statShard) (pc : rpc) : Z :=
  match pc with
  | RCount _ => 4 * T + 11
  | RSum _ => 4 * T + 10
  | RMinLoad _ => 4 * T + 8
  | RMinCAS _ cur => if (minV s =? cur)%Z then 4 * T + 7 else 4 * T + 9
  | RMaxLoad _ => 2 * T + 4
  | RMaxCAS _ cur => if (maxV s =? cur)%Z then 2 * T + 3 else 2 * T + 5
  | RTryLock _ => 2
  | RWrite _ => 1
  | RDone _ => 0
  end.
Definition work (y : sys) : Z := tsum (weight (Z.of_nat (length (threads y))) (shard y)) (threads y).

Lemma tsum_add f (c : Z) l : tsum (λ pc, f pc + c)%Z l = (tsum f l + c * Z.of_nat (length l))%Z.
Proof. induction l as [|x l IH]; cbn [tsum length]; [lia|]. rewrite IH. lia. Qed.

Lemma weight_shift T s s' pc : (weight T s' pc ≤ weight T s pc + 2)%Z.
Proof. destruct pc; cbn; repeat case_match; lia. Qed.

Lemma weight_same T s s' pc : minV s' = minV s → maxV s' = maxV s → weight T s' pc = weight T s pc.
Proof. intros E1 E2. destruct pc; cbn; by rewrite ?E1, ?E2. Qed.

Lemma stats_weight_nonneg T s pc : (0 ≤ T)%Z → (0 ≤ weight T s pc)%Z.
Proof. destruct pc; cbn; repeat case_match; lia. Qed.

Lemma step_work t y y' : step (Step t) y = Some y' → (work y' < work y)%Z ∧ length (threads y') = length (threads y).
Proof.
  cbn [step]. destruct (threads y !! t) as [pc|] eqn:Ht; [|done].
  pose proof (lookup_lt_Some _ _ _ Ht) as Hlt. unfold work.
  destruct (recordStep pc (shard y)) as [pc' s'] eqn:Er. intros H.
  assert (threads y' = <[t := pc']> (threads y) ∧ shard y' = s') as [-> ->].
  { destruct pc; try done; by injection H as <-. }
  rewrite length_insert. split; [|done]. set (T := Z.of_nat (length (threads y))).
  rewrite (tsum_insert _ _ _ _ _ Ht).
  assert (tsum (weight T s') (threads y) ≤ tsum (weight T (shard y)) (threads y) + 2 * T)%Z as Hsh.
  { rewrite <- tsum_add. apply tsum_le. intros. apply weight_shift. }
  assert (minV s' = minV (shard y) → maxV s' = maxV (shard y) →
          tsum (weight T s') (threads y) = tsum (weight T (shard y)) (threads y))%Z as Hsame.
  { intros E1 E2. apply Z.le_antisymm; apply tsum_le; intros; by rewrite (weight_same T (shard y) s'). }
  pose proof (weight_shift T s' (shard y) pc) as W.
  destruct pc as [v|v|v|v cur|v|v cur|v|v|v]; cbn in H; try done; cbn [recordStep] in Er;
    repeat match type of Er with context [if ?b then _ else _] => destruct b eqn:?Eb end;
    injection Er as <- <-; cbn [minV maxV ringWrite] in *;
    try (rewrite (Hsame eq_refl eq_refl); cbn [weight]; rewrite ?Z.eqb_refl, ?Eb; lia);
    cbn [weight minV maxV] in *; rewrite ?Eb in *; repeat case_match; lia.
Qed.

(** Recorders cannot keep each other in their compare-and-swap loops: of [n] recorders
    that have started, no schedule makes more than [n * (4 * n + 11)] steps, and one that
    cannot be extended has finished them all. *)
Theorem recorders_terminate y ts y' :
  run (Step <$> ts) y = Some y' →
  let n := Z.of_nat (length (threads y)) in
  (Z.of_nat (length ts) ≤ n * (4 * n + 11))%Z ∧
  ((∀ t, step (Step t) y' = None) → Forall (λ pc, finished pc = true) (threads y')).
Proof.
  intros Hrun. cbn zeta. split.
  - assert (∀ y0, run (Step <$> ts) y0 = Some y' → Z.of_nat (length ts) ≤ work y0)%Z as Hw.
    { clear Hrun y. induction ts as [|t ts IH]; intros y; cbn [fmap list_fmap run length].
      - intros _. unfold work. pose proof (tsum_le (λ _, 0%Z) (weight (Z.of_nat (length (threads y))) (shard y)) (threads y)) as Hle.
        assert (tsum (λ _, 0%Z) (threads y) = 0%Z) as Hz by (clear; induction (threads y); cbn; lia).
        rewrite Hz in Hle. apply Hle. intros. apply stats_weight_nonneg. lia.
      - destruct (step (Step t) y) as [y1|] eqn:E; [|done]. cbn [mbind option_bind]. intros H.
        destruct (step_work _ _ _ E) as [Hlt _]. specialize (IH y1 H). lia. }
    specialize (Hw y Hrun). etrans; [exact Hw|]. unfold work. set (n := Z.of_nat (length (threads y))).
    etrans; [apply (tsum_le _ (λ pc, 0 + (4 * n + 11))%Z); intros pc _; destruct pc; cbn; repeat case_match; lia|].
    rewrite (tsum_add (λ _, 0%Z)). assert (tsum (λ _, 0%Z) (threads y) = 0%Z) as -> by (clear; induction (threads y); cbn; lia).
    lia.
  - intros Hstop. apply Forall_forall. intros pc [t Ht]%list_elem_of_lookup. specialize (Hstop t). cbn [step] in Hstop.
    rewrite Ht in Hstop. destruct pc; try done; by destruct (recordStep _ _).
Qed.

(** ** Medians, percentiles and buckets *)

Lemma lookup_total_elem (l : list Z) i : i < length l → l !!! i ∈ l.
Proof. intros H. by apply list_elem_of_lookup_total_2. Qed.

(** A percentile of a window is one of its samples. *)
Lemma percentile_in sorted p : sorted ≠ [] → percentileOf sorted p ∈ sorted.
Proof.
  intros Hne. unfold percentileOf. destruct sorted as [|x l]; [done|]. cbn [length Nat.eqb].
  destruct p as [| |idx]; try (apply lookup_total_elem; cbn; lia).
  destruct (Nat.leb_spec (Datatypes.S (length l)) idx); apply lookup_total_elem; cbn [length]; lia.
Qed.

(** Twice the median lies between twice the least and twice the greatest sample, when the
    two middle samples can be added. *)
Theorem median_between sorted lo hi :
  sorted ≠ [] → Forall (λ v, lo ≤ v ≤ hi)%Z sorted → (MinInt64 ≤ 2 * lo)%Z → (2 * hi ≤ MaxInt64)%Z →
  (2 * lo ≤ medianOf sorted ≤ 2 * hi)%Z.
Proof.
  intros Hne Hb Hlo Hhi. unfold medianOf. destruct (Nat.eqb_spec (length sorted) 0) as [E|E].
  { by apply nil_length_inv in E. }
  assert (∀ i, i < length sorted → (lo ≤ sorted !!! i ≤ hi)%Z) as H.
  { intros i Hi. rewrite Forall_forall in Hb. by apply Hb, lookup_total_elem. }
  pose proof (Nat.div_lt (length sorted) 2) as Hd.
  pose proof (H (Nat.div (length sorted) 2)) as H1. pose proof (H (Nat.div (length sorted) 2 - 1)) as H2.
  destruct (_ =? 1); [lia|]. unfold MinInt64, MaxInt64 in *. rewrite i64_small; lia.
Qed.

(** Without that the median of two equal samples can have the other sign. *)
Example median_overflow : medianOf [2 ^ 62; 2 ^ 62]%Z = (- 2 ^ 63)%Z.
Proof. by vm_compute. Qed.

Lemma observe_lookup ns b i :
  length b = length latencyBuckets + 1 →
  observe ns b !!! i = if decide (bucketLoop ns latencyBuckets = i) then u64 ((b !!! i) + 1) else b !!! i.
Proof.
  intros Hl. unfold observe. case_decide as E.
  - subst i. apply list_lookup_total_insert_eq. rewrite Hl.
    assert (∀ ubs, bucketLoop ns ubs ≤ length ubs) as Hle; [|specialize (Hle latencyBuckets); lia].
    intros ubs. induction ubs as [|ub ubs IH]; cbn; [done|]. destruct (ns <=? ub)%Z; lia.
  - by apply list_lookup_total_insert_ne.
Qed.

(** Every latency is counted in the first bucket whose bound it does not exceed. *)
Theorem latency_histogram obs i :
  (Z.of_nat (length obs) < 2 ^ 64)%Z → i < length latencyBuckets + 1 →
  foldl (λ b ns, observe ns b) newDistLatencyCollector obs !!! i
    = Z.of_nat (length (filter (λ ns, bucketLoop ns latencyBuckets = i) obs)) ∧
  length (foldl (λ b ns, observe ns b) newDistLatencyCollector obs) = length latencyBuckets + 1.
Proof.
  intros Hn Hi. induction obs as [|ns obs IH] using rev_ind.
  { cbn [foldl]. split; [|done]. unfold newDistLatencyCollector. by rewrite lookup_total_replicate_2. }
  rewrite length_app in Hn. cbn [length] in Hn. destruct IH as [IH IHl]; [lia|].
  rewrite foldl_app. cbn [foldl]. split; [|unfold observe; by rewrite length_insert].
  rewrite observe_lookup, IH by done. rewrite filter_app, length_app, filter_cons, filter_nil.
  pose proof (length_filter (λ ns, bucketLoop ns latencyBuckets = i) obs) as Hf.
  case_decide; cbn [length]; [rewrite u64_small; lia|lia].
Qed.

(** ** Witnesses *)

(** Two recorders whose steps alternate: the second fails its comparison once and loses
    the race for the ring. *)
Definition sample_schedule : list label :=
  [Start 5; Start 3; Step 0; Step 1; Step 0; Step 1; Step 0; Step 1; Step 0; Step 1; Step 1; Step 1;
   Step 0; Step 0; Step 0; Step 1; Step 1; Step 0]%Z.

Lemma histogram_exact_witness :
  ∃ y, run sample_schedule (initial 2) = Some y ∧ hist y = [5]%Z ∧
    count (shard y) = 2%Z ∧ sum (shard y) = 8%Z ∧ (∀ v, v ∈ [5; 3]%Z → minV (shard y) ≤ v ≤ maxV (shard y))%Z ∧
    snapshot (shard y) = [5]%Z.
Proof.
  destruct (run sample_schedule (initial 2)) as [y|] eqn:E; [|vm_compute in E; discriminate E].
  assert (Forall (λ pc, finished pc = true) (threads y)) as Hf.
  { vm_compute in E. injection E as <-. repeat constructor. }
  assert (hist y = [5]%Z) as Hh.
  { vm_compute in E. injection E as <-. reflexivity. }
  destruct (histogram_exact 2 sample_schedule y E Hf) as (H1 & H2 & H3 & _ & _ & H4 & _).
  - repeat constructor; unfold MinInt64, MaxInt64; lia.
  - exists y. split; [reflexivity|]. split; [exact Hh|]. split; [rewrite H1; reflexivity|].
    split; [rewrite H2; reflexivity|]. split; [exact H3|]. rewrite H4, Hh. reflexivity.
Defined.

Definition sample_recorders : sys := MkSys [RMinLoad 5; RMinLoad 3]%Z (newShard 2) [].

Lemma recorders_terminate_witness :
  ∃ y', run (Step <$> [0; 1; 0; 1; 1]) sample_recorders = Some y' ∧
    (Z.of_nat (length [0; 1; 0; 1; 1]) ≤ 2 * (4 * 2 + 11))%Z.
Proof.
  destruct (run (Step <$> [0; 1; 0; 1; 1]) sample_recorders) as [y'|] eqn:E; [|vm_compute in E; discriminate E].
  exists y'. split; [reflexivity|]. exact (proj1 (recorders_terminate sample_recorders [0; 1; 0; 1; 1] y' E)).
Defined.
