(* ===== verification/Management.v ===== *)
(** * Management HTTP server (management_http.go, config.go; the gates of
      cmd/hypercache-server/main.go)

    The options of the server, its life cycle, its routes with the two authentication
    gates, and the handlers.  A handler is a function from a request and the state of the
    cache; [None] is a panic of the cache.  The cache is an interface, as in the source,
    with its optional capabilities; HyperCache.v's cache is an instance.

    The web framework is left out: a request comes with its method, path and [key] query,
    and what it gets when no route matches is a parameter.  The stream of
    [/cluster/events] is in Topology.v.

    The theorems: which credentials reach what, with the gates that the server binary
    installs; what the control routes do to a cache; which of Start and Shutdown leave
    the server listening. *)

From stdpp Require Import base gmap strings list.
From Stdlib Require Import ZArith Lia.
From S2P Require Import Prelude Algorithm Item Backend HyperCache Ring Membership Auth.

(** ** The cache behind the server *)

Record memberWire := MkMember { w_ID : string; w_Address : string; w_State : string; w_Incarnation : Z }.

(** The optional interfaces, as the operations a type assertion gives. *)
Record managementCacheDistOpt (S : Type) := MkDistOpt {
  DistMetrics : S → option any;
  ClusterOwners : string → S → list string }.
Arguments MkDistOpt {S}. Arguments DistMetrics {S}. Arguments ClusterOwners {S}.
Record membershipIntrospect (S : Type) := MkIntrospect {
  DistMembershipSnapshot : S → list memberWire * Z * Z;
  DistRingHashSpots : S → list string;
  DistHeartbeatMetrics : S → any }.
Arguments MkIntrospect {S}. Arguments DistMembershipSnapshot {S}.
Arguments DistRingHashSpots {S}. Arguments DistHeartbeatMetrics {S}.

Class managementCache (S : Type) := {
  mc_GetStats : S → any;
  mc_Capacity : S → Z;
  mc_Allocation : S → Z;
  mc_MaxCacheSize : S → Z;
  mc_EvictionInterval : S → Z;
  mc_ExpirationInterval : S → Z;
  mc_EvictionAlgorithm : S → string;
  mc_TriggerEviction : S → option S;
  mc_TriggerExpiration : Z → S → option S;
  mc_Clear : S → option (S * option error);
  mc_distOpt : option (managementCacheDistOpt S);
  mc_introspect : option (membershipIntrospect S);
  mc_hasEvents : S → bool }.

(** ** Requests and responses *)

Record mgmtRequest := MkMReq { m_method : string; m_path : string; m_key : string; m_auth : Request }.

Record mgmtConfig := MkMConfig {
  c_capacity : Z; c_allocation : Z; c_maxCacheSize : Z; c_evictionInterval : Z; c_expirationInterval : Z;
  c_evictionAlgorithm : string; c_dist : option (Z * Z) }.

Inductive mgmtBody :=
  | MEmpty
  | MText (s : string)
  | MError (msg : string)
  | MStats (s : any)
  | MConfig (c : mgmtConfig)
  | MValue (v : any)
  | MOwners (key : string) (owners : list string)
  | MMembers (replication vnodes : Z) (members : list memberWire)
  | MRing (count : nat) (spots : list string)
  | MStream (members : list memberWire * Z * Z) (heartbeat : any).

Record mgmtResponse := MkMResp { m_status : Z; m_body : mgmtBody }.

Definition mjson (b : mgmtBody) : mgmtResponse := MkMResp 200 b.
Definition ErrMsgUnsupportedDistributedBackend : string := "distributed backend unsupported".
Definition ErrMsgMissingCacheKey : string := "missing cache key".
Definition unsupported : mgmtResponse := MkMResp 404 (MError ErrMsgUnsupportedDistributedBackend).

(** ** The server *)

(** A gate blocks a request with the status of its error. *)
Definition gate : Type := Request → option Z.

Record ManagementHTTPServer := MkMgmt {
  addr : string;
  readTimeout : Z; writeTimeout : Z; idleTimeout : Z; bodyLimit : Z; concurrency : Z;
  authFunc : option gate;
  controlAuthFunc : option gate;
  ln : option string;        (* the address of the listener *)
  started : bool;
  mounts : nat;              (* how often the routes were registered *)
  canceled : bool;           (* s.ctx *)
  appDown : bool }.          (* the application was shut down *)

Definition second : Z := 1000000000.
Definition defaultReadTimeout : Z := 5 * second.
Definition defaultWriteTimeout : Z := 0.
Definition defaultMgmtIdleTimeout : Z := 60 * second.
Definition defaultMgmtBodyLimit : Z := 4 * 1024 * 1024.
Definition defaultMgmtConcurrency : Z := 256 * 1024.

Inductive ManagementHTTPOption :=
  | WithMgmtAuth (fn : option gate)
  | WithMgmtControlAuth (fn : option gate)
  | WithMgmtReadTimeout (d : Z)
  | WithMgmtWriteTimeout (d : Z)
  | WithMgmtIdleTimeout (d : Z)
  | WithMgmtBodyLimit (bytes : Z)
  | WithMgmtConcurrency (n : Z).

Definition applyOption (s : ManagementHTTPServer) (o : ManagementHTTPOption) : ManagementHTTPServer :=
  let '(MkMgmt a rt wt it bl cc au ca l st mo ccl dn) := s in
  match o with
  | WithMgmtAuth fn => MkMgmt a rt wt it bl cc fn ca l st mo ccl dn
  | WithMgmtControlAuth fn => MkMgmt a rt wt it bl cc au fn l st mo ccl dn
  | WithMgmtReadTimeout d => MkMgmt a d wt it bl cc au ca l st mo ccl dn
  | WithMgmtWriteTimeout d => MkMgmt a rt d it bl cc au ca l st mo ccl dn
  | WithMgmtIdleTimeout d => if (0 <? d)%Z then MkMgmt a rt wt d bl cc au ca l st mo ccl dn else s
  | WithMgmtBodyLimit b => if (0 <? b)%Z then MkMgmt a rt wt it b cc au ca l st mo ccl dn else s
  | WithMgmtConcurrency n => if (0 <? n)%Z then MkMgmt a rt wt it bl n au ca l st mo ccl dn else s
  end.

Definition NewManagementHTTPServer (addr : string) (opts : list ManagementHTTPOption) : ManagementHTTPServer :=
  foldl applyOption
    (MkMgmt addr defaultReadTimeout defaultWriteTimeout defaultMgmtIdleTimeout defaultMgmtBodyLimit
       defaultMgmtConcurrency None None None false 0 false false) opts.

(** [Start]: [listen] is what the system answers, the bound address or an error. *)
Definition Start (listen : result string) (s : ManagementHTTPServer) : ManagementHTTPServer * option error :=
  if started s then (s, None)
  else
    let mounted l st := MkMgmt (addr s) (readTimeout s) (writeTimeout s) (idleTimeout s) (bodyLimit s) (concurrency s)
                          (authFunc s) (controlAuthFunc s) l st (mounts s + 1) false (appDown s) in
    match listen with
    | Err e => (mounted (ln s) false, Some e)
    | Ok a => (mounted (Some a) true, None)
    end.

Definition Address (s : ManagementHTTPServer) : string := match ln s with None => "" | Some a => a end.

Definition Shutdown (s : ManagementHTTPServer) : ManagementHTTPServer :=
  if negb (started s) then s
  else MkMgmt (addr s) (readTimeout s) (writeTimeout s) (idleTimeout s) (bodyLimit s) (concurrency s)
         (authFunc s) (controlAuthFunc s) (ln s) true (mounts s) true true.

(** Whether connections are served: a listener, with routes, of an application that runs. *)
Definition listening (s : ManagementHTTPServer) : bool :=
  match ln s with Some _ => (0 <? mounts s) && started s && negb (appDown s) | None => false end.

(** ** Routes *)

Section Routes.
Context {S : Type} `{managementCache S} (now : Z).

Definition Handler : Type := mgmtRequest → S → option (S * mgmtResponse).

Definition wrapWithGate (g : option gate) (handler : Handler) : Handler :=
  match g with
  | None => handler
  | Some g => λ r s, match g (m_auth r) with Some status => Some (s, MkMResp status MEmpty) | None => handler r s end
  end.
Definition wrapAuth (srv : ManagementHTTPServer) (handler : Handler) : Handler := wrapWithGate (authFunc srv) handler.
Definition wrapControlAuth (srv : ManagementHTTPServer) (handler : Handler) : Handler :=
  match controlAuthFunc srv with Some g => wrapWithGate (Some g) handler | None => wrapAuth srv handler end.

(** A handler that only reads. *)
Definition view_only (f : mgmtRequest → S → mgmtResponse) : Handler := λ r s, Some (s, f r s).

Definition getConfig (s : S) : mgmtConfig :=
  MkMConfig (mc_Capacity s) (mc_Allocation s) (mc_MaxCacheSize s) (mc_EvictionInterval s) (mc_ExpirationInterval s)
    (mc_EvictionAlgorithm s)
    (match mc_introspect with
     | Some mi => let '(_, replication, vnodes) := DistMembershipSnapshot mi s in Some (replication, vnodes)
     | None => None
     end).

Definition getDistMetrics (s : S) : mgmtResponse :=
  match mc_distOpt with
  | Some dist =>
      match DistMetrics dist s with
      | None => MkMResp 404 (MError "dist metrics not available")
      | Some m => mjson (MValue m)
      end
  | None => unsupported
  end.
Definition getOwners (r : mgmtRequest) (s : S) : mgmtResponse :=
  match mc_distOpt with
  | Some dist =>
      if decide (m_key r = ""%string) then MkMResp 400 (MError ErrMsgMissingCacheKey)
      else mjson (MOwners (m_key r) (ClusterOwners dist (m_key r) s))
  | None => unsupported
  end.
Definition getMembers (s : S) : mgmtResponse :=
  match mc_introspect with
  | Some mi => let '(members, replication, vnodes) := DistMembershipSnapshot mi s in mjson (MMembers replication vnodes members)
  | None => unsupported
  end.
Definition getRing (s : S) : mgmtResponse :=
  match mc_introspect with
  | Some mi => let spots := DistRingHashSpots mi s in mjson (MRing (length spots) spots)
  | None => unsupported
  end.
Definition getHeartbeat (s : S) : mgmtResponse :=
  match mc_introspect with Some mi => mjson (MValue (DistHeartbeatMetrics mi s)) | None => unsupported end.
(** [handleClusterEvents] up to the stream: its initial snapshots.  Before taking
    them the handler subscribes to the event bus, which changes the bus and nothing
    of the cache [s]: that step is [CallSubscribe] of EventBus.v, and what the
    subscription then delivers to the client is [streamClusterEvents] of
    Topology.v. *)
Definition handleClusterEvents (s : S) : mgmtResponse :=
  if negb (mc_hasEvents s) then MkMResp 503 (MError "topology events not supported by this backend")
  else
    match mc_introspect with
    | None => MkMResp 503 (MError ErrMsgUnsupportedDistributedBackend)
    | Some mi => mjson (MStream (DistMembershipSnapshot mi s) (DistHeartbeatMetrics mi s))
    end.

Definition postEvict : Handler := λ _ s, s ← mc_TriggerEviction s; Some (s, MkMResp 202 MEmpty).
Definition postTriggerExpiration : Handler := λ _ s, s ← mc_TriggerExpiration now s; Some (s, MkMResp 202 MEmpty).
Definition postClear : Handler := λ _ s,
  '(s, err) ← mc_Clear s;
  Some (s, match err with Some _ => MkMResp 500 MEmpty | None => MkMResp 200 MEmpty end).

Definition route : Type := string * string * Handler.

Definition registerBasic (useAuth : Handler → Handler) : list route :=
  [("GET", "/health", view_only (λ _ _, mjson (MText "ok")));
   ("GET", "/stats", useAuth (view_only (λ _ s, mjson (MStats (mc_GetStats s)))));
   ("GET", "/config", useAuth (view_only (λ _ s, mjson (MConfig (getConfig s)))))].
Definition registerDistributed (useAuth : Handler → Handler) : list route :=
  [("GET", "/dist/metrics", useAuth (view_only (λ _ s, getDistMetrics s)));
   ("GET", "/dist/owners", useAuth (view_only getOwners))].
Definition registerCluster (useAuth : Handler → Handler) : list route :=
  [("GET", "/cluster/members", useAuth (view_only (λ _ s, getMembers s)));
   ("GET", "/cluster/ring", useAuth (view_only (λ _ s, getRing s)));
   ("GET", "/cluster/heartbeat", useAuth (view_only (λ _ s, getHeartbeat s)));
   ("GET", "/cluster/events", useAuth (view_only (λ _ s, handleClusterEvents s)))].
Definition registerControl (useAuth : Handler → Handler) : list route :=
  [("POST", "/evict", useAuth postEvict);
   ("POST", "/trigger-expiration", useAuth postTriggerExpiration);
   ("POST", "/clear", useAuth postClear)].

Definition mountRoutes (srv : ManagementHTTPServer) : list route :=
  registerBasic (wrapAuth srv) ++ registerDistributed (wrapAuth srv) ++ registerCluster (wrapAuth srv) ++
  registerControl (wrapControlAuth srv).

Context (notRouted : mgmtRequest → mgmtResponse).

Fixpoint dispatch (rs : list route) (r : mgmtRequest) (s : S) : option (S * mgmtResponse) :=
  match rs with
  | [] => Some (s, notRouted r)
  | (m, p, h) :: rs => if decide (m = m_method r ∧ p = m_path r) then h r s else dispatch rs r s
  end.
Definition serveMgmt (srv : ManagementHTTPServer) (r : mgmtRequest) (s : S) : option (S * mgmtResponse) :=
  dispatch (mountRoutes srv) r s.

End Routes.

(** ** The server binary's gates *)

Definition verifyGate (bcryptCompare : string → string → bool) (policy : Policy) (scope : Scope) : gate := λ req,
  match Verify bcryptCompare scope req policy with
  | Pass _ => None
  | StatusUnauthorized => Some 401%Z
  | StatusForbidden => Some 403%Z
  end.

(** The options that [buildHyperCache] gives. *)
Definition mgmtOptions (bcryptCompare : string → string → bool) (policy : Policy) : list ManagementHTTPOption :=
  [WithMgmtAuth (Some (verifyGate bcryptCompare policy ScopeRead));
   WithMgmtControlAuth (Some (verifyGate bcryptCompare policy ScopeAdmin))].

(** ** The cache as a client of the server *)

(** [NodeState.String] *)
Definition stateString (st : NodeState) : string :=
  match st with NodeAlive => "alive" | NodeSuspect => "suspect" | NodeDead => "dead" end.
Definition toWire (n : Node) : memberWire :=
  MkMember (ID n) (Membership.Address n) (stateString (State n)) (Incarnation n).

(** What a distributed backend shows; [None] members: no membership or no ring. *)
Record distView := MkDistView {
  dv_Metrics : any;
  dv_Heartbeat : any;
  dv_DebugOwners : string → list string;
  dv_Membership : option (list Node * Ring);
  dv_VNodeHashes : list string;
  dv_hasBus : bool }.

Section CacheInstance.
Context {B A : Type} `{IBackend B} `{IAlgorithm A}.

(** The cache with what the server sees of it; [evictCh] has room for one signal. *)
Record servedCache := MkServed {
  hc : HyperCache B A;
  evictCh : bool;
  expirationInterval : Z;
  evictionAlgorithmName : string;
  statsOf : any }.

(** [asDist] is the assertion that the backend is a [*backend.DistMemory]. *)
Context (asDist : B → option distView).

Definition TriggerEviction (s : servedCache) : servedCache :=
  MkServed (hc s) true (expirationInterval s) (evictionAlgorithmName s) (statsOf s).
Definition TriggerExpiration (now : Z) (s : servedCache) : servedCache :=
  MkServed (with_trigger (execTriggerExpiration now (trigger (hc s))) (hc s)) (evictCh s) (expirationInterval s)
    (evictionAlgorithmName s) (statsOf s).
Definition distBackend (s : servedCache) : option distView := asDist (backend (hc s)).

Definition hcDistMetrics (s : servedCache) : option any := dv_Metrics <$> distBackend s.
Definition hcClusterOwners (key : string) (s : servedCache) : list string :=
  match distBackend s with Some dm => dv_DebugOwners dm key | None => [] end.
Definition hcDistMembershipSnapshot (s : servedCache) : list memberWire * Z * Z :=
  match distBackend s with
  | Some dm =>
      match dv_Membership dm with
      | None => ([], 0, 0)%Z
      | Some (nodes, ring) => (toWire <$> nodes, replication ring, vnPerNode ring)
      end
  | None => ([], 0, 0)%Z
  end.
Definition hcDistRingHashSpots (s : servedCache) : list string :=
  match distBackend s with
  | Some dm => match dv_Membership dm with Some _ => dv_VNodeHashes dm | None => [] end
  | None => []
  end.
Definition hcDistHeartbeatMetrics (s : servedCache) : any :=
  match distBackend s with Some dm => dv_Heartbeat dm | None => ANil end.
Definition hcEventBus (s : servedCache) : bool := match distBackend s with Some dm => dv_hasBus dm | None => false end.

#[export] Instance served_managementCache : managementCache servedCache := {
  mc_GetStats := statsOf;
  mc_Capacity s := bk_Capacity (backend (hc s));
  mc_Allocation s := memoryAllocation (hc s);
  mc_MaxCacheSize s := maxCacheSize (hc s);
  mc_EvictionInterval s := evictionInterval (hc s);
  mc_ExpirationInterval := expirationInterval;
  mc_EvictionAlgorithm := evictionAlgorithmName;
  mc_TriggerEviction s := Some (TriggerEviction s);
  mc_TriggerExpiration now s := Some (TriggerExpiration now s);
  mc_Clear s :=
    '(h, err) ← HyperCache.Clear false (hc s);
    Some (MkServed h (evictCh s) (expirationInterval s) (evictionAlgorithmName s) (statsOf s), err);
  mc_distOpt := Some (MkDistOpt hcDistMetrics hcClusterOwners);
  mc_introspect := Some (MkIntrospect hcDistMembershipSnapshot hcDistRingHashSpots hcDistHeartbeatMetrics);
  mc_hasEvents := hcEventBus }.

End CacheInstance.

(** ** Who reaches what *)

Section Authorized.
Context {S : Type} `{managementCache S} (now : Z) (notRouted : mgmtRequest → mgmtResponse).
Context (bcryptCompare : string → string → bool) (p : Policy).

Definition passes (scope : Scope) (r : mgmtRequest) : Prop := ∃ id, Verify bcryptCompare scope (m_auth r) p = Pass id.

(** What a request without the admin scope gets: the cache is as before, and without the
    read scope either only a refusal, the health text or nothing at all. *)
Definition harmless (h : Handler (S := S)) : Prop := ∀ r s,
  ¬ passes ScopeAdmin r →
  ∃ resp, h r s = Some (s, resp) ∧
    (¬ passes ScopeRead r → m_status resp = 401%Z ∨ m_status resp = 403%Z ∨ resp = mjson (MText "ok") ∨ resp = notRouted r).

Lemma gate_status scope r :
  match verifyGate bcryptCompare p scope (m_auth r) with
  | None => passes scope r
  | Some status => status = 401%Z ∨ status = 403%Z
  end.
Proof. unfold verifyGate, passes. destruct (Verify _ _ _ _); eauto. Qed.

Lemma harmless_view f : harmless (wrapWithGate (Some (verifyGate bcryptCompare p ScopeRead)) (view_only f)).
Proof.
  intros r s _. cbn [wrapWithGate]. pose proof (gate_status ScopeRead r) as Hg.
  destruct (verifyGate _ _ _ _) as [st|].
  - eexists. split; [done|]. intros _. cbn. tauto.
  - eexists. split; [done|]. tauto.
Qed.

Lemma harmless_control h : harmless (wrapWithGate (Some (verifyGate bcryptCompare p ScopeAdmin)) h).
Proof.
  intros r s Ha. cbn [wrapWithGate]. pose proof (gate_status ScopeAdmin r) as Hg.
  destruct (verifyGate _ _ _ _) as [st|]; [|done]. eexists. split; [done|]. intros _. cbn. tauto.
Qed.

Lemma harmless_dispatch rs : Forall (λ rt, harmless rt.2) rs → harmless (dispatch notRouted rs).
Proof.
  induction 1 as [|[[m q] h] rs Hh _ IH]; intros r s Ha; cbn [dispatch].
  - eexists. split; [done|]. auto.
  - case_decide; [by apply Hh|by apply IH].
Qed.

(** The gates that the binary installs, whatever other options come before. *)
Lemma mgmt_gates address opts :
  authFunc (NewManagementHTTPServer address (opts ++ mgmtOptions bcryptCompare p)) = Some (verifyGate bcryptCompare p ScopeRead) ∧
  controlAuthFunc (NewManagementHTTPServer address (opts ++ mgmtOptions bcryptCompare p)) = Some (verifyGate bcryptCompare p ScopeAdmin).
Proof. unfold NewManagementHTTPServer. rewrite foldl_app. by destruct (foldl _ _ opts). Qed.

(** C36: with the gates of the server binary, a management request without the admin scope
    never changes the cache and never makes it panic, whatever the route; without the
    read scope it learns nothing but that the server is up. *)
Theorem mgmt_authorized address opts r s :
  ¬ passes ScopeAdmin r →
  ∃ resp, serveMgmt now notRouted (NewManagementHTTPServer address (opts ++ mgmtOptions bcryptCompare p)) r s = Some (s, resp) ∧
    (¬ passes ScopeRead r → m_status resp = 401%Z ∨ m_status resp = 403%Z ∨ resp = mjson (MText "ok") ∨ resp = notRouted r).
Proof.
  intros Ha. destruct (mgmt_gates address opts) as [Eg Ec]. unfold serveMgmt.
  apply harmless_dispatch; [|done]. unfold mountRoutes, wrapControlAuth, wrapAuth. rewrite Eg, Ec.
  unfold registerBasic, registerDistributed, registerCluster, registerControl. cbn [app].
  repeat (apply Forall_cons; split); [|apply harmless_view|apply harmless_view|apply harmless_view|apply harmless_view
    |apply harmless_view|apply harmless_view|apply harmless_view|apply harmless_view
    |apply harmless_control|apply harmless_control|apply harmless_control|by apply Forall_nil].
  intros r' s' _. eexists. split; [done|]. auto.
Qed.

End Authorized.

(** ** What the control routes do *)

Section Control.
Context {B A : Type} `{IBackend B} `{IAlgorithm A} (e : env) `{!BackendLaws B e} `{!AlgorithmLaws A} (cap : nat).
Context (asDist : B → option distView) (now : Z) (notRouted : mgmtRequest → mgmtResponse).
Context (bcryptCompare : string → string → bool) (p : Policy).
Local Existing Instance served_managementCache.

(** The request reaches its handler. *)
Lemma control_reached address opts r (s : servedCache (B := B) (A := A)) :
  passes bcryptCompare p ScopeAdmin r → m_method r = "POST"%string →
  serveMgmt (H := served_managementCache asDist) now notRouted
    (NewManagementHTTPServer address (opts ++ mgmtOptions bcryptCompare p)) r s =
  if decide (m_path r = "/evict"%string) then Some (TriggerEviction s, MkMResp 202 MEmpty)
  else if decide (m_path r = "/trigger-expiration"%string) then Some (TriggerExpiration now s, MkMResp 202 MEmpty)
  else if decide (m_path r = "/clear"%string) then postClear (H := served_managementCache asDist) r s
  else Some (s, notRouted r).
Proof.
  intros [id Hv] Hm. destruct (mgmt_gates bcryptCompare p address opts) as [Eg Ec].
  unfold serveMgmt, mountRoutes, wrapControlAuth. rewrite Ec.
  unfold registerBasic, registerDistributed, registerCluster, registerControl. cbn [app dispatch]. rewrite Hm.
  rewrite !(decide_False (P := "GET"%string = "POST"%string ∧ _)) by (intros [? _]; discriminate).
  assert (verifyGate bcryptCompare p ScopeAdmin (m_auth r) = None) as Hg by (unfold verifyGate; by rewrite Hv).
  cbn [wrapWithGate]. rewrite Hg.
  destruct (decide (m_path r = "/evict"%string)) as [E|E]; [by rewrite decide_True by done|].
  rewrite decide_False by (intros [_ ?]; congruence).
  destruct (decide (m_path r = "/trigger-expiration"%string)) as [E'|E']; [by rewrite decide_True by done|].
  rewrite decide_False by (intros [_ ?]; congruence).
  destruct (decide (m_path r = "/clear"%string)) as [E3|E3]; [by rewrite decide_True by done|].
  by rewrite decide_False by (intros [_ ?]; congruence).
Qed.

Lemma Clear_trigger late (h : HyperCache B A) h' err : HyperCache.Clear late h = Some (h', err) → trigger h' = trigger h.
Proof.
  unfold HyperCache.Clear. destruct (bk_List _ _) as [[its|]|]; cbn [mbind option_bind]; [|by intros [= <- _]|done].
  destruct (bk_Clear _ _) as [[b [?|]]|]; cbn [mbind option_bind]; [by intros [= <- _]| |done].
  destruct (deleteTracked _ _); [by intros [= <- _]|done].
Qed.

(** With the admin scope: [/clear] empties the cache, its algorithm and its memory count
    and keeps the configuration, [/evict] leaves a signal for the eviction job, and
    [/trigger-expiration] goes through the debounced trigger; the data stay. *)
Theorem mgmt_control_effects address opts r (s : servedCache (B := B) (A := A)) m t :
  passes bcryptCompare p ScopeAdmin r → m_method r = "POST"%string → hc_rep e cap (hc s) m t → tracked_stored t m →
  m_path r ∈ ["/evict"; "/trigger-expiration"; "/clear"]%string →
  ∃ s' resp, serveMgmt (H := served_managementCache asDist) now notRouted
      (NewManagementHTTPServer address (opts ++ mgmtOptions bcryptCompare p)) r s = Some (s', resp) ∧
    m_status resp = (if decide (m_path r = "/clear"%string) then 200 else 202)%Z ∧
    same_config (hc s) (hc s') ∧
    (if decide (m_path r = "/clear"%string)
     then hc_rep e cap (hc s') ∅ ∅ ∧ memoryAllocation (hc s') = 0%Z
     else hc_rep e cap (hc s') m t ∧ memoryAllocation (hc s') = memoryAllocation (hc s)) ∧
    evictCh s' = (if decide (m_path r = "/evict"%string) then true else evictCh s) ∧
    trigger (hc s') = (if decide (m_path r = "/trigger-expiration"%string) then execTriggerExpiration now (trigger (hc s)) else trigger (hc s)).
Proof.
  intros Hp Hm Hr Hst Hin. rewrite (control_reached address opts r s Hp Hm).
  assert (same_config (hc s) (hc s)) as Hsc by done.
  rewrite !elem_of_cons, elem_of_nil in Hin. destruct Hin as [E|[E|[E|[]]]]; rewrite !E.
  - eexists _, _. cbn. by split_and!.
  - eexists _, _. cbn. split_and!; try done. destruct Hr as [? ? ?]. by split.
  - cbn. unfold postClear. cbn [mc_Clear served_managementCache].
    destruct (Clear_ok e cap false (hc s) m t Hr) as (h & t' & Ec & Hr' & Hs' & Hmem & _ & Et).
    rewrite (Et eq_refl Hst) in Hr'.
    pose proof (Clear_trigger _ _ _ _ Ec) as Ht. rewrite Ec. cbn [mbind option_bind].
    eexists _, _. split; [reflexivity|]. cbn. by split_and!.
Qed.

End Control.

(** ** Life cycle *)

Inductive lifecycle := CallStart (listen : result string) | CallShutdown.
Definition lifeStep (s : ManagementHTTPServer) (c : lifecycle) : ManagementHTTPServer :=
  match c with CallStart listen => (Start listen s).1 | CallShutdown => Shutdown s end.
Definition succeeds (c : lifecycle) : bool := match c with CallStart (Ok _) => true | _ => false end.

(** Before a start that succeeds nothing listens. *)
Lemma life_before cs : ∀ s,
  started s = false → ln s = None → appDown s = false → forallb (λ c, negb (succeeds c)) cs = true →
  let s' := foldl lifeStep s cs in started s' = false ∧ ln s' = None ∧ appDown s' = false.
Proof.
  induction cs as [|c cs IH]; intros s H1 H2 H3 Hf; [done|]. cbn in Hf. apply andb_true_iff in Hf as [Hc Hf].
  apply IH; try done; destruct c as [[]|]; try done; cbn; unfold Start, Shutdown; rewrite H1; cbn; done.
Qed.

(** After it, only Shutdown matters. *)
Lemma life_after cs : ∀ s a,
  started s = true → ln s = Some a →
  let s' := foldl lifeStep s cs in
  started s' = true ∧ ln s' = Some a ∧ mounts s' = mounts s ∧
  appDown s' = appDown s || existsb (λ c, match c with CallShutdown => true | _ => false end) cs.
Proof.
  induction cs as [|c cs IH]; intros s a H1 H2; cbn [foldl existsb]; [by rewrite orb_false_r|].
  destruct c as [listen|]; cbn [lifeStep].
  - unfold Start. rewrite H1. cbn [fst orb]. by apply IH.
  - unfold Shutdown. rewrite H1. cbn [negb]. destruct (IH (MkMgmt (addr s) (readTimeout s) (writeTimeout s) (idleTimeout s)
      (bodyLimit s) (concurrency s) (authFunc s) (controlAuthFunc s) (ln s) true (mounts s) true true) a) as (E1 & E2 & E3 & E4); [done|done|].
    rewrite E4. by rewrite orb_true_r.
Qed.

(** The server listens exactly between its first successful start and the first shutdown
    after it, on the address of that start.  A later Start reports success but does not
    listen again. *)
Theorem mgmt_lifecycle address opts before a after :
  forallb (λ c, negb (succeeds c)) before = true →
  let fresh := NewManagementHTTPServer address opts in
  let s0 := foldl lifeStep fresh before in
  let s := foldl lifeStep fresh (before ++ CallStart (Ok a) :: after) in
  listening s0 = false ∧ Address s0 = ""%string ∧
  listening s = forallb (λ c, match c with CallShutdown => false | _ => true end) after ∧ Address s = a ∧
  ∀ listen, Start listen s = (s, None).
Proof.
  intros Hb. cbn zeta. rewrite foldl_app. cbn [foldl].
  assert (∀ s0, started s0 = false ∧ ln s0 = None ∧ appDown s0 = false →
    let s := foldl applyOption s0 opts in started s = false ∧ ln s = None ∧ appDown s = false) as Ho.
  { induction opts as [|o opts' IH]; intros s0 Hs; [done|]. apply IH. destruct s0, o; cbn; try case_match; done. }
  set (fresh := NewManagementHTTPServer address opts).
  destruct (Ho (MkMgmt address defaultReadTimeout defaultWriteTimeout defaultMgmtIdleTimeout defaultMgmtBodyLimit
       defaultMgmtConcurrency None None None false 0 false false)) as (F1 & F2 & F3); [done|].
  destruct (life_before before fresh F1 F2 F3 Hb) as (S1 & S2 & S3). set (s0 := foldl lifeStep fresh before) in *.
  set (s1 := lifeStep s0 (CallStart (Ok a))).
  assert (started s1 = true ∧ ln s1 = Some a ∧ appDown s1 = false ∧ 0 < mounts s1) as (T1 & T2 & T3 & T4).
  { unfold s1. cbn. unfold Start. rewrite S1. cbn. split_and!; try done. lia. }
  destruct (life_after after s1 a T1 T2) as (U1 & U2 & U3 & U4). rewrite T3 in U4. cbn [orb] in U4.
  unfold listening, Address. rewrite S2, U1, U2, U3, U4. split_and!; try done.
  - destruct (Nat.ltb_spec 0 (mounts s1)); [|lia]. cbn [andb].
    clear. induction after as [|[] after IH]; cbn; done.
  - intros listen. unfold Start. by rewrite U1.
Qed.

(** ** Witness *)

Definition ops_policy : Policy := MkPolicy [MkToken "ci" "t" [ScopeRead]] [] [] None false false.
Definition sample_clear : mgmtRequest := MkMReq "POST" "/clear" "" (MkRequest "Bearer t" None).

(** A cache with one counter, for the witness. *)
Definition sample_cache : managementCache Z := {|
  mc_GetStats _ := ANil; mc_Capacity _ := 0; mc_Allocation _ := 0; mc_MaxCacheSize _ := 0; mc_EvictionInterval _ := 0;
  mc_ExpirationInterval _ := 0; mc_EvictionAlgorithm _ := "lru"; mc_TriggerEviction s := Some s;
  mc_TriggerExpiration _ s := Some s; mc_Clear _ := Some (0, None); mc_distOpt := None; mc_introspect := None;
  mc_hasEvents _ := false |}%Z.

(** A token with the read scope cannot clear the cache. *)
Lemma mgmt_authorized_witness :
  ∃ resp, serveMgmt (H := sample_cache) 0 (λ _, MkMResp 404 MEmpty)
    (NewManagementHTTPServer ":8081" ([] ++ mgmtOptions sample_bcryptCompare ops_policy)) sample_clear 5%Z = Some (5%Z, resp).
Proof.
  destruct (mgmt_authorized (H := sample_cache) 0 (λ _, MkMResp 404 MEmpty) sample_bcryptCompare ops_policy ":8081" [] sample_clear 5%Z)
    as (resp & E & _).
  - intros [id Hid]. vm_compute in Hid. discriminate.
  - exists resp. exact E.
Defined.
