(* ===== verification/Topology.v ===== *)
(** * Topology events (pkg/backend/dist_memory_events.go; the event stream of
      management_http.go)

    The observer that publishes the members on every change of the membership, and the
    Server-Sent Events that the management server writes to a client: the initial frames
    and the loop that forwards the bus.

    Frames are bytes.  A connection takes [room] bytes and then fails; what a handler has
    buffered when it returns is flushed by the framework.  [jsonMarshal] is a parameter,
    with the one property of its documentation that the framing needs: its compact output
    has no line break.  The bus is EventBus.v's; here it is the sequence of events that
    the subscription delivers.

    The theorems: a client that decodes the stream gets exactly the frames that were
    written, or the first of them when the connection fails; and, as the initial snapshot
    is taken after subscribing, the last members frame of a client that kept up is the
    current membership. *)

From stdpp Require Import base gmap strings list.
From Stdlib Require Import ZArith Lia.
From S2P Require Import Prelude Item Ring Membership Management.

(** ** The code *)

Inductive payload :=
  | PMembers (replication virtualNodes : Z) (members : list memberWire)
  | PHeartbeat (heartbeatSuccess heartbeatFailure nodesRemoved readPrimaryPromote : Z).

Section Publish.
Context (sum64 : string → Z) (SortFunc : (vnode → vnode → Z) → list vnode → list vnode)
  (enum : gmap string loc → list (string * loc)).

Definition membersSnapshot (m : Membership) : option payload :=
  nodes ← List_ enum m;
  Some (PMembers (replication (ring m)) (vnPerNode (ring m)) (toWire <$> nodes)).

(** The observer of [installEventBusObserver] around one operation of the membership:
    every notification publishes the members as they are then. *)
Definition observedStep (o : mop) (m : Membership) : option (Membership * list (string * payload)) :=
  m' ← mstep sum64 SortFunc enum o m;
  if length (events m) <? length (events m')
  then p ← membersSnapshot m'; Some (m', [("members"%string, p)])
  else Some (m', []).
Fixpoint observedRun (os : list mop) (m : Membership) : option (Membership * list (string * payload)) :=
  match os with
  | [] => Some (m, [])
  | o :: os =>
      '(m, published) ← observedStep o m;
      '(m, rest) ← observedRun os m;
      Some (m, published ++ rest)
  end.

End Publish.

(** *** Frames *)

Record writer := MkWriter { out : list nat; room : nat }.

(** A write through the buffer; [false] is an error. *)
Definition fprint (bs : list nat) (w : writer) : writer * bool :=
  if length bs <=? room w then (MkWriter (out w ++ bs) (room w - length bs), true)
  else (MkWriter (out w ++ take (room w) bs) 0, false).

Definition frame (eventType : string) (body : list nat) : list nat :=
  bytes_of "event: " ++ bytes_of eventType ++ [10] ++ bytes_of "data: " ++ body ++ [10; 10].
Definition retryHint : list nat := bytes_of "retry: 5000" ++ [10; 10].

Section Stream.
Context (jsonMarshal : payload → option (list nat)).

Definition writeSSEEvent (eventType : string) (p : payload) (w : writer) : writer * bool :=
  match jsonMarshal p with None => (w, false) | Some body => fprint (frame eventType body) w end.

Definition writeInitialFrames (members heartbeat : payload) (w : writer) : writer * bool :=
  let '(w, ok) := fprint retryHint w in
  if negb ok then (w, false)
  else
    let '(w, ok) := writeSSEEvent "members" members w in
    if negb ok then (w, false) else writeSSEEvent "heartbeat" heartbeat w.

(** What the select of [streamEventsLoop] finds: the end of the context, or a receive. *)
Inductive streamInput := CtxDone | Recv (evt : option (string * payload)).

Fixpoint streamEventsLoop (ins : list streamInput) (w : writer) : writer :=
  match ins with
  | [] | CtxDone :: _ | Recv None :: _ => w
  | Recv (Some (ty, p)) :: ins =>
      let '(w, ok) := writeSSEEvent ty p w in if ok then streamEventsLoop ins w else w
  end.

(** The stream of [handleClusterEvents]. *)
Definition streamClusterEvents (initialMembers initialHeartbeat : payload) (ins : list streamInput) (w : writer) : writer :=
  let '(w, ok) := writeInitialFrames initialMembers initialHeartbeat w in
  if ok then streamEventsLoop ins w else w.

End Stream.

(** ** A client of the stream *)

(** The complete lines, as an event source splits them. *)
Fixpoint lines (cur : list nat) (bs : list nat) : list (list nat) :=
  match bs with
  | [] => []
  | b :: bs => if b =? 10 then cur :: lines [] bs else lines (cur ++ [b]) bs
  end.

Definition starts_with (p l : list nat) : bool := bool_decide (take (length p) l = p).

(** Fields are collected until an empty line dispatches them. *)
Fixpoint collect (ls : list (list nat)) (ev data : option (list nat)) : list (list nat * list nat) :=
  match ls with
  | [] => []
  | l :: ls =>
      if decide (l = []) then
        match data with Some d => (default [] ev, d) :: collect ls None None | None => collect ls None None end
      else if starts_with (bytes_of "event: ") l then collect ls (Some (drop 7 l)) data
      else if starts_with (bytes_of "data: ") l then collect ls ev (Some (drop 6 l))
      else collect ls ev data
  end.
Definition decode (bs : list nat) : list (list nat * list nat) := collect (lines [] bs) None None.

(** ** Framing *)

Lemma lines_app_nl pre : ∀ cur bs, 10 ∉ pre → lines cur (pre ++ 10 :: bs) = (cur ++ pre) :: lines [] bs.
Proof.
  induction pre as [|b pre IH]; intros cur bs H; cbn [app lines].
  - by rewrite Nat.eqb_refl, app_nil_r.
  - rewrite not_elem_of_cons in H. destruct H as [Hb H]. destruct (Nat.eqb_spec b 10); [congruence|].
    rewrite IH by done. by rewrite <- app_assoc.
Qed.

Lemma lines_prefix bs bs' : ∀ cur, bs `prefix_of` bs' → lines cur bs `prefix_of` lines cur bs'.
Proof.
  intros cur [k ->]. revert cur. induction bs as [|b bs IH]; intros cur; cbn [lines app]; [apply prefix_nil|].
  destruct (b =? 10); [by apply prefix_cons|apply IH].
Qed.

Lemma collect_prefix ls ls' : ∀ ev data, ls `prefix_of` ls' → collect ls ev data `prefix_of` collect ls' ev data.
Proof.
  intros ev data [k ->]. revert ev data. induction ls as [|l ls IH]; intros ev data; cbn [collect app]; [apply prefix_nil|].
  case_decide; [destruct data; [apply prefix_cons|]; apply IH|]. repeat case_match; apply IH.
Qed.

Lemma decode_prefix bs bs' : bs `prefix_of` bs' → decode bs `prefix_of` decode bs'.
Proof. intros H. by apply collect_prefix, lines_prefix. Qed.

(** A frame is one event, whatever follows. *)
Lemma decode_frame ty body rest :
  10 ∉ bytes_of ty → 10 ∉ body → decode (frame ty body ++ rest) = (bytes_of ty, body) :: decode rest.
Proof.
  intros Ht Hb. unfold decode, frame. rewrite <- !app_assoc.
  rewrite (app_assoc (bytes_of "event: ")). cbn [app]. rewrite lines_app_nl.
  2:{ rewrite elem_of_app. intros [H|H]; [|done]. by apply (bool_decide_unpack (10 ∉ bytes_of "event: ")) in H. }
  rewrite (app_assoc (bytes_of "data: ")). cbn [app]. rewrite lines_app_nl.
  2:{ rewrite elem_of_app. intros [H|H]; [|done]. by apply (bool_decide_unpack (10 ∉ bytes_of "data: ")) in H. }
  cbn [lines]. rewrite Nat.eqb_refl. reflexivity.
Qed.

(** ** The stream *)

Section StreamFacts.
Context (jsonMarshal : payload → option (list nat)).
Context (Hjson : ∀ p body, jsonMarshal p = Some body → 10 ∉ body).

(** The events received before the stream ends, and their frames up to the first that
    cannot be encoded. *)
Fixpoint forwarded (ins : list streamInput) : list (string * payload) :=
  match ins with Recv (Some e) :: ins => e :: forwarded ins | _ => [] end.
Fixpoint encoded (evs : list (string * payload)) : list (string * list nat) :=
  match evs with
  | [] => []
  | (ty, p) :: evs => match jsonMarshal p with Some body => (ty, body) :: encoded evs | None => [] end
  end.
Definition wire (l : list (string * list nat)) : list nat := concat ((λ e, frame e.1 e.2) <$> l).
Definition decoded (l : list (string * list nat)) : list (list nat * list nat) := (λ e, (bytes_of e.1, e.2)) <$> l.

Lemma fprint_out bs w w' ok : fprint bs w = (w', ok) →
  if ok then out w' = out w ++ bs ∧ room w' = room w - length bs ∧ length bs ≤ room w
  else out w' = out w ++ take (room w) bs ∧ room w < length bs.
Proof. unfold fprint. destruct (Nat.leb_spec (length bs) (room w)); intros [= <- <-]; cbn; split_and!; (done || lia). Qed.

(** Frames written one after the other are one byte string, cut where the room ends. *)
Lemma write_events evs : ∀ w,
  let step (acc : writer * bool) (e : string * payload) := if acc.2 then writeSSEEvent jsonMarshal e.1 e.2 acc.1 else acc in
  out (foldl step (w, true) evs).1 = out w ++ take (room w) (wire (encoded evs)).
Proof.
  intros w step.
  assert (∀ evs w, foldl step (w, false) evs = (w, false)) as Hf by (clear; induction evs; cbn; auto).
  revert w. induction evs as [|[ty p] evs IH]; intros w; cbn [foldl encoded].
  { cbn. by rewrite take_nil, app_nil_r. }
  unfold step at 2. cbn [snd fst]. unfold writeSSEEvent. destruct (jsonMarshal p) as [body|] eqn:Ej.
  2:{ rewrite Hf. cbn. by rewrite take_nil, app_nil_r. }
  destruct (fprint (frame ty body) w) as [w1 ok] eqn:Ew. apply fprint_out in Ew.
  change (wire ((ty, body) :: encoded evs)) with (frame ty body ++ wire (encoded evs)). destruct ok.
  - destruct Ew as (E1 & E2 & E3). rewrite IH, E1, E2, <- app_assoc. f_equal. by rewrite (take_app_ge (frame ty body)).
  - destruct Ew as (E1 & E2). rewrite Hf. cbn [fst]. rewrite E1, take_app_le by lia. done.
Qed.

Lemma stream_foldl ins : ∀ w,
  let step (acc : writer * bool) (e : string * payload) := if acc.2 then writeSSEEvent jsonMarshal e.1 e.2 acc.1 else acc in
  streamEventsLoop jsonMarshal ins w = (foldl step (w, true) (forwarded ins)).1.
Proof.
  intros w step.
  assert (∀ evs w, foldl step (w, false) evs = (w, false)) as Hf by (clear; induction evs; cbn; auto).
  revert w. induction ins as [|[|[[ty p]|]] ins IH]; intros w; cbn [streamEventsLoop forwarded foldl]; try done.
  unfold step at 2. cbn [snd fst]. destruct (writeSSEEvent jsonMarshal ty p w) as [w1 []]; [apply IH|by rewrite Hf].
Qed.

(** The bytes of the whole stream. *)
Lemma stream_out members heartbeat ins r :
  out (streamClusterEvents jsonMarshal members heartbeat ins (MkWriter [] r)) =
  take r (retryHint ++ wire (encoded (("members"%string, members) :: ("heartbeat"%string, heartbeat) :: forwarded ins))).
Proof.
  unfold streamClusterEvents, writeInitialFrames. destruct (fprint retryHint (MkWriter [] r)) as [w ok] eqn:E0.
  apply fprint_out in E0. cbn [out room app] in E0. destruct ok; cbn [negb].
  2:{ destruct E0 as [E1 E2]. by rewrite E1, take_app_le by lia. }
  destruct E0 as (E1 & E2 & E3). rewrite take_app_ge by done. rewrite <- E2, <- E1.
  rewrite <- write_events. cbn [foldl fst snd]. destruct (writeSSEEvent jsonMarshal "members" members w) as [w1 ok1].
  assert (∀ evs w, (foldl (λ (acc : writer * bool) (e : string * payload), if acc.2 then writeSSEEvent jsonMarshal e.1 e.2 acc.1 else acc)
            (w, false) evs) = (w, false)) as Hf by (clear; induction evs; cbn; auto).
  destruct ok1; cbn [negb snd fst]; [|by rewrite Hf].
  destruct (writeSSEEvent jsonMarshal "heartbeat" heartbeat w1) as [w2 ok2]. destruct ok2; [|by rewrite Hf].
  by rewrite stream_foldl.
Qed.

Lemma decode_retry bs : decode (retryHint ++ bs) = decode bs.
Proof. reflexivity. Qed.

Lemma decode_wire evs :
  Forall (λ e : string * payload, 10 ∉ bytes_of e.1) evs → decode (wire (encoded evs)) = decoded (encoded evs).
Proof.
  induction 1 as [|[ty p] evs Ht _ IH]; [done|]. cbn [encoded]. destruct (jsonMarshal p) as [body|] eqn:Ej; [|done].
  change (wire ((ty, body) :: encoded evs)) with (frame ty body ++ wire (encoded evs)).
  rewrite decode_frame by (done || by eapply Hjson). by rewrite IH.
Qed.

(** A client of the event stream decodes the snapshots and the forwarded events, each
    with its type and body and in order: all of them when the connection takes the whole
    stream, the first of them when it fails on the way. *)
Theorem sse_roundtrip members heartbeat ins r :
  Forall (λ e : string * payload, 10 ∉ bytes_of e.1) (forwarded ins) →
  let evs := encoded (("members"%string, members) :: ("heartbeat"%string, heartbeat) :: forwarded ins) in
  let got := decode (out (streamClusterEvents jsonMarshal members heartbeat ins (MkWriter [] r))) in
  got `prefix_of` decoded evs ∧
  (length retryHint + length (wire evs) ≤ r → got = decoded evs).
Proof.
  intros Ht. cbn zeta. rewrite stream_out.
  set (all := (_, members) :: _). assert (Forall (λ e : string * payload, 10 ∉ bytes_of e.1) all) as Hall.
  { repeat (apply Forall_cons; split); [..|done]; by apply (bool_decide_unpack _). }
  rewrite <- (decode_wire _ Hall), <- (decode_retry (wire _)). split.
  - apply decode_prefix, prefix_take.
  - intros Hr. by rewrite take_ge by (rewrite length_app; lia).
Qed.

End StreamFacts.

(** ** The membership that a client sees *)

Section Current.
Context (sum64 : string → Z) (SortFunc : (vnode → vnode → Z) → list vnode → list vnode)
  (enum : gmap string loc → list (string * loc)).
Context (Henum : ∀ m, enum m ≡ₚ map_to_list m).

(** What the wire shows of a membership. *)
Definition shown (m : Membership) : gmap string memberWire := toWire <$> view m.

(** A payload is a snapshot of the membership, in some order of the members. *)
Definition shows (m : Membership) (p : payload) : Prop :=
  ∃ ws, p = PMembers (replication (ring m)) (vnPerNode (ring m)) ws ∧ ws ≡ₚ (map_to_list (shown m)).*2.

Lemma membersSnapshot_ok m : wf m → ∃ p, membersSnapshot enum m = Some p ∧ shows m p.
Proof.
  intros Hw. unfold membersSnapshot. destruct (List_ok enum Henum m Hw) as (l & -> & P). cbn [mbind option_bind].
  eexists. split; [done|]. eexists. split; [done|]. unfold shown. rewrite P, map_to_list_fmap.
  rewrite <- !list_fmap_compose. reflexivity.
Qed.

(** A step that tells the observers nothing shows nothing new. *)
Lemma silent_step o m m' :
  wf m → mstep sum64 SortFunc enum o m = Some m' → length (events m) <? length (events m') = false →
  wf m' ∧ shown m' = shown m ∧ ring m' = ring m.
Proof.
  intros Hw E Hs. apply Nat.ltb_ge in Hs. destruct o as [now n|id|now id st|now id]; cbn [mstep] in E.
  - destruct (alloc_ok n m Hw) as (Hw0 & Hv0 & Hp). destruct (alloc n m) as [p m0] eqn:Ea. cbn [fst snd] in *.
    destruct (Upsert_ok sum64 SortFunc enum Henum now p n m0 Hw0 Hp) as (m1 & E' & _ & _ & [_ Ha] & _).
    rewrite E in E'. injection E' as <-. unfold alloc in Ea. simplify_eq. rewrite Ha, length_app in Hs. cbn in Hs. lia.
  - destruct (membership_Remove_ok sum64 SortFunc enum Henum id m Hw) as (m1 & E' & ? & Hv & _ & Hn & Ha).
    rewrite E' in E. injection E as <-. destruct (view m !! id) eqn:Ei.
    + destruct Ha as [[_ Ha] _]; [done|]. rewrite Ha, length_app in Hs. cbn in Hs. lia.
    + by rewrite (Hn eq_refl).
  - destruct (Mark_ok now id st m Hw) as (m1 & E' & ? & Hr & _ & Hc). rewrite E' in E. injection E as <-.
    split; [done|]. split; [|done]. destruct (view m !! id) as [n|] eqn:Ei; [|by rewrite Hc].
    case_decide; [|destruct Hc as [_ [_ Ha]]; rewrite Ha, length_app in Hs; cbn in Hs; lia].
    destruct Hc as (Hv & _). unfold shown. rewrite Hv, fmap_insert. apply insert_id. by rewrite lookup_fmap, Ei.
  - destruct (Refute_ok now id m Hw) as (m1 & E' & ? & Hr & _ & Hc). rewrite E' in E. injection E as <-.
    destruct (view m !! id) eqn:Ei; [|by rewrite Hc]. destruct Hc as [_ [_ Ha]].
    rewrite Ha, length_app in Hs. cbn in Hs. lia.
Qed.

Lemma shows_eq m m' p : shown m' = shown m → ring m' = ring m → shows m p → shows m' p.
Proof. unfold shows. by intros -> ->. Qed.

(** The last of the initial snapshot and the published ones is current. *)
Lemma observedRun_ok os : ∀ m p0,
  wf m → shows m p0 →
  ∃ m' log, observedRun sum64 SortFunc enum os m = Some (m', log) ∧ wf m' ∧
    mrun sum64 SortFunc enum os m = Some m' ∧ Forall (λ e, e.1 = "members"%string) log ∧
    ∃ p, last (("members"%string, p0) :: log) = Some ("members"%string, p) ∧ shows m' p.
Proof.
  induction os as [|o os IH]; intros m p0 Hw Hp0; cbn [observedRun mrun].
  { exists m, []. split_and!; try done. by exists p0. }
  unfold observedStep. destruct (mstep_ok sum64 SortFunc enum Henum o m Hw) as (m1 & E1 & Hw1 & _). rewrite E1.
  cbn [mbind option_bind]. destruct (length (events m) <? length (events m1)) eqn:El.
  - destruct (membersSnapshot_ok m1 Hw1) as (p & -> & Hp). cbn [mbind option_bind].
    destruct (IH m1 p Hw1 Hp) as (m' & log & Eo & Hw' & Er & Hf & q & Hl & Hq). rewrite Eo, Er. cbn [mbind option_bind].
    exists m', (("members"%string, p) :: log). split_and!; try done; [by constructor|]. exists q. split; [|done].
    by rewrite last_cons_cons.
  - destruct (silent_step o m m1 Hw E1 El) as (_ & Hs & Hr).
    destruct (IH m1 p0 Hw1 (shows_eq _ _ _ Hs Hr Hp0)) as (m' & log & Eo & Hw' & Er & Hf & q & Hl & Hq).
    cbn [mbind option_bind]. rewrite Eo, Er. cbn [mbind option_bind]. exists m', log. split_and!; try done. by exists q.
Qed.

Lemma encoded_all jsonMarshal evs :
  Forall (λ e : string * payload, is_Some (jsonMarshal e.2)) evs →
  encoded jsonMarshal evs = (λ e, (e.1, default [] (jsonMarshal e.2))) <$> evs.
Proof. induction 1 as [|[ty p] evs [b Hb] _ IH]; [done|]. cbn in *. rewrite Hb, IH. done. Qed.

(** A client connects, and the membership goes through any sequence of changes; if
    the connection takes the whole stream and every payload can be encoded, the last
    members frame the client has decoded is the encoding of the current members: id,
    address, state and incarnation of each, with the ring's parameters. *)
Theorem topology_stream_current jsonMarshal (Hjson : ∀ p body, jsonMarshal p = Some body → 10 ∉ body)
    (Htotal : ∀ p, is_Some (jsonMarshal p)) m heartbeat os p0 r :
  wf m → membersSnapshot enum m = Some p0 →
  ∃ m' log, observedRun sum64 SortFunc enum os m = Some (m', log) ∧ mrun sum64 SortFunc enum os m = Some m' ∧
    let ins := (λ e, Recv (Some e)) <$> log in
    let evs := encoded jsonMarshal (("members"%string, p0) :: ("heartbeat"%string, heartbeat) :: forwarded ins) in
    (length retryHint + length (wire evs) ≤ r →
     ∃ p body, shows m' p ∧ jsonMarshal p = Some body ∧
       last (filter (λ f, f.1 = bytes_of "members")
         (decode (out (streamClusterEvents jsonMarshal p0 heartbeat ins (MkWriter [] r))))) = Some (bytes_of "members", body)).
Proof.
  intros Hw Hp0. destruct (membersSnapshot_ok m Hw) as (p & Ep & Hsh). rewrite Hp0 in Ep. injection Ep as <-.
  destruct (observedRun_ok os m p0 Hw Hsh) as (m' & log & E & _ & Er & Hf & q & Hl & Hq).
  exists m', log. split; [done|]. split; [done|]. cbn zeta. intros Hr.
  assert (forwarded ((λ e, Recv (Some e)) <$> log) = log) as Efw by (clear; induction log; cbn; congruence).
  rewrite Efw in Hr. destruct (Htotal q) as [body Hb]. exists q, body. split; [done|]. split; [done|].
  destruct (sse_roundtrip jsonMarshal Hjson p0 heartbeat ((λ e, Recv (Some e)) <$> log) r) as [_ Hd].
  { rewrite Efw. eapply Forall_impl; [exact Hf|]. intros [ty pl]. cbn. intros ->. by apply (bool_decide_unpack _). }
  rewrite Efw in Hd. rewrite (Hd Hr), encoded_all by (by apply Forall_forall).
  unfold decoded. cbn [fmap list_fmap fst snd filter].
  rewrite !filter_cons. rewrite decide_True by done. rewrite decide_False by (by apply (bool_decide_unpack _)).
  assert (∀ x, last ((λ e : string * list nat, (bytes_of e.1, e.2)) <$> ((λ e : string * payload, (e.1, default [] (jsonMarshal e.2))) <$>
            (("members"%string, x) :: log))) = (λ e : string * payload, (bytes_of e.1, default [] (jsonMarshal e.2))) <$> last (("members"%string, x) :: log)) as HL.
  { intros x. rewrite <- list_fmap_compose, fmap_last. done. }
  rewrite (filter_all _ (_ <$> _)).
  - specialize (HL p0). rewrite Hl in HL. cbn [fmap option_fmap option_map fst snd] in HL. rewrite Hb in HL. exact HL.
  - apply Forall_fmap, Forall_fmap. eapply Forall_impl; [exact Hf|]. intros [ty pl]. cbn. by intros ->.
Qed.

End Current.

(** ** Witness *)

(** An encoding without line breaks. *)
Definition sample_marshal (p : payload) : option (list nat) :=
  Some (match p with PMembers _ _ ms => 91 :: ((λ w, 97 + length (bytes_of (w_State w))) <$> ms) ++ [93] | PHeartbeat _ _ _ _ => [123; 125] end).

Lemma topology_stream_current_witness :
  ∃ p0 m' log, membersSnapshot map_to_list sample_members = Some p0 ∧
    observedRun sample_sum64 sample_sort map_to_list [MMark 5 "b" NodeSuspect; MRemove "c"; MMark 6 "b" NodeSuspect] sample_members = Some (m', log) ∧
    ∃ p body, shows m' p ∧ sample_marshal p = Some body ∧
      last (filter (λ f, f.1 = bytes_of "members")
        (decode (out (streamClusterEvents sample_marshal p0 (PHeartbeat 1 0 0 0) ((λ e, Recv (Some e)) <$> log) (MkWriter [] 1000)))))
        = Some (bytes_of "members", body).
Proof.
  destruct (membersSnapshot_ok map_to_list (λ _, reflexivity _) sample_members membership_sample_wf) as (p0 & Hp0 & _).
  destruct (topology_stream_current sample_sum64 sample_sort map_to_list (λ _, reflexivity _) sample_marshal) with
    (m := sample_members) (heartbeat := PHeartbeat 1 0 0 0) (p0 := p0) (r := 1000)
    (os := [MMark 5 "b" NodeSuspect; MRemove "c"; MMark 6 "b" NodeSuspect]) as (m' & log & E & _ & H).
  - intros [a b ms|] body [= <-]; [|by apply (bool_decide_unpack _)].
    rewrite not_elem_of_cons, elem_of_app, list_elem_of_fmap, list_elem_of_singleton. split; [done|]. intros [(w & Hw & _)|]; [|done]. lia.
  - intros p. by eexists.
  - exact membership_sample_wf.
  - exact Hp0.
  - exists p0, m', log. split; [exact Hp0|]. split; [exact E|]. apply H. clear H.
    vm_compute in Hp0. injection Hp0 as <-. vm_compute in E. injection E as <- <-.
    apply Nat.leb_le. vm_compute. reflexivity.
Defined.
