(* ===== verification/Jobs.v ===== *)
(** * Background jobs of the cache (hypercache_expiration.go, hypercache_eviction.go)

    The expiration and eviction routines with the callers of the two manual triggers, as
    interleaved threads at the grain of the atomic operations and the channel operations.
    A state has the pending flag, the signals in the two channels, the position of the
    expiration routine, the positions of the callers, and the jobs given to the worker
    pool so far (the pool itself is Pool.v, the jobs are HyperCache.v's).

    The theorems: a caller that runs alone does what HyperCache.v says of a trigger; as
    long as the drain has thrown no signal away, a pending flag means that a signal is on
    its way and at most one is; and every signal that the drain throws away leaves the
    flag set with nothing to reset it, so no later trigger ever starts an expiration. *)

From stdpp Require Import base gmap strings list.
From Stdlib Require Import ZArith Lia.
From S2P Require Import Prelude HyperCache.

(** ** The code *)

(** A job for the worker pool, and what asked for it. *)
Inductive job := ExpirationJob (scheduled : bool) | EvictionJob (scheduled : bool).
#[export] Instance job_eq_dec : EqDecision job.
Proof. solve_decision. Defined.

(** A caller of [execTriggerExpiration], which read the clock at [now]. *)
Inductive cpc := TDebounce (now : Z) | TSwap (now : Z) | TSend (now : Z) | TStamp (now : Z) | TReturned.

(** The expiration routine: in its select, after a triggered job was enqueued, in the
    draining loop, or gone. *)
Inductive lpc := LSelect | LClear | LDrain | LExit.

Record jobs := MkJobs {
  debounce : Z;                 (* expirationDebounceInterval *)
  hasTick : bool;               (* expirationInterval > 0 *)
  hasEvictTick : bool;          (* evictionInterval > 0 *)
  bufSize : nat;
  lastTrigger : Z;
  pending : bool;               (* expirationSignalPending *)
  queued : nat;                 (* expirationTriggerCh *)
  evictCh : bool;               (* one signal at most *)
  routine : lpc;
  callers : list cpc;
  enqueued : list job;
  canceled : bool }.

Definition with_caller (i : nat) (c : cpc) (s : jobs) : jobs :=
  MkJobs (debounce s) (hasTick s) (hasEvictTick s) (bufSize s) (lastTrigger s) (pending s) (queued s) (evictCh s)
    (routine s) (<[i := c]> (callers s)) (enqueued s) (canceled s).
Definition with_signal (p : bool) (q : nat) (s : jobs) : jobs :=
  MkJobs (debounce s) (hasTick s) (hasEvictTick s) (bufSize s) (lastTrigger s) p q (evictCh s)
    (routine s) (callers s) (enqueued s) (canceled s).
Definition with_last (t : Z) (s : jobs) : jobs :=
  MkJobs (debounce s) (hasTick s) (hasEvictTick s) (bufSize s) t (pending s) (queued s) (evictCh s)
    (routine s) (callers s) (enqueued s) (canceled s).
Definition with_evict (b : bool) (s : jobs) : jobs :=
  MkJobs (debounce s) (hasTick s) (hasEvictTick s) (bufSize s) (lastTrigger s) (pending s) (queued s) b
    (routine s) (callers s) (enqueued s) (canceled s).
Definition with_routine (r : lpc) (s : jobs) : jobs :=
  MkJobs (debounce s) (hasTick s) (hasEvictTick s) (bufSize s) (lastTrigger s) (pending s) (queued s) (evictCh s)
    r (callers s) (enqueued s) (canceled s).
Definition enqueue (j : job) (s : jobs) : jobs :=
  MkJobs (debounce s) (hasTick s) (hasEvictTick s) (bufSize s) (lastTrigger s) (pending s) (queued s) (evictCh s)
    (routine s) (callers s) (enqueued s ++ [j]) (canceled s).

(** [execTriggerExpiration], one step of caller [i]. *)
Definition execTriggerStep (i : nat) (s : jobs) : option jobs :=
  match callers s !! i with
  | Some (TDebounce now) =>
      Some (with_caller i
        (if ((0 <? debounce s) && (sat64 (now - lastTrigger s) <? debounce s))%Z then TReturned else TSwap now) s)
  | Some (TSwap now) =>
      Some (if pending s then with_caller i TReturned s else with_caller i (TSend now) (with_signal true (queued s) s))
  | Some (TSend now) =>
      Some (if queued s <? bufSize s then with_caller i (TStamp now) (with_signal (pending s) (queued s + 1) s)
            else with_caller i TReturned s)
  | Some (TStamp now) => Some (with_caller i TReturned (with_last now s))
  | Some TReturned | None => None
  end.

(** [TriggerEviction] sends without blocking. *)
Definition TriggerEviction (s : jobs) : jobs := with_evict true s.

(** The cases of [handleExpirationSelect], and the tick of [startEvictionRoutine]. *)
Definition onTick (s : jobs) : option jobs :=
  match routine s with LSelect => if hasTick s then Some (enqueue (ExpirationJob true) s) else None | _ => None end.
Definition onTrigger (s : jobs) : option jobs :=
  match routine s, queued s with
  | LSelect, S q => Some (with_routine LClear (enqueue (ExpirationJob false) (with_signal (pending s) q s)))
  | _, _ => None
  end.
Definition clearPending (s : jobs) : option jobs :=
  match routine s with LClear => Some (with_routine LDrain (with_signal false (queued s) s)) | _ => None end.
Definition drain (s : jobs) : option jobs :=
  match routine s with
  | LDrain => match queued s with S q => Some (with_signal (pending s) q s) | 0 => Some (with_routine LSelect s) end
  | _ => None
  end.
Definition onEvict (s : jobs) : option jobs :=
  match routine s with
  | LSelect => if evictCh s then Some (enqueue (EvictionJob false) (with_evict false s)) else None
  | _ => None
  end.
Definition onDone (s : jobs) : option jobs :=
  match routine s with LSelect => if canceled s then Some (with_routine LExit s) else None | _ => None end.
Definition evictTick (s : jobs) : option jobs :=
  if hasEvictTick s && negb (canceled s) then Some (enqueue (EvictionJob true) s) else None.

Inductive label :=
  | CallTrigger (now : Z)
  | RunCaller (i : nat)
  | CallEvict
  | RTick | RTrigger | RClear | RDrain | REvict | RDone
  | ETick
  | Stop.

Definition step (l : label) (s : jobs) : option jobs :=
  match l with
  | CallTrigger now =>
      Some (MkJobs (debounce s) (hasTick s) (hasEvictTick s) (bufSize s) (lastTrigger s) (pending s) (queued s) (evictCh s)
              (routine s) (callers s ++ [TDebounce now]) (enqueued s) (canceled s))
  | RunCaller i => execTriggerStep i s
  | CallEvict => Some (TriggerEviction s)
  | RTick => onTick s | RTrigger => onTrigger s | RClear => clearPending s | RDrain => drain s
  | REvict => onEvict s | RDone => onDone s
  | ETick => evictTick s
  | Stop =>
      Some (MkJobs (debounce s) (hasTick s) (hasEvictTick s) (bufSize s) (lastTrigger s) (pending s) (queued s) (evictCh s)
              (routine s) (callers s) (enqueued s) true)
  end.

Definition start (debounce : Z) (hasTick hasEvictTick : bool) (bufSize : nat) : jobs :=
  MkJobs debounce hasTick hasEvictTick bufSize 0 false 0 false LSelect [] [] false.

Inductive reachable : jobs → Prop :=
  | reachable_start d ht he n : 0 < n → reachable (start d ht he n)
  | reachable_step l s s' : reachable s → step l s = Some s' → reachable s'.

Fixpoint run (ls : list label) (s : jobs) : option jobs :=
  match ls with [] => Some s | l :: ls => s ← step l s; run ls s end.

(** ** Signals *)

(** Expirations that a trigger started. *)
Definition triggered (s : jobs) : nat := length (filter (λ j, j = ExpirationJob false) (enqueued s)).

Definition sending (c : cpc) : nat := match c with TSend _ => 1 | _ => 0 end.

(** The signals on their way: about to be sent, in the channel, or received and not yet
    answered by clearing the flag. *)
Definition tokens (s : jobs) : nat :=
  sum_list (sending <$> callers s) + queued s + match routine s with LClear => 1 | _ => 0 end.

(** At most one signal is on its way, and then the flag is set; the flag alone is set only
    when a signal was thrown away. *)
Definition live (s : jobs) : Prop := tokens s = if pending s then 1 else 0.
Definition dead (s : jobs) : Prop := pending s = true ∧ tokens s = 0.

Lemma sum_list_insert (l : list nat) i x y : l !! i = Some x → sum_list (<[i := y]> l) + x = sum_list l + y.
Proof.
  revert i. induction l as [|z l IH]; intros [|i] H; try done; cbn in *.
  - injection H as ->. unfold id in *; lia.
  - apply IH, (f_equal (Nat.add z)) in H. rewrite !Nat.add_assoc in H. exact H.
Qed.

Lemma tokens_caller i c c' s : callers s !! i = Some c →
  sum_list (sending <$> <[i := c']> (callers s)) + sending c = sum_list (sending <$> callers s) + sending c'.
Proof. intros H. rewrite list_fmap_insert. apply sum_list_insert. by rewrite list_lookup_fmap, H. Qed.

Lemma sending_le i c s : callers s !! i = Some c → sending c ≤ sum_list (sending <$> callers s).
Proof. intros H. pose proof (tokens_caller i c TReturned s H). cbn in *. lia. Qed.

Lemma triggered_enqueue j s : triggered (enqueue j s) = triggered s + if decide (j = ExpirationJob false) then 1 else 0.
Proof.
  unfold triggered. cbn [enqueued enqueue]. rewrite filter_app, length_app, filter_cons, filter_nil. by case_decide.
Qed.

(** What a caller's step does to the signals. *)
Lemma caller_step i s s' :
  execTriggerStep i s = Some s' → 0 < bufSize s →
  bufSize s' = bufSize s ∧ routine s' = routine s ∧ enqueued s' = enqueued s ∧ (live s → live s') ∧ (dead s → dead s').
Proof.
  unfold execTriggerStep, live, dead, tokens. intros E Hb. destruct (callers s !! i) as [c|] eqn:Ec; [|done].
  pose proof (λ c', tokens_caller i c c' s Ec) as Ht. pose proof (sending_le i c s Ec) as Hle.
  destruct c as [now|now|now|now|]; try done.
  - injection E as <-. set (c' := if _ : bool then TReturned else TSwap now). specialize (Ht c').
    assert (sending c' = 0) as E0 by (unfold c'; by destruct (_ && _)). cbn in *.
    split_and!; [done..| |]; destruct (pending s); lia.
  - destruct (pending s) eqn:Ep; injection E as <-; cbn [with_caller with_signal bufSize routine enqueued pending callers queued].
    + specialize (Ht TReturned). cbn in Ht. rewrite Ep. split_and!; [done..| |]; lia.
    + specialize (Ht (TSend now)). cbn in Ht. split_and!; [done..| |]; lia.
  - destruct (Nat.ltb_spec (queued s) (bufSize s)); injection E as <-;
      cbn [with_caller with_signal bufSize routine enqueued pending callers queued].
    + specialize (Ht (TStamp now)). cbn in *. split_and!; [done..| |]; destruct (pending s); lia.
    + specialize (Ht TReturned). cbn in *. split_and!; [done..| |]; destruct (pending s); lia.
  - injection E as <-. cbn [with_caller with_last bufSize routine enqueued pending callers queued].
    specialize (Ht TReturned). cbn in *. split_and!; [done..| |]; destruct (pending s); lia.
Qed.

(** Every step keeps the signals in order, but for the drain that throws one away; and
    nothing brings a dead trigger back. *)
Lemma step_signals l s s' :
  step l s = Some s' → 0 < bufSize s →
  bufSize s' = bufSize s ∧ (live s → live s' ∨ l = RDrain ∧ 0 < queued s ∧ dead s') ∧
  (dead s → dead s' ∧ triggered s' = triggered s).
Proof.
  intros E Hb. destruct l; cbn [step] in E.
  2:{ destruct (caller_step _ _ _ E Hb) as (E1 & _ & E3 & Hl & Hd). split; [done|]. split; [auto|].
      intros H. split; [auto|]. unfold triggered. by rewrite E3. }
  - injection E as <-. unfold live, dead, tokens. cbn. rewrite fmap_app, sum_list_with_app. cbn. rewrite Nat.add_0_r. auto.
  - injection E as <-. unfold live, dead, tokens. cbn. auto.
  - unfold onTick in E. destruct (routine s) eqn:Er; try done. destruct (hasTick s); try done. injection E as <-.
    rewrite triggered_enqueue. unfold live, dead, tokens. cbn. rewrite Nat.add_0_r. auto.
  - unfold onTrigger in E. destruct (routine s) eqn:Er; try done. destruct (queued s) as [|q] eqn:Eq; try done. injection E as <-.
    unfold live, dead, tokens. cbn. rewrite Er, Eq. split; [done|]. split; [left; destruct (pending s); lia|lia].
  - unfold clearPending in E. destruct (routine s) eqn:Er; try done. injection E as <-.
    unfold live, dead, tokens. cbn. rewrite Er. split; [done|]. split; [left; destruct (pending s); lia|lia].
  - unfold drain in E. destruct (routine s) eqn:Er; try done. destruct (queued s) as [|q] eqn:Eq; injection E as <-.
    + unfold live, dead, tokens. cbn. rewrite Er, Eq. auto.
    + unfold live, dead, tokens. cbn. rewrite Er, Eq. split; [done|]. split; [right|lia]. destruct (pending s); split_and!; lia || done.
  - unfold onEvict in E. destruct (routine s) eqn:Er; try done. destruct (evictCh s); try done. injection E as <-.
    rewrite triggered_enqueue. unfold live, dead, tokens. cbn. rewrite Nat.add_0_r. auto.
  - unfold onDone in E. destruct (routine s) eqn:Er; try done. destruct (canceled s); try done. injection E as <-.
    unfold live, dead, tokens. cbn. rewrite Er. auto.
  - unfold evictTick in E. destruct (_ && _); try done. injection E as <-.
    rewrite triggered_enqueue. unfold live, dead, tokens. cbn. rewrite Nat.add_0_r. auto.
  - injection E as <-. unfold live, dead, tokens. cbn. auto.
Qed.

Lemma reachable_signals s : reachable s → 0 < bufSize s ∧ (live s ∨ dead s).
Proof.
  induction 1 as [d ht he n Hn|l s s' _ [Hb IH] E]; [split; [done|]; by left|].
  destruct (step_signals l s s' E Hb) as (-> & Hl & Hd). split; [done|].
  destruct IH as [H|H]; [destruct (Hl H) as [?|(_ & _ & ?)]; auto|right; by apply Hd].
Qed.

Lemma dead_run ls : ∀ s s', 0 < bufSize s → dead s → run ls s = Some s' → dead s' ∧ triggered s' = triggered s.
Proof.
  induction ls as [|l ls IH]; intros s s' Hb Hd E; cbn [run] in E; [by injection E as <-|].
  destruct (step l s) as [s1|] eqn:E1; [|done]. cbn [mbind option_bind] in E.
  destruct (step_signals l s s1 E1 Hb) as (Eb & _ & H). destruct (H Hd) as [Hd1 Ht1].
  destruct (IH s1 s') as [? ?]; [lia|done|done|]. split; [done|lia].
Qed.

(** C37: the drain after a triggered expiration does only harm: whenever it finds a signal
    to throw away, the pending flag stays set for good, and no call of TriggerExpiration,
    Get, GetOrSet or GetMultiple ever starts an expiration again. *)
Theorem expiration_trigger_dies s s' ls s'' :
  reachable s → drain s = Some s' → 0 < queued s → run ls s' = Some s'' →
  triggered s'' = triggered s ∧ pending s'' = true.
Proof.
  intros Hr Ed Hq Er. destruct (reachable_signals s Hr) as [Hb [Hl|[Hp Ht]]].
  2:{ exfalso. unfold tokens in Ht. lia. }
  destruct (step_signals RDrain s s' Ed Hb) as (Eb & H & _). destruct (H Hl) as [Hl'|(_ & _ & Hd)].
  - exfalso. unfold drain in Ed. destruct (routine s) eqn:Er'; try done. destruct (queued s) as [|q] eqn:Eq; [lia|].
    injection Ed as <-. unfold live, tokens in Hl, Hl'. cbn in *. rewrite Er' in *. destruct (pending s); lia.
  - destruct (dead_run ls s' s'') as [[Hp _] Ht]; [lia|done|done|]. split; [|done]. rewrite Ht.
    unfold drain in Ed. destruct (routine s); try done. destruct (queued s); [lia|]. by injection Ed as <-.
Qed.

(** As long as the drain throws nothing away, a pending flag means that exactly one signal
    is on its way, so a coalesced trigger loses nothing. *)
Theorem trigger_on_its_way s s' l :
  reachable s → live s → step l s = Some s' → (l = RDrain → queued s = 0) →
  live s' ∧ (pending s' = true → tokens s' = 1).
Proof.
  intros Hr Hl E Hd. destruct (reachable_signals s Hr) as [Hb _].
  destruct (step_signals l s s' E Hb) as (_ & H & _). destruct (H Hl) as [Hl'|(-> & Hq & _)].
  - split; [done|]. intros Hp. unfold live in Hl'. by rewrite Hp in Hl'.
  - specialize (Hd eq_refl). lia.
Qed.

(** ** A caller that is not interrupted *)

Definition triggerOf (s : jobs) : Trigger := MkTrigger (debounce s) (lastTrigger s) (pending s) (queued s) (bufSize s).

(** One step of the caller in the proof below. *)
Ltac caller_steps Hi Hins Ed Ep Eq :=
  progress (cbn [replicate run step mbind option_bind]; unfold execTriggerStep, with_caller, with_signal, with_last;
            cbn [callers debounce lastTrigger pending queued bufSize hasTick hasEvictTick evictCh routine enqueued canceled];
            rewrite ?Hi, ?Hins, ?Ed, ?Ep, ?Eq).

(** Four steps of a caller are HyperCache.v's trigger. *)
Theorem trigger_sequential now s :
  ∃ n s', run (CallTrigger now :: replicate n (RunCaller (length (callers s)))) s = Some s' ∧
    triggerOf s' = execTriggerExpiration now (triggerOf s) ∧ callers s' = callers s ++ [TReturned] ∧
    enqueued s' = enqueued s ∧ routine s' = routine s.
Proof.
  cbn [run step mbind option_bind]. set (i := length (callers s)).
  assert (∀ c, (callers s ++ [c]) !! i = Some c) as Hi by (intros c; unfold i; by rewrite lookup_app_r, Nat.sub_diag by lia).
  assert (∀ c c', <[i := c']> (callers s ++ [c]) = callers s ++ [c']) as Hins.
  { intros c c'. unfold i. by rewrite insert_app_r_alt, Nat.sub_diag by lia. }
  unfold execTriggerExpiration, triggerOf.
  cbn [HyperCache.debounce HyperCache.lastTrigger HyperCache.pending HyperCache.queued HyperCache.bufSize].
  destruct ((0 <? debounce s) && _)%Z eqn:Ed; [|destruct (pending s) eqn:Ep; [|destruct (decide (queued s < bufSize s)) as [Hq|Hq]]].
  - exists 1. repeat caller_steps Hi Hins Ed Ed Ed. eexists. by split_and!.
  - exists 2. repeat caller_steps Hi Hins Ed Ep Ep. eexists. by split_and!.
  - apply Nat.ltb_lt in Hq. exists 4. repeat caller_steps Hi Hins Ed Ep Hq. eexists. by split_and!.
  - apply not_lt, Nat.ltb_ge in Hq. exists 3. repeat caller_steps Hi Hins Ed Ep Hq. eexists. by split_and!.
Qed.

(** ** Witness *)

Lemma run_reachable ls : ∀ s s', reachable s → run ls s = Some s' → reachable s'.
Proof.
  induction ls as [|l ls IH]; intros s s' Hr E; cbn [run] in E; [by injection E as <-|].
  destruct (step l s) as [s1|] eqn:E1; [|done]. cbn [mbind option_bind] in E. apply (IH s1); [|done]. by eapply reachable_step.
Qed.

(** A second trigger arrives between the clearing of the flag and the drain. *)
Definition overlapping : list label :=
  CallTrigger 1 :: replicate 4 (RunCaller 0) ++ [RTrigger; RClear; CallTrigger 2] ++ replicate 4 (RunCaller 1).
Definition overlapped : jobs :=
  MkJobs 0 true true 1 2 true 1 false LDrain [TReturned; TReturned] [ExpirationJob false] false.

Lemma expiration_trigger_dies_witness :
  run overlapping (start 0 true true 1) = Some overlapped ∧
  ∃ s'' : jobs, run ([RDrain; CallTrigger 3; RunCaller 2; RunCaller 2]) (with_signal true 0 overlapped) = Some s'' ∧
    triggered s'' = 1 ∧ pending s'' = true.
Proof.
  assert (run overlapping (start 0 true true 1) = Some overlapped) as E by (vm_compute; reflexivity).
  split; [exact E|]. eexists. split; [vm_compute; reflexivity|].
  apply (expiration_trigger_dies overlapped (with_signal true 0 overlapped) [RDrain; CallTrigger 3; RunCaller 2; RunCaller 2]).
  - apply (run_reachable overlapping (start 0 true true 1)); [apply reachable_start; lia|exact E].
  - reflexivity.
  - cbn. lia.
  - vm_compute. reflexivity.
Defined.
