(* ===== verification/Chaos.v ===== *)
(** * Transports of the distributed backend (pkg/backend/dist_transport.go,
      pkg/backend/dist_chaos.go)

    The transport interface as a record of operations on a state, the wire form of gossip,
    the fault-injecting wrapper, and how the backend stores its transport.

    Rates and rolls are rationals, [None] a NaN; [rng] is the generator's sequence.
    The state of the inner transport is a parameter, so the wrapper is proved for every
    transport.

    The theorems: a run through the wrapper is the run of the calls it lets through, with
    the others answered by ErrChaosDrop and counted; gossip that goes over the wire has
    the effect of the in-process shortcut; the backend never wraps a transport twice. *)

From stdpp Require Import base gmap strings list.
From Stdlib Require Import ZArith Lia QArith.
From S2P Require Import Prelude Item Ring Membership Management.
Local Open Scope nat_scope.

(** ** The transport interface *)

Record GossipMember := MkGossip { g_ID : string; g_Address : string; g_State : string; g_Incarnation : Z }.

Definition nodesToGossipMembers (nodes : list Node) : list GossipMember :=
  (λ n, MkGossip (ID n) (Membership.Address n) (stateString (State n)) (Incarnation n)) <$> nodes.
Definition parseGossipState (s : string) : NodeState :=
  if decide (s = "suspect"%string) then NodeSuspect else if decide (s = "dead"%string) then NodeDead else NodeAlive.
Definition gossipMembersToNodes (now : Z) (members : list GossipMember) : list Node :=
  (λ m, MkNode (g_ID m) (g_Address m) (parseGossipState (g_State m)) (g_Incarnation m) now) <$> members.

Section Transport.
Context {MerkleTree : Type}.

(** What a call answers: an error, or its value. *)
Inductive answer :=
  | AErr (e : error)
  | ADone
  | AItem (it : option Item)
  | ATree (t : MerkleTree)
  | AKeys (ks : list string).

Record DistTransport (X : Type) := MkTransport {
  ForwardSet : string → Item → bool → X → X * answer;
  ForwardGet : string → string → X → X * answer;
  ForwardRemove : string → string → bool → X → X * answer;
  Health : string → X → X * answer;
  IndirectHealth : string → string → X → X * answer;
  Gossip : string → list GossipMember → X → X * answer;
  FetchMerkle : string → X → X * answer;
  ListKeys : string → string → X → X * answer }.
Arguments MkTransport {X}. Arguments ForwardSet {X}. Arguments ForwardGet {X}. Arguments ForwardRemove {X}.
Arguments Health {X}. Arguments IndirectHealth {X}. Arguments Gossip {X}. Arguments FetchMerkle {X}. Arguments ListKeys {X}.

(** ** Fault injection *)

(** A float64 rate: NaN or a number. *)
Definition rate : Type := option Q.
Definition rateLt (x : Q) (r : rate) : bool := match r with Some q => negb (Qle_bool q x) | None => false end.
Definition rateLe0 (r : rate) : bool := match r with Some q => Qle_bool q 0 | None => false end.

Record Chaos := MkChaos {
  dropRate : rate; latencyNs : Z; latencyRate : rate; drops : Z; latencies : Z;
  rng : nat → Q; rolled : nat }.

Definition NewChaos (rng : nat → Q) : Chaos := MkChaos (Some 0%Q) 0 (Some 0%Q) 0 0 rng 0.

Definition clamp (p : rate) : rate :=
  match p with
  | Some q => if negb (Qle_bool 0 q) then Some 0%Q else if negb (Qle_bool q 1) then Some 1%Q else Some q
  | None => None
  end.
Definition SetDropRate (p : rate) (c : Chaos) : Chaos :=
  MkChaos (clamp p) (latencyNs c) (latencyRate c) (drops c) (latencies c) (rng c) (rolled c).
Definition SetLatency (d : Z) (p : rate) (c : Chaos) : Chaos :=
  MkChaos (dropRate c) d (clamp p) (drops c) (latencies c) (rng c) (rolled c).

Definition roll (c : Chaos) : Q * Chaos :=
  (rng c (rolled c), MkChaos (dropRate c) (latencyNs c) (latencyRate c) (drops c) (latencies c) (rng c) (S (rolled c))).

Definition maybeDrop (c : Chaos) : Chaos * bool :=
  if rateLe0 (dropRate c) then (c, false)
  else
    let '(x, c) := roll c in
    if rateLt x (dropRate c)
    then (MkChaos (dropRate c) (latencyNs c) (latencyRate c) (i64 (drops c + 1)) (latencies c) (rng c) (rolled c), true)
    else (c, false).

(** The time slept comes with the state. *)
Definition maybeLatency (c : Chaos) : Chaos * Z :=
  if rateLe0 (latencyRate c) then (c, 0%Z)
  else if (latencyNs c <=? 0)%Z then (c, 0%Z)
  else
    let '(x, c) := roll c in
    if rateLt x (latencyRate c)
    then (MkChaos (dropRate c) (latencyNs c) (latencyRate c) (drops c) (i64 (latencies c + 1)) (rng c) (rolled c), latencyNs c)
    else (c, 0%Z).

Definition ErrChaosDrop : error := ErrOther "dist transport: chaos drop".

Definition applyFault (c : Chaos) : Chaos * option error :=
  let '(c, dropped) := maybeDrop c in
  if dropped then (c, Some ErrChaosDrop) else ((maybeLatency c).1, None).

(** Every method of [chaosTransport] has this shape. *)
Definition faulty {X} (call : X → X * answer) (s : Chaos * X) : (Chaos * X) * answer :=
  let '(c, x) := s in
  let '(c, err) := applyFault c in
  match err with
  | Some e => ((c, x), AErr e)
  | None => let '(x, a) := call x in ((c, x), a)
  end.
Definition newChaosTransport {X} (inner : DistTransport X) : DistTransport (Chaos * X) := {|
  ForwardSet nodeID item replicate := faulty (ForwardSet inner nodeID item replicate);
  ForwardGet nodeID key := faulty (ForwardGet inner nodeID key);
  ForwardRemove nodeID key replicate := faulty (ForwardRemove inner nodeID key replicate);
  Health nodeID := faulty (Health inner nodeID);
  IndirectHealth relay target := faulty (IndirectHealth inner relay target);
  Gossip target members := faulty (Gossip inner target members);
  FetchMerkle nodeID := faulty (FetchMerkle inner nodeID);
  ListKeys nodeID pattern := faulty (ListKeys inner nodeID pattern) |}.

(** ** Sequences of calls *)

Inductive call :=
  | CForwardSet (nodeID : string) (item : Item) (replicate : bool)
  | CForwardGet (nodeID key : string)
  | CForwardRemove (nodeID key : string) (replicate : bool)
  | CHealth (nodeID : string)
  | CIndirectHealth (relay target : string)
  | CGossip (target : string) (members : list GossipMember)
  | CFetchMerkle (nodeID : string)
  | CListKeys (nodeID pattern : string).

Definition invoke {X} (t : DistTransport X) (c : call) : X → X * answer :=
  match c with
  | CForwardSet n i r => ForwardSet t n i r
  | CForwardGet n k => ForwardGet t n k
  | CForwardRemove n k r => ForwardRemove t n k r
  | CHealth n => Health t n
  | CIndirectHealth a b => IndirectHealth t a b
  | CGossip n ms => Gossip t n ms
  | CFetchMerkle n => FetchMerkle t n
  | CListKeys n p => ListKeys t n p
  end.

Fixpoint invokeAll {X} (t : DistTransport X) (cs : list call) (x : X) : X * list answer :=
  match cs with
  | [] => (x, [])
  | c :: cs => let '(x, a) := invoke t c x in let '(x, rest) := invokeAll t cs x in (x, a :: rest)
  end.

(** The answers of the wrapper, from the faults and the answers of the calls that got
    through. *)
Fixpoint spliced (faults : list bool) (answers : list answer) : list answer :=
  match faults with
  | [] => []
  | true :: fs => AErr ErrChaosDrop :: spliced fs answers
  | false :: fs => match answers with a :: answers => a :: spliced fs answers | [] => [] end
  end.
(** The calls that got through. *)
Fixpoint delivered (faults : list bool) (cs : list call) : list call :=
  match faults, cs with
  | f :: fs, c :: cs => if f : bool then delivered fs cs else c :: delivered fs cs
  | _, _ => []
  end.

Lemma invoke_chaos {X} (t : DistTransport X) c s : invoke (newChaosTransport t) c s = faulty (invoke t c) s.
Proof. by destruct c. Qed.

Lemma maybeLatency_keeps c : dropRate (maybeLatency c).1 = dropRate c ∧ drops (maybeLatency c).1 = drops c ∧ rng (maybeLatency c).1 = rng c.
Proof. unfold maybeLatency, roll. repeat case_match; simplify_eq; done. Qed.

(** One fault decision. *)
Lemma applyFault_ok c c' err :
  applyFault c = (c', err) → i64 (drops c) = drops c →
  dropRate c' = dropRate c ∧ rng c' = rng c ∧ i64 (drops c') = drops c' ∧
  match err with
  | Some e => e = ErrChaosDrop ∧ drops c' = i64 (drops c + 1) ∧ rateLe0 (dropRate c) = false
  | None => drops c' = drops c ∧ ((∀ i, Qle_bool 0 (rng c i) = true ∧ Qle_bool 1 (rng c i) = false) → dropRate c ≠ Some 1%Q)
  end.
Proof.
  unfold applyFault, maybeDrop. intros E Hi. destruct (rateLe0 (dropRate c)) eqn:E0.
  - destruct (maybeLatency_keeps c) as (H1 & H2 & H3). injection E as <- <-. rewrite H1, H2, H3. split_and!; try done.
    intros _ E1. by rewrite E1 in E0.
  - cbn [roll] in E. cbn [dropRate] in E. destruct (rateLt (rng c (rolled c)) (dropRate c)) eqn:El.
    + injection E as <- <-. cbn. split_and!; try done. apply i64_small, i64_bound.
    + set (c1 := MkChaos _ _ _ _ _ _ _) in E. destruct (maybeLatency_keeps c1) as (H1 & H2 & H3). injection E as <- <-.
      rewrite H1, H2, H3. cbn. split_and!; try done. intros Hr E1. rewrite E1 in El. cbn in El.
      destruct (Hr (rolled c)) as [_ Hr2]. by rewrite Hr2 in El.
Qed.

Definition dropped (faults : list bool) : nat := length (filter (λ f, f = true) faults).

(** Whatever the rates and the rolls, a run of any calls through the wrapper has on
    the inner transport exactly the effect of the calls that were not dropped, which get
    their own answers; the dropped ones get ErrChaosDrop and are what the counter counts.
    A rate of at most zero drops nothing and a rate of one drops everything. *)
Theorem chaos_delivers {X} (t : DistTransport X) cs : ∀ c (x : X),
  i64 (drops c) = drops c →
  ∃ faults, length faults = length cs ∧
    let '((c', x'), answers) := invokeAll (newChaosTransport t) cs (c, x) in
    let '(x'', inner) := invokeAll t (delivered faults cs) x in
    x' = x'' ∧ answers = spliced faults inner ∧ drops c' = i64 (drops c + Z.of_nat (dropped faults)) ∧
    (rateLe0 (dropRate c) = true → dropped faults = 0) ∧
    (dropRate c = Some 1%Q → (∀ i, Qle_bool 0 (rng c i) = true ∧ Qle_bool 1 (rng c i) = false) → dropped faults = length cs).
Proof.
  induction cs as [|k cs IH]; intros c x Hi.
  { exists []. cbn. split_and!; try done. by rewrite Z.add_0_r. }
  cbn [invokeAll]. rewrite invoke_chaos. unfold faulty at 1. destruct (applyFault c) as [c1 err] eqn:Ef.
  destruct (applyFault_ok c c1 err Ef Hi) as (E1 & E2 & Hi1 & He). destruct err as [e|].
  - destruct He as (-> & Ed & E0). destruct (IH c1 x Hi1) as (fs & Hl & H). exists (true :: fs).
    split; [by cbn; rewrite Hl|]. destruct (invokeAll (newChaosTransport t) cs (c1, x)) as [[c' x'] as']. cbn [delivered].
    destruct (invokeAll t (delivered fs cs) x) as [x'' inner]. destruct H as (H1 & H2 & H3 & H4 & H5).
    rewrite E1, E2 in *. split_and!; [done|cbn; by rewrite H2| | |].
    + rewrite H3, Ed, i64_add_l. f_equal. unfold dropped. rewrite filter_cons_True by done. cbn [length]. lia.
    + by rewrite E0.
    + intros Hr Hg. unfold dropped. rewrite filter_cons_True by done. cbn [length]. f_equal. by apply H5.
  - destruct He as [Ed Hone]. destruct (invoke t k x) as [x1 a] eqn:Ek. destruct (IH c1 x1 Hi1) as (fs & Hl & H).
    exists (false :: fs). split; [by cbn; rewrite Hl|].
    destruct (invokeAll (newChaosTransport t) cs (c1, x1)) as [[c' x'] as']. cbn [delivered invokeAll]. rewrite Ek.
    destruct (invokeAll t (delivered fs cs) x1) as [x'' inner]. destruct H as (H1 & H2 & H3 & H4 & H5).
    rewrite E1, E2 in *. split_and!; [done|cbn; by rewrite H2| | |].
    + rewrite H3, Ed. unfold dropped. by rewrite filter_cons_False by done.
    + intros H0. unfold dropped. rewrite filter_cons_False by done. by apply H4.
    + intros Hr Hg. by destruct (Hone Hg).
Qed.

End Transport.

(** ** Gossip over the wire *)

Lemma parse_stateString st : parseGossipState (stateString st) = st.
Proof. by destruct st. Qed.

Lemma wire_nodes now ns : gossipMembersToNodes now (nodesToGossipMembers ns) = seen_at now <$> ns.
Proof.
  unfold gossipMembersToNodes, nodesToGossipMembers. rewrite <- list_fmap_compose. apply list_fmap_ext.
  intros i n _. unfold seen_at. cbn. by rewrite parse_stateString.
Qed.

(** Gossip that goes over a transport has the effect of handing over the snapshot, as the
    in-process shortcut does: the wire form keeps all that the receiver looks at. *)
Theorem gossip_wire_equal sum64 SortFunc enum now now' self ns m :
  acceptGossip sum64 SortFunc enum now self (gossipMembersToNodes now' (nodesToGossipMembers ns)) m =
  acceptGossip sum64 SortFunc enum now self ns m.
Proof.
  rewrite wire_nodes. revert m. induction ns as [|n ns IH]; intros m; cbn [fmap list_fmap acceptGossip]; [done|].
  destruct (store m !! self) as [me|]; cbn [mbind option_bind]; [|done].
  destruct (decide (ID (seen_at now' n) = ID me)) as [E|E]; cbn in E.
  - rewrite decide_True by done. destruct (refuteIfSuspected now self n m) as [m1|] eqn:E1;
      change (refuteIfSuspected now self (seen_at now' n) m) with (refuteIfSuspected now self n m); rewrite E1; cbn [mbind option_bind]; [apply IH|done].
  - rewrite decide_False by done. destruct (List_ enum m) as [cur|]; cbn [mbind option_bind]; [|done].
    change (ID (seen_at now' n)) with (ID n). change (Incarnation (seen_at now' n)) with (Incarnation n).
    change (adopt sum64 SortFunc enum now (seen_at now' n) m) with (adopt sum64 SortFunc enum now n m).
    destruct (match list_find _ cur with Some _ => _ | None => _ end) as [m1|]; cbn [mbind option_bind]; [apply IH|done].
Qed.

(** ** The stored transport *)

(** A transport value: one that the user or the backend made, or a wrapped one; [c]
    names a Chaos. *)
Inductive tval := Plain (n : nat) | Wrapped (t : tval) (c : nat).
Record dmTransport := MkDT { chaos : option nat; active : option tval }.

Definition wrap (t : option tval) (c : option nat) : option tval :=
  match t, c with Some t, Some c => Some (Wrapped t c) | _, _ => t end.
Definition storeTransport (t : option tval) (d : dmTransport) : dmTransport :=
  MkDT (chaos d)
    (match chaos d, t with
     | Some c, Some (Plain n) => wrap (Some (Plain n)) (Some c)
     | _, _ => t
     end).
Definition WithDistChaos (c : option nat) (d : dmTransport) : dmTransport :=
  let d := MkDT c (active d) in
  match active d with
  | Some (Plain n) => storeTransport (wrap (Some (Plain n)) c) d
  | _ => d
  end.

(** Options and setters in any order, with transports that are not wrapped. *)
Inductive topt := OTransport (t : option nat) | OChaos (c : option nat).
Definition applyTopt (d : dmTransport) (o : topt) : dmTransport :=
  match o with OTransport t => storeTransport (Plain <$> t) d | OChaos c => WithDistChaos c d end.

Fixpoint wraps (t : tval) : nat := match t with Plain _ => 0 | Wrapped t _ => S (wraps t) end.

Lemma applyTopt_wraps o d :
  (∀ t, active d = Some t → wraps t ≤ 1) → ∀ t, active (applyTopt d o) = Some t → wraps t ≤ 1.
Proof.
  intros Hd t. destruct o as [[n|]|c]; cbn.
  - destruct (chaos d); intros [= <-]; cbn; lia.
  - by destruct (chaos d).
  - unfold WithDistChaos. cbn [active]. destruct (active d) as [[n|t' c']|] eqn:Ea; cbn; [|by intros [= <-]; apply Hd|done].
    destruct c; cbn; intros [= <-]; cbn; lia.
Qed.

(** With one Chaos [c], an active transport is wrapped by it once it is given. *)
Definition consistent (c : nat) (d : dmTransport) : Prop :=
  (chaos d = None ∨ chaos d = Some c) ∧
  ∀ t, active d = Some t → ∃ n, t = match chaos d with Some c => Wrapped (Plain n) c | None => Plain n end.

Lemma applyTopt_consistent c o d :
  match o with OChaos c' => c' = Some c | _ => True end → consistent c d → consistent c (applyTopt d o).
Proof.
  intros Ho [Hc Hd]. destruct o as [t|c']; cbn.
  - split; [done|]. cbn. intros t'. destruct t as [n|], (chaos d); intros [= <-]; by exists n.
  - subst c'. unfold WithDistChaos. cbn [active]. destruct (active d) as [t1|] eqn:Ea.
    + destruct (Hd t1 eq_refl) as [n Hn]. destruct Hc as [Hc|Hc]; rewrite Hc in Hn; subst t1; cbn;
        (split; [by right|]); cbn; intros t [= <-]; by exists n.
    + split; [by right|]. done.
Qed.

(** A transport is never wrapped twice, whatever the order of the options; with a single
    Chaos, an active transport is wrapped by it exactly when it has been given. *)
Theorem wrapped_once os :
  let d := foldl applyTopt (MkDT None None) os in
  (∀ t, active d = Some t → wraps t ≤ 1) ∧
  (∀ c, Forall (λ o, match o with OChaos c' => c' = Some c | _ => True end) os → consistent c d).
Proof.
  cbn zeta. split.
  - assert (∀ t, active (MkDT None None) = Some t → wraps t ≤ 1) as H by done. revert H. generalize (MkDT None None).
    induction os as [|o os IH]; intros d Hd; [done|]. cbn [foldl]. apply IH. by apply applyTopt_wraps.
  - intros c Hf. assert (consistent c (MkDT None None)) as H by (split; [by left|done]). revert H. generalize (MkDT None None).
    induction Hf as [|o os Ho _ IH]; intros d Hd; [done|]. cbn [foldl]. apply IH. by apply applyTopt_consistent.
Qed.

(** A second Chaos does not take effect on a transport that is already wrapped. *)
Example chaos_not_replaced :
  active (foldl applyTopt (MkDT None None) [OTransport (Some 1); OChaos (Some 7); OChaos (Some 8)]) = Some (Wrapped (Plain 1) 7).
Proof. reflexivity. Qed.
