(* ===== verification/Schedule.v ===== *)
(** * Background ticks of the distributed backend (pkg/backend/dist_memory.go)

    One heartbeat tick with its sample of peers, the choice of the relays of an indirect
    probe, one gossip tick, and the anti-entropy loop with its adaptive back-off.

    Random numbers are arguments: [randInt span] is what the generator draws below [span],
    [None] when it fails.  What the network answers is given, as in
    Membership.v; a transport carries node ids and addresses that are UTF-8 (PeerHTTP.v has
    what JSON makes of others).  Tickers, logging and metrics are left out.

    The theorems: which peers a heartbeat tick probes and what it does to each, that a
    relay is a live third node, that gossip brings the member it is sent to up to what the
    sender knows, over either kind of transport, and that the back-off doubles on clean ticks
    within its bound and starts over on the first dirty one. *)

From stdpp Require Import base gmap strings list.
From Stdlib Require Import ZArith Lia.
From S2P Require Import Prelude Ring Membership Chaos.

(** ** The code *)

(** The Fisher-Yates shuffle of the first [count] positions from [i]; [randInt span] is
    the draw below [span], [None] when the generator fails.  The spans of one shuffle are
    all different and, as fewer positions than elements are shuffled, above one.  [None]
    is an index out of range. *)
Fixpoint partialShuffle {A} (randInt : nat → option nat) (count i : nat) (l : list A) : option (list A) :=
  match count with
  | 0 => Some l
  | S count =>
      let span := length l - i in
      let swapIndex := if 1 <? span then match randInt span with Some d => i + d | None => i end else i in
      x ← l !! i; y ← l !! swapIndex;
      partialShuffle randInt count (S i) (<[swapIndex := x]> (<[i := y]> l))
  end.

Section Ticks.
Context (sum64 : string → Z) (SortFunc : (vnode → vnode → Z) → list vnode → list vnode)
  (enum : gmap string loc → list (string * loc)).

(** The peers of a tick: all members, or a random sample of [hbSampleSize]. *)
Definition samplePeers (hbSampleSize : Z) (randInt : nat → option nat) (peers : list Node) : option (list Node) :=
  if ((0 <? hbSampleSize) && (hbSampleSize <? Z.of_nat (length peers)))%Z
  then l ← partialShuffle randInt (Z.to_nat hbSampleSize) 0 peers; Some (take (Z.to_nat hbSampleSize) l)
  else Some peers.

Definition runHeartbeatTick (cfg : HeartbeatConfig) (hbSampleSize : Z) (randInt : nat → option nat) (now : Z) (self : loc)
    (healthOK relayOK : string → bool) (m : Membership) : option Membership :=
  peers ← List_ enum m;
  peers ← samplePeers hbSampleSize randInt peers;
  heartbeatLoop sum64 SortFunc enum cfg now self healthOK relayOK peers m.

(** Up to [k] random alive members other than the node itself and the target. *)
Definition pickIndirectRelays (localID targetID : string) (k : Z) (randInt : nat → option nat) (m : Membership)
    : option (list Node) :=
  if (k <=? 0)%Z then Some []
  else
    l ← List_ enum m;
    let candidates := filter (λ n, ¬ (ID n = localID ∨ ID n = targetID) ∧ State n = NodeAlive) l in
    if (Z.of_nat (length candidates) <=? k)%Z then Some candidates
    else l ← partialShuffle randInt (Z.to_nat k) 0 candidates; Some (take (Z.to_nat k) l).

(** The relays are asked in turn until one confirms; the probes sent are counted. *)
Fixpoint probeRelays (reaches : string → bool) (relays : list Node) (sent : nat) : bool * nat :=
  match relays with
  | [] => (false, sent)
  | relay :: relays => if reaches (ID relay) then (true, S sent) else probeRelays reaches relays (S sent)
  end.
Definition indirectProbeReachable (localID targetID : string) (k : Z) (randInt : nat → option nat)
    (reaches : string → bool) (m : Membership) : option (bool * nat) :=
  relays ← pickIndirectRelays localID targetID k randInt m; Some (probeRelays reaches relays 0).

(** The transport of a node: none, the in-process one, or another one whose pushes to the
    nodes in [up] arrive. *)
Inductive gossipLink := NoTransport | InProcess | Wire (up : string → bool).

(** One gossip tick; [backends] are the nodes that run, each with the cell of its own node.
    Over the wire the snapshot travels as gossip members, and an error is only logged. *)
Definition runGossipTick (now : Z) (localID : string) (link : gossipLink) (randInt : nat → option nat) (m : Membership)
    (backends : gmap string (loc * Membership)) : option (gmap string (loc * Membership)) :=
  match link with
  | NoTransport => Some backends
  | _ =>
  peers ← List_ enum m;
  if length peers <=? 1 then Some backends
  else
    let candidates := filter (λ n, ID n ≠ localID) peers in
    if length candidates =? 0 then Some backends
    else
      match randInt (length candidates) with
      | None => Some backends
      | Some i =>
          target ← candidates !! i;
          let deliver snapshot :=
            match backends !! ID target with
            | None => Some backends
            | Some (cell, remote) =>
                remote ← acceptGossip sum64 SortFunc enum now cell snapshot remote;
                Some (<[ID target := (cell, remote)]> backends)
            end in
          match link with
          | Wire up =>
              if up (ID target) : bool then deliver (gossipMembersToNodes now (nodesToGossipMembers peers)) else Some backends
          | _ => deliver peers
          end
      end
  end.

End Ticks.

(** The gossip loops of a cluster: each tick is one node's, at some time, over some link and
    with some draw. *)
Record gossipTick := MkTick { gt_from : string; gt_now : Z; gt_link : gossipLink; gt_rand : nat → option nat }.

Section GossipRun.
Context (sum64 : string → Z) (SortFunc : (vnode → vnode → Z) → list vnode → list vnode)
  (enum : gmap string loc → list (string * loc)).
Fixpoint gossipLoop (ts : list gossipTick) (bs : gmap string (loc * Membership)) : option (gmap string (loc * Membership)) :=
  match ts with
  | [] => Some bs
  | t :: ts =>
      '(_, m) ← bs !! gt_from t;
      bs ← runGossipTick sum64 SortFunc enum (gt_now t) (gt_from t) (gt_link t) (gt_rand t) m bs; gossipLoop ts bs
  end.
End GossipRun.

(** *** Adaptive anti-entropy *)

Record autoSync := MkAuto { maxBackoffFactor : Z (* int *); backoffFactor : Z (* int64 *); cleanTicks : Z }.

(** [runAutoSyncTick]: [sync] is [syncWithStatus] on a peer; the peers synced. *)
Fixpoint autoSyncPeers (limit : Z) (nodeID : string) (sync : string → result bool) (members : list string)
    (synced : list string) (dirty : bool) : list string * bool :=
  match members with
  | [] => (synced, dirty)
  | id :: members =>
      if decide (id = nodeID) then autoSyncPeers limit nodeID sync members synced dirty
      else if ((0 <? limit) && (limit <=? Z.of_nat (length synced)))%Z then (synced, dirty)
      else
        let dirty := match sync id with Err _ => true | Ok clean => if clean then dirty else true end in
        autoSyncPeers limit nodeID sync members (synced ++ [id]) dirty
  end.
Definition runAutoSyncTick (limit : Z) (nodeID : string) (sync : string → result bool) (members : list string) : bool :=
  let '(synced, dirty) := autoSyncPeers limit nodeID sync members [] false in
  (0 <? length synced) && negb dirty.

Definition WithDistMerkleAdaptiveBackoff (maxFactor : Z) : Z := if (maxFactor <? 1)%Z then 0%Z else maxFactor.

Definition updateAutoSyncBackoff (clean : bool) (a : autoSync) : autoSync :=
  if (maxBackoffFactor a <=? 1)%Z then a
  else
    let prev := backoffFactor a in
    if clean
    then MkAuto (maxBackoffFactor a) (Z.min (i64 (prev * 2)) (maxBackoffFactor a)) (i64 (cleanTicks a + 1))
    else MkAuto (maxBackoffFactor a) 1 (cleanTicks a).

Definition nextAutoSyncDelay (interval : Z) (a : autoSync) : Z :=
  if (maxBackoffFactor a <=? 1)%Z then interval else i64 (interval * Z.max (backoffFactor a) 1).

(** [autoSyncLoop]: the delays after each of the ticks with the given outcomes. *)
Definition startAutoSync (a : autoSync) : autoSync :=
  if (1 <? maxBackoffFactor a)%Z then MkAuto (maxBackoffFactor a) 1 (cleanTicks a) else a.
Fixpoint autoSyncLoop (interval : Z) (outcomes : list bool) (a : autoSync) : list Z * autoSync :=
  match outcomes with
  | [] => ([], a)
  | clean :: outcomes =>
      let a := updateAutoSyncBackoff clean a in
      let '(ds, a') := autoSyncLoop interval outcomes a in
      (nextAutoSyncDelay interval a :: ds, a')
  end.

(** ** Samples *)

(** What [rand.Int] promises: a draw is below its bound. *)
Definition rand_ok (randInt : nat → option nat) : Prop := ∀ span d, randInt span = Some d → d < span.

Lemma partialShuffle_perm {A} randInt : rand_ok randInt → ∀ count i (l : list A),
  i + count ≤ length l → ∃ l', partialShuffle randInt count i l = Some l' ∧ l' ≡ₚ l.
Proof.
  intros Hr. induction count as [|count IH]; intros i l H; cbn [partialShuffle]; [by exists l|].
  set (j := if _ <? _ then _ else i).
  assert (j < length l) as Hj.
  { unfold j. destruct (Nat.ltb_spec 1 (length l - i)); [|lia]. destruct (randInt _) eqn:E; [|lia]. apply Hr in E. lia. }
  destruct (lookup_lt_is_Some_2 l i) as [x Ex]; [lia|]. destruct (lookup_lt_is_Some_2 _ _ Hj) as [y Ey].
  rewrite Ex, Ey. cbn [mbind option_bind].
  destruct (IH (S i) (<[j:=x]> (<[i:=y]> l))) as (l' & E & P); [rewrite !length_insert; lia|].
  exists l'. split; [done|]. rewrite P. by apply Permutation_insert_swap.
Qed.

Lemma take_perm_sub {A} k (l l' : list A) : l' ≡ₚ l → take k l' ⊆+ l.
Proof. intros P. rewrite <- P. apply submseteq_take. Qed.

Lemma NoDup_sub {A} (l l' : list A) : l ⊆+ l' → NoDup l' → NoDup l.
Proof. intros [k ->]%submseteq_Permutation. by intros [? _]%NoDup_app. Qed.

Lemma samplePeers_ok size randInt peers :
  rand_ok randInt →
  ∃ s, samplePeers size randInt peers = Some s ∧ s ⊆+ peers ∧
    length s = if ((0 <? size) && (size <? Z.of_nat (length peers)))%Z then Z.to_nat size else length peers.
Proof.
  intros H. unfold samplePeers. destruct (_ && _) eqn:E; [|by exists peers].
  apply andb_true_iff in E as [E1%Z.ltb_lt E2%Z.ltb_lt].
  destruct (partialShuffle_perm randInt H (Z.to_nat size) 0 peers) as (l' & -> & P); [lia|]. cbn [mbind option_bind].
  eexists. split; [done|]. split; [by apply take_perm_sub|]. rewrite length_take, (Permutation_length P). lia.
Qed.

(** ** The heartbeat tick *)

Section TickFacts.
Context (sum64 : string → Z) (SortFunc : (vnode → vnode → Z) → list vnode → list vnode)
  (enum : gmap string loc → list (string * loc)).
Context (Henum : ∀ m, enum m ≡ₚ map_to_list m).

Lemma Mark_nodes now id st m m' b : Mark now id st m = Some (m', b) → nodes m' = nodes m.
Proof.
  unfold Mark. destruct (nodes m !! id) as [p|]; [|by intros [= <- <-]].
  destruct (store m !! p) as [n|]; [|done]. cbn [mbind option_bind]. case_decide; by intros [= <- <-].
Qed.

Lemma Remove_nodes id m m' b k :
  Remove sum64 SortFunc enum id m = Some (m', b) → k ≠ id → nodes m' !! k = nodes m !! k.
Proof.
  unfold Remove. destruct (nodes m !! id) as [p|]; [|by intros [= <- <-]].
  destruct (liveLoop _ _); [|done]. cbn [mbind option_bind]. intros [= <- <-] Hk. cbn. by rewrite lookup_delete_ne.
Qed.

(** A heartbeat of one peer leaves the other registrations alone. *)
Lemma evaluateLiveness_nodes cfg now n h r m m' k :
  evaluateLiveness sum64 SortFunc enum cfg now n h r m = Some m' → k ≠ ID n → nodes m' !! k = nodes m !! k.
Proof.
  intros H Hk. unfold evaluateLiveness, handleProbeFailure in H.
  assert (∀ st m0 m1, ('(m, _) ← Mark now (ID n) st m0; Some m) = Some m1 → nodes m1 = nodes m0) as Hm.
  { intros st m0 m1. destruct (Mark now (ID n) st m0) as [[m2 b]|] eqn:E; [|done]. intros [= <-]. by eapply Mark_nodes. }
  destruct ((0 <? hbDeadAfter cfg) && _)%Z.
  { destruct (Remove _ _ _ _ m) as [[m2 b]|] eqn:E; [|done]. injection H as <-. by eapply Remove_nodes. }
  destruct (if _ : bool then _ else Some m) as [m1|] eqn:E1; [|done]. cbn [mbind option_bind] in H.
  assert (nodes m1 = nodes m) as <- by (destruct (_ && _ && _)%Z in E1; [by apply Hm in E1|by injection E1 as <-]).
  destruct h; [by rewrite (Hm _ _ _ H)|]. destruct (_ && r); [by rewrite (Hm _ _ _ H)|].
  case_decide; [by injection H as <-|by rewrite (Hm _ _ _ H)].
Qed.

(** What a tick leaves of a peer that it probed, from what it was. *)
Definition probed_outcome (cfg : HeartbeatConfig) (now : Z) (healthOK relayOK : string → bool) (n : Node) (m' : Membership) : Prop :=
  if ((0 <? hbDeadAfter cfg) && (hbDeadAfter cfg <? sat64 (now - LastSeen n)))%Z
  then view m' !! ID n = None
  else ∃ n', view m' !! ID n = Some n' ∧
    if healthOK (ID n) || ((0 <? indirectProbeK cfg)%Z && relayOK (ID n))
    then State n' = NodeAlive ∧ LastSeen n' = now
    else State n' = match State n with NodeAlive => NodeSuspect | st => st end.

Lemma heartbeatLoop_ok cfg now self id healthOK relayOK : ∀ peers m,
  wf m → is_self self id m → NoDup (ID <$> peers) → Forall (λ n, view m !! ID n = Some n) peers →
  ∃ m', heartbeatLoop sum64 SortFunc enum cfg now self healthOK relayOK peers m = Some m' ∧ wf m' ∧ is_self self id m' ∧
    (∀ k, k ∉ ID <$> filter (λ n, ID n ≠ id) peers → view m' !! k = view m !! k) ∧
    Forall (λ n, ID n ≠ id → probed_outcome cfg now healthOK relayOK n m') peers.
Proof.
  induction peers as [|n peers IH]; intros m Hw Hs Hnd Hv; cbn [heartbeatLoop]; [by exists m|].
  rewrite fmap_cons, NoDup_cons in Hnd. destruct Hnd as [Hn Hnd]. rewrite Forall_cons in Hv. destruct Hv as [Hvn Hv].
  destruct (self_cell _ _ _ Hw Hs) as (me & -> & Hid & _). cbn [mbind option_bind]. rewrite Hid, filter_cons.
  destruct (decide (ID n = id)) as [Ei|Ei].
  - cbn [mbind option_bind]. destruct (IH m Hw Hs Hnd Hv) as (m' & E & Hw' & Hs' & Hk & Hf).
    exists m'. split; [done|]. split; [done|]. split; [done|]. rewrite decide_False by (by intros []).
    split; [done|]. constructor; [done|done].
  - destruct (heartbeat_outcome sum64 SortFunc enum Henum cfg now n (healthOK (ID n)) (relayOK (ID n)) m Hw Hvn)
      as (m1 & E1 & Hw1 & Ho & Hout). rewrite E1. cbn [mbind option_bind].
    assert (is_self self id m1) as Hs1.
    { unfold is_self. rewrite (evaluateLiveness_nodes _ _ _ _ _ _ _ id E1) by congruence. exact Hs. }
    assert (Forall (λ n, view m1 !! ID n = Some n) peers) as Hv1.
    { rewrite Forall_forall in Hv |- *. intros q Hq. rewrite Ho; [by apply Hv|].
      intros E. apply Hn. rewrite <- E. apply list_elem_of_fmap. by exists q. }
    destruct (IH m1 Hw1 Hs1 Hnd Hv1) as (m' & E & Hw' & Hs' & Hk & Hf).
    exists m'. split; [done|]. split; [done|]. split; [done|]. rewrite decide_True by done. split.
    + intros k Hnk. rewrite fmap_cons, not_elem_of_cons in Hnk. destruct Hnk as [Hk1 Hk2].
      rewrite Hk by done. by apply Ho.
    + constructor; [|done]. intros _. unfold probed_outcome. rewrite (Hk (ID n)); [exact Hout|].
      intros (q & E' & Hq)%list_elem_of_fmap. apply list_elem_of_filter in Hq as [_ Hq].
      apply Hn. rewrite E'. apply list_elem_of_fmap. by exists q.
Qed.

Lemma members_facts m : wf m → ∃ l, List_ enum m = Some l ∧ NoDup (ID <$> l) ∧
  (∀ n, n ∈ l ↔ view m !! ID n = Some n) ∧ length l = size (view m).
Proof.
  intros Hw. destruct (List_ok enum Henum m Hw) as (l & E & P). exists l. split; [done|].
  assert (∀ n, n ∈ l ↔ view m !! ID n = Some n) as Hin.
  { intros n. rewrite P, list_elem_of_fmap. split.
    - intros ([k q] & -> & Hk%elem_of_map_to_list). cbn. by rewrite (view_ID _ _ _ Hw Hk).
    - intros Hn. exists (ID n, n). by rewrite elem_of_map_to_list. }
  split_and!; [|done|by rewrite P, length_fmap, length_map_to_list].
  rewrite P, <- list_fmap_compose. rewrite (list_fmap_ext _ fst).
  - apply NoDup_fst_map_to_list.
  - intros i [k q] Hi%list_elem_of_lookup_2%elem_of_map_to_list. cbn. by apply view_ID with m.
Qed.

(** A heartbeat tick probes distinct members other than the node itself, all of them
    or at most as many as the sample size; each probed peer is removed when it was unseen
    for too long, alive when it or a relay answered, suspected otherwise; every other
    entry is untouched. *)
Theorem heartbeat_tick cfg size randInt now self id healthOK relayOK m :
  wf m → is_self self id m → rand_ok randInt →
  ∃ m' probed,
    runHeartbeatTick sum64 SortFunc enum cfg size randInt now self healthOK relayOK m = Some m' ∧ wf m' ∧ is_self self id m' ∧
    NoDup (ID <$> probed) ∧ Forall (λ n, view m !! ID n = Some n ∧ ID n ≠ id) probed ∧
    (if ((0 <? size) && (size <? Z.of_nat (Datatypes.length (map_to_list (view m)))))%Z
     then Datatypes.length probed ≤ Z.to_nat size
     else ∀ n, view m !! ID n = Some n → ID n ≠ id → n ∈ probed) ∧
    (∀ k, k ∉ ID <$> probed → view m' !! k = view m !! k) ∧
    Forall (λ n, probed_outcome cfg now healthOK relayOK n m') probed.
Proof.
  intros Hw Hs Hr. destruct (members_facts m Hw) as (l & El & Hnd & Hin & Hl). unfold runHeartbeatTick.
  rewrite El. cbn [mbind option_bind]. rewrite length_map_to_list, <- Hl in *.
  destruct (samplePeers_ok size randInt l Hr) as (s & -> & Hsub & Hlen). cbn [mbind option_bind].
  assert (NoDup (ID <$> s)) as Hnds.
  { apply (NoDup_sub _ (ID <$> l)); [by apply fmap_submseteq|done]. }
  assert (Forall (λ n, view m !! ID n = Some n) s) as Hvs.
  { apply Forall_forall. intros n Hn. apply Hin. by eapply elem_of_submseteq. }
  destruct (heartbeatLoop_ok cfg now self id healthOK relayOK s m Hw Hs Hnds Hvs) as (m' & -> & Hw' & Hs' & Hk & Hf).
  exists m', (filter (λ n, ID n ≠ id) s). split; [done|]. split; [done|]. split; [done|]. split_and!.
  - apply (NoDup_sub _ (ID <$> s)); [apply fmap_submseteq, sublist_submseteq, sublist_filter|done].
  - apply Forall_forall. intros n [Hne Hn]%list_elem_of_filter. rewrite Forall_forall in Hvs. split; [by apply Hvs|done].
  - destruct (_ && _).
    + rewrite <- Hlen. apply length_filter.
    + intros n Hv Hne. apply list_elem_of_filter. split; [done|]. apply Hin in Hv.
      assert (s ≡ₚ l) as P by (apply submseteq_length_Permutation; [done|lia]). by rewrite P.
  - done.
  - apply Forall_forall. intros n [Hne Hn]%list_elem_of_filter. rewrite Forall_forall in Hf. by apply Hf.
Qed.

(** Relays are distinct live third nodes, at most [k], and all of them when there are no
    more; a probe is confirmed exactly when one of them confirms it. *)
Theorem indirect_probe localID targetID k randInt reaches m cands :
  wf m → cands = filter (λ n, ¬ (ID n = localID ∨ ID n = targetID) ∧ State n = NodeAlive) (map_to_list (view m)).*2 →
  rand_ok randInt →
  ∃ relays sent,
    pickIndirectRelays enum localID targetID k randInt m = Some relays ∧ relays ⊆+ cands ∧
    (Z.of_nat (length relays) = Z.min (Z.max k 0) (Z.of_nat (length cands)))%Z ∧
    indirectProbeReachable enum localID targetID k randInt reaches m =
      Some (existsb (λ n, reaches (ID n)) relays, sent) ∧ sent ≤ length relays.
Proof.
  intros Hw Hcs Hr. unfold indirectProbeReachable, pickIndirectRelays.
  destruct (List_ok enum Henum m Hw) as (l & El & P).
  assert (∀ rs n, ∃ sent, probeRelays reaches rs n = (existsb (λ r, reaches (ID r)) rs, sent) ∧ sent ≤ n + length rs) as Hp.
  { clear. intros rs. induction rs as [|r rs IH]; intros n; cbn [probeRelays existsb length]; [exists n; split; [done|lia]|].
    destruct (reaches (ID r)); [exists (S n); split; [done|lia]|]. destruct (IH (S n)) as (s & -> & Hs).
    exists s. split; [done|lia]. }
  destruct (Z.leb_spec k 0) as [Hk|Hk].
  { exists [], 0. split; [done|]. split; [apply submseteq_nil_l|]. split; [cbn; lia|done]. }
  rewrite El. cbn [mbind option_bind].
  assert (filter (λ n, ¬ (ID n = localID ∨ ID n = targetID) ∧ State n = NodeAlive) l ≡ₚ cands) as Pc by (by rewrite Hcs, P).
  set (cs := filter _ l) in *. rewrite (Permutation_length Pc).
  destruct (Z.leb_spec (Z.of_nat (length cands)) k) as [Hc|Hc].
  - cbn [mbind option_bind]. destruct (Hp cs 0) as (s & E & Hs). exists cs, s. rewrite E.
    split; [done|]. split; [by rewrite Pc|]. rewrite (Permutation_length Pc). split; [lia|]. split; [done|].
    rewrite (Permutation_length Pc) in Hs. lia.
  - destruct (partialShuffle_perm randInt Hr (Z.to_nat k) 0 cs) as (l' & -> & P'); [rewrite (Permutation_length Pc); lia|]. cbn [mbind option_bind].
    destruct (Hp (take (Z.to_nat k) l') 0) as (s & E & Hs). exists (take (Z.to_nat k) l'), s. rewrite E.
    split; [done|]. split; [apply take_perm_sub; by rewrite P'|].
    rewrite length_take in *. rewrite (Permutation_length P'), (Permutation_length Pc) in *. split; [lia|]. split; [done|lia].
Qed.

(** ** Gossip *)

(** A cluster of in-process nodes: each is known by its cell and consistent. *)
Definition node_ok (id : string) (b : loc * Membership) : Prop :=
  wf b.2 ∧ is_self b.1 id b.2 ∧ map_Forall (λ _ n, 0 ≤ Incarnation n)%Z (view b.2).

Lemma gossiped_nonneg now id ns : ∀ v,
  Forall (λ n, 0 ≤ Incarnation n)%Z ns → map_Forall (λ _ n, 0 ≤ Incarnation n)%Z v →
  map_Forall (λ _ n, 0 ≤ Incarnation n)%Z (foldl (λ v n, gossiped now id n v) v ns).
Proof.
  induction ns as [|n ns IH]; intros v Hns Hv; cbn [foldl]; [done|]. apply Forall_cons in Hns as [Hn Hns].
  apply IH; [done|]. unfold gossiped, refuted, merge.
  case_decide; destruct (v !! ID n) as [c|] eqn:Ec; repeat case_match; try done;
    apply map_Forall_insert_2; try done; cbn. apply u64_bound.
Qed.

(** What is known at [b] of another node [k]. *)
Definition known (bs : gmap string (loc * Membership)) (b k : string) : Z :=
  from_option (λ x, inc_of (view x.2) k) (-1)%Z (bs !! b).

(** A push to [to] over the link arrives. *)
Definition arrives (link : gossipLink) (bs : gmap string (loc * Membership)) (to : string) : Prop :=
  is_Some (bs !! to) ∧ match link with NoTransport => False | InProcess => True | Wire up => up to = true end.

(** What the member [to] holds after a push from [from]: of every third node at least the
    incarnation that [from] had, and the address, state and incarnation that [from] had
    wherever [from] was ahead. *)
Definition learns (bs bs' : gmap string (loc * Membership)) (from to : string) : Prop :=
  ∀ k, k ≠ to → (known bs from k ≤ known bs' to k)%Z ∧
    ((known bs to k < known bs from k)%Z → ∃ bf bt n n',
      bs !! from = Some bf ∧ bs' !! to = Some bt ∧ view bf.2 !! k = Some n ∧ view bt.2 !! k = Some n' ∧
      Address n' = Address n ∧ State n' = State n ∧ Incarnation n' = Incarnation n).

(** The member that a tick of [from] pushes to: the one the generator picks among the
    others it knows. *)
Definition gossip_target (m : Membership) (from : string) (randInt : nat → option nat) : option string :=
  l ← List_ enum m;
  let cs := filter (λ n, ID n ≠ from) l in
  i ← randInt (length cs); t ← cs !! i; Some (ID t).

(** A snapshot that is delivered. *)
Lemma push_ok now from cell m bs l to cell' rem :
  map_Forall node_ok bs → bs !! from = Some (cell, m) → wf m → (∀ n, n ∈ l ↔ view m !! ID n = Some n) →
  map_Forall (λ _ n, 0 ≤ Incarnation n)%Z (view m) → bs !! to = Some (cell', rem) →
  ∃ rem', acceptGossip sum64 SortFunc enum now cell' l rem = Some rem' ∧
    let bs' := <[to := (cell', rem')]> bs in
    map_Forall node_ok bs' ∧ dom bs' = dom bs ∧ (∀ b k, k ≠ b → known bs b k ≤ known bs' b k)%Z ∧
    (∀ b, b ≠ to → bs' !! b = bs !! b) ∧ learns bs bs' from to.
Proof.
  intros Hok Hb Hw Hin Hv Er. destruct (Hok _ _ Er) as (Hw' & Hs' & Hv'). cbn in Hw', Hs', Hv'.
  assert (Forall (λ n, 0 ≤ Incarnation n)%Z l) as Hl.
  { apply Forall_forall. intros nd Hn%Hin. by apply (Hv (ID nd) nd). }
  destruct (gossip_ok sum64 SortFunc enum Henum now cell' to l rem Hw' Hs') as (rem' & -> & Hwr & Hsr & Evr).
  exists rem'. split; [done|]. cbn zeta.
  assert (∀ b, b ≠ to → (<[to := (cell', rem')]> bs : gmap _ _) !! b = bs !! b) as Ho by (intros; by rewrite lookup_insert_ne).
  split_and!; [| | |done|].
  - apply map_Forall_insert_2; [|done]. split_and!; cbn; [done|done|]. rewrite Evr. by apply gossiped_nonneg.
  - apply dom_insert_lookup_L. eauto.
  - intros b k Hk. unfold known. destruct (decide (b = to)) as [->|Hb']; [|rewrite Ho by done; lia].
    rewrite lookup_insert_eq, Er. cbn. rewrite Evr. exact (proj1 (gossiped_all sum64 enum Henum now to l (view rem) k Hk Hl)).
  - intros k Hk. unfold known. rewrite lookup_insert_eq, Hb, Er. cbn. rewrite Evr.
    destruct (gossiped_all sum64 enum Henum now to l (view rem) k Hk Hl) as (H3 & H4 & H5).
    assert (inc_of (view m) k ≤ inc_of (foldl (λ v n, gossiped now to n v) (view rem) l) k)%Z as Hle.
    { apply (snapshot_le m l k _ Hw Hin H4). pose proof (inc_low (view rem) k Hv'). lia. }
    split; [done|]. intros Hlt. destruct H5 as [H5|(n & Hn & Hid & H5)].
    { unfold inc_of in *. rewrite H5 in Hle. lia. }
    eexists _, _, n, (copied now n). split; [done|]. split; [done|]. cbn. rewrite Evr.
    split_and!; [|done..]. rewrite <- Hid. by apply Hin.
Qed.

(** A tick of node [from] reaches exactly the member it picks, if its link does, which
    then knows of every third node at least what [from] knows; no node forgets. *)
Lemma gossip_tick now from link randInt cell m bs :
  map_Forall node_ok bs → bs !! from = Some (cell, m) → rand_ok randInt →
  ∃ bs', runGossipTick sum64 SortFunc enum now from link randInt m bs = Some bs' ∧ map_Forall node_ok bs' ∧ dom bs' = dom bs ∧
    (∀ b k, k ≠ b → known bs b k ≤ known bs' b k)%Z ∧
    (∀ to, gossip_target m from randInt = Some to → arrives link bs to →
       to ≠ from ∧ (∀ b, b ≠ to → bs' !! b = bs !! b) ∧ learns bs bs' from to) ∧
    ((¬ ∃ to, gossip_target m from randInt = Some to ∧ arrives link bs to) → bs' = bs).
Proof.
  intros Hok Hb Hr. destruct (Hok _ _ Hb) as (Hw & Hs & Hv). cbn in Hw, Hs, Hv.
  assert (∀ b k, k ≠ b → known bs b k ≤ known bs b k)%Z as H0 by (intros; lia).
  assert ((∀ to, gossip_target m from randInt = Some to → ¬ arrives link bs to) →
    runGossipTick sum64 SortFunc enum now from link randInt m bs = Some bs →
    ∃ bs', runGossipTick sum64 SortFunc enum now from link randInt m bs = Some bs' ∧ map_Forall node_ok bs' ∧ dom bs' = dom bs ∧
    (∀ b k, k ≠ b → known bs b k ≤ known bs' b k)%Z ∧
    (∀ to, gossip_target m from randInt = Some to → arrives link bs to →
       to ≠ from ∧ (∀ b, b ≠ to → bs' !! b = bs !! b) ∧ learns bs bs' from to) ∧
    ((¬ ∃ to, gossip_target m from randInt = Some to ∧ arrives link bs to) → bs' = bs)) as Hstay.
  { intros HP E. exists bs. split_and!; try done. intros to Ht Ha. by destruct (HP to Ht). }
  destruct (members_facts m Hw) as (l & El & Hnd & Hin & _). revert Hstay. unfold runGossipTick, gossip_target. rewrite El.
  cbn [mbind option_bind]. set (cs := filter _ l). intros Hstay.
  destruct (randInt (length cs)) as [i|] eqn:Ei; cbn [mbind option_bind] in *.
  2:{ apply Hstay; [done|]. destruct link; [done|..]; (destruct (_ <=? 1); [done|]); by destruct (_ =? 0). }
  pose proof (Hr _ _ Ei) as Hlt. destruct (lookup_lt_is_Some_2 cs i Hlt) as [t Et].
  rewrite Et in *. cbn [mbind option_bind] in *.
  apply list_elem_of_lookup_2, list_elem_of_filter in Et as [Hne Ht].
  assert (1 < length l) as Hl2.
  { assert (is_Some (view m !! from)) as [me Hme] by (destruct (self_cell _ _ _ Hw Hs) as (me & _ & _ & ?); eauto).
    assert (me ∈ l) as Hmel by (apply Hin; rewrite (view_ID _ _ _ Hw Hme); done).
    assert (me ≠ t) as Hmt by (intros <-; apply Hne; by apply (view_ID _ _ _ Hw Hme)).
    destruct l as [|a [|b l]]; [by apply elem_of_nil in Ht| |cbn; lia].
    apply list_elem_of_singleton in Ht, Hmel. congruence. }
  destruct (Nat.leb_spec (length l) 1); [lia|]. destruct (Nat.eqb_spec (length cs) 0); [lia|].
  destruct (bs !! ID t) as [[cell' rem]|] eqn:Er.
  2:{ apply Hstay; [intros to [= <-] [[? ?] _]; congruence|]. destruct link as [| |up]; [done|done|by destruct (up _)]. }
  destruct (push_ok now from cell m bs l (ID t) cell' rem Hok Hb Hw Hin Hv Er) as (rem' & Ea & Hok' & D' & K' & Ho & HL).
  assert (arrives link bs (ID t) →
    match link with
    | NoTransport => Some bs
    | Wire up => if up (ID t) then
        remote ← acceptGossip sum64 SortFunc enum now cell' (gossipMembersToNodes now (nodesToGossipMembers l)) rem;
        Some (<[ID t := (cell', remote)]> bs) else Some bs
    | InProcess => remote ← acceptGossip sum64 SortFunc enum now cell' l rem; Some (<[ID t := (cell', remote)]> bs)
    end = Some (<[ID t := (cell', rem')]> bs)) as Hdone.
  { intros [_ Ha]. destruct link as [| |up]; [done|by rewrite Ea|].
    rewrite Ha, gossip_wire_equal, Ea. done. }
  assert (arrives link bs (ID t) ∨ ¬ arrives link bs (ID t)) as [Ha|Ha].
  { unfold arrives. rewrite Er. destruct link as [| |up]; [naive_solver|left; eauto|destruct (up (ID t)); naive_solver]. }
  - exists (<[ID t := (cell', rem')]> bs). specialize (Hdone Ha). split.
    { by destruct link. }
    split_and!; try done.
    + intros to [= <-] _. by split_and!.
    + intros Hn. destruct Hn. eauto.
  - apply Hstay; [by intros to [= <-]|]. unfold arrives in Ha. rewrite Er in Ha.
    destruct link as [| |up]; [done|exfalso; eauto|]. destruct (up (ID t)); [exfalso; eauto|done].
Qed.

Lemma gossipLoop_ok ts : ∀ bs,
  map_Forall node_ok bs → Forall (λ t, is_Some (bs !! gt_from t) ∧ rand_ok (gt_rand t)) ts →
  ∃ bs', gossipLoop sum64 SortFunc enum ts bs = Some bs' ∧ map_Forall node_ok bs' ∧ dom bs' = dom bs ∧
    (∀ b k, k ≠ b → known bs b k ≤ known bs' b k)%Z.
Proof.
  induction ts as [|[from now link randInt] ts IH]; intros bs Hok Hts; cbn [gossipLoop gt_from gt_now gt_link gt_rand].
  { exists bs. by split_and!. }
  apply Forall_cons in Hts as [[[[cell m] Hf] Hr] Hts]. cbn in Hf, Hr. rewrite Hf. cbn [mbind option_bind].
  destruct (gossip_tick now from link randInt cell m bs Hok Hf Hr) as (bs1 & -> & Hok1 & D1 & K1 & _). cbn [mbind option_bind].
  destruct (IH bs1 Hok1) as (bs' & E & Hok' & D' & K').
  { eapply Forall_impl; [exact Hts|]. intros t [Hs Hr']. split; [|done]. apply elem_of_dom. rewrite D1. by apply elem_of_dom. }
  exists bs'. split_and!; [done|done|congruence|]. intros b k Hk. specialize (K1 b k Hk). specialize (K' b k Hk). lia.
Qed.

Lemma gossipLoop_app ts ts' bs :
  gossipLoop sum64 SortFunc enum (ts ++ ts') bs =
  bs1 ← gossipLoop sum64 SortFunc enum ts bs; gossipLoop sum64 SortFunc enum ts' bs1.
Proof.
  revert bs. induction ts as [|[from now link r] ts IH]; intros bs; cbn [gossipLoop app gt_from gt_now gt_link gt_rand]; [done|].
  destruct (bs !! from) as [[c m]|]; cbn [mbind option_bind]; [|done]. destruct (runGossipTick _ _ _ _ _ _ _ _ _); cbn [mbind option_bind]; [apply IH|done].
Qed.

(** C38: whatever nodes tick, in whatever order, over whatever links and with whatever draws,
    the gossip loops of a consistent cluster never fail and keep it consistent, and no node
    ever forgets an incarnation of another.  A tick picks one other member of the sender's
    view, if the generator draws one.  When the push arrives, the tick changes that member
    and no other: it then has the sender's address, state and incarnation of every third
    node of which the sender was ahead, and from then on never knows less of any third node
    than the sender did.  When there is no draw, no transport or nobody to receive the push,
    the tick changes nothing. *)
Theorem gossip_spreads ts1 from now link randInt ts2 bs :
  map_Forall node_ok bs →
  Forall (λ t, is_Some (bs !! gt_from t) ∧ rand_ok (gt_rand t)) (ts1 ++ MkTick from now link randInt :: ts2) →
  ∃ bs1 cell m bs2 bs', gossipLoop sum64 SortFunc enum ts1 bs = Some bs1 ∧ bs1 !! from = Some (cell, m) ∧
    gossipLoop sum64 SortFunc enum [MkTick from now link randInt] bs1 = Some bs2 ∧
    gossipLoop sum64 SortFunc enum (ts1 ++ MkTick from now link randInt :: ts2) bs = Some bs' ∧
    map_Forall node_ok bs' ∧ dom bs' = dom bs ∧
    (∀ b k, k ≠ b → known bs b k ≤ known bs' b k)%Z ∧
    (∀ to, gossip_target m from randInt = Some to → arrives link bs1 to →
       to ≠ from ∧ (∀ b, b ≠ to → bs2 !! b = bs1 !! b) ∧ learns bs1 bs2 from to ∧
       ∀ k, k ≠ to → (known bs1 from k ≤ known bs' to k)%Z) ∧
    ((¬ ∃ to, gossip_target m from randInt = Some to ∧ arrives link bs1 to) → bs2 = bs1).
Proof.
  intros Hok [H1 H2]%Forall_app. destruct (gossipLoop_ok ts1 bs Hok H1) as (bs1 & E1 & Hok1 & D1 & K1).
  assert (∀ l, Forall (λ t, is_Some (bs !! gt_from t) ∧ rand_ok (gt_rand t)) l →
               ∀ bs' : gmap string (loc * Membership), dom bs' = dom bs → Forall (λ t, is_Some (bs' !! gt_from t) ∧ rand_ok (gt_rand t)) l) as Hd.
  { intros l Hl bs' D. eapply Forall_impl; [exact Hl|]. intros t [Hs Hr]. split; [|done].
    apply elem_of_dom. rewrite D. by apply elem_of_dom. }
  apply Forall_cons in H2 as [[[[cell0 m0] Hf] Hr] H2]. cbn in Hf, Hr.
  assert (is_Some (bs1 !! from)) as [[cell m] Hm] by (apply elem_of_dom; rewrite D1; apply elem_of_dom; eauto).
  destruct (gossip_tick now from link randInt cell m bs1 Hok1 Hm Hr) as (bs2 & E2 & Hok2 & D2 & K2 & HT & HN).
  destruct (gossipLoop_ok ts2 bs2 Hok2) as (bs' & E' & Hok' & D' & K'); [apply Hd; [done|congruence]|].
  exists bs1, cell, m, bs2, bs'. split; [done|]. split; [done|]. split; [cbn; by rewrite Hm; cbn; rewrite E2|]. split.
  { rewrite gossipLoop_app, E1. cbn. rewrite Hm. cbn. by rewrite E2. }
  split; [done|]. split; [congruence|]. split; [|split; [|done]].
  - intros b k Hk. specialize (K1 b k Hk). specialize (K2 b k Hk). specialize (K' b k Hk). lia.
  - intros to Ht Ha. destruct (HT to Ht Ha) as (Hne & Ho & HL). split_and!; [done|done|done|].
    intros k Hk. destruct (HL k Hk) as [Hle _]. specialize (K' to k Hk). lia.
Qed.

End TickFacts.

(** ** Anti-entropy *)

(** The peers of a tick: the other members, the first [limit] of them. *)
Definition tickPeers (limit : Z) (nodeID : string) (members : list string) : list string :=
  let others := filter (λ id, id ≠ nodeID) members in
  if (0 <? limit)%Z then take (Z.to_nat limit) others else others.

Definition isClean (r : result bool) : bool := match r with Ok clean => clean | Err _ => false end.
Lemma isClean_true r : isClean r = true ↔ r = Ok true.
Proof. by destruct r as [[]|]. Qed.

Lemma autoSyncPeers_ok limit self sync members : ∀ synced dirty,
  (0 < limit → Z.of_nat (length synced) ≤ limit)%Z →
  autoSyncPeers limit self sync members synced dirty =
    let ps := tickPeers (if (0 <? limit)%Z then limit - Z.of_nat (length synced) else 0) self members in
    let ps := if ((0 <? limit) && (limit <=? Z.of_nat (length synced)))%Z then [] else ps in
    (synced ++ ps, dirty || existsb (λ p, negb (isClean (sync p))) ps).
Proof.
  unfold tickPeers. induction members as [|id members IH]; intros synced dirty Hl; cbn [autoSyncPeers].
  { destruct (_ && _); cbn; [by rewrite app_nil_r, orb_false_r|]. destruct (0 <? _)%Z; rewrite ?take_nil; cbn; by rewrite app_nil_r, orb_false_r. }
  rewrite filter_cons. destruct (decide (id = self)) as [->|Hne].
  { rewrite IH by done. by rewrite decide_False by (by intros []). }
  rewrite decide_True by done. destruct (Z.ltb_spec 0 limit) as [Hp|Hp]; cbn [andb].
  - specialize (Hl Hp). destruct (Z.leb_spec limit (Z.of_nat (length synced))) as [Hs|Hs].
    { cbn. by rewrite app_nil_r, orb_false_r. }
    rewrite IH by (rewrite length_app; cbn; lia). rewrite length_app. cbn [length].
    destruct (Z.ltb_spec 0 limit); [|lia]. cbn [andb].
    destruct (Z.ltb_spec 0 (limit - Z.of_nat (length synced))); [|lia].
    replace (Z.to_nat (limit - Z.of_nat (length synced))) with (S (Z.to_nat (limit - Z.of_nat (length synced + 1)))) by lia.
    cbn [take existsb].
    destruct (Z.leb_spec limit (Z.of_nat (length synced + 1))) as [Hs1|Hs1].
    + replace (Z.to_nat (limit - Z.of_nat (length synced + 1))) with 0 by lia. cbn [take existsb]. rewrite !app_nil_r.
      f_equal. destruct (sync id) as [[]|]; cbn; destruct dirty; by rewrite ?orb_false_r, ?orb_true_r.
    + destruct (Z.ltb_spec 0 (limit - Z.of_nat (length synced + 1))); [|lia]. rewrite <- app_assoc. cbn [app]. f_equal.
      destruct (sync id) as [[]|]; cbn; destruct dirty; by rewrite ?orb_false_l, ?orb_true_r.
  - rewrite IH by lia. destruct (Z.ltb_spec 0 limit); [lia|]. cbn [andb Z.ltb Z.compare existsb]. rewrite <- app_assoc.
    cbn [app]. f_equal. destruct (sync id) as [[]|]; cbn; destruct dirty; by rewrite ?orb_false_l, ?orb_true_r.
Qed.

(** A tick is clean exactly when some peer was synced and every one was clean. *)
Theorem auto_sync_tick limit self sync members :
  runAutoSyncTick limit self sync members = true ↔
  tickPeers limit self members ≠ [] ∧ Forall (λ p, sync p = Ok true) (tickPeers limit self members).
Proof.
  unfold runAutoSyncTick. rewrite autoSyncPeers_ok by (cbn; lia). cbn [length app orb].
  assert ((if ((0 <? limit) && (limit <=? Z.of_nat 0))%Z then [] else tickPeers (if (0 <? limit)%Z then limit - Z.of_nat 0 else 0) self members)
          = tickPeers limit self members) as ->.
  { unfold tickPeers. destruct (Z.ltb_spec 0 limit); cbn [andb]; [|done].
    destruct (Z.leb_spec limit (Z.of_nat 0)); [lia|]. destruct (Z.ltb_spec 0 (limit - Z.of_nat 0)); [|lia].
    by rewrite Z.sub_0_r. }
  set (ps := tickPeers _ _ _). rewrite andb_true_iff, Nat.ltb_lt, negb_true_iff, <- not_true_iff_false, existsb_exists.
  split.
  - intros [Hl Hn]. split; [by destruct ps; [cbn in Hl; lia|]|]. apply Forall_forall. intros p Hp.
    destruct (isClean (sync p)) eqn:E; [by apply isClean_true|]. exfalso. apply Hn. exists p. split; [by apply list_elem_of_In|].
    by rewrite E.
  - intros [Hne Hf]. split; [by destruct ps; [|cbn; lia]|]. intros (p & Hp%list_elem_of_In & E).
    rewrite Forall_forall in Hf. by rewrite (proj2 (isClean_true _) (Hf p Hp)) in E.
Qed.

(** The clean ticks since the last dirty one. *)
Definition streak (k : nat) (outcomes : list bool) : nat := foldl (λ n clean, if clean : bool then S n else 0) k outcomes.

Lemma autoSyncLoop_ok interval outcomes : ∀ a k m,
  maxBackoffFactor a = m → (1 < m < 2 ^ 62)%Z → (0 < interval)%Z → (interval * m ≤ 2 ^ 63 - 1)%Z →
  backoffFactor a = Z.min (2 ^ Z.of_nat k) m →
  let '(ds, a') := autoSyncLoop interval outcomes a in
  backoffFactor a' = Z.min (2 ^ Z.of_nat (streak k outcomes)) m ∧
  Forall (λ d, interval ≤ d ≤ interval * m)%Z ds ∧
  last ds = (if decide (outcomes = []) then None else Some (interval * backoffFactor a')%Z).
Proof.
  induction outcomes as [|clean outcomes IH]; intros a k m Hm Hr Hi Hov Hf; cbn [autoSyncLoop]; [done|].
  set (a1 := updateAutoSyncBackoff clean a). set (k1 := if clean then S k else 0).
  assert (maxBackoffFactor a1 = m ∧ backoffFactor a1 = Z.min (2 ^ Z.of_nat k1) m) as [Hm1 Hf1].
  { unfold a1, updateAutoSyncBackoff, k1. rewrite Hm. destruct (Z.leb_spec m 1); [lia|].
    destruct clean; cbn [maxBackoffFactor backoffFactor]; [|split; [done|cbn; lia]]. split; [done|].
    rewrite Nat2Z.inj_succ, Z.pow_succ_r by lia. pose proof (Z.pow_pos_nonneg 2 (Z.of_nat k)).
    rewrite i64_small; rewrite Hf; lia. }
  pose proof (Z.pow_pos_nonneg 2 (Z.of_nat k1)) as Hpos.
  assert (1 ≤ backoffFactor a1 ≤ m)%Z as Hb by lia.
  assert (nextAutoSyncDelay interval a1 = interval * backoffFactor a1)%Z as Hd.
  { unfold nextAutoSyncDelay. rewrite Hm1. destruct (Z.leb_spec m 1); [lia|]. rewrite Z.max_l by lia.
    apply i64_small. nia. }
  specialize (IH a1 k1 m Hm1 Hr Hi Hov Hf1).
  destruct (autoSyncLoop interval outcomes a1) as [ds a'] eqn:El. destruct IH as (H1 & H2 & H3).
  split; [exact H1|]. split; [constructor; [rewrite Hd; nia|done]|].
  rewrite decide_False by done. destruct outcomes as [|c os].
  - cbn in El. injection El as <- <-. cbn. by rewrite Hd.
  - rewrite decide_False in H3 by done. by destruct ds.
Qed.

(** With a bound [m] on the back-off factor, after any sequence of ticks the delay is
    the interval times two to the number of clean ticks since the last dirty one, at most
    [m] times the interval and never below the interval. *)
Theorem auto_sync_backoff interval outcomes m ticks :
  (1 < m < 2 ^ 62)%Z → (0 < interval)%Z → (interval * m ≤ 2 ^ 63 - 1)%Z →
  let '(ds, a') := autoSyncLoop interval outcomes (startAutoSync (MkAuto (WithDistMerkleAdaptiveBackoff m) 0 ticks)) in
  backoffFactor a' = Z.min (2 ^ Z.of_nat (streak 0 outcomes)) m ∧
  Forall (λ d, interval ≤ d ≤ interval * m)%Z ds ∧
  last ds = (if decide (outcomes = []) then None else Some (interval * backoffFactor a')%Z).
Proof.
  intros Hr Hi Hov. unfold WithDistMerkleAdaptiveBackoff, startAutoSync. destruct (Z.ltb_spec m 1); [lia|].
  cbn [maxBackoffFactor]. destruct (Z.ltb_spec 1 m); [|lia].
  apply (autoSyncLoop_ok interval outcomes (MkAuto m 1 ticks) 0 m); try done. cbn. lia.
Qed.

(** ** Witnesses *)

Definition sample_rand (span : nat) : option nat := match span with 0 => None | S d => Some d end.
Lemma sample_rand_ok : rand_ok sample_rand.
Proof. intros [|span] d; [done|]. intros [= <-]. lia. Defined.

Lemma heartbeat_tick_witness :
  ∃ m' probed,
    runHeartbeatTick sample_sum64 sample_sort map_to_list (MkHB 5 10 0) 1 sample_rand 9 1 (λ _, false) (λ _, false)
      sample_members = Some m' ∧ wf m' ∧ is_self 1 "a" m' ∧ NoDup (ID <$> probed) ∧
    Forall (λ n, view sample_members !! ID n = Some n ∧ ID n ≠ "a"%string) probed ∧ length probed ≤ 1 ∧
    (∀ k, k ∉ ID <$> probed → view m' !! k = view sample_members !! k).
Proof.
  destruct (heartbeat_tick sample_sum64 sample_sort map_to_list (λ _, reflexivity _) (MkHB 5 10 0) 1 sample_rand 9 1 "a"
              (λ _, false) (λ _, false) sample_members) as (m' & probed & H1 & H2 & H3 & H4 & H5 & H6 & H7 & _).
  - exact membership_sample_wf.
  - exact sample_self.
  - exact sample_rand_ok.
  - exists m', probed. exact (conj H1 (conj H2 (conj H3 (conj H4 (conj H5 (conj H6 H7)))))).
Defined.

Lemma auto_sync_backoff_witness :
  autoSyncLoop 30 [true; true; true; false; true] (startAutoSync (MkAuto (WithDistMerkleAdaptiveBackoff 5) 0 0))
    = ([60; 120; 150; 30; 60]%Z, MkAuto 5 2 4) ∧
  backoffFactor (autoSyncLoop 30 [true; true; true; false; true] (startAutoSync (MkAuto (WithDistMerkleAdaptiveBackoff 5) 0 0))).2
    = Z.min (2 ^ Z.of_nat (streak 0 [true; true; true; false; true])) 5.
Proof.
  split; [vm_compute; reflexivity|].
  pose proof (auto_sync_backoff 30 [true; true; true; false; true] 5 0) as H.
  destruct (autoSyncLoop 30 _ _) as [ds a']. apply H; lia.
Defined.

(** Two nodes: [a] knows of a third, suspected at its fourth incarnation, which [b] has
    never heard of. *)
Definition ahead_members : Membership :=
  default sample_members (mrun sample_sum64 sample_sort map_to_list [MUpsert 3 (sample_node "c" NodeSuspect 4)] sample_members).
Definition sample_backends : gmap string (loc * Membership) :=
  <["a" := (1%positive, ahead_members)]> {["b" := (2%positive, sample_members)]}.
Definition pick_b (span : nat) : option nat := if decide (1 < span) then Some 1 else None.

Lemma ahead_wf : wf ahead_members.
Proof.
  destruct (mrun_ok sample_sum64 sample_sort map_to_list (λ _, reflexivity _) [MUpsert 3 (sample_node "c" NodeSuspect 4)] _
    membership_sample_wf) as (m & Hm & Hw' & _).
  unfold ahead_members. by rewrite Hm.
Qed.

Lemma sample_backends_ok : map_Forall node_ok sample_backends.
Proof.
  apply map_Forall_insert_2; [|apply map_Forall_singleton]; (split; [first [exact ahead_wf|exact membership_sample_wf]|]);
    (split; [vm_compute; reflexivity|]); [|exact sample_incarnations].
  apply (bool_decide_unpack _). vm_compute. exact I.
Qed.

Lemma pick_b_ok : rand_ok pick_b.
Proof. intros span d. unfold pick_b. case_decide; [by intros [= <-]|done]. Qed.

(** [a] pushes over the wire to [b], which then knows of the third node what [a] knows. *)
Lemma gossip_spreads_witness :
  gossip_target map_to_list ahead_members "a" pick_b = Some "b" ∧ known sample_backends "b" "c" = (-1)%Z ∧
  ∃ bs', gossipLoop sample_sum64 sample_sort map_to_list [MkTick "a" 9 (Wire (λ _, true)) pick_b; MkTick "b" 10 InProcess pick_b]
      sample_backends = Some bs' ∧
    map_Forall node_ok bs' ∧ (4 ≤ known bs' "b" "c")%Z.
Proof.
  assert (gossip_target map_to_list ahead_members "a" pick_b = Some "b") as Ht by (vm_compute; reflexivity).
  split; [exact Ht|]. split; [vm_compute; reflexivity|].
  destruct (gossip_spreads sample_sum64 sample_sort map_to_list (λ _, reflexivity _) [] "a" 9 (Wire (λ _, true)) pick_b
              [MkTick "b" 10 InProcess pick_b] sample_backends) as (bs1 & cell & m & bs2 & bs' & E1 & Em & _ & H & Hok & _ & _ & HT & _).
  - exact sample_backends_ok.
  - repeat constructor; cbn; try exact pick_b_ok; eexists; vm_compute; reflexivity.
  - injection E1 as <-. injection Em as <- <-. exists bs'. split; [exact H|]. split; [exact Hok|].
    destruct (HT "b" Ht) as (_ & _ & _ & Hk); [split; [by eexists|reflexivity]|].
    exact (Hk "c" ltac:(discriminate)).
Defined.
