(* ===== verification/DistBuild.v ===== *)
(** * Construction and life cycle of the distributed backend
      (pkg/backend/dist_memory.go, the authentication of pkg/backend/dist_http_server.go,
      internal/cluster/node.go)

    Options, the validation of the peer authentication, the first membership from the
    seeds, the background loops that are started, Stop and Drain, and the peers added and
    removed by hand.

    The numeric fields of the struct are a function from field names, so that an option
    is what it is in the source, an update of the struct.  [idOfAddr] is the hexadecimal
    hash that names a node without an id; [listen] is whether the listener binds.
    Logging, telemetry, TLS and the HTTP limits are left out.

    The theorems: what every sequence of options leaves in the configuration, the members
    after construction, that Stop ends every loop that was started without closing a
    channel twice, and what the configuration-based constructor makes of its argument. *)

From stdpp Require Import base gmap strings list.
From Stdlib Require Import ZArith Lia.
From S2P Require Import Prelude Item Auth Ring Membership Cluster Chaos.

(** ** The struct *)

Inductive dfield :=
  | shardCount | merkleChunkSize | autoSyncInterval | autoSyncMaxBackoffFactor | autoSyncPeersPerInterval
  | listKeysMax | rebalanceInterval | rebalanceBatchSize | rebalanceMaxConcurrent | replicaDiffMaxPerTick
  | removalGracePeriod | capacity | hbSampleSize | hbInterval | hbSuspectAfter | hbDeadAfter
  | indirectProbeK | indirectProbeTimeout | replication | virtualNodes
  | hintTTL | hintReplayInt | hintMaxPerNode | hintMaxTotal | hintMaxBytes | gossipInterval
  | tombstoneTTL | tombstoneSweepInt | repairBatchInterval | repairBatchSize.
#[export] Instance dfield_eq_dec : EqDecision dfield.
Proof. solve_decision. Defined.

(** The background goroutines that NewDistMemory may start. *)
Inductive loop := LHeartbeat | LHintReplay | LGossip | LAutoSync | LTombstones | LRebalance | LRepairQueue | LEventPublisher.
#[export] Instance loop_eq_dec : EqDecision loop.
Proof. solve_decision. Defined.

(** Requests and signatures are those of Auth.v: the header that is sent. *)
Record DistHTTPAuth := MkDistAuth {
  Token : string;
  ServerVerify : option (string → option error);
  ClientSign : option (string → string);
  AllowAnonymousInbound : bool }.
Definition noAuth : DistHTTPAuth := MkDistAuth "" None None false.

Record distMemory := MkDist {
  nums : dfield → Z;
  readLevel : ConsistencyLevel;
  writeLevel : ConsistencyLevel;
  parallel : bool;
  nodeAddr : string;
  nodeID : string;
  seeds : list string;
  httpAuth : DistHTTPAuth;
  transport : dmTransport;
  members : option Membership;       (* dm.membership *)
  localNode : option loc;
  stopChs : loop → option nat;        (* the stop channel of each loop, None for nil *)
  running : list (loop * option nat); (* what was started, with the channel it watches *)
  closedChs : gset nat;
  lifeDone : bool;                   (* lifeCtx *)
  queueStopped : bool;               (* the repair queue was stopped *)
  httpServer : bool;
  stopped : bool;
  isDraining : bool;
  drains : Z }.

Definition set (f : dfield) (v : Z) (dm : distMemory) : distMemory :=
  MkDist (λ g, if decide (g = f) then v else nums dm g) (readLevel dm) (writeLevel dm) (parallel dm) (nodeAddr dm)
    (nodeID dm) (seeds dm) (httpAuth dm) (transport dm) (members dm) (localNode dm) (stopChs dm) (running dm)
    (closedChs dm) (lifeDone dm) (queueStopped dm) (httpServer dm) (stopped dm) (isDraining dm) (drains dm).
Definition with_levels (r w : ConsistencyLevel) (p : bool) (dm : distMemory) : distMemory :=
  MkDist (nums dm) r w p (nodeAddr dm)
    (nodeID dm) (seeds dm) (httpAuth dm) (transport dm) (members dm) (localNode dm) (stopChs dm) (running dm)
    (closedChs dm) (lifeDone dm) (queueStopped dm) (httpServer dm) (stopped dm) (isDraining dm) (drains dm).
Definition with_identity (addr id : string) (ss : list string) (dm : distMemory) : distMemory :=
  MkDist (nums dm) (readLevel dm) (writeLevel dm) (parallel dm) addr
    id ss (httpAuth dm) (transport dm) (members dm) (localNode dm) (stopChs dm) (running dm)
    (closedChs dm) (lifeDone dm) (queueStopped dm) (httpServer dm) (stopped dm) (isDraining dm) (drains dm).
Definition with_http (a : DistHTTPAuth) (t : dmTransport) (srv : bool) (dm : distMemory) : distMemory :=
  MkDist (nums dm) (readLevel dm) (writeLevel dm) (parallel dm) (nodeAddr dm)
    (nodeID dm) (seeds dm) a t (members dm) (localNode dm) (stopChs dm) (running dm)
    (closedChs dm) (lifeDone dm) (queueStopped dm) srv (stopped dm) (isDraining dm) (drains dm).
Definition with_members (m : option Membership) (n : option loc) (dm : distMemory) : distMemory :=
  MkDist (nums dm) (readLevel dm) (writeLevel dm) (parallel dm) (nodeAddr dm)
    (nodeID dm) (seeds dm) (httpAuth dm) (transport dm) m n (stopChs dm) (running dm)
    (closedChs dm) (lifeDone dm) (queueStopped dm) (httpServer dm) (stopped dm) (isDraining dm) (drains dm).
Definition with_loops (chs : loop → option nat) (rs : list (loop * option nat)) (cl : gset nat) (done q : bool) (dm : distMemory) : distMemory :=
  MkDist (nums dm) (readLevel dm) (writeLevel dm) (parallel dm) (nodeAddr dm)
    (nodeID dm) (seeds dm) (httpAuth dm) (transport dm) (members dm) (localNode dm) chs rs
    cl done q (httpServer dm) (stopped dm) (isDraining dm) (drains dm).
Definition with_state (srv st dr : bool) (n : Z) (dm : distMemory) : distMemory :=
  MkDist (nums dm) (readLevel dm) (writeLevel dm) (parallel dm) (nodeAddr dm)
    (nodeID dm) (seeds dm) (httpAuth dm) (transport dm) (members dm) (localNode dm) (stopChs dm) (running dm)
    (closedChs dm) (lifeDone dm) (queueStopped dm) srv st dr n.

(** ** Options *)

Definition DistMemoryOption : Type := distMemory → distMemory.

(** The options that set a field only when the value is positive. *)
Definition positive (f : dfield) (n : Z) : DistMemoryOption := λ dm, if (0 <? n)%Z then set f n dm else dm.

Definition WithDistShardCount (n : Z) : DistMemoryOption := positive shardCount n.
Definition WithDistMerkleChunkSize (n : Z) : DistMemoryOption := positive merkleChunkSize n.
Definition WithDistMerkleAutoSync (interval : Z) : DistMemoryOption := set autoSyncInterval interval.
Definition WithDistMerkleAdaptiveBackoff (maxFactor : Z) : DistMemoryOption :=
  set autoSyncMaxBackoffFactor (if (maxFactor <? 1)%Z then 0 else maxFactor)%Z.
Definition WithDistMerkleAutoSyncPeers (n : Z) : DistMemoryOption := set autoSyncPeersPerInterval n.
Definition WithDistListKeysCap (n : Z) : DistMemoryOption := λ dm, if (0 <=? n)%Z then set listKeysMax n dm else dm.
Definition WithDistRebalanceInterval (d : Z) : DistMemoryOption := set rebalanceInterval d.
Definition WithDistRebalanceBatchSize (n : Z) : DistMemoryOption := positive rebalanceBatchSize n.
Definition WithDistRebalanceMaxConcurrent (n : Z) : DistMemoryOption := positive rebalanceMaxConcurrent n.
Definition WithDistReplicaDiffMaxPerTick (n : Z) : DistMemoryOption := positive replicaDiffMaxPerTick n.
Definition WithDistRemovalGrace (d : Z) : DistMemoryOption := positive removalGracePeriod d.
Definition WithDistReadConsistency (l : ConsistencyLevel) : DistMemoryOption := λ dm, with_levels l (writeLevel dm) (parallel dm) dm.
Definition WithDistWriteConsistency (l : ConsistencyLevel) : DistMemoryOption := λ dm, with_levels (readLevel dm) l (parallel dm) dm.
Definition WithDistParallelReads (enable : bool) : DistMemoryOption := λ dm, with_levels (readLevel dm) (writeLevel dm) enable dm.
Definition WithDistTombstoneTTL (d : Z) : DistMemoryOption := set tombstoneTTL d.
Definition WithDistTombstoneSweep (interval : Z) : DistMemoryOption := set tombstoneSweepInt interval.
Definition WithDistCapacity (c : Z) : DistMemoryOption := set capacity c.
Definition WithDistMembership (m : option Membership) (n : option loc) : DistMemoryOption := λ dm,
  match m with Some m => with_members (Some m) n dm | None => dm end.
Definition WithDistTransport (t : option tval) : DistMemoryOption := λ dm,
  with_http (httpAuth dm) (storeTransport t (transport dm)) (httpServer dm) dm.
Definition WithDistChaos (c : option nat) : DistMemoryOption := λ dm,
  with_http (httpAuth dm) (Chaos.WithDistChaos c (transport dm)) (httpServer dm) dm.
Definition WithDistHTTPAuth (a : DistHTTPAuth) : DistMemoryOption := λ dm, with_http a (transport dm) (httpServer dm) dm.
Definition WithDistHeartbeatSample (k : Z) : DistMemoryOption := set hbSampleSize k.
Definition WithDistHeartbeat (interval suspectAfter deadAfter : Z) : DistMemoryOption := λ dm,
  set hbDeadAfter deadAfter (set hbSuspectAfter suspectAfter (set hbInterval interval dm)).
Definition WithDistIndirectProbes (k timeout : Z) : DistMemoryOption := λ dm,
  set indirectProbeTimeout timeout (set indirectProbeK (if (k <? 0)%Z then 0 else k)%Z dm).
Definition WithDistReplication (n : Z) : DistMemoryOption := positive replication n.
Definition WithDistVirtualNodes (n : Z) : DistMemoryOption := positive virtualNodes n.
Definition WithDistHintTTL (d : Z) : DistMemoryOption := set hintTTL d.
Definition WithDistHintReplayInterval (d : Z) : DistMemoryOption := set hintReplayInt d.
Definition WithDistHintMaxPerNode (n : Z) : DistMemoryOption := positive hintMaxPerNode n.
Definition WithDistHintMaxTotal (n : Z) : DistMemoryOption := positive hintMaxTotal n.
Definition WithDistHintMaxBytes (b : Z) : DistMemoryOption := positive hintMaxBytes b.
Definition WithDistGossipInterval (d : Z) : DistMemoryOption := set gossipInterval d.
Definition WithDistNode (id address : string) : DistMemoryOption := λ dm,
  with_identity (if decide (address ≠ ""%string) then address else nodeAddr dm) id (seeds dm) dm.
Definition WithDistSeeds (addresses : list string) : DistMemoryOption := λ dm,
  with_identity (nodeAddr dm) (nodeID dm) (filter (λ a, a ≠ ""%string) addresses) dm.
Definition WithDistReadRepairBatch (interval maxBatchSize : Z) : DistMemoryOption := λ dm,
  if ((interval <=? 0) || (maxBatchSize <=? 0))%Z
  then set repairBatchSize 0 (set repairBatchInterval 0 dm)
  else set repairBatchSize maxBatchSize (set repairBatchInterval interval dm).

(** ** Peer authentication *)

Definition inboundConfigured (a : DistHTTPAuth) : bool :=
  bool_decide (Token a ≠ ""%string) || match ServerVerify a with Some _ => true | None => false end.

Definition validate (a : DistHTTPAuth) : option error :=
  let signOnly := match ClientSign a with Some _ => negb (inboundConfigured a) | None => false end in
  if signOnly && negb (AllowAnonymousInbound a) then Some ErrInsecureAuthConfig else None.

(** On the Authorization header of a request. *)
Definition verify (a : DistHTTPAuth) (header : string) : option error :=
  match ServerVerify a with
  | Some f => f header
  | None =>
      if decide (Token a = ""%string) then None
      else if decide (header = String.append "Bearer " (Token a)) then None else Some ErrUnauthorized
  end.

(** The header that a request carries after [sign]. *)
Definition sign (a : DistHTTPAuth) (header : string) : string :=
  match ClientSign a with
  | Some f => f header
  | None => if decide (Token a = ""%string) then header else String.append "Bearer " (Token a)
  end.

(** ** Construction *)

Definition parseSeedSpec (raw : string) : string * string :=
  match cutAt 64 (Z.of_nat <$> bytes_of raw) with
  | None => (""%string, raw)
  | Some (id, addr) => (string_of_bytes id, string_of_bytes addr)
  end.

Section Build.
Context (sum64 : string → Z) (SortFunc : (vnode → vnode → Z) → list vnode → list vnode)
  (enum : gmap string loc → list (string * loc)) (idOfAddr : string → string).

Definition NewNode (now : Z) (id addr : string) : Node :=
  MkNode (if decide (id = ""%string) then idOfAddr addr else id) addr NodeAlive 1 now.

(** [membership.Upsert(node)] of a new node. *)
Definition upsertNew (now : Z) (n : Node) (m : Membership) : option (loc * Membership) :=
  let '(p, m) := alloc n m in m ← Upsert sum64 SortFunc enum now p m; Some (p, m).

Fixpoint addSeeds (now : Z) (local : Node) (ss : list string) (m : Membership) : option Membership :=
  match ss with
  | [] => Some m
  | raw :: ss =>
      let '(id, addr) := parseSeedSpec raw in
      if decide (addr = Membership.Address local) then addSeeds now local ss m
      else if decide (id = ID local) then addSeeds now local ss m
      else '(_, m) ← upsertNew now (NewNode now id addr) m; addSeeds now local ss m
  end.

(** Without a local node, as the options leave it. *)
Definition initStandaloneMembership (now : Z) (dm : distMemory) : option distMemory :=
  let ringOpts := (if (0 <? nums dm replication)%Z then [WithReplication (nums dm replication)] else []) ++
                  (if (0 <? nums dm virtualNodes)%Z then [WithVirtualNodes (nums dm virtualNodes)] else []) in
  let m := NewMembership (NewRing ringOpts) in
  let addr := if decide (nodeAddr dm = ""%string) then "local"%string else nodeAddr dm in
  let local := NewNode now (nodeID dm) addr in
  '(p, m) ← upsertNew now local m;
  m ← addSeeds now local (seeds dm) m;
  Some (with_members (Some m) (Some p) dm).

Definition initMembershipIfNeeded (now : Z) (dm : distMemory) : option distMemory :=
  match members dm with
  | None => initStandaloneMembership now dm
  | Some m =>
      '(p, m) ← match localNode dm with
                 | None => Some (alloc (NewNode now "" "local") m)
                 | Some p => Some (p, m)
                 end;
      m ← Upsert sum64 SortFunc enum now p m;
      local ← store m !! p;
      let dm := with_members (Some m) (Some p) dm in
      Some (if decide (nodeAddr dm = ""%string) then with_identity (Membership.Address local) (nodeID dm) (seeds dm) dm else dm)
  end.

(** [tryStartHTTP]: the transport of the HTTP client is [http]. *)
Definition tryStartHTTP (listen : bool) (http : nat) (dm : distMemory) : distMemory :=
  match active (transport dm) with
  | Some _ => dm
  | None =>
      if decide (nodeAddr dm = ""%string) then dm
      else if negb listen then dm
      else with_http (httpAuth dm) (storeTransport (Some (Plain http)) (transport dm)) true dm
  end.

(** A goroutine with a new stop channel in its field. *)
Definition startLoop (l : loop) (ch : nat) (dm : distMemory) : distMemory :=
  with_loops (λ l', if decide (l' = l) then Some ch else stopChs dm l') (running dm ++ [(l, Some ch)]) (closedChs dm) (lifeDone dm) (queueStopped dm) dm.
(** A goroutine without one. *)
Definition startBare (l : loop) (dm : distMemory) : distMemory :=
  with_loops (stopChs dm) (running dm ++ [(l, None)]) (closedChs dm) (lifeDone dm) (queueStopped dm) dm.

Definition startHeartbeatIfEnabled (dm : distMemory) : distMemory :=
  let dm := match active (transport dm) with
            | Some _ => if (0 <? nums dm hbInterval)%Z then startLoop LHeartbeat 0 dm else dm
            | None => dm
            end in
  startBare LEventPublisher dm.
Definition startHintReplayIfEnabled (dm : distMemory) : distMemory :=
  if ((nums dm hintReplayInt <=? 0) || (nums dm hintTTL <=? 0))%Z then dm else startLoop LHintReplay 1 dm.
Definition startGossipIfEnabled (dm : distMemory) : distMemory :=
  if (nums dm gossipInterval <=? 0)%Z then dm else startLoop LGossip 2 dm.
Definition startAutoSyncIfEnabled (dm : distMemory) : distMemory :=
  if (nums dm autoSyncInterval <=? 0)%Z then dm
  else match members dm, stopChs dm LAutoSync with Some _, None => startLoop LAutoSync 3 dm | _, _ => dm end.
Definition startTombstoneSweeper (dm : distMemory) : distMemory :=
  if ((nums dm tombstoneTTL <=? 0) || (nums dm tombstoneSweepInt <=? 0))%Z then dm else startLoop LTombstones 4 dm.
Definition defaultRebalanceBatchSize : Z := 128.
Definition defaultRebalanceMaxConcurrent : Z := 2.
Definition startRebalancerIfEnabled (dm : distMemory) : distMemory :=
  if (nums dm rebalanceInterval <=? 0)%Z then dm
  else
    match members dm with
    | None => dm
    | Some _ =>
        let dm := if (nums dm rebalanceBatchSize <=? 0)%Z then set rebalanceBatchSize defaultRebalanceBatchSize dm else dm in
        let dm := if (nums dm rebalanceMaxConcurrent <=? 0)%Z then set rebalanceMaxConcurrent defaultRebalanceMaxConcurrent dm else dm in
        startLoop LRebalance 5 dm
    end.
Definition startRepairQueueIfEnabled (dm : distMemory) : distMemory :=
  if ((nums dm repairBatchInterval <=? 0) || (nums dm repairBatchSize <=? 0))%Z then dm else startBare LRepairQueue dm.

Definition freshDist : distMemory :=
  set replication 1 (set shardCount 8
    (MkDist (λ _, 0%Z) ConsistencyOne ConsistencyQuorum false "" "" [] noAuth (MkDT None None) None None (λ _, None) [] ∅
       false false false false false 0)).

(** [ensureShardConfig] is DistNode.v's; here only the count. *)
Definition ensureShardConfig (dm : distMemory) : distMemory :=
  if (nums dm shardCount <=? 0)%Z then set shardCount 8 dm else dm.

Definition startLoops (dm : distMemory) : distMemory :=
  startRepairQueueIfEnabled (startRebalancerIfEnabled (startTombstoneSweeper (startAutoSyncIfEnabled
    (startGossipIfEnabled (startHintReplayIfEnabled (startHeartbeatIfEnabled dm)))))).

(** [None] is a dangling node pointer. *)
Definition NewDistMemory (now : Z) (listen : bool) (http : nat) (opts : list DistMemoryOption) : option (result distMemory) :=
  let dm := foldl (λ dm opt, opt dm) freshDist opts in
  match validate (httpAuth dm) with
  | Some e => Some (Err e)
  | None =>
      let dm := ensureShardConfig dm in
      dm ← initMembershipIfNeeded now dm;
      Some (Ok (startLoops (tryStartHTTP listen http dm)))
  end.

(** *** From a configuration *)

Record minimalConfig := MkMinimal {
  mc_NodeID : string; mc_AdvertiseAddr : string; mc_Seeds : list string; mc_Replication : Z; mc_VirtualNodes : Z;
  mc_ReadConsistency : Z; mc_WriteConsistency : Z; mc_HintTTL : Z; mc_HintReplay : Z; mc_HintMaxPerNode : Z }.
Definition zeroMinimal : minimalConfig := MkMinimal "" "" [] 0 0 0 0 0 0 0.

(** The conversion of an int to a ConsistencyLevel, for the two values that pass. *)
Definition levelOf (z : Z) : ConsistencyLevel := if (z =? 0)%Z then ConsistencyOne else ConsistencyQuorum.

Definition distOptionsFromMinimal (mc : minimalConfig) : list DistMemoryOption :=
  let add (c : bool) (o : DistMemoryOption) := if c then [o] else [] in
  add (bool_decide (mc_NodeID mc ≠ "" ∨ mc_AdvertiseAddr mc ≠ "")%string) (WithDistNode (mc_NodeID mc) (mc_AdvertiseAddr mc)) ++
  add (bool_decide (mc_Seeds mc ≠ [])) (WithDistSeeds (mc_Seeds mc)) ++
  add (0 <? mc_Replication mc)%Z (WithDistReplication (mc_Replication mc)) ++
  add (0 <? mc_VirtualNodes mc)%Z (WithDistVirtualNodes (mc_VirtualNodes mc)) ++
  add ((0 <=? mc_ReadConsistency mc) && (mc_ReadConsistency mc <=? 1))%Z (WithDistReadConsistency (levelOf (mc_ReadConsistency mc))) ++
  add ((0 <=? mc_WriteConsistency mc) && (mc_WriteConsistency mc <=? 1))%Z (WithDistWriteConsistency (levelOf (mc_WriteConsistency mc))) ++
  add (0 <? mc_HintTTL mc)%Z (WithDistHintTTL (mc_HintTTL mc)) ++
  add (0 <? mc_HintReplay mc)%Z (WithDistHintReplayInterval (mc_HintReplay mc)) ++
  add (0 <? mc_HintMaxPerNode mc)%Z (WithDistHintMaxPerNode (mc_HintMaxPerNode mc)).

(** A value of an [any]: of the type that the function declares itself, or of another.
    No caller can name the former. *)
Inductive cfgValue := CfgMinimal (mc : minimalConfig) | CfgOther (mc : minimalConfig).

Definition NewDistMemoryWithConfig (now : Z) (listen : bool) (http : nat) (cfg : cfgValue) (opts : list DistMemoryOption)
    : option (result distMemory) :=
  let mc := match cfg with CfgMinimal mc => mc | CfgOther _ => zeroMinimal end in
  NewDistMemory now listen http (distOptionsFromMinimal mc ++ opts).

(** ** Stopping *)

(** [closeBackgroundLoops]: [None] is a panic, the close of a closed channel. *)
Fixpoint closeLoop (ls : list loop) (dm : distMemory) : option distMemory :=
  match ls with
  | [] => Some dm
  | l :: ls =>
      match stopChs dm l with
      | None => closeLoop ls dm
      | Some ch =>
          if decide (ch ∈ closedChs dm) then None
          else closeLoop ls (with_loops (λ l', if decide (l' = l) then None else stopChs dm l') (running dm)
                               ({[ch]} ∪ closedChs dm) (lifeDone dm) (queueStopped dm) dm)
      end
  end.
Definition closeBackgroundLoops (dm : distMemory) : option distMemory :=
  closeLoop [LHeartbeat; LHintReplay; LGossip; LAutoSync; LTombstones; LRebalance] dm.

Definition Stop (dm : distMemory) : option distMemory :=
  if stopped dm then Some dm
  else
    let dm := with_state (httpServer dm) true (isDraining dm) (drains dm) dm in
    let dm := with_loops (stopChs dm) (running dm) (closedChs dm) true (queueStopped dm) dm in
    dm ← closeBackgroundLoops dm;
    let dm := with_loops (stopChs dm) (running dm) (closedChs dm) (lifeDone dm) true dm in
    Some (with_state false (stopped dm) (isDraining dm) (drains dm) dm).

Definition Drain (dm : distMemory) : distMemory :=
  if isDraining dm then dm else with_state (httpServer dm) (stopped dm) true (i64 (drains dm + 1)) dm.

(** ** Peers by hand *)

Definition AddPeer (now : Z) (address : string) (dm : distMemory) : option distMemory :=
  match members dm with
  | None => Some dm
  | Some m =>
      if decide (address = ""%string) then Some dm
      else
        local ← (match localNode dm with Some p => n ← store m !! p; Some (Some n) | None => Some None end);
        if decide (Membership.Address <$> local = Some address) then Some dm
        else
          l ← List_ enum m;
          if existsb (λ n, bool_decide (Membership.Address n = address)) l then Some dm
          else '(_, m) ← upsertNew now (NewNode now "" address) m; Some (with_members (Some m) (localNode dm) dm)
  end.

Definition RemovePeer (address : string) (dm : distMemory) : option distMemory :=
  match members dm with
  | None => Some dm
  | Some m =>
      if decide (address = ""%string) then Some dm
      else
        l ← List_ enum m;
        match list_find (λ n, Membership.Address n = address) l with
        | None => Some dm
        | Some (_, n) => '(m, _) ← Remove sum64 SortFunc enum (ID n) m; Some (with_members (Some m) (localNode dm) dm)
        end
  end.

End Build.

(** ** The configuration *)

(** The options of the package. *)
Inductive option_of : DistMemoryOption → Prop :=
  | of_ShardCount n : option_of (WithDistShardCount n)
  | of_MerkleChunkSize n : option_of (WithDistMerkleChunkSize n)
  | of_MerkleAutoSync n : option_of (WithDistMerkleAutoSync n)
  | of_MerkleAdaptiveBackoff n : option_of (WithDistMerkleAdaptiveBackoff n)
  | of_MerkleAutoSyncPeers n : option_of (WithDistMerkleAutoSyncPeers n)
  | of_ListKeysCap n : option_of (WithDistListKeysCap n)
  | of_RebalanceInterval n : option_of (WithDistRebalanceInterval n)
  | of_RebalanceBatchSize n : option_of (WithDistRebalanceBatchSize n)
  | of_RebalanceMaxConcurrent n : option_of (WithDistRebalanceMaxConcurrent n)
  | of_ReplicaDiffMaxPerTick n : option_of (WithDistReplicaDiffMaxPerTick n)
  | of_RemovalGrace n : option_of (WithDistRemovalGrace n)
  | of_ReadConsistency l : option_of (WithDistReadConsistency l)
  | of_WriteConsistency l : option_of (WithDistWriteConsistency l)
  | of_ParallelReads b : option_of (WithDistParallelReads b)
  | of_TombstoneTTL n : option_of (WithDistTombstoneTTL n)
  | of_TombstoneSweep n : option_of (WithDistTombstoneSweep n)
  | of_Capacity n : option_of (WithDistCapacity n)
  | of_Transport t : option_of (WithDistTransport t)
  | of_Chaos c : option_of (WithDistChaos c)
  | of_HTTPAuth a : option_of (WithDistHTTPAuth a)
  | of_HeartbeatSample n : option_of (WithDistHeartbeatSample n)
  | of_Heartbeat a b c : option_of (WithDistHeartbeat a b c)
  | of_IndirectProbes k t : option_of (WithDistIndirectProbes k t)
  | of_Replication n : option_of (WithDistReplication n)
  | of_VirtualNodes n : option_of (WithDistVirtualNodes n)
  | of_HintTTL n : option_of (WithDistHintTTL n)
  | of_HintReplayInterval n : option_of (WithDistHintReplayInterval n)
  | of_HintMaxPerNode n : option_of (WithDistHintMaxPerNode n)
  | of_HintMaxTotal n : option_of (WithDistHintMaxTotal n)
  | of_HintMaxBytes n : option_of (WithDistHintMaxBytes n)
  | of_GossipInterval n : option_of (WithDistGossipInterval n)
  | of_Node id a : option_of (WithDistNode id a)
  | of_Seeds ss : option_of (WithDistSeeds ss)
  | of_ReadRepairBatch i n : option_of (WithDistReadRepairBatch i n).

(** What holds of the fields after any of them. *)
Definition nonneg_fields : list dfield :=
  [merkleChunkSize; autoSyncMaxBackoffFactor; listKeysMax; rebalanceBatchSize; rebalanceMaxConcurrent;
   replicaDiffMaxPerTick; removalGracePeriod; indirectProbeK; virtualNodes; hintMaxPerNode; hintMaxTotal; hintMaxBytes;
   repairBatchInterval; repairBatchSize].
Record config_ok (dm : distMemory) : Prop := {
  ok_shards : (0 < nums dm shardCount)%Z;
  ok_replication : (0 < nums dm replication)%Z;
  ok_nonneg : Forall (λ f, 0 ≤ nums dm f)%Z nonneg_fields;
  ok_repair : (nums dm repairBatchInterval = 0 ↔ nums dm repairBatchSize = 0)%Z;
  ok_seeds : ""%string ∉ seeds dm }.

(** What an option does not touch. *)
Record same_life (dm dm' : distMemory) : Prop := {
  sl_members : members dm' = members dm;
  sl_local : localNode dm' = localNode dm;
  sl_chs : stopChs dm' = stopChs dm;
  sl_running : running dm' = running dm;
  sl_closed : closedChs dm' = closedChs dm;
  sl_done : lifeDone dm' = lifeDone dm;
  sl_stopped : stopped dm' = stopped dm;
  sl_draining : isDraining dm' = isDraining dm;
  sl_server : httpServer dm' = httpServer dm }.

(** One field is set to a value that is allowed there. *)
Lemma set_ok f v dm :
  (f = shardCount ∨ f = replication → 0 < v)%Z → (f ∈ nonneg_fields → 0 ≤ v)%Z →
  f ≠ repairBatchInterval → f ≠ repairBatchSize → config_ok dm → config_ok (set f v dm).
Proof.
  intros Hp Hn Hi Hs [H1 H2 H3 H4 H5]. split; cbn; try done.
  - case_decide; [apply Hp; auto|done].
  - case_decide; [apply Hp; auto|done].
  - apply Forall_forall. intros g Hg. rewrite Forall_forall in H3. case_decide; [subst; by apply Hn|by apply H3].
  - rewrite !decide_False by congruence. done.
Qed.

Lemma positive_ok f n dm : f ≠ repairBatchInterval → f ≠ repairBatchSize → config_ok dm → config_ok (positive f n dm).
Proof. intros Hi Hs Hc. unfold positive. destruct (Z.ltb_spec 0 n); [|done]. apply set_ok; try done; lia. Qed.

Ltac free_field := apply set_ok; [by intros [?|?]|intros Hin; try (exfalso; revert Hin; apply (bool_decide_unpack (_ ∉ nonneg_fields)); exact I)|done|done|try done].

Lemma option_ok o dm : option_of o → config_ok dm → config_ok (o dm).
Proof.
  intros Ho Hc. destruct Ho; try (by apply positive_ok); try (by free_field); try (by destruct Hc).
  - free_field. destruct (Z.ltb_spec n 1); lia.
  - unfold WithDistListKeysCap. destruct (Z.leb_spec 0 n); [|done]. free_field. done.
  - unfold WithDistHeartbeat. free_field. free_field. free_field.
  - unfold WithDistIndirectProbes. free_field. free_field. destruct (Z.ltb_spec k 0); lia.
  - destruct Hc as [H1 H2 H3 H4 H5]. split; try done. cbn. rewrite list_elem_of_filter. by intros [? _].
  - unfold WithDistReadRepairBatch. destruct Hc as [H1 H2 H3 H4 H5].
    destruct ((i <=? 0) || (n <=? 0))%Z eqn:E.
    + split; cbn; try done. rewrite Forall_forall in H3 |- *. intros g Hg. repeat case_decide; try lia. by apply H3.
    + apply orb_false_iff in E as [E1%Z.leb_gt E2%Z.leb_gt]. split; cbn; try done; [|repeat case_decide; try done; lia].
      rewrite Forall_forall in H3 |- *. intros g Hg. repeat case_decide; try lia. by apply H3.
Qed.

Lemma option_life o dm : option_of o → same_life dm (o dm).
Proof.
  destruct 1; unfold WithDistListKeysCap, WithDistReadRepairBatch, WithDistShardCount, WithDistMerkleChunkSize,
    WithDistRebalanceBatchSize, WithDistRebalanceMaxConcurrent, WithDistReplicaDiffMaxPerTick, WithDistRemovalGrace,
    WithDistReplication, WithDistVirtualNodes, WithDistHintMaxPerNode, WithDistHintMaxTotal, WithDistHintMaxBytes, positive;
    try case_match; by split.
Qed.

Lemma options_ok opts : Forall option_of opts →
  let dm := foldl (λ dm opt, opt dm) freshDist opts in config_ok dm ∧ same_life freshDist dm.
Proof.
  intros Ho. cbn zeta.
  assert (∀ dm, config_ok dm ∧ same_life freshDist dm →
    config_ok (foldl (λ dm opt, opt dm) dm opts) ∧ same_life freshDist (foldl (λ dm opt, opt dm) dm opts)) as H.
  { induction Ho as [|o opts Ho _ IH]; intros dm [Hc Hl]; cbn [foldl]; [done|]. apply IH. split; [by apply option_ok|].
    destruct (option_life o dm Ho), Hl. split; congruence. }
  apply H. split; [|done]. split; try done; [|by intros ?%elem_of_nil].
  apply (bool_decide_unpack _). vm_compute. exact I.
Qed.

(** ** The first membership *)

Section BuildFacts.
Context (sum64 : string → Z) (SortFunc : (vnode → vnode → Z) → list vnode → list vnode)
  (enum : gmap string loc → list (string * loc)) (idOfAddr : string → string).
Context (Henum : ∀ m, enum m ≡ₚ map_to_list m).

Lemma upsertNew_ok now n m : wf m →
  ∃ p m', upsertNew sum64 SortFunc enum now n m = Some (p, m') ∧ wf m' ∧ view m' = <[ID n := seen_at now n]> (view m) ∧
    nodes m' = <[ID n := p]> (nodes m).
Proof.
  intros Hw. unfold upsertNew. destruct (alloc_ok n m Hw) as (Hw0 & Hv0 & Hp). destruct (alloc n m) as [p m0] eqn:E.
  cbn [fst snd] in *. destruct (Upsert_ok sum64 SortFunc enum Henum now p n m0 Hw0 Hp) as (m' & -> & Hw' & Hv & _ & _ & _ & Hn).
  cbn [mbind option_bind]. exists p, m'. split_and!; try done; [by rewrite Hv, Hv0|]. unfold alloc in E. simplify_eq. exact Hn.
Qed.

(** The members that a list of seeds adds, and the skipped ones. *)
Definition seedNode (now : Z) (local : Node) (raw : string) : option Node :=
  let '(id, addr) := parseSeedSpec raw in
  if decide (addr = Membership.Address local) then None
  else if decide (id = ID local) then None else Some (NewNode idOfAddr now id addr).
Definition withSeeds (now : Z) (local : Node) (ss : list string) (v : gmap string Node) : gmap string Node :=
  foldl (λ v raw, match seedNode now local raw with Some n => <[ID n := n]> v | None => v end) v ss.

Lemma addSeeds_ok now local ss : ∀ m, wf m →
  ∃ m', addSeeds sum64 SortFunc enum idOfAddr now local ss m = Some m' ∧ wf m' ∧ view m' = withSeeds now local ss (view m) ∧
    (∀ k, Forall (λ raw, ∀ n, seedNode now local raw = Some n → ID n ≠ k) ss → nodes m' !! k = nodes m !! k).
Proof.
  induction ss as [|raw ss IH]; intros m Hw; cbn [addSeeds withSeeds foldl]; [by exists m|].
  unfold seedNode. destruct (parseSeedSpec raw) as [id addr] eqn:Ep.
  assert (∀ m1, wf m1 → nodes m1 = nodes m → view m1 = view m → seedNode now local raw = None →
    ∃ m', addSeeds sum64 SortFunc enum idOfAddr now local ss m1 = Some m' ∧ wf m' ∧
      view m' = withSeeds now local ss (view m) ∧
      (∀ k, Forall (λ raw, ∀ n, seedNode now local raw = Some n → ID n ≠ k) (raw :: ss) → nodes m' !! k = nodes m !! k)) as Hskip.
  { intros m1 Hw1 En Ev Es. destruct (IH m1 Hw1) as (m' & E & Hw' & Hv & Hk). exists m'. rewrite Ev in Hv.
    split_and!; try done. intros k [_ Hf]%Forall_cons. rewrite <- En. by apply Hk. }
  case_decide as Ea; [apply Hskip; try done; unfold seedNode; by rewrite Ep, decide_True|].
  case_decide as Ei; [apply Hskip; try done; unfold seedNode; by rewrite Ep, decide_False, decide_True|].
  destruct (upsertNew_ok now (NewNode idOfAddr now id addr) m Hw) as (p & m1 & -> & Hw1 & Hv1 & Hn1). cbn [mbind option_bind].
  destruct (IH m1 Hw1) as (m' & E & Hw' & Hv & Hk). exists m'. split_and!; try done.
  - rewrite Hv, Hv1. done.
  - intros k [Hh Hf]%Forall_cons. rewrite Hk by done. rewrite Hn1. apply lookup_insert_ne. apply Hh.
    unfold seedNode. by rewrite Ep, !decide_False.
Qed.

Lemma upsertNew_ring now n m p m' :
  upsertNew sum64 SortFunc enum now n m = Some (p, m') → Ring.replication (ring m') = Ring.replication (ring m).
Proof.
  unfold upsertNew, alloc, Upsert, upsertLocked. cbn [store]. rewrite lookup_insert_eq. cbn [mbind option_bind].
  destruct (liveLoop _ _); cbn [mbind option_bind]; [|done]. by intros [= <- <-].
Qed.
Lemma addSeeds_ring now local ss : ∀ m m',
  addSeeds sum64 SortFunc enum idOfAddr now local ss m = Some m' → Ring.replication (ring m') = Ring.replication (ring m).
Proof.
  induction ss as [|raw ss IH]; intros m m'; cbn [addSeeds]; [by intros [= <-]|].
  destruct (parseSeedSpec raw) as [id addr]. do 2 (case_decide; [apply IH|]).
  destruct (upsertNew _ _ _ _ _ m) as [[p m1]|] eqn:E; cbn [mbind option_bind]; [|done]. intros Hm%IH.
  rewrite Hm. by eapply upsertNew_ring.
Qed.

(** Construction without a given membership never meets a dangling node: the members
    are the local node, alive under its own id, and one node per seed that names neither
    its address nor its id, the last of two with the same id; the ring has the configured
    parameters. *)
Theorem standalone now dm :
  members dm = None → config_ok dm →
  let addr := if decide (nodeAddr dm = ""%string) then "local"%string else nodeAddr dm in
  let local := NewNode idOfAddr now (nodeID dm) addr in
  ∃ m p, initMembershipIfNeeded sum64 SortFunc enum idOfAddr now dm = Some (with_members (Some m) (Some p) dm) ∧ wf m ∧
    view m = withSeeds now local (seeds dm) {[ID local := local]} ∧
    Ring.replication (ring m) = nums dm replication ∧
    (Forall (λ raw, ∀ n, seedNode now local raw = Some n → ID n ≠ ID local) (seeds dm) →
     is_self p (ID local) m ∧ view m !! ID local = Some local).
Proof.
  intros Hm [_ Hrep _ _ _]. cbn zeta. unfold initMembershipIfNeeded, initStandaloneMembership. rewrite Hm.
  set (local := NewNode idOfAddr now (nodeID dm) _). set (m0 := NewMembership (NewRing _)).
  assert (wf m0 ∧ view m0 = ∅) as [Hw0 Hv0].
  { split; [split; cbn; [done|]; intros p; rewrite lookup_empty; by intros []|]. apply map_eq. intros k. unfold view. by rewrite lookup_omap. }
  destruct (upsertNew_ok now local m0 Hw0) as (p & m1 & E1 & Hw1 & Hv1 & Hn1). rewrite E1. cbn [mbind option_bind].
  destruct (addSeeds_ok now local (seeds dm) m1 Hw1) as (m & E2 & Hw & Hv & Hk). rewrite E2. cbn [mbind option_bind].
  exists m, p. split; [done|]. split; [done|].
  assert (view m = withSeeds now local (seeds dm) {[ID local := local]}) as Ev by (by rewrite Hv, Hv1, Hv0).
  split; [done|]. split.
  - rewrite (addSeeds_ring _ _ _ _ _ E2), (upsertNew_ring _ _ _ _ _ E1). cbn [ring m0 NewMembership]. cbn.
    apply Z.ltb_lt in Hrep. rewrite Hrep. unfold NewRing. cbn [app foldl applyRingOption]. rewrite Hrep.
    destruct (0 <? nums dm virtualNodes)%Z eqn:Evn; cbn [foldl applyRingOption]; rewrite ?Evn; done.
  - intros Hs. assert (is_self p (ID local) m) as Hself by (unfold is_self; rewrite Hk by done; rewrite Hn1; apply lookup_insert_eq).
    split; [done|]. rewrite Ev. unfold withSeeds.
    assert (({[ID local := local]} : gmap string Node) !! ID local = Some local) as H0 by apply lookup_singleton_eq.
    revert H0. generalize ({[ID local := local]} : gmap string Node). clear -Hs.
    induction Hs as [|raw ss Hr _ IH]; intros v H0; cbn [foldl]; [done|]. apply IH.
    destruct (seedNode now local raw) as [n|]; [|done]. rewrite lookup_insert_ne; [done|]. by apply Hr.
Qed.

End BuildFacts.

(** ** Loops *)

(** The channel that each loop gets. *)
Definition chanNo (l : loop) : nat :=
  match l with LHeartbeat => 0 | LHintReplay => 1 | LGossip => 2 | LAutoSync => 3 | LTombstones => 4 | LRebalance => 5 | LRepairQueue => 6 | LEventPublisher => 7 end.
(** The loops whose select has the lifetime context. *)
Definition watchesCtx (l : loop) : bool :=
  match l with LHintReplay | LRebalance | LRepairQueue | LEventPublisher => true | _ => false end.

(** A goroutine has something that makes it return. *)
Definition ended (r : loop * option nat) (dm : distMemory) : bool :=
  (watchesCtx r.1 && lifeDone dm) || match r.2 with Some c => bool_decide (c ∈ closedChs dm) | None => false end.

Definition closable : list loop := [LHeartbeat; LHintReplay; LGossip; LAutoSync; LTombstones; LRebalance].

Record loops_ok (dm : distMemory) : Prop := {
  lo_chs : ∀ l c, stopChs dm l = Some c → c = chanNo l ∧ l ∈ closable ∧ c ∉ closedChs dm;
  lo_running : Forall (λ r, match r.2 with Some c => stopChs dm r.1 = Some c | None => watchesCtx r.1 = true end) (running dm) }.

(** Nothing is stopped and no channel is closed yet. *)
Definition fresh_loops (dm : distMemory) : Prop := loops_ok dm ∧ closedChs dm = ∅ ∧ stopped dm = false.

Lemma startLoop_ok l dm : l ∈ closable → fresh_loops dm → fresh_loops (startLoop l (chanNo l) dm).
Proof.
  intros Hl ([Hc Hr] & He & Hs). split; [|done]. split; cbn.
  - intros l' c. case_decide; [intros [= <-]; subst; rewrite He; set_solver|apply Hc].
  - apply Forall_app. split.
    + eapply Forall_impl; [exact Hr|]. intros [l' [c|]]; cbn; [|done]. intros E. case_decide; [|done].
      subst. f_equal. symmetry. by apply Hc.
    + apply Forall_singleton. cbn. by rewrite decide_True.
Qed.
Lemma startBare_ok l dm : watchesCtx l = true → fresh_loops dm → fresh_loops (startBare l dm).
Proof. intros Hl ([Hc Hr] & He & Hs). split; [|done]. split; cbn; [done|]. apply Forall_app. by rewrite Forall_singleton. Qed.
Lemma set_loops f v dm : fresh_loops dm → fresh_loops (set f v dm).
Proof. intros ([Hc Hr] & He & Hs). split; [by split|done]. Qed.

Lemma startLoops_ok dm : fresh_loops dm → fresh_loops (startLoops dm).
Proof.
  intros H. unfold startLoops, startRepairQueueIfEnabled.
  enough (fresh_loops (startRebalancerIfEnabled (startTombstoneSweeper (startAutoSyncIfEnabled
    (startGossipIfEnabled (startHintReplayIfEnabled (startHeartbeatIfEnabled dm))))))) as H1 by (case_match; [done|by apply startBare_ok]).
  unfold startRebalancerIfEnabled. enough (fresh_loops (startTombstoneSweeper (startAutoSyncIfEnabled
    (startGossipIfEnabled (startHintReplayIfEnabled (startHeartbeatIfEnabled dm)))))) as H1.
  { destruct (_ <=? 0)%Z; [done|]. destruct (members _); [|done]. apply (startLoop_ok LRebalance); [set_solver|].
    repeat case_match; repeat apply set_loops; done. }
  unfold startTombstoneSweeper. enough (fresh_loops (startAutoSyncIfEnabled (startGossipIfEnabled (startHintReplayIfEnabled (startHeartbeatIfEnabled dm))))) as H1.
  { case_match; [done|]. apply (startLoop_ok LTombstones); [set_solver|done]. }
  unfold startAutoSyncIfEnabled. enough (fresh_loops (startGossipIfEnabled (startHintReplayIfEnabled (startHeartbeatIfEnabled dm)))) as H1.
  { destruct (_ <=? 0)%Z; [done|]. destruct (members _); [|done]. case_match; [done|]. apply (startLoop_ok LAutoSync); [set_solver|done]. }
  unfold startGossipIfEnabled. enough (fresh_loops (startHintReplayIfEnabled (startHeartbeatIfEnabled dm))) as H1.
  { case_match; [done|]. apply (startLoop_ok LGossip); [set_solver|done]. }
  unfold startHintReplayIfEnabled. enough (fresh_loops (startHeartbeatIfEnabled dm)) as H1.
  { case_match; [done|]. apply (startLoop_ok LHintReplay); [set_solver|done]. }
  unfold startHeartbeatIfEnabled. apply startBare_ok; [done|]. destruct (active _); [|done].
  case_match; [|done]. apply (startLoop_ok LHeartbeat); [set_solver|done].
Qed.

(** Closing the channels of distinct loops. *)
Lemma closeLoop_ok ls : ∀ dm, NoDup ls → (∀ l c, stopChs dm l = Some c → c = chanNo l) →
  (∀ l c, l ∈ ls → stopChs dm l = Some c → c ∉ closedChs dm) →
  ∃ dm', closeLoop ls dm = Some dm' ∧ running dm' = running dm ∧ lifeDone dm' = lifeDone dm ∧ stopped dm' = stopped dm ∧
    closedChs dm ⊆ closedChs dm' ∧ (∀ l c, l ∈ ls → stopChs dm l = Some c → c ∈ closedChs dm').
Proof.
  induction ls as [|l ls IH]; intros dm Hnd Hch Hcl; cbn [closeLoop].
  { exists dm. split_and!; try done. by intros ? ? ?%elem_of_nil. }
  apply NoDup_cons in Hnd as [Hl Hnd]. destruct (stopChs dm l) as [c|] eqn:E.
  - rewrite decide_False by (eapply Hcl; [by left|done]).
    destruct (IH (with_loops (λ l', if decide (l' = l) then None else stopChs dm l') (running dm) ({[c]} ∪ closedChs dm)
      (lifeDone dm) (queueStopped dm) dm)) as (dm' & E' & Hr & Hd & Hs & Hsub & Hin); [done|..].
    + intros l' c'. cbn. case_decide; [done|]. apply Hch.
    + intros l' c' Hl' E'. cbn in *. case_decide; [done|]. rewrite elem_of_union, elem_of_singleton. intros [->|Hx].
      * apply Hch in E. apply Hch in E'. rewrite E' in E. assert (l' = l) by (clear -E; destruct l, l'; done). done.
      * eapply Hcl; [by right|done|done].
    + exists dm'. cbn in *. split_and!; try done; [set_solver|]. intros l' c' [->|Hl']%elem_of_cons E2; [set_solver|].
      destruct (decide (l' = l)) as [->|Hne]; [done|]. apply (Hin l' c' Hl'). by rewrite decide_False.
  - destruct (IH dm Hnd Hch) as (dm' & E' & Hr & Hd & Hs & Hsub & Hin); [intros l' c' Hl'; apply Hcl; by right|].
    exists dm'. split_and!; try done. intros l' c' [->|Hl']%elem_of_cons E2; [congruence|]. by apply (Hin l').
Qed.

Lemma stop_ok dm : loops_ok dm → stopped dm = false →
  ∃ dm', Stop dm = Some dm' ∧ running dm' = running dm ∧ httpServer dm' = false ∧ stopped dm' = true ∧
    Forall (λ r, ended r dm' = true) (running dm').
Proof.
  intros [Hc Hr] Hs. unfold Stop. rewrite Hs. unfold closeBackgroundLoops. fold closable.
  set (dm1 := with_loops _ _ _ true _ _).
  destruct (closeLoop_ok closable dm1) as (dm' & -> & Er & Ed & Es & _ & Hin).
  - apply (bool_decide_unpack _). vm_compute. exact I.
  - intros l c E. by apply Hc.
  - intros l c _ E. by apply (Hc l).
  - cbn [mbind option_bind]. eexists. split; [done|]. cbn. split_and!; try done.
    rewrite Er. cbn. eapply Forall_impl; [exact Hr|]. intros [l [c|]]; cbn; unfold ended; cbn.
    + intros E. apply orb_true_iff. right. apply bool_decide_eq_true. destruct (Hc l c E) as (_ & Hl & _). by apply (Hin l c).
    + intros E. rewrite E, Ed. done.
Qed.

Section Outcome.
Context (sum64 : string → Z) (SortFunc : (vnode → vnode → Z) → list vnode → list vnode)
  (enum : gmap string loc → list (string * loc)) (idOfAddr : string → string).
Context (Henum : ∀ m, enum m ≡ₚ map_to_list m).

Lemma config_life f v dm : same_life dm (set f v dm).
Proof. by split. Qed.

Lemma built opts now listen http :
  Forall option_of opts →
  let cfg := foldl (λ dm opt, opt dm) freshDist opts in
  NewDistMemory sum64 SortFunc enum idOfAddr now listen http opts =
    match validate (httpAuth cfg) with
    | Some e => Some (Err e)
    | None => dm ← initMembershipIfNeeded sum64 SortFunc enum idOfAddr now cfg; Some (Ok (startLoops (tryStartHTTP listen http dm)))
    end ∧ config_ok cfg ∧ same_life freshDist cfg.
Proof.
  intros Ho. destruct (options_ok opts Ho) as [Hc Hl]. split_and!; [|done|done]. unfold NewDistMemory.
  destruct (validate _); [done|]. unfold ensureShardConfig. pose proof (ok_shards _ Hc).
  destruct (Z.leb_spec (nums (foldl (λ dm opt, opt dm) freshDist opts) shardCount) 0); [lia|done].
Qed.

(** A backend built with any options of the package either is refused, exactly when
    its peer authentication signs outbound requests but checks no inbound ones without
    that being allowed, or can be stopped: Stop closes no channel twice, ends every
    goroutine that was started and the listener, and a second Stop does nothing. *)
Theorem dist_stops opts now listen http :
  Forall option_of opts →
  (NewDistMemory sum64 SortFunc enum idOfAddr now listen http opts = Some (Err ErrInsecureAuthConfig) ∧
     ∃ a, validate a = Some ErrInsecureAuthConfig ∧ inboundConfigured a = false ∧ AllowAnonymousInbound a = false) ∨
  ∃ dm dm', NewDistMemory sum64 SortFunc enum idOfAddr now listen http opts = Some (Ok dm) ∧ Stop dm = Some dm' ∧
    running dm' = running dm ∧ Forall (λ r, ended r dm' = true) (running dm') ∧ httpServer dm' = false ∧ Stop dm' = Some dm'.
Proof.
  intros Ho. destruct (built opts now listen http Ho) as (E & Hc & Hl). cbn zeta in *. rewrite E.
  set (cfg := foldl _ _ _) in *. destruct (validate (httpAuth cfg)) as [e|] eqn:Ev.
  - left. unfold validate in Ev. destruct (ClientSign (httpAuth cfg)) eqn:Es; [|done].
    destruct (inboundConfigured (httpAuth cfg)) eqn:Ei; [done|]. destruct (AllowAnonymousInbound (httpAuth cfg)) eqn:Ea; [done|].
    injection Ev as <-. split; [done|]. exists (httpAuth cfg). unfold validate. by rewrite Es, Ei, Ea.
  - right. destruct (standalone sum64 SortFunc enum idOfAddr Henum now cfg) as (m & p & -> & _); [by destruct Hl|done|].
    cbn [mbind option_bind]. set (dm1 := tryStartHTTP listen http _).
    assert (fresh_loops dm1) as Hf.
    { assert (stopChs dm1 = stopChs cfg ∧ running dm1 = running cfg ∧ closedChs dm1 = closedChs cfg ∧ stopped dm1 = stopped cfg) as (E1 & E2 & E3 & E4).
      { unfold dm1, tryStartHTTP. repeat case_match; done. }
      destruct Hl as [_ _ L3 L4 L5 _ L7 _ _]. split; [|split; [by rewrite E3, L5|by rewrite E4, L7]]. split; [rewrite E1, L3; done|rewrite E2, L4; by apply Forall_nil]. }
    destruct (startLoops_ok dm1 Hf) as (Hlo & _ & Hs).
    destruct (stop_ok (startLoops dm1) Hlo Hs) as (dm' & Es & Er & Eh & Est & He).
    exists (startLoops dm1), dm'. split_and!; try done. unfold Stop. by rewrite Est.
Qed.

(** The caller's context alone does not end the heartbeat, gossip, anti-entropy and
    tombstone loops. *)
Theorem cancel_leaves_loops l c dm :
  watchesCtx l = false → c ∉ closedChs dm →
  ended (l, Some c) (with_loops (stopChs dm) (running dm) (closedChs dm) true (queueStopped dm) dm) = false.
Proof. intros Hw Hc. unfold ended. cbn. rewrite Hw. cbn. by apply bool_decide_eq_false. Qed.

(** The constructor that takes a configuration ignores it: whatever a caller passes,
    the backend is the one that the other options give after both consistency levels are
    set to ONE, so the default QUORUM for writes is lost. *)
Theorem config_ignored now listen http mc opts :
  NewDistMemoryWithConfig sum64 SortFunc enum idOfAddr now listen http (CfgOther mc) opts =
  NewDistMemory sum64 SortFunc enum idOfAddr now listen http
    (WithDistReadConsistency ConsistencyOne :: WithDistWriteConsistency ConsistencyOne :: opts).
Proof. reflexivity. Qed.

End Outcome.

(** ** Peer authentication *)

(** Nodes that share a token accept each other and nobody who does not send it; a policy
    that passes validation never signs outbound requests while it lets everybody in,
    unless that was asked for. *)
Theorem shared_token tok header :
  tok ≠ ""%string →
  let a := MkDistAuth tok None None false in
  validate a = None ∧ verify a (sign a header) = None ∧
  (verify a header = None → header = String.append "Bearer " tok).
Proof.
  intros Ht. cbn zeta. unfold validate, verify, sign. cbn. rewrite (decide_False (P := tok = _)) by done.
  split_and!; [done|rewrite (decide_False (P := tok = _)), decide_True by done; done|rewrite (decide_False (P := tok = _)) by done; by case_decide].
Qed.
Theorem validated_policy a :
  validate a = None → is_Some (ClientSign a) → AllowAnonymousInbound a = false → inboundConfigured a = true.
Proof. unfold validate. intros Hv [f Hf] Ha. rewrite Hf, Ha in Hv. by destruct (inboundConfigured a). Qed.

(** ** Peers by hand *)

Section Peers.
Context (sum64 : string → Z) (SortFunc : (vnode → vnode → Z) → list vnode → list vnode)
  (enum : gmap string loc → list (string * loc)) (idOfAddr : string → string).
Context (Henum : ∀ m, enum m ≡ₚ map_to_list m).

(** An address is known. *)
Definition has_addr (address : string) (m : Membership) : Prop :=
  ∃ n, view m !! ID n = Some n ∧ Membership.Address n = address.

Lemma list_has_addr m l address :
  wf m → List_ enum m = Some l → (∃ n, n ∈ l ∧ Membership.Address n = address) ↔ has_addr address m.
Proof.
  intros Hw El. pose proof (membership_snapshot_ok enum Henum m l Hw El) as Hin. unfold has_addr. split.
  - intros (n & Hn & Ha). exists n. by rewrite <- Hin.
  - intros (n & Hn & Ha). exists n. by rewrite Hin.
Qed.

(** Adding a peer leaves a membership that knows its address, at most one member more, and
    every other member as it was; removing one takes away at most one member, of that
    address, the node itself included. *)
Theorem peers_by_hand now address dm m :
  members dm = Some m → wf m → address ≠ ""%string →
  (∀ p, localNode dm = Some p → ∃ n, store m !! p = Some n ∧ view m !! ID n = Some n) →
  (∃ m1, members <$> AddPeer sum64 SortFunc enum idOfAddr now address dm = Some (Some m1) ∧ wf m1 ∧ has_addr address m1 ∧
     (∀ k, k ≠ idOfAddr address → view m1 !! k = view m !! k)) ∧
  (∃ m2, members <$> RemovePeer sum64 SortFunc enum address dm = Some (Some m2) ∧ wf m2 ∧
     (¬ has_addr address m ∧ view m2 = view m ∨
      ∃ n, view m !! ID n = Some n ∧ Membership.Address n = address ∧ view m2 = delete (ID n) (view m))).
Proof.
  intros Hm Hw Hne Hloc. unfold AddPeer, RemovePeer. rewrite Hm, !decide_False by done.
  destruct (List_ok enum Henum m Hw) as (l & El & _). pose proof (list_has_addr m l address Hw El) as Hl. split.
  - assert (∃ local, (match localNode dm with Some p => n ← store m !! p; Some (Some n) | None => Some None end) = Some local ∧
      (∀ n, local = Some n → view m !! ID n = Some n)) as (local & -> & Hv).
    { destruct (localNode dm) as [p|]; [|by exists None]. destruct (Hloc p eq_refl) as (n & -> & Hn). exists (Some n).
      split; [done|]. by intros n' [= <-]. }
    cbn [mbind option_bind]. case_decide as Ea.
    { exists m. cbn. rewrite Hm. split_and!; try done. destruct local as [n|]; [|done]. injection Ea as Ea. exists n. by split; [apply Hv|]. }
    rewrite El. cbn [mbind option_bind]. destruct (existsb _ l) eqn:Ex.
    { exists m. cbn. rewrite Hm. split_and!; try done. apply Hl. apply existsb_exists in Ex as (n & Hn & Hb).
      exists n. rewrite list_elem_of_In. by apply bool_decide_eq_true in Hb. }
    destruct (upsertNew_ok sum64 SortFunc enum Henum now (NewNode idOfAddr now "" address) m Hw) as (p & m1 & -> & Hw1 & Hv1 & _).
    cbn. exists m1. split_and!; try done.
    + exists (seen_at now (NewNode idOfAddr now "" address)). rewrite Hv1. split; [apply lookup_insert_eq|done].
    + intros k Hk. rewrite Hv1. by rewrite lookup_insert_ne.
  - rewrite El. cbn [mbind option_bind]. destruct (list_find _ l) as [[i n]|] eqn:Ef.
    + apply list_find_Some in Ef as (Hi & Ha & _). apply list_elem_of_lookup_2 in Hi.
      destruct (membership_Remove_ok sum64 SortFunc enum Henum (ID n) m Hw) as (m2 & -> & Hw2 & Hv2 & _). cbn.
      exists m2. split_and!; try done. right. exists n. split_and!; try done.
      by apply (membership_snapshot_ok enum Henum m l Hw El).
    + exists m. cbn. rewrite Hm. split_and!; try done. left. split; [|done]. intros (n & Hn & Ha)%Hl.
      apply list_find_None in Ef. rewrite Forall_forall in Ef. by apply (Ef n).
Qed.

End Peers.

(** ** Witnesses *)

Lemma dist_stops_witness :
  ∃ dm dm', NewDistMemory sample_sum64 sample_sort map_to_list (λ a, a) 0 true 1
      [WithDistNode "a" "a:1"; WithDistSeeds ["b@b:1"]; WithDistHeartbeat 5 10 20; WithDistGossipInterval 1] = Some (Ok dm) ∧
    Stop dm = Some dm' ∧ Forall (λ r, ended r dm' = true) (running dm').
Proof.
  destruct (dist_stops sample_sum64 sample_sort map_to_list (λ a, a) (λ _, reflexivity _)
    [WithDistNode "a" "a:1"; WithDistSeeds ["b@b:1"]; WithDistHeartbeat 5 10 20; WithDistGossipInterval 1] 0 true 1)
    as [[E _]|(dm & dm' & E & Es & _ & He & _)].
  - repeat constructor.
  - vm_compute in E. discriminate.
  - exists dm, dm'. exact (conj E (conj Es He)).
Defined.
