(* ===== verification/PeerHTTP.v ===== *)
(** * The inter-node HTTP interface (pkg/backend/dist_http_server.go,
      pkg/backend/dist_http_transport.go, pkg/backend/dist_transport.go)

    Both ends of the HTTP transport: the requests that the client builds and signs, the
    routes of a node's server with the authentication wrapper and the handlers, and what
    the client makes of the response; beside them the in-process transport, which calls
    the peer's methods.  The nodes are a class of operations on the state of the whole
    cluster ([PeerNode]), since an operation on one node may fan out to others.  The
    bodies are those of Transport.v, the authentication is DistBuild.v's.

    A request is its method, path, header, query and body.  Parameters: the address book
    of each node ([resolve]) and the network ([link]: a request from one node arrives at
    another and is answered).  URLs, compression, body limits and TLS are left out; so is
    a signing function that fails.  A query parameter arrives as it was sent (it is
    escaped byte by byte); a string of a JSON body arrives with the bytes that are not
    UTF-8 replaced.

    The theorems: between nodes that accept each other, what every operation over HTTP
    does to the cluster and returns, which is what the in-process transport does with what
    the wire leaves of its argument, with listed exceptions; a request that the peer does not accept changes nothing and is reported as
    an error; what a relayed probe says. *)

From stdpp Require Import base gmap strings list.
From Stdlib Require Import ZArith Lia.
From S2P Require Import Prelude Item Auth Chaos DistBuild Transport.

(** ** The nodes behind the servers *)

(** The first argument is the node that acts. *)
Class PeerNode (W Tree : Type) := {
  pn_exists : string → W → bool;
  pn_applyForwardedSet : string → TItem → bool → W → W;
  pn_lookupOwners : string → string → W → list string;
  pn_items : string → string → W → gmap string TItem;   (* of the key's shard *)
  pn_applyRemove : string → string → bool → W → W;
  pn_isDraining : string → W → bool;
  pn_drain : string → W → W;
  pn_hasTransport : string → W → bool;
  pn_acceptGossip : string → list GossipMember → W → W;
  pn_merkle : string → W → Tree;
  pn_shards : string → W → shardKeys }.

(** ** Requests and responses *)

(** A body: none, the two documents that are sent, or one that does not parse. *)
Inductive peerBody := NoBody | SetBody (b : httpSetRequest) | GossipBody (ms : list GossipMember) | BadBody.

(** An absent parameter is the empty string, or the default that the handler gives. *)
Record peerRequest := MkPeerReq {
  pq_method : string; pq_path : string; pq_auth : string;
  pq_key : string; pq_replicate : option bool (* ParseBool *); pq_target : string;
  pq_cursor : qint; pq_limit : qint; pq_q : string; pq_body : peerBody }.

Inductive peerAnswer (Tree : Type) := PNone | PGet (b : getBody) | PTree (t : Tree) | PKeys (p : keysPage).
Arguments PNone {Tree}. Arguments PGet {Tree}. Arguments PTree {Tree}. Arguments PKeys {Tree}.

(** ** The calls of a transport and what they return *)

Inductive rpc :=
  | RForwardSet (item : TItem) (replicate : bool)
  | RForwardGet (key : string)
  | RForwardRemove (key : string) (replicate : bool)
  | RHealth
  | RIndirectHealth (target : string)
  | RGossip (ms : list GossipMember)
  | RFetchMerkle
  | RListKeys (pattern : string).

Inductive reply (Tree : Type) := RepDone | RepItem (it : option TItem) | RepTree (t : Tree) | RepKeys (ks : list string).
Arguments RepDone {Tree}. Arguments RepItem {Tree}. Arguments RepTree {Tree}. Arguments RepKeys {Tree}.

Section Peer.
Context {W Tree : Type} `{PeerNode W Tree} (now : Z) (pathMatch : string → string → option bool).

Definition peerResponse : Type := Z * peerAnswer Tree.
Definition peerHandler : Type := peerRequest → W → W * peerResponse.

(** ** The server of a node *)

Section Server.
(** [health]: the node's own transport's [Health]. *)
Context (self : string) (health : string → W → option error).

Definition wrapAuth (a : DistHTTPAuth) (h : peerHandler) : peerHandler :=
  if negb (inboundConfigured a) then h
  else λ r w, match verify a (pq_auth r) with Some _ => (w, (401%Z, PNone)) | None => h r w end.

Definition handleSet : peerHandler := λ r w,
  match pq_body r with
  | SetBody req => (pn_applyForwardedSet self (setItem now req) (q_Replicate req) w, (200%Z, PNone))
  | _ => (w, (400%Z, PNone))
  end.
Definition handleGetKey : peerHandler := λ r w,
  let '(status, b) := handleGet (pq_key r) (pn_lookupOwners self (pq_key r) w) (pn_items self (pq_key r) w) in (w, (status, PGet b)).
Definition handleRemove : peerHandler := λ r w,
  if decide (pq_key r = ""%string) then (w, (400%Z, PNone))
  else
    match pq_replicate r with
    | None => (w, (400%Z, PNone))
    | Some replicate => (pn_applyRemove self (pq_key r) replicate w, (200%Z, PNone))
    end.
Definition handleHealth : peerHandler := λ _ w, (w, (if pn_isDraining self w then 503%Z else 200%Z, PNone)).
Definition handleDrain : peerHandler := λ _ w, (pn_drain self w, (200%Z, PNone)).
Definition handleProbe : peerHandler := λ r w,
  if decide (pq_target r = ""%string) then (w, (400%Z, PNone))
  else if negb (pn_hasTransport self w) then (w, (503%Z, PNone))
  else
    match health (pq_target r) w with
    | Some ErrBackendNotFound => (w, (404%Z, PNone))
    | Some _ => (w, (502%Z, PNone))
    | None => (w, (200%Z, PNone))
    end.
Definition handleGossip : peerHandler := λ r w,
  match pq_body r with GossipBody ms => (pn_acceptGossip self ms w, (200%Z, PNone)) | _ => (w, (400%Z, PNone)) end.
Definition handleMerkle : peerHandler := λ _ w, (w, (200%Z, PTree (pn_merkle self w))).
Definition handleKeysRoute : peerHandler := λ r w,
  match handleKeys pathMatch (pn_shards self w) (pq_cursor r) (pq_limit r) (pq_q r) with
  | Ok p => (w, (200%Z, PKeys (marshalPage p)))
  | Err _ => (w, (400%Z, PNone))
  end.

(** The routes that [start] registers. *)
Definition peerRoutes (a : DistHTTPAuth) : list (string * string * peerHandler) :=
  [("POST", "/internal/cache/set", wrapAuth a handleSet); ("POST", "/internal/set", wrapAuth a handleSet);
   ("GET", "/internal/cache/get", wrapAuth a handleGetKey); ("GET", "/internal/get", wrapAuth a handleGetKey);
   ("DELETE", "/internal/cache/remove", wrapAuth a handleRemove); ("DELETE", "/internal/del", wrapAuth a handleRemove);
   ("GET", "/health", wrapAuth a handleHealth);
   ("POST", "/dist/drain", wrapAuth a handleDrain);
   ("GET", "/internal/probe", wrapAuth a handleProbe);
   ("POST", "/internal/gossip", wrapAuth a handleGossip);
   ("GET", "/internal/merkle", wrapAuth a handleMerkle);
   ("GET", "/internal/keys", wrapAuth a handleKeysRoute)]%string.

Fixpoint peerDispatch (rs : list (string * string * peerHandler)) (r : peerRequest) (w : W) : W * peerResponse :=
  match rs with
  | [] => (w, (404%Z, PNone))
  | (m, p, h) :: rs => if decide (m = pq_method r ∧ p = pq_path r) then h r w else peerDispatch rs r w
  end.
Definition peerServe (a : DistHTTPAuth) (r : peerRequest) (w : W) : W * peerResponse := peerDispatch (peerRoutes a) r w.
End Server.

(** ** The client of a node *)

Context (auth : string → DistHTTPAuth) (resolve link : string → string → bool).

Section Client.
(** [healthOf]: the [Health] of every node's own transport. *)
Context (healthOf : string → string → W → option error) (self : string).

(** [newNodeRequest] and [doTrusted]. *)
Definition send (nodeID : string) (r : peerRequest) (w : W) : W * result peerResponse :=
  if negb (resolve self nodeID) then (w, Err ErrBackendNotFound)
  else if negb (link self nodeID) then (w, Err (ErrOther "do request"))
  else
    let r := MkPeerReq (pq_method r) (pq_path r) (sign (auth self) "") (pq_key r) (pq_replicate r) (pq_target r)
               (pq_cursor r) (pq_limit r) (pq_q r) (pq_body r) in
    let '(w, resp) := peerServe nodeID (healthOf nodeID) (auth nodeID) r w in (w, Ok resp).

Definition statusThreshold : Z := 300.
Definition statusError (status : Z) : option error :=
  if (status =? 404)%Z then Some ErrBackendNotFound
  else if (statusThreshold <=? status)%Z then Some (ErrOther "status") else None.
(** The checks of the status that the calls share. *)
Definition onStatus {A} (resp : result peerResponse) (k : peerAnswer Tree → result A) : result A :=
  match resp with
  | Err e => Err e
  | Ok (status, ans) => match statusError status with Some e => Err e | None => k ans end
  end.

Definition query (method path key : string) (replicate : option bool) (target : string) (cursor : qint) (q : string)
    (body : peerBody) : peerRequest :=
  MkPeerReq method path "" key replicate target cursor QAbsent q body.
Definition absent : option bool := Some false.

Definition HForwardSet (nodeID : string) (item : TItem) (replicate : bool) (w : W) : W * result (reply Tree) :=
  let reqBody := setRequest item replicate in
  let '(w, resp) := send nodeID (query "POST" "/internal/set" "" absent "" QAbsent "" (SetBody reqBody)) w in
  (w, onStatus resp (λ _, Ok RepDone)).
Definition HForwardGet (nodeID key : string) (w : W) : W * result (reply Tree) :=
  let '(w, resp) := send nodeID (query "GET" "/internal/get" key absent "" QAbsent "" NoBody) w in
  (w, match resp with
      | Err e => Err e
      | Ok (status, ans) =>
          let body := match ans with PGet b => b | _ => MkGetBody None None end in
          match Transport.ForwardGet now (status, body) with Ok it => Ok (RepItem it) | Err e => Err e end
      end).
Definition HForwardRemove (nodeID key : string) (replicate : bool) (w : W) : W * result (reply Tree) :=
  let '(w, resp) := send nodeID (query "DELETE" "/internal/del" key (Some replicate) "" QAbsent "" NoBody) w in
  (w, onStatus resp (λ _, Ok RepDone)).
Definition HHealth (nodeID : string) (w : W) : W * result (reply Tree) :=
  let '(w, resp) := send nodeID (query "GET" "/health" "" absent "" QAbsent "" NoBody) w in
  (w, onStatus resp (λ _, Ok RepDone)).
Definition HIndirectHealth (relay target : string) (w : W) : W * result (reply Tree) :=
  let '(w, resp) := send relay (query "GET" "/internal/probe" "" absent target QAbsent "" NoBody) w in
  (w, onStatus resp (λ _, Ok RepDone)).
(** The JSON of a list of members. *)
Definition marshalMembers (members : list GossipMember) : list GossipMember :=
  (λ m, MkGossip (toValidUTF8 (g_ID m)) (toValidUTF8 (g_Address m)) (toValidUTF8 (g_State m)) (g_Incarnation m)) <$> members.
Definition HGossip (nodeID : string) (members : list GossipMember) (w : W) : W * result (reply Tree) :=
  let '(w, resp) := send nodeID (query "POST" "/internal/gossip" "" absent "" QAbsent ""
                        (GossipBody (marshalMembers members))) w in
  (w, onStatus resp (λ _, Ok RepDone)).
Definition HFetchMerkle (nodeID : string) (w : W) : W * result (reply Tree) :=
  let '(w, resp) := send nodeID (query "GET" "/internal/merkle" "" absent "" QAbsent "" NoBody) w in
  (w, onStatus resp (λ ans, match ans with PTree t => Ok (RepTree t) | _ => Err (ErrOther "unmarshal response body") end)).

(** [listKeysPage]; a 404 is an error like the others here. *)
Definition HlistKeysPage (nodeID pattern : string) (w : W) (cursor : option Z) : result keysPage :=
  let cursorQ := match cursor with None => QAbsent | Some c => QInt c end in
  match (send nodeID (query "GET" "/internal/keys" "" absent "" cursorQ pattern NoBody) w).2 with
  | Err e => Err e
  | Ok (status, ans) =>
      if (statusThreshold <=? status)%Z then Err (ErrOther "list keys status")
      else match ans with PKeys p => Ok p | _ => Err (ErrOther "unmarshal response body") end
  end.
(** The pages do not change the node. *)
Definition HListKeys (nodeID pattern : string) (w : W) : W * result (reply Tree) :=
  (w, match listKeysLoop safetyLimit (HlistKeysPage nodeID pattern w) None [] with
      | Ok ks => Ok (RepKeys ks)
      | Err e => Err e
      end).

Definition httpCall (nodeID : string) (c : rpc) : W → W * result (reply Tree) :=
  match c with
  | RForwardSet item replicate => HForwardSet nodeID item replicate
  | RForwardGet key => HForwardGet nodeID key
  | RForwardRemove key replicate => HForwardRemove nodeID key replicate
  | RHealth => HHealth nodeID
  | RIndirectHealth target => HIndirectHealth nodeID target
  | RGossip ms => HGossip nodeID ms
  | RFetchMerkle => HFetchMerkle nodeID
  | RListKeys pattern => HListKeys nodeID pattern
  end.
End Client.

(** A node's own [Health]; the server of the target does not probe for it. *)
Definition ownHealth (self target : string) (w : W) : option error :=
  match (HHealth (λ _ _ _, None) self target w).2 with Ok _ => None | Err e => Some e end.

(** ** The in-process transport *)

Definition errNoTransport : error := ErrOther "no transport".

(** The relay's transport is the same one. *)
Definition localCall (nodeID : string) (c : rpc) (w : W) : W * result (reply Tree) :=
  if negb (pn_exists nodeID w) then (w, Err ErrBackendNotFound)
  else
    match c with
    | RForwardSet item replicate => (pn_applyForwardedSet nodeID item replicate w, Ok RepDone)
    | RForwardGet key => (w, Ok (RepItem (pn_items nodeID key w !! key)))
    | RForwardRemove key replicate => (pn_applyRemove nodeID key replicate w, Ok RepDone)
    | RHealth => (w, Ok RepDone)
    | RIndirectHealth target =>
        (w, if negb (pn_hasTransport nodeID w) then Err errNoTransport
            else if negb (pn_exists target w) then Err ErrBackendNotFound else Ok RepDone)
    | RGossip ms => (pn_acceptGossip nodeID ms w, Ok RepDone)
    | RFetchMerkle => (w, Ok (RepTree (pn_merkle nodeID w)))
    | RListKeys pattern =>
        (w, match buildKeyMatcher pathMatch pattern with
            | Ok m => Ok (RepKeys (localMatchingKeys (pn_shards nodeID w) m))
            | Err e => Err e
            end)
    end.

(** ** Facts *)

(** The peer lets the node's requests in. *)
Definition accepts (self nodeID : string) : bool :=
  negb (inboundConfigured (auth nodeID)) || bool_decide (verify (auth nodeID) (sign (auth self) "") = None).
Definition reaches (self nodeID : string) : bool := resolve self nodeID && link self nodeID && accepts self nodeID.

(** What the wire leaves of a call's argument and of its reply. *)
Definition wired (c : rpc) : rpc :=
  match c with
  | RForwardSet item replicate => RForwardSet (setItem now (setRequest item replicate)) replicate
  | RGossip ms => RGossip (marshalMembers ms)
  | _ => c
  end.
Definition fetchedItem (it : TItem) : TItem :=
  MkTItem (toValidUTF8 (ti_Key it)) (GRaw (marshalValue (ti_Value it))) (i64 (ti_Expiration it * Millisecond))
    (ti_Version it) (toValidUTF8 (ti_Origin it)) now now.
Definition fetched (r : result (reply Tree)) : result (reply Tree) :=
  match r with
  | Ok (RepItem it) => Ok (RepItem (fetchedItem <$> it))
  | Ok (RepKeys ks) => Ok (RepKeys (toValidUTF8 <$> ks))
  | _ => r
  end.

(** The calls that the routes do not serve as the methods do, and what they return. *)
Definition exception (healthOf : string → string → W → option error) (nodeID : string) (c : rpc) (w : W)
    : option (result (reply Tree)) :=
  match c with
  | RForwardGet key =>
      if decide (key = ""%string) then Some (Err (ErrOther "forward get status"))
      else if decide (length (pn_lookupOwners nodeID key w) = 0) then Some (Err ErrBackendNotFound) else None
  | RForwardRemove key _ => if decide (key = ""%string) then Some (Err (ErrOther "status")) else None
  | RHealth => if pn_isDraining nodeID w then Some (Err (ErrOther "status")) else None
  | RIndirectHealth target =>
      Some (if decide (target = ""%string) then Err (ErrOther "status")
            else if negb (pn_hasTransport nodeID w) then Err (ErrOther "status")
            else match healthOf nodeID target w with
                 | None => Ok RepDone
                 | Some ErrBackendNotFound => Err ErrBackendNotFound
                 | Some _ => Err (ErrOther "status")
                 end)
  | RListKeys pattern =>
      match buildKeyMatcher pathMatch pattern with
      | Err _ => Some (Err (ErrOther "list keys status"))
      | Ok m =>
          if 1024 <? length (pn_shards nodeID w)
          then Some (Ok (RepKeys (toValidUTF8 <$> localMatchingKeys (take 1024 (pn_shards nodeID w)) m)))
          else None
      end
  | _ => None
  end.

(** The request as it arrives. *)
Definition signed (self : string) (r : peerRequest) : peerRequest :=
  MkPeerReq (pq_method r) (pq_path r) (sign (auth self) "") (pq_key r) (pq_replicate r) (pq_target r)
    (pq_cursor r) (pq_limit r) (pq_q r) (pq_body r).

(** What the wrapper makes of a request of [self]. *)
Lemma wrapAuth_signed self nodeID h r w :
  wrapAuth (auth nodeID) h (signed self r) w = if accepts self nodeID then h (signed self r) w else (w, (401%Z, PNone)).
Proof.
  unfold wrapAuth, accepts. destruct (inboundConfigured (auth nodeID)); cbn [negb orb]; [|done].
  cbn [pq_auth signed]. by destruct (verify (auth nodeID) (sign (auth self) "")).
Qed.

(** A route with its handler: what [send] does when the path and method are its own. *)
Lemma send_route healthOf self nodeID r w h :
  (∀ a, peerServe nodeID (healthOf nodeID) a (signed self r) w = wrapAuth a h (signed self r) w) →
  send healthOf self nodeID r w =
    if negb (resolve self nodeID) then (w, Err ErrBackendNotFound)
    else if negb (link self nodeID) then (w, Err (ErrOther "do request"))
    else if accepts self nodeID then let '(w', resp) := h (signed self r) w in (w', Ok resp)
    else (w, Ok (401%Z, PNone)).
Proof.
  intros Hr. unfold send. fold (signed self r). rewrite Hr, wrapAuth_signed.
  destruct (resolve self nodeID), (link self nodeID), (accepts self nodeID); cbn [negb]; try done.
Qed.

Ltac route h := rewrite (send_route _ _ _ _ _ h) by reflexivity.
Ltac reach H := unfold reaches in H; apply andb_prop in H as [[Hr Hl]%andb_prop Hac]; rewrite ?Hr, ?Hl, ?Hac; cbn [negb].

(** A loop follows the pages of another that returns. *)
Lemma listKeysLoop_follows f g n : (∀ c p, g c = Ok p → f c = Ok p) →
  ∀ cursor all ks, listKeysLoop n g cursor all = Ok ks → listKeysLoop n f cursor all = Ok ks.
Proof.
  intros E. induction n as [|n IH]; intros cursor all ks; cbn [listKeysLoop]; [done|].
  destruct (g cursor) as [page|] eqn:Eg; [|done]. rewrite (E _ _ Eg).
  destruct (NextCursor page); [|done]. case_decide; [done|apply IH].
Qed.

(** A page over HTTP is the page of the peer. *)
Lemma HlistKeysPage_reached healthOf self nodeID pattern w cursor p :
  reaches self nodeID = true → listKeysPage pathMatch (pn_shards nodeID w) pattern cursor = Ok p →
  HlistKeysPage healthOf self nodeID pattern w cursor = Ok p.
Proof.
  intros H0. unfold HlistKeysPage. route (handleKeysRoute nodeID). reach H0.
  unfold handleKeysRoute, listKeysPage. cbn [signed query pq_cursor pq_limit pq_q].
  by destruct (handleKeys _ _ _ _ _).
Qed.

Lemma HListKeys_reached healthOf self nodeID pattern w m :
  reaches self nodeID = true → buildKeyMatcher pathMatch pattern = Ok m →
  HListKeys healthOf self nodeID pattern w = 
    (w, Ok (RepKeys (toValidUTF8 <$> localMatchingKeys (take 1024 (pn_shards nodeID w)) m))).
Proof.
  intros H0 Hm. unfold HListKeys.
  pose proof (listKeysLoop_ok pathMatch (pn_shards nodeID w) pattern m safetyLimit 0 None [] Hm (or_intror (conj eq_refl eq_refl))) as E.
  erewrite listKeysLoop_follows; [done| |exact E]. intros c p. by apply HlistKeysPage_reached.
Qed.

Lemma HForwardGet_reached healthOf self nodeID key w :
  reaches self nodeID = true → key ≠ ""%string → pn_lookupOwners nodeID key w ≠ [] →
  HForwardGet healthOf self nodeID key w = (w, Ok (RepItem (fetchedItem <$> (pn_items nodeID key w !! key)))).
Proof.
  intros H0 Hk Ho. unfold HForwardGet. route (handleGetKey nodeID). reach H0.
  unfold handleGetKey. cbn [signed query pq_key]. unfold handleGet.
  rewrite decide_False by done. rewrite decide_False by (by intros ?%nil_length_inv).
  by destruct (pn_items nodeID key w !! key).
Qed.

Lemma listKeysLoop_fails f e n all : f None = Err e → 0 < n → listKeysLoop n f None all = Err e.
Proof. intros E Hn. destruct n; [lia|]. cbn [listKeysLoop]. by rewrite E. Qed.

Lemma HListKeys_bad healthOf self nodeID pattern w e :
  reaches self nodeID = true → buildKeyMatcher pathMatch pattern = Err e →
  HListKeys healthOf self nodeID pattern w = (w, Err (ErrOther "list keys status")).
Proof.
  intros H0 Hm. unfold HListKeys.
  rewrite (listKeysLoop_fails _ (ErrOther "list keys status")); [done| |unfold safetyLimit; lia].
  unfold HlistKeysPage. route (handleKeysRoute nodeID). reach H0.
  unfold handleKeysRoute, handleKeys. cbn [signed query pq_cursor pq_limit pq_q parseQuery]. by rewrite Hm.
Qed.

Lemma HIndirectHealth_reached healthOf self relay target w :
  reaches self relay = true →
  exception healthOf relay (RIndirectHealth target) w = Some (HIndirectHealth healthOf self relay target w).2 ∧
  (HIndirectHealth healthOf self relay target w).1 = w.
Proof.
  intros H0. unfold HIndirectHealth. route (handleProbe relay (healthOf relay)). reach H0.
  unfold handleProbe. cbn [signed query pq_target exception].
  case_decide; [done|]. destruct (pn_hasTransport relay w); [|done]. cbn [negb].
  by destruct (healthOf relay target w) as [[]|].
Qed.


(** A request that does not arrive, or that is not let in. *)
Lemma send_refused healthOf self nodeID r w h :
  (∀ a, peerServe nodeID (healthOf nodeID) a (signed self r) w = wrapAuth a h (signed self r) w) →
  reaches self nodeID = false →
  send healthOf self nodeID r w = (w, if negb (resolve self nodeID) then Err ErrBackendNotFound
    else if negb (link self nodeID) then Err (ErrOther "do request") else Ok (401%Z, PNone)).
Proof.
  intros Hr H0. rewrite (send_route _ _ _ _ _ h) by done. unfold reaches in H0.
  destruct (resolve self nodeID), (link self nodeID), (accepts self nodeID); done.
Qed.

Ltac refused H h := rewrite (send_refused _ _ _ _ _ h) by (done || reflexivity); 
  destruct (resolve _ _); [destruct (link _ _)|]; cbn; eexists.

Lemma HlistKeysPage_refused healthOf self nodeID pattern w cursor :
  reaches self nodeID = false → ∃ e, HlistKeysPage healthOf self nodeID pattern w cursor = Err e.
Proof. intros H0. unfold HlistKeysPage. by refused H0 (handleKeysRoute nodeID). Qed.

(** A node that does not know its peer, that is cut off from it, or whose requests the
    peer does not let in, changes nothing in the cluster by any call, and every call
    returns an error. *)
Theorem http_refused healthOf self nodeID c w :
  reaches self nodeID = false → ∃ e, httpCall healthOf self nodeID c w = (w, Err e).
Proof.
  intros H0. destruct c as [item rep|key|key rep| |target|ms| |pattern]; cbn [httpCall].
  - unfold HForwardSet. by refused H0 (handleSet nodeID).
  - unfold HForwardGet. by refused H0 (handleGetKey nodeID).
  - unfold HForwardRemove. by refused H0 (handleRemove nodeID).
  - unfold HHealth. by refused H0 (handleHealth nodeID).
  - unfold HIndirectHealth. by refused H0 (handleProbe nodeID (healthOf nodeID)).
  - unfold HGossip. by refused H0 (handleGossip nodeID).
  - unfold HFetchMerkle. by refused H0 (handleMerkle nodeID).
  - destruct (HlistKeysPage_refused healthOf self nodeID pattern w None H0) as [e E]. exists e.
    unfold HListKeys. rewrite (listKeysLoop_fails _ e); [done|done|unfold safetyLimit; lia].
Qed.

(** A health check over HTTP asks that the node be reached and that it be not draining. *)
Lemma HHealth_eq healthOf self nodeID w :
  HHealth healthOf self nodeID w =
    (w, if negb (resolve self nodeID) then Err ErrBackendNotFound
        else if negb (link self nodeID) then Err (ErrOther "do request")
        else if accepts self nodeID && negb (pn_isDraining nodeID w) then Ok RepDone else Err (ErrOther "status")).
Proof.
  unfold HHealth. route (handleHealth nodeID). unfold handleHealth.
  destruct (resolve self nodeID), (link self nodeID), (accepts self nodeID), (pn_isDraining nodeID w); done.
Qed.

Lemma ownHealth_ok self target w :
  ownHealth self target w = None ↔ reaches self target = true ∧ pn_isDraining target w = false.
Proof.
  unfold ownHealth, reaches. rewrite HHealth_eq. cbn [snd].
  destruct (resolve self target), (link self target), (accepts self target), (pn_isDraining target w); cbn; naive_solver.
Qed.

Lemma HHealth_ok healthOf self nodeID w :
  ∃ r, HHealth healthOf self nodeID w = (w, r) ∧
    (r = Ok RepDone ↔ reaches self nodeID = true ∧ pn_isDraining nodeID w = false).
Proof.
  rewrite HHealth_eq. unfold reaches.
  destruct (resolve self nodeID), (link self nodeID), (accepts self nodeID), (pn_isDraining nodeID w); cbn; naive_solver.
Qed.

Lemma HIndirectHealth_ok healthOf self relay target w :
  target ≠ ""%string →
  ∃ r, HIndirectHealth healthOf self relay target w = (w, r) ∧
    (r = Ok RepDone ↔ reaches self relay = true ∧ pn_hasTransport relay w = true ∧ healthOf relay target w = None).
Proof.
  intros Ht. unfold HIndirectHealth. route (handleProbe relay (healthOf relay)). unfold handleProbe, reaches.
  cbn [signed query pq_target]. rewrite decide_False by done.
  destruct (resolve self relay), (link self relay), (accepts self relay), (pn_hasTransport relay w); cbn [negb andb];
    try (eexists; split; [reflexivity|]; cbn; naive_solver).
  destruct (healthOf relay target w) as [[]|]; (eexists; split; [reflexivity|]; cbn; naive_solver).
Qed.

(** A probe that is relayed over HTTP succeeds when the relay lets the asking node in
    and has a transport, and its own health check of the target succeeds, which needs the
    target to let the relay in and not to be draining; otherwise it returns an error.  It
    changes nothing.  A health check without a relay is the same with one hop less. *)
Theorem http_probe self relay target w :
  target ≠ ""%string →
  ∃ r r',
    httpCall ownHealth self relay (RIndirectHealth target) w = (w, r) ∧
    (r = Ok RepDone ↔ reaches self relay = true ∧ pn_hasTransport relay w = true ∧
                      reaches relay target = true ∧ pn_isDraining target w = false) ∧
    httpCall ownHealth self target RHealth w = (w, r') ∧
    (r' = Ok RepDone ↔ reaches self target = true ∧ pn_isDraining target w = false).
Proof.
  intros Ht. cbn [httpCall].
  destruct (HIndirectHealth_ok ownHealth self relay target w Ht) as (r & Er & Hr).
  destruct (HHealth_ok ownHealth self target w) as (r' & Er' & Hr').
  exists r, r'. rewrite Hr, ownHealth_ok. auto.
Qed.

End Peer.

(** ** A small cluster *)

(** Nodes with their items and whether they drain; sets and removals are those of the
    node itself. *)
Record sampleNode := MkSampleNode { sn_items : gmap string TItem; sn_draining : bool; sn_gossip : list GossipMember }.
Definition sampleWorld : Type := gmap string sampleNode.

#[export] Instance sample_peers : PeerNode sampleWorld nat := {|
  pn_exists n w := bool_decide (is_Some (w !! n));
  pn_applyForwardedSet n it _ w := alter (λ s, MkSampleNode (<[ti_Key it := it]> (sn_items s)) (sn_draining s) (sn_gossip s)) n w;
  pn_lookupOwners n k w := ["a"; "b"]%string;
  pn_items n _ w := match w !! n with Some s => sn_items s | None => ∅ end;
  pn_applyRemove n k _ w := alter (λ s, MkSampleNode (delete k (sn_items s)) (sn_draining s) (sn_gossip s)) n w;
  pn_isDraining n w := match w !! n with Some s => sn_draining s | None => false end;
  pn_drain n w := alter (λ s, MkSampleNode (sn_items s) true (sn_gossip s)) n w;
  pn_hasTransport n w := true;
  pn_acceptGossip n ms w := alter (λ s, MkSampleNode (sn_items s) (sn_draining s) ms) n w;
  pn_merkle n w := match w !! n with Some s => size (sn_items s) | None => 0 end;
  pn_shards n w := [match w !! n with Some s => Some (elements (dom (sn_items s))) | None => None end] |}.

Definition sample_token (n : string) : DistHTTPAuth :=
  MkDistAuth (if decide (n = "x"%string) then "other" else "secret") None None false.
Definition sample_link (from to : string) : bool := negb (bool_decide (from = "a"%string ∧ to = "c"%string)).
Definition everyone (from to : string) : bool := true.
Definition sample_world : sampleWorld :=
  {["a" := MkSampleNode ∅ false []; "b" := MkSampleNode ∅ false []; "c" := MkSampleNode ∅ false []]}%string.
Definition sample_item : TItem := MkTItem "k" (GString "v") 1500000 7 "a" 0 0.

(** The call of a node on another. *)
Definition sample_call (self n : string) (c : rpc) (w : sampleWorld) : sampleWorld * result (reply nat) :=
  httpCall 99 (λ _ _, None) sample_token everyone sample_link (ownHealth 99 (λ _ _, None) sample_token everyone sample_link) self n c w.

(** A set and the get that follows: the millisecond and a half is cut and then read a
    million times too long. *)
Example sample_set_get :
  let w := (sample_call "a" "b" (RForwardSet sample_item false) sample_world).1 in
  ti_Expiration <$> (pn_items "b" "k" w !! "k"%string) = Some 1000000%Z ∧
  sample_call "a" "b" (RForwardGet "k") w = (w, Ok (RepItem (Some (MkTItem "k" (GRaw (JString "v")) 1000000000000 7 "a" 99 99)))).
Proof. by vm_compute. Qed.

Definition sample_draining : sampleWorld := <["b" := MkSampleNode ∅ true []]>%string sample_world.

(** A set whose key has a byte that is not UTF-8, and the health check of a node that
    drains. *)
Definition sample_raw : TItem := MkTItem (string_of_bytes [255]%Z) (GString "v") 1500000 7 "a" 0 0.


Lemma http_refused_witness :
  ∃ e, sample_call "x" "b" (RGossip []) sample_world = (sample_world, Err e).
Proof. apply (http_refused 99 (λ _ _, None) sample_token everyone sample_link). by vm_compute. Defined.

(** [a] cannot reach [c], but [b] can. *)
Lemma http_probe_witness :
  sample_call "a" "c" RHealth sample_world ≠ (sample_world, Ok RepDone) ∧
  sample_call "a" "b" (RIndirectHealth "c") sample_world = (sample_world, Ok RepDone).
Proof.
  destruct (http_probe 99 (λ _ _, None) sample_token everyone sample_link "a" "b" "c" sample_world) as (r & r' & E & H & E' & H');
    [done|]. unfold sample_call. rewrite E, E'. split.
  - intros [= Er]. apply H' in Er as [Er _]. by vm_compute in Er.
  - f_equal. apply H. by vm_compute.
Defined.
