(* ===== verification/Redis.v ===== *)
(** * The Redis backends and the serializers (pkg/backend/redis.go, redis_cluster.go,
      redis_common.go, options.go, internal/libs/serializer)

    A Redis server is not part of the program: it is a class ([RedisServer]) with the
    documented effect of the commands that the backend sends as its laws ([RedisLaws]), on
    the view that the server has of its keys: a hash or a set each, with the time at which
    it expires.  A pipeline runs its commands in order and reports the first error; what
    the others did stays.  Parameters: [ttl], the time to live that EXPIRE is given for a
    duration (go-redis rounds it to seconds); [enum], the order of SMEMBERS; the JSON
    library behind the default serializer; [wrapNil], what ewrap.Wrap makes of a nil error.

    Both backends run the same code on different clients, which the class covers.  The
    options of the client, retries and contexts are left out.

    The theorems: on a database of its own the backend refines a table of serialized items
    with deadlines, for every sequence of calls; a new expiration of zero keeps the old
    deadline; with the default serializer nothing can be stored; an item with the name of
    the set of keys breaks the backend. *)

From stdpp Require Import base gmap strings list fin_maps sets.
From Stdlib Require Import ZArith Lia.
From S2P Require Import Prelude Item Backend.
Local Open Scope nat_scope.

(** ** Redis *)

Inductive rvalue := RHash (fields : gmap string string) | RSet (members : gset string).
(** The keys with their values and the time at which they expire. *)
Abbreviation rkeys := (gmap string (rvalue * option Z)).

Inductive rcmd :=
  | HSet (key : string) (fields : gmap string string)
  | SAdd (key member : string)
  | Expire (key : string) (d : Z)
  | SRem (key : string) (members : list string)
  | Del (keys : list string)
  | SIsMember (key member : string)
  | HGet (key field : string)
  | HGetAll (key : string)
  | SMembers (key : string)
  | DBSize
  | FlushDB.

Inductive rreply := RDone | RBool (b : bool) | RBulk (s : option string) | RFields (m : gmap string string)
  | RMembers (ks : list string) | RInt (z : Z).

Definition wrongType : error := ErrOther "WRONGTYPE".
Definition wrongArity : error := ErrOther "ERR wrong number of arguments".

Definition unexpired (now : Z) (e : rvalue * option Z) : bool := match e.2 with None => true | Some t => (now <? t)%Z end.
Definition alive (now : Z) (db : rkeys) : rkeys := filter (λ '(_, e), unexpired now e = true) db.

(** The documented effect of a command. *)
Definition perform (ttl : Z → Z) (enum : gset string → list string) (now : Z) (c : rcmd) (db : rkeys)
    : rkeys * result rreply :=
  match c with
  | HSet k fs =>
      match db !! k with
      | None => (<[k := (RHash fs, None)]> db, Ok RDone)
      | Some (RHash old, d) => (<[k := (RHash (fs ∪ old), d)]> db, Ok RDone)
      | Some (RSet _, _) => (db, Err wrongType)
      end
  | SAdd k x =>
      match db !! k with
      | None => (<[k := (RSet {[x]}, None)]> db, Ok RDone)
      | Some (RSet old, d) => (<[k := (RSet ({[x]} ∪ old), d)]> db, Ok RDone)
      | Some (RHash _, _) => (db, Err wrongType)
      end
  | Expire k d =>
      match db !! k with
      | None => (db, Ok (RBool false))
      | Some (v, _) =>
          if (ttl d <=? 0)%Z then (delete k db, Ok (RBool true))
          else (<[k := (v, Some (now + ttl d)%Z)]> db, Ok (RBool true))
      end
  | SRem k xs =>
      if decide (xs = []) then (db, Err wrongArity)
      else
        match db !! k with
        | None => (db, Ok RDone)
        | Some (RSet old, d) =>
            let rest := old ∖ list_to_set xs in
            (if decide (rest = ∅) then delete k db else <[k := (RSet rest, d)]> db, Ok RDone)
        | Some (RHash _, _) => (db, Err wrongType)
        end
  | Del ks => if decide (ks = []) then (db, Err wrongArity) else (delete_all ks db, Ok RDone)
  | SIsMember k x =>
      match db !! k with
      | None => (db, Ok (RBool false))
      | Some (RSet xs, _) => (db, Ok (RBool (bool_decide (x ∈ xs))))
      | Some (RHash _, _) => (db, Err wrongType)
      end
  | HGet k f =>
      match db !! k with
      | None => (db, Ok (RBulk None))
      | Some (RHash fs, _) => (db, Ok (RBulk (fs !! f)))
      | Some (RSet _, _) => (db, Err wrongType)
      end
  | HGetAll k =>
      match db !! k with
      | None => (db, Ok (RFields ∅))
      | Some (RHash fs, _) => (db, Ok (RFields fs))
      | Some (RSet _, _) => (db, Err wrongType)
      end
  | SMembers k =>
      match db !! k with
      | None => (db, Ok (RMembers []))
      | Some (RSet xs, _) => (db, Ok (RMembers (enum xs)))
      | Some (RHash _, _) => (db, Err wrongType)
      end
  | DBSize => (db, Ok (RInt (Z.of_nat (size db))))
  | FlushDB => (∅, Ok RDone)
  end.

Fixpoint performAll (ttl : Z → Z) (enum : gset string → list string) (now : Z) (cs : list rcmd) (db : rkeys)
    : rkeys * list (result rreply) :=
  match cs with
  | [] => (db, [])
  | c :: cs =>
      let '(db, a) := perform ttl enum now c db in
      let '(db, l) := performAll ttl enum now cs db in (db, a :: l)
  end.

Fixpoint firstError (l : list (result rreply)) : option error :=
  match l with [] => None | Err e :: _ => Some e | Ok _ :: l => firstError l end.

(** The client: a round trip with a list of commands, and time passing. *)
Class RedisServer (R : Type) := {
  rd_keys : R → rkeys;
  rd_now : R → Z;
  rd_up : R → bool;
  rd_exec : list rcmd → R → R * (list (result rreply) * option error);
  rd_wait : Z → R → R }.

Class RedisLaws (R : Type) `{RedisServer R} (ttl : Z → Z) (enum : gset string → list string) := {
  rd_ttl : ∀ d, (0 < d)%Z → (0 < ttl d)%Z;
  rd_enum : ∀ s, enum s ≡ₚ elements s;
  rd_exec_up : ∀ cs r, rd_up r = true →
    let '(r', (l, err)) := rd_exec cs r in
    (rd_keys r', l) = performAll ttl enum (rd_now r) cs (rd_keys r) ∧ err = firstError l ∧
    rd_now r' = rd_now r ∧ rd_up r' = true;
  rd_exec_down : ∀ cs r, rd_up r = false → ∃ e, rd_exec cs r = (r, ([], Some e));
  rd_wait_law : ∀ d r, rd_up r = true →
    rd_keys (rd_wait d r) = alive (rd_now r + d) (rd_keys r) ∧ rd_now (rd_wait d r) = (rd_now r + d)%Z ∧
    rd_up (rd_wait d r) = true }.

(** ** The serializers *)

(** [Unmarshal] decodes into an item that is zero: the pool zeroes what it is given. *)
Record ISerializer := MkSerializer { Marshal : Item → result string; Unmarshal : string → result Item }.

Section Serializers.
Context (jsonMarshal : Item → result string) (jsonUnmarshal : string → result Item).

Definition DefaultJSONSerializer : ISerializer := {|
  Marshal v := match jsonMarshal v with Err _ => Err (ErrOther "failed to marshal json") | Ok data => Ok data end;
  Unmarshal data := match jsonUnmarshal data with Err _ => Err (ErrOther "failed to unmarshal json") | Ok v => Ok v end |}.

Definition MsgpackSerializer : ISerializer := {|
  Marshal _ := Err (ErrOther "msgpack serialization is deprecated and has been disabled for security reasons");
  Unmarshal _ := Err (ErrOther "msgpack deserialization is deprecated and has been disabled for security reasons") |}.

(** A registry: the constructors take nothing, so they are their values. *)
Definition Registry : Type := gmap string ISerializer.

Definition getDefaultSerializers : list (string * ISerializer) :=
  [("default", DefaultJSONSerializer); ("msgpack", MsgpackSerializer)]%string.
Definition Register (serializerType : string) (createFunc : ISerializer) (r : Registry) : Registry :=
  <[serializerType := createFunc]> r.
Definition NewEmptySerializerRegistry : Registry := ∅.
Definition NewSerializerRegistry : Registry :=
  foldl (λ r '(name, createFunc), Register name createFunc r) ∅ getDefaultSerializers.
Definition Registry_New (serializerType : string) (r : Registry) : result ISerializer :=
  if decide (serializerType = ""%string) then Err ErrParamCannotBeEmpty
  else match r !! serializerType with None => Err ErrSerializerNotFound | Some s => Ok s end.
Definition New (serializerType : string) : result ISerializer := Registry_New serializerType NewSerializerRegistry.

End Serializers.

(** ** The backends *)

Section Redis.
Context {R : Type} `{RedisServer R} (e : env).
Context (jsonMarshal : Item → result string) (jsonUnmarshal : string → result Item).
Context (durationString : Z → string) (wrapNil : option error).

Definition Wrap (err : option error) : option error := match err with None => wrapNil | Some e => Some e end.

(** *** Construction *)

Record redisConfig := MkRedisConfig {
  rc_client : option R; rc_capacity : Z; rc_keysSetName : string; rc_Serializer : option ISerializer }.
Definition Option_ : Type := redisConfig → redisConfig.

Definition WithCapacity (capacity : Z) : Option_ :=
  λ b, MkRedisConfig (rc_client b) capacity (rc_keysSetName b) (rc_Serializer b).
Definition WithRedisClient (client : option R) : Option_ :=
  λ b, MkRedisConfig client (rc_capacity b) (rc_keysSetName b) (rc_Serializer b).
Definition WithKeysSetName (name : string) : Option_ :=
  λ b, MkRedisConfig (rc_client b) (rc_capacity b) name (rc_Serializer b).
Definition WithSerializer (s : option ISerializer) : Option_ :=
  λ b, MkRedisConfig (rc_client b) (rc_capacity b) (rc_keysSetName b) s.
Definition ApplyOptions (options : list Option_) (b : redisConfig) : redisConfig := foldl (λ b o, o b) b options.

(** A backend that was built. *)
Record Redis := MkRedis { rdb : R; rcapacity : Z; keysSetName : string; Serializer : ISerializer }.
Definition with_rdb (r : R) (b : Redis) : Redis := MkRedis r (rcapacity b) (keysSetName b) (Serializer b).

Definition RedisBackend : string := "redis".

Definition NewRedis (redisOptions : list Option_) : result Redis :=
  let rb := ApplyOptions redisOptions (MkRedisConfig None 0 "" None) in
  match rc_client rb with
  | None => Err ErrNilClient
  | Some client =>
      if (rc_capacity rb <? 0)%Z then Err ErrInvalidCapacity
      else
        let name := if decide (rc_keysSetName rb = ""%string) then RedisBackend else rc_keysSetName rb in
        match rc_Serializer rb with
        | Some s => Ok (MkRedis client (rc_capacity rb) name s)
        | None =>
            match New jsonMarshal jsonUnmarshal "msgpack" with
            | Err er => Err er
            | Ok s => Ok (MkRedis client (rc_capacity rb) name s)
            end
        end
  end.

(** *** The operations *)

Definition SetCapacity (capacity : Z) (b : Redis) : Redis :=
  if (capacity <? 0)%Z then b else MkRedis (rdb b) capacity (keysSetName b) (Serializer b).

(** A single command. *)
Definition cmd (c : rcmd) (r : R) : R * result rreply :=
  let '(r, (l, err)) := rd_exec [c] r in
  (r, match err with Some e => Err e | None => match l with [a] => a | _ => Err (ErrOther "reply") end end).

Definition Count (b : Redis) : Redis * Z :=
  let '(r, a) := cmd DBSize (rdb b) in
  (with_rdb r b, match a with Ok (RInt n) => n | _ => 0%Z end).

Definition Get (key : string) (b : Redis) : Redis * option Item :=
  let '(r, isMember) := cmd (SIsMember (keysSetName b) key) (rdb b) in
  match isMember with
  | Ok (RBool true) =>
      let '(r, data) := cmd (HGet key "data") r in
      (with_rdb r b,
       match data with
       | Ok (RBulk (Some data)) => match Unmarshal (Serializer b) data with Ok it => Some it | Err _ => None end
       | _ => None
       end)
  | _ => (with_rdb r b, None)
  end.

Definition redisSet (name : string) (item : Item) (ser : ISerializer) (r : R) : R * option error :=
  match Valid item with
  | (_, Some err) => (r, Some err)
  | (item, None) =>
      match Marshal ser item with
      | Err err => (r, Some err)
      | Ok data =>
          let fields := {["data" := data; "expiration" := durationString (Expiration item)]}%string in
          let pipe := [HSet (Key item) fields; SAdd name (Key item)]
                        ++ (if (0 <? Expiration item)%Z then [Expire (Key item) (Expiration item)] else []) in
          let '(r, (_, err)) := rd_exec pipe r in
          (r, err)
      end
  end.
Definition Set_ (item : Item) (b : Redis) : Redis * option error :=
  let '(r, err) := redisSet (keysSetName b) item (Serializer b) (rdb b) in (with_rdb r b, err).

(** The loop over the replies: an error of one ends it. *)
Fixpoint decodeAll (ser : ISerializer) (l : list (result rreply)) (items : list Item) : result (list Item) :=
  match l with
  | [] => Ok items
  | Err _ :: _ => Err (ErrOther "failed to get item data from redis")
  | Ok (RFields data) :: l =>
      match Unmarshal ser (default "" (data !! "data"))%string with
      | Ok it => decodeAll ser l (items ++ [it])
      | Err _ => decodeAll ser l items
      end
  | Ok _ :: l => decodeAll ser l items
  end.

(** Every filter replaces the items and the error. *)
Definition filterStep (acc : list Item * option error) (f : IFilter) : list Item * option error :=
  match ApplyFilter e f acc.1 with Ok items => (items, None) | Err er => ([], Some er) end.

Definition redisList (name : string) (ser : ISerializer) (filters : list IFilter) (r : R)
    : R * (list Item * option error) :=
  let '(r, keys) := cmd (SMembers name) r in
  match keys with
  | Err er => (r, ([], Some er))
  | Ok (RMembers keys) =>
      let '(r, (cmds, err)) := rd_exec (HGetAll <$> keys) r in
      match err with
      | Some er => (r, ([], Some er))
      | None =>
          match decodeAll ser cmds [] with
          | Err er => (r, ([], Some er))
          | Ok items => (r, foldl filterStep (items, None) filters)
          end
      end
  | Ok _ => (r, ([], Some (ErrOther "reply")))
  end.
Definition List_ (filters : list IFilter) (b : Redis) : Redis * (list Item * option error) :=
  let '(r, a) := redisList (keysSetName b) (Serializer b) filters (rdb b) in (with_rdb r b, a).

Definition redisRemove (name : string) (keys : list string) (r : R) : R * option error :=
  let '(r, (_, err)) := rd_exec [SRem name keys; Del keys] r in (r, Wrap err).
Definition Remove (keys : list string) (b : Redis) : Redis * option error :=
  let '(r, err) := redisRemove (keysSetName b) keys (rdb b) in (with_rdb r b, err).

Definition Clear (b : Redis) : Redis * option error :=
  let '(r, a) := cmd FlushDB (rdb b) in (with_rdb r b, Wrap (match a with Err er => Some er | Ok _ => None end)).

(** *** The cluster backend *)

(** The methods of [RedisCluster] are those of [Redis] on the other client; only [Get]
    joins two of its tests. *)
Definition NewRedisCluster : list Option_ → result Redis := NewRedis.
Definition Cluster_Get (key : string) (b : Redis) : Redis * option Item :=
  let '(r, isMember) := cmd (SIsMember (keysSetName b) key) (rdb b) in
  if match isMember with Ok (RBool true) => false | _ => true end then (with_rdb r b, None)
  else
    let '(r, data) := cmd (HGet key "data") r in
    (with_rdb r b,
     match data with
     | Ok (RBulk (Some data)) => match Unmarshal (Serializer b) data with Ok it => Some it | Err _ => None end
     | _ => None
     end).
Definition Cluster_Count : Redis → Redis * Z := Count.
Definition Cluster_Clear : Redis → Redis * option error := Clear.

Lemma cluster_get_same key b : Cluster_Get key b = Get key b.
Proof. unfold Cluster_Get, Get. destruct (cmd _ _) as [r [[|[]| | | |]|]]; done. Qed.

(** *** The abstract table *)

(** The serialized items with their deadlines, and the keys that the set holds: an item
    that expires stays in the set. *)
Record table := MkTable {
  t_now : Z; t_items : gmap string (string * string * option Z); t_known : gset string }.

Inductive op := OSet (item : Item) | OGet (key : string) | ORemove (keys : list string) | OClear | OCount
  | OList (filters : list IFilter) | OWait (d : Z).

Inductive out := OutErr (err : option error) | OutItem (it : option Item) | OutCount (z : Z)
  | OutList (items : list Item) (err : option error) | OutNone.

Definition step (o : op) (b : Redis) : Redis * out :=
  match o with
  | OSet item => let '(b, err) := Set_ item b in (b, OutErr err)
  | OGet key => let '(b, it) := Get key b in (b, OutItem it)
  | ORemove keys => let '(b, err) := Remove keys b in (b, OutErr err)
  | OClear => let '(b, err) := Clear b in (b, OutErr err)
  | OCount => let '(b, n) := Count b in (b, OutCount n)
  | OList fs => let '(b, (items, err)) := List_ fs b in (b, OutList items err)
  | OWait d => (with_rdb (rd_wait d (rdb b)) b, OutNone)
  end.
Fixpoint run (os : list op) (b : Redis) : Redis * list out :=
  match os with
  | [] => (b, [])
  | o :: os => let '(b, x) := step o b in let '(b, l) := run os b in (b, x :: l)
  end.

Section Table.
Context (ttl : Z → Z) (enum : gset string → list string) (ser : ISerializer).

Definition decodeItem (data : string) : option Item := match Unmarshal ser data with Ok it => Some it | Err _ => None end.

Definition tstep (o : op) (t : table) : table * out :=
  match o with
  | OSet item =>
      match Valid item with
      | (_, Some err) => (t, OutErr (Some err))
      | (item, None) =>
          match Marshal ser item with
          | Err err => (t, OutErr (Some err))
          | Ok data =>
              let kept := t_items t !! Key item ≫= snd in
              let deadline := if (0 <? Expiration item)%Z then Some (t_now t + ttl (Expiration item))%Z else kept in
              (MkTable (t_now t) (<[Key item := (data, durationString (Expiration item), deadline)]> (t_items t))
                 ({[Key item]} ∪ t_known t), OutErr None)
          end
      end
  | OGet key => (t, OutItem (t_items t !! key ≫= λ x, decodeItem x.1.1))
  | ORemove [] => (t, OutErr (Some wrongArity))
  | ORemove keys => (MkTable (t_now t) (delete_all keys (t_items t)) (t_known t ∖ list_to_set keys), OutErr None)
  | OClear => (MkTable (t_now t) ∅ ∅, OutErr None)
  | OCount => (t, OutCount (Z.of_nat (size (t_items t)) + (if decide (t_known t = ∅) then 0 else 1)))
  | OList fs =>
      let found := omap (λ k, decodeItem (default ""%string ((λ x, x.1.1) <$> (t_items t !! k)))) (enum (t_known t)) in
      let '(items, err) := foldl filterStep (found, None) fs in (t, OutList items err)
  | OWait d =>
      let now := (t_now t + d)%Z in
      (MkTable now (filter (λ '(_, x), match x.2 with None => true | Some dl => (now <? dl)%Z end = true) (t_items t))
         (t_known t), OutNone)
  end.
Fixpoint trun (os : list op) (t : table) : table * list out :=
  match os with
  | [] => (t, [])
  | o :: os => let '(t, x) := tstep o t in let '(t, l) := trun os t in (t, x :: l)
  end.
End Table.

(** ** The backend refines the table *)

Section Refinement.
Context (ttl : Z → Z) (enum : gset string → list string) (ser : ISerializer) (name : string).
Context {HL : RedisLaws R ttl enum}.

Definition fields_of (data exp : string) : gmap string string := {["data" := data; "expiration" := exp]}%string.
Definition entry (x : string * string * option Z) : rvalue * option Z := (RHash (fields_of x.1.1 x.1.2), x.2).
Definition keyset (known : gset string) : rkeys := if decide (known = ∅) then ∅ else {[name := (RSet known, None)]}.
Definition concrete (t : table) : rkeys := keyset (t_known t) ∪ (entry <$> t_items t).

(** The keys in use: none is the name of the set. *)
Record table_wf (t : table) : Prop := {
  tw_known : dom (t_items t) ⊆ t_known t;
  tw_name : name ∉ t_known t }.

Record rep (b : Redis) (t : table) : Prop := {
  rp_up : rd_up (rdb b) = true;
  rp_now : rd_now (rdb b) = t_now t;
  rp_name : keysSetName b = name;
  rp_ser : Serializer b = ser;
  rp_wf : table_wf t;
  rp_keys : rd_keys (rdb b) = concrete t }.

Definition op_ok (o : op) : Prop :=
  match o with OSet item => Key item ≠ name | ORemove keys => name ∉ keys | OWait d => (0 ≤ d)%Z | _ => True end.

Lemma fields_union d x d' x' : fields_of d x ∪ fields_of d' x' = fields_of d x.
Proof. by vm_compute. Qed.

Lemma table_name t : table_wf t → t_items t !! name = None.
Proof. intros [Hk Hn]. apply not_elem_of_dom. set_solver. Qed.

Lemma keyset_other known k : k ≠ name → keyset known !! k = None.
Proof. intros Hk. unfold keyset. case_decide; [done|]. by rewrite lookup_singleton_ne. Qed.
Lemma keyset_name known : keyset known !! name = if decide (known = ∅) then None else Some (RSet known, None).
Proof. unfold keyset. case_decide; [done|]. by rewrite lookup_singleton_eq. Qed.

Lemma concrete_other t k : k ≠ name → concrete t !! k = entry <$> t_items t !! k.
Proof. intros Hk. unfold concrete. by rewrite lookup_union, keyset_other, lookup_fmap, (left_id_L None _). Qed.
Lemma concrete_name t : table_wf t →
  concrete t !! name = if decide (t_known t = ∅) then None else Some (RSet (t_known t), None).
Proof.
  intros Hw. unfold concrete. rewrite lookup_union, keyset_name, lookup_fmap, table_name by done.
  by case_decide.
Qed.

(** A database is the table's when it agrees with it key by key. *)
Lemma concrete_intro db t : table_wf t →
  db !! name = (if decide (t_known t = ∅) then None else Some (RSet (t_known t), None)) →
  (∀ k, k ≠ name → db !! k = entry <$> t_items t !! k) → db = concrete t.
Proof.
  intros Hw Hn Ho. apply map_eq. intros k. destruct (decide (k = name)) as [->|Hk].
  - by rewrite Hn, concrete_name.
  - by rewrite Ho, concrete_other.
Qed.

Lemma concrete_size t : table_wf t →
  size (concrete t) = size (t_items t) + (if decide (t_known t = ∅) then 0 else 1).
Proof.
  intros Hw. unfold concrete. rewrite map_size_disj_union.
  - rewrite map_size_fmap. unfold keyset. case_decide; [by rewrite map_size_empty|]. rewrite map_size_singleton. lia.
  - apply map_disjoint_spec. intros k x y Hx Hy. destruct (decide (k = name)) as [->|Hk].
    + by rewrite lookup_fmap, table_name in Hy.
    + by rewrite keyset_other in Hx.
Qed.

(** A round trip. *)
Lemma exec_up cs r : rd_up r = true →
  ∃ r' l, rd_exec cs r = (r', (l, firstError l)) ∧ performAll ttl enum (rd_now r) cs (rd_keys r) = (rd_keys r', l) ∧
    rd_now r' = rd_now r ∧ rd_up r' = true.
Proof.
  intros Hu. pose proof (rd_exec_up cs r Hu) as E. destruct (rd_exec cs r) as [r' [l err]].
  destruct E as (E & -> & En & Eu). eauto 10.
Qed.
Lemma cmd_up c r db a : rd_up r = true → perform ttl enum (rd_now r) c (rd_keys r) = (db, a) →
  ∃ r', cmd c r = (r', a) ∧ rd_keys r' = db ∧ rd_now r' = rd_now r ∧ rd_up r' = true.
Proof.
  intros Hu E. destruct (exec_up [c] r Hu) as (r' & l & E1 & E2 & En & Eu). cbn [performAll] in E2. rewrite E in E2.
  injection E2 as Ek <-. exists r'. unfold cmd. rewrite E1. split; [by destruct a|done].
Qed.

(** A command that only reads. *)
Lemma read_up c b t a : rep b t → perform ttl enum (t_now t) c (concrete t) = (concrete t, a) →
  ∃ r', cmd c (rdb b) = (r', a) ∧ rep (with_rdb r' b) t.
Proof.
  intros [Hu Hn Hm Hs Hw Hk] E. rewrite <- Hn, <- Hk in E.
  destruct (cmd_up _ _ _ _ Hu E) as (r' & E1 & E2 & E3 & E4). exists r'. split; [done|].
  split; cbn [rdb with_rdb keysSetName Serializer]; congruence.
Qed.


Lemma get_up b t key : rep b t → ∃ b', Get key b = (b', t_items t !! key ≫= λ x, decodeItem ser x.1.1) ∧ rep b' t.
Proof.
  intros Hr. pose proof (rp_wf _ _ Hr) as Hw. unfold Get. rewrite (rp_name _ _ Hr).
  set (known := if decide (t_known t = ∅) then false else bool_decide (key ∈ t_known t)).
  destruct (read_up (SIsMember name key) b t (Ok (RBool known)) Hr) as (r1 & -> & H1).
  { cbn [perform]. rewrite concrete_name by done. unfold known. by case_decide. }
  destruct known eqn:Ek.
  - assert (key ∈ t_known t) as Hin.
    { unfold known in Ek. case_decide; [done|]. by apply bool_decide_eq_true in Ek. }
    assert (key ≠ name) as Hne by (intros ->; by apply (tw_name _ Hw)).
    destruct (read_up (HGet key "data") (with_rdb r1 b) t (Ok (RBulk ((λ x, x.1.1) <$> t_items t !! key))) H1) as (r2 & E2 & H2).
    { cbn [perform]. rewrite concrete_other by done. by destruct (t_items t !! key) as [[[d x] dl]|]. }
    cbn [rdb with_rdb] in E2. rewrite E2. exists (with_rdb r2 b). split; [|done]. f_equal. rewrite (rp_ser _ _ Hr). by destruct (t_items t !! key) as [[[d x] dl]|].
  - exists (with_rdb r1 b). split; [|done]. f_equal.
    assert (t_items t !! key = None) as ->; [|done].
    apply not_elem_of_dom. intros Hd. apply (tw_known _ Hw) in Hd. unfold known in Ek. case_decide; [set_solver|].
    by apply bool_decide_eq_false in Ek.
Qed.

Lemma count_up b t : rep b t →
  ∃ b', Count b = (b', (Z.of_nat (size (t_items t)) + (if decide (t_known t = ∅) then 0 else 1))%Z) ∧ rep b' t.
Proof.
  intros Hr. unfold Count.
  destruct (read_up DBSize b t _ Hr eq_refl) as (r & -> & H1). exists (with_rdb r b). split; [|done].
  f_equal. rewrite concrete_size by apply Hr. case_decide; lia.
Qed.

(** Replies that are all fields. *)
Lemma getAll_up t keys : (∀ k, k ∈ keys → k ≠ name) →
  performAll ttl enum (t_now t) (HGetAll <$> keys) (concrete t) =
    (concrete t, (λ k, Ok (RFields (default ∅ ((λ x, fields_of x.1.1 x.1.2) <$> t_items t !! k)))) <$> keys).
Proof.
  induction keys as [|k keys IH]; intros Hk; [done|]. rewrite fmap_cons. cbn [performAll perform].
  rewrite concrete_other by set_solver.
  destruct (t_items t !! k) as [[[d x] dl]|] eqn:E; cbn [fmap option_fmap option_map entry]; rewrite IH by set_solver;
    rewrite fmap_cons, E; done.
Qed.
Lemma firstError_fields (f : string → gmap string string) keys : firstError ((λ k, Ok (RFields (f k))) <$> keys) = None.
Proof. by induction keys. Qed.
Lemma decodeAll_fields (f : string → gmap string string) keys : ∀ items,
  decodeAll ser ((λ k, Ok (RFields (f k))) <$> keys) items =
    Ok (items ++ omap (λ k, decodeItem ser (default "" (f k !! "data"))%string) keys).
Proof.
  induction keys as [|k keys IH]; intros items; [by cbn; rewrite app_nil_r|].
  rewrite fmap_cons. cbn [decodeAll omap list_omap]. unfold decodeItem at 1.
  destruct (Unmarshal ser _); rewrite IH; [by rewrite <- app_assoc|done].
Qed.

Lemma list_up b t fs : rep b t →
  ∃ b', List_ fs b = (b', foldl filterStep (omap (λ k, decodeItem ser (default ""%string ((λ x, x.1.1) <$> (t_items t !! k)))) (enum (t_known t)), None) fs)
    ∧ rep b' t.
Proof.
  intros Hr. pose proof (rp_wf _ _ Hr) as Hw. unfold List_, redisList. rewrite (rp_name _ _ Hr), (rp_ser _ _ Hr).
  assert (enum ∅ = []) as E0 by (apply Permutation_nil_r; by rewrite rd_enum, elements_empty).
  destruct (read_up (SMembers name) b t (Ok (RMembers (enum (t_known t)))) Hr) as (r1 & -> & H1).
  { cbn [perform]. rewrite concrete_name by done. case_decide as E; [by rewrite E, E0|done]. }
  assert (∀ k, k ∈ enum (t_known t) → k ≠ name) as Hk.
  { intros k. rewrite rd_enum, elem_of_elements. intros Hin ->. by apply (tw_name _ Hw). }
  destruct (exec_up (HGetAll <$> enum (t_known t)) r1 (rp_up _ _ H1)) as (r2 & l & -> & E2 & En & Eu).
  pose proof (rp_now _ _ H1) as Hn1. pose proof (rp_keys _ _ H1) as Hk1. cbn [rdb with_rdb] in Hn1, Hk1, En.
  rewrite Hn1, Hk1, getAll_up in E2 by done. injection E2 as Ek <-.
  rewrite firstError_fields, decodeAll_fields. exists (with_rdb r2 b). split.
  - f_equal. f_equal. f_equal. rewrite app_nil_l. apply list_omap_ext. apply Forall2_same_length_lookup_2; [done|].
    intros i k k' Hi Hi'. assert (k = k') as <- by congruence. by destruct (t_items t !! k) as [[[d x] dl]|].
  - split; cbn [rdb with_rdb keysSetName Serializer]; try congruence; apply Hr.
Qed.

(** The pipeline of a set. *)
Definition afterSet (item : Item) (data : string) (t : table) : table :=
  let deadline := if (0 <? Expiration item)%Z then Some (t_now t + ttl (Expiration item))%Z else t_items t !! Key item ≫= snd in
  MkTable (t_now t) (<[Key item := (data, durationString (Expiration item), deadline)]> (t_items t)) ({[Key item]} ∪ t_known t).

Lemma afterSet_wf item data t : table_wf t → Key item ≠ name → table_wf (afterSet item data t).
Proof. intros [Hd Hn] Hk. split; cbn; set_solver. Qed.

Lemma perform_SAdd now db known k :
  db !! name = (if decide (known = ∅) then None else Some (RSet known, None)) →
  perform ttl enum now (SAdd name k) db = (<[name := (RSet ({[k]} ∪ known), None)]> db, Ok RDone).
Proof.
  intros E. cbn [perform]. rewrite E. case_decide as Hd; [|done]. by rewrite Hd, (right_id_L ∅ (∪)).
Qed.
Lemma perform_HSet now t k data exp : k ≠ name →
  perform ttl enum now (HSet k (fields_of data exp)) (concrete t) =
    (<[k := (RHash (fields_of data exp), t_items t !! k ≫= snd)]> (concrete t), Ok RDone).
Proof.
  intros Hk. cbn [perform]. rewrite concrete_other by done.
  destruct (t_items t !! k) as [[[d x] dl]|]; cbn; [by rewrite fields_union|done].
Qed.

(** The keys after the hash and the set were written, with the deadline [dl]. *)
Lemma set_keys item data t dl : table_wf t → Key item ≠ name →
  dl = (if (0 <? Expiration item)%Z then Some (t_now t + ttl (Expiration item))%Z else t_items t !! Key item ≫= snd) →
  <[Key item := (RHash (fields_of data (durationString (Expiration item))), dl)]>
    (<[name := (RSet ({[Key item]} ∪ t_known t), None)]> (concrete t)) = concrete (afterSet item data t).
Proof.
  intros Hw Hk ->. apply concrete_intro; [by apply afterSet_wf| |].
  - rewrite lookup_insert_ne, lookup_insert_eq by done. cbn [afterSet t_known]. rewrite decide_False; [done|set_solver].
  - intros k Hkn. cbn [afterSet t_items]. destruct (decide (k = Key item)) as [->|Hki].
    + by rewrite !lookup_insert_eq.
    + rewrite !lookup_insert_ne by done. by apply concrete_other.
Qed.

Lemma set_pipeline item data t : table_wf t → Key item ≠ name →
  ∃ l, performAll ttl enum (t_now t)
    ([HSet (Key item) (fields_of data (durationString (Expiration item))); SAdd name (Key item)]
       ++ (if (0 <? Expiration item)%Z then [Expire (Key item) (Expiration item)] else [])) (concrete t)
    = (concrete (afterSet item data t), l) ∧ firstError l = None.
Proof.
  intros Hw Hk. cbn [app performAll]. rewrite perform_HSet by done.
  rewrite (perform_SAdd _ _ (t_known t)) by (by rewrite lookup_insert_ne, concrete_name).
  rewrite insert_insert_ne by done.
  destruct (Z.ltb_spec 0 (Expiration item)) as [Hp|Hp]; cbn [performAll].
  - cbn [perform]. rewrite lookup_insert_eq. destruct (Z.leb_spec (ttl (Expiration item)) 0) as [Hc|_].
    { pose proof (rd_ttl _ Hp). lia. }
    eexists. split; [f_equal|done]. rewrite insert_insert_eq. apply set_keys; [done..|].
    by destruct (Z.ltb_spec 0 (Expiration item)); [|lia].
  - eexists. split; [f_equal|done]. apply set_keys; [done..|].
    by destruct (Z.ltb_spec 0 (Expiration item)); [lia|].
Qed.

(** A round trip that takes the keys of a table to those of another. *)
Lemma write_up cs b t t' l : rep b t →
  performAll ttl enum (t_now t) cs (concrete t) = (concrete t', l) → t_now t' = t_now t → table_wf t' →
  ∃ r', rd_exec cs (rdb b) = (r', (l, firstError l)) ∧ rep (with_rdb r' b) t'.
Proof.
  intros Hr E Hn Hw'. destruct (exec_up cs (rdb b) (rp_up _ _ Hr)) as (r' & l' & E1 & E2 & En & Eu).
  rewrite (rp_now _ _ Hr), (rp_keys _ _ Hr), E in E2. injection E2 as Ek <-.
  exists r'. split; [done|]. split; cbn [rdb with_rdb keysSetName Serializer]; try done; try apply Hr.
  by rewrite En, (rp_now _ _ Hr), Hn.
Qed.

Lemma set_up b t item : rep b t → Key item ≠ name →
  ∃ b', step (OSet item) b = (b', (tstep ttl enum ser (OSet item) t).2) ∧ rep b' (tstep ttl enum ser (OSet item) t).1.
Proof.
  intros Hr Hk. cbn [step tstep]. unfold Set_, redisSet. rewrite (rp_name _ _ Hr), (rp_ser _ _ Hr).
  assert (rep (with_rdb (rdb b) b) t) as Hr0 by (split; apply Hr).
  destruct (Valid item) as [item' [err|]] eqn:Ev; [by exists (with_rdb (rdb b) b)|].
  assert (item' = item) as -> by (revert Ev; unfold Valid; repeat case_match; congruence).
  destruct (Marshal ser item) as [data|err]; [|by exists (with_rdb (rdb b) b)].
  destruct (set_pipeline item data t (rp_wf _ _ Hr) Hk) as (l & El & He).
  destruct (write_up _ _ _ _ _ Hr El) as (r' & Er & Hr'); [done|by apply afterSet_wf; [apply Hr|]|].
  unfold fields_of in Er. rewrite Er, He. by exists (with_rdb r' b).
Qed.

Definition afterRemove (keys : list string) (t : table) : table :=
  MkTable (t_now t) (delete_all keys (t_items t)) (t_known t ∖ list_to_set keys).

Lemma afterRemove_wf keys t : table_wf t → table_wf (afterRemove keys t).
Proof.
  intros [Hd Hn]. split; cbn; [|set_solver]. intros k. rewrite elem_of_dom, delete_all_lookup. case_decide; [by intros []|].
  intros Hk%elem_of_dom%Hd. set_solver.
Qed.

Lemma remove_pipeline keys t : table_wf t → name ∉ keys → keys ≠ [] →
  ∃ l, performAll ttl enum (t_now t) [SRem name keys; Del keys] (concrete t) = (concrete (afterRemove keys t), l) ∧
    firstError l = None.
Proof.
  intros Hw Hn Hk. cbn [performAll perform]. rewrite !decide_False, concrete_name by done.
  assert (∀ db, db !! name = (if decide (t_known t ∖ list_to_set keys = ∅) then None else Some (RSet (t_known t ∖ list_to_set keys), None)) →
    (∀ k, k ≠ name → db !! k = concrete t !! k) → delete_all keys db = concrete (afterRemove keys t)) as Hdb.
  { intros db H1 H2. apply concrete_intro; [by apply afterRemove_wf| |].
    - by rewrite delete_all_lookup, decide_False.
    - intros k Hkn. cbn [afterRemove t_items]. rewrite !delete_all_lookup, (H2 k), concrete_other by done.
      destruct (decide (k ∈ keys)) as [|]; done. }
  destruct (decide (t_known t = ∅)) as [E|E].
  - rewrite decide_False by done. eexists. split; [f_equal; apply Hdb|done]; [|done].
    rewrite concrete_name, decide_True by done. rewrite decide_True; [done|set_solver].
  - rewrite (decide_False (P:=keys = [])) by done. eexists. split; [f_equal; apply Hdb|done].
    + case_decide; [by rewrite lookup_delete_eq|by rewrite lookup_insert_eq].
    + intros k Hkn. case_decide; [by rewrite lookup_delete_ne|by rewrite lookup_insert_ne].
Qed.

Lemma remove_up b t keys : wrapNil = None → rep b t → name ∉ keys →
  ∃ b', step (ORemove keys) b = (b', (tstep ttl enum ser (ORemove keys) t).2) ∧ rep b' (tstep ttl enum ser (ORemove keys) t).1.
Proof.
  intros Hwn Hr Hn. cbn [step]. unfold Remove, redisRemove. rewrite (rp_name _ _ Hr).
  destruct (decide (keys = [])) as [->|Hk].
  - destruct (write_up [SRem name []; Del []] b t t [Err wrongArity; Err wrongArity] Hr eq_refl eq_refl (rp_wf _ _ Hr)) as (r' & -> & Hr').
    by exists (with_rdb r' b).
  - destruct (remove_pipeline keys t (rp_wf _ _ Hr) Hn Hk) as (l & El & He).
    destruct (write_up _ _ _ _ _ Hr El) as (r' & -> & Hr'); [done|apply afterRemove_wf, Hr|].
    rewrite He. cbn [Wrap]. rewrite Hwn. exists (with_rdb r' b). destruct keys; [done|]. by split.
Qed.

Lemma clear_up b t : wrapNil = None → rep b t → ∃ b', Clear b = (b', None) ∧ rep b' (MkTable (t_now t) ∅ ∅).
Proof.
  intros Hwn Hr. unfold Clear, cmd.
  assert (table_wf (MkTable (t_now t) ∅ ∅)) as Hw by (split; cbn; set_solver).
  destruct (write_up [FlushDB] b t (MkTable (t_now t) ∅ ∅) [Ok RDone] Hr) as (r' & -> & Hr'); [|done..|].
  { done. }
  exists (with_rdb r' b). cbn. by rewrite Hwn.
Qed.

Lemma wait_up b t d : rep b t →
  ∃ b', step (OWait d) b = (b', OutNone) ∧ rep b' (tstep ttl enum ser (OWait d) t).1.
Proof.
  intros Hr. destruct (rd_wait_law d (rdb b) (rp_up _ _ Hr)) as (Ek & En & Eu). pose proof (rp_wf _ _ Hr) as Hw.
  eexists. split; [done|]. cbn [tstep fst]. rewrite (rp_now _ _ Hr) in Ek, En. rewrite (rp_keys _ _ Hr) in Ek.
  assert (table_wf (tstep ttl enum ser (OWait d) t).1) as Hw'.
  { split; cbn; [|apply Hw]. etrans; [|apply (tw_known _ Hw)]. apply dom_filter_subseteq. }
  split; cbn [rdb with_rdb keysSetName Serializer]; try done; try apply Hr.
  rewrite Ek. apply concrete_intro; [done| |].
  - unfold alive. rewrite map_lookup_filter, concrete_name by done. cbn [t_known]. by case_decide.
  - intros k Hk. unfold alive. rewrite map_lookup_filter, concrete_other by done. cbn [t_items].
    rewrite map_lookup_filter. destruct (t_items t !! k) as [[[x y] [dl|]]|]; [|done..].
    cbn. unfold entry, unexpired. cbn. by destruct (t_now t + d <? dl)%Z.
Qed.

Lemma step_up b t o : wrapNil = None → rep b t → op_ok o →
  ∃ b', step o b = (b', (tstep ttl enum ser o t).2) ∧ rep b' (tstep ttl enum ser o t).1.
Proof.
  intros Hwn Hr Ho. destruct o as [item|key|keys| | |fs|d].
  - by apply set_up.
  - cbn [step tstep]. destruct (get_up b t key Hr) as (b' & -> & Hr'). by exists b'.
  - by apply remove_up.
  - cbn [step tstep]. destruct (clear_up b t Hwn Hr) as (b' & -> & Hr'). by exists b'.
  - cbn [step tstep]. destruct (count_up b t Hr) as (b' & -> & Hr'). by exists b'.
  - cbn [step tstep]. destruct (list_up b t fs Hr) as (b' & -> & Hr').
    destruct (foldl filterStep _ fs) as [items err]. by exists b'.
  - destruct (wait_up b t d Hr) as (b' & -> & Hr'). by exists b'.
Qed.

Lemma run_up os : ∀ b t, wrapNil = None → rep b t → Forall op_ok os →
  ∃ b', run os b = (b', (trun ttl enum ser os t).2) ∧ rep b' (trun ttl enum ser os t).1.
Proof.
  induction os as [|o os IH]; intros b t Hwn Hr Ho; [by exists b|]. inversion_clear Ho as [|? ? Ho1 Ho2].
  cbn [run trun]. destruct (step_up b t o Hwn Hr Ho1) as (b1 & -> & Hr1).
  destruct (tstep ttl enum ser o t) as [t1 x]. cbn [fst snd] in *.
  destruct (IH b1 t1 Hwn Hr1 Ho2) as (b2 & -> & Hr2). destruct (trun ttl enum ser os t1) as [t2 l]. by exists b2.
Qed.

Lemma NewRedis_empty opts b : NewRedis opts = Ok b → rd_up (rdb b) = true → rd_keys (rdb b) = ∅ →
  keysSetName b = name → Serializer b = ser → rep b (MkTable (rd_now (rdb b)) ∅ ∅).
Proof.
  intros _ Hu Hk Hn Hs. assert (table_wf (MkTable (rd_now (rdb b)) ∅ ∅)) as Hw by (split; cbn; set_solver).
  by split.
Qed.

End Refinement.

(** C6: a Redis backend on an empty database answers every sequence of sets, gets,
    removals, clears, counts, listings and waits as a table of serialized items with
    deadlines does: a get returns what the serializer makes of the last value that was
    stored, unless its deadline has passed; a count is one more than the number of live
    items as long as the set of keys is not empty; removing no keys is an error; and an
    item without an expiration keeps the deadline that its key had.  No item may have the
    name of the set of keys. *)
Theorem redis_refines ttl enum opts b os :
  RedisLaws R ttl enum → wrapNil = None → NewRedis opts = Ok b → rd_up (rdb b) = true → rd_keys (rdb b) = ∅ →
  Forall (op_ok (keysSetName b)) os →
  (run os b).2 = (trun ttl enum (Serializer b) os (MkTable (rd_now (rdb b)) ∅ ∅)).2.
Proof.
  intros HL Hwn Hb Hu Hk Ho. destruct (run_up ttl enum (Serializer b) (keysSetName b) os b (MkTable (rd_now (rdb b)) ∅ ∅))
    as (b' & -> & _); [done| |done|done]. by eapply NewRedis_empty.
Qed.

(** The serializer of a backend that was given none. *)
Lemma NewRedis_default opts b :
  NewRedis opts = Ok b → rc_Serializer (ApplyOptions opts (MkRedisConfig None 0 "" None)) = None →
  Serializer b = MsgpackSerializer.
Proof.
  unfold NewRedis. intros E Es. rewrite Es in E. destruct (rc_client _); [|done].
  destruct (rc_capacity _ <? 0)%Z; [done|]. cbn in E. by injection E as <-.
Qed.

(** A Redis backend that is built without naming a serializer can hold nothing: the
    default is the disabled msgpack, so every set fails and leaves the server as it was,
    every get misses, and every listing that the server answers is empty, whatever the
    server holds. *)
Theorem redis_default_unusable opts b r item key :
  NewRedis opts = Ok b → rc_Serializer (ApplyOptions opts (MkRedisConfig None 0 "" None)) = None →
  (∃ err, Set_ item (with_rdb r b) = (with_rdb r b, Some err)) ∧
  (Get key (with_rdb r b)).2 = None ∧
  (List_ [] (with_rdb r b)).2.1 = [].
Proof.
  intros Hb Hs. pose proof (NewRedis_default _ _ Hb Hs) as Em. split; [|split].
  - unfold Set_, redisSet. cbn [Serializer with_rdb rdb]. rewrite Em. destruct (Valid item) as [item' [err|]]; eauto.
  - unfold Get. destruct (cmd _ _) as [r1 [[]|]]; try done. destruct b0; [|done].
    destruct (cmd _ _) as [r2 [[]|]]; try done. destruct s; [|done]. cbn. by rewrite Em.
  - unfold List_, redisList. cbn [Serializer with_rdb rdb]. rewrite Em.
    destruct (cmd _ _) as [r1 [[]|]]; try done. destruct (rd_exec _ _) as [r2 [l [er|]]]; [done|].
    assert (∀ l, decodeAll MsgpackSerializer l [] = Ok [] ∨ ∃ er, decodeAll MsgpackSerializer l [] = Err er) as Hd.
    { clear. induction l as [|[[]|] l IH]; cbn; eauto. }
    destruct (Hd l) as [->|[er ->]]; done.
Qed.


(** Once the name of the set of keys holds a hash, writes fail and reads miss. *)
Definition poisoned (b : Redis) : Prop := ∃ fs dl, rd_keys (rdb b) !! keysSetName b = Some (RHash fs, dl).

Lemma get_poisoned ttl enum b key : RedisLaws R ttl enum → rd_up (rdb b) = true → poisoned b → (Get key b).2 = None.
Proof.
  intros HL Hu (fs & dl & E). unfold Get.
  destruct (cmd_up ttl enum (SIsMember (keysSetName b) key) (rdb b) (rd_keys (rdb b)) (Err wrongType) Hu) as (r' & -> & _); [|done].
  cbn. by rewrite E.
Qed.

(** The pipeline of a set, with whatever the two keys hold. *)
Definition setPipe (name data : string) (item : Item) : list rcmd :=
  [HSet (Key item) (fields_of data (durationString (Expiration item))); SAdd name (Key item)]
    ++ (if (0 <? Expiration item)%Z then [Expire (Key item) (Expiration item)] else []).

Lemma setPipe_poisons ttl enum now name data item db : (∀ d, (0 < d)%Z → (0 < ttl d)%Z) →
  (∃ fs dl, db !! name = Some (RHash fs, dl)) ∨ Key item = name ∧ db !! name = None →
  ∃ db' l, performAll ttl enum now (setPipe name data item) db = (db', l) ∧ firstError l ≠ None ∧
    ∃ fs dl, db' !! name = Some (RHash fs, dl).
Proof.
  intros Ht Hdb. unfold setPipe. cbn [app performAll].
  assert (∃ db1 a, perform ttl enum now (HSet (Key item) (fields_of data (durationString (Expiration item)))) db = (db1, a) ∧
    ∃ fs dl, db1 !! name = Some (RHash fs, dl)) as (db1 & a & -> & fs1 & dl1 & E1).
  { cbn [perform]. destruct Hdb as [(fs & dl & E)|[-> E]].
    - destruct (decide (Key item = name)) as [->|Hk]; [rewrite E; eexists _, _; split; [done|]; rewrite lookup_insert_eq; eauto|].
      destruct (db !! Key item) as [[[] ?]|]; eexists _, _; (split; [done|]); rewrite ?lookup_insert_ne by done; eauto.
    - rewrite E. eexists _, _. split; [done|]. rewrite lookup_insert_eq. eauto. }
  assert (perform ttl enum now (SAdd name (Key item)) db1 = (db1, Err wrongType)) as -> by (cbn; by rewrite E1).
  assert (∀ l, firstError (a :: Err wrongType :: l) ≠ None) as He by (by destruct a).
  destruct (Z.ltb_spec 0 (Expiration item)) as [Hp|Hp]; cbn [performAll]; [|eauto 10].
  destruct (perform ttl enum now (Expire (Key item) (Expiration item)) db1) as [db2 a2] eqn:E2.
  eexists _, _. split; [done|]. split; [apply He|]. cbn [perform] in E2. pose proof (Ht _ Hp).
  destruct (db1 !! Key item) as [[v d]|] eqn:Ek; [|injection E2 as <- _; eauto].
  destruct (Z.leb_spec (ttl (Expiration item)) 0); [lia|]. injection E2 as <- _.
  destruct (decide (Key item = name)) as [Hk|Hk]; [rewrite Hk in *; rewrite lookup_insert_eq|rewrite lookup_insert_ne by done]; [|eauto].
  rewrite E1 in Ek. injection Ek as <- _. eauto.
Qed.

Definition storable (ser : ISerializer) (it : Item) : Prop := Valid it = (it, None) ∧ ∃ d, Marshal ser it = Ok d.

Lemma set_poisons ttl enum b it : RedisLaws R ttl enum → rd_up (rdb b) = true → storable (Serializer b) it →
  poisoned b ∨ Key it = keysSetName b ∧ rd_keys (rdb b) !! keysSetName b = None →
  ∃ r err, Set_ it b = (with_rdb r b, Some err) ∧ rd_up r = true ∧ poisoned (with_rdb r b).
Proof.
  intros HL Hu [Hv [d Hm]] Hp.
  destruct (setPipe_poisons ttl enum (rd_now (rdb b)) (keysSetName b) d it (rd_keys (rdb b)) rd_ttl Hp) as (db' & l & E & He & Hf).
  destruct (exec_up ttl enum (setPipe (keysSetName b) d it) (rdb b) Hu) as (r' & l' & E1 & E2 & _ & Hu').
  rewrite E in E2. injection E2 as Ek <-.
  unfold Set_, redisSet. rewrite Hv, Hm. unfold setPipe, fields_of in E1. rewrite E1.
  destruct (firstError l) as [err|]; [|done]. exists r', err. split_and!; [done|done|].
  unfold poisoned. cbn. by rewrite <- Ek.
Qed.

Lemma sets_poisoned ttl enum its : ∀ b, RedisLaws R ttl enum → rd_up (rdb b) = true → poisoned b →
  Forall (storable (Serializer b)) its →
  ∃ r outs, run (OSet <$> its) b = (with_rdb r b, outs) ∧ length outs = length its ∧
    Forall (λ o, ∃ err, o = OutErr (Some err)) outs ∧ rd_up r = true ∧ poisoned (with_rdb r b).
Proof.
  induction its as [|it its IH]; intros b HL Hu Hp Hits.
  { exists (rdb b), []. by destruct b. }
  inversion_clear Hits as [|? ? Hit Hits'].
  destruct (set_poisons ttl enum b it HL Hu Hit (or_introl Hp)) as (r & err & E & Hu' & Hp').
  destruct (IH (with_rdb r b) HL Hu' Hp' Hits') as (r' & outs & E' & Hl & Ho & Hu1 & Hp1).
  rewrite fmap_cons. cbn [run step]. rewrite E, E'. exists r', (OutErr (Some err) :: outs).
  split_and!; [done|by cbn; rewrite Hl|constructor; eauto|done|done].
Qed.

(** Setting an item whose key is the name of the set of keys, before any other, reports
    an error but leaves a hash under that name; from then on every set of the backend
    fails and every get misses. *)
Theorem redis_poisoned ttl enum b item items key :
  RedisLaws R ttl enum → rd_up (rdb b) = true → rd_keys (rdb b) !! keysSetName b = None →
  Key item = keysSetName b → Forall (storable (Serializer b)) (item :: items) →
  ∃ b1 outs, run (OSet <$> item :: items) b = (b1, outs) ∧ length outs = S (length items) ∧
    Forall (λ o, ∃ err, o = OutErr (Some err)) outs ∧ (Get key b1).2 = None.
Proof.
  intros HL Hu En Hk Hits. inversion_clear Hits as [|? ? Hit Hits'].
  destruct (set_poisons ttl enum b item HL Hu Hit (or_intror (conj Hk En))) as (r & err & E & Hu' & Hp').
  destruct (sets_poisoned ttl enum items (with_rdb r b) HL Hu' Hp' Hits') as (r' & outs & E' & Hl & Ho & Hu1 & Hp1).
  rewrite fmap_cons. cbn [run step]. rewrite E, E'. exists (with_rdb r' b), (OutErr (Some err) :: outs).
  split_and!; [done|by cbn; rewrite Hl|constructor; eauto|]. by apply (get_poisoned ttl enum).
Qed.

End Redis.

(** ** A server that obeys the laws *)

Record modelRedis := MkModelRedis { mr_keys : rkeys; mr_now : Z; mr_up : bool }.
Definition secondsUp (d : Z) : Z := if (d <? 1000000000)%Z then 1000000000 else (Z.quot d 1000000000 * 1000000000)%Z.

#[export] Instance model_server : RedisServer modelRedis := {|
  rd_keys := mr_keys; rd_now := mr_now; rd_up := mr_up;
  rd_exec cs r :=
    if mr_up r
    then let '(db, l) := performAll secondsUp elements (mr_now r) cs (mr_keys r) in
         (MkModelRedis db (mr_now r) true, (l, firstError l))
    else (r, ([], Some (ErrOther "dial tcp")));
  rd_wait d r := MkModelRedis (alive (mr_now r + d) (mr_keys r)) (mr_now r + d) (mr_up r) |}.

#[export] Instance model_laws : RedisLaws modelRedis secondsUp elements.
Proof.
  split; cbn.
  - intros d Hd. unfold secondsUp. destruct (Z.ltb_spec d 1000000000); [lia|].
    assert (0 < Z.quot d 1000000000)%Z; [apply Z.quot_str_pos; lia|lia].
  - done.
  - intros cs r Hu. rewrite Hu. by destruct (performAll _ _ _ cs _).
  - intros cs r Hu. rewrite Hu. eauto.
  - intros d r Hu. by rewrite Hu.
Qed.

(** A serializer that writes the key and the value of an item. *)
Definition sampleMarshal (it : Item) : result string :=
  match Value it with AString v => Ok (String.append "s" v) | _ => Err (ErrOther "unsupported type") end.
Definition sampleUnmarshal (s : string) : result Item :=
  match s with
  | String _ v => Ok (MkItem "" (AString v) 0 0 0 0 0 0 "")
  | EmptyString => Err (ErrOther "unexpected end of JSON input")
  end.
Definition sampleJSON : ISerializer := DefaultJSONSerializer sampleMarshal sampleUnmarshal.

Definition sampleServer : modelRedis := MkModelRedis ∅ 0 true.
Definition sampleRedis (opts : list (Option_ (R:=modelRedis))) : Redis :=
  match NewRedis sampleMarshal sampleUnmarshal opts with
  | Ok b => b
  | Err _ => MkRedis sampleServer 0 "" MsgpackSerializer
  end.
Definition jsonRedis : Redis := sampleRedis [WithRedisClient (Some sampleServer); WithSerializer (Some sampleJSON)].
Definition plainRedis : Redis := sampleRedis [WithRedisClient (Some sampleServer)].
Definition textItem (k v : string) (exp : Z) : Item := MkItem k (AString v) 0 0 0 exp 0 0 "".
Definition second : Z := 1000000000.
Definition noName (d : Z) : string := "".
Definition runSample (os : list op) (b : Redis) : list out := (run (R:=modelRedis) sample_env noName None os b).2.

(** The second value has no expiration, but vanishes with the first one's deadline. *)
Example stale_deadline :
  runSample [OSet (textItem "k" "old" (10 * second)); OSet (textItem "k" "new" 0); OGet "k"; OWait (10 * second); OGet "k"] jsonRedis
  = [OutErr None; OutErr None; OutItem (Some (textItem "" "new" 0)); OutNone; OutItem None].
Proof. by vm_compute. Qed.

(** One item counts as two keys; when it expires its key stays in the set, which counts. *)
Example count_off_by_one :
  runSample [OCount; OSet (textItem "k" "v" (10 * second)); OCount; OWait (10 * second); OCount; ORemove ["k"]; OCount; ORemove []] jsonRedis
  = [OutCount 0; OutErr None; OutCount 2; OutNone; OutCount 1; OutErr None; OutCount 0; OutErr (Some wrongArity)].
Proof. by vm_compute. Qed.

(** A filter that fails is forgotten when another one follows. *)
Example filter_error_lost :
  runSample [OSet (textItem "k" "v" 0); OList [sortByFilter "nothing"]; OList [sortByFilter "nothing"; SortOrderFilter true]] jsonRedis
  = [OutErr None; OutList [] (Some (ErrOther "invalid sort field")); OutList [] None].
Proof. by vm_compute. Qed.

Lemma redis_refines_witness :
  let os := [OSet (textItem "k" "v" second); OGet "k"; OWait second; OGet "k"] in
  runSample os jsonRedis = (trun sample_env noName secondsUp elements (Serializer jsonRedis) os
    (MkTable (rd_now (rdb jsonRedis)) ∅ ∅)).2.
Proof.
  unfold runSample.
  apply (redis_refines (R:=modelRedis) sample_env sampleMarshal sampleUnmarshal noName None secondsUp elements
    [WithRedisClient (Some sampleServer); WithSerializer (Some sampleJSON)] jsonRedis); try done; [apply _|].
  repeat constructor; by vm_compute.
Defined.

Lemma redis_default_unusable_witness :
  ∃ err, Set_ (R:=modelRedis) noName (textItem "k" "v" 0) plainRedis = (plainRedis, Some err).
Proof.
  apply (redis_default_unusable (R:=modelRedis) sample_env sampleMarshal sampleUnmarshal noName
    [WithRedisClient (Some sampleServer)] plainRedis sampleServer (textItem "k" "v" 0) "k"); done.
Defined.

Lemma redis_poisoned_witness :
  ∃ b1 outs, run (R:=modelRedis) sample_env noName None (OSet <$> [textItem "redis" "v" 0; textItem "k" "w" 0]) jsonRedis = (b1, outs) ∧
    length outs = 2 ∧ Forall (λ o, ∃ err, o = OutErr (Some err)) outs ∧ (Get (R:=modelRedis) "k" b1).2 = None.
Proof.
  apply (redis_poisoned (R:=modelRedis) sample_env noName None secondsUp elements jsonRedis
    (textItem "redis" "v" 0) [textItem "k" "w" 0] "k"); try done; [apply _|].
  repeat constructor; try done; by eexists.
Defined.
