(* ===== verification/Middleware.v ===== *)
(** * The service interface, its middlewares and the typed wrapper (service.go,
      pkg/middleware/logging.go, stats.go, otel_metrics.go, otel_tracing.go,
      hypercache_typed.go)

    [Service] is the interface as a record of operations on a state.  A method that does
    not return has panicked; deferred calls run then too.  A middleware wraps a service
    and appends what it observes to a sink: lines of text to a logger, measurements to a
    meter, the events of spans to a tracer, and counters and timings to a statistics
    collector.  The sinks are shared: two middlewares may have the same one, and the
    statistics middleware may have the collector that the cache itself reports from (as
    stats.go recommends).  Durations and the text of the values are left out of the
    observations.

    The theorems: any stack of middlewares leaves the service as it would be without them
    and changes no answer but that of GetStats, which also shows, exactly, what the
    middlewares on the service's own collector have recorded; what each kind of middleware
    records, also when a call panics; what the typed wrapper makes of values of another
    type. *)

From stdpp Require Import base gmap strings list fin_maps.
From Stdlib Require Import ZArith Lia.
From S2P Require Import Prelude Item Backend.
Local Open Scope nat_scope.

(** ** The service *)

Inductive outcome (A : Type) := Return (a : A) | Panic.
Arguments Return {A} a. Arguments Panic {A}.

Section Service.
Context {Stats : Type}.

Record Service (X : Type) := MkService {
  svc_Get : string → X → X * outcome (option any);
  svc_Set : string → any → Z → X → X * outcome (option error);
  svc_GetOrSet : string → any → Z → X → X * outcome (result any);
  svc_GetWithInfo : string → X → X * outcome (option Item);
  svc_GetMultiple : list string → X → X * outcome (gmap string any * gmap string error);
  svc_List : list IFilter → X → X * outcome (option (list Item) * option error);
  svc_Remove : list string → X → X * outcome (option error);
  svc_Clear : X → X * outcome (option error);
  svc_Capacity : X → X * outcome Z;
  svc_Allocation : X → X * outcome Z;
  svc_Count : X → X * outcome Z;
  svc_TriggerEviction : X → X * outcome unit;
  svc_Stop : X → X * outcome (option error);
  svc_GetStats : X → X * outcome Stats }.
Arguments MkService {X}. Arguments svc_Get {X}. Arguments svc_Set {X}. Arguments svc_GetOrSet {X}.
Arguments svc_GetWithInfo {X}. Arguments svc_GetMultiple {X}. Arguments svc_List {X}. Arguments svc_Remove {X}.
Arguments svc_Clear {X}. Arguments svc_Capacity {X}. Arguments svc_Allocation {X}. Arguments svc_Count {X}.
Arguments svc_TriggerEviction {X}. Arguments svc_Stop {X}. Arguments svc_GetStats {X}.

(** ** What is observed *)

(** The arguments that a line or an attribute shows. *)
Inductive shown := ShKey (key : string) | ShKeyValue (key : string) (value : any) | ShKeys (keys : list string)
  | ShFilters (n : nat) | ShNothing.

Inductive attr := AttrInt (name : string) (z : Z) | AttrBool (name : string) (b : bool) | AttrString (name v : string).

Inductive event :=
  | LogCalled (method : string) (args : shown)
  | LogTook (method : string)
  | Timing (stat : string)
  | Incr (stat : string) (delta : Z)
  | Measured (method : string) (attrs : list attr)
  | SpanStart (name : string) (attrs : list attr)
  | SpanAttrs (attrs : list attr)
  | SpanError (e : error)
  | SpanEnd.

(** The sinks, by the object behind them: the statistics collectors, which the services
    read, and the loggers, meters and tracers, which nobody reads. *)
Inductive sink := Collector (id : nat) | Output (id : nat).
#[global] Instance sink_eq_dec : EqDecision sink.
Proof. solve_decision. Defined.
Definition Sinks : Type := sink → list event.
Definition record (k : sink) (evs : list event) (h : Sinks) : Sinks :=
  λ k', if decide (k' = k) then h k' ++ evs else h k'.

(** A call with the events before it, those of its return and those of a panic. *)
Definition observed {X A : Type} (k : sink) (before : list event) (ret : A → list event) (panic : list event)
    (call : X * Sinks → (X * Sinks) * outcome A) (s : X * Sinks) : (X * Sinks) * outcome A :=
  let '((x, h), a) := call (s.1, record k before s.2) in
  ((x, record k (match a with Return a => ret a | Panic => panic end) h), a).

(** ** Logging *)

(** The deferred line runs in any case. *)
Definition logged {X A} (k : sink) (method : string) (args : shown) (call : X * Sinks → (X * Sinks) * outcome A) :=
  observed k [LogCalled method args] (λ _, [LogTook method]) [LogTook method] call.

Definition NewLoggingMiddleware {X} (logger : sink) (next : Service (X * Sinks)) : Service (X * Sinks) := {|
  svc_Get key := logged logger "Get" (ShKey key) (svc_Get next key);
  svc_Set key value expiration := logged logger "Set" (ShKeyValue key value) (svc_Set next key value expiration);
  svc_GetOrSet key value expiration := logged logger "GetOrSet" (ShKeyValue key value) (svc_GetOrSet next key value expiration);
  svc_GetWithInfo key := logged logger "GetWithInfo" (ShKey key) (svc_GetWithInfo next key);
  svc_GetMultiple keys := logged logger "GetMultiple" (ShKeys keys) (svc_GetMultiple next keys);
  svc_List filters := logged logger "List" (ShFilters (length filters)) (svc_List next filters);
  svc_Remove keys := logged logger "Remove" (ShKeys keys) (svc_Remove next keys);
  svc_Clear := logged logger "Clear" ShNothing (svc_Clear next);
  svc_Capacity := svc_Capacity next;
  svc_Allocation := svc_Allocation next;
  svc_Count := svc_Count next;
  svc_TriggerEviction := logged logger "TriggerEviction" ShNothing (svc_TriggerEviction next);
  svc_Stop := logged logger "Stop" ShNothing (svc_Stop next);
  svc_GetStats := logged logger "GetStats" ShNothing (svc_GetStats next) |}.

(** ** Statistics *)

Definition collected {X A} (k : sink) (stat : string) (call : X * Sinks → (X * Sinks) * outcome A) :=
  let evs := [Timing (String.append stat "_duration"); Incr (String.append stat "_count") 1] in
  observed k [] (λ _, evs) evs call.

Definition NewStatsCollectorMiddleware {X} (statsCollector : sink) (next : Service (X * Sinks)) : Service (X * Sinks) := {|
  svc_Get key := collected statsCollector "hypercache_get" (svc_Get next key);
  svc_Set key value expiration := collected statsCollector "hypercache_set" (svc_Set next key value expiration);
  svc_GetOrSet key value expiration := collected statsCollector "hypercache_get_or_set" (svc_GetOrSet next key value expiration);
  svc_GetWithInfo key := collected statsCollector "hypercache_get_with_info" (svc_GetWithInfo next key);
  svc_GetMultiple keys := collected statsCollector "hypercache_get_multiple" (svc_GetMultiple next keys);
  svc_List filters := collected statsCollector "hypercache_list" (svc_List next filters);
  svc_Remove keys := collected statsCollector "hypercache_remove" (svc_Remove next keys);
  svc_Clear := collected statsCollector "hypercache_clear" (svc_Clear next);
  svc_Capacity := svc_Capacity next;
  svc_Allocation := svc_Allocation next;
  svc_Count := svc_Count next;
  svc_TriggerEviction := collected statsCollector "hypercache_trigger_eviction" (svc_TriggerEviction next);
  svc_Stop := collected statsCollector "hypercache_stop" (svc_Stop next);
  svc_GetStats := svc_GetStats next |}.

(** ** Metrics *)

Definition slen (s : string) : Z := Z.of_nat (String.length s).
Definition isSome {A} (o : option A) : bool := match o with Some _ => true | None => false end.

(** [rec] is not deferred: a panic is not measured. *)
Definition measured {X A} (k : sink) (method : string) (attrs : A → list attr) (call : X * Sinks → (X * Sinks) * outcome A) :=
  observed k [] (λ a, [Measured method (AttrString "method" method :: attrs a)]) [] call.

Definition NewOTelMetricsMiddleware {X} (meter : sink) (next : Service (X * Sinks)) : Service (X * Sinks) := {|
  svc_Get key := measured meter "Get" (λ r, [AttrInt "key.len" (slen key); AttrBool "hit" (isSome r)]) (svc_Get next key);
  svc_Set key value expiration := measured meter "Set" (λ _, [AttrInt "key.len" (slen key)]) (svc_Set next key value expiration);
  svc_GetOrSet key value expiration :=
    measured meter "GetOrSet" (λ _, [AttrInt "key.len" (slen key)]) (svc_GetOrSet next key value expiration);
  svc_GetWithInfo key :=
    measured meter "GetWithInfo" (λ r, [AttrInt "key.len" (slen key); AttrBool "hit" (isSome r)]) (svc_GetWithInfo next key);
  svc_GetMultiple keys :=
    measured meter "GetMultiple" (λ r, [AttrInt "keys.count" (Z.of_nat (length keys)); AttrInt "result.count" (Z.of_nat (size r.1));
                                 AttrInt "failed.count" (Z.of_nat (size r.2))]) (svc_GetMultiple next keys);
  svc_List filters :=
    measured meter "List" (λ r, [AttrInt "items.count" (Z.of_nat (length (default [] r.1)))]) (svc_List next filters);
  svc_Remove keys := measured meter "Remove" (λ _, [AttrInt "keys.count" (Z.of_nat (length keys))]) (svc_Remove next keys);
  svc_Clear := measured meter "Clear" (λ _, []) (svc_Clear next);
  svc_Capacity := svc_Capacity next;
  svc_Allocation := svc_Allocation next;
  svc_Count := svc_Count next;
  svc_TriggerEviction := svc_TriggerEviction next;
  svc_Stop := svc_Stop next;
  svc_GetStats := svc_GetStats next |}.

(** ** Tracing *)

(** [startSpan], the call, and the deferred [End]; [result] is what is recorded on the
    span when the call returns. *)
Definition spanned {X A} (k : sink) (commonAttrs : list attr) (name : string) (attrs : list attr) (result : A → list event)
    (call : X * Sinks → (X * Sinks) * outcome A) :=
  let start := SpanStart name [] :: (if decide (length commonAttrs = 0) then [] else [SpanAttrs commonAttrs])
                 ++ (if decide (length attrs = 0) then [] else [SpanAttrs attrs]) in
  observed k start (λ a, result a ++ [SpanEnd]) [SpanEnd] call.
Definition recordErr (err : option error) : list event := match err with Some e => [SpanError e] | None => [] end.
Definition milliseconds (d : Z) : Z := Z.quot d 1000000.

Definition NewOTelTracingMiddleware {X} (tracer : sink) (commonAttrs : list attr) (next : Service (X * Sinks))
    : Service (X * Sinks) := {|
  svc_Get key :=
    spanned tracer commonAttrs "hypercache.Get" [AttrInt "key.len" (slen key)] (λ r, [SpanAttrs [AttrBool "hit" (isSome r)]])
      (svc_Get next key);
  svc_Set key value expiration :=
    spanned tracer commonAttrs "hypercache.Set" [AttrInt "key.len" (slen key); AttrInt "expiration.ms" (milliseconds expiration)]
      recordErr (svc_Set next key value expiration);
  svc_GetOrSet key value expiration :=
    spanned tracer commonAttrs "hypercache.GetOrSet" [AttrInt "key.len" (slen key); AttrInt "expiration.ms" (milliseconds expiration)]
      (λ r, match r with Err e => [SpanError e] | Ok _ => [] end) (svc_GetOrSet next key value expiration);
  svc_GetWithInfo key :=
    spanned tracer commonAttrs "hypercache.GetWithInfo" [AttrInt "key.len" (slen key)]
      (λ r, [SpanAttrs [AttrBool "hit" (isSome r)]]) (svc_GetWithInfo next key);
  svc_GetMultiple keys :=
    spanned tracer commonAttrs "hypercache.GetMultiple" [AttrInt "keys.count" (Z.of_nat (length keys))]
      (λ r, [SpanAttrs [AttrInt "result.count" (Z.of_nat (size r.1)); AttrInt "failed.count" (Z.of_nat (size r.2))]])
      (svc_GetMultiple next keys);
  svc_List filters :=
    spanned tracer commonAttrs "hypercache.List" []
      (λ r, recordErr r.2 ++ match r.1 with Some items => [SpanAttrs [AttrInt "items.count" (Z.of_nat (length items))]] | None => [] end)
      (svc_List next filters);
  svc_Remove keys :=
    spanned tracer commonAttrs "hypercache.Remove" [AttrInt "keys.count" (Z.of_nat (length keys))] recordErr (svc_Remove next keys);
  svc_Clear := spanned tracer commonAttrs "hypercache.Clear" [] recordErr (svc_Clear next);
  svc_Capacity := svc_Capacity next;
  svc_Allocation := svc_Allocation next;
  svc_Count := svc_Count next;
  svc_TriggerEviction := spanned tracer commonAttrs "hypercache.TriggerEviction" [] (λ _, []) (svc_TriggerEviction next);
  svc_Stop := spanned tracer commonAttrs "hypercache.Stop" [] (λ _, []) (svc_Stop next);
  svc_GetStats := svc_GetStats next |}.

(** [WithCommonAttributes], given several times. *)
Definition WithCommonAttributes (attributes commonAttrs : list attr) : list attr := commonAttrs ++ attributes.

(** ** Stacks of middlewares *)

Inductive Middleware :=
  | MLogging (logger : nat) | MStats (statsCollector : nat) | MMetrics (meter : nat)
  | MTracing (tracer : nat) (commonAttrs : list attr).
Definition sink_of (m : Middleware) : sink :=
  match m with MStats c => Collector c | MLogging n | MMetrics n | MTracing n _ => Output n end.

Definition wrap {X} (svc : Service (X * Sinks)) (m : Middleware) : Service (X * Sinks) :=
  match m with
  | MLogging _ => NewLoggingMiddleware (sink_of m) svc
  | MStats _ => NewStatsCollectorMiddleware (sink_of m) svc
  | MMetrics _ => NewOTelMetricsMiddleware (sink_of m) svc
  | MTracing _ commonAttrs => NewOTelTracingMiddleware (sink_of m) commonAttrs svc
  end.

(** [for _, m := range mw { svc = m(svc) }] *)
Definition ApplyMiddleware {X} (svc : Service (X * Sinks)) (mw : list Middleware) : Service (X * Sinks) :=
  foldl wrap svc mw.

(** ** Calls *)

Inductive call :=
  | CGet (key : string) | CSet (key : string) (value : any) (expiration : Z)
  | CGetOrSet (key : string) (value : any) (expiration : Z) | CGetWithInfo (key : string)
  | CGetMultiple (keys : list string) | CList (filters : list IFilter) | CRemove (keys : list string)
  | CClear | CCapacity | CAllocation | CCount | CTriggerEviction | CStop | CGetStats.

Inductive answer :=
  | ANothing | AValue (v : option any) | AError (e : option error) | AGot (r : result any) | AInfo (it : option Item)
  | AMany (hits : gmap string any) (failed : gmap string error) | AItems (items : option (list Item)) (e : option error)
  | ANumber (z : Z) | AStats (s : Stats).

Definition mapOut {X A} (f : A → answer) (r : X * outcome A) : X * outcome answer :=
  (r.1, match r.2 with Return a => Return (f a) | Panic => Panic end).

Definition invoke {X} (svc : Service X) (c : call) (x : X) : X * outcome answer :=
  match c with
  | CGet key => mapOut AValue (svc_Get svc key x)
  | CSet key value expiration => mapOut AError (svc_Set svc key value expiration x)
  | CGetOrSet key value expiration => mapOut AGot (svc_GetOrSet svc key value expiration x)
  | CGetWithInfo key => mapOut AInfo (svc_GetWithInfo svc key x)
  | CGetMultiple keys => mapOut (λ r, AMany r.1 r.2) (svc_GetMultiple svc keys x)
  | CList filters => mapOut (λ r, AItems r.1 r.2) (svc_List svc filters x)
  | CRemove keys => mapOut AError (svc_Remove svc keys x)
  | CClear => mapOut AError (svc_Clear svc x)
  | CCapacity => mapOut ANumber (svc_Capacity svc x)
  | CAllocation => mapOut ANumber (svc_Allocation svc x)
  | CCount => mapOut ANumber (svc_Count svc x)
  | CTriggerEviction => mapOut (λ _, ANothing) (svc_TriggerEviction svc x)
  | CStop => mapOut AError (svc_Stop svc x)
  | CGetStats => mapOut AStats (svc_GetStats svc x)
  end.

(** The callers recover from panics. *)
Fixpoint invokeAll {X} (svc : Service X) (cs : list call) (x : X) : X * list (outcome answer) :=
  match cs with
  | [] => (x, [])
  | c :: cs => let '(x, a) := invoke svc c x in let '(x, l) := invokeAll svc cs x in (x, a :: l)
  end.

(** ** What the callers see *)

Definition quiet (c : call) : bool := match c with CCapacity | CAllocation | CCount => true | _ => false end.
Definition stats_call (c : call) : bool := match c with CGetStats => true | _ => quiet c end.

(** The counter that the statistics middleware keeps for a call. *)
Definition stat_name (c : call) : string :=
  match c with
  | CGet _ => "hypercache_get" | CSet _ _ _ => "hypercache_set" | CGetOrSet _ _ _ => "hypercache_get_or_set"
  | CGetWithInfo _ => "hypercache_get_with_info" | CGetMultiple _ => "hypercache_get_multiple"
  | CList _ => "hypercache_list" | CRemove _ => "hypercache_remove" | CClear => "hypercache_clear"
  | CTriggerEviction => "hypercache_trigger_eviction" | CStop => "hypercache_stop"
  | CCapacity | CAllocation | CCount | CGetStats => ""
  end.

(** What a stack adds to the collector [c0] when it passes a call on. *)
Definition extra (c0 : nat) (mw : list Middleware) (c : call) : list event :=
  if stats_call c then [] else
  mw ≫= λ m, match m with
             | MStats c1 => if decide (c1 = c0)
                 then [Timing (String.append (stat_name c) "_duration"); Incr (String.append (stat_name c) "_count") 1] else []
             | _ => []
             end.

(** A service that reports from the collector [c0]: GetStats shows what the collector has
    recorded, and no other call looks at a sink, though it may record in the collector. *)
Record reports_from {X} (c0 : nat) (statsOf : list event → Stats) (svc : Service (X * Sinks)) : Prop := {
  rf_stats : ∀ x h, ∃ h', invoke svc CGetStats (x, h) = ((x, h'), Return (AStats (statsOf (h (Collector c0))))) ∧
    h' (Collector c0) = h (Collector c0);
  rf_calls : ∀ c x, c ≠ CGetStats → ∃ x' own a, ∀ h, ∃ h', invoke svc c (x, h) = ((x', h'), a) ∧
    h' (Collector c0) = h (Collector c0) ++ own }.

(** What a call does that looks at no sink: the state after it, what it records in
    [c0] and its answer. *)
Definition effect {X A} (c0 : nat) (g : X * Sinks → (X * Sinks) * outcome A) x x' own a : Prop :=
  ∀ h, ∃ h', g (x, h) = ((x', h'), a) ∧ h' (Collector c0) = h (Collector c0) ++ own.

Lemma record_other k k' evs h : k' ≠ k → record k evs h k' = h k'.
Proof. intros. unfold record. by rewrite decide_False. Qed.
Lemma record_same k evs h : record k evs h k = h k ++ evs.
Proof. unfold record. by rewrite decide_True. Qed.

Lemma mapOut_observed {X A} (f : A → answer) k before ret panic (g : X * Sinks → (X * Sinks) * outcome A) x x' h h' a :
  mapOut f (g (x, record k before h)) = ((x', h'), a) →
  ∃ evs, mapOut f (observed k before ret panic g (x, h)) = ((x', record k evs h'), a) ∧
    (∀ l, (∀ b, ret b = l) → panic = l → evs = l).
Proof.
  unfold mapOut, observed. cbn [fst snd]. destruct (g _) as [[x1 h1] b]. cbn [fst snd]. intros [= -> -> <-].
  eexists. split; [done|]. intros l Hr Hp. by destruct b.
Qed.

Lemma effect_output {X A} (f : A → answer) c0 n before ret panic (g : X * Sinks → (X * Sinks) * outcome A) x x' own a :
  effect c0 (λ s, mapOut f (g s)) x x' own a →
  effect c0 (λ s, mapOut f (observed (Output n) before ret panic g s)) x x' own a.
Proof.
  intros He h. destruct (He (record (Output n) before h)) as (h' & E & Eh).
  destruct (mapOut_observed f (Output n) before ret panic g _ _ _ _ _ E) as (evs & -> & _).
  eexists. split; [done|]. by rewrite record_other, Eh, record_other.
Qed.

Lemma effect_collected {X A} (f : A → answer) c0 c1 stat (g : X * Sinks → (X * Sinks) * outcome A) x x' own a :
  effect c0 (λ s, mapOut f (g s)) x x' own a →
  effect c0 (λ s, mapOut f (collected (Collector c1) stat g s)) x x'
    (own ++ if decide (c1 = c0) then [Timing (String.append stat "_duration"); Incr (String.append stat "_count") 1] else []) a.
Proof.
  intros He h. destruct (He (record (Collector c1) [] h)) as (h' & E & Eh).
  set (evs := [Timing _; Incr _ _]). unfold collected. fold evs.
  destruct (mapOut_observed f (Collector c1) [] (λ _, evs) evs g _ _ _ _ _ E) as (l & -> & Hl).
  rewrite (Hl evs (λ _, eq_refl) eq_refl). eexists. split; [done|].
  case_decide as Ec.
  - subst c1. rewrite record_same, Eh, record_same. by rewrite app_nil_r, <- app_assoc.
  - rewrite record_other, Eh, record_other by congruence. by rewrite app_nil_r.
Qed.

Lemma wrap_effect {X} c0 m (svc : Service (X * Sinks)) c x x' own a :
  effect c0 (invoke svc c) x x' own a → effect c0 (invoke (wrap svc m) c) x x' (own ++ extra c0 [m] c) a.
Proof.
  intros He. destruct m as [n|c1|n|n attrs].
  2:{ unfold extra. cbn [mbind list_bind]. rewrite app_nil_r.
      destruct c; cbn [stats_call quiet]; first [exact (effect_collected _ c0 c1 _ _ _ _ _ _ He)|by rewrite app_nil_r]. }
  all: replace (extra c0 [_] c) with (@nil event) by (unfold extra; by destruct (stats_call c)).
  all: rewrite app_nil_r; destruct c; first [by apply effect_output|exact He].
Qed.

Lemma extra_cons c0 m mw c : extra c0 (m :: mw) c = extra c0 [m] c ++ extra c0 mw c.
Proof. unfold extra. destruct (stats_call c); [done|]. by rewrite !bind_cons, app_nil_r. Qed.

Lemma stack_effect {X} c0 mw : ∀ (svc : Service (X * Sinks)) c x x' own a,
  effect c0 (invoke svc c) x x' own a →
  effect c0 (invoke (ApplyMiddleware svc mw) c) x x' (own ++ extra c0 mw c) a.
Proof.
  induction mw as [|m mw IH]; intros svc c x x' own a He.
  - replace (extra c0 [] c) with (@nil event) by (unfold extra; by destruct (stats_call c)). by rewrite app_nil_r.
  - rewrite extra_cons, app_assoc. apply IH. by apply wrap_effect.
Qed.

(** GetStats passes the collector by. *)
Lemma stack_stats {X} c0 statsOf mw : ∀ (svc : Service (X * Sinks)),
  (∀ x h, ∃ h', invoke svc CGetStats (x, h) = ((x, h'), Return (AStats (statsOf (h (Collector c0))))) ∧
    h' (Collector c0) = h (Collector c0)) →
  ∀ x h, ∃ h', invoke (ApplyMiddleware svc mw) CGetStats (x, h) = ((x, h'), Return (AStats (statsOf (h (Collector c0))))) ∧
    h' (Collector c0) = h (Collector c0).
Proof.
  induction mw as [|m mw IH]; intros svc Hs; [done|]. apply IH. intros x h. destruct m as [n|c1|n|n attrs]; try apply Hs.
  destruct (Hs x (record (Output n) [LogCalled "GetStats" ShNothing] h)) as (h' & E & Eh).
  rewrite record_other in E, Eh by done.
  destruct (mapOut_observed AStats (Output n) [LogCalled "GetStats" ShNothing] (λ _, [LogTook "GetStats"])
    [LogTook "GetStats"] (svc_GetStats svc) _ _ _ _ _ E) as (evs & E' & _).
  eexists. split; [exact E'|]. by rewrite record_other.
Qed.

(** What a GetStats at place [i] of a sequence shows, when the calls before it recorded
    [recs]. *)
Definition shows_stats (statsOf : list event → Stats) (l0 : list event) (recs : list (list event)) (cs : list call)
    (as_ : list (outcome answer)) : Prop :=
  ∀ i, cs !! i = Some CGetStats → as_ !! i = Some (Return (AStats (statsOf (l0 ++ concat (take i recs))))).


(** ** What is recorded *)

Definition unmeasured (c : call) : bool := match c with CTriggerEviction | CStop => true | _ => stats_call c end.
Definition returned (a : outcome answer) : bool := match a with Return _ => true | Panic => false end.

(** The errors that a span shows: that of [Stop] is not among them. *)
Definition shown_error (c : call) (a : outcome answer) : bool :=
  match c, a with
  | CStop, _ => false
  | _, Return (AError (Some _)) | _, Return (AGot (Err _)) | _, Return (AItems _ (Some _)) => true
  | _, _ => false
  end.

Definition tally (p : event → bool) (log : list event) : nat := length (filter (λ e, p e = true) log).
Definition isLine (e : event) : bool := match e with LogCalled _ _ | LogTook _ => true | _ => false end.
Definition isIncr (e : event) : bool := match e with Incr _ 1 => true | _ => false end.
Definition isMeasured (e : event) : bool := match e with Measured _ _ => true | _ => false end.
Definition isStart (e : event) : bool := match e with SpanStart _ _ => true | _ => false end.
Definition isEnd (e : event) : bool := match e with SpanEnd => true | _ => false end.
Definition isError (e : event) : bool := match e with SpanError _ => true | _ => false end.

Definition b2n (b : bool) : nat := if b then 1 else 0.

(** What one call adds to the log of a middleware. *)
Definition adds (m : Middleware) (c : call) (a : outcome answer) (p : event → bool) : nat :=
  match m with
  | MLogging _ => if quiet c then 0 else 2 * b2n (p (LogTook ""))
  | MStats _ => if stats_call c then 0 else b2n (p (Incr "" 1))
  | MMetrics _ => if unmeasured c then 0 else b2n (returned a && p (Measured "" []))
  | MTracing _ _ =>
      if stats_call c then 0
      else b2n (p (SpanStart "" [])) + b2n (p SpanEnd) + b2n (shown_error c a && p (SpanError ErrDraining))
  end.
Definition countable (p : event → bool) : Prop :=
  p = isLine ∨ p = isIncr ∨ p = isMeasured ∨ p = isStart ∨ p = isEnd ∨ p = isError.

Lemma tally_app p l1 l2 : tally p (l1 ++ l2) = tally p l1 + tally p l2.
Proof. unfold tally. by rewrite filter_app, length_app. Qed.

Lemma tally_cons p e l : tally p (e :: l) = b2n (p e) + tally p l.
Proof. unfold tally. rewrite filter_cons. case_decide as E; [by rewrite E|]. by destruct (p e). Qed.

Lemma tally_attrs p (l : list attr) : countable p → tally p (if decide (length l = 0) then [] else [SpanAttrs l]) = 0.
Proof. intros Hp. case_decide; [done|]. destruct Hp as [->|[->|[->|[->|[->| ->]]]]]; done. Qed.

Lemma tally_observed {X A} (f : A → answer) k before ret panic (g : X * Sinks → (X * Sinks) * outcome A) x h p
    (n : outcome answer → nat) :
  (∀ x h, (g (x, h)).1.2 k = h k) →
  (∀ a, tally p before + tally p (ret a) = n (Return (f a))) → tally p before + tally p panic = n Panic →
  let r := mapOut f (observed k before ret panic g (x, h)) in tally p (r.1.2 k) = tally p (h k) + n r.2.
Proof.
  intros Hg Hr Hp. unfold mapOut, observed. cbn [fst snd]. specialize (Hg x (record k before h)).
  destruct (g _) as [[x' h'] [a|]]; cbn [fst snd] in *; rewrite record_same, Hg, record_same, !tally_app.
  - by rewrite <- Hr, <- Nat.add_assoc.
  - by rewrite <- Hp, <- Nat.add_assoc.
Qed.

(** The start of a span. *)
Lemma tally_start p name common (attrs : list attr) : countable p →
  tally p (SpanStart name [] :: (if decide (length common = 0) then [] else [SpanAttrs common])
                 ++ (if decide (length attrs = 0) then [] else [SpanAttrs attrs])) = b2n (p (SpanStart "" [])).
Proof.
  intros Hp. rewrite tally_cons, !tally_app, !tally_attrs by done.
  destruct Hp as [->|[->|[->|[->|[->| ->]]]]]; done.
Qed.

(** The service writes nothing to the middleware's sink. *)
Definition leaves {X} (k : sink) (svc : Service (X * Sinks)) : Prop :=
  ∀ c x h, (invoke svc c (x, h)).1.2 k = h k.

Lemma tally_call {X} m (svc : Service (X * Sinks)) c x h p : countable p → leaves (sink_of m) svc →
  let r := invoke (wrap svc m) c (x, h) in
  tally p (r.1.2 (sink_of m)) = tally p (h (sink_of m)) + adds m c r.2 p.
Proof.
  intros Hp Hl. pose proof (Hl c) as Hc. destruct m as [n|n|n|n common], c;
    first [apply (tally_observed _ _ _ _ _ _ _ _ _ (λ a, adds _ _ a p)); [exact Hc|..]
          |cbn zeta; rewrite Nat.add_0_r; f_equal; apply Hc].
  all: try (rewrite tally_start by done).
  all: try intros a; destruct Hp as [->|[->|[->|[->|[->| ->]]]]]; try done.
  all: first [by destruct a | by destruct a as [[?|] [?|]]].
Qed.

(** A middleware records every call of a sequence: logging two lines, statistics one
    increment, tracing one span that starts and ends, with the error that the call
    returned unless it is that of Stop, all of them also when the call panics; metrics
    one measurement when the call returns.  Calls that only read numbers are not recorded. *)
Theorem middleware_records {X} m (svc : Service (X * Sinks)) p : countable p → leaves (sink_of m) svc → ∀ cs x h,
  let r := invokeAll (wrap svc m) cs (x, h) in
  tally p (r.1.2 (sink_of m)) = tally p (h (sink_of m)) + sum_list_with (λ '(c, a), adds m c a p) (zip cs r.2).
Proof.
  intros Hp Hl. induction cs as [|c cs IH]; intros x h; [cbn -[tally]; lia|]. cbn [invokeAll].
  pose proof (tally_call m svc c x h p Hp Hl) as E. destruct (invoke (wrap svc m) c (x, h)) as [[x1 h1] a].
  specialize (IH x1 h1). destruct (invokeAll (wrap svc m) cs (x1, h1)) as [[x2 h2] l].
  cbn [fst snd zip zip_with sum_list_with] in *. lia.
Qed.

Corollary spans_end {X} n common (svc : Service (X * Sinks)) cs x :
  leaves (Output n) svc →
  let log := (invokeAll (wrap svc (MTracing n common)) cs (x, λ _, [])).1.2 (Output n) in tally isStart log = tally isEnd log.
Proof.
  intros Hl. cbn zeta.
  rewrite !(middleware_records (MTracing n common) svc) by (done || (unfold countable; auto 10)). f_equal.
Qed.

(** ** The typed wrapper *)

(** The type parameter, with its type assertion. *)
Section Typed.
Context {V X : Type} (inject : V → any) (assert : any → option V) (zero : V).

Definition Typed : Type := Service X.
Definition NewTyped (hc : Service X) : Typed := hc.
Definition Underlying (t : Typed) : Service X := t.

Definition mapRet {A B} (f : A → B) (r : X * outcome A) : X * outcome B :=
  (r.1, match r.2 with Return a => Return (f a) | Panic => Panic end).

Definition Typed_Set (t : Typed) (key : string) (value : V) (expiration : Z) : X → X * outcome (option error) :=
  svc_Set t key (inject value) expiration.
Definition Typed_Get (t : Typed) (key : string) (x : X) : X * outcome (V * bool) :=
  mapRet (λ raw, match raw with
                 | None => (zero, false)
                 | Some raw => match assert raw with None => (zero, false) | Some v => (v, true) end
                 end) (svc_Get t key x).
Definition GetTyped (t : Typed) (key : string) (x : X) : X * outcome (V * option error) :=
  mapRet (λ raw, match raw with
                 | None => (zero, Some ErrKeyNotFound)
                 | Some raw => match assert raw with None => (zero, Some ErrTypeMismatch) | Some v => (v, None) end
                 end) (svc_Get t key x).
Definition Typed_GetWithInfo (t : Typed) (key : string) (x : X) : X * outcome (option Item * V * bool) :=
  mapRet (λ item, match item with
                  | None => (None, zero, false)
                  | Some item => match assert (Value item) with None => (None, zero, false) | Some v => (Some item, v, true) end
                  end) (svc_GetWithInfo t key x).
Definition Typed_GetOrSet (t : Typed) (key : string) (value : V) (expiration : Z) (x : X) : X * outcome (V * option error) :=
  mapRet (λ r, match r with
               | Err err => (zero, Some err)
               | Ok raw => match assert raw with None => (zero, Some ErrTypeMismatch) | Some v => (v, None) end
               end) (svc_GetOrSet t key (inject value) expiration x).

(** The loop over the hits; the errors of the cache are added to. *)
Definition splitHits (rawHits : gmap string any) (errs : gmap string error) : gmap string V * gmap string error :=
  map_fold (λ k raw '(hits, errs),
      match assert raw with None => (hits, <[k := ErrTypeMismatch]> errs) | Some v => (<[k := v]> hits, errs) end)
    (∅, errs) rawHits.
Definition Typed_GetMultiple (t : Typed) (keys : list string) (x : X) : X * outcome (gmap string V * gmap string error) :=
  mapRet (λ r, splitHits r.1 r.2) (svc_GetMultiple t keys x).
Definition Typed_Remove (t : Typed) (keys : list string) : X → X * outcome (option error) := svc_Remove t keys.
Definition Typed_Clear (t : Typed) : X → X * outcome (option error) := svc_Clear t.

Lemma splitHits_spec rawHits errs k :
  (splitHits rawHits errs).1 !! k = rawHits !! k ≫= assert ∧
  (splitHits rawHits errs).2 !! k =
    match rawHits !! k with
    | Some raw => match assert raw with None => Some ErrTypeMismatch | Some _ => errs !! k end
    | None => errs !! k
    end.
Proof.
  unfold splitHits. apply (map_fold_weak_ind (λ r (m : gmap string any),
    r.1 !! k = m !! k ≫= assert ∧
    r.2 !! k = match m !! k with
               | Some raw => match assert raw with None => Some ErrTypeMismatch | Some _ => errs !! k end
               | None => errs !! k
               end)); [by rewrite lookup_empty|].
  intros k' raw m [hits es] Hk' Hm. cbn [fst snd] in *. destruct (decide (k = k')) as [->|Hne].
  - rewrite Hk' in Hm. cbn in Hm. rewrite lookup_insert_eq. cbn [mbind option_bind].
    destruct (assert raw) as [v|] eqn:E; cbn [fst snd]; rewrite ?lookup_insert_eq; tauto.
  - rewrite lookup_insert_ne by done. destruct (assert raw); cbn [fst snd]; by rewrite ?lookup_insert_ne by done.
Qed.

(** The typed wrapper never hands out a value of another type and never changes the cache
    beyond what the cache's own calls do.  A read of a value of another type is a miss
    for Get and GetWithInfo and ErrTypeMismatch for GetTyped, GetOrSet and GetMultiple;
    of the keys of a multiple read each is in exactly the map that its value decides. *)
Theorem typed_reads (t : Typed) key value expiration keys x :
  (∀ v, assert (inject v) = Some v) →
  (Typed_Get t key x).1 = (svc_Get t key x).1 ∧
  (GetTyped t key x).1 = (svc_Get t key x).1 ∧
  (Typed_GetOrSet t key value expiration x).1 = (svc_GetOrSet t key (inject value) expiration x).1 ∧
  (∀ v, (Typed_Get t key x).2 = Return (v, true) ↔ (GetTyped t key x).2 = Return (v, None)) ∧
  ((GetTyped t key x).2 = Return (zero, Some ErrTypeMismatch) ↔
     ∃ raw, (svc_Get t key x).2 = Return (Some raw) ∧ assert raw = None) ∧
  ((svc_Get t key x).2 = Return (Some (inject value)) → (Typed_Get t key x).2 = Return (value, true)) ∧
  (∀ raw errs, (svc_GetMultiple t keys x).2 = Return (raw, errs) →
     ∃ hits errs', (Typed_GetMultiple t keys x).2 = Return (hits, errs') ∧
       ∀ k, hits !! k = raw !! k ≫= assert ∧
         errs' !! k = match raw !! k with
                      | Some r => match assert r with None => Some ErrTypeMismatch | Some _ => errs !! k end
                      | None => errs !! k
                      end).
Proof.
  intros Hai. unfold Typed_Get, GetTyped, Typed_GetOrSet, Typed_GetMultiple, mapRet. cbn [fst snd].
  split_and!; try done.
  - intros v. destruct (svc_Get t key x).2 as [[raw|]|]; [|naive_solver..]. destruct (assert raw); naive_solver.
  - destruct (svc_Get t key x).2 as [[raw|]|]; [|naive_solver..]. destruct (assert raw) eqn:E; naive_solver.
  - intros ->. by rewrite Hai.
  - intros raw errs ->. cbn [fst snd]. destruct (splitHits raw errs) as [hits errs'] eqn:E. exists hits, errs'. split; [done|].
    intros k. pose proof (splitHits_spec raw errs k) as Hk. by rewrite E in Hk.
Qed.
End Typed.

End Service.

(** ** A service that counts, sometimes panics and reports from the collector 0 *)

(** A call that leaves the sinks alone. *)
Definition plainly {X A} (g : X → X * outcome A) (s : X * Sinks) : (X * Sinks) * outcome A :=
  (((g s.1).1, s.2), (g s.1).2).

(** It counts its writes in its collector; its statistics are the number of records. *)
Definition sampleService : Service (Stats := nat) (nat * Sinks) := {|
  svc_Get key := plainly (λ n, if decide (key = "bad"%string) then (n, Panic) else (S n, Return (Some (AString key))));
  svc_Set key value expiration s := ((S s.1, record (Collector 0) [Incr "writes" 1] s.2), Return (Some ErrInvalidKey));
  svc_GetOrSet key value expiration := plainly (λ n, (n, Return (Ok value)));
  svc_GetWithInfo key := plainly (λ n, (n, Return None));
  svc_GetMultiple keys := plainly (λ n, (n, Return (∅, ∅)));
  svc_List filters := plainly (λ n, (n, Return (None, None)));
  svc_Remove keys := plainly (λ n, (n, Return None));
  svc_Clear := plainly (λ n, (0, Return None));
  svc_Capacity := plainly (λ n, (n, Return 0%Z));
  svc_Allocation := plainly (λ n, (n, Return 0%Z));
  svc_Count := plainly (λ n, (n, Return (Z.of_nat n)));
  svc_TriggerEviction := plainly (λ n, (n, Return tt));
  svc_Stop := plainly (λ n, (n, Return (Some ErrDraining)));
  svc_GetStats s := (s, Return (length (s.2 (Collector 0)))) |}.

Lemma sampleService_reports : reports_from 0 length sampleService.
Proof.
  split; [intros x h; by exists h|].
  intros c x Hc. exists (invoke sampleService c (x, λ _, [])).1.1,
    (match c with CSet _ _ _ => [Incr "writes" 1] | _ => [] end), (invoke sampleService c (x, λ _, [])).2.
  intros h. exists (invoke sampleService c (x, h)).1.2. destruct c; try done;
    (split; [reflexivity|]; cbn; by rewrite ?app_nil_r, ?record_same).
Qed.


(** A panic is logged, counted and ends its span, but is not measured; the error of Stop is
    not recorded on its span. *)
Example sample_records :
  (invokeAll (wrap sampleService (MMetrics 0)) [CGet "bad"; CStop] (0, λ _, [])).1.2 (Output 0) = [] ∧
  (invokeAll (wrap sampleService (MTracing 0 [])) [CGet "bad"; CStop] (0, λ _, [])).1.2 (Output 0) =
    [SpanStart "hypercache.Get" []; SpanAttrs [AttrInt "key.len" 3]; SpanEnd; SpanStart "hypercache.Stop" []; SpanEnd] ∧
  (invokeAll (wrap sampleService (MStats 0)) [CGet "bad"; CCount] (0, λ _, [])).1.2 (Collector 0) =
    [Timing "hypercache_get_duration"; Incr "hypercache_get_count" 1].
Proof. by vm_compute. Qed.
