(* ===== verification/DistBackend.v ===== *)
(** * The distributed backend as a backend (pkg/backend/dist_memory.go: Count, List, Clear,
      Touch, the local helpers; resolveMissingKeys)

    The operations of [IBackend] that do not go through the owners of a key: they work on
    the node itself.  Beside them, how anti-entropy finds the keys that only the peer has
    when the transport is HTTP.  Parameter: [enum], the order in which a shard's items are
    iterated.

    The theorems: what each of them does to the node; a clear that the rest of the cluster
    undoes; which of the peer's keys a sync over HTTP finds. *)

From stdpp Require Import base gmap strings list fin_maps sets.
From Stdlib Require Import ZArith Lia.
From S2P Require Import Prelude Item Ring Hints DistNode Backend Merkle Transport Cluster.
Local Open Scope nat_scope.

(** ** The code *)

Section Code.
Context (enum : gmap string Item → list (string * Item)).

Definition Count (dm : DistMemory) : nat := foldl (λ total s, total + size (d_items s)) 0 (shards dm).

(** The filters are not applied. *)
Definition List_ (filters : list IFilter) (dm : DistMemory) : result (list Item) :=
  Ok (concat ((λ s, snd <$> enum (d_items s)) <$> shards dm)).

(** [late]: the context was done first; the goroutine clears the shards all the same. *)
Definition Clear (late : bool) (dm : DistMemory) : DistMemory * option error :=
  (with_shards ((λ s, MkDShard ∅ (tombs s) (originalPrimary s) (originalOwners s)) <$> shards dm) dm, late_error late).

Definition LocalContains (key : string) (dm : DistMemory) : option bool :=
  it ← getItem key dm; Some (bool_decide (is_Some it)).

Definition with_items (m : gmap string Item) (s : distShard) : distShard :=
  MkDShard m (tombs s) (originalPrimary s) (originalOwners s).

Definition Touch (now : Z) (key : string) (dm : DistMemory) : option (DistMemory * bool) :=
  '(i, s) ← shardFor key dm;
  match d_items s !! key with
  | None => Some (dm, false)
  | Some it => Some (setShard i (with_items (<[key := Item.Touch now it]> (d_items s)) s) dm, true)
  end.

Definition DebugDropLocal (key : string) (dm : DistMemory) : option DistMemory :=
  '(i, s) ← shardFor key dm; Some (setShard i (with_items (delete key (d_items s)) s) dm).

Definition DebugInject (it : option Item) (dm : DistMemory) : option DistMemory :=
  match it with
  | None => Some dm
  | Some it =>
      '(i, s) ← shardFor (Key it) dm;
      Some (setShard i (MkDShard (<[Key it := it]> (d_items s)) (delete (Key it) (tombs s)) (originalPrimary s)
                          (originalOwners s)) dm)
  end.

Definition IsOwner (sum64 : string → Z) (key : string) (dm : DistMemory) : option bool := ownsKeyInternal sum64 key dm.
Definition DebugOwners (sum64 : string → Z) (key : string) (dm : DistMemory) : option (list string) :=
  match dring dm with None => Some [] | Some r => Lookup sum64 key r end.

(** [resolveMissingKeys]: [missing] is what [enumerateRemoteOnlyKeys] found, which is
    nothing unless the transport is the in-process one; [listing] is the answer of the
    HTTP transport's [ListKeys], if that is the transport. *)
Definition resolveMissingKeys (missing : gset string) (listing : option (result (list string))) (listKeysMax : Z)
    (entries : list merkleKV) : gset string :=
  if decide (size missing ≠ 0) then missing
  else
    match listing with
    | None | Some (Err _) | Some (Ok []) => missing
    | Some (Ok keys) =>
        let keys := if ((0 <? listKeysMax) && (listKeysMax <? Z.of_nat (length keys)))%Z
                    then take (Z.to_nat listKeysMax) keys else keys in
        foldl (λ mset e, mset ∖ {[kv_k e]}) (list_to_set keys) entries
    end.

End Code.

(** [Clear] on a node of a cluster. *)
Definition clearAt (self : string) (late : bool) (c : Cluster) : option (Cluster * option error) :=
  s ← servers c !! self;
  let '(dm, err) := Clear late (node s) in Some (putNode self dm c, err).

(** ** The node *)

Section Node.
Context (enum : gmap string Item → list (string * Item)).
Hypothesis enum_perm : ∀ m, enum m ≡ₚ map_to_list m.

Lemma Count_ok dm : node_wf dm → Count dm = size (items_of dm).
Proof.
  intros Hwf. unfold items_of. rewrite (partitioned_size _ _ (nw_items _ Hwf)). unfold Count.
  assert (∀ l n, foldl (λ total s, total + size (d_items s)) n l = n + sum_list (size <$> (d_items <$> l))) as ->; [|done].
  induction l as [|s l IH]; intros n; cbn; [lia|]. rewrite IH. cbn. lia.
Qed.

Lemma List_node_ok fs dm : node_wf dm → ∃ l, List_ enum fs dm = Ok l ∧ l ≡ₚ (map_to_list (items_of dm)).*2.
Proof.
  intros Hwf. eexists. split; [done|]. unfold items_of. rewrite (partitioned_to_list _ _ (nw_items _ Hwf)).
  induction (shards dm) as [|s l IH]; [done|]. cbn. rewrite fmap_app, <- IH. by rewrite enum_perm.
Qed.

Lemma union_empties {A B} (l : list A) : ⋃ ((λ _, ∅ : gmap string B) <$> l) = (∅ : gmap string B).
Proof.
  induction l as [|x l IH]; [done|]. rewrite fmap_cons.
  change (∅ ∪ ⋃ ((λ _, ∅ : gmap string B) <$> l) = (∅ : gmap string B)). rewrite IH. apply map_empty_union.
Qed.

Lemma Clear_node_ok late dm : node_wf dm →
  let dm' := (Clear late dm).1 in
  node_wf dm' ∧ same_node dm dm' ∧ items_of dm' = ∅ ∧ tombs_of dm' = tombs_of dm ∧
  tombVersionCounter dm' = tombVersionCounter dm.
Proof.
  intros [Hc Hl Hi Ht]. unfold Clear, items_of, tombs_of. cbn.
  rewrite <- !list_fmap_compose. split_and!; try done.
  - split; cbn; [done|by rewrite length_fmap| |].
    + intros i m k. rewrite <- list_fmap_compose, list_lookup_fmap. intros (s & _ & ->)%fmap_Some. by intros [? ?].
    + by rewrite <- list_fmap_compose.
  - apply union_empties.
Qed.

(** Changing the key's shard at the key only. *)
Lemma Touch_ok now k dm : node_wf dm →
  ∃ dm', Touch now k dm = Some (dm', bool_decide (is_Some (items_of dm !! k))) ∧ node_wf dm' ∧ same_node dm dm' ∧
    items_of dm' = alter (Item.Touch now) k (items_of dm) ∧ tombs_of dm' = tombs_of dm.
Proof.
  intros Hwf. destruct (shardFor_ok k dm Hwf) as (i & s & E & Ei & Hs & Ed & Et). unfold Touch. rewrite E. cbn. rewrite Ed.
  destruct (items_of dm !! k) as [it|] eqn:Eit.
  - destruct (setShard_ok k dm i s (with_items (<[k := Item.Touch now it]> (d_items s)) s) Hwf Ei Hs) as (Hwf' & Hi' & Ht').
    { intros k' Hk'. cbn. by rewrite lookup_insert_ne. }
    { done. }
    eexists. split; [done|]. split; [done|]. split; [done|]. split.
    + rewrite Hi'. cbn. rewrite lookup_insert_eq. apply map_eq. intros k'. destruct (decide (k' = k)) as [->|Hk'].
      * by rewrite lookup_partial_alter_eq, lookup_alter_eq, Eit.
      * by rewrite lookup_partial_alter_ne, lookup_alter_ne.
    + rewrite Ht'. cbn. rewrite Et. apply partial_alter_self.
  - exists dm. split_and!; [done|done|done| |done]. symmetry. apply map_eq. intros k'. destruct (decide (k' = k)) as [->|Hk'].
    + by rewrite lookup_alter_eq, Eit.
    + by rewrite lookup_alter_ne.
Qed.

Lemma DebugInject_ok it dm : node_wf dm →
  ∃ dm', DebugInject (Some it) dm = Some dm' ∧ node_wf dm' ∧ same_node dm dm' ∧
    items_of dm' = <[Key it := it]> (items_of dm) ∧ tombs_of dm' = delete (Key it) (tombs_of dm).
Proof.
  intros Hwf. destruct (shardFor_ok (Key it) dm Hwf) as (i & s & E & Ei & Hs & Ed & Et). unfold DebugInject. rewrite E. cbn.
  destruct (setShard_ok (Key it) dm i s (MkDShard (<[Key it := it]> (d_items s)) (delete (Key it) (tombs s)) (originalPrimary s)
                          (originalOwners s)) Hwf Ei Hs) as (Hwf' & Hi' & Ht').
  { intros k' Hk'. cbn. by rewrite lookup_insert_ne. }
  { intros k' Hk'. cbn. by rewrite lookup_delete_ne. }
  eexists. split_and!; [done|done|done| |].
  - rewrite Hi'. cbn. by rewrite lookup_insert_eq.
  - rewrite Ht'. cbn. by rewrite lookup_delete_eq.
Qed.

Lemma DebugDropLocal_ok k dm : node_wf dm →
  ∃ dm', DebugDropLocal k dm = Some dm' ∧ node_wf dm' ∧ same_node dm dm' ∧
    items_of dm' = delete k (items_of dm) ∧ tombs_of dm' = tombs_of dm.
Proof.
  intros Hwf. destruct (shardFor_ok k dm Hwf) as (i & s & E & Ei & Hs & Ed & Et). unfold DebugDropLocal. rewrite E. cbn.
  destruct (setShard_ok k dm i s (with_items (delete k (d_items s)) s) Hwf Ei Hs) as (Hwf' & Hi' & Ht').
  { intros k' Hk'. cbn. by rewrite lookup_delete_ne. }
  { done. }
  eexists. split_and!; [done|done|done| |].
  - rewrite Hi'. cbn. by rewrite lookup_delete_eq.
  - rewrite Ht'. cbn. rewrite Et. apply partial_alter_self.
Qed.

Lemma LocalContains_ok k dm : node_wf dm → LocalContains k dm = Some (bool_decide (is_Some (items_of dm !! k))).
Proof.
  intros Hwf. unfold LocalContains, getItem. destruct (shardFor_ok k dm Hwf) as (i & s & -> & _ & _ & Ed & _). cbn. by rewrite Ed.
Qed.

End Node.

(** ** Clearing a node of a cluster *)

Section ClusterFacts.
Context (sum64 : string → Z) (r : Ring).

Lemma clearAt_ok self late c s : cluster_wf r c → servers c !! self = Some s →
  ∃ c', clearAt self late c = Some (c', late_error late) ∧ cluster_wf r c' ∧ frame c c' ∧
    ∀ id k, holds c' id k = if decide (id = self) then None else holds c id k.
Proof.
  intros Hwf Hs. unfold clearAt. rewrite Hs. cbn [mbind option_bind]. destruct (Hwf _ _ Hs) as [Hn Hid Hr Hk].
  destruct (Clear_node_ok late (node s) Hn) as (Hn' & (S1 & S2 & S3 & _) & Ei & _ & _).
  destruct (Clear late (node s)) as [dm err] eqn:E. assert (err = late_error late) as -> by (by injection E).
  cbn [fst] in *. destruct (putNode_ok r self s dm c Hwf Hs) as (H1 & H2 & H3).
  { split; cbn; [done|congruence|congruence|]. rewrite Ei. by intros k it. }
  eexists. split_and!; [done|done|done|]. intros id k. rewrite H3. case_decide; [by rewrite Ei|done].
Qed.

(** A holder that the reader reaches. *)
Definition remote_copy (c : Cluster) (self k : string) (l : list string) : Prop :=
  ∃ o it, o ∈ l ∧ o ≠ self ∧ reachable c o ∧ holds c o k = Some it.

Lemma ForwardGet_reached c o k : cluster_wf r c → reachable c o → ForwardGet o k c = Some (Ok (holds c o k)).
Proof.
  intros Hwf Hre. unfold ForwardGet. destruct (reachable_server _ _ Hre) as (b & Hb & ->).
  by rewrite (getItem_holds r c o k b Hwf Hb).
Qed.
Lemma ForwardGet_unreached c o k : ¬ reachable c o → ForwardGet o k c = Some (Err ErrBackendNotFound).
Proof. intros Hre. unfold ForwardGet. destruct (lookup_ o c) as [b|] eqn:E; [destruct Hre; by exists b|done]. Qed.

(** A remote hit: the node keeps a copy of a key that it owns. *)
Lemma tryRemoteGet_hit self k o os c s it :
  cluster_wf r c → servers c !! self = Some s → hasTransport (conf s) = true → Lookup sum64 k r = Some os →
  o ≠ self → reachable c o → holds c o k = Some it → holds c self k = None →
  ∃ c', tryRemoteGet sum64 self k o c = Some (c', Some it) ∧ cluster_wf r c' ∧
    (self ∈ os → holds c' self k = Some it).
Proof.
  intros Hwf Hs Ht Hos Hne Hre Hit Hself. unfold tryRemoteGet. rewrite Hs. cbn [mbind option_bind].
  rewrite bool_decide_false, Ht by done. cbn [orb negb]. rewrite ForwardGet_reached, Hit by done. cbn [mbind option_bind].
  destruct (ownsKey_Some sum64 r k s (sw_ring _ _ _ (Hwf _ _ Hs))) as (b & -> & Hb). cbn [mbind option_bind].
  destruct b.
  - rewrite (localGet_ok r) by (done || by eexists). rewrite Hself. cbn [mbind option_bind].
    destruct (applySet_local sum64 r self it c Hwf) as (c' & -> & Hwf' & _ & Hh); [by eexists|]. cbn [mbind option_bind].
    exists c'. split_and!; [done|done|]. intros _. rewrite Hh, decide_True; [done|]. split; [done|].
    destruct (reachable_server _ _ Hre) as (so & Hso & _). unfold holds in Hit. rewrite Hso in Hit. cbn in Hit.
    symmetry. by apply (sw_keys _ _ _ (Hwf _ _ Hso)).
  - exists c. split_and!; [done|done|]. intros Hin. rewrite <- (sw_id _ _ _ (Hwf _ _ Hs)) in Hin.
    by specialize (Hb os Hos Hin).
Qed.

Lemma tryRemoteGet_miss self k o c s :
  cluster_wf r c → servers c !! self = Some s → hasTransport (conf s) = true →
  ¬ (o ≠ self ∧ reachable c o ∧ is_Some (holds c o k)) → tryRemoteGet sum64 self k o c = Some (c, None).
Proof.
  intros Hwf Hs Ht Hno. unfold tryRemoteGet. rewrite Hs. cbn [mbind option_bind]. rewrite Ht. cbn [negb]. rewrite orb_false_r.
  destruct (decide (o = self)) as [->|Ho]; [by rewrite bool_decide_true|]. rewrite bool_decide_false by done.
  destruct (decide (reachable c o)) as [Hro|Hro]; [|by rewrite ForwardGet_unreached].
  rewrite ForwardGet_reached by done. cbn [mbind option_bind].
  destruct (holds c o k) eqn:E; [destruct Hno; eauto|done].
Qed.

Lemma getOne_hit self k os s l c :
  cluster_wf r c → servers c !! self = Some s → hasTransport (conf s) = true → Lookup sum64 k r = Some os →
  holds c self k = None → remote_copy c self k l →
  ∃ c' it o, getOne sum64 self k l c = Some (c', Some it) ∧ o ∈ l ∧ holds c o k = Some it ∧
    (self ∈ os → holds c' self k = Some it).
Proof.
  intros Hwf Hs Ht Hos Hself. induction l as [|o l IH]; intros (o1 & it1 & Hin & Hne & Hre & Hit); [by apply not_elem_of_nil in Hin|].
  cbn [getOne]. assert (tryLocalGet self k o c = Some None) as ->.
  { unfold tryLocalGet. case_decide; [|done]. rewrite (localGet_ok r) by (done || by eexists). by rewrite Hself. }
  cbn [mbind option_bind].
  destruct (decide (o ≠ self ∧ reachable c o ∧ is_Some (holds c o k))) as [(Hos' & Hro & it & Hio)|Hno].
  - destruct (tryRemoteGet_hit self k o os c s it) as (c' & -> & _ & Hc); try done. cbn [mbind option_bind].
    exists c', it, o. split_and!; try done. by apply elem_of_cons; left.
  - rewrite (tryRemoteGet_miss self k o c s) by done. cbn [mbind option_bind].
    apply elem_of_cons in Hin as [->|Hin]; [destruct Hno; eauto|].
    destruct IH as (c' & it & o' & E & Ho' & Hi & Hc); [exists o1, it1; by split_and!|].
    exists c', it, o'. split_and!; try done. by apply elem_of_cons; right.
Qed.

(** C15: clearing a node empties that node and no other, writes no tombstone and tells
    nobody: while another owner of a key can be reached and holds it, the next read of
    the key on the cleared node at level ONE returns it, and puts it back when the node is
    an owner. *)
Theorem clear_comes_back self late c s k os arrival :
  cluster_wf r c → servers c !! self = Some s → hasTransport (conf s) = true →
  readConsistency (conf s) = ConsistencyOne → Lookup sum64 k r = Some os → remote_copy c self k os →
  ∃ c1 c2 it o, clearAt self late c = Some (c1, late_error late) ∧
    (∀ id k', holds c1 id k' = if decide (id = self) then None else holds c id k') ∧
    getImpl sum64 arrival self k c1 = Some (c2, Some it) ∧ o ∈ os ∧ holds c o k = Some it ∧
    (self ∈ os → holds c2 self k = Some it).
Proof.
  intros Hwf Hs Ht Hone Hos (o & it & Hin & Hne & Hre & Hit).
  destruct (clearAt_ok self late c s Hwf Hs) as (c1 & E1 & Hwf1 & Hf & Hh).
  destruct (frame_server c c1 self s Hf Hs) as (s1 & Hs1 & Hcf & _).
  assert (conf s1 = conf s) as Ec by congruence.
  destruct (getOne_hit self k os s1 os c1) as (c2 & it2 & o2 & E2 & Ho2 & Hi2 & Hself2); try done.
  { by rewrite Ec. }
  { by rewrite Hh, decide_True. }
  { exists o, it. split_and!; [done|done|by rewrite (frame_reachable _ _ _ Hf)|by rewrite Hh, decide_False]. }
  exists c1, c2, it2, o2. split_and!; [done|done| |done| |done].
  - unfold getImpl. rewrite Hs1. cbn [mbind option_bind]. rewrite Ec, Hone, decide_True by done.
    rewrite (localGet_ok r) by (done || by eexists). rewrite Hh, decide_True by done. cbn [mbind option_bind].
    unfold lookupOwners. rewrite (sw_ring _ _ _ (Hwf1 _ _ Hs1)), Hos. cbn [mbind option_bind].
    rewrite decide_False by (intros ->; by apply not_elem_of_nil in Hin). done.
  - rewrite Hh in Hi2. by case_decide.
Qed.

End ClusterFacts.

(** ** The keys that only the peer has *)

Lemma elem_of_foldl_difference k (entries : list merkleKV) : ∀ X : gset string,
  k ∈ foldl (λ mset e, mset ∖ {[kv_k e]}) X entries ↔ k ∈ X ∧ k ∉ kv_k <$> entries.
Proof.
  induction entries as [|e entries IH]; intros X; cbn [foldl].
  - split; [intros ?; split; [done|apply not_elem_of_nil]|tauto].
  - rewrite IH, fmap_cons, not_elem_of_cons. set_solver.
Qed.

(** The keys that a listing brings, cut at the cap. *)
Definition capped (listKeysMax : Z) (keys : list string) : list string :=
  if ((0 <? listKeysMax) && (listKeysMax <? Z.of_nat (length keys)))%Z then take (Z.to_nat listKeysMax) keys else keys.

Lemma resolveMissingKeys_http keys listKeysMax entries k :
  k ∈ resolveMissingKeys ∅ (Some (Ok keys)) listKeysMax entries ↔ k ∈ capped listKeysMax keys ∧ k ∉ kv_k <$> entries.
Proof.
  unfold resolveMissingKeys, capped. rewrite decide_False by (rewrite size_empty; lia). destruct keys as [|k0 keys].
  - assert (capped listKeysMax [] = []) as E by (unfold capped; case_match; [by rewrite take_nil|done]).
    unfold capped in E. rewrite E. split; [set_solver|]. by intros [?%not_elem_of_nil _].
  - rewrite elem_of_foldl_difference. by rewrite elem_of_list_to_set.
Qed.

Section Listing.
Context (pathMatch : string → string → option bool).

Lemma ListKeysHTTP_all shards :
  ListKeysHTTP pathMatch shards "" = Ok (toValidUTF8 <$> localMatchingKeys (take 1024 shards) (λ _, true)).
Proof. by rewrite http_list_keys. Qed.

(** A sync over HTTP looks for the keys that only the peer has among the keys of the
    peer's first 1024 shards, or among the first of them when their number is capped.
    The cap counts keys that the node already has: when the keys up to the cap are all
    known to the node, none of the others is ever found, however many there are. *)
Theorem http_missing_keys shards listKeysMax entries :
  let keys := toValidUTF8 <$> localMatchingKeys (take 1024 shards) (λ _, true) in
  let missing := resolveMissingKeys ∅ (Some (ListKeysHTTP pathMatch shards "")) listKeysMax entries in
  (∀ k, k ∈ missing ↔ k ∈ capped listKeysMax keys ∧ k ∉ kv_k <$> entries) ∧
  ((0 < listKeysMax)%Z → take (Z.to_nat listKeysMax) keys ⊆ kv_k <$> entries →
     missing = ∅ ∨ (Z.of_nat (length keys) ≤ listKeysMax)%Z) ∧
  ((listKeysMax ≤ 0)%Z → ∀ k, k ∈ keys → k ∈ missing ∨ k ∈ kv_k <$> entries).
Proof.
  intros keys missing. unfold missing. rewrite ListKeysHTTP_all. fold keys.
  assert (∀ k, k ∈ resolveMissingKeys ∅ (Some (Ok keys)) listKeysMax entries ↔ k ∈ capped listKeysMax keys ∧ k ∉ kv_k <$> entries) as Hm
    by apply resolveMissingKeys_http.
  split_and!; [done| |].
  - intros Hp Hsub. destruct (Z.le_gt_cases (Z.of_nat (length keys)) listKeysMax) as [|Hlt]; [by right|left].
    apply leibniz_equiv, elem_of_equiv_empty. intros k [Hk Hno]%Hm. apply Hno, Hsub. unfold capped in Hk.
    by rewrite (proj2 (Z.ltb_lt _ _) Hp), (proj2 (Z.ltb_lt _ _) Hlt) in Hk.
  - intros Hp k Hk. destruct (decide (k ∈ kv_k <$> entries)); [by right|left]. apply Hm. split; [|done].
    unfold capped. by destruct (Z.ltb_spec 0 listKeysMax); [lia|].
Qed.

End Listing.

(** Two keys that the node has hide the third one. *)
Example capped_sync_starves :
  resolveMissingKeys ∅ (Some (Ok ["a"; "b"; "c"]%string)) 2
    [MkKV "a" 0; MkKV "b" 0] = ∅.
Proof. by vm_compute. Qed.

(** ** A sample *)

Definition one_server (id : string) : Server :=
  MkServer (freshNode id 2 0 (Some sample_nodes_ring)) (sample_conf ConsistencyOne ConsistencyOne) noHints false.
Definition one_cluster : Cluster :=
  MkCluster (list_to_map ((λ id, (id, one_server id)) <$> ["a"; "b"; "c"]%string)) {["a"; "b"; "c"]}%string.

Lemma one_cluster_wf : cluster_wf sample_nodes_ring one_cluster.
Proof.
  intros id s Hs%elem_of_list_to_map_2. apply list_elem_of_fmap in Hs as (x & [= -> ->] & _).
  destruct (freshNode_ok x 2 0 (Some sample_nodes_ring)) as (Hwf & Ei & _).
  split; [done|done|done|]. cbn [node one_server]. intros k it. by rewrite Ei, lookup_empty.
Qed.

Definition one_c1 : Cluster := default one_cluster (storeAt sample_sum64 "b" (sample_value "x") one_cluster).

Lemma one_c1_wf : cluster_wf sample_nodes_ring one_c1.
Proof.
  unfold one_c1. destruct (storeAt_ok sample_sum64 sample_nodes_ring "b" (sample_value "x") one_cluster one_cluster_wf)
    as (c' & -> & Hwf & _); [by eexists|done].
Qed.

Lemma clear_comes_back_witness :
  ∃ c1 c2 it o, clearAt "a" false one_c1 = Some (c1, late_error false) ∧
    (∀ id k', holds c1 id k' = if decide (id = "a"%string) then None else holds one_c1 id k') ∧
    getImpl sample_sum64 id "a" "k" c1 = Some (c2, Some it) ∧ o ∈ ["a"; "b"; "c"]%string ∧ holds one_c1 o "k" = Some it ∧
    ("a"%string ∈ ["a"; "b"; "c"]%string → holds c2 "a" "k" = Some it).
Proof.
  apply (clear_comes_back sample_sum64 sample_nodes_ring "a" false one_c1 (default (one_server "a") (servers one_c1 !! "a"%string)) "k"
    ["a"; "b"; "c"]%string id one_c1_wf); [by vm_compute..|].
  exists "b"%string, (sample_value "x"). split; [set_solver|]. split; [done|]. split; [|by vm_compute].
  unfold reachable. vm_compute. by eexists.
Defined.
