(* ===== verification/ClientOptions.v ===== *)
(** * The client's options and life cycle (pkg/client/options.go, client.go, topology.go,
      oidc_logging.go)

    How the options build the HTTP client that carries the requests, the refresh loop with
    Close as interleaved steps, the token source that logs rotations, and Identity.

    A RoundTripper is what becomes of the Authorization header of a request: the transport
    that carries it and the header that arrives.  Parameter: [oauthNew] is oauth2.NewClient
    on a client and a token source, with the documented effect of its transport: it sets
    the header to the source's token and hands the request to the transport of the client
    in the context.

    The theorems: which credential a request carries, and over which transport, for every
    list of options; closes one after the other never panic and end the loop; when a token
    is logged as rotated. *)

From stdpp Require Import base gmap strings list.
From Stdlib Require Import ZArith Lia.
From S2P Require Import Prelude Item Auth Client.
Local Open Scope nat_scope.

(** ** HTTP clients *)

(** The transport, by number, with 0 for http.DefaultTransport, and the header. *)
Record delivered := MkDelivered { dv_transport : nat; dv_header : string }.
Definition RoundTripper : Type := string → delivered.
Definition DefaultTransport : RoundTripper := λ h, MkDelivered 0 h.

Record httpClient := MkHTTP { hc_Transport : RoundTripper; hc_Timeout : Z }.

Definition bearerLikeAuthTransport (headerValue : string) : RoundTripper := λ _, DefaultTransport headerValue.
Definition bearerAuthTransport (token : string) : RoundTripper := bearerLikeAuthTransport (String.append "Bearer " token).
Definition httpClientWithAuth (base : option httpClient) (authTransport : RoundTripper) : httpClient :=
  MkHTTP authTransport (match base with Some b => hc_Timeout b | None => 0%Z end).

(** ** Options *)

Definition errBearerEmpty : error := ErrOther "client: WithBearerAuth: empty token".
Definition errBasicEmpty : error := ErrOther "client: WithBasicAuth: empty username or password".
Definition errOIDCEmpty : error := ErrOther "client: WithOIDCClientCredentials: missing required field".
Definition errHTTPClientNil : error := ErrOther "client: WithHTTPClient: nil *http.Client".
Definition errRefreshTooFast : error := ErrOther "client: WithTopologyRefresh: interval below 1s floor".
Definition minRefreshInterval : Z := 1000000000.
Definition defaultHTTPTimeout : Z := 10000000000.

(** The fields that options set. *)
Record optClient := MkOptClient { oc_http : httpClient; oc_refreshInterval : Z; oc_logger : nat (* 0 discards *) }.

(** A client-credentials configuration, with the token that its source gives. *)
Record oidcConfig := MkOIDC { od_ClientID : string; od_ClientSecret : string; od_TokenURL : string; od_token : string }.

Section Options.
Context (oauthNew : httpClient → string → httpClient).

Definition Option_ : Type := optClient → result optClient.
Definition with_http (h : httpClient) (c : optClient) : optClient := MkOptClient h (oc_refreshInterval c) (oc_logger c).

Definition WithBearerAuth (token : string) : Option_ := λ c,
  if decide (token = ""%string) then Err errBearerEmpty
  else Ok (with_http (httpClientWithAuth (Some (oc_http c)) (bearerAuthTransport token)) c).
Definition WithBasicAuth (username password : string) : Option_ := λ c,
  if decide (username = ""%string ∨ password = ""%string) then Err errBasicEmpty
  else Ok (with_http (httpClientWithAuth (Some (oc_http c)) (bearerLikeAuthTransport (basicHeader username password))) c).
Definition WithOIDCClientCredentials (cfg : oidcConfig) : Option_ := λ c,
  if decide (od_ClientID cfg = ""%string ∨ od_ClientSecret cfg = ""%string ∨ od_TokenURL cfg = ""%string) then Err errOIDCEmpty
  else Ok (with_http (oauthNew (oc_http c) (od_token cfg)) c).
Definition WithHTTPClient (h : option httpClient) : Option_ := λ c,
  match h with None => Err errHTTPClientNil | Some h => Ok (with_http h c) end.
Definition WithTopologyRefresh (interval : Z) : Option_ := λ c,
  if ((0 <? interval) && (interval <? minRefreshInterval))%Z then Err errRefreshTooFast
  else Ok (MkOptClient (oc_http c) interval (oc_logger c)).
Definition WithLogger (logger : nat) : Option_ := λ c, Ok (MkOptClient (oc_http c) (oc_refreshInterval c) logger).

Inductive copt :=
  | OBearer (token : string) | OBasic (username password : string) | OOIDC (cfg : oidcConfig)
  | OHTTPClient (h : option httpClient) | ORefresh (interval : Z) | OLogger (logger : nat).
Definition option_of (o : copt) : Option_ :=
  match o with
  | OBearer token => WithBearerAuth token
  | OBasic username password => WithBasicAuth username password
  | OOIDC cfg => WithOIDCClientCredentials cfg
  | OHTTPClient h => WithHTTPClient h
  | ORefresh interval => WithTopologyRefresh interval
  | OLogger logger => WithLogger logger
  end.

Fixpoint applyOptions (os : list copt) (c : optClient) : result optClient :=
  match os with
  | [] => Ok c
  | o :: os => match option_of o c with Err e => Err e | Ok c => applyOptions os c end
  end.

Definition defaultOpts : optClient := MkOptClient (MkHTTP DefaultTransport defaultHTTPTimeout) 0 0.

(** [New]: the endpoints are those of Client.v; the loop is started when the interval that
    is left is positive. *)
Definition NewClient (ss : list string) (os : list copt) : (Client * optClient * bool) + (cerror + error) :=
  match New ss with
  | inr e => inr (inl e)
  | inl c =>
      match applyOptions os defaultOpts with
      | Err e => inr (inr e)
      | Ok o => inl (c, o, (0 <? oc_refreshInterval o)%Z)
      end
  end.

(** ** The credential of a request *)

Definition static_header (o : copt) : option string :=
  match o with
  | OBearer token => Some (String.append "Bearer " token)
  | OBasic username password => Some (basicHeader username password)
  | _ => None
  end.
Definition oidc_header (o : copt) : option string :=
  match o with OOIDC cfg => Some (String.append "Bearer " (od_token cfg)) | _ => None end.
Definition sets_client (o : copt) : bool := match o with OHTTPClient _ => true | _ => false end.

(** What the options after the last [WithHTTPClient] make of the transport [base]. *)
Definition effective (base : RoundTripper) (os : list copt) : RoundTripper := λ h,
  match last (omap static_header os) with
  | Some v => DefaultTransport v
  | None => match head (omap oidc_header os) with Some v => base v | None => base h end
  end.

Hypothesis oauth_doc : ∀ base tok h, hc_Transport (oauthNew base tok) h = hc_Transport base (String.append "Bearer " tok).

Lemma applyOptions_snoc os o c : applyOptions (os ++ [o]) c = match applyOptions os c with Err e => Err e | Ok c => option_of o c end.
Proof.
  revert c. induction os as [|o1 os IH]; intros c; cbn; [by destruct (option_of o c)|].
  destruct (option_of o1 c); [apply IH|done].
Qed.
Lemma applyOptions_app os1 os2 c :
  applyOptions (os1 ++ os2) c = match applyOptions os1 c with Err e => Err e | Ok c => applyOptions os2 c end.
Proof. revert c. induction os1 as [|o os1 IH]; intros c; cbn; [done|]. destruct (option_of o c); [apply IH|done]. Qed.

Lemma options_effective os : ∀ c c',
  Forall (λ o, sets_client o = false) os → applyOptions os c = Ok c' →
  ∀ h, hc_Transport (oc_http c') h = effective (hc_Transport (oc_http c)) os h.
Proof.
  induction os as [|o os IH] using rev_ind; intros c c' Hf E h; [by injection E as <-|].
  apply Forall_app in Hf as [Hf Ho]. rewrite applyOptions_snoc in E. destruct (applyOptions os c) as [c1|] eqn:E1; [|done].
  specialize (IH c c1 Hf E1). unfold effective in *. rewrite !omap_app.
  destruct o as [token|user pass|cfg|hc|interval|logger]; cbn [option_of omap list_omap static_header oidc_header] in E |- *;
    rewrite ?app_nil_r.
  - unfold WithBearerAuth in E. case_decide; [done|]. injection E as <-. by rewrite last_snoc.
  - unfold WithBasicAuth in E. case_decide; [done|]. injection E as <-. by rewrite last_snoc.
  - unfold WithOIDCClientCredentials in E. case_decide; [done|]. injection E as <-. cbn [oc_http with_http]. rewrite oauth_doc, IH.
    destruct (last (omap static_header os)); [done|]. by destruct (omap oidc_header os).
  - rewrite Forall_singleton in Ho. discriminate Ho.
  - unfold WithTopologyRefresh in E. destruct (_ && _); [done|]. injection E as <-. apply IH.
  - injection E as <-. apply IH.
Qed.


(** Which credential a request carries, and over which transport, for every list of
    options that is accepted.  Only the options after the last WithHTTPClient count.  The
    last static credential among them, bearer or basic, replaces the header and goes over
    the default transport: the injected HTTP client is dropped.  It does so also when an
    OIDC option follows it; without a static credential the first OIDC option decides, over
    the injected transport. *)
Theorem client_credential before h after c :
  Forall (λ o, sets_client o = false) after →
  applyOptions (before ++ OHTTPClient (Some h) :: after) defaultOpts = Ok c →
  (∀ v hd, last (omap static_header after) = Some v → hc_Transport (oc_http c) hd = MkDelivered 0 v) ∧
  (∀ v hd, last (omap static_header after) = None → head (omap oidc_header after) = Some v →
     hc_Transport (oc_http c) hd = hc_Transport h v) ∧
  (∀ hd, last (omap static_header after) = None → head (omap oidc_header after) = None →
     hc_Transport (oc_http c) hd = hc_Transport h hd).
Proof.
  intros Hf E. rewrite applyOptions_app in E. destruct (applyOptions before defaultOpts) as [c1|]; [|done]. cbn in E.
  pose proof (options_effective after _ c Hf E) as He. cbn in He. unfold effective in He.
  split_and!.
  - intros v hd Hv. by rewrite He, Hv.
  - intros v hd Hv Hv'. by rewrite He, Hv, Hv'.
  - intros hd Hv Hv'. by rewrite He, Hv, Hv'.
Qed.

End Options.

(** What WithBasicAuth sends is read back by the server as that user and password when the
    name has no colon. *)
Corollary basic_auth_understood oauthNew username password c c' hd :
  WithBasicAuth username password c = Ok c' → 58 ∉ bytes_of username →
  parseBasicHeader (dv_header (hc_Transport (oc_http c') hd)) = Some (username, password) ∧
  applyOptions oauthNew [OBasic username password] c = Ok c'.
Proof.
  intros E Hu. unfold WithBasicAuth in E |- *. case_decide as Hd; [done|]. injection E as <-. split.
  - by apply basic_header_roundtrip.
  - cbn. unfold WithBasicAuth. by rewrite decide_False.
Qed.

(** ** The refresh loop and Close *)

(** The loop waits for its ticker or the stop channel, refreshes, or has left; a caller of
    Close looks at the stop channel, closes it, waits for the loop, or has returned. *)
Inductive loopPC := LWait | LRefresh | LGone.
Inductive closePC := KLook | KClose | KJoin | KReturned.

Record life := MkLife {
  stopClosed : bool; doneClosed : bool; loop : loopPC; closers : list closePC; panicked : bool }.

Definition startTopologyRefresh : life := MkLife false false LWait [] false.

Inductive label := Tick | Refreshed | Stopping | Call | Run (i : nat).

(** [None]: the step cannot be taken. *)
Definition lifeStep (l : label) (s : life) : option life :=
  match l with
  | Tick => match loop s with LWait => Some (MkLife (stopClosed s) (doneClosed s) LRefresh (closers s) (panicked s)) | _ => None end
  | Refreshed => match loop s with LRefresh => Some (MkLife (stopClosed s) (doneClosed s) LWait (closers s) (panicked s)) | _ => None end
  | Stopping =>
      match loop s, stopClosed s with
      | LWait, true => Some (MkLife true true LGone (closers s) (panicked s))
      | _, _ => None
      end
  | Call => Some (MkLife (stopClosed s) (doneClosed s) (loop s) (closers s ++ [KLook]) (panicked s))
  | Run i =>
      let at_ pc := <[i := pc]> (closers s) in
      match closers s !! i with
      | Some KLook => Some (MkLife (stopClosed s) (doneClosed s) (loop s) (at_ (if stopClosed s then KJoin else KClose)) (panicked s))
      | Some KClose =>
          if stopClosed s then Some (MkLife true (doneClosed s) (loop s) (at_ KReturned) true)
          else Some (MkLife true (doneClosed s) (loop s) (at_ KJoin) (panicked s))
      | Some KJoin => if doneClosed s then Some (MkLife (stopClosed s) true (loop s) (at_ KReturned) (panicked s)) else None
      | _ => None
      end
  end.
Fixpoint lifeRun (ls : list label) (s : life) : option life :=
  match ls with [] => Some s | l :: ls => s ← lifeStep l s; lifeRun ls s end.

(** A call starts when the ones before it have returned. *)
Fixpoint one_at_a_time (ls : list label) (s : life) : Prop :=
  match ls with
  | [] => True
  | l :: ls => (l = Call → Forall (eq KReturned) (closers s)) ∧
      match lifeStep l s with Some s' => one_at_a_time ls s' | None => True end
  end.

(** Before any call: nothing is closed.  Later the calls but the last have returned, after
    the loop has left. *)
Definition calls_ok (n : nat) (pc : closePC) (s : life) : Prop :=
  match pc with
  | KLook => if decide (n = 0) then stopClosed s = false else loop s = LGone
  | KClose => n = 0 ∧ stopClosed s = false
  | KJoin => stopClosed s = true ∧ (n ≠ 0 → loop s = LGone)
  | KReturned => loop s = LGone
  end.
Record life_ok (s : life) : Prop := {
  lo_panic : panicked s = false;
  lo_done : doneClosed s = true ↔ loop s = LGone;
  lo_stop : loop s = LGone → stopClosed s = true;
  lo_calls : closers s = [] ∧ stopClosed s = false ∨
    ∃ n pc, closers s = replicate n KReturned ++ [pc] ∧ calls_ok n pc s }.

Lemma only_last n pc i pc' : (replicate n KReturned ++ [pc]) !! i = Some pc' → pc' ≠ KReturned → i = n ∧ pc' = pc.
Proof.
  intros H Hne. destruct (decide (i < n)) as [Hi|Hi].
  - rewrite lookup_app_l, lookup_replicate_2 in H by (rewrite ?length_replicate; lia). congruence.
  - rewrite lookup_app_r, length_replicate in H by (rewrite length_replicate; lia).
    destruct (i - n) as [|j] eqn:E; [|done]. cbn in H. split; [lia|congruence].
Qed.
Lemma insert_last n pc pc' : <[n := pc']> (replicate n KReturned ++ [pc]) = replicate n KReturned ++ [pc'].
Proof. rewrite insert_app_r_alt by (rewrite length_replicate; lia). by rewrite length_replicate, Nat.sub_diag. Qed.
Lemma all_returned n pc : Forall (eq KReturned) (replicate n KReturned ++ [pc]) → pc = KReturned.
Proof. rewrite Forall_app. by intros [_ [<- _]%Forall_cons]. Qed.

(** The steps of a caller. *)
Lemma close_run_ok i s s' : life_ok s → lifeStep (Run i) s = Some s' → life_ok s'.
Proof.
  intros [Hp Hd Hst Hc] E. cbn in E. destruct (closers s !! i) as [pc'|] eqn:Ei; [|done].
  destruct Hc as [[Hc _]|(n & pc & Hc & Hok)]; [by rewrite Hc in Ei|]. rewrite Hc in Ei.
  assert (pc' ≠ KReturned) as Hne by (by intros ->). destruct (only_last n pc i pc' Ei Hne) as [-> ->].
  rewrite Hc, !insert_last in E. destruct pc; try done; cbn [calls_ok] in Hok.
  - injection E as <-. split; cbn; [done|done|done|]. right. exists n. destruct (stopClosed s) eqn:Es.
    + exists KJoin. split; [done|]. cbn. split; [done|]. intros Hn. by rewrite decide_False in Hok.
    + exists KClose. split; [done|]. cbn. split; [|done]. case_decide; [done|]. by specialize (Hst Hok).
  - destruct Hok as [-> Es]. rewrite Es in E. injection E as <-. split; cbn; [done|done|done|].
    right. exists 0, KJoin. split; [done|]. cbn. split; [done|]. lia.
  - destruct (doneClosed s) eqn:Ed; [|done]. injection E as <-. split; cbn; [done|tauto|done|].
    right. exists n, KReturned. split; [done|]. cbn. by apply Hd.
Qed.

Lemma calls_ok_later n pc s s' :
  calls_ok n pc s → stopClosed s' = stopClosed s → (loop s = LGone → loop s' = LGone) → calls_ok n pc s'.
Proof.
  intros H Es El. destruct pc; cbn in *; rewrite ?Es; [|done| |by apply El].
  - destruct (decide (n = 0)); [done|by apply El].
  - destruct H as [H1 H2]. split; [done|]. intros Hn. by apply El, H2.
Qed.
Lemma loop_step_ok s s' : life_ok s → panicked s' = false → closers s' = closers s → stopClosed s' = stopClosed s →
  (loop s = LGone → loop s' = LGone) → (doneClosed s' = true ↔ loop s' = LGone) → (loop s' = LGone → stopClosed s' = true) →
  life_ok s'.
Proof.
  intros [Hp Hd Hst Hc] Hp' Ec Es El Hd' Hs'. split; [done|done|done|]. rewrite Ec, Es.
  destruct Hc as [?|(n & pc & Hc & Hok)]; [by left|right]. exists n, pc. split; [done|]. by eapply calls_ok_later.
Qed.

Lemma close_step_ok l s s' : life_ok s → (l = Call → Forall (eq KReturned) (closers s)) → lifeStep l s = Some s' → life_ok s'.
Proof.
  intros Hs Hcall E. destruct l as [| | | |i]; [..|by eapply close_run_ok]; cbn in E.
  - destruct (loop s) eqn:El; try done. injection E as <-. pose proof (lo_done _ Hs) as Hd. rewrite El in Hd.
    eapply loop_step_ok; [exact Hs|apply Hs|done|done|by rewrite El| |done]. cbn. by rewrite Hd.
  - destruct (loop s) eqn:El; try done. injection E as <-. pose proof (lo_done _ Hs) as Hd. rewrite El in Hd.
    eapply loop_step_ok; [exact Hs|apply Hs|done|done|by rewrite El| |done]. cbn. by rewrite Hd.
  - destruct (loop s) eqn:El; try done. destruct (stopClosed s) eqn:Es; [|done]. injection E as <-.
    by eapply loop_step_ok; [exact Hs|apply Hs|..].
  - injection E as <-. specialize (Hcall eq_refl). destruct Hs as [Hp Hd Hst Hc]. split; cbn; [done|done|done|]. right.
    destruct Hc as [[Hc Hs0]|(n & pc & Hc & Hok)].
    + exists 0, KLook. rewrite Hc. by split.
    + rewrite Hc in Hcall |- *. apply all_returned in Hcall as ->. exists (S n), KLook. split; [|done].
      by rewrite <- replicate_S_end.
Qed.

(** Closes one after the other, in whatever interleaving with the loop, never panic; and a
    close that runs finds the loop gone or can make it leave. *)
Theorem close_sequential ls s :
  one_at_a_time ls startTopologyRefresh → lifeRun ls startTopologyRefresh = Some s →
  panicked s = false ∧ (KReturned ∈ closers s → loop s = LGone) ∧
  (KJoin ∈ closers s → loop s = LGone ∧ doneClosed s = true ∨
     ∃ ls' s', length ls' ≤ 2 ∧ lifeRun ls' s = Some s' ∧ loop s' = LGone).
Proof.
  assert (life_ok startTopologyRefresh) as H0 by (split; cbn; [done|done|done|by left]).
  revert H0. generalize startTopologyRefresh. induction ls as [|l ls IH]; intros s0 H0 Ho E.
  - injection E as <-. destruct H0 as [Hp Hd Hst Hc]. split; [done|]. split.
    + destruct Hc as [[-> _]|(n & pc & -> & Hok)]; [by intros ?%not_elem_of_nil|].
      rewrite elem_of_app, list_elem_of_singleton. destruct n; [|by destruct pc; cbn in Hok; naive_solver].
      intros [?%not_elem_of_nil|<-]; [done|done].
    + intros Hj. destruct (loop s0) eqn:El; [| |left; tauto]; right.
      all: assert (stopClosed s0 = true) as Es.
      1,3: destruct Hc as [[Hc _]|(n & pc & Hc & Hok)]; rewrite Hc in Hj; [by apply not_elem_of_nil in Hj|];
        apply elem_of_app in Hj as [Hj|Hj]; [by apply elem_of_replicate in Hj as [? _]|];
        apply list_elem_of_singleton in Hj as <-; cbn in Hok; tauto.
      * exists [Stopping]. eexists. split; [cbn; lia|]. cbn. rewrite El, Es. by split.
      * exists [Refreshed; Stopping]. eexists. split; [cbn; lia|]. cbn. rewrite El. cbn. rewrite Es. by split.
  - cbn [lifeRun one_at_a_time] in *. destruct Ho as [Hc Ho]. destruct (lifeStep l s0) as [s1|] eqn:E1; [|done].
    eapply IH; [|exact Ho|exact E]. by eapply close_step_ok.
Qed.

(** Two callers at once can both find the channel open; the second close panics. *)
Example close_race :
  panicked <$> lifeRun [Call; Call; Run 0; Run 1; Run 0; Run 1] startTopologyRefresh = Some true.
Proof. done. Qed.

(** ** Logging the rotation of tokens *)

(** The expiry of the last token, 0 for the zero time. *)
Record loggingTokenSource := MkTokenSource { lastExp : Z; lines : list Z }.
Definition newLoggingTokenSource : loggingTokenSource := MkTokenSource 0 [].

(** [Token], given what the inner source returned; [None] is its error. *)
Definition Token (tok : option Z) (l : loggingTokenSource) : loggingTokenSource * option Z :=
  match tok with
  | None => (l, None)
  | Some expiry =>
      let rotated := (lastExp l =? 0)%Z || negb (lastExp l =? expiry)%Z in
      (MkTokenSource expiry (if rotated then lines l ++ [expiry] else lines l), Some expiry)
  end.
Definition tokens (es : list Z) (l : loggingTokenSource) : loggingTokenSource := foldl (λ l x, (Token (Some x) l).1) l es.

(** The expiries without immediate repetitions. *)
Fixpoint changes (prev : Z) (es : list Z) : list Z :=
  match es with
  | [] => []
  | x :: es => (if (prev =? 0)%Z || negb (prev =? x)%Z then [x] else []) ++ changes x es
  end.

Lemma tokens_lines es : ∀ l, lines (tokens es l) = lines l ++ changes (lastExp l) es.
Proof.
  induction es as [|x es IH]; intros l; [by rewrite app_nil_r|]. cbn [tokens foldl changes Token fst] in *.
  unfold tokens in IH. rewrite IH. cbn [lines lastExp]. destruct (_ || _); [by rewrite <- app_assoc|done].
Qed.

(** A token that is used again is not logged again, if it expires; one that does not
    expire is logged at every use. *)
Theorem rotation_logged x n :
  lines (tokens (replicate (S n) x) newLoggingTokenSource) = if decide (x = 0%Z) then replicate (S n) 0%Z else [x].
Proof.
  rewrite tokens_lines. cbn [lines newLoggingTokenSource app lastExp replicate changes].
  assert (∀ m, changes x (replicate m x) = if decide (x = 0%Z) then replicate m 0%Z else []) as E.
  { induction m as [|m IH]; cbn; [by case_decide|]. rewrite IH, Z.eqb_refl. case_decide as H0; [by rewrite H0|].
    by destruct (Z.eqb_spec x 0). }
  rewrite E. cbn. case_decide as H0; [by rewrite H0|done].
Qed.

(** ** Identity *)

Record Identity := MkIdentity { id_ID : string; id_Scopes : list string; id_Capabilities : list string }.
Definition HasCapability (name : string) (i : Identity) : bool := bool_decide (name ∈ id_Capabilities i).

Section Me.
Context {W : Type} (roundTrip : string → Request → W → W * option Response).
Context (errorEnvelope : list Z → option (string * string * string)) (parseMe : list Z → option Identity).

Definition GetIdentity (swaps : list (nat * nat)) (c : Client) (w : W) : option (W * (Identity + cerror)) :=
  '(w, r) ← do_ roundTrip errorEnvelope swaps "GET" "/v1/me" None c w;
  match r with
  | inr e => Some (w, inr e)
  | inl resp =>
      if negb (StatusCode resp =? 200)%Z then Some (w, inr (EStatus (classifyResponse errorEnvelope resp)))
      else match parseMe (respBody resp) with None => Some (w, inr EDecode) | Some me => Some (w, inl me) end
  end.
End Me.

(** ** Samples *)

Definition sample_oauth (base : httpClient) (tok : string) : httpClient :=
  MkHTTP (λ _, hc_Transport base (String.append "Bearer " tok)) (hc_Timeout base).
Definition mtls : httpClient := MkHTTP (λ h, MkDelivered 1 h) 0.
Definition sample_oidc : oidcConfig := MkOIDC "id" "secret" "https://idp/token" "fresh".
Definition sent (os : list copt) : option delivered :=
  match applyOptions sample_oauth os defaultOpts with Ok c => Some (hc_Transport (oc_http c) "") | Err _ => None end.

(** The client certificate is lost with a bearer token, and kept with OIDC; an OIDC option
    after a bearer token has no effect. *)
Example options_sent :
  sent [OHTTPClient (Some mtls); OBearer "t"] = Some (MkDelivered 0 "Bearer t") ∧
  sent [OHTTPClient (Some mtls); OOIDC sample_oidc] = Some (MkDelivered 1 "Bearer fresh") ∧
  sent [OBearer "t"; OOIDC sample_oidc] = Some (MkDelivered 0 "Bearer t").
Proof. done. Qed.

Lemma client_credential_witness :
  hc_Transport (oc_http (MkOptClient (MkHTTP (bearerAuthTransport "t") 0) 0 0)) "" = MkDelivered 0 "Bearer t".
Proof.
  by apply (client_credential sample_oauth (λ _ _ _, eq_refl) [] mtls [OBearer "t"] (MkOptClient (MkHTTP (bearerAuthTransport "t") 0) 0 0)
    (ltac:(repeat constructor)) eq_refl).
Defined.
