(* ===== verification/Factory.v ===== *)
(** * Building and stopping a cache (factory.go, hypercache_construct.go, NewConfig and
      ApplyHyperCacheOptions of config.go, New and Stop of hypercache.go,
      pkg/stats/collector.go, internal/introspect/cache_backend_checker.go)

    The registry of backend constructors, the configuration with its type parameter, the
    steps of [New] over any of the four backends with what it returns when one of them
    fails, and [Stop].  The backends are those of Backend.v, Redis.v and DistBuild.v, the
    eviction settings those of Construct.v and the management server that of Management.v.

    The theorems: which backend [New] makes of a configuration and what registering
    another constructor can change; the cache that a successful [New] returns; what the
    errors of [New] leave behind; and what [Stop] ends and what it leaves running. *)

From stdpp Require Import base gmap strings list.
From Stdlib Require Import ZArith Lia.
From S2P Require Import Prelude Item Eviction Backend HyperCache Construct Redis Ring Membership Cluster Auth Management DistBuild.

(** ** The registry and the configuration *)

(** The type parameter. *)
Inductive IBackendConstrain := TInMemory | TRedis | TRedisCluster | TDistMemory.
#[export] Instance IBackendConstrain_eq_dec : EqDecision IBackendConstrain.
Proof. solve_decision. Defined.

Definition InMemoryBackend : string := "in-memory".
Definition RedisClusterBackend : string := "redis-cluster".
Definition DistMemoryBackend : string := "dist-memory".

(** A registered value: one of the package's constructors or anything else. *)
Inductive constructor :=
  | InMemoryBackendConstructor | RedisBackendConstructor | RedisClusterBackendConstructor
  | DistMemoryBackendConstructor | OtherConstructor (n : nat).
#[export] Instance constructor_eq_dec : EqDecision constructor.
Proof. solve_decision. Defined.

Definition BackendManager : Type := gmap string constructor.

Definition getDefaultBackends : list (string * constructor) :=
  [(InMemoryBackend, InMemoryBackendConstructor); (RedisBackend, RedisBackendConstructor);
   (RedisClusterBackend, RedisClusterBackendConstructor); (DistMemoryBackend, DistMemoryBackendConstructor)].
Definition RegisterBackend (name : string) (c : constructor) (hcm : BackendManager) : BackendManager := <[name := c]> hcm.
Definition NewEmptyBackendManager : BackendManager := ∅.
Definition NewBackendManager : BackendManager :=
  foldl (λ m '(name, c), RegisterBackend name c m) NewEmptyBackendManager getDefaultBackends.
Definition GetDefaultManager : BackendManager := NewBackendManager.

(** The options of config.go: those of Construct.v, and the ones it leaves out. *)
Inductive CacheOption :=
  | Core (o : Construct.Option)
  | WithStatsCollector (name : string)
  | WithManagementHTTP (addr : string) (opts : list ManagementHTTPOption)
  | WithLogger.

(** Collectors: a registry of constructors, here by what they return. *)
Definition CollectorRegistry : Type := gmap string (result nat).
Definition histogram : nat := 0.
Definition Register (name : string) (createFunc : result nat) (r : CollectorRegistry) : CollectorRegistry := <[name := createFunc]> r.
Definition NewEmptyCollectorRegistry : CollectorRegistry := ∅.
Definition NewCollectorRegistry : CollectorRegistry := Register "default" (Ok histogram) NewEmptyCollectorRegistry.
Definition registry_NewCollector (statsCollectorName : string) (r : CollectorRegistry) : result nat :=
  if decide (statsCollectorName = ""%string) then Err ErrParamCannotBeEmpty
  else match r !! statsCollectorName with None => Err ErrStatsCollectorNotFound | Some createFunc => createFunc end.
Definition NewCollector (statsCollectorName : string) : result nat := registry_NewCollector statsCollectorName NewCollectorRegistry.

Section Factory.
Context {R : Type} `{RedisServer R}.
Context (jsonMarshal : Item → result string) (jsonUnmarshal : string → result Item).
Context (sum64 : string → Z) (SortFunc : (vnode → vnode → Z) → list vnode → list vnode)
  (enum : gmap string loc → list (string * loc)) (idOfAddr : string → string).

(** [WithCapacity] is the only option of the in-memory backend. *)
Record Config := MkConfig {
  cfgT : IBackendConstrain;
  BackendType : string;
  InMemoryOptions : list Z;
  RedisOptions : list (Redis.Option_ (R := R));
  RedisClusterOptions : list (Redis.Option_ (R := R));
  DistMemoryOptions : list DistMemoryOption;
  HyperCacheOptions : list CacheOption }.

Definition DefaultExpirationInterval : Z := 1800000000000.
Definition DefaultEvictionInterval : Z := 600000000000.

Definition NewConfig (T : IBackendConstrain) (backendType : string) : result Config :=
  if allSpace (bytes_of backendType) then Err ErrParamCannotBeEmpty
  else Ok (MkConfig T backendType [] [] [] []
         [Core (WithExpirationInterval DefaultExpirationInterval); Core (WithEvictionAlgorithm "lfu");
          Core (WithEvictionInterval DefaultEvictionInterval)]).

(** ** Resolving the backend *)

(** A value of the interface type: the concrete type is its constructor. *)
Inductive backend_ :=
  | BInMemory (b : InMemory) | BRedis (b : Redis (R := R)) | BRedisCluster (b : Redis (R := R)) | BDistMemory (dm : distMemory).

(** The system: the clock, whether the dist listener binds, and the HTTP transport. *)
Record system := MkSystem { sys_now : Z; sys_listen : bool; sys_http : nat; sys_mgmt : result string }.

(** The [Create] methods; [None] is the dangling node pointer of NewDistMemory. *)
Definition InMemory_Create (cfg : Config) : result backend_ :=
  result_map BInMemory (NewInMemory (foldl (λ _ c, c) 0%Z (InMemoryOptions cfg))).
Definition Redis_Create (cfg : Config) : result backend_ :=
  result_map BRedis (NewRedis jsonMarshal jsonUnmarshal (RedisOptions cfg)).
Definition RedisCluster_Create (cfg : Config) : result backend_ :=
  result_map BRedisCluster (NewRedisCluster jsonMarshal jsonUnmarshal (RedisClusterOptions cfg)).
Definition DistMemory_Create (sys : system) (cfg : Config) : option (result backend_) :=
  r ← NewDistMemory sum64 SortFunc enum idOfAddr (sys_now sys) (sys_listen sys) (sys_http sys) (DistMemoryOptions cfg);
  Some (result_map BDistMemory r).

(** The methods of [IBackend[T]] do not mention T, so every backend implements it. *)
Definition castBackend (T : IBackendConstrain) (bi : backend_) : result backend_ := Ok bi.

Definition resolveInMemoryBackend (c : constructor) (cfg : Config) : result backend_ :=
  match c with
  | InMemoryBackendConstructor =>
      if decide (cfgT cfg = TInMemory) then
        match InMemory_Create cfg with Err e => Err e | Ok bi => castBackend (cfgT cfg) bi end
      else Err ErrInvalidBackendType
  | _ => Err ErrInvalidBackendType
  end.
Definition resolveRedisBackend (c : constructor) (cfg : Config) : result backend_ :=
  match c with
  | RedisBackendConstructor =>
      if decide (cfgT cfg = TRedis) then
        match Redis_Create cfg with Err e => Err e | Ok bi => castBackend (cfgT cfg) bi end
      else Err ErrInvalidBackendType
  | _ => Err ErrInvalidBackendType
  end.
Definition resolveRedisClusterBackend (c : constructor) (cfg : Config) : result backend_ :=
  match c with
  | RedisClusterBackendConstructor =>
      if decide (cfgT cfg = TRedisCluster) then
        match RedisCluster_Create cfg with Err e => Err e | Ok bi => castBackend (cfgT cfg) bi end
      else Err ErrInvalidBackendType
  | _ => Err ErrInvalidBackendType
  end.
Definition resolveDistMemoryBackend (sys : system) (c : constructor) (cfg : Config) : option (result backend_) :=
  match c with
  | DistMemoryBackendConstructor =>
      if decide (cfgT cfg = TDistMemory) then
        r ← DistMemory_Create sys cfg;
        Some (match r with Err e => Err e | Ok bi => castBackend (cfgT cfg) bi end)
      else Some (Err ErrInvalidBackendType)
  | _ => Some (Err ErrInvalidBackendType)
  end.

Definition unknownBackend (name : string) : error := ErrOther (String.append "unknown backend type: " name).

Definition resolveBackend (sys : system) (bm : BackendManager) (cfg : Config) : option (result backend_) :=
  match bm !! BackendType cfg with
  | None => Some (Err (unknownBackend (BackendType cfg)))
  | Some c =>
      if decide (BackendType cfg = InMemoryBackend) then Some (resolveInMemoryBackend c cfg)
      else if decide (BackendType cfg = RedisBackend) then Some (resolveRedisBackend c cfg)
      else if decide (BackendType cfg = RedisClusterBackend) then Some (resolveRedisClusterBackend c cfg)
      else if decide (BackendType cfg = DistMemoryBackend) then resolveDistMemoryBackend sys c cfg
      else Some (Err (unknownBackend (BackendType cfg)))
  end.

(** ** New *)

Definition bk_Capacity (b : backend_) : Z :=
  match b with
  | BInMemory b => Backend.capacity b
  | BRedis b | BRedisCluster b => rcapacity b
  | BDistMemory dm => nums dm DistBuild.capacity
  end.

(** [c_jobs]: the context of the background loops, when they were started, and whether it
    is cancelled; [c_once]: whether [once] has run. *)
Record cache := MkCache {
  c_backend : backend_;
  c_type : string;
  c_settings : Settings;
  c_shouldEvict : bool;
  c_maxEvictionCount : Z;
  c_alg : option AnyAlgorithm;
  c_statsName : string;
  c_stats : option nat;
  c_mgmt : option ManagementHTTPServer;
  c_trigger : option Z;
  c_jobs : option bool;
  c_once : bool;
  c_stop : nat;
  c_poolClosed : bool }.

Definition newHyperCacheBase (b : backend_) (ty : string) : cache :=
  MkCache b ty baseSettings false 0 None "" None None None None false 0 false.

Definition applyCacheOption (c : cache) (o : CacheOption) : cache :=
  match o with
  | Core o => MkCache (c_backend c) (c_type c) (Construct.applyOption (c_settings c) o) (c_shouldEvict c) (c_maxEvictionCount c)
                (c_alg c) (c_statsName c) (c_stats c) (c_mgmt c) (c_trigger c) (c_jobs c) (c_once c) (c_stop c) (c_poolClosed c)
  | WithStatsCollector name =>
      MkCache (c_backend c) (c_type c) (c_settings c) (c_shouldEvict c) (c_maxEvictionCount c)
        (c_alg c) name (c_stats c) (c_mgmt c) (c_trigger c) (c_jobs c) (c_once c) (c_stop c) (c_poolClosed c)
  | WithManagementHTTP addr opts =>
      if decide (addr = ""%string) then c
      else MkCache (c_backend c) (c_type c) (c_settings c) (c_shouldEvict c) (c_maxEvictionCount c)
             (c_alg c) (c_statsName c) (c_stats c) (Some (NewManagementHTTPServer addr opts)) (c_trigger c) (c_jobs c) (c_once c)
             (c_stop c) (c_poolClosed c)
  | WithLogger => c
  end.
Definition ApplyHyperCacheOptions (opts : list CacheOption) (c : cache) : cache := foldl applyCacheOption c opts.

Definition with_eviction (se : bool) (n : Z) (a : option AnyAlgorithm) (c : cache) : cache :=
  MkCache (c_backend c) (c_type c) (c_settings c) se n a (c_statsName c) (c_stats c) (c_mgmt c) (c_trigger c) (c_jobs c)
    (c_once c) (c_stop c) (c_poolClosed c).
Definition with_stats (st : option nat) (c : cache) : cache :=
  MkCache (c_backend c) (c_type c) (c_settings c) (c_shouldEvict c) (c_maxEvictionCount c) (c_alg c) (c_statsName c) st
    (c_mgmt c) (c_trigger c) (c_jobs c) (c_once c) (c_stop c) (c_poolClosed c).
Definition with_jobs (tr : option Z) (j : option bool) (on : bool) (c : cache) : cache :=
  MkCache (c_backend c) (c_type c) (c_settings c) (c_shouldEvict c) (c_maxEvictionCount c) (c_alg c) (c_statsName c)
    (c_stats c) (c_mgmt c) tr j on (c_stop c) (c_poolClosed c).
Definition with_mgmt (m : option ManagementHTTPServer) (c : cache) : cache :=
  MkCache (c_backend c) (c_type c) (c_settings c) (c_shouldEvict c) (c_maxEvictionCount c) (c_alg c) (c_statsName c)
    (c_stats c) m (c_trigger c) (c_jobs c) (c_once c) (c_stop c) (c_poolClosed c).

Definition configureStats (c : cache) : cache * option error :=
  if decide (c_statsName c = ""%string) then (with_stats (Some histogram) c, None)
  else match NewCollector (c_statsName c) with
       | Ok st => (with_stats (Some st) c, None)
       | Err e => (with_stats None c, Some e)
       end.

Definition checkCapacity (c : cache) : option error :=
  if (bk_Capacity (c_backend c) <? 0)%Z then Some ErrInvalidCapacity else None.

Definition startBackgroundJobs (c : cache) : cache :=
  if c_once c then c else with_jobs (c_trigger c) (Some false) true c.

Definition startManagement (listen : result string) (c : cache) : cache :=
  match c_mgmt c with
  | None => c
  | Some srv =>
      match Management.Start listen srv with
      | (srv, None) => with_mgmt (Some srv) c
      | (_, Some _) => with_mgmt None c
      end
  end.

(** What Go returns: a cache or nil, and an error or nil. *)
Definition New (sys : system) (bm : BackendManager) (cfg : Config) : option (option cache * option error) :=
  r ← resolveBackend sys bm cfg;
  match r with
  | Err e => Some (None, Some e)
  | Ok b =>
      let c := ApplyHyperCacheOptions (HyperCacheOptions cfg) (newHyperCacheBase b (BackendType cfg)) in
      let '(se, n) := configureEvictionSettings (c_settings c) (bk_Capacity b) in
      let c := with_eviction se n None c in
      match initEvictionAlgorithm (s_evictionAlgorithmName (c_settings c)) n (s_evictionShardCount (c_settings c)) with
      | Err e => Some (Some c, Some e)
      | Ok a =>
          match configureStats (with_eviction se n (Some a) c) with
          | (c, Some e) => Some (Some c, Some e)
          | (c, None) =>
              match checkCapacity c with
              | Some e => Some (None, Some e)
              | None =>
                  let c := with_jobs (Some (initExpirationTrigger (bk_Capacity b) (s_triggerBufSize (c_settings c)))) (c_jobs c) (c_once c) c in
                  Some (Some (startManagement (sys_mgmt sys) (startBackgroundJobs c)), None)
              end
          end
      end
  end.

Definition NewInMemoryWithDefaults (sys : system) (capacity : Z) : option (option cache * option error) :=
  match NewConfig TInMemory InMemoryBackend with
  | Err e => Some (None, Some e)
  | Ok config =>
      let config := MkConfig TInMemory (BackendType config) [capacity] (RedisOptions config) (RedisClusterOptions config)
        (DistMemoryOptions config)
        [Core (WithEvictionInterval DefaultEvictionInterval); Core (WithEvictionAlgorithm "lru");
         Core (WithExpirationInterval DefaultExpirationInterval)] in
      r ← New sys GetDefaultManager config;
      Some (match r with (_, Some e) => (None, Some e) | (c, None) => (c, None) end)
  end.

(** ** Stop *)

(** [workerPool.Shutdown] waits, without a deadline, until the jobs of the pool have run:
    [poolReturns] says whether they do (Pool.v has runs of both kinds, among them one in
    which Shutdown waits for ever); a pool that is already closed is not waited for.  The
    answer is [None] when [Stop] never returns, and the cache is then as the wait leaves
    it.  The shutdown of the management server, which has a deadline, fails with
    [mgmtErr]. *)
Definition Stop (poolReturns : bool) (mgmtErr : option error) (c : cache) : cache * option (option error) :=
  let returns := poolReturns || c_poolClosed c in
  let stop := if c_stop c <? 2 then c_stop c + 1 else c_stop c in
  let c := MkCache (c_backend c) (c_type c) (c_settings c) (c_shouldEvict c) (c_maxEvictionCount c) (c_alg c) (c_statsName c)
             (c_stats c) (c_mgmt c) (c_trigger c) ((λ _, true) <$> c_jobs c) false stop true in
  if negb returns then (c, None)
  else
    match c_mgmt c with
    | None => (c, Some None)
    | Some srv => (with_mgmt (Some (Management.Shutdown srv)) c, Some (if started srv then mgmtErr else None))
    end.

(** ** Introspection *)

Definition IsInMemory (c : cache) : bool := match c_backend c with BInMemory _ => true | _ => false end.
Definition IsRedis (c : cache) : bool := match c_backend c with BRedis _ => true | _ => false end.
Definition GetRegisteredType (c : cache) : string := c_type c.
Definition ManagementHTTPAddress (c : cache) : string := match c_mgmt c with None => "" | Some srv => Management.Address srv end.

End Factory.

(** ** Facts *)

Section FactoryFacts.
Context {R : Type} `{RedisServer R}.
Context (jsonMarshal : Item → result string) (jsonUnmarshal : string → result Item).
Context (sum64 : string → Z) (SortFunc : (vnode → vnode → Z) → list vnode → list vnode)
  (enum : gmap string loc → list (string * loc)) (idOfAddr : string → string).

#[local] Notation resolve := (resolveBackend jsonMarshal jsonUnmarshal sum64 SortFunc enum idOfAddr).
#[local] Notation new := (New jsonMarshal jsonUnmarshal sum64 SortFunc enum idOfAddr).

(** The name and the constructor that belong to a type parameter, and the type of a value. *)
Definition nameOf (T : IBackendConstrain) : string :=
  match T with TInMemory => InMemoryBackend | TRedis => RedisBackend | TRedisCluster => RedisClusterBackend | TDistMemory => DistMemoryBackend end.
Definition constructorOf (T : IBackendConstrain) : constructor :=
  match T with
  | TInMemory => InMemoryBackendConstructor | TRedis => RedisBackendConstructor
  | TRedisCluster => RedisClusterBackendConstructor | TDistMemory => DistMemoryBackendConstructor
  end.
Definition typeOf (b : backend_ (R := R)) : IBackendConstrain :=
  match b with BInMemory _ => TInMemory | BRedis _ => TRedis | BRedisCluster _ => TRedisCluster | BDistMemory _ => TDistMemory end.

(** What the constructor of the type parameter makes of the configuration. *)
Definition create (sys : system) (cfg : Config (R := R)) : option (result backend_) :=
  match cfgT cfg with
  | TInMemory => Some (InMemory_Create cfg)
  | TRedis => Some (Redis_Create jsonMarshal jsonUnmarshal cfg)
  | TRedisCluster => Some (RedisCluster_Create jsonMarshal jsonUnmarshal cfg)
  | TDistMemory => DistMemory_Create sum64 SortFunc enum idOfAddr sys cfg
  end.

(** Resolving: with the name and the constructor of the type parameter it creates the
    backend, and everything else is refused. *)
Lemma resolve_ok sys bm cfg :
  resolve sys bm cfg =
    match bm !! BackendType cfg with
    | None => Some (Err (unknownBackend (BackendType cfg)))
    | Some c =>
        if decide (BackendType cfg ∈ nameOf <$> [TInMemory; TRedis; TRedisCluster; TDistMemory]) then
          if decide (BackendType cfg = nameOf (cfgT cfg) ∧ c = constructorOf (cfgT cfg)) then create sys cfg
          else Some (Err ErrInvalidBackendType)
        else Some (Err (unknownBackend (BackendType cfg)))
    end.
Proof.
  unfold resolveBackend. destruct (bm !! BackendType cfg) as [c|]; [|done].
  destruct cfg as [T ty o1 o2 o3 o4 o5]. cbn [BackendType cfgT].
  do 4 (case_decide; [subst ty; rewrite (decide_True (P := _ ∈ _)) by (cbn; set_solver);
    destruct T, c; cbn [nameOf constructorOf]; try (rewrite decide_False by (intros [? ?]; done); reflexivity);
    rewrite decide_True by done; unfold create, resolveInMemoryBackend, resolveRedisBackend, resolveRedisClusterBackend, resolveDistMemoryBackend, castBackend;
    cbn [cfgT]; rewrite decide_True by done; try (by case_match);
    destruct (DistMemory_Create _ _ _ _ _ _) as [[]|]; reflexivity|]).
  rewrite decide_False; [done|]. cbn. set_solver.
Qed.

Lemma default_constructor T : GetDefaultManager !! nameOf T = Some (constructorOf T).
Proof. by destruct T. Qed.

(** Whatever constructors were registered, under whatever names, building a cache
    gives exactly what the default registry gives, or no cache and one of two errors:
    registering can take a backend away but neither add nor replace one. *)
Theorem factory_closed sys bm (cfg : Config (R := R)) :
  new sys bm cfg = new sys GetDefaultManager cfg ∨
  ∃ e, new sys bm cfg = Some (None, Some e) ∧ (e = ErrInvalidBackendType ∨ e = unknownBackend (BackendType cfg)).
Proof.
  unfold New. rewrite !resolve_ok. destruct (bm !! BackendType cfg) as [c|] eqn:Ec.
  2: { right. cbn. eauto. }
  case_decide as Hn; cbn [mbind option_bind]; [|right; eauto].
  case_decide as Hc; [|right; cbn; eauto]. destruct Hc as [Ht ->]. left.
  rewrite Ht, default_constructor. by rewrite decide_True.
Qed.

(** A created backend has the type of the parameter. *)
Lemma create_type sys cfg b : create sys cfg = Some (Ok b) → typeOf b = cfgT cfg.
Proof.
  unfold create, DistMemory_Create, InMemory_Create, Redis_Create, RedisCluster_Create.
  destruct (cfgT cfg); [intros [= E]|intros [= E]|intros [= E]|].
  1-3: revert E; unfold result_map; case_match; intros [= <-]; done.
  destruct (NewDistMemory _ _ _ _ _ _ _ _) as [[dm|]|]; cbn; by intros [= <-].
Qed.

(** A management server that was never started. *)
Definition unstarted (s : ManagementHTTPServer) : Prop := started s = false ∧ ln s = None ∧ mounts s = 0 ∧ appDown s = false.
Lemma fresh_unstarted addr mo : unstarted (NewManagementHTTPServer addr mo).
Proof.
  unfold NewManagementHTTPServer. assert (∀ s, unstarted s → unstarted (foldl Management.applyOption s mo)) as Hg; [|by apply Hg].
  induction mo as [|o mo IH]; intros s Hs; [done|]. cbn [foldl]. apply IH. unfold unstarted in *. destruct s, o; cbn in *; try case_match; done.
Qed.

Lemma apply_options opts : ∀ c : cache (R := R),
  let c' := ApplyHyperCacheOptions opts c in
  c_backend c' = c_backend c ∧ c_type c' = c_type c ∧ c_jobs c' = c_jobs c ∧ c_once c' = c_once c ∧ c_poolClosed c' = c_poolClosed c ∧
  (match c_mgmt c with Some s => unstarted s | None => True end →
   match c_mgmt c' with Some s => unstarted s | None => True end).
Proof.
  induction opts as [|o opts IH]; intros c; [done|]. cbn zeta. unfold ApplyHyperCacheOptions in *. cbn [foldl].
  destruct (IH (applyCacheOption c o)) as (-> & -> & -> & -> & -> & Hm). cbn zeta in Hm.
  destruct o as [o|name|addr mo|]; cbn [applyCacheOption] in *; [done|done| |done].
  case_decide; [done|]. split_and!; try done. intros _. apply Hm. cbn. clear.
  apply fresh_unstarted.
Qed.

Lemma options_no_stats opts : ∀ c : cache (R := R), c_stats c = None → c_stats (ApplyHyperCacheOptions opts c) = None.
Proof.
  induction opts as [|o opts IH]; intros c E; [done|]. unfold ApplyHyperCacheOptions in *. cbn [foldl].
  apply IH. destruct o; cbn; try case_decide; done.
Qed.

(** A successful [New]: the backend is the one its constructor makes, every part is
    there, the background loops run, and a management server that is kept is served. *)
Theorem new_ok sys bm cfg c :
  new sys bm cfg = Some (Some c, None) →
  BackendType cfg = nameOf (cfgT cfg) ∧ create sys cfg = Some (Ok (c_backend c)) ∧ typeOf (c_backend c) = cfgT cfg ∧
  (0 ≤ bk_Capacity (c_backend c))%Z ∧ is_Some (c_alg c) ∧ is_Some (c_stats c) ∧ is_Some (c_trigger c) ∧
  c_jobs c = Some false ∧ c_poolClosed c = false ∧ (∀ srv, c_mgmt c = Some srv → listening srv = true) ∧
  c_settings c = c_settings (ApplyHyperCacheOptions (HyperCacheOptions cfg) (newHyperCacheBase (c_backend c) (BackendType cfg))) ∧
  (c_shouldEvict c, c_maxEvictionCount c) = configureEvictionSettings (c_settings c) (bk_Capacity (c_backend c)).
Proof.
  unfold New. rewrite resolve_ok. destruct (bm !! BackendType cfg) as [ct|]; [|by intros [=]].
  case_decide; [|by intros [=]]. case_decide as Ht; [|by intros [=]]. destruct Ht as [Ht _].
  destruct (create sys cfg) as [[b|e]|] eqn:Eb; [|by intros [=]|done]. cbn [mbind option_bind].
  pose proof (create_type _ _ _ Eb) as HT.
  set (c0 := ApplyHyperCacheOptions _ _). pose proof (apply_options (HyperCacheOptions cfg) (newHyperCacheBase b (BackendType cfg))) as Ha.
  cbn zeta in Ha. fold c0 in Ha. destruct Ha as (Hb & _ & Hj & Ho & Hp & Hm). cbn in Hb, Hj, Ho, Hp, Hm. specialize (Hm I).
  destruct (configureEvictionSettings (c_settings c0) (bk_Capacity b)) as [se n] eqn:Ecs. cbn [c_settings with_eviction].
  destruct (initEvictionAlgorithm _ _ _) as [a|e]; [|by intros [=]]. unfold configureStats. cbn [c_statsName with_eviction].
  assert (∀ st c1, c1 = with_stats (Some st) (with_eviction se n (Some a) c0) →
    match checkCapacity c1 with
    | Some e => Some (None, Some e)
    | None => Some (Some (startManagement (sys_mgmt sys) (startBackgroundJobs (with_jobs
        (Some (initExpirationTrigger (bk_Capacity b) (s_triggerBufSize (c_settings c1)))) (c_jobs c1) (c_once c1) c1))), None)
    end = Some (Some c, None) →
    Some (Ok b) = Some (Ok (c_backend c)) ∧ typeOf (c_backend c) = cfgT cfg ∧
    (0 ≤ bk_Capacity (c_backend c))%Z ∧ is_Some (c_alg c) ∧ is_Some (c_stats c) ∧ is_Some (c_trigger c) ∧
    c_jobs c = Some false ∧ c_poolClosed c = false ∧ (∀ srv, c_mgmt c = Some srv → listening srv = true) ∧
    c_settings c = c_settings (ApplyHyperCacheOptions (HyperCacheOptions cfg) (newHyperCacheBase (c_backend c) (BackendType cfg))) ∧
    (c_shouldEvict c, c_maxEvictionCount c) = configureEvictionSettings (c_settings c) (bk_Capacity (c_backend c))) as Hfin.
  { intros st c1 ->. unfold checkCapacity. cbn [c_backend with_stats with_eviction]. rewrite Hb.
    destruct (Z.ltb_spec (bk_Capacity b) 0); [by intros [=]|]. unfold startBackgroundJobs. cbn. rewrite Ho.
    unfold startManagement. cbn. destruct (c_mgmt c0) as [srv|] eqn:Em.
    2: { intros [= <-]. cbn. rewrite Hb. split_and!; try done; eauto. by rewrite Em. }
    destruct Hm as (Hs & Hl & Hmo & Hd). unfold Start. rewrite Hs. destruct (sys_mgmt sys) as [ad|e]; intros [= <-]; cbn; rewrite Hb;
      (split_and!; try done; eauto). intros srv' [= <-]. unfold listening. cbn. by rewrite Hmo, Hd. }
  case_decide.
  - intros E. split; [done|]. by eapply Hfin.
  - destruct (NewCollector _) as [st|e]; [|by intros [=]]. intros E. split; [done|]. by eapply Hfin.
Qed.

(** The errors of [New]: before the backend exists there is no cache; a bad algorithm or
    collector is reported together with a cache whose backend was created and whose
    worker pool runs, while its loops were not started. *)
Theorem new_error sys bm cfg oc e :
  new sys bm cfg = Some (oc, Some e) →
  match oc with
  | None => (∃ e', create sys cfg = Some (Err e') ∧ e = e') ∨ e = ErrInvalidBackendType ∨ e = unknownBackend (BackendType cfg) ∨ e = ErrInvalidCapacity
  | Some c => create sys cfg = Some (Ok (c_backend c)) ∧ c_jobs c = None ∧ c_poolClosed c = false ∧ c_stats c = None
  end.
Proof.
  unfold New. rewrite resolve_ok. destruct (bm !! BackendType cfg) as [ct|]; [|intros [= <- <-]; auto].
  case_decide; [|intros [= <- <-]; auto]. case_decide as Ht; [|intros [= <- <-]; auto].
  destruct (create sys cfg) as [[b|e']|] eqn:Eb; [|intros [= <- <-]; eauto|done]. cbn [mbind option_bind].
  set (c0 := ApplyHyperCacheOptions _ _). pose proof (apply_options (HyperCacheOptions cfg) (newHyperCacheBase b (BackendType cfg))) as Ha.
  cbn zeta in Ha. fold c0 in Ha. destruct Ha as (Hb & _ & Hj & _ & Hp & _). cbn in Hb, Hj, Hp.
  assert (c_stats c0 = None) as Hst by (by apply options_no_stats). clearbody c0.
  destruct (configureEvictionSettings (c_settings c0) (bk_Capacity b)) as [se n]. cbn [c_settings with_eviction].
  destruct (initEvictionAlgorithm _ _ _) as [a|e']; [|intros [= <- <-]; cbn; by rewrite Hb, Hj, Hp, Hst].
  unfold configureStats, checkCapacity. cbn [c_statsName with_eviction].
  case_decide; [|destruct (NewCollector _) as [st|e']; [|intros [= <- <-]; cbn; by rewrite Hb, Hj, Hp]];
    (cbn; destruct (_ <? 0)%Z; intros [=]; simplify_eq; auto).
Qed.

(** What every way of starting a loop preserves, starting them all preserves. *)
Lemma startLoops_rest (P : distMemory → Prop) dm :
  (∀ l ch d, P d → P (startLoop l ch d)) → (∀ l d, P d → P (startBare l d)) →
  (∀ v d, P d → P (set rebalanceBatchSize v d)) → (∀ v d, P d → P (set rebalanceMaxConcurrent v d)) →
  P (startHeartbeatIfEnabled dm) → P (startLoops dm).
Proof.
  intros H1 H2 H3 H4 H5. unfold startLoops.
  assert (∀ d, P d → P (startHintReplayIfEnabled d)) as A2 by (intros d Hd; unfold startHintReplayIfEnabled; case_match; auto).
  assert (∀ d, P d → P (startGossipIfEnabled d)) as A3 by (intros d Hd; unfold startGossipIfEnabled; case_match; auto).
  assert (∀ d, P d → P (startAutoSyncIfEnabled d)) as A4 by (intros d Hd; unfold startAutoSyncIfEnabled; repeat case_match; auto).
  assert (∀ d, P d → P (startTombstoneSweeper d)) as A5 by (intros d Hd; unfold startTombstoneSweeper; case_match; auto).
  assert (∀ d, P d → P (startRebalancerIfEnabled d)) as A6
    by (intros d Hd; unfold startRebalancerIfEnabled; cbn zeta; repeat case_match; auto).
  assert (∀ d, P d → P (startRepairQueueIfEnabled d)) as A7 by (intros d Hd; unfold startRepairQueueIfEnabled; case_match; auto).
  auto 10.
Qed.
Lemma startLoops_ind (P : distMemory → Prop) dm :
  (∀ l ch d, P d → P (startLoop l ch d)) → (∀ l d, P d → P (startBare l d)) →
  (∀ v d, P d → P (set rebalanceBatchSize v d)) → (∀ v d, P d → P (set rebalanceMaxConcurrent v d)) →
  P dm → P (startLoops dm).
Proof.
  intros H1 H2 H3 H4 H5. apply startLoops_rest; try done. unfold startHeartbeatIfEnabled. apply H2. repeat case_match; auto.
Qed.

(** The event publisher is always started. *)
Lemma startLoops_some dm : running (startLoops dm) ≠ [].
Proof.
  apply startLoops_rest; try done.
  - intros l ch d Hd. cbn. by destruct (running d).
  - intros l d Hd. cbn. by destruct (running d).
  - unfold startHeartbeatIfEnabled. cbn. intros E. by apply app_eq_nil in E as [_ E].
Qed.

(** The goroutines of a backend that was just built: none of them has a reason to end. *)
Lemma built_running opts now listen http dm :
  Forall option_of opts → (∀ m, enum m ≡ₚ map_to_list m) →
  NewDistMemory sum64 SortFunc enum idOfAddr now listen http opts = Some (Ok dm) →
  fresh_loops dm ∧ lifeDone dm = false ∧ isDraining dm = false.
Proof.
  intros Ho Henum. destruct (built sum64 SortFunc enum idOfAddr opts now listen http Ho) as (E & Hc & Hl). cbn zeta in *. rewrite E.
  set (cfg := foldl _ _ _) in *. destruct (validate (httpAuth cfg)); [by intros [=]|].
  destruct (standalone sum64 SortFunc enum idOfAddr Henum now cfg) as (m & p & -> & _); [by destruct Hl|done|].
  cbn [mbind option_bind]. intros [= <-]. set (dm1 := tryStartHTTP listen http _).
  assert (fresh_loops dm1 ∧ lifeDone dm1 = false ∧ isDraining dm1 = false) as (Hf & Hd & Hdr).
  { assert (stopChs dm1 = stopChs cfg ∧ running dm1 = running cfg ∧ closedChs dm1 = closedChs cfg ∧ stopped dm1 = stopped cfg ∧
      lifeDone dm1 = lifeDone cfg ∧ isDraining dm1 = isDraining cfg) as (E1 & E2 & E3 & E4 & E5 & E6).
    { unfold dm1, tryStartHTTP. repeat case_match; done. }
    destruct Hl as [_ _ L3 L4 L5 L6 L7 L8 _]. rewrite E5, E6, L6, L8. split; [|done].
    split; [|split; [by rewrite E3, L5|by rewrite E4, L7]]. split; [rewrite E1, L3; done|rewrite E2, L4; by apply Forall_nil]. }
  split; [by apply startLoops_ok|].
  apply (startLoops_ind (λ d, lifeDone d = false ∧ isDraining d = false)); done.
Qed.

(** Building keeps what the options have left in the fields. *)
Definition same_config (cfg dm : distMemory) : Prop :=
  httpAuth dm = httpAuth cfg ∧ readLevel dm = readLevel cfg ∧ writeLevel dm = writeLevel cfg ∧
  ∀ f, f ≠ shardCount → f ≠ rebalanceBatchSize → f ≠ rebalanceMaxConcurrent → nums dm f = nums cfg f.
Lemma built_config opts now listen http dm :
  NewDistMemory sum64 SortFunc enum idOfAddr now listen http opts = Some (Ok dm) → same_config (foldl (λ dm opt, opt dm) freshDist opts) dm.
Proof.
  unfold NewDistMemory. set (cfg := foldl _ _ _). destruct (validate _); [by intros [=]|].
  destruct (initMembershipIfNeeded _ _ _ _ _ _) as [d|] eqn:Ei; [|done]. cbn. intros [= <-].
  assert (same_config cfg (ensureShardConfig cfg)) as H1.
  { unfold ensureShardConfig. case_match; [|done]. split_and!; try done. intros f Hf _ _. cbn. by rewrite decide_False. }
  assert (same_config cfg d) as H2.
  { revert Ei H1. generalize (ensureShardConfig cfg). intros d0. unfold initMembershipIfNeeded, initStandaloneMembership. intros Ei H1.
    destruct (members d0); repeat (apply bind_Some in Ei as (? & ? & Ei); try case_match); simplify_eq; try done; by case_match. }
  assert (same_config cfg (tryStartHTTP listen http d)) as H3 by (unfold tryStartHTTP; repeat case_match; done).
  apply startLoops_ind; try done.
  all: intros v d' (Ha & Hr & Hw & Hn); split_and!; try done; intros f H4 H5 H6; cbn; rewrite decide_False by done; by apply Hn.
Qed.
Lemma built_some opts now listen http dm :
  NewDistMemory sum64 SortFunc enum idOfAddr now listen http opts = Some (Ok dm) → running dm ≠ [].
Proof.
  unfold NewDistMemory. destruct (validate _); [by intros [=]|]. destruct (initMembershipIfNeeded _ _ _ _ _ _) as [d|]; [|done].
  cbn. intros [= <-]. apply startLoops_some.
Qed.

(** Stopping a cache over the distributed backend ends its own loops, closes its worker
    pool and, once the pool's jobs have run, ends the management server; while they have
    not, it does not return and the management server stays up.  It leaves the backend as
    it was: none of the goroutines that the backend started has a reason to end and its
    listener stays, although the backend's own Stop would end them all. *)
Theorem stop_leaves_backend sys bm (cfg : Config (R := R)) (c : cache (R := R)) dm poolReturns mgmtErr :
  Forall option_of (DistMemoryOptions cfg) → (∀ m, enum m ≡ₚ map_to_list m) →
  new sys bm cfg = Some (Some c, None) → c_backend c = BDistMemory dm →
  let c' := (Stop poolReturns mgmtErr c).1 in
  c_jobs c' = Some true ∧ c_poolClosed c' = true ∧ ((Stop poolReturns mgmtErr c).2 ≠ None ↔ poolReturns = true) ∧
  (∀ srv, c_mgmt c' = Some srv → listening srv = negb poolReturns) ∧
  c_backend c' = BDistMemory dm ∧ running dm ≠ [] ∧ Forall (λ r, ended r dm = false) (running dm) ∧
  (∃ dm', DistBuild.Stop dm = Some dm' ∧ running dm' = running dm ∧ Forall (λ r, ended r dm' = true) (running dm') ∧ httpServer dm' = false).
Proof.
  intros Hopts Henum Hn Hb. destruct (new_ok _ _ _ _ Hn) as (_ & Hc & HT & _ & _ & _ & _ & Hj & Hpc & Hm & _).
  rewrite Hb in Hc, HT. cbn in HT. unfold create in Hc. rewrite <- HT in Hc. unfold DistMemory_Create in Hc.
  destruct (NewDistMemory _ _ _ _ _ _ _ _) as [[dm0|]|] eqn:Ed; try done. injection Hc as ->.
  destruct (built_running _ _ _ _ _ Hopts Henum Ed) as ((Hlo & Hcl & Hst) & Hld & _).
  set (st := Stop poolReturns mgmtErr c).
  assert (c_jobs st.1 = Some true ∧ c_poolClosed st.1 = true ∧ c_backend st.1 = c_backend c ∧ (st.2 ≠ None ↔ poolReturns = true) ∧
    (∀ srv, c_mgmt st.1 = Some srv → listening srv = negb poolReturns)) as (H1 & H2 & H3 & H4 & H5).
  { unfold st, Stop. rewrite Hpc, orb_false_r. cbn [c_mgmt]. destruct poolReturns; cbn [negb].
    - destruct (c_mgmt c) as [srv|] eqn:Em; cbn; rewrite Hj; (split_and!; [done..|]); [|done].
      intros srv' [= <-]. specialize (Hm srv eq_refl). unfold listening in *. unfold Shutdown.
      destruct (ln srv) eqn:El; [|done]. apply andb_true_iff in Hm as [Hm _]. apply andb_true_iff in Hm as [_ Hm]. rewrite Hm. cbn.
      rewrite ?El. by rewrite andb_false_r.
    - cbn. rewrite Hj. by split_and!. }
  cbn zeta. fold st.
  split_and!; try done; [by rewrite H3| | |].
  - eapply built_some. exact Ed.
  - apply Forall_forall. intros [l [ch|]] Hr; unfold ended; cbn; rewrite Hld, andb_false_r; [|done]. rewrite Hcl.
    cbn. apply bool_decide_eq_false. set_solver.
  - destruct (stop_ok dm Hlo Hst) as (dm' & Es & Er & Eh & _ & He). by exists dm'.
Qed.
End FactoryFacts.

(** ** Examples and witnesses *)

Definition sampleSystem : system := MkSystem 0 true 1 (Ok "127.0.0.1:8081").
Definition sampleConfig (T : IBackendConstrain) (name : string) (dist : list DistMemoryOption) (opts : list CacheOption) : Config (R := modelRedis) :=
  MkConfig T name [] [] [] dist opts.
Definition sampleNew : BackendManager → Config (R := modelRedis) → option (option cache * option error) :=
  New sampleMarshal sampleUnmarshal sample_sum64 sample_sort map_to_list (λ a, a) sampleSystem.
Definition clusterOptions : list DistMemoryOption := [WithDistNode "a" "a:1"; WithDistVirtualNodes 1; WithDistHeartbeat 5 10 20; WithDistGossipInterval 1].

(** A constructor under a new name is refused, and so is another one under a known name. *)
Example register_new_name :
  sampleNew (RegisterBackend "mine" (OtherConstructor 1) GetDefaultManager) (sampleConfig TInMemory "mine" [] []) =
    Some (None, Some (unknownBackend "mine")) ∧
  sampleNew (RegisterBackend InMemoryBackend (OtherConstructor 1) GetDefaultManager) (sampleConfig TInMemory InMemoryBackend [] []) =
    Some (None, Some ErrInvalidBackendType).
Proof. split; reflexivity. Qed.

(** An unknown collector is an error, with a distributed backend that runs. *)
Example error_leaves_backend :
  match sampleNew GetDefaultManager (sampleConfig TDistMemory DistMemoryBackend clusterOptions [WithStatsCollector "none"; Core (WithEvictionShardCount 1)]) with
  | Some (Some c, Some e) =>
      match c_backend c with
      | BDistMemory dm => Some (e, (running dm).*1, httpServer dm, stopped dm)
      | _ => None
      end
  | _ => None
  end = Some (ErrStatsCollectorNotFound, [LHeartbeat; LEventPublisher; LGossip], true, false).
Proof. vm_compute. reflexivity. Qed.

(** [New] on the default configuration of the in-memory backend. *)
Example defaults_small :
  ∃ c, NewInMemoryWithDefaults (R := modelRedis) sampleMarshal sampleUnmarshal sample_sum64 sample_sort map_to_list (λ a, a) sampleSystem 10 =
    Some (Some c, None) ∧ bk_Capacity (c_backend c) = 10%Z ∧ c_maxEvictionCount c = 10%Z ∧ c_trigger c = Some 5%Z ∧
    IsInMemory c = true ∧ IsRedis c = false ∧ GetRegisteredType c = InMemoryBackend.
Proof. vm_compute. eexists. split_and!; reflexivity. Qed.

Definition sampleCluster : Config (R := modelRedis) :=
  sampleConfig TDistMemory DistMemoryBackend clusterOptions [WithManagementHTTP ":8081" []; Core (WithEvictionShardCount 1)].
Lemma stop_leaves_backend_witness :
  ∃ c dm, sampleNew GetDefaultManager sampleCluster = Some (Some c, None) ∧
    c_backend (Stop true None c).1 = BDistMemory dm ∧ Forall (λ r, ended r dm = false) (running dm).
Proof.
  assert (match sampleNew GetDefaultManager sampleCluster with
          | Some (Some c, None) => match c_backend c with BDistMemory _ => true | _ => false end
          | _ => false end = true) as Hok by (vm_compute; reflexivity).
  destruct (sampleNew GetDefaultManager sampleCluster) as [[[c|] [e|]]|] eqn:E; try discriminate Hok.
  destruct (c_backend c) as [b|b|b|dm] eqn:Eb; try discriminate Hok. exists c, dm.
  destruct (stop_leaves_backend sampleMarshal sampleUnmarshal sample_sum64 sample_sort map_to_list (λ a, a) sampleSystem GetDefaultManager
    sampleCluster c dm true None) as (_ & _ & _ & _ & H1 & _ & H2 & _).
  - repeat constructor.
  - intros m. reflexivity.
  - exact E.
  - exact Eb.
  - exact (conj eq_refl (conj H1 H2)).
Defined.
