(* ===== verification/Float.v ===== *)
(** * float64

    The conversions and operations on Go's float64 that the sources use, on the 53-bit
    binary floats of [SpecFloat]: rounding to nearest even, and conversion to an integer
    by truncation.  The conversion of an infinity or of what is not a number is left to
    the machine by the language and is zero here; no theorem depends on it. *)

From Stdlib Require Import ZArith SpecFloat.

Definition float64 (n : Z) : spec_float := binary_normalize 53 1024 n 0 false.

Definition fadd : spec_float -> spec_float -> spec_float := SFadd 53 1024.
Definition fsub : spec_float -> spec_float -> spec_float := SFsub 53 1024.
Definition fmul : spec_float -> spec_float -> spec_float := SFmul 53 1024.
Definition fdiv : spec_float -> spec_float -> spec_float := SFdiv 53 1024.

Definition truncFloat (x : spec_float) : Z :=
  match x with
  | S754_finite s m e => let a := Z.shiftl (Zpos m) e in if s then Z.opp a else a
  | _ => 0%Z
  end.

(** The integers up to the precision survive the round trip. *)
Example float_small : truncFloat (float64 9007199254740991) = 9007199254740991%Z /\ truncFloat (float64 (-7)) = (-7)%Z /\
  truncFloat (fdiv (float64 (-7)) (float64 2)) = (-3)%Z /\ float64 9007199254740993 = float64 9007199254740992.
Proof. vm_compute. repeat split. Qed.
