(* ===== verification/ServerRun.v ===== *)
(** * The server process (cmd/hypercache-server/main.go)

    The configuration from the environment with the parsers it uses ([strconv.Atoi],
    [time.ParseDuration], [strings.Split]), the options that [buildHyperCache] makes of it,
    the TLS configuration and the start of the client API, [run] with its exit codes, and
    the shutdown sequence.  [Server.v] has the handlers and the authentication policy.

    [getenv] is the environment, [""] for a variable that is not set.  The network and the
    files are parameters: which listeners bind, key pairs and certificate bundles; so is
    whether the worker pool's shutdown returns (Pool.v says when it does).  The
    fractions of a duration are computed with the floats of Float.v.

    The theorems: the capacity that is configured is not used; what authenticates the
    inter-node port; which connections the API accepts for every TLS setting; the failure
    detector's timings; and the order of the shutdown with what it leaves running. *)

From stdpp Require Import base gmap strings list.
From Stdlib Require Import ZArith Lia.
From S2P Require Import Prelude Float Item Eviction Backend HyperCache Construct Redis Ring Membership Cluster Auth Transport Client Server Management DistBuild Factory.

(** ** The standard library *)

Definition isDigit (c : nat) : bool := (48 <=? c) && (c <=? 57).

Fixpoint digitsLoop (bs : list nat) (acc : Z) : option Z :=
  match bs with
  | [] => Some acc
  | c :: r => if isDigit c then digitsLoop r (acc * 10 + (Z.of_nat c - 48))%Z else None
  end.
(** An optional sign. *)
Definition cutSign (bs : list nat) : bool * list nat :=
  match bs with 45 :: r => (true, r) | 43 :: r => (false, r) | _ => (false, bs) end.

(** [strconv.Atoi] of a 64-bit int. *)
Definition Atoi (s : string) : option Z :=
  let '(neg, ds) := cutSign (bytes_of s) in
  match ds with
  | [] => None
  | _ =>
      n ← digitsLoop ds 0;
      let n := if neg then (- n)%Z else n in
      if decide (- 2 ^ 63 ≤ n < 2 ^ 63)%Z then Some n else None
  end.

(** [leadingInt]: [None] is an overflow. *)
Fixpoint leadingInt (bs : list nat) (x : Z) : option (Z * list nat) :=
  match bs with
  | c :: r =>
      if isDigit c then
        if (2 ^ 63 / 10 <? x)%Z then None
        else
          let x := (x * 10 + (Z.of_nat c - 48))%Z in
          if (2 ^ 63 <? x)%Z then None else leadingInt r x
      else Some (x, bs)
  | [] => Some (x, [])
  end.
(** [leadingFraction]: the digits kept, the power of ten and the rest. *)
Fixpoint leadingFraction (bs : list nat) (x scale : Z) (overflow : bool) : Z * Z * list nat :=
  match bs with
  | c :: r =>
      if isDigit c then
        if overflow then leadingFraction r x scale true
        else if ((2 ^ 63 - 1) / 10 <? x)%Z then leadingFraction r x scale true
        else
          let y := (x * 10 + (Z.of_nat c - 48))%Z in
          if (2 ^ 63 <? y)%Z then leadingFraction r x scale true else leadingFraction r y (scale * 10)%Z false
      else (x, scale, bs)
  | [] => (x, scale, [])
  end.
Fixpoint takeUnit (bs : list nat) : list nat * list nat :=
  match bs with
  | c :: r => if (c =? 46) || isDigit c then ([], bs) else let '(u, r) := takeUnit r in (c :: u, r)
  | [] => ([], [])
  end.
Definition unitMap (u : list nat) : option Z :=
  if decide (u = bytes_of "ns") then Some 1%Z
  else if decide (u = bytes_of "us" ∨ u = [194; 181; 115] ∨ u = [206; 188; 115]) then Some 1000%Z
  else if decide (u = bytes_of "ms") then Some 1000000%Z
  else if decide (u = bytes_of "s") then Some 1000000000%Z
  else if decide (u = bytes_of "m") then Some 60000000000%Z
  else if decide (u = bytes_of "h") then Some 3600000000000%Z
  else None.

(** The fraction of a unit, in floating point. *)
Definition fraction (f unit scale : Z) : Z :=
  truncFloat (fmul (float64 f) (fdiv (float64 unit) (float64 scale))).

(** One number with its unit; the result is added to [d]. *)
Definition durationStep (bs : list nat) (d : Z) : option (Z * list nat) :=
  match bs with
  | [] => None
  | c :: _ =>
      if negb ((c =? 46) || isDigit c) then None
      else
        '(v, s) ← leadingInt bs 0;
        let pre := negb (length bs =? length s) in
        let '(f, scale, s', post) :=
          match s with
          | dot :: r =>
              if dot =? 46 then let '(f, scale, s') := leadingFraction r 0 1 false in (f, scale, s', negb (length r =? length s'))
              else (0%Z, 1%Z, s, false)
          | [] => (0%Z, 1%Z, s, false)
          end in
        if negb pre && negb post then None
        else
          let '(u, rest) := takeUnit s' in
          match u with
          | [] => None
          | _ =>
              unit ← unitMap u;
              if (2 ^ 63 / unit <? v)%Z then None
              else
                let v := (v * unit)%Z in
                let v := if (0 <? f)%Z then u64 (v + fraction f unit scale) else v in
                if (0 <? f)%Z && (2 ^ 63 <? v)%Z then None
                else
                  let d := u64 (d + v) in
                  if (2 ^ 63 <? d)%Z then None else Some (d, rest)
          end
  end.
(** Every step takes at least a byte, so [fuel] is the length. *)
Fixpoint durationLoop (fuel : nat) (bs : list nat) (d : Z) : option Z :=
  match bs, fuel with
  | [], _ => Some d
  | _, O => None
  | _, Datatypes.S n => '(d, bs) ← durationStep bs d; durationLoop n bs d
  end.
Definition ParseDuration (s : string) : option Z :=
  let '(neg, bs) := cutSign (bytes_of s) in
  if decide (bs = [48]) then Some 0%Z
  else match bs with
       | [] => None
       | _ =>
           d ← durationLoop (length bs) bs 0;
           if neg then Some (i64 (- i64 d)) else if (2 ^ 63 - 1 <? d)%Z then None else Some d
       end.

(** [strings.Split] at a byte. *)
Fixpoint splitByte (sep : nat) (bs cur : list nat) : list (list nat) :=
  match bs with
  | [] => [cur]
  | c :: r => if decide (c = sep) then cur :: splitByte sep r [] else splitByte sep r (cur ++ [c])
  end.

(** [strings.ToLower], as far as comparing with lower-case ASCII text goes: U+0130 and
    U+212A are the only other letters whose lower case is ASCII. *)
Fixpoint toLower (bs : list nat) : list nat :=
  match bs with
  | 196 :: 176 :: r => 105 :: toLower r
  | 226 :: 132 :: 170 :: r => 107 :: toLower r
  | c :: r => (if (65 <=? c) && (c <=? 90) then c + 32 else c) :: toLower r
  | [] => []
  end.
Fixpoint containsBytes (sub bs : list nat) : bool :=
  bool_decide (take (length sub) bs = sub) || match bs with [] => false | _ :: r => containsBytes sub r end.

(** ** The configuration *)

Inductive Level := LevelDebug | LevelInfo | LevelWarn | LevelError.

Record envConfig := MkEnvConfig {
  NodeID : string; APIAddr : string; MgmtAddr : string; DistAddr : string;
  Seeds : list string; Replication : Z; Capacity : Z;
  AuthPolicy : Policy;
  APITLSCert : string; APITLSKey : string; APITLSCA : string;
  LogLevel : Level;
  HintTTL : Z; HintReplay : Z; Heartbeat : Z; IndirectK : Z; RebalanceInt : Z; GossipInt : Z;
  OIDC : oidcConfig }.

Definition defaultReplication : Z := 3.
Definition defaultCapacity : Z := 100000.
Definition defaultVirtualNodes : Z := 64.
Definition defaultIndirectK : Z := 2.
Definition suspectMultiplier : Z := 3.
Definition deadMultiplier : Z := 6.
Definition defaultHintTTL : Z := 30000000000.
Definition defaultHintReplay : Z := 200000000.
Definition defaultHeartbeat : Z := 1000000000.
Definition defaultRebalance : Z := 250000000.
Definition defaultGossip : Z := 1000000000.

Section Process.
Context (getenv : string → string) (hostname : option string).

Definition envOr (key fallback : string) : string :=
  let v := getenv key in if decide (v ≠ ""%string) then v else fallback.
Definition envInt (key : string) (fallback : Z) : Z :=
  let v := getenv key in
  if decide (v = ""%string) then fallback else match Atoi v with None => fallback | Some n => n end.
Definition envDuration (key : string) (fallback : Z) : Z :=
  let v := getenv key in
  if decide (v = ""%string) then fallback else match ParseDuration v with None => fallback | Some d => d end.

Definition splitCSV (s : string) : list string :=
  if decide (s = ""%string) then []
  else
    foldl (λ out p, let t := trimSpace p in if decide (t = []) then out else out ++ [string_of_bytes (Z.of_nat <$> t)])
      [] (splitByte 44 (bytes_of s) []).

Definition parseLogLevel (s : string) : Level :=
  let l := toLower (bytes_of s) in
  if decide (l = bytes_of "debug") then LevelDebug
  else if decide (l = bytes_of "warn" ∨ l = bytes_of "warning") then LevelWarn
  else if decide (l = bytes_of "error") then LevelError
  else LevelInfo.

Definition hostnameOrDefault : string :=
  match hostname with None => "node" | Some h => if decide (h = ""%string) then "node"%string else h end.

Context (bcryptCost : string → option Z) (decodeFile : string → result fileSchema).

Definition EnvAuthConfig : string := "HYPERCACHE_AUTH_CONFIG".
Definition EnvAuthToken : string := "HYPERCACHE_AUTH_TOKEN".

Definition loadConfig : result envConfig :=
  match LoadFromEnv bcryptCost decodeFile (getenv EnvAuthConfig) (getenv EnvAuthToken) with
  | Err e => Err e
  | Ok policy =>
      let cfg := MkEnvConfig
        (envOr "HYPERCACHE_NODE_ID" hostnameOrDefault) (envOr "HYPERCACHE_API_ADDR" ":8080")
        (envOr "HYPERCACHE_MGMT_ADDR" ":8081") (envOr "HYPERCACHE_DIST_ADDR" ":7946")
        (splitCSV (getenv "HYPERCACHE_SEEDS")) (envInt "HYPERCACHE_REPLICATION" defaultReplication)
        (envInt "HYPERCACHE_CAPACITY" defaultCapacity) policy
        (getenv "HYPERCACHE_API_TLS_CERT") (getenv "HYPERCACHE_API_TLS_KEY") (getenv "HYPERCACHE_API_TLS_CLIENT_CA")
        (parseLogLevel (envOr "HYPERCACHE_LOG_LEVEL" "info"))
        (envDuration "HYPERCACHE_HINT_TTL" defaultHintTTL) (envDuration "HYPERCACHE_HINT_REPLAY" defaultHintReplay)
        (envDuration "HYPERCACHE_HEARTBEAT" defaultHeartbeat) (envInt "HYPERCACHE_INDIRECT_PROBE_K" defaultIndirectK)
        (envDuration "HYPERCACHE_REBALANCE_INTERVAL" defaultRebalance) (envDuration "HYPERCACHE_GOSSIP_INTERVAL" defaultGossip)
        (MkOIDC (getenv "HYPERCACHE_OIDC_ISSUER") (getenv "HYPERCACHE_OIDC_AUDIENCE")
           (envOr "HYPERCACHE_OIDC_IDENTITY_CLAIM" "sub") (envOr "HYPERCACHE_OIDC_SCOPE_CLAIM" "scope")) in
      match validateOIDCConfig (OIDC cfg) with Some e => Err e | None => Ok cfg end
  end.

(** ** The cache *)

Context {R : Type} `{RedisServer R}.
Context (jsonMarshal : Item → result string) (jsonUnmarshal : string → result Item).
Context (sum64 : string → Z) (SortFunc : (vnode → vnode → Z) → list vnode → list vnode)
  (enum : gmap string loc → list (string * loc)) (idOfAddr : string → string).
Context (bcryptCompare : string → string → bool).

(** The options of the distributed backend; products of durations are 64-bit. *)
Definition distOptions (cfg : envConfig) (peerToken : string) : list DistMemoryOption :=
  [WithDistNode (NodeID cfg) (DistAddr cfg); WithDistSeeds (Seeds cfg); WithDistReplication (Replication cfg);
   WithDistVirtualNodes defaultVirtualNodes; WithDistReadConsistency ConsistencyOne; WithDistWriteConsistency ConsistencyQuorum;
   WithDistHeartbeat (Heartbeat cfg) (i64 (suspectMultiplier * Heartbeat cfg)) (i64 (deadMultiplier * Heartbeat cfg));
   WithDistIndirectProbes (IndirectK cfg) (Z.quot (Heartbeat cfg) 2);
   WithDistGossipInterval (GossipInt cfg); WithDistHintTTL (HintTTL cfg); WithDistHintReplayInterval (HintReplay cfg);
   WithDistRebalanceInterval (RebalanceInt cfg)] ++
  (if decide (peerToken ≠ ""%string) then [WithDistHTTPAuth (MkDistAuth peerToken None None false)] else []).

Definition serverConfig (cfg : envConfig) (peerToken : string) : result (Config (R := R)) :=
  match NewConfig TDistMemory DistMemoryBackend with
  | Err e => Err e
  | Ok c =>
      Ok (MkConfig (cfgT c) (BackendType c) (InMemoryOptions c) (RedisOptions c) (RedisClusterOptions c) (distOptions cfg peerToken)
            (HyperCacheOptions c ++ [WithManagementHTTP (MgmtAddr cfg) (mgmtOptions bcryptCompare (AuthPolicy cfg)); WithLogger]))
  end.
Definition buildHyperCache (sys : system) (cfg : envConfig) : option (result (cache (R := R))) :=
  match serverConfig cfg (getenv EnvAuthToken) with
  | Err e => Some (Err e)
  | Ok hcCfg =>
      r ← New jsonMarshal jsonUnmarshal sum64 SortFunc enum idOfAddr sys GetDefaultManager hcCfg;
      match r with
      | (_, Some e) => Some (Err e)
      | (Some hc, None) => Some (Ok hc)
      | (None, None) => None
      end
  end.

(** ** The client API *)

(** Certificates by number; the key pair and the bundle are what the files hold. *)
Context (LoadX509KeyPair : string → string → result nat) (ReadFile : string → result (list Z)) (certsOfPEM : list Z → list nat).

(** [ClientAuth] is RequireAndVerifyClientCert exactly when there is a pool. *)
Record tlsConfig := MkTLS { Certificates : list nat; ClientCAs : option (list nat) }.

Definition errAPITLSPartial : error := ErrOther "API TLS: only one of the certificate and the key is set".
Definition errAPITLSNoPEMInCA : error := ErrOther "API TLS: no certificate in the client CA bundle".

Definition buildAPITLSConfig (cfg : envConfig) : result (option tlsConfig) :=
  if decide (APITLSCert cfg = ""%string ∧ APITLSKey cfg = ""%string) then Ok None
  else if decide (APITLSCert cfg = ""%string ∨ APITLSKey cfg = ""%string) then Err errAPITLSPartial
  else
    match LoadX509KeyPair (APITLSCert cfg) (APITLSKey cfg) with
    | Err e => Err e
    | Ok cert =>
        if decide (APITLSCA cfg = ""%string) then Ok (Some (MkTLS [cert] None))
        else
          match ReadFile (APITLSCA cfg) with
          | Err e => Err e
          | Ok caPEM =>
              match certsOfPEM caPEM with
              | [] => Err errAPITLSNoPEMInCA
              | pool => Ok (Some (MkTLS [cert] (Some pool)))
              end
          end
    end.

(** The application: its policy and node, the TLS configuration of its listener, and
    whether the listener is bound. *)
Record apiServer := MkApiServer { app_policy : Policy; app_node : string; app_tls : option tlsConfig; app_serving : bool }.

(** [listen] is the answer of the system.  The plaintext listener is bound by the
    goroutine, which only logs an error. *)
Definition runPlaintextListener (listen : option error) (app : apiServer) : apiServer :=
  MkApiServer (app_policy app) (app_node app) (app_tls app) (match listen with None => true | Some _ => false end).
Definition runWrappedListener (app : apiServer) : apiServer :=
  MkApiServer (app_policy app) (app_node app) (app_tls app) true.
Definition runClientAPI (listen : option error) (cfg : envConfig) : result apiServer :=
  match buildAPITLSConfig cfg with
  | Err e => Err e
  | Ok None => Ok (runPlaintextListener listen (MkApiServer (AuthPolicy cfg) (NodeID cfg) None false))
  | Ok (Some t) =>
      match listen with
      | Some e => Err e
      | None => Ok (runWrappedListener (MkApiServer (AuthPolicy cfg) (NodeID cfg) (Some t) false))
      end
  end.

(** ** The life of the process *)

Definition with_cache_backend (b : backend_ (R := R)) (c : cache (R := R)) : cache (R := R) :=
  MkCache b (c_type c) (c_settings c) (c_shouldEvict c) (c_maxEvictionCount c) (c_alg c) (c_statsName c) (c_stats c) (c_mgmt c)
    (c_trigger c) (c_jobs c) (c_once c) (c_stop c) (c_poolClosed c).
Definition DistDrain (c : cache (R := R)) : cache (R := R) :=
  match c_backend c with BDistMemory dm => with_cache_backend (BDistMemory (Drain dm)) c | _ => c end.
Definition ShutdownWithContext (app : apiServer) : apiServer :=
  MkApiServer (app_policy app) (app_node app) (app_tls app) false.

Record process := MkProcess { p_cache : option (cache (R := R)); p_api : option apiServer }.

(** The states of the process in the order in which the calls reach them, and whether the
    last call returns. *)
Definition awaitShutdown (poolReturns : bool) (mgmtErr : option error) (hc : cache (R := R)) (apiApp : apiServer)
    : list process * bool :=
  let hc1 := DistDrain hc in
  let app := ShutdownWithContext apiApp in
  let '(hc2, r) := Factory.Stop poolReturns mgmtErr hc1 in
  ([MkProcess (Some hc1) (Some apiApp); MkProcess (Some hc1) (Some app); MkProcess (Some hc2) (Some app)],
   match r with Some _ => true | None => false end).

(** The deferred cancellation reaches the contexts derived from it: the lifetime of the
    backend and the background jobs. *)
Definition cancelAll (p : process) : process :=
  match p_cache p with
  | None => p
  | Some c =>
      let c := match c_backend c with
               | BDistMemory dm =>
                   with_cache_backend (BDistMemory (with_loops (stopChs dm) (running dm) (closedChs dm) true (queueStopped dm) dm)) c
               | _ => c
               end in
      MkProcess (Some (Factory.with_jobs (c_trigger c) ((λ _, true) <$> c_jobs c) (c_once c) c)) (p_api p)
  end.

Context (discover : string → string → option (string → option (gmap string claim))).

Definition with_policy (p : Policy) (cfg : envConfig) : envConfig :=
  MkEnvConfig (NodeID cfg) (APIAddr cfg) (MgmtAddr cfg) (DistAddr cfg) (Seeds cfg) (Replication cfg) (Capacity cfg) p
    (APITLSCert cfg) (APITLSKey cfg) (APITLSCA cfg) (LogLevel cfg) (HintTTL cfg) (HintReplay cfg) (Heartbeat cfg) (IndirectK cfg)
    (RebalanceInt cfg) (GossipInt cfg) (OIDC cfg).

(** The exit code and the states of the process, the last one after the deferred call; or
    the states of a process that never ends. *)
Inductive fate := Exits (code : Z) (states : list process) | Waits (states : list process).

Definition run (sys : system) (apiListen : option error) (poolReturns : bool) (mgmtErr : option error) : option fate :=
  match loadConfig with
  | Err _ => Some (Exits 1 [])
  | Ok cfg =>
      let cfg := if IsConfigured (AuthPolicy cfg) then cfg else with_policy (with_AllowAnonymous (AuthPolicy cfg)) cfg in
      match attachOIDCVerifier discover (OIDC cfg) (AuthPolicy cfg) with
      | None => Some (Exits 1 [])
      | Some p =>
          let cfg := with_policy p cfg in
          b ← buildHyperCache sys cfg;
          match b with
          | Err _ => Some (Exits 1 [])
          | Ok hc =>
              match runClientAPI apiListen cfg with
              | Err _ =>
                  let '(hc', r) := Factory.Stop poolReturns mgmtErr hc in
                  let st := MkProcess (Some hc') None in
                  match r with
                  | Some _ => Some (Exits 1 [MkProcess (Some hc) None; st; cancelAll st])
                  | None => Some (Waits [MkProcess (Some hc) None; st])
                  end
              | Ok app =>
                  let '(ps, returns) := awaitShutdown poolReturns mgmtErr hc app in
                  let ps := MkProcess (Some hc) (Some app) :: ps in
                  if returns : bool then Some (Exits 0 (ps ++ (cancelAll <$> option_list (last ps)))) else Some (Waits ps)
              end
          end
      end
  end.

End Process.

(** Small runs of the parsers. *)
Example parse_durations :
  ParseDuration "1.5h" = Some 5400000000000%Z ∧ ParseDuration "-250ms" = Some (-250000000)%Z ∧ ParseDuration "1m0.333333333333333333s" = Some 60333333333%Z ∧
  ParseDuration "0" = Some 0%Z ∧ ParseDuration "+5s" = Some 5000000000%Z ∧ ParseDuration "5" = None ∧ ParseDuration "s" = None ∧ ParseDuration "." = None ∧
  ParseDuration "" = None ∧ ParseDuration "1x" = None ∧ ParseDuration "9223372036854775807ns" = Some 9223372036854775807%Z ∧
  ParseDuration "9223372036854775808ns" = None ∧ ParseDuration "-9223372036854775808ns" = Some (-9223372036854775808)%Z.
Proof. vm_compute. done. Qed.
Example parse_others :
  Atoi "42" = Some 42%Z ∧ Atoi "-7" = Some (-7)%Z ∧ Atoi "+" = None ∧ Atoi "4x" = None ∧ Atoi "9223372036854775808" = None ∧
  splitCSV " a@h:1 , ,b " = ["a@h:1"; "b"]%string ∧ parseLogLevel "WARNING" = LevelWarn ∧ parseLogLevel "verbose" = LevelInfo.
Proof. vm_compute. done. Qed.

(** ** Facts *)

(** Every step of a duration takes a byte, so the fuel that [ParseDuration] passes is
    enough and more changes nothing. *)
Lemma leadingInt_rest bs : ∀ x v s, leadingInt bs x = Some (v, s) → length s ≤ length bs.
Proof.
  induction bs as [|c bs IH]; intros x v s; cbn [leadingInt]; [by intros [= _ <-]|].
  destruct (isDigit c); [|by intros [= _ <-]]. destruct (_ <? x)%Z; [done|]. destruct (_ <? _)%Z; [done|]. intros E%IH. cbn. lia.
Qed.
Lemma leadingFraction_rest bs : ∀ x sc o, length (leadingFraction bs x sc o).2 ≤ length bs.
Proof.
  induction bs as [|c bs IH]; intros x sc o; cbn [leadingFraction]; [done|].
  destruct (isDigit c); [|done].
  assert (∀ x sc o, length (leadingFraction bs x sc o).2 ≤ length (c :: bs)) as IH' by (intros; etrans; [apply IH|cbn; lia]).
  destruct o; [apply IH'|]. destruct (_ <? x)%Z; [apply IH'|]. destruct (_ <? _)%Z; apply IH'.
Qed.
Lemma takeUnit_length bs : length (takeUnit bs).1 + length (takeUnit bs).2 = length bs.
Proof.
  induction bs as [|c bs IH]; [done|]. cbn [takeUnit]. destruct (_ || _); [done|]. destruct (takeUnit bs) as [u r]. cbn in *. lia.
Qed.
Lemma durationStep_rest bs d d' rest : durationStep bs d = Some (d', rest) → length rest < length bs.
Proof.
  unfold durationStep. destruct bs as [|c bs]; [done|]. destruct (negb _); [done|].
  destruct (leadingInt (c :: bs) 0) as [[v s]|] eqn:El; [|done]. cbn [mbind option_bind]. apply leadingInt_rest in El.
  assert (∃ f scale s' post, (match s with
    | dot :: r => if dot =? 46 then let '(f, scale, s') := leadingFraction r 0 1 false in (f, scale, s', negb (length r =? length s'))
                  else (0%Z, 1%Z, s, false)
    | [] => (0%Z, 1%Z, s, false) end) = (f, scale, s', post) ∧ length s' ≤ length s) as (f & scale & s' & post & -> & Hs).
  { destruct s as [|dot r]; [by eexists _, _, _, _|]. destruct (dot =? 46); [|by eexists _, _, _, _].
    pose proof (leadingFraction_rest r 0 1 false) as Hr. destruct (leadingFraction r 0 1 false) as [[f scale] s'].
    eexists _, _, _, _. split; [done|]. cbn in *. lia. }
  destruct (_ && _); [done|]. pose proof (takeUnit_length s') as Ht. destruct (takeUnit s') as [[|c0 u] r]; [done|]. cbn in Ht.
  destruct (unitMap _) as [unit|]; [|done]. cbn [mbind option_bind]. repeat (destruct (_ <? _)%Z; try done); cbn [andb];
    repeat (destruct (_ <? _)%Z; try done); intros [= _ <-]; cbn in *; lia.
Qed.
Lemma durationLoop_fuel n : ∀ bs d, length bs ≤ n → durationLoop n bs d = durationLoop (length bs) bs d.
Proof.
  assert (∀ n m bs d, length bs ≤ n → length bs ≤ m → durationLoop n bs d = durationLoop m bs d) as H; [|intros bs d Hl; by apply H].
  intros k. induction k as [|k IH]; intros [|m] [|c bs] d Hn Hm; try done; cbn in Hn, Hm; try lia. cbn [durationLoop].
  destruct (durationStep (c :: bs) d) as [[d' rest]|] eqn:E; [|done]. cbn [mbind option_bind].
  apply durationStep_rest in E. cbn in E. apply IH; lia.
Qed.

Lemma ParseDuration_range s d : ParseDuration s = Some d → (- 2 ^ 63 ≤ d < 2 ^ 63)%Z.
Proof.
  unfold ParseDuration. destruct (cutSign _) as [neg bs]. case_decide; [intros [= <-]; lia|].
  destruct bs as [|c bs]; [done|].
  assert (∀ fuel bs d0, (0 ≤ d0)%Z → ∀ d1, durationLoop fuel bs d0 = Some d1 → (0 ≤ d1)%Z) as Hpos.
  { induction fuel as [|fuel IH]; intros [|x l] d0 H0 d1; cbn [durationLoop]; try done; try by intros [= <-].
    destruct (durationStep (x :: l) d0) as [[d2 l2]|] eqn:E; [|done]. cbn [mbind option_bind]. apply IH.
    unfold durationStep in E. repeat (case_match; try done; simplify_option_eq); apply u64_bound. }
  intros Hd. apply bind_Some in Hd as (d1 & E & Hd). specialize (Hpos _ _ _ (Z.le_refl 0) _ E). destruct neg.
  - injection Hd as <-. apply i64_bound.
  - destruct (Z.ltb_spec (2 ^ 63 - 1) d1); [done|]. injection Hd as <-. lia.
Qed.

Section ServerFacts.
Context (hostname : option string) (bcryptCost : string → option Z) (decodeFile : string → result fileSchema).
Context {R : Type} `{RedisServer R}.
Context (jsonMarshal : Item → result string) (jsonUnmarshal : string → result Item).
Context (sum64 : string → Z) (SortFunc : (vnode → vnode → Z) → list vnode → list vnode)
  (enum : gmap string loc → list (string * loc)) (idOfAddr : string → string).
Context (bcryptCompare : string → string → bool).
Context (LoadX509KeyPair : string → string → result nat) (ReadFile : string → result (list Z)) (certsOfPEM : list Z → list nat).
Context (discover : string → string → option (string → option (gmap string claim))).

#[local] Notation load getenv := (loadConfig getenv hostname bcryptCost decodeFile).
#[local] Notation build getenv := (buildHyperCache (R := R) getenv jsonMarshal jsonUnmarshal sum64 SortFunc enum idOfAddr bcryptCompare).
#[local] Notation api := (runClientAPI LoadX509KeyPair ReadFile certsOfPEM).
#[local] Notation go getenv := (run (R := R) getenv hostname bcryptCost decodeFile jsonMarshal jsonUnmarshal sum64 SortFunc enum idOfAddr
  bcryptCompare LoadX509KeyPair ReadFile certsOfPEM discover).

Lemma distOptions_of cfg tok : Forall option_of (distOptions cfg tok).
Proof. unfold distOptions. apply Forall_app. split; [repeat constructor|]. case_decide; repeat constructor. Qed.

(** A cache that was built: over a distributed backend with the options of the
    configuration. *)
Lemma built_server getenv sys cfg (hc : cache (R := R)) :
  build getenv sys cfg = Some (Ok hc) →
  ∃ dm (hcCfg : Config (R := R)), c_backend hc = BDistMemory dm ∧
    NewDistMemory sum64 SortFunc enum idOfAddr (sys_now sys) (sys_listen sys) (sys_http sys) (distOptions cfg (getenv EnvAuthToken)) = Some (Ok dm) ∧
    serverConfig bcryptCompare cfg (getenv EnvAuthToken) = Ok hcCfg ∧
    New jsonMarshal jsonUnmarshal sum64 SortFunc enum idOfAddr sys GetDefaultManager hcCfg = Some (Some hc, None).
Proof.
  unfold buildHyperCache. destruct (serverConfig _ _ _) as [hcCfg|] eqn:Ec; [|by intros [=]].
  destruct (New _ _ _ _ _ _ _ _ _) as [[[c|] [e|]]|] eqn:En; cbn [mbind option_bind]; try done; intros [= ->].
  destruct (new_ok _ _ _ _ _ _ _ _ _ _ En) as (_ & Hc & HT & _). injection Ec as <-. cbn in HT.
  unfold create in Hc. cbn [cfgT] in Hc. unfold DistMemory_Create in Hc. cbn [DistMemoryOptions] in Hc.
  destruct (NewDistMemory _ _ _ _ _ _ _ _) as [[dm|]|] eqn:Ed; try done. injection Hc as Hc. by eexists dm, _.
Qed.

(** The backend of a cache that was built has exactly the settings of the options. *)
Lemma server_fields getenv sys cfg (hc : cache (R := R)) dm :
  build getenv sys cfg = Some (Ok hc) → c_backend hc = BDistMemory dm →
  same_config (foldl (λ dm opt, opt dm) freshDist (distOptions cfg (getenv EnvAuthToken))) dm.
Proof.
  intros Hb Hd. destruct (built_server _ _ _ _ Hb) as (dm' & ? & Hd' & Hn & _). rewrite Hd in Hd'. injection Hd' as <-.
  by eapply built_config.
Qed.

(** Two configurations that differ in the capacity only. *)
Definition with_capacity (n : Z) (cfg : envConfig) : envConfig :=
  MkEnvConfig (NodeID cfg) (APIAddr cfg) (MgmtAddr cfg) (DistAddr cfg) (Seeds cfg) (Replication cfg) n (AuthPolicy cfg)
    (APITLSCert cfg) (APITLSKey cfg) (APITLSCA cfg) (LogLevel cfg) (HintTTL cfg) (HintReplay cfg) (Heartbeat cfg) (IndirectK cfg)
    (RebalanceInt cfg) (GossipInt cfg) (OIDC cfg).

Lemma loadConfig_capacity getenv getenv' :
  (∀ key, key ≠ "HYPERCACHE_CAPACITY"%string → getenv key = getenv' key) →
  load getenv' = result_map (with_capacity (envInt getenv' "HYPERCACHE_CAPACITY" defaultCapacity)) (load getenv).
Proof.
  intros He. unfold loadConfig, envOr, envDuration.
  assert (∀ key fb, key ≠ "HYPERCACHE_CAPACITY"%string → envInt getenv' key fb = envInt getenv key fb) as Hi
    by (intros key fb Hk; unfold envInt; by rewrite He).
  rewrite (Hi "HYPERCACHE_REPLICATION"%string), (Hi "HYPERCACHE_INDIRECT_PROBE_K"%string) by done. unfold EnvAuthConfig, EnvAuthToken.
  rewrite <- !He by done. destruct (LoadFromEnv _ _ _ _) as [p|e]; [|done].
  cbn [OIDC]. destruct (validateOIDCConfig _); done.
Qed.

(** C25: the capacity of the environment changes nothing: two environments that agree on
    every other variable give the same process, state by state, and the cache that the
    server builds has a backend of capacity zero, which stands for no limit, never evicts
    on writes, and lets its eviction loop remove no item at all. *)
Theorem capacity_ignored getenv getenv' sys apiListen poolReturns mgmtErr :
  (∀ key, key ≠ "HYPERCACHE_CAPACITY"%string → getenv key = getenv' key) →
  (let go env := run (R := R) env hostname bcryptCost decodeFile jsonMarshal jsonUnmarshal sum64 SortFunc enum idOfAddr bcryptCompare
     LoadX509KeyPair ReadFile certsOfPEM discover sys apiListen poolReturns mgmtErr in go getenv = go getenv') ∧
  ∀ cfg (hc : cache (R := R)),
    buildHyperCache getenv jsonMarshal jsonUnmarshal sum64 SortFunc enum idOfAddr bcryptCompare sys cfg = Some (Ok hc) →
    bk_Capacity (c_backend hc) = 0%Z ∧ c_shouldEvict hc = false ∧ c_maxEvictionCount hc = 0%Z.
Proof.
  intros He. split.
  - cbn zeta. unfold run. rewrite (loadConfig_capacity getenv getenv' He). destruct (load getenv) as [cfg|e]; [|done]. cbn [result_map].
    set (n := envInt getenv' _ _). cbn zeta. cbn [AuthPolicy with_capacity].
    set (cfg1 := if IsConfigured (AuthPolicy cfg) then cfg else _).
    assert ((if IsConfigured (AuthPolicy cfg) then with_capacity n cfg else
      with_policy (with_AllowAnonymous (AuthPolicy cfg)) (with_capacity n cfg)) = with_capacity n cfg1) as ->
      by (unfold cfg1; by destruct (IsConfigured _)).
    cbn [OIDC AuthPolicy with_capacity]. destruct (attachOIDCVerifier _ _ _) as [p|]; [|done].
    unfold buildHyperCache, EnvAuthToken. by rewrite <- (He "HYPERCACHE_AUTH_TOKEN"%string) by done.
  - intros cfg hc Hb. destruct (built_server _ _ _ _ Hb) as (dm & hcCfg & Hd & Hn & Ec & En).
    destruct (server_fields _ _ _ _ _ Hb Hd) as (_ & _ & _ & Hf).
    assert (bk_Capacity (c_backend hc) = 0%Z) as Hcap.
    { rewrite Hd. cbn [bk_Capacity]. rewrite Hf by done. unfold distOptions. rewrite foldl_app. cbn [foldl].
      set (d := WithDistRebalanceInterval _ _). transitivity (nums d DistBuild.capacity); [by case_decide|].
      unfold d, WithDistReplication, positive. case_match; reflexivity. }
    destruct (new_ok _ _ _ _ _ _ _ _ _ _ En) as (_ & _ & _ & _ & _ & _ & _ & _ & _ & _ & Hs & Hev).
    rewrite Hcap, Hs in Hev. injection Ec as <-. cbn [HyperCacheOptions BackendType] in Hev.
    unfold ApplyHyperCacheOptions in Hev. cbn [foldl applyCacheOption app] in Hev.
    split; [done|]. case_decide; cbn in Hev; by injection Hev.
Qed.

(** C26: the inter-node port is guarded by HYPERCACHE_AUTH_TOKEN and by nothing else:
    whatever policy the client API has, with the token set a request passes exactly when
    it carries that token, and with it unset every request passes. *)
Theorem peer_port getenv sys cfg (hc : cache (R := R)) dm :
  build getenv sys cfg = Some (Ok hc) → c_backend hc = BDistMemory dm →
  ∀ header, verify (httpAuth dm) header = None ↔
    getenv EnvAuthToken = ""%string ∨ header = String.append "Bearer " (getenv EnvAuthToken).
Proof.
  intros Hb Hd header. destruct (server_fields _ _ _ _ _ Hb Hd) as (Ha & _).
  assert (httpAuth dm = MkDistAuth (getenv EnvAuthToken) None None false) as ->.
  { rewrite Ha. unfold distOptions. rewrite foldl_app. cbn [foldl]. case_decide as Ht; cbn; [done|].
    transitivity noAuth; [unfold WithDistReplication, positive; by case_match|].
    destruct (decide (getenv EnvAuthToken = ""%string)) as [->|]; [done|]. by destruct Ht. }
  unfold verify. cbn. repeat case_decide; (split; [intros ?; first [done|by left|by right]|intros [?|?]; done]).
Qed.

(** The failure detector: suspicion after three and death after six intervals, as long as
    six intervals are a duration; a replication factor that is not positive is one copy;
    reads ask one owner and writes a quorum. *)
Theorem server_detector getenv sys cfg (hc : cache (R := R)) dm :
  build getenv sys cfg = Some (Ok hc) → c_backend hc = BDistMemory dm → (0 ≤ 6 * Heartbeat cfg < 2 ^ 63)%Z →
  nums dm hbInterval = Heartbeat cfg ∧ nums dm hbSuspectAfter = (3 * Heartbeat cfg)%Z ∧ nums dm hbDeadAfter = (6 * Heartbeat cfg)%Z ∧
  nums dm replication = (if 0 <? Replication cfg then Replication cfg else 1)%Z ∧
  readLevel dm = ConsistencyOne ∧ writeLevel dm = ConsistencyQuorum.
Proof.
  intros Hb Hd Hh. destruct (server_fields _ _ _ _ _ Hb Hd) as (_ & Hr & Hw & Hf). rewrite Hr, Hw, !Hf by done.
  unfold distOptions, suspectMultiplier, deadMultiplier. rewrite !foldl_app. cbn [foldl]. rewrite !i64_small by lia.
  destruct (decide (getenv EnvAuthToken ≠ ""%string)); cbn [foldl]; unfold WithDistReplication, positive; case_match; by split_and!.
Qed.

(** The TLS settings of the client API: with exactly one of the certificate and the
    key there is no API; with both, a listener that is bound, presents that certificate
    and asks for client certificates exactly when a bundle is configured; with neither,
    plain text, also when a bundle of client certificates is configured, and the process
    runs on even when the address cannot be bound. *)
Theorem api_tls listen cfg app :
  api listen cfg = Ok app →
  (APITLSCert cfg = ""%string ↔ APITLSKey cfg = ""%string) ∧
  (app_tls app = None ↔ APITLSCert cfg = ""%string) ∧
  (app_tls app = None → (app_serving app = true ↔ listen = None)) ∧
  (∀ t, app_tls app = Some t → app_serving app = true ∧ listen = None ∧
     (∃ cert, LoadX509KeyPair (APITLSCert cfg) (APITLSKey cfg) = Ok cert ∧ Certificates t = [cert]) ∧
     (is_Some (ClientCAs t) ↔ APITLSCA cfg ≠ ""%string)).
Proof.
  unfold runClientAPI, buildAPITLSConfig. case_decide as H0; [|case_decide as H1; [by intros [=]|]].
  { intros [= <-]. cbn. destruct H0 as [-> ->]. split_and!; try done. by destruct listen. }
  destruct (LoadX509KeyPair _ _) as [cert|]; [|by intros [=]].
  assert (∀ ca t, is_Some ca ↔ APITLSCA cfg ≠ ""%string →
    t = MkTLS [cert] ca → match listen with Some e => Err e | None => Ok (runWrappedListener (MkApiServer (AuthPolicy cfg) (NodeID cfg) (Some t) false)) end = Ok app →
    (APITLSCert cfg = ""%string ↔ APITLSKey cfg = ""%string) ∧ (app_tls app = None ↔ APITLSCert cfg = ""%string) ∧
    (app_tls app = None → (app_serving app = true ↔ listen = None)) ∧
    (∀ t, app_tls app = Some t → app_serving app = true ∧ listen = None ∧
      (∃ cert', Ok cert = Ok cert' ∧ Certificates t = [cert']) ∧ (is_Some (ClientCAs t) ↔ APITLSCA cfg ≠ ""%string))) as Hfin.
  { intros ca t Hca -> E. destruct listen; [done|]. injection E as <-. cbn. split; [tauto|]. split; [split; [done|tauto]|]. split; [done|].
    intros t [= <-]. cbn. split_and!; eauto. }
  case_decide as Hc.
  - apply (Hfin None); [|done]. split; [by intros [? ?]|done].
  - destruct (ReadFile _) as [pem|]; [|by intros [=]]. destruct (certsOfPEM pem) as [|x l]; [by intros [=]|].
    apply (Hfin (Some (x :: l))); [|done]. split; [done|]. by eauto.
Qed.

(** *** The life of the process *)

(** What of a process runs: the API, the management port, the background jobs, the
    inter-node port, and whether writes are refused. *)
Definition backendOf (p : process (R := R)) : option distMemory :=
  match p_cache p with Some c => match c_backend c with BDistMemory dm => Some dm | _ => None end | None => None end.
Definition draining (p : process (R := R)) : bool := match backendOf p with Some dm => isDraining dm | None => false end.
Definition peerUp (p : process (R := R)) : bool := match backendOf p with Some dm => httpServer dm | None => false end.
Definition serving (p : process (R := R)) : bool := match p_api p with Some a => app_serving a | None => false end.
Definition mgmtUp (p : process (R := R)) : bool :=
  match p_cache p with Some c => match c_mgmt c with Some srv => listening srv | None => false end | None => false end.
Definition jobsUp (p : process (R := R)) : bool :=
  match p_cache p with Some c => bool_decide (c_jobs c = Some false) && negb (c_poolClosed c) | None => false end.

Section Life.
Context (Henum : ∀ m, enum m ≡ₚ map_to_list m).

Lemma NewDistMemory_total now listen http opts : Forall option_of opts →
  ∃ r, NewDistMemory sum64 SortFunc enum idOfAddr now listen http opts = Some r.
Proof.
  intros Ho. destruct (built sum64 SortFunc enum idOfAddr opts now listen http Ho) as (-> & Hc & Hl). cbn zeta in *.
  destruct (validate _); [eauto|].
  destruct (standalone sum64 SortFunc enum idOfAddr Henum now (foldl (λ dm opt, opt dm) freshDist opts)) as (m & p & -> & _);
    [by destruct Hl|done|]. cbn. eauto.
Qed.

Lemma build_total getenv sys cfg : ∃ r, build getenv sys cfg = Some r.
Proof.
  unfold buildHyperCache. destruct (serverConfig _ _ _) as [hcCfg|] eqn:Ec; [|eauto]. injection Ec as <-.
  unfold New. rewrite resolve_ok. cbn [BackendType cfgT].
  change (GetDefaultManager !! DistMemoryBackend) with (Some DistMemoryBackendConstructor). cbv iota beta. rewrite (decide_True (P := _ ∈ _)) by (cbn; set_solver).
  rewrite decide_True by done. unfold create. cbn [cfgT]. unfold DistMemory_Create. cbn [DistMemoryOptions].
  destruct (NewDistMemory_total (sys_now sys) (sys_listen sys) (sys_http sys) _ (distOptions_of cfg (getenv EnvAuthToken))) as [r ->].
  cbn [mbind option_bind]. destruct r as [dm|e]; cbn [result_map]; [|cbn; eauto]. set (c := ApplyHyperCacheOptions _ _).
  destruct (configureEvictionSettings _ _) as [se n]. destruct (initEvictionAlgorithm _ _ _); [|cbn; eauto].
  destruct (configureStats _) as [c1 [e|]]; [cbn; eauto|]. destruct (checkCapacity c1); cbn; eauto.
Qed.

(** A cache that was just built. *)
Lemma built_up getenv sys cfg (hc : cache (R := R)) :
  build getenv sys cfg = Some (Ok hc) →
  ∃ dm, c_backend hc = BDistMemory dm ∧ fresh_loops dm ∧ lifeDone dm = false ∧ isDraining dm = false ∧
    c_jobs hc = Some false ∧ c_poolClosed hc = false ∧ (∀ srv, c_mgmt hc = Some srv → listening srv = true).
Proof.
  intros Hb. destruct (built_server _ _ _ _ Hb) as (dm & hcCfg & Hd & Hn & _ & En). exists dm.
  destruct (built_running _ _ _ _ _ _ _ _ _ (distOptions_of _ _) Henum Hn) as (Hf & Hl & Hdr).
  destruct (new_ok _ _ _ _ _ _ _ _ _ _ En) as (_ & _ & _ & _ & _ & _ & _ & Hj & Hp & Hm & _). by split_and!.
Qed.

Lemma shutdown_listening srv : listening srv = true → listening (Shutdown srv) = false.
Proof.
  unfold listening, Shutdown. destruct (ln srv) eqn:El; [|done]. intros Hm.
  apply andb_true_iff in Hm as [Hm _]. apply andb_true_iff in Hm as [_ Hm]. rewrite Hm. cbn. rewrite ?El. by rewrite andb_false_r.
Qed.

(** What a process shows, state by state. *)
Definition shows (states : list (process (R := R))) (api drain mgmt jobs peer : list bool) : Prop :=
  serving <$> states = api ∧ draining <$> states = drain ∧ mgmtUp <$> states = mgmt ∧ jobsUp <$> states = jobs ∧
  peerUp <$> states = peer.

(** The end of a process whose cache was just built. *)
Lemma stops_down mgmtErr (hc : cache (R := R)) dm app :
  c_backend hc = BDistMemory dm → fresh_loops dm → lifeDone dm = false → isDraining dm = false → c_jobs hc = Some false →
  c_poolClosed hc = false → (∀ srv, c_mgmt hc = Some srv → listening srv = true) →
  ∃ api mgmt peer,
  (let '(ps, returns) := awaitShutdown true mgmtErr hc app in
   let states := (MkProcess (Some hc) (Some app) :: ps) ++ (cancelAll <$> option_list (last (MkProcess (Some hc) (Some app) :: ps))) in
   returns = true ∧
   shows states [api; api; false; false; false] [false; true; true; true; true] [mgmt; mgmt; mgmt; false; false]
     [true; true; true; false; false] [peer; peer; peer; peer; peer] ∧
   (∀ p dm, last states = Some p → backendOf p = Some dm → Forall (λ r, ended r dm = watchesCtx r.1) (running dm))) ∧
  (let '(ps, returns) := awaitShutdown false mgmtErr hc app in
   returns = false ∧
   shows (MkProcess (Some hc) (Some app) :: ps) [api; api; false; false] [false; true; true; true] [mgmt; mgmt; mgmt; mgmt]
     [true; true; true; false] [peer; peer; peer; peer]) ∧
  (let '(hc', r) := Factory.Stop true mgmtErr hc in
   let st := MkProcess (Some hc') None in
   r ≠ None ∧ shows [MkProcess (Some hc) None; st; cancelAll st] [false; false; false] [false; false; false] [mgmt; false; false]
     [true; false; false] [peer; peer; peer]) ∧
  (let '(hc', r) := Factory.Stop false mgmtErr hc in
   r = None ∧ shows [MkProcess (Some hc) None; MkProcess (Some hc') None] [false; false] [false; false] [mgmt; mgmt]
     [true; false] [peer; peer]).
Proof.
  destruct hc as [b ty st se n a sn stt mg tr j on sp pc]. cbn [c_backend c_jobs c_poolClosed c_mgmt].
  intros -> ([_ Hr] & Hcl & Hsd) Hl Hdr -> -> Hm. unfold awaitShutdown, DistDrain, Drain, shows. cbn [c_backend]. rewrite Hdr.
  exists (app_serving app), (match mg with Some srv => listening srv | None => false end), (httpServer dm).
  split_and!.
  2-4: destruct mg as [srv|]; cbn; rewrite ?Hdr; rewrite ?(shutdown_listening srv (Hm _ eq_refl)); by split_and!.
  destruct mg as [srv|]; cbn; rewrite ?Hdr; rewrite ?(shutdown_listening srv (Hm _ eq_refl)); (split_and!; [done..|]);
    intros p dm' [= <-]; cbn; intros [= <-]; cbn; eapply Forall_impl; try exact Hr;
      intros [l [ch|]]; cbn; unfold ended; cbn; rewrite ?Hcl; intros E; rewrite ?E, ?andb_true_r, ?orb_false_r; try done;
      rewrite bool_decide_eq_false_2 by set_solver; by rewrite orb_false_r.
Qed.

(** C24: how the server process ends, once it is told to.  When the jobs of the worker pool
    all return, so that its shutdown does, the process exits.  With code zero it went
    through five states, in which first the backend refuses writes, then the API stops
    being served, then the management port and the background jobs end, while the
    inter-node port is never closed and only the goroutines that watch the lifetime of
    the backend end.  With code one the API was never served, and a cache that had been
    built was stopped.  When the pool's shutdown does not return, the process exits only
    if it built no cache; otherwise it waits for ever, deadline or not, after the API has
    stopped and the jobs have been told to end, with the management port and the
    inter-node port still open. *)
Theorem server_life getenv sys apiListen poolReturns mgmtErr :
  ∃ f, go getenv sys apiListen poolReturns mgmtErr = Some f ∧ ∃ api mgmt peer,
  match f with
  | Exits code states =>
      (code = 0%Z ∧ poolReturns = true ∧
       shows states [api; api; false; false; false] [false; true; true; true; true] [mgmt; mgmt; mgmt; false; false]
         [true; true; true; false; false] [peer; peer; peer; peer; peer] ∧
       (∀ p dm, last states = Some p → backendOf p = Some dm → Forall (λ r, ended r dm = watchesCtx r.1) (running dm))) ∨
      (code = 1%Z ∧ (states = [] ∨ poolReturns = true ∧
       shows states [false; false; false] [false; false; false] [mgmt; false; false] [true; false; false] [peer; peer; peer]))
  | Waits states =>
      poolReturns = false ∧
      (shows states [api; api; false; false] [false; true; true; true] [mgmt; mgmt; mgmt; mgmt]
         [true; true; true; false] [peer; peer; peer; peer] ∨
       shows states [false; false] [false; false] [mgmt; mgmt] [true; false] [peer; peer])
  end.
Proof.
  unfold run. destruct (load getenv) as [cfg0|e];
    [|exists (Exits 1 []); split; [done|]; exists true, true, true; right; split; [done|]; by left].
  cbn zeta. set (cfg1 := if IsConfigured _ then _ else _).
  destruct (attachOIDCVerifier _ _ _) as [pol|];
    [|exists (Exits 1 []); split; [done|]; exists true, true, true; right; split; [done|]; by left].
  set (cfg := with_policy pol cfg1). destruct (build_total getenv sys cfg) as [r Hb]. rewrite Hb. cbn [mbind option_bind].
  destruct r as [hc|e]; [|exists (Exits 1 []); split; [done|]; exists true, true, true; right; split; [done|]; by left].
  destruct (built_up _ _ _ _ Hb) as (dm & Hd & Hf & Hl & Hdr & Hj & Hp & Hm).
  destruct (api apiListen cfg) as [app|e].
  - destruct (stops_down mgmtErr hc dm app) as (a & m & pe & H1 & H2 & _); try done.
    destruct poolReturns.
    + destruct (awaitShutdown true mgmtErr hc app) as [ps returns]. destruct H1 as (-> & Hsh & Hend).
      eexists. split; [done|]. exists a, m, pe. left. by split_and!.
    + destruct (awaitShutdown false mgmtErr hc app) as [ps returns]. destruct H2 as (-> & Hsh).
      eexists. split; [done|]. exists a, m, pe. split; [done|]. by left.
  - destruct (stops_down mgmtErr hc dm (MkApiServer pol "" None false)) as (a & m & pe & _ & _ & H3 & H4); try done.
    destruct poolReturns.
    + destruct (Factory.Stop true mgmtErr hc) as [hc' [err|]]; destruct H3 as [Hr Hsh]; [|done].
      eexists. split; [done|]. exists a, m, pe. right. split; [done|]. right. by split.
    + destruct (Factory.Stop false mgmtErr hc) as [hc' [err|]]; destruct H4 as [Hr Hsh]; [done|].
      eexists. split; [done|]. exists a, m, pe. split; [done|]. by right.
Qed.
End Life.
End ServerFacts.

(** ** What a response says of an item *)

(** [wantsJSON], of the Accept header. *)
Definition wantsJSON (accept : string) : bool :=
  if decide (accept = ""%string) then false else containsBytes (bytes_of "application/json") (bytes_of accept).

(** The instants are whole seconds, as RFC 3339 texts have them; [zeroTime] is the time
    that was never set. *)
Definition zeroTime : Z := -62135596800000000000.
Definition wholeSeconds (t : Z) : Z := (t / 1000000000)%Z.

(** [itemRemainingTTL] with its second result; [None] is the empty text. *)
Definition itemRemaining (now : Z) (it : TItem) : Z * option Z :=
  if (ti_Expiration it <=? 0)%Z then (0%Z, None)
  else (Z.max (Z.quot (ti_LastAccess it + ti_Expiration it - now) 1000000) 0,
        Some (wholeSeconds (ti_LastAccess it + ti_Expiration it))).

Record itemEnvelope := MkEnvelope {
  e_Key : string; e_Value : string; e_ValueEncoding : string; e_TTLMs : Z; e_ExpiresAt : option Z; e_Version : Z;
  e_Origin : string; e_LastUpdated : option Z; e_Node : string; e_Owners : list string }.

Definition buildEnvelope (now : Z) (node : string) (owners : list string) (key : string) (it : TItem) : itemEnvelope :=
  let '(ttlMs, expiresAt) := itemRemaining now it in
  MkEnvelope key (string_of_bytes (base64Encode (itemValueAsBytes (ti_Value it)))) "base64" ttlMs expiresAt (ti_Version it)
    (ti_Origin it) (if decide (ti_LastUpdated it = zeroTime) then None else Some (wholeSeconds (ti_LastUpdated it))) node owners.

(** A header's value: a text, a number, an instant or a list joined by commas. *)
Inductive hvalue := HText (s : string) | HNum (n : Z) | HTime (t : Z) | HList (l : list string).

Definition setItemHeaders (now : Z) (node : string) (owners : list string) (it : TItem) : gmap string hvalue :=
  let h := <["X-Cache-Version"%string := HNum (ti_Version it)]> ∅ in
  let h := if decide (ti_Origin it ≠ ""%string) then <["X-Cache-Origin"%string := HText (ti_Origin it)]> h else h in
  let h := if decide (ti_LastUpdated it ≠ zeroTime)
           then <["X-Cache-Last-Updated"%string := HTime (wholeSeconds (ti_LastUpdated it))]> h else h in
  let '(ttlMs, expiresAt) := itemRemaining now it in
  let h := if (0 <? ttlMs)%Z then
             <["X-Cache-Expires-At"%string := match expiresAt with Some t => HTime t | None => HText "" end]>
               (<["X-Cache-TTL-Ms"%string := HNum ttlMs]> h)
           else h in
  let h := if 0 <? length owners then <["X-Cache-Owners"%string := HList owners]> h else h in
  <["X-Cache-Node"%string := HText node]> h.

(** What an envelope says as headers, field by field: an absent field is no header. *)
Definition envelopeHeaders (e : itemEnvelope) : gmap string hvalue :=
  list_to_map (omap (λ '(k, v), pair k <$> v)
    [("X-Cache-Version", Some (HNum (e_Version e)));
     ("X-Cache-Origin", if decide (e_Origin e = ""%string) then None else Some (HText (e_Origin e)));
     ("X-Cache-Last-Updated", HTime <$> e_LastUpdated e);
     ("X-Cache-TTL-Ms", if (e_TTLMs e =? 0)%Z then None else Some (HNum (e_TTLMs e)));
     ("X-Cache-Expires-At", HTime <$> e_ExpiresAt e);
     ("X-Cache-Owners", match e_Owners e with [] => None | l => Some (HList l) end);
     ("X-Cache-Node", Some (HText (e_Node e)))]%string).

(** The headers of a HEAD are what the envelope says, except that an item in its last
    millisecond has an expiry in the envelope and none in the headers. *)
Theorem headers_mirror now node owners key it :
  setItemHeaders now node owners it =
    let e := buildEnvelope now node owners key it in
    if (e_TTLMs e =? 0)%Z then delete "X-Cache-Expires-At"%string (envelopeHeaders e) else envelopeHeaders e.
Proof.
  unfold setItemHeaders, buildEnvelope. unfold itemRemaining.
  assert (∀ o e, (0 ≤ o)%Z → (o = 0%Z ∨ is_Some e) →
    (let h := <["X-Cache-Version"%string := HNum (ti_Version it)]> ∅ in
     let h := if decide (ti_Origin it ≠ ""%string) then <["X-Cache-Origin"%string := HText (ti_Origin it)]> h else h in
     let h := if decide (ti_LastUpdated it ≠ zeroTime)
              then <["X-Cache-Last-Updated"%string := HTime (wholeSeconds (ti_LastUpdated it))]> h else h in
     let h := if (0 <? o)%Z then <["X-Cache-Expires-At"%string := match e with Some t => HTime t | None => HText "" end]>
               (<["X-Cache-TTL-Ms"%string := HNum o]> h) else h in
     let h := if 0 <? length owners then <["X-Cache-Owners"%string := HList owners]> h else h in
     <["X-Cache-Node"%string := HText node]> h) =
    let en := MkEnvelope key (string_of_bytes (base64Encode (itemValueAsBytes (ti_Value it)))) "base64" o e (ti_Version it)
      (ti_Origin it) (if decide (ti_LastUpdated it = zeroTime) then None else Some (wholeSeconds (ti_LastUpdated it))) node owners in
    if (e_TTLMs en =? 0)%Z then delete "X-Cache-Expires-At"%string (envelopeHeaders en) else envelopeHeaders en) as Hall.
  { intros o e Ho He. cbn zeta. unfold envelopeHeaders. cbn [e_Version e_Origin e_LastUpdated e_TTLMs e_ExpiresAt e_Owners e_Node].
    repeat case_decide; try (exfalso; tauto); destruct owners as [|ow ows], e as [ex|];
      (destruct (Z.eqb_spec o 0) as [->|Hne]; [reflexivity|destruct He as [?|[? ?]]; [done|]; rewrite (proj2 (Z.ltb_lt 0 o)) by lia; try done; reflexivity]). }
  destruct (ti_Expiration it <=? 0)%Z.
  - exact (Hall 0%Z None (Z.le_refl 0) (or_introl eq_refl)).
  - refine (Hall _ (Some _) _ _); [apply Z.le_max_r|by right].
Qed.

(** ** Witnesses *)

Definition sampleEnv (vars : list (string * string)) (key : string) : string :=
  default ""%string ((list_to_map vars : gmap string string) !! key).
Definition sampleBuild (getenv : string → string) (cfg : envConfig) : option (result (cache (R := modelRedis))) :=
  buildHyperCache getenv sampleMarshal sampleUnmarshal sample_sum64 sample_sort map_to_list (λ a, a) (λ _ _, false) sampleSystem cfg.
Definition sampleRun (getenv : string → string) (apiListen : option error) (poolReturns : bool) : option (fate (R := modelRedis)) :=
  run getenv (Some "host"%string) (λ _, None) (λ _, Err ErrKeyNotFound) sampleMarshal sampleUnmarshal sample_sum64 sample_sort map_to_list
    (λ a, a) (λ _ _, false) (λ _ _, Ok 7) (λ _, Ok []) (λ _, [1]) (λ _ _, None) sampleSystem apiListen poolReturns None.
Definition smallEnv : string → string :=
  sampleEnv [("HYPERCACHE_NODE_ID", "a"); ("HYPERCACHE_CAPACITY", "5"); ("HYPERCACHE_AUTH_TOKEN", "t"); ("HYPERCACHE_HEARTBEAT", "1.5s")]%string.
Definition largeEnv : string → string :=
  sampleEnv [("HYPERCACHE_NODE_ID", "a"); ("HYPERCACHE_CAPACITY", "500000"); ("HYPERCACHE_AUTH_TOKEN", "t"); ("HYPERCACHE_HEARTBEAT", "1.5s")]%string.
Definition smallConfig : envConfig :=
  MkEnvConfig "a" ":8080" ":8081" ":7946" [] 3 5 zeroPolicy "" "" "" LevelInfo 1 1 1500000000 2 1 1 (MkOIDC "" "" "sub" "scope").

Lemma env_agree key : key ≠ "HYPERCACHE_CAPACITY"%string → smallEnv key = largeEnv key.
Proof.
  intros Hk. unfold smallEnv, largeEnv, sampleEnv. f_equal. cbn [list_to_map foldr uncurry].
  destruct (decide (key = "HYPERCACHE_NODE_ID"%string)) as [->|]; [done|]. cbn. rewrite !(lookup_insert_ne _ "HYPERCACHE_NODE_ID"%string) by done.
  by rewrite !(lookup_insert_ne _ "HYPERCACHE_CAPACITY"%string) by done.
Qed.

Lemma capacity_ignored_witness : sampleRun smallEnv None true = sampleRun largeEnv None true.
Proof.
  exact (proj1 (capacity_ignored (Some "host"%string) (λ _, None) (λ _, Err ErrKeyNotFound) sampleMarshal sampleUnmarshal sample_sum64 sample_sort
    map_to_list (λ a, a) (λ _ _, false) (λ _ _, Ok 7) (λ _, Ok []) (λ _, [1]) (λ _ _, None) smallEnv largeEnv sampleSystem None true None env_agree)).
Defined.

Lemma peer_port_witness :
  ∃ (hc : cache (R := modelRedis)) dm, sampleBuild smallEnv smallConfig = Some (Ok hc) ∧ c_backend hc = BDistMemory dm ∧
    verify (httpAuth dm) "Bearer t" = None ∧ verify (httpAuth dm) "" ≠ None.
Proof.
  assert (match sampleBuild smallEnv smallConfig with
          | Some (Ok hc) => match c_backend hc with BDistMemory _ => true | _ => false end
          | _ => false end = true) as Hok by (vm_compute; reflexivity).
  destruct (sampleBuild smallEnv smallConfig) as [[hc|]|] eqn:E; try discriminate Hok.
  destruct (c_backend hc) as [b|b|b|dm] eqn:Eb; try discriminate Hok. exists hc, dm.
  pose proof (peer_port sampleMarshal sampleUnmarshal sample_sum64 sample_sort map_to_list (λ a, a) (λ _ _, false) smallEnv sampleSystem
    smallConfig hc dm E Eb) as Hp.
  split; [reflexivity|]. split; [exact Eb|]. split.
  - apply Hp. right. reflexivity.
  - intros Hn. apply Hp in Hn as [Hn|Hn]; discriminate Hn.
Defined.

Lemma api_tls_witness :
  ∃ app, runClientAPI (λ _ _, Ok 7) (λ _, Ok []) (λ _, [1]) (Some (ErrOther "in use"))
    (MkEnvConfig "a" ":8080" ":8081" ":7946" [] 3 5 zeroPolicy "" "" "ca.pem" LevelInfo 1 1 1 2 1 1 (MkOIDC "" "" "sub" "scope")) = Ok app ∧
    app_tls app = None.
Proof.
  eexists. split; [reflexivity|].
  eapply (proj1 (proj2 (api_tls (λ _ _, Ok 7) (λ _, Ok []) (λ _, [1]) (Some (ErrOther "in use"))
    (MkEnvConfig "a" ":8080" ":8081" ":7946" [] 3 5 zeroPolicy "" "" "ca.pem" LevelInfo 1 1 1 2 1 1 (MkOIDC "" "" "sub" "scope")) _ eq_refl))).
  reflexivity.
Defined.

(** What a run shows: its exit code, if it exits, and the five views of its states. *)
Definition views (r : option (fate (R := modelRedis))) : option (option Z * list (list bool)) :=
  let all states := [serving <$> states; draining <$> states; mgmtUp <$> states; jobsUp <$> states; peerUp <$> states] in
  match r with
  | Some (Exits code states) => Some (Some code, all states)
  | Some (Waits states) => Some (None, all states)
  | None => None
  end.

(** A clean end, and one in which a job of the pool never returns. *)
Lemma server_life_witness :
  (∃ states, sampleRun smallEnv None true = Some (Exits 0 states) ∧
    shows states [true; true; false; false; false] [false; true; true; true; true] [true; true; true; false; false]
      [true; true; true; false; false] [true; true; true; true; true]) ∧
  ∃ states, sampleRun smallEnv None false = Some (Waits states) ∧
    shows states [true; true; false; false] [false; true; true; true] [true; true; true; true]
      [true; true; true; false] [true; true; true; true].
Proof.
  split.
  - destruct (server_life (R := modelRedis) (Some "host"%string) (λ _, None) (λ _, Err ErrKeyNotFound) sampleMarshal sampleUnmarshal sample_sum64 sample_sort
      map_to_list (λ a, a) (λ _ _, false) (λ _ _, Ok 7) (λ _, Ok []) (λ _, [1]) (λ _ _, None) (λ m, reflexivity _) smallEnv sampleSystem None true None)
      as (f & E & _).
    assert (views (sampleRun smallEnv None true) = Some (Some 0%Z,
      [[true; true; false; false; false]; [false; true; true; true; true]; [true; true; true; false; false];
       [true; true; true; false; false]; [true; true; true; true; true]])) as Hv by (vm_compute; reflexivity).
    unfold sampleRun in *. rewrite E in Hv |- *. destruct f as [code states|states]; [|discriminate Hv].
    injection Hv as -> H1 H2 H3 H4 H5. exists states. split; [reflexivity|]. unfold shows. by split_and!.
  - destruct (server_life (R := modelRedis) (Some "host"%string) (λ _, None) (λ _, Err ErrKeyNotFound) sampleMarshal sampleUnmarshal sample_sum64 sample_sort
      map_to_list (λ a, a) (λ _ _, false) (λ _ _, Ok 7) (λ _, Ok []) (λ _, [1]) (λ _ _, None) (λ m, reflexivity _) smallEnv sampleSystem None false None)
      as (f & E & _).
    assert (views (sampleRun smallEnv None false) = Some (None,
      [[true; true; false; false]; [false; true; true; true]; [true; true; true; true];
       [true; true; true; false]; [true; true; true; true]])) as Hv by (vm_compute; reflexivity).
    unfold sampleRun in *. rewrite E in Hv |- *. destruct f as [code states|states]; [discriminate Hv|].
    injection Hv as H1 H2 H3 H4 H5. exists states. split; [reflexivity|]. unfold shows. by split_and!.
Defined.

(** The exit codes and the ports of small runs: a clean one, a certificate without its
    key, and an API address that is taken, which is only logged. *)
Example small_runs :
  (λ v, (v.1, v.2 !! 0, v.2 !! 4)) <$> views (sampleRun smallEnv None true) =
    Some (Some 0%Z, Some [true; true; false; false; false], Some [true; true; true; true; true]) ∧
  (λ v, (v.1, v.2 !! 0, v.2 !! 4)) <$> views (sampleRun (sampleEnv [("HYPERCACHE_API_TLS_CERT", "c.pem")]%string) None true) =
    Some (Some 1%Z, Some [false; false; false], Some [true; true; true]) ∧
  (λ v, (v.1, v.2 !! 0, v.2 !! 4)) <$> views (sampleRun smallEnv (Some (ErrOther "in use")) true) =
    Some (Some 0%Z, Some [false; false; false; false; false], Some [true; true; true; true; true]).
Proof. vm_compute. split_and!; reflexivity. Qed.
