(* ===== verification/PeerLink.v ===== *)
(** * The links between nodes (pkg/backend/dist_http_server.go, dist_http_transport.go,
      makePeerURLResolver and tryStartHTTP of dist_memory.go)

    Under the calls of PeerHTTP.v: the limits with their defaults, the server and the
    transport that a node makes of them, the body of a set with its optional compression,
    the bound on responses, the address under which a peer is called, and the life of the
    server.

    gzip is a parameter of which only the round trip is assumed.  The web framework
    refuses a request whose body on the wire is longer than its limit and decompresses the
    body that a handler reads, as its documentation and the comment on [handleSet] say.

    The theorems: that the two ends of a node share their limits, that a set arrives
    unchanged whatever the compression settings of both sides, that a decoder never gets
    more than the limit, and which address a peer is called at. *)

From stdpp Require Import base gmap strings list.
From Stdlib Require Import ZArith Lia.
From S2P Require Import Prelude Item Auth Ring Membership DistBuild.

(** ** Limits *)

Record TLSConfig := MkTLSConfig { tls_id : nat; NextProtos : list string }.

Record DistHTTPLimits := MkLimits {
  BodyLimit : Z; ResponseLimit : Z; ReadTimeout : Z; WriteTimeout : Z; IdleTimeout : Z; Concurrency : Z; ClientTimeout : Z;
  TLS : option TLSConfig; CompressionThreshold : Z }.

Definition noLimits : DistHTTPLimits := MkLimits 0 0 0 0 0 0 0 None 0.

Definition httpReadTimeout : Z := 5000000000.
Definition httpWriteTimeout : Z := 5000000000.
Definition defaultDistHTTPBodyLimit : Z := 16 * 1024 * 1024.
Definition defaultDistHTTPResponseLimit : Z := 16 * 1024 * 1024.
Definition defaultDistHTTPIdleTimeout : Z := 60000000000.
Definition defaultDistHTTPConcurrency : Z := 256 * 1024.
Definition defaultDistHTTPClientTimeout : Z := 5000000000.

Definition withDefaults (l : DistHTTPLimits) : DistHTTPLimits :=
  MkLimits (if BodyLimit l <=? 0 then defaultDistHTTPBodyLimit else BodyLimit l)%Z
    (if ResponseLimit l <=? 0 then defaultDistHTTPResponseLimit else ResponseLimit l)%Z
    (if ReadTimeout l <=? 0 then httpReadTimeout else ReadTimeout l)%Z
    (if WriteTimeout l <=? 0 then httpWriteTimeout else WriteTimeout l)%Z
    (if IdleTimeout l <=? 0 then defaultDistHTTPIdleTimeout else IdleTimeout l)%Z
    (if Concurrency l <=? 0 then defaultDistHTTPConcurrency else Concurrency l)%Z
    (if ClientTimeout l <=? 0 then defaultDistHTTPClientTimeout else ClientTimeout l)%Z
    (TLS l) (CompressionThreshold l).

(** ** The server *)

(** The configuration of the application; its other fields are the framework's. *)
Record fiberConfig := MkFiber { f_Read : Z; f_Write : Z; f_Idle : Z; f_Body : Z; f_Concurrency : Z }.

(** [s_ctx] is the context of the handlers, [s_ln] whether there is a listener and with
    which TLS configuration. *)
Record distHTTPServer := MkDistServer {
  s_app : fiberConfig; s_addr : string; s_auth : DistHTTPAuth; s_tls : option TLSConfig; s_ctx : option nat;
  s_ln : option (option TLSConfig); s_serveErr : option error; s_down : bool }.

Definition newDistHTTPServer (addr : string) (limits : DistHTTPLimits) (auth : DistHTTPAuth) : distHTTPServer :=
  let limits := withDefaults limits in
  MkDistServer (MkFiber (ReadTimeout limits) (WriteTimeout limits) (IdleTimeout limits) (BodyLimit limits) (Concurrency limits))
    addr auth (TLS limits) None None None false.

Definition with_ctx (ctx : option nat) (s : distHTTPServer) : distHTTPServer :=
  MkDistServer (s_app s) (s_addr s) (s_auth s) (s_tls s) ctx (s_ln s) (s_serveErr s) (s_down s).

(** [bind] is what the system answers. *)
Definition listen (bind : option error) (s : distHTTPServer) : distHTTPServer * option error :=
  match bind with
  | Some e => (s, Some e)
  | None => (MkDistServer (s_app s) (s_addr s) (s_auth s) (s_tls s) (s_ctx s) (Some (s_tls s)) (s_serveErr s) (s_down s), None)
  end.
(** The routes that [start] registers are those of PeerHTTP.v. *)
Definition start (bindCtx : nat) (bind : option error) (s : distHTTPServer) : distHTTPServer * option error :=
  listen bind (match s_ctx s with None => with_ctx (Some bindCtx) s | Some _ => s end).
(** The goroutine that serves ends with an error, or cleanly. *)
Definition serveEnds (err : option error) (s : distHTTPServer) : distHTTPServer :=
  MkDistServer (s_app s) (s_addr s) (s_auth s) (s_tls s) (s_ctx s) (s_ln s)
    (match err with Some _ => err | None => s_serveErr s end) (s_down s).
(** A nil server is [None]; [shutdownErr] is the framework's answer. *)
Definition LastServeError (s : option distHTTPServer) : option error :=
  match s with None => None | Some s => s_serveErr s end.
Definition stop (shutdownErr : option error) (s : option distHTTPServer) : option distHTTPServer * option error :=
  match s with
  | None => (None, None)
  | Some srv =>
      match s_ln srv with
      | None => (s, None)
      | Some _ => (Some (MkDistServer (s_app srv) (s_addr srv) (s_auth srv) (s_tls srv) (s_ctx srv) (s_ln srv) (s_serveErr srv) true), shutdownErr)
      end
  end.

(** ** The transport *)

(** [t_tls]: the configuration of the client's connections, when it has its own. *)
Record DistHTTPTransport := MkTransport {
  t_timeout : Z; t_tls : option TLSConfig; t_resolver : string → option string; respBodyLimit : Z; t_auth : DistHTTPAuth;
  compressionThreshold : Z }.

Definition NewDistHTTPTransport (timeout : Z) (resolver : string → option string) : DistHTTPTransport :=
  MkTransport (if timeout <=? 0 then defaultDistHTTPClientTimeout else timeout)%Z None resolver defaultDistHTTPResponseLimit noAuth 0.

Definition NewDistHTTPTransportWithAuth (limits : DistHTTPLimits) (auth : DistHTTPAuth) (resolver : string → option string)
    : DistHTTPTransport :=
  let limits := withDefaults limits in
  let tlsConf := match TLS limits with
                 | None => None
                 | Some c => Some (match NextProtos c with [] => MkTLSConfig (tls_id c) ["http/1.1"%string] | _ => c end)
                 end in
  MkTransport (ClientTimeout limits) tlsConf resolver (ResponseLimit limits) auth (CompressionThreshold limits).

Definition NewDistHTTPTransportWithLimits (limits : DistHTTPLimits) (resolver : string → option string) : DistHTTPTransport :=
  NewDistHTTPTransportWithAuth limits noAuth resolver.

(** *** Bodies *)

(** What can be read of a response, and what a decoder makes of it. *)
Definition limitedBody (t : DistHTTPTransport) (body : list Z) : result (list Z) :=
  if (respBodyLimit t <=? 0)%Z then Ok body
  else if (Z.of_nat (length body) <=? respBodyLimit t)%Z then Ok body else Err (ErrOther "http: request body too large").
Definition readAndUnmarshal {A} (unmarshal : list Z → option A) (body : result (list Z)) : result A :=
  match body with
  | Err _ => Err (ErrOther "read response body")
  | Ok buf => match unmarshal buf with None => Err (ErrOther "unmarshal response body") | Some a => Ok a end
  end.

Section Bodies.
Context (gzip : list Z → list Z) (gunzip : list Z → option (list Z)).

(** The writer is a buffer in memory and does not fail. *)
Definition maybeGzip (t : DistHTTPTransport) (payload : list Z) : list Z * bool :=
  if ((compressionThreshold t <=? 0) || (Z.of_nat (length payload) <=? compressionThreshold t))%Z then (payload, false)
  else (gzip payload, true).

(** What the handler of a set reads, [None] when the framework refuses the request. *)
Definition receivedBody (s : distHTTPServer) (wire : list Z * bool) : option (list Z) :=
  if (Z.of_nat (length wire.1) <=? f_Body (s_app s))%Z then (if wire.2 then gunzip wire.1 else Some wire.1) else None.

End Bodies.

(** *** Addresses *)

Section Resolver.
Context (enum : gmap string loc → list (string * loc)).

Definition schemeOf (limits : DistHTTPLimits) : string := match TLS limits with Some _ => "https://" | None => "http://" end.

(** [None] inside is "not found"; outside, a dangling pointer. *)
Definition makePeerURLResolver (limits : DistHTTPLimits) (m : option Membership) (localNode : option Node) (nodeID : string)
    : option (option string) :=
  let fromLocal := match localNode with
                   | Some n => if decide (ID n = nodeID) then Some (String.append (schemeOf limits) (Membership.Address n)) else None
                   | None => None
                   end in
  match m with
  | None => Some fromLocal
  | Some m =>
      l ← List_ enum m;
      Some (match list_find (λ n, ID n = nodeID) l with
            | Some (_, n) => Some (String.append (schemeOf limits) (Membership.Address n))
            | None => fromLocal
            end)
  end.

(** [alivePeerIDs] of dist_keys.go: the nodes that a cluster-wide listing asks. *)
Definition alivePeerIDs (m : option Membership) (localNode : option Node) : option (list string) :=
  match m with
  | None => Some (match localNode with Some n => [ID n] | None => [] end)
  | Some m => l ← List_ enum m; Some (ID <$> filter (λ n : Node, State n = NodeAlive) (l : list Node))
  end.

(** What a node has after [tryStartHTTP]: nothing, or a server and a transport that share
    the limits and the authentication. *)
Definition tryStartLink (ctx : nat) (bind : option error) (nodeAddr : string) (limits : DistHTTPLimits) (auth : DistHTTPAuth)
    (resolver : DistHTTPLimits → string → option string) : option (distHTTPServer * DistHTTPTransport) :=
  if decide (nodeAddr = ""%string) then None
  else
    let limits := withDefaults limits in
    let server := with_ctx (Some ctx) (newDistHTTPServer nodeAddr limits auth) in
    match start ctx bind server with
    | (_, Some _) => None
    | (server, None) => Some (server, NewDistHTTPTransportWithAuth limits auth (resolver limits))
    end.

End Resolver.

(** ** Facts *)

Lemma default_positive (z d : Z) : (0 < d)%Z → (0 < if z <=? 0 then d else z)%Z.
Proof. destruct (Z.leb_spec z 0); lia. Qed.

(** Applying the defaults twice is applying them once, and they leave only positive
    limits: so the server and the transport of a node have the limits of the node. *)
Lemma withDefaults_idem l : withDefaults (withDefaults l) = withDefaults l.
Proof.
  unfold withDefaults at 1. unfold withDefaults. cbn.
  assert (∀ z d : Z, (0 < d)%Z → (if (if z <=? 0 then d else z) <=? 0 then d else if z <=? 0 then d else z)%Z = (if z <=? 0 then d else z)%Z) as E.
  { intros z d Hd. pose proof (default_positive z d Hd). destruct (Z.leb_spec (if z <=? 0 then d else z)%Z 0); [lia|done]. }
  by rewrite !E.
Qed.

Theorem link_limits ctx bind addr limits auth resolver s t :
  tryStartLink ctx bind addr limits auth resolver = Some (s, t) →
  let l := withDefaults limits in
  s_app s = MkFiber (ReadTimeout l) (WriteTimeout l) (IdleTimeout l) (BodyLimit l) (Concurrency l) ∧
  t_timeout t = ClientTimeout l ∧ respBodyLimit t = ResponseLimit l ∧ compressionThreshold t = CompressionThreshold l ∧
  s_auth s = auth ∧ t_auth t = auth ∧ s_ln s = Some (TLS l) ∧ tls_id <$> t_tls t = tls_id <$> TLS l ∧ s_ctx s = Some ctx ∧
  (0 < f_Body (s_app s))%Z ∧ (0 < respBodyLimit t)%Z.
Proof.
  unfold tryStartLink, newDistHTTPServer, NewDistHTTPTransportWithAuth. rewrite !withDefaults_idem. case_decide; [done|].
  assert (0 < BodyLimit (withDefaults limits) ∧ 0 < ResponseLimit (withDefaults limits))%Z as [Hb Hr]
    by (split; by apply default_positive).
  generalize dependent (withDefaults limits). intros l Hb Hr. destruct bind; [done|]. intros [= <- <-].
  cbn. split_and!; try done. by destruct (TLS l) as [[i [|p ps]]|].
Qed.

(** The transport without limits is the one with only the timeout given. *)
Theorem transport_defaults timeout resolver :
  NewDistHTTPTransport timeout resolver =
  NewDistHTTPTransportWithLimits (MkLimits 0 0 0 0 0 0 timeout None 0) resolver.
Proof. reflexivity. Qed.

Section BodyFacts.
Context (gzip : list Z → list Z) (gunzip : list Z → option (list Z)).
Context (Hgzip : ∀ b, gunzip (gzip b) = Some b).

(** A set arrives as it was sent or not at all, whatever the compression settings of the
    two nodes: a receiver that does not compress reads compressed bodies too, and what
    counts against its limit is the length on the wire. *)
Theorem set_body_roundtrip t s payload :
  let wire := maybeGzip gzip t payload in
  receivedBody gunzip s wire = (if (Z.of_nat (length wire.1) <=? f_Body (s_app s))%Z then Some payload else None) ∧
  (wire.2 = true ↔ 0 < compressionThreshold t < Z.of_nat (length payload))%Z.
Proof.
  cbn zeta. unfold receivedBody, maybeGzip. destruct ((_ <=? 0) || _)%Z eqn:E; cbn.
  - split; [done|]. apply orb_true_iff in E as [E%Z.leb_le|E%Z.leb_le]; split; (done || lia).
  - apply orb_false_iff in E as [E1%Z.leb_gt E2%Z.leb_gt]. rewrite Hgzip. split; [done|]. split; [lia|done].
Qed.

End BodyFacts.

(** A transport never gives a decoder more than its limit, and a response within the
    limit is decoded as it is; one byte more is an error, not a truncated document. *)
Theorem bounded_response {A} ctx bind addr limits auth resolver s t (unmarshal : list Z → option A) body :
  tryStartLink ctx bind addr limits auth resolver = Some (s, t) →
  readAndUnmarshal unmarshal (limitedBody t body) =
    if (Z.of_nat (length body) <=? ResponseLimit (withDefaults limits))%Z
    then match unmarshal body with Some a => Ok a | None => Err (ErrOther "unmarshal response body") end
    else Err (ErrOther "read response body").
Proof.
  intros E. destruct (link_limits _ _ _ _ _ _ _ _ E) as (_ & _ & Hr & _ & _ & _ & _ & _ & _ & _ & Hp). cbn zeta in *.
  unfold limitedBody. rewrite (proj2 (Z.leb_gt _ _) Hp), Hr. destruct (_ <=? _)%Z; cbn; [|done]. by destruct (unmarshal body).
Qed.

Section ResolverFacts.
Context (enum : gmap string loc → list (string * loc)) (Henum : ∀ m, enum m ≡ₚ map_to_list m).

(** A peer is called at the address in its membership entry, with TLS exactly when the
    caller has it, and a node that is not a member is not called, except the caller itself. *)
Theorem peer_url limits m localNode nodeID :
  wf m →
  makePeerURLResolver enum limits (Some m) localNode nodeID =
    Some (match view m !! nodeID with
          | Some n => Some (String.append (schemeOf limits) (Membership.Address n))
          | None => match localNode with
                    | Some n => if decide (ID n = nodeID) then Some (String.append (schemeOf limits) (Membership.Address n)) else None
                    | None => None
                    end
          end).
Proof.
  intros Hw. unfold makePeerURLResolver. destruct (List_ok enum Henum m Hw) as (l & El & _). rewrite El. cbn [mbind option_bind].
  pose proof (membership_snapshot_ok enum Henum m l Hw El) as Hin. f_equal.
  destruct (list_find (λ n, ID n = nodeID) l) as [[i n]|] eqn:Ef.
  - apply list_find_Some in Ef as (Hi & Hn & _). apply list_elem_of_lookup_2, Hin in Hi. rewrite Hn in Hi. by rewrite Hi.
  - apply list_find_None in Ef. destruct (view m !! nodeID) as [n|] eqn:Ev; [|done].
    rewrite Forall_forall in Ef. pose proof (view_ID _ _ _ Hw Ev) as Hid. destruct (Ef n); [|done]. apply Hin. by rewrite Hid.
Qed.

(** A listing asks every member that is alive, once, and no other node. *)
Theorem alive_peers m localNode :
  wf m → ∃ ids, alivePeerIDs enum (Some m) localNode = Some ids ∧ NoDup ids ∧
    ∀ id, id ∈ ids ↔ ∃ n, view m !! id = Some n ∧ State n = NodeAlive.
Proof.
  intros Hw. unfold alivePeerIDs. destruct (List_ok enum Henum m Hw) as (l & El & Hp). rewrite El. cbn.
  pose proof (membership_snapshot_ok enum Henum m l Hw El) as Hin. eexists. split; [done|]. split.
  - assert (NoDup (ID <$> l)) as Hnd.
    { rewrite Hp. pose proof (NoDup_fst_map_to_list (view m)) as Hk.
      enough (ID <$> (map_to_list (view m)).*2 = (map_to_list (view m)).*1) as -> by done.
      rewrite <- list_fmap_compose. apply list_fmap_ext. intros i [k n] Hi. cbn.
      apply list_elem_of_lookup_2, elem_of_map_to_list in Hi. by apply (view_ID _ _ _ Hw). }
    eapply sublist_NoDup; [exact Hnd|]. apply fmap_sublist, sublist_filter.
  - intros id. rewrite list_elem_of_fmap. split.
    + intros (n & -> & [Ha Hn]%list_elem_of_filter). exists n. split; [by apply Hin|done].
    + intros (n & Hv & Ha). pose proof (view_ID _ _ _ Hw Hv) as <-. exists n. split; [done|].
      apply list_elem_of_filter. split; [done|]. by apply Hin.
Qed.

End ResolverFacts.

(** With the default address of the server binary, a node that knows another one under
    that address calls a URL without a host, which names the caller's own machine. *)
Example default_address_has_no_host :
  makePeerURLResolver map_to_list noLimits None (Some (MkNode "b" ":7946" NodeAlive 1 0)) "b" = Some (Some "http://:7946"%string).
Proof. reflexivity. Qed.

(** The life of a server: a listener that does not bind leaves nothing to stop, the error
    of the goroutine that serves is kept, and stopping a server twice is harmless. *)
Example server_lifecycle :
  let s := newDistHTTPServer "a:1" noLimits noAuth in
  (start 0 (Some (ErrOther "in use")) s).2 = Some (ErrOther "in use") ∧
  stop None (Some (start 0 (Some (ErrOther "in use")) s).1) = (Some (with_ctx (Some 0) s), None) ∧
  LastServeError (Some (serveEnds (Some (ErrOther "accept")) (start 0 None s).1)) = Some (ErrOther "accept") ∧
  stop None (stop None (Some (start 0 None s).1)).1 = stop None (Some (start 0 None s).1) ∧ stop None None = (None, None).
Proof. vm_compute. done. Qed.
