(* ===== verification/StatsView.v ===== *)
(** * The statistics collector (pkg/stats/histogramcollector.go)

    The map of statistics with its five recording methods and what can be read from it:
    mean, median, percentiles, variance and the whole snapshot.  [Stats.v] has one
    statistic with its concurrent recorders; here a call records alone, as its eight
    atomic steps in a row.  Results in floating point are those of Float.v.

    The theorems: a record is the run of its atomic steps; and after any sequence of calls
    the snapshot holds exactly the statistics that were recorded, with the exact count,
    sum, minimum and maximum, and with the median and the variance of the latest values. *)

From stdpp Require Import base gmap strings list sorting.
From Stdlib Require Import ZArith Lia SpecFloat.
From S2P Require Import Prelude Stats Float.

(** ** The collector *)

Record HistogramStatsCollector := MkCollector { c_stats : gmap string statShard; c_sampleCap : Z }.

Definition NewHistogramStatsCollectorWithCapacity (capacity : Z) : HistogramStatsCollector := MkCollector ∅ (sampleCap capacity).
Definition NewHistogramStatsCollector : HistogramStatsCollector := NewHistogramStatsCollectorWithCapacity DefaultSampleCapacity.

(** [shard]: the statistic of a name, made at its first use. *)
Definition shardOf (c : HistogramStatsCollector) (key : string) : statShard :=
  match c_stats c !! key with Some s => s | None => newShard (c_sampleCap c) end.
Definition touchShard (c : HistogramStatsCollector) (key : string) : HistogramStatsCollector :=
  MkCollector (<[key := shardOf c key]> (c_stats c)) (c_sampleCap c).

(** The steps of one recorder that nobody interrupts. *)
Definition recordShard (value : Z) (s : statShard) : statShard :=
  (Nat.iter 8 (λ '(pc, s), recordStep pc s) (RCount value, s)).2.
Definition record (key : string) (value : Z) (c : HistogramStatsCollector) : HistogramStatsCollector :=
  MkCollector (<[key := recordShard value (shardOf c key)]> (c_stats c)) (c_sampleCap c).

Definition Incr (stat : string) (value : Z) : HistogramStatsCollector → HistogramStatsCollector := record stat value.
Definition Decr (stat : string) (value : Z) : HistogramStatsCollector → HistogramStatsCollector := record stat (i64 (- value)).
Definition Timing (stat : string) (value : Z) : HistogramStatsCollector → HistogramStatsCollector := record stat value.
Definition Gauge (stat : string) (value : Z) : HistogramStatsCollector → HistogramStatsCollector := record stat value.
Definition Histogram (stat : string) (value : Z) : HistogramStatsCollector → HistogramStatsCollector := record stat value.

(** ** Reading *)

Definition meanOf (s : statShard) : spec_float := fdiv (float64 (sum s)) (float64 (count s)).

(** Reading a statistic makes it when it is not there. *)
Definition Mean (stat : string) (c : HistogramStatsCollector) : HistogramStatsCollector * spec_float :=
  let s := shardOf c stat in (touchShard c stat, if (count s =? 0)%Z then float64 0 else meanOf s).

Definition medianOfFloat (sorted : list Z) : spec_float :=
  let n := length sorted in
  if n =? 0 then float64 0
  else if Nat.modulo n 2 =? 1 then float64 (sorted !!! Nat.div n 2)
  else fdiv (float64 (i64 ((sorted !!! (Nat.div n 2 - 1)) + (sorted !!! Nat.div n 2)))) (float64 2).
Definition Median (stat : string) (c : HistogramStatsCollector) : HistogramStatsCollector * spec_float :=
  (touchShard c stat, medianOfFloat (snapshotSorted (shardOf c stat))).

(** The cases of a percentile for [n] samples. *)
Definition pctOf (n : nat) (percentile : spec_float) : pct :=
  if SFleb percentile (float64 0) then PLow
  else if SFleb (float64 1) percentile then PHigh
  else PMid (Z.to_nat (truncFloat (fmul (float64 (Z.of_nat n)) percentile))).
Definition Percentile (stat : string) (percentile : spec_float) (c : HistogramStatsCollector) : HistogramStatsCollector * spec_float :=
  let sorted := snapshotSorted (shardOf c stat) in
  (touchShard c stat, if length sorted =? 0 then float64 0 else float64 (percentileOf sorted (pctOf (length sorted) percentile))).

Definition varianceOf (values : list Z) (mean : spec_float) : spec_float :=
  match values with
  | [] => float64 0
  | _ => fdiv (foldl (λ acc value, let diff := fsub (float64 value) mean in fadd acc (fmul diff diff)) (float64 0) values)
           (float64 (Z.of_nat (length values)))
  end.

Record Stat := MkStatView {
  st_Mean : spec_float; st_Median : spec_float; st_Min : Z; st_Max : Z; st_Values : list Z; st_Count : Z; st_Sum : Z;
  st_Variance : spec_float }.

Definition statOf (s : statShard) : option Stat :=
  if (count s =? 0)%Z then None
  else
    let sorted := snapshotSorted s in
    let mean := meanOf s in
    Some (MkStatView mean (medianOfFloat sorted) (minV s) (maxV s) sorted (count s) (sum s) (varianceOf sorted mean)).
Definition GetStats (c : HistogramStatsCollector) : gmap string Stat := omap statOf (c_stats c).

(** ** Facts *)

(** A recorder alone: at most one attempt at each extreme, and the lock is free. *)
Lemma recordShard_eq v s : locked s = false →
  recordShard v s = ringWrite v (MkStat (i64 (count s + 1)) (i64 (sum s + v)) (Z.min (minV s) v) (Z.max (maxV s) v) false
    (samples s) (pos s) (written s)).
Proof.
  intros Hl. destruct s as [c su mi ma lk sa po wr]. cbn in Hl. subst lk. unfold recordShard. cbn [Nat.iter nat_rect].
  cbn [recordStep minV maxV count sum locked samples pos written].
  destruct (Z.leb_spec mi v); cbn [recordStep minV maxV count sum locked samples pos written];
    rewrite ?Z.eqb_refl; cbn [recordStep minV maxV count sum locked samples pos written];
    (destruct (Z.leb_spec v ma); cbn [recordStep minV maxV count sum locked samples pos written];
     rewrite ?Z.eqb_refl; cbn [recordStep minV maxV count sum locked samples pos written];
     rewrite ?Z.eqb_refl; cbn [recordStep minV maxV count sum locked samples pos written]);
    unfold ringWrite; cbn; f_equal; lia.
Qed.

(** A statistic that has recorded [h]. *)
Record holds (cap : nat) (h : list Z) (s : statShard) : Prop := {
  h_count : count s = i64 (Z.of_nat (length h));
  h_sum : sum s = i64 (total h);
  h_min : minV s = foldr Z.min MaxInt64 h;
  h_max : maxV s = foldr Z.max MinInt64 h;
  h_free : locked s = false;
  h_ring : ring_ok cap h s }.

Lemma foldr_snoc_comm (f : Z → Z → Z) (e v : Z) h :
  (∀ a b c, f a (f b c) = f (f a b) c) → (∀ a b, f a b = f b a) → foldr f e (h ++ [v]) = f (foldr f e h) v.
Proof.
  intros Ha Hc. induction h as [|x h IH]; cbn; [apply Hc|]. by rewrite IH, Ha.
Qed.

Lemma newShard_holds cap : holds (Z.to_nat (sampleCap cap)) [] (newShard cap).
Proof.
  assert (0 < sampleCap cap)%Z by (unfold sampleCap, DefaultSampleCapacity; destruct (Z.leb_spec cap 0); lia).
  split; try done. unfold ring_ok, newShard. cbn [samples pos written length]. rewrite length_replicate. split; [done|].
  destruct (Nat.ltb_spec 0 (Z.to_nat (sampleCap cap))); [|lia]. cbn. by rewrite Nat.sub_0_r.
Qed.

Lemma recordShard_holds cap h v s : 0 < cap → holds cap h s → holds cap (h ++ [v]) (recordShard v s).
Proof.
  intros Hp [H1 H2 H3 H4 H5 H6]. rewrite recordShard_eq by done.
  split; cbn [count sum minV maxV locked ringWrite].
  - rewrite H1, i64_add_l, length_app. cbn. f_equal. lia.
  - rewrite H2, i64_add_l. f_equal. unfold total. rewrite foldr_snoc_comm; [done|lia|lia].
  - rewrite H3, foldr_snoc_comm; [done|lia|lia].
  - rewrite H4, foldr_snoc_comm; [done|lia|lia].
  - done.
  - apply (ringWrite_ok cap h v (MkStat (i64 (count s + 1)) (i64 (sum s + v)) (Z.min (minV s) v) (Z.max (maxV s) v) false
      (samples s) (pos s) (written s)) Hp). exact H6.
Qed.

(** ** Sequences of calls *)

Inductive method := MIncr | MDecr | MTiming | MGauge | MHistogram.
Definition call (x : string * method * Z) : HistogramStatsCollector → HistogramStatsCollector :=
  match x with
  | (stat, MIncr, v) => Incr stat v
  | (stat, MDecr, v) => Decr stat v
  | (stat, MTiming, v) => Timing stat v
  | (stat, MGauge, v) => Gauge stat v
  | (stat, MHistogram, v) => Histogram stat v
  end.
Definition calls (xs : list (string * method * Z)) (c : HistogramStatsCollector) : HistogramStatsCollector := foldl (λ c x, call x c) c xs.

(** What a list of calls records of a statistic. *)
Definition recorded (stat : string) (xs : list (string * method * Z)) : list Z :=
  omap (λ '(k, m, v), if decide (k = stat) then Some (match m with MDecr => i64 (- v) | _ => v end) else None) xs.

Lemma call_record k m v c : call (k, m, v) c = record k (match m with MDecr => i64 (- v) | _ => v end) c.
Proof. by destruct m. Qed.

Definition collector_ok (cap : nat) (xs : list (string * method * Z)) (c : HistogramStatsCollector) : Prop :=
  Z.to_nat (c_sampleCap c) = cap ∧ sampleCap (c_sampleCap c) = c_sampleCap c ∧
  ∀ stat, match c_stats c !! stat with Some s => recorded stat xs ≠ [] ∧ holds cap (recorded stat xs) s | None => recorded stat xs = [] end.

Lemma recorded_snoc stat xs k m v :
  recorded stat (xs ++ [(k, m, v)]) =
  recorded stat xs ++ (if decide (k = stat) then [match m with MDecr => i64 (- v) | _ => v end] else []).
Proof. unfold recorded. rewrite omap_app. cbn. by case_decide. Qed.

Lemma call_ok cap xs x c : 0 < cap → collector_ok cap xs c → collector_ok cap (xs ++ [x]) (call x c).
Proof.
  intros Hp (H1 & H2 & H3). destruct x as [[k m] v]. rewrite call_record. split_and!; [done|done|].
  intros stat. cbn [record c_stats]. rewrite recorded_snoc. destruct (decide (k = stat)) as [->|Hne].
  - rewrite lookup_insert_eq. split; [by destruct (recorded stat xs)|]. apply recordShard_holds; [done|].
    unfold shardOf. specialize (H3 stat). destruct (c_stats c !! stat); [tauto|]. rewrite H3. rewrite <- H1, <- H2 at 1. apply newShard_holds.
  - rewrite lookup_insert_ne, app_nil_r by done. apply H3.
Qed.

Lemma calls_ok cap ys : ∀ xs c, 0 < cap → collector_ok cap xs c → collector_ok cap (xs ++ ys) (calls ys c).
Proof.
  induction ys as [|y ys IH]; intros xs c Hp Hc; [by rewrite app_nil_r|]. unfold calls in *. cbn [foldl].
  rewrite cons_middle, app_assoc. apply IH; [done|]. by apply call_ok.
Qed.

Lemma sampleCap_fix cap : (0 < sampleCap cap)%Z ∧ sampleCap (sampleCap cap) = sampleCap cap.
Proof. unfold sampleCap, DefaultSampleCapacity. destruct (Z.leb_spec cap 0); cbn; [done|]. destruct (Z.leb_spec cap 0); lia. Qed.

(** After any sequence of fewer than 2^63 calls on a new collector, the snapshot has an
    entry for exactly the statistics that were recorded; its count, minimum and maximum
    are exact, its sum is exact as a 64-bit integer, its values are the latest ones in
    order, and mean, median and variance are computed from these in floating point. *)
Theorem collector_exact capacity xs stat :
  (Z.of_nat (length xs) < 2 ^ 63)%Z →
  let h := recorded stat xs in
  let window := merge_sort Z.le (lastn (Z.to_nat (sampleCap capacity)) h) in
  let mean := fdiv (float64 (i64 (total h))) (float64 (Z.of_nat (length h))) in
  GetStats (calls xs (NewHistogramStatsCollectorWithCapacity capacity)) !! stat =
    match h with
    | [] => None
    | _ => Some (MkStatView mean (medianOfFloat window) (foldr Z.min MaxInt64 h) (foldr Z.max MinInt64 h) window
             (Z.of_nat (length h)) (i64 (total h)) (varianceOf window mean))
    end.
Proof.
  intros Hlen. destruct (sampleCap_fix capacity) as [Hp Hf]. cbn zeta.
  destruct (calls_ok (Z.to_nat (sampleCap capacity)) xs [] (NewHistogramStatsCollectorWithCapacity capacity)) as (_ & _ & Hall);
    [lia|by split_and!|]. specialize (Hall stat). cbn [app] in Hall. unfold GetStats. rewrite lookup_omap.
  set (cap := Z.to_nat (sampleCap capacity)) in *. assert (0 < cap) as Hcap by lia.
  destruct (c_stats _ !! stat) as [s|]; cbn [option_bind mbind]; [|by rewrite Hall].
  destruct Hall as [Hne [H1 H2 H3 H4 H5 H6]].
  assert (length (recorded stat xs) ≤ length xs) as Hle.
  { unfold recorded. clear. induction xs as [|[[k m] v] xs IH]; cbn; [lia|]. case_decide; cbn; lia. }
  assert (count s = Z.of_nat (length (recorded stat xs))) as Hc by (rewrite H1; apply i64_small; lia).
  destruct (recorded stat xs) as [|x h] eqn:Eh; [done|].
  assert (0 < written s) as Hw.
  { destruct H6 as [_ Hr]. destruct (_ <? _); destruct Hr as (_ & _ & ->); cbn; lia. }
  unfold statOf, snapshotSorted. rewrite Hc. destruct (Z.eqb_spec (Z.of_nat (length (x :: h))) 0) as [E|_]; [cbn in E; lia|].
  destruct (Nat.ltb_spec 0 (written s)); [|lia]. rewrite (stats_snapshot_ok cap (x :: h) s H6). unfold meanOf.
  by rewrite Hc, H2, H3, H4.
Qed.

(** Reading changes no statistic, but leaves an empty one, which a snapshot skips. *)
Theorem reads_harmless stat percentile c :
  GetStats (Mean stat c).1 = GetStats c ∧ GetStats (Median stat c).1 = GetStats c ∧ GetStats (Percentile stat percentile c).1 = GetStats c.
Proof.
  enough (GetStats (touchShard c stat) = GetStats c) as E by done. unfold GetStats. apply map_eq. intros k.
  rewrite !lookup_omap. cbn [touchShard c_stats]. destruct (decide (stat = k)) as [<-|]; [|by rewrite lookup_insert_ne].
  rewrite lookup_insert_eq. unfold shardOf. by destruct (c_stats c !! stat).
Qed.

(** The snapshot of a small history, in whole numbers: the mean and the variance of the
    window around the mean of everything recorded. *)
Example small_history :
  (λ st, (st_Values st, st_Count st, st_Sum st, truncFloat (st_Mean st), truncFloat (st_Median st), truncFloat (st_Variance st))) <$>
    (GetStats (calls [("a", MIncr, 100); ("b", MGauge, 7); ("a", MDecr, 4); ("a", MTiming, 6)]%Z%string
       (NewHistogramStatsCollectorWithCapacity 2)) !! "a"%string) =
  Some ([-4; 6]%Z, 3%Z, 102%Z, 34%Z, 1%Z, 1114%Z).
Proof. vm_compute. reflexivity. Qed.
